(* ===== verification/_CoqProject ===== *)
-Q . S2P
Prelude.v
Pb.v
Frame.v
GoStrings.v
Errs.v
Msg.v
StreamCodec.v
UnaryCodec.v
Ring.v
Queue.v
FlowControl.v
RoundRobin.v
ConsistentHash.v
HttpRule.v
Dat.v
Router.v
Service.v
Rpc.v
Naming.v
ClientTransport.v
ClientOptions.v
Client.v
ClientRpc.v
StreamServer.v
StreamClient.v
Plugin.v
ConnPool.v
Multiplexed.v
KeepOrder.v
HealthCheck.v
Rpcz.v
