(* ===== verification/Prelude.v ===== *)
(** * tRPC-Go: a verification library

    This library models the core of the tRPC-Go framework as Rocq definitions that follow the
    Go code, and proves what makes the parts correct.  Paths are relative to src/.

    ** The program and its parts

    A call travels as a frame: a client encodes a message head and a body (codec.go for unary
    calls, codec_stream.go for streams), the transport writes the frame to a connection that
    comes from a pool (pool/connpool) or is shared (pool/multiplexed), the framer of the peer
    cuts the byte stream into frames, the server codec decodes the frame into the message of the
    call (codec/message_impl.go), and the service dispatches it.  Around this path are the load balancers
    that choose a node (naming/loadbalance), the queues between goroutines
    (internal/queue, internal/ring), flow control of streams (stream/flow_control.go), the
    set-up of plugins (plugin) and the path templates of RESTful services (internal/httprule).

    ** Files

    - Prelude.v (this file): automation, hint databases, results of fallible code ([result],
      with [Panic] for a Go panic), machine integers as [Z] with explicit wrap-around ([u8],
      [u16], [u32]...), big-endian encoding, list lemmas.
    - Pb.v: the protobuf messages of the protocol.  Marshalling and the values of the protocol's enums are
      not code of the repository: they are the classes [Message] and [PbEnum], with the laws
      [MessageOk] and [PbEnumOk] that the codecs rely on.
    - Frame.v: [FrameHead], [construct], [extract], the framer ([ReadFrame]), of codec.go.
    - GoStrings.v: functions of Go's packages strings and bytes.
    - Errs.v: errs/errs.go.
    - Msg.v: the message of a call, codec/message_impl.go.
    - StreamCodec.v: codec_stream.go; the server's table of init metas is explicit state.
    - UnaryCodec.v: [ServerCodec] and [ClientCodec] of codec.go.
    - Ring.v, Queue.v: internal/ring/ring.go and internal/queue/queue.go as step relations over the
      atomic operations of any number of goroutines.
    - FlowControl.v: stream/flow_control.go, with the messages in flight.
    - RoundRobin.v: round robin and smooth weighted round robin.
    - HttpRule.v: internal/httprule: parser, printer, matcher.
    - Plugin.v: plugin/plugin.go and plugin/setup.go.
    - ConnPool.v: pool/connpool/connection_pool.go as a step relation over its critical
      sections, on a heap of linked connections.
    - Multiplexed.v: pool/multiplexed/multiplexed.go, the stream connections of a node.
    - Dat.v: internal/dat/dat.go, the double array trie of field paths.
    - Router.v: the routes of a RESTful service (restful/router_trie.go, restful/router.go) and the
      filter of query parameters (restful/transcode.go), on top of HttpRule.v and Dat.v.
    - Service.v: the path of a request through a service (server/service.go), with filter chains
      (filter/filter.go), timeouts (server/full_link_timeout.go), registries of formats
      (codec/serialization.go, codec/compress.go), registration with the router of Router.v, and
      the callers in the TCP transport (transport/server_transport_tcp.go).  A computation is a
      function of the environment of the request that may panic; shared errors are on a heap.
    - Rpc.v: client codec, transport, service and server codec put together.
    - ConsistentHash.v: naming/loadbalance/consistenthash, the ring of virtual nodes.
    - Naming.v: node selection (naming/selector, naming/bannednodes): the selectors by address, by
      target and through discovery, router, balancer and circuit breaker, and the bans of retries.
    - ClientTransport.v: transport/client_transport*.go, one exchange over TCP or UDP with or without a
      connection pool or a shared connection.
    - ClientOptions.v: client/options.go and client/config.go: options, the options that a
      configuration gives, the registry of options, and slices of options shared by calls.
    - Client.v: client/client.go: [Invoke], the chain of filters, [selectorFilter] and [callFunc].  A
      computation takes the environment of one call: message, options by address, shared errors.
    - ClientRpc.v: the client of Client.v, a transport and the service of Rpc.v put together.
    - StreamServer.v: stream/server.go: the dispatcher of frames, the streams of the server with
      their queues, and the goroutines of their handlers, as a step relation.
    - StreamClient.v: stream/client.go and client/stream.go: opening a stream, its methods, the dispatcher
      and the goroutine that waits for the end of the context, as a step relation.
    - KeepOrder.v: internal/keeporder/actor, the goroutines that run the requests of a key, as a step
      relation over locks and channels.
    - HealthCheck.v: healthcheck, the states of the services and the index of services by state.
    - Rpcz.v: rpcz, spans on a heap with the pool that reuses them, and their bounded store.

    An operation has the name it has in Go; a method that locks, and calls others in between,
    is split into its critical sections ([put_locked], ...), which the step relation composes.

    ** What the theorems show

    - Round trips: what one codec encodes the other decodes (unary requests and responses,
      stream INIT, DATA and RESET frames, frame construction and extraction, framing of a
      whole stream of bytes, path templates).
    - Safety of concurrent parts under every interleaving: the ring and the queue are FIFO
      without loss, slots and pooled connections are exclusive, pool limits hold, responses on
      a shared connection do not cross, flow control conserves the window.
    - Liveness: a waiting goroutine has a wake-up on its way (queue, flow control), a waiting
      virtual connection is registered on an open connection, acyclic plugins are all set up.
    - Refinement and equivalence: the two-level table of streams implements an abstract
      table, a ring operation that runs alone implements the bounded queue, name checks agree with the
      documented regular expression, parsing and matching agree with the language of the templates.
    - Errors: truncated or oversized frames, foreign responses, oversized responses.
    - Routing: the trie of routes implements the table of bindings, a route is found exactly if
      a template matches, and the double array trie answers whether a bound field is a prefix.
    - Calls: a remote call gives its caller what the method returns, an error with a code reaches the
      caller with code and message, counters of the service are balanced on every path and tokens unless
      the request panics; the same from [Invoke] of a client to the handler and back, with what the selector is told.
    - Nodes: consistent hashing picks the owner of a key and moves no key of another node, retries
      go to distinct addresses, every path of the client transport closes its connection once.
    - Keep order: jobs of a key run in order and one at a time, whatever the interleaving.
    - Tracing: a span that the pool gives out is referred to by nobody, and the store is the list of the
      last spans; health: the index by state agrees with the states.
    - Streams: whatever the interleaving, a stream of the server gets the frames of its
      connection in order, and an error of the connection wakes every blocked handler; a reader of the
      client gets all that the server sent and then the end, in a bounded number of steps.

    Where the code is right only under a condition, the condition is a hypothesis and the doc comment of
    the theorem names it, and what happens without it is a lemma on a concrete run beside it:
    - the ring: no counter lags by 2^31 ([windowed]; all runs of fewer operations, [few_windowed]);
    - flow control: the receiver counts at least what the sender took ([compression_stalls]);
    - spans: none is put into the pool between the halves of its [End] ([end_races_panic]; children that end
      before their parents, [children_first]); ids are not repeated ([repeated_id_forgotten]);
    - streams of the server: no INIT under an id in use ([duplicate_init_blocks]);
    - consistent hashing: the same replicas and no nil node in every call ([replicas_ignored],
      [nil_node_panics]), and for stability no meeting of virtual nodes ([virtual_text_ambiguous]);
    - overload tokens: the request does not panic ([panic_keeps_token]);
    - errors of calls: a code other than 0 ([code_zero_succeeds]);
    - options: the slices that are rebuilt ([stream_filters_shared]); routes: their registration
      succeeded ([Build_panics]).

    ** Fuel and bounds

    Parsers and loops that are not structurally recursive take fuel that is computed from the
    input (the length of the path, the number of plugins); the theorems [Parse_total],
    [setupPlugins_ordered], [Build_total] show that it does not run out.  Integers of the code are
    [Z] with the truncation written where Go truncates; lengths of Go slices are below 2^63.

    ** What is not modelled

    - Marshalling and compression of bodies (third-party packages; see Pb.v).
    - Sockets, TLS, graceful restart, the transports and HTTP (net, net/http, fasthttp):
      input and output around the parts modelled.
    - Configuration files, logging, metrics, admin pages: glue and I/O.
    - Generated code, mocks, examples, test protocols.
    - Concurrent requests of one service: a request is modelled on its own environment; what others
      do to the world meanwhile is not interleaved with its steps.
    - The spans that a call opens (rpcz itself is modelled), reports to metrics and the pre-warming of
      pools in the client.
    - Population of protobuf messages by reflection (restful/populate_util.go): a parameter of
      [transcodeQueryParams].
*)

From Stdlib Require Export ZArith Lia.
From Stdlib.Strings Require Byte.
From stdpp Require Export base gmap sets list strings pretty.

#[global] Set Default Goal Selector "!".

(** ** Automation shared by every component *)

Create HintDb trpc.
Create Rewrite HintDb trpc.
Create Rewrite HintDb trpc_len.

(** Case analysis on the scrutinee of the first [match] of the goal. *)
Ltac break_goal :=
  match goal with
  | |- context [match ?x with _ => _ end] => destruct x eqn:?
  end.

(** Case analysis on the scrutinee of a [match] of a hypothesis. *)
Ltac break_hyp :=
  match goal with
  | H : context [match ?x with _ => _ end] |- _ => destruct x eqn:?
  end.

(** Turn the boolean tests of the code into propositions. *)
Ltac bool_to_prop :=
  repeat match goal with
  | H : (_ && _)%bool = true |- _ => apply andb_true_iff in H; destruct H
  | H : (_ || _)%bool = false |- _ => apply orb_false_iff in H; destruct H
  | H : negb _ = true |- _ => apply negb_true_iff in H
  | H : negb _ = false |- _ => apply negb_false_iff in H
  | H : Z.eqb _ _ = true |- _ => apply Z.eqb_eq in H
  | H : Z.eqb _ _ = false |- _ => apply Z.eqb_neq in H
  | H : Z.ltb _ _ = true |- _ => apply Z.ltb_lt in H
  | H : Z.ltb _ _ = false |- _ => apply Z.ltb_ge in H
  | H : Z.leb _ _ = true |- _ => apply Z.leb_le in H
  | H : Z.leb _ _ = false |- _ => apply Z.leb_gt in H
  | H : Nat.eqb _ _ = true |- _ => apply Nat.eqb_eq in H
  | H : Nat.eqb _ _ = false |- _ => apply Nat.eqb_neq in H
  | H : Nat.ltb _ _ = true |- _ => apply Nat.ltb_lt in H
  | H : Nat.ltb _ _ = false |- _ => apply Nat.ltb_ge in H
  | H : Nat.leb _ _ = true |- _ => apply Nat.leb_le in H
  | H : Nat.leb _ _ = false |- _ => apply Nat.leb_gt in H
  | H : bool_decide _ = true |- _ => apply bool_decide_eq_true in H
  | H : bool_decide _ = false |- _ => apply bool_decide_eq_false in H
  end.

Declare Scope go_scope.
Delimit Scope go_scope with go.

(** ** Field assignment

    [r <| f := v |>] is the record [r] after the Go assignment [r.f = v].  A record
    type takes part by giving its eta expansion; the update function of a field is
    then computed from it. *)

Class Eta (R : Type) := eta : R → R.
Class Assign {R F : Type} (field : R → F) := assign : F → R → R.

Ltac solve_assign :=
  match goal with
  | |- @Assign ?R ?F ?field =>
    let expanded := eval cbv beta delta [eta] in (@eta R _) in
    let expanded := match expanded with
      | ?c => let c' := eval red in c in c' | ?c => c end in
    match eval pattern field in expanded with
    | (fun _ => ?build) field => fail 2 "the field does not occur in the record's expansion"
    | ?build field => exact (fun (v : F) => build (fun _ => v))
    end
  end.
#[global] Hint Extern 1 (Assign _) => solve_assign : typeclass_instances.

Notation "r <| f := v |>" := (@assign _ _ f _ v r)
  (at level 12, left associativity, format "r  <| f  :=  v |>") : go_scope.

(** ** Go values *)

Abbreviation byte := Byte.byte.
Abbreviation bytes := (list Byte.byte).

#[global] Instance byte_eq_dec : EqDecision byte := Byte.byte_eq_dec.

(** Errors.  [Plain] is the result of [errors.New] or of [fmt.Errorf] without
    a verb [%w]; [Wrapped] the result of [fmt.Errorf] with [%w]: the text before the
    wrapped error and the error.  [FrameTooLarge] is the type of that name of
    codec.go.  [Status] is a non-nil [*errs.Error] without a cause (the call stack
    is left out), [StatusOf] one with a cause, and [NilStatus] an interface that
    holds a nil [*errs.Error]. *)
Inductive error : Type :=
| Plain (text : string)
| Wrapped (prefix : string) (inner : error)
| FrameTooLarge (maxFrameSize : Z)
| Status (Type_ Code : Z) (Msg Desc : string)
| StatusOf (Type_ Code : Z) (Msg Desc : string) (cause : error)
| NilStatus.

#[global] Instance error_eq_dec : EqDecision error.
Proof. solve_decision. Defined.

(** The outcome of a Go function with results [(A, error)]: a value with a nil
    error, an error, or a run-time panic. *)
Inductive result (A : Type) : Type :=
| Ok (a : A)
| Err (e : error)
| Panic.
Arguments Ok {A} a.
Arguments Err {A} e.
Arguments Panic {A}.

Definition rbind {A B} (m : result A) (k : A → result B) : result B :=
  match m with Ok a => k a | Err e => Err e | Panic => Panic end.

Notation "'do' x <- m ; k" := (rbind m (fun x => k))
  (at level 10, x binder, m at level 100, k at level 200) : go_scope.
Notation "'do' ' x <- m ; k" := (rbind m (fun x => k))
  (at level 10, x strict pattern, m at level 100, k at level 200) : go_scope.
#[global] Open Scope go_scope.

(** Go strings and byte slices. *)
Definition str_bytes (s : string) : bytes := String.list_byte_of_string s.
Definition bytes_str (b : bytes) : string := String.string_of_list_byte b.

Lemma bytes_str_bytes s : bytes_str (str_bytes s) = s.
Proof. apply String.string_of_list_byte_of_string. Qed.

Lemma str_bytes_str b : str_bytes (bytes_str b) = b.
Proof. apply String.list_byte_of_string_of_list_byte. Qed.

Lemma str_bytes_app s t : str_bytes (s +:+ t) = str_bytes s ++ str_bytes t.
Proof.
  unfold str_bytes, String.list_byte_of_string. rewrite <- map_app. f_equal.
  induction s as [|c s IH]; [done|]. change (String c s +:+ t) with (String c (s +:+ t)).
  simpl. by rewrite IH.
Qed.

#[global] Hint Rewrite bytes_str_bytes str_bytes_str : trpc.

(** [len(l)] of a slice as a Go [int]. *)
Definition zlen {A} (l : list A) : Z := Z.of_nat (length l).

Lemma alter_insert {A} (l : list A) i x f : l !! i = Some x → alter f i l = <[i := f x]> l.
Proof.
  revert i. induction l as [|y l IH]; intros [|i] H; simplify_eq/=; [done|]. f_equal. by apply IH.
Qed.

Lemma alter_lookup {A} (l : list A) f i j x :
  l !! j = Some x → alter f i l !! j = Some (if decide (i = j) then f x else x).
Proof.
  intros Hj. case_decide as E; [subst; by rewrite list_lookup_alter_eq, Hj|by rewrite list_lookup_alter_ne].
Qed.

Lemma alter_lookup_inv {A} (l : list A) f i j y :
  alter f i l !! j = Some y → ∃ x, l !! j = Some x ∧ y = if decide (i = j) then f x else x.
Proof.
  case_decide as E; [subst; rewrite list_lookup_alter_eq|rewrite list_lookup_alter_ne by done; eauto].
  destruct (l !! j); intros; simplify_eq/=; eauto.
Qed.

Lemma zlen_nonneg {A} (l : list A) : (0 ≤ zlen l)%Z.
Proof. unfold zlen. lia. Qed.

Lemma zlen_app {A} (l k : list A) : zlen (l ++ k) = (zlen l + zlen k)%Z.
Proof. unfold zlen. rewrite length_app. lia. Qed.

Lemma zlen_nil {A} : zlen (@nil A) = 0%Z.
Proof. done. Qed.

#[global] Hint Rewrite @zlen_app @zlen_nil : trpc_len.

(** [l[lo:hi]] of a slice whose capacity is its length; [None] is the panic
    "slice bounds out of range". *)
Definition slice {A} (l : list A) (lo hi : Z) : option (list A) :=
  if (0 <=? lo)%Z && (lo <=? hi)%Z && (hi <=? zlen l)%Z
  then Some (take (Z.to_nat (hi - lo)) (drop (Z.to_nat lo) l))
  else None.

(** [l[lo:]]. *)
Definition slice_from {A} (l : list A) (lo : Z) : option (list A) := slice l lo (zlen l).

Definition of_option {A} (o : option A) : result A :=
  match o with Some a => Ok a | None => Panic end.

Lemma slice_app_mid {A} (a b c : list A) :
  slice (a ++ b ++ c) (zlen a) (zlen a + zlen b) = Some b.
Proof.
  unfold slice. rewrite !zlen_app.
  pose proof (zlen_nonneg a). pose proof (zlen_nonneg b). pose proof (zlen_nonneg c).
  rewrite (proj2 (Z.leb_le 0 (zlen a))), (proj2 (Z.leb_le (zlen a) _)),
    (proj2 (Z.leb_le (zlen a + zlen b) _)) by lia. simpl.
  replace (Z.to_nat (zlen a + zlen b - zlen a)) with (length b) by (unfold zlen; lia).
  replace (Z.to_nat (zlen a)) with (length a) by (unfold zlen; lia).
  by rewrite drop_app_length, take_app_length.
Qed.

Lemma slice_from_app {A} (a b : list A) : slice_from (a ++ b) (zlen a) = Some b.
Proof.
  unfold slice_from. rewrite <- (app_nil_r b) at 1. rewrite zlen_app.
  apply slice_app_mid.
Qed.

Lemma slice_Some {A} (l : list A) lo hi k :
  slice l lo hi = Some k → (0 ≤ lo ≤ hi)%Z ∧ (hi ≤ zlen l)%Z ∧ zlen k = (hi - lo)%Z.
Proof.
  unfold slice. intros H. break_hyp; simplify_eq. bool_to_prop.
  repeat split; try lia. unfold zlen in *. rewrite length_take, length_drop. lia.
Qed.

Lemma slice_None {A} (l : list A) lo hi :
  slice l lo hi = None ↔ ¬ ((0 ≤ lo ≤ hi)%Z ∧ (hi ≤ zlen l)%Z).
Proof.
  unfold slice.
  destruct (0 <=? lo)%Z eqn:?, (lo <=? hi)%Z eqn:?, (hi <=? zlen l)%Z eqn:?;
    simpl; bool_to_prop; split; intros; try done; try lia.
Qed.

(** [copy(buf[off:], src)] when [src] fits: the bytes of [src] replace those of
    [buf] from position [off]. *)
Definition put_at {A} (off : nat) (src buf : list A) : list A :=
  take off buf ++ src ++ drop (off + length src) buf.

Lemma length_put_at {A} off (src buf : list A) :
  off + length src ≤ length buf → length (put_at off src buf) = length buf.
Proof. intros. unfold put_at. rewrite !length_app, length_take, length_drop. lia. Qed.

(** Filling a buffer from the left: the next field replaces the head of what is
    left to fill. *)
Lemma put_at_app {A} (pre src rest : list A) :
  length src ≤ length rest →
  put_at (length pre) src (pre ++ rest) = (pre ++ src) ++ drop (length src) rest.
Proof.
  intros. unfold put_at. rewrite take_app_length, drop_app.
  rewrite (drop_ge pre) by lia. simpl. rewrite <- app_assoc. do 3 f_equal. lia.
Qed.

(** ** Machine integers *)

Definition u8 (z : Z) : Z := z mod 2 ^ 8.
Definition u16 (z : Z) : Z := z mod 2 ^ 16.
Definition u32 (z : Z) : Z := z mod 2 ^ 32.
Definition i32 (z : Z) : Z := (z + 2 ^ 31) mod 2 ^ 32 - 2 ^ 31.
Definition i64 (z : Z) : Z := (z + 2 ^ 63) mod 2 ^ 64 - 2 ^ 63.

Definition is_u8 (z : Z) : Prop := (0 ≤ z < 2 ^ 8)%Z.
Definition is_u16 (z : Z) : Prop := (0 ≤ z < 2 ^ 16)%Z.
Definition is_u32 (z : Z) : Prop := (0 ≤ z < 2 ^ 32)%Z.
Definition is_i32 (z : Z) : Prop := (- 2 ^ 31 ≤ z < 2 ^ 31)%Z.
Definition is_i64 (z : Z) : Prop := (- 2 ^ 63 ≤ z < 2 ^ 63)%Z.

Lemma u32_small z : is_u32 z → u32 z = z.
Proof. unfold is_u32, u32. intros. apply Z.mod_small. lia. Qed.

Lemma u32_range z : is_u32 (u32 z).
Proof. unfold is_u32, u32. apply Z.mod_pos_bound. lia. Qed.

Lemma i32_small z : is_i32 z → i32 z = z.
Proof. unfold is_i32, i32. intros. rewrite Z.mod_small; lia. Qed.

Lemma i64_small z : is_i64 z → i64 z = z.
Proof. unfold is_i64, i64. intros. rewrite Z.mod_small; lia. Qed.

#[export] Hint Resolve u32_range u32_small i32_small i64_small : trpc.

(** ** Big-endian encoding (encoding/binary) *)

Definition byte_Z (b : byte) : Z := Z.of_N (Byte.to_N b).

Definition Z_byte (z : Z) : byte :=
  match Byte.of_N (Z.to_N (z mod 256)) with Some b => b | None => Byte.x00 end.

Lemma byte_Z_range b : (0 ≤ byte_Z b < 256)%Z.
Proof. unfold byte_Z. pose proof (Byte.to_N_bounded b). lia. Qed.

Lemma byte_Z_byte z : byte_Z (Z_byte z) = (z mod 256)%Z.
Proof.
  unfold byte_Z, Z_byte. pose proof (Z.mod_pos_bound z 256).
  destruct (Byte.of_N _) as [b|] eqn:E.
  - apply Byte.to_of_N in E. rewrite E. lia.
  - apply Byte.of_N_None_iff in E. lia.
Qed.

Lemma Z_byte_Z b : Z_byte (byte_Z b) = b.
Proof.
  unfold Z_byte. rewrite Z.mod_small by apply byte_Z_range.
  unfold byte_Z. by rewrite N2Z.id, Byte.of_to_N.
Qed.

(** The value of a big-endian byte string. *)
Fixpoint unbe_acc (acc : Z) (l : bytes) : Z :=
  match l with
  | [] => acc
  | b :: l' => unbe_acc (acc * 256 + byte_Z b) l'
  end.
Definition unbe (l : bytes) : Z := unbe_acc 0 l.

(** The [n] low-order bytes of [z], most significant first. *)
Fixpoint be (n : nat) (z : Z) : bytes :=
  match n with
  | O => []
  | S n' => be n' (z / 256) ++ [Z_byte z]
  end.

Lemma length_be n z : length (be n z) = n.
Proof. revert z. induction n; intros; simpl; [done|]. rewrite length_app, IHn. simpl. lia. Qed.

Lemma unbe_acc_snoc acc l b : unbe_acc acc (l ++ [b]) = (unbe_acc acc l * 256 + byte_Z b)%Z.
Proof. revert acc. induction l; intros; simpl; auto. Qed.

Lemma unbe_snoc l b : unbe (l ++ [b]) = (unbe l * 256 + byte_Z b)%Z.
Proof. apply unbe_acc_snoc. Qed.

Lemma unbe_be n z : unbe (be n z) = (z mod 2 ^ (8 * Z.of_nat n))%Z.
Proof.
  revert z. induction n as [|n IH]; intros z.
  - by rewrite Z.mod_1_r.
  - simpl be. rewrite unbe_snoc, IH, byte_Z_byte.
    replace (8 * Z.of_nat (S n))%Z with (8 + 8 * Z.of_nat n)%Z by lia.
    rewrite Z.pow_add_r by lia. change (2 ^ 8)%Z with 256%Z.
    rewrite Z.rem_mul_r by lia. lia.
Qed.

Lemma unbe_be_small n z : (0 ≤ z < 2 ^ (8 * Z.of_nat n))%Z → unbe (be n z) = z.
Proof. intros. rewrite unbe_be. by apply Z.mod_small. Qed.

Lemma unbe_range l : (0 ≤ unbe l < 2 ^ (8 * zlen l))%Z.
Proof.
  induction l as [|b l IH] using rev_ind; [done|].
  rewrite unbe_snoc, zlen_app. change (zlen [b]) with 1%Z.
  replace (8 * (zlen l + 1))%Z with (8 * zlen l + 8)%Z by lia.
  pose proof (zlen_nonneg l). rewrite Z.pow_add_r by lia. change (2 ^ 8)%Z with 256%Z.
  pose proof (byte_Z_range b). nia.
Qed.

Lemma be_unbe l : be (length l) (unbe l) = l.
Proof.
  induction l as [|b l IH] using rev_ind; [done|].
  rewrite length_app, Nat.add_comm. simpl. rewrite unbe_snoc.
  pose proof (byte_Z_range b).
  rewrite Z.div_add_l, Z.div_small, Z.add_0_r, IH by lia. do 2 f_equal.
  rewrite <- (Z_byte_Z b) at 2. unfold Z_byte. do 3 f_equal.
  rewrite Z.add_comm, Z.mod_add by lia. done.
Qed.

#[global] Hint Rewrite length_be : trpc_len.
