(* ===== verification/Pb.v ===== *)
(** The protobuf package of the trpc protocol, trpc.group/trpc/trpc-protocol, which
    is not part of the repository: its enum values and the operations
    [proto.Marshal] and [proto.Unmarshal] are parameters (classes) of the model, and
    what the codecs rely on is stated by the two [..Ok] classes.  The message types
    list the fields that codec.go, codec_stream.go and package stream read or write.  A nil map and an
    empty map, and a nil and an empty byte slice, are one value. *)

From S2P Require Import Prelude.

(** Enum values of package trpcpb. *)
Class PbEnum := {
  TRPC_MAGIC_VALUE : Z;
  TRPC_UNARY_FRAME : Z;
  TRPC_STREAM_FRAME : Z;
  TRPC_STREAM_FRAME_INIT : Z;
  TRPC_STREAM_FRAME_DATA : Z;
  TRPC_STREAM_FRAME_FEEDBACK : Z;
  TRPC_STREAM_FRAME_CLOSE : Z;
  TRPC_STREAM_CLOSE : Z;
  TRPC_STREAM_RESET : Z;
  TRPC_PROTO_V1 : Z;
  TRPC_UNARY_CALL : Z;
  TRPC_ONEWAY_CALL : Z;
  TRPC_DYEING_MESSAGE : Z;
  RetOK : Z;
  RetServerDecodeFail : Z;
  RetServerEncodeFail : Z;
  RetServerNoService : Z;
  RetServerNoFunc : Z;
  RetServerOverload : Z;
  RetUnknown : Z;
  RetClientTimeout : Z;
  RetClientFullLinkTimeout : Z;
  RetServerTimeout : Z;
  RetServerFullLinkTimeout : Z;
  RetServerSystemErr : Z;
  RetClientDecodeFail : Z;
  RetClientCanceled : Z;
  RetClientStreamReadEnd : Z;
  RetClientConnectFail : Z;
  RetClientEncodeFail : Z;
  RetClientRouteErr : Z;
  RetClientNetErr : Z;
  RetClientReadFrameErr : Z
}.

(** The enum values fit the width of the frame head fields, and the values that the
    codecs tell apart are different. *)
Class PbEnumOk `{PbEnum} := {
  magic_u16 : is_u16 TRPC_MAGIC_VALUE;
  unary_u8 : is_u8 TRPC_UNARY_FRAME;
  stream_u8 : is_u8 TRPC_STREAM_FRAME;
  unary_not_stream : TRPC_UNARY_FRAME ≠ TRPC_STREAM_FRAME;
  stream_frames_u8 : Forall is_u8 [TRPC_STREAM_FRAME_INIT; TRPC_STREAM_FRAME_DATA;
    TRPC_STREAM_FRAME_FEEDBACK; TRPC_STREAM_FRAME_CLOSE];
  stream_frames_nodup : NoDup [TRPC_STREAM_FRAME_INIT; TRPC_STREAM_FRAME_DATA;
    TRPC_STREAM_FRAME_FEEDBACK; TRPC_STREAM_FRAME_CLOSE];
  ret_ok_zero : RetOK = 0%Z;
  server_encode_fail_not_ok : i32 RetServerEncodeFail ≠ 0%Z;
  dyeing_not_zero : u32 TRPC_DYEING_MESSAGE ≠ 0%Z;
  server_timeout_i32 : is_i32 RetServerTimeout;
  server_timeouts_distinct : RetServerTimeout ≠ RetServerFullLinkTimeout;
  client_timeout_distinct : RetServerTimeout ≠ RetClientTimeout;
  close_types_distinct : i32 TRPC_STREAM_CLOSE ≠ i32 TRPC_STREAM_RESET
}.

(** trpcpb.RequestProtocol. *)
Record RequestProtocol := MkReq {
  req_Version : Z;
  req_CallType : Z;
  req_RequestId : Z;
  req_Timeout : Z;
  req_Caller : bytes;
  req_Callee : bytes;
  req_Func : bytes;
  req_MessageType : Z;
  req_TransInfo : gmap string bytes;
  req_ContentType : Z;
  req_ContentEncoding : Z;
  req_AttachmentSize : Z
}.

#[export] Instance eta_req : Eta RequestProtocol := λ r,
  MkReq (req_Version r) (req_CallType r) (req_RequestId r) (req_Timeout r)
    (req_Caller r) (req_Callee r) (req_Func r) (req_MessageType r) (req_TransInfo r)
    (req_ContentType r) (req_ContentEncoding r) (req_AttachmentSize r).

(** trpcpb.ResponseProtocol. *)
Record ResponseProtocol := MkRsp {
  rsp_Version : Z;
  rsp_CallType : Z;
  rsp_RequestId : Z;
  rsp_Ret : Z;
  rsp_FuncRet : Z;
  rsp_ErrorMsg : bytes;
  rsp_MessageType : Z;
  rsp_TransInfo : gmap string bytes;
  rsp_ContentType : Z;
  rsp_ContentEncoding : Z;
  rsp_AttachmentSize : Z
}.

#[export] Instance eta_rsp : Eta ResponseProtocol := λ r,
  MkRsp (rsp_Version r) (rsp_CallType r) (rsp_RequestId r) (rsp_Ret r) (rsp_FuncRet r)
    (rsp_ErrorMsg r) (rsp_MessageType r) (rsp_TransInfo r) (rsp_ContentType r)
    (rsp_ContentEncoding r) (rsp_AttachmentSize r).

(** trpcpb.TrpcStreamInitRequestMeta. *)
Record TrpcStreamInitRequestMeta := MkInitReq {
  initreq_Caller : bytes;
  initreq_Callee : bytes;
  initreq_Func : bytes;
  initreq_MessageType : Z;
  initreq_TransInfo : gmap string bytes
}.

#[export] Instance eta_initreq : Eta TrpcStreamInitRequestMeta := λ r,
  MkInitReq (initreq_Caller r) (initreq_Callee r) (initreq_Func r)
    (initreq_MessageType r) (initreq_TransInfo r).

(** trpcpb.TrpcStreamInitResponseMeta. *)
Record TrpcStreamInitResponseMeta := MkInitRsp {
  initrsp_Ret : Z;
  initrsp_ErrorMsg : bytes
}.

(** trpcpb.TrpcStreamInitMeta; the two sub-messages are pointers that may be nil. *)
Record TrpcStreamInitMeta := MkInit {
  init_RequestMeta : option TrpcStreamInitRequestMeta;
  init_ResponseMeta : option TrpcStreamInitResponseMeta;
  init_ContentType : Z;
  init_ContentEncoding : Z;
  init_InitWindowSize : Z
}.

#[export] Instance eta_init : Eta TrpcStreamInitMeta := λ r,
  MkInit (init_RequestMeta r) (init_ResponseMeta r) (init_ContentType r)
    (init_ContentEncoding r) (init_InitWindowSize r).

(** trpcpb.TrpcStreamCloseMeta. *)
Record TrpcStreamCloseMeta := MkClose {
  close_CloseType : Z;
  close_Ret : Z;
  close_Msg : bytes;
  close_MessageType : Z;
  close_TransInfo : gmap string bytes;
  close_FuncRet : Z
}.

#[export] Instance eta_close : Eta TrpcStreamCloseMeta := λ r,
  MkClose (close_CloseType r) (close_Ret r) (close_Msg r) (close_MessageType r)
    (close_TransInfo r) (close_FuncRet r).

(** trpcpb.TrpcStreamFeedBackMeta. *)
Record TrpcStreamFeedBackMeta := MkFeedback { feedback_WindowSizeIncrement : Z }.

#[global] Instance req_eq_dec : EqDecision RequestProtocol.
Proof. solve_decision. Defined.
#[global] Instance rsp_eq_dec : EqDecision ResponseProtocol.
Proof. solve_decision. Defined.
#[global] Instance initreq_eq_dec : EqDecision TrpcStreamInitRequestMeta.
Proof. solve_decision. Defined.
#[global] Instance initrsp_eq_dec : EqDecision TrpcStreamInitResponseMeta.
Proof. solve_decision. Defined.
#[global] Instance init_eq_dec : EqDecision TrpcStreamInitMeta.
Proof. solve_decision. Defined.
#[global] Instance close_eq_dec : EqDecision TrpcStreamCloseMeta.
Proof. solve_decision. Defined.
#[global] Instance feedback_eq_dec : EqDecision TrpcStreamFeedBackMeta.
Proof. solve_decision. Defined.

(** The zero values [&trpcpb.X{}]. *)
Definition zero_req : RequestProtocol := MkReq 0 0 0 0 [] [] [] 0 ∅ 0 0 0.
Definition zero_rsp : ResponseProtocol := MkRsp 0 0 0 0 0 [] 0 ∅ 0 0 0.
Definition zero_initreq : TrpcStreamInitRequestMeta := MkInitReq [] [] [] 0 ∅.
Definition zero_initrsp : TrpcStreamInitResponseMeta := MkInitRsp 0 [].
Definition zero_init : TrpcStreamInitMeta := MkInit None None 0 0 0.
Definition zero_close : TrpcStreamCloseMeta := MkClose 0 0 [] 0 ∅ 0.

(** [proto.Marshal] and [proto.Unmarshal] at a message type.  [Unmarshal] resets the
    message it writes to, so its result does not depend on the old contents. *)
Class Message (M : Type) := {
  marshal : M → bytes + error;
  unmarshal : bytes → M + error
}.

(** What is unmarshalled is what was marshalled. *)
Class MessageOk (M : Type) `{Message M} :=
  unmarshal_marshal : ∀ (m : M) (b : bytes), marshal m = inl b → unmarshal b = inl m.

(** The call of [Marshal] or [Unmarshal] in a function that returns its error. *)
Definition lift {A} (r : A + error) : result A :=
  match r with inl a => Ok a | inr e => Err e end.

(** ** A concrete instance, for the examples

    Enum values of the protocol, and messages marshalled by a finite table. *)
Module Sample.

#[export] Instance enum : PbEnum := {|
  TRPC_MAGIC_VALUE := 2352;
  TRPC_UNARY_FRAME := 0;
  TRPC_STREAM_FRAME := 1;
  TRPC_STREAM_FRAME_INIT := 1;
  TRPC_STREAM_FRAME_DATA := 2;
  TRPC_STREAM_FRAME_FEEDBACK := 3;
  TRPC_STREAM_FRAME_CLOSE := 4;
  TRPC_STREAM_CLOSE := 0;
  TRPC_STREAM_RESET := 1;
  TRPC_PROTO_V1 := 0;
  TRPC_UNARY_CALL := 0;
  TRPC_ONEWAY_CALL := 1;
  TRPC_DYEING_MESSAGE := 1;
  RetOK := 0;
  RetServerDecodeFail := 1;
  RetServerEncodeFail := 2;
  RetServerNoService := 11;
  RetServerNoFunc := 12;
  RetServerOverload := 22;
  RetUnknown := 999;
  RetClientTimeout := 101;
  RetClientFullLinkTimeout := 102;
  RetServerTimeout := 21;
  RetServerFullLinkTimeout := 24;
  RetServerSystemErr := 31;
  RetClientDecodeFail := 122;
  RetClientCanceled := 161;
  RetClientStreamReadEnd := 351;
  RetClientConnectFail := 111;
  RetClientEncodeFail := 121;
  RetClientRouteErr := 131;
  RetClientNetErr := 141;
  RetClientReadFrameErr := 171
|}.

#[export] Instance enum_ok : PbEnumOk.
Proof.
  split; try (vm_compute; done).
  - repeat constructor; vm_compute; done.
  - apply (bool_decide_unpack _). vm_compute. done.
Defined.

Section table.
Context {M : Type} `{!EqDecision M}.

Fixpoint marshal_in (t : list (M * bytes)) (m : M) : bytes + error :=
  match t with
  | [] => inr (Plain "cannot marshal")
  | (m', b) :: t' => if decide (m = m') then inl b else marshal_in t' m
  end.

Fixpoint unmarshal_in (t : list (M * bytes)) (b : bytes) : M + error :=
  match t with
  | [] => inr (Plain "cannot parse invalid wire-format data")
  | (m, b') :: t' => if decide (b = b') then inl m else unmarshal_in t' b
  end.

Definition table (t : list (M * bytes)) : Message M :=
  {| marshal := marshal_in t; unmarshal := unmarshal_in t |}.

Lemma marshal_in_elem t m b : marshal_in t m = inl b → (m, b) ∈ t.
Proof.
  induction t as [|[m' b'] t IH]; simpl; [done|].
  case_decide; intros; simplify_eq; [apply list_elem_of_here|].
  apply list_elem_of_further. auto.
Qed.

Lemma table_ok t : NoDup t.*2 → @MessageOk M (table t).
Proof.
  intros Hnd m b. simpl. induction t as [|[m' b'] t IH]; simpl in *; [done|].
  apply NoDup_cons in Hnd as [Hni Hnd]. case_decide; intros H'; simplify_eq.
  - by rewrite decide_True.
  - rewrite decide_False; [auto|]. intros ->. apply Hni.
    apply marshal_in_elem in H'. apply list_elem_of_fmap. by exists (m, b').
Qed.
End table.

End Sample.
