(* ===== verification/Frame.v ===== *)
(** The frame layer of the trpc protocol (codec.go): the 16-byte frame head, its
    extraction from and construction into a buffer, and the framer that cuts a byte
    stream into frames. *)

From S2P Require Import Prelude Pb.

(** ** Frame head *)

Definition frameHeadLen : nat := 16.
Definition protocolVersion0 : Z := 0.
Definition protocolVersion1 : Z := 1.
Definition curProtocolVersion : Z := protocolVersion1.

(** The initial value of the package variable [DefaultMaxFrameSize].  The operations
    take the current value of the variable as the argument [maxFrameSize]. *)
Definition DefaultMaxFrameSize : Z := 10 * 1024 * 1024.

Record FrameHead := MkFrameHead {
  FrameType : Z;
  StreamFrameType : Z;
  TotalLen : Z;
  HeaderLen : Z;
  StreamID : Z;
  ProtocolVersion : Z;
  FrameReserved : Z
}.

#[export] Instance eta_FrameHead : Eta FrameHead := λ h,
  MkFrameHead (FrameType h) (StreamFrameType h) (TotalLen h) (HeaderLen h) (StreamID h)
    (ProtocolVersion h) (FrameReserved h).

#[global] Instance FrameHead_eq_dec : EqDecision FrameHead.
Proof. solve_decision. Defined.

(** The fields are machine integers of the declared widths. *)
Definition FrameHead_wf (h : FrameHead) : Prop :=
  is_u8 (FrameType h) ∧ is_u8 (StreamFrameType h) ∧ is_u32 (TotalLen h) ∧
  is_u16 (HeaderLen h) ∧ is_u32 (StreamID h) ∧ is_u8 (ProtocolVersion h) ∧
  is_u8 (FrameReserved h).

Section frame.
Context `{PbEnum}.

Definition newDefaultUnaryFrameHead : FrameHead :=
  MkFrameHead (u8 TRPC_UNARY_FRAME) 0 0 0 0 curProtocolVersion 0.

(** [buf[lo:hi]] read as a big-endian integer; every use is on a buffer of at least
    [frameHeadLen] bytes. *)
Definition field (buf : bytes) (lo n : nat) : Z := unbe (take n (drop lo buf)).

(** [extract] indexes up to [buf[15]]: on a shorter buffer it panics. *)
Definition extract (buf : bytes) : result FrameHead :=
  if decide (length buf < frameHeadLen) then Panic
  else Ok (MkFrameHead (field buf 2 1) (field buf 3 1) (field buf 4 4) (field buf 8 2)
    (field buf 10 4) (field buf 14 1) (field buf 15 1)).

Definition errHeadOverflowsUint16 : error := Plain "head len overflows uint16".
Definition errHeadOverflowsUint32 : error := Plain "total len overflows uint32".
Definition errAttachmentOverflowsUint32 : error := Plain "attachment len overflows uint32".

(** The write of the head and of the three parts into the freshly made buffer. *)
Definition fill (h : FrameHead) (totalLen : Z) (header body attachment : bytes) : bytes :=
  let buf := replicate (Z.to_nat totalLen) Byte.x00 in
  let buf := put_at 0 (be 2 (u16 TRPC_MAGIC_VALUE)) buf in
  let buf := put_at 2 (be 1 (FrameType h)) buf in
  let buf := put_at 3 (be 1 (StreamFrameType h)) buf in
  let buf := put_at 4 (be 4 (u32 totalLen)) buf in
  let buf := put_at 8 (be 2 (u16 (zlen header))) buf in
  let buf := put_at 10 (be 4 (StreamID h)) buf in
  let buf := put_at 14 (be 1 (ProtocolVersion h)) buf in
  let buf := put_at 15 (be 1 (FrameReserved h)) buf in
  let buf := put_at frameHeadLen header buf in
  let buf := put_at (frameHeadLen + length header) body buf in
  put_at (frameHeadLen + length header + length body) attachment buf.

Definition construct (maxFrameSize : Z) (h : FrameHead) (header body attachment : bytes)
    : result bytes :=
  let headerLen := zlen header in
  if (65535 <? headerLen)%Z then Err errHeadOverflowsUint16 else
  let attachmentLen := zlen attachment in
  if (4294967295 <? attachmentLen)%Z then Err errAttachmentOverflowsUint32 else
  let totalLen := (Z.of_nat frameHeadLen + headerLen + zlen body + attachmentLen)%Z in
  if (maxFrameSize <? totalLen)%Z then Err (FrameTooLarge maxFrameSize) else
  if (4294967295 <? totalLen)%Z then Err errHeadOverflowsUint32 else
  Ok (fill h totalLen header body attachment).

Definition isStream (h : FrameHead) : bool := (FrameType h =? TRPC_STREAM_FRAME)%Z.
Definition isUnary (h : FrameHead) : bool := (FrameType h =? TRPC_UNARY_FRAME)%Z.

Definition upgradeProtocol (h : FrameHead) (protocolVersion requestID : Z) : FrameHead :=
  h <| ProtocolVersion := protocolVersion |> <| StreamID := requestID |>.

(** ** Framer *)

(** An [io.Reader]: the bytes it still delivers, and the error it returns after
    them.  How the bytes are split over the calls of [Read] does not matter to
    [io.ReadFull], which reads until the buffer is full. *)
Record Reader := MkReader { pending : bytes; final : error }.

Definition EOF : error := Plain "EOF".
Definition ErrUnexpectedEOF : error := Plain "unexpected EOF".

(** [io.ReadFull] into a buffer of [n] bytes: the bytes read, the error if there
    were fewer than [n], and the reader afterwards. *)
Definition ReadFull (r : Reader) (n : nat) : bytes * option error * Reader :=
  if decide (n ≤ length (pending r)) then
    (take n (pending r), None, MkReader (drop n (pending r)) (final r))
  else
    (pending r,
     Some (if decide (final r = EOF) then
             if decide (pending r = []) then EOF else ErrUnexpectedEOF
           else final r),
     MkReader [] (final r)).

Definition errFrameHeadNum (num : Z) : error :=
  Plain ("trpc framer: read frame header num " +:+ pretty num +:+ " != 16, invalid").
Definition errMagic (magic : Z) : error :=
  Plain ("trpc framer: read framer head magic " +:+ pretty magic +:+ " != "
         +:+ pretty (u16 TRPC_MAGIC_VALUE) +:+ ", not match").
Definition errTotalLenSmall (totalLen : Z) : error :=
  Plain ("trpc framer: read frame header total len " +:+ pretty totalLen +:+ " < 16, invalid").
Definition errTotalLenLarge (totalLen max : Z) : error :=
  Plain ("trpc framer: read frame header total len " +:+ pretty totalLen +:+ " > "
         +:+ pretty max +:+ ", too large").
Definition errFrameNum (num want : Z) : error :=
  Plain ("trpc framer: read frame total num " +:+ pretty num +:+ " != "
         +:+ pretty want +:+ ", invalid").

Definition ReadFrame (maxFrameSize : Z) (r : Reader) : result bytes * Reader :=
  let '(header, err, r) := ReadFull r frameHeadLen in
  match err with
  | Some e => (Err e, r)
  | None =>
    if negb (zlen header =? Z.of_nat frameHeadLen)%Z then
      (Err (errFrameHeadNum (zlen header)), r) else
    let magic := field header 0 2 in
    if negb (magic =? u16 TRPC_MAGIC_VALUE)%Z then (Err (errMagic magic), r) else
    let totalLen := field header 4 4 in
    if (totalLen <? Z.of_nat frameHeadLen)%Z then (Err (errTotalLenSmall totalLen), r) else
    if (u32 maxFrameSize <? totalLen)%Z then
      (Err (errTotalLenLarge totalLen (u32 maxFrameSize)), r) else
    let msg := replicate (Z.to_nat totalLen) Byte.x00 in
    let '(rest, err, r) := ReadFull r (Z.to_nat (totalLen - Z.of_nat frameHeadLen)) in
    match err with
    | Some e => (Err e, r)
    | None =>
      if negb (zlen rest =? u32 (totalLen - Z.of_nat frameHeadLen))%Z then
        (Err (errFrameNum (zlen rest) (u32 (totalLen - Z.of_nat frameHeadLen))), r)
      else (Ok (put_at 0 header (put_at frameHeadLen rest msg)), r)
    end
  end.

(** [FramerBuilder.Parse]: the frame and the stream (request) id of its head. *)
Definition Parse (maxFrameSize : Z) (r : Reader) : result (Z * bytes) * Reader :=
  let '(res, r) := ReadFrame maxFrameSize r in
  match res with
  | Ok buf => (Ok (field buf 10 4, buf), r)
  | Err e => (Err e, r)
  | Panic => (Panic, r)
  end.

(** Reading frames until the first error, as a connection's read loop does. *)
Fixpoint ReadFrames (fuel : nat) (maxFrameSize : Z) (r : Reader) : list bytes * option error :=
  match fuel with
  | O => ([], None)
  | S fuel =>
    match ReadFrame maxFrameSize r with
    | (Ok f, r) => let '(fs, e) := ReadFrames fuel maxFrameSize r in (f :: fs, e)
    | (Err e, _) => ([], Some e)
    | (Panic, _) => ([], None)
    end
  end.

(** ** The layout of a frame *)

(** The 16 bytes of the head of a frame of [totalLen] bytes. *)
Definition head_bytes (h : FrameHead) (totalLen headerLen : Z) : bytes :=
  be 2 (u16 TRPC_MAGIC_VALUE) ++ be 1 (FrameType h) ++ be 1 (StreamFrameType h) ++
  be 4 (u32 totalLen) ++ be 2 (u16 headerLen) ++ be 4 (StreamID h) ++
  be 1 (ProtocolVersion h) ++ be 1 (FrameReserved h).

Lemma length_head_bytes h t n : length (head_bytes h t n) = frameHeadLen.
Proof. unfold head_bytes. by rewrite !length_app, !length_be. Qed.

Definition frame_of (h : FrameHead) (header body attachment : bytes) : bytes :=
  head_bytes h (Z.of_nat frameHeadLen + zlen header + zlen body + zlen attachment) (zlen header)
  ++ header ++ body ++ attachment.

Lemma put_at_fill {A} off (src : list A) pre rest :
  length pre = off → length src ≤ length rest →
  put_at off src (pre ++ rest) = (pre ++ src) ++ drop (length src) rest.
Proof. intros <- ?. by apply put_at_app. Qed.

Lemma fill_frame_of h header body attachment :
  fill h (Z.of_nat frameHeadLen + zlen header + zlen body + zlen attachment)
    header body attachment = frame_of h header body attachment.
Proof.
  unfold fill, frame_of, head_bytes. set (t := (_ + zlen attachment)%Z).
  rewrite <- (app_nil_l (replicate _ _)).
  assert (Z.to_nat t = 16 + length header + length body + length attachment) as ->.
  { unfold t, zlen, frameHeadLen. lia. }
  repeat (rewrite put_at_fill; cycle 1;
    [by rewrite ?length_app, ?length_be
    |rewrite ?length_drop, length_replicate, ?length_be; unfold frameHeadLen; lia|]).
  rewrite !drop_drop, drop_ge, app_nil_r, app_nil_l, <- !app_assoc; [done|].
  rewrite length_replicate, !length_be. unfold frameHeadLen. lia.
Qed.

Lemma length_frame_of h header body attachment :
  zlen (frame_of h header body attachment) =
  (Z.of_nat frameHeadLen + zlen header + zlen body + zlen attachment)%Z.
Proof.
  unfold frame_of. rewrite !zlen_app. unfold zlen at 1. rewrite length_head_bytes. lia.
Qed.

(** What the success of [construct] means for the lengths. *)
Lemma construct_Ok max h header body attachment buf :
  construct max h header body attachment = Ok buf ↔
  (zlen header < 2 ^ 16)%Z ∧
  (Z.of_nat frameHeadLen + zlen header + zlen body + zlen attachment ≤ max)%Z ∧
  (Z.of_nat frameHeadLen + zlen header + zlen body + zlen attachment < 2 ^ 32)%Z ∧
  buf = frame_of h header body attachment.
Proof.
  pose proof (zlen_nonneg header). pose proof (zlen_nonneg body).
  unfold construct, frameHeadLen. rewrite fill_frame_of.
  split.
  - intros Hc. repeat break_hyp; simplify_eq. bool_to_prop. repeat split; lia.
  - intros (? & ? & ? & ->).
    repeat (break_goal; bool_to_prop; [unfold frameHeadLen in *; lia|]). done.
Qed.

(** [construct] has no panic. *)
Lemma construct_not_Panic max h header body attachment :
  construct max h header body attachment ≠ Panic.
Proof. unfold construct. by repeat break_goal. Qed.

(** The three ways [construct] fails, as a function of the lengths. *)
Lemma construct_Err max h header body attachment e :
  construct max h header body attachment = Err e →
  (e = errHeadOverflowsUint16 ∧ 65535 < zlen header)%Z ∨
  (e = errAttachmentOverflowsUint32 ∧ 4294967295 < zlen attachment)%Z ∨
  (e = FrameTooLarge max ∧ zlen header ≤ 65535 ∧
     max < Z.of_nat frameHeadLen + zlen header + zlen body + zlen attachment)%Z ∨
  (e = errHeadOverflowsUint32 ∧ zlen header ≤ 65535 ∧
     4294967295 < Z.of_nat frameHeadLen + zlen header + zlen body + zlen attachment)%Z.
Proof.
  unfold construct. intros Hc. repeat break_hyp; simplify_eq; bool_to_prop; auto 10.
Qed.

(** ** Reading the fields back *)

Lemma field_skip n z rest lo k :
  n ≤ lo → field (be n z ++ rest) lo k = field rest (lo - n) k.
Proof. intros. unfold field. rewrite drop_app, drop_ge, length_be by by rewrite length_be. done. Qed.

Lemma field_here n z rest :
  (0 ≤ z < 2 ^ (8 * Z.of_nat n))%Z → field (be n z ++ rest) 0 n = z.
Proof.
  intros. unfold field. rewrite drop_0, take_app_le, take_ge by by rewrite length_be.
  by apply unbe_be_small.
Qed.

Ltac read_field := repeat rewrite field_skip by lia; cbn [Nat.sub]; rewrite ?field_here.

(** The fields of a buffer that starts with a frame head. *)
Lemma head_fields h t n rest (buf := head_bytes h t n ++ rest) :
  FrameHead_wf h →
  field buf 0 2 = u16 TRPC_MAGIC_VALUE ∧ field buf 2 1 = FrameType h ∧
  field buf 3 1 = StreamFrameType h ∧ field buf 4 4 = u32 t ∧
  field buf 8 2 = u16 n ∧ field buf 10 4 = StreamID h ∧
  field buf 14 1 = ProtocolVersion h ∧ field buf 15 1 = FrameReserved h.
Proof.
  intros (? & ? & ? & ? & ? & ? & ?). unfold buf, head_bytes. rewrite <- !app_assoc.
  repeat split; read_field; try done; apply Z.mod_pos_bound; lia.
Qed.

(** [extract] of what [construct] wrote gives the head back, with the two lengths set. *)
Lemma extract_frame_of h header body attachment (t := zlen (frame_of h header body attachment)) :
  FrameHead_wf h → is_u32 t → is_u16 (zlen header) →
  extract (frame_of h header body attachment) =
  Ok (h <| TotalLen := t |> <| HeaderLen := zlen header |>).
Proof.
  intros Hwf Ht Hh. unfold extract.
  rewrite decide_False; cycle 1.
  { unfold frame_of. rewrite length_app, length_head_bytes. unfold frameHeadLen. lia. }
  pose proof (length_frame_of h header body attachment) as Hl. fold t in Hl.
  unfold frame_of. rewrite <- Hl.
  destruct (head_fields h t (zlen header) (header ++ body ++ attachment) Hwf)
    as (_ & -> & -> & -> & -> & -> & -> & ->).
  rewrite u32_small by done. unfold u16. rewrite Z.mod_small by done. done.
Qed.

(** ** Reading frames *)

Lemma ReadFull_app a b e :
  ReadFull (MkReader (a ++ b) e) (length a) = (a, None, MkReader b e).
Proof.
  unfold ReadFull. simpl. rewrite decide_True by (rewrite length_app; lia).
  by rewrite take_app_length, drop_app_length.
Qed.

(** The framer's test of a 16-byte head: the length of the rest of the frame. *)
Definition check_head (maxFrameSize : Z) (header : bytes) : nat + error :=
  let magic := field header 0 2 in
  let totalLen := field header 4 4 in
  if negb (magic =? u16 TRPC_MAGIC_VALUE)%Z then inr (errMagic magic)
  else if (totalLen <? Z.of_nat frameHeadLen)%Z then inr (errTotalLenSmall totalLen)
  else if (u32 maxFrameSize <? totalLen)%Z then
    inr (errTotalLenLarge totalLen (u32 maxFrameSize))
  else inl (Z.to_nat (totalLen - Z.of_nat frameHeadLen)).

Lemma field_range buf lo n : (0 ≤ field buf lo n < 2 ^ (8 * Z.of_nat n))%Z.
Proof.
  unfold field. pose proof (unbe_range (take n (drop lo buf))) as [? Hu].
  split; [done|]. eapply Z.lt_le_trans; [exact Hu|].
  apply Z.pow_le_mono_r; [lia|]. unfold zlen. rewrite length_take. lia.
Qed.

Lemma check_head_len max header k :
  check_head max header = inl k → field header 4 4 = Z.of_nat (frameHeadLen + k).
Proof.
  unfold check_head, frameHeadLen. intros H'. repeat break_hyp; simplify_eq.
  bool_to_prop. lia.
Qed.

(** Reading the rest into the message and copying the head before it. *)
Lemma assemble {A} (z : A) n m (header rest : list A) :
  length header = n → length rest = m - n → n ≤ m →
  put_at 0 header (put_at n rest (replicate m z)) = header ++ rest.
Proof.
  intros Hh Hr Hle. replace m with (n + (m - n)) by lia. rewrite replicate_add.
  rewrite put_at_fill by (rewrite ?length_replicate; lia).
  rewrite (drop_ge (replicate _ _)), app_nil_r by (rewrite length_replicate; lia).
  unfold put_at. simpl. rewrite Hh.
  rewrite drop_app, drop_ge, length_replicate, Nat.sub_diag by (rewrite length_replicate; lia).
  done.
Qed.

(** [ReadFrame] in terms of its stages; its two length tests after [ReadFull] never
    fail. *)
Lemma ReadFrame_eq max r :
  ReadFrame max r =
  match ReadFull r frameHeadLen with
  | (_, Some e, r1) => (Err e, r1)
  | (header, None, r1) =>
    match check_head max header with
    | inr e => (Err e, r1)
    | inl k =>
      match ReadFull r1 k with
      | (_, Some e, r2) => (Err e, r2)
      | (rest, None, r2) => (Ok (header ++ rest), r2)
      end
    end
  end.
Proof.
  unfold ReadFrame. destruct (ReadFull r frameHeadLen) as [[header [e|]] r1] eqn:E1; [done|].
  assert (length header = frameHeadLen) as Hh.
  { unfold ReadFull in E1. repeat break_hyp; simplify_eq. rewrite length_take. lia. }
  rewrite (proj2 (Z.eqb_eq (zlen header) _)) by (unfold zlen; lia). simpl negb.
  unfold check_head. destruct (negb (field header 0 2 =? _)%Z); [done|].
  destruct (_ <? Z.of_nat frameHeadLen)%Z eqn:E2; [done|].
  destruct (u32 max <? _)%Z eqn:E3; [done|]. bool_to_prop.
  set (t := field header 4 4) in *.
  destruct (ReadFull r1 _) as [[rest [e|]] r2] eqn:E4; [done|].
  assert (length rest = Z.to_nat (t - Z.of_nat frameHeadLen)) as Hr.
  { unfold ReadFull in E4. repeat break_hyp; simplify_eq. rewrite length_take. lia. }
  rewrite (proj2 (Z.eqb_eq (zlen rest) _)); cycle 1.
  { pose proof (field_range header 4 4) as Hf. fold t in Hf. change (8 * Z.of_nat 4)%Z with 32%Z in Hf.
    rewrite u32_small; unfold is_u32, zlen, frameHeadLen in *; lia. }
  simpl negb. do 2 f_equal. apply assemble; unfold frameHeadLen in *; lia.
Qed.

(** A frame built by [construct] passes the framer's test of its head. *)
Lemma check_head_frame max h t n k :
  FrameHead_wf h → is_u32 t → (t ≤ u32 max)%Z → t = Z.of_nat (frameHeadLen + k) →
  check_head max (head_bytes h t n) = inl k.
Proof.
  intros Hwf Ht Hmax Hk. unfold check_head.
  rewrite <- (app_nil_r (head_bytes h t n)).
  destruct (head_fields h t n [] Hwf) as (-> & _ & _ & -> & _).
  rewrite Z.eqb_refl, u32_small by done. simpl negb.
  rewrite (proj2 (Z.ltb_ge _ _)) by lia. rewrite (proj2 (Z.ltb_ge _ _)) by lia.
  f_equal. lia.
Qed.

(** The frames [construct] can produce under the limit [max]. *)
Definition constructed (max : Z) (buf : bytes) : Prop :=
  ∃ h header body attachment, FrameHead_wf h ∧ construct max h header body attachment = Ok buf.

Lemma ReadFrame_constructed max buf rest e :
  is_u32 max → constructed max buf →
  ReadFrame max (MkReader (buf ++ rest) e) = (Ok buf, MkReader rest e).
Proof.
  intros Hmax (h & header & body & att & Hwf & Hc).
  apply construct_Ok in Hc as (? & ? & ? & ->). rewrite ReadFrame_eq.
  unfold frame_of. set (t := (_ + zlen att)%Z) in *. rewrite <- !app_assoc.
  rewrite <- (length_head_bytes h t (zlen header)), ReadFull_app.
  rewrite (check_head_frame _ _ _ _ (length (header ++ body ++ att))); [|done|..].
  - replace (header ++ body ++ att ++ rest) with ((header ++ body ++ att) ++ rest)
      by by rewrite <- !app_assoc.
    by rewrite ReadFull_app.
  - unfold is_u32, t, zlen, frameHeadLen in *. lia.
  - rewrite u32_small by done. lia.
  - unfold t, zlen. rewrite !length_app. lia.
Qed.

Lemma ReadFrames_S n max r :
  ReadFrames (S n) max r =
  match ReadFrame max r with
  | (Ok f, r) => let '(fs, e) := ReadFrames n max r in (f :: fs, e)
  | (Err e, _) => ([], Some e)
  | (Panic, _) => ([], None)
  end.
Proof. done. Qed.

(** C9. The framer cuts the concatenation of any constructed frames back into exactly
    these frames, in order, and then reports the end of the stream: no byte is lost or
    moved from one frame to the next. *)
Theorem ReadFrames_concat (max : Z) (fs : list bytes) :
  is_u32 max → Forall (constructed max) fs →
  ReadFrames (S (length fs)) max (MkReader (concat fs) EOF) = (fs, Some EOF).
Proof.
  intros Hmax Hfs. induction Hfs as [|f fs Hf Hfs IH]; [done|].
  rewrite ReadFrames_S. simpl concat. rewrite ReadFrame_constructed by done.
  change (length (f :: fs)) with (S (length fs)). by rewrite IH.
Qed.

(** Whatever the stream holds, [ReadFrame] does not panic, and a frame it returns
    is a prefix of the stream, at least a head and at most [DefaultMaxFrameSize] long,
    starts with the magic number and has its own length in the total-length field; the
    reader is left just behind it. *)
Theorem ReadFrame_sound (max : Z) (r : Reader) :
  match ReadFrame max r with
  | (Ok buf, r') =>
    pending r = buf ++ pending r' ∧ final r' = final r ∧
    (Z.of_nat frameHeadLen ≤ zlen buf ≤ u32 max)%Z ∧
    field buf 0 2 = u16 TRPC_MAGIC_VALUE ∧ field buf 4 4 = zlen buf
  | (Err _, r') => ∃ skipped, pending r = skipped ++ pending r'
  | (Panic, _) => False
  end.
Proof.
  rewrite ReadFrame_eq. destruct r as [l e]. unfold ReadFull at 1. simpl.
  case_decide as Hl; [|simpl; exists l; by rewrite app_nil_r].
  destruct (check_head max (take frameHeadLen l)) as [k|e'] eqn:Hc.
  2: { simpl. exists (take frameHeadLen l). by rewrite take_drop. }
  pose proof (check_head_len _ _ _ Hc) as Hk.
  unfold ReadFull. simpl. case_decide as Hk2.
  2: { simpl. exists l. by rewrite app_nil_r. }
  simpl. rewrite length_drop in Hk2. rewrite <- (app_assoc (take _ l)).
  rewrite take_drop, take_drop. split_and!; try done.
  1, 2: unfold check_head in Hc; repeat break_hyp; simplify_eq; bool_to_prop;
    unfold zlen; rewrite length_app, !length_take, length_drop; lia.
  - assert (field (take frameHeadLen l) 0 2 = u16 TRPC_MAGIC_VALUE) as <-.
    { unfold check_head in Hc. repeat break_hyp; simplify_eq. by bool_to_prop. }
    unfold field. rewrite !drop_0, take_app_le; [done|].
    rewrite length_take. unfold frameHeadLen in *. lia.
  - rewrite zlen_app. unfold zlen. rewrite !length_take, length_drop.
    rewrite !Nat.min_l by lia. rewrite <- Nat2Z.inj_add, <- Hk. unfold field.
    rewrite drop_app_le, take_app_le; [done| |]; rewrite ?length_drop, length_take;
    unfold frameHeadLen in *; lia.
Qed.

(** C10. A stream that ends before the frame is complete never yields a frame.  The
    error is an unexpected end of stream, except at two places where it is the clean
    end: before the first byte of the frame, and between the head and the rest, where
    the second [io.ReadFull] reads nothing. *)
Theorem ReadFrame_truncated (max : Z) (buf rest : bytes) :
  is_u32 max → constructed max (buf ++ rest) → rest ≠ [] →
  (ReadFrame max (MkReader buf EOF)).1 =
  Err (if decide (buf = []) then EOF
       else if decide (length buf = frameHeadLen) then EOF else ErrUnexpectedEOF).
Proof.
  intros Hmax (h & header & body & att & Hwf & Hc) Hrest.
  apply construct_Ok in Hc as (? & ? & ? & Hbuf). rewrite ReadFrame_eq.
  pose proof (length_frame_of h header body att) as Hl.
  rewrite <- Hbuf, zlen_app in Hl. unfold frame_of in Hbuf.
  set (t := (_ + zlen att)%Z) in *. unfold ReadFull at 1. simpl.
  assert (length rest ≠ 0) by (by destruct rest).
  case_decide as Hb; simpl.
  - rewrite (decide_False (P := buf = [])) by (intros ->; unfold frameHeadLen in Hb; simpl in Hb; lia).
    assert (take frameHeadLen buf = head_bytes h t (zlen header)) as ->.
    { rewrite <- (take_app_le buf rest) by done. rewrite Hbuf.
      by rewrite <- (length_head_bytes h t (zlen header)), take_app_length. }
    rewrite (check_head_frame _ _ _ _ (length buf + length rest - frameHeadLen)); [|done|..].
    + unfold ReadFull. simpl. rewrite length_drop, decide_False by (unfold frameHeadLen in *; lia).
      simpl. destruct (decide (length buf = frameHeadLen)) as [Heq|Hne].
      * rewrite drop_ge by lia. by rewrite decide_True.
      * rewrite decide_False; [done|]. intros Hd%(f_equal length).
        rewrite length_drop in Hd. simpl in Hd. lia.
    + unfold is_u32, t, zlen, frameHeadLen in *. lia.
    + rewrite u32_small by done. lia.
    + unfold t, zlen, frameHeadLen in *. lia.
  - case_decide; [done|]. rewrite decide_False by lia. done.
Qed.

(** The parts of a frame that [construct] built. *)
Lemma construct_parts max h header body attachment buf :
  FrameHead_wf h → construct max h header body attachment = Ok buf →
  extract buf = Ok (h <| TotalLen := zlen buf |> <| HeaderLen := zlen header |>) ∧
  zlen buf = (16 + zlen header + zlen body + zlen attachment)%Z ∧
  slice buf 16 (16 + zlen header) = Some header ∧
  slice buf (16 + zlen header) (zlen buf - zlen attachment) = Some body ∧
  slice_from buf (zlen buf - zlen attachment) = Some attachment.
Proof.
  intros Hwf (? & ? & ? & ->)%construct_Ok.
  pose proof (length_frame_of h header body attachment) as Hl.
  pose proof (zlen_nonneg header). pose proof (zlen_nonneg body). pose proof (zlen_nonneg attachment).
  change (Z.of_nat frameHeadLen) with 16%Z in *. split_and!; [|lia|..].
  - apply extract_frame_of; [done|unfold is_u32|unfold is_u16]; lia.
  - unfold frame_of. set (hb := head_bytes _ _ _).
    assert (zlen hb = 16%Z) as Hz by (unfold zlen, hb; by rewrite length_head_bytes).
    rewrite <- Hz. apply slice_app_mid.
  - unfold frame_of in *. set (hb := head_bytes _ _ _) in *.
    assert (zlen hb = 16%Z) as Hz by (unfold zlen, hb; by rewrite length_head_bytes).
    rewrite !zlen_app, (app_assoc hb).
    replace (16 + zlen header)%Z with (zlen (hb ++ header)) by (rewrite zlen_app; lia).
    replace (_ - zlen attachment)%Z with (zlen (hb ++ header) + zlen body)%Z
      by (rewrite !zlen_app; lia).
    apply slice_app_mid.
  - unfold frame_of in *. set (hb := head_bytes _ _ _) in *.
    rewrite !app_assoc, zlen_app.
    replace (_ + zlen attachment - zlen attachment)%Z with (zlen ((hb ++ header) ++ body)) by lia.
    apply slice_from_app.
Qed.

(** C11. A frame that [construct] builds carries the head it was built from, with the
    total length and the header length set, and its three parts are found at the offsets
    these lengths give; building fails only for one of the three length limits. *)
Theorem construct_extract (max : Z) (h : FrameHead) (header body attachment : bytes) :
  FrameHead_wf h →
  match construct max h header body attachment with
  | Ok buf =>
    extract buf = Ok (h <| TotalLen := zlen buf |> <| HeaderLen := zlen header |>) ∧
    (zlen buf ≤ max)%Z ∧
    slice buf 16 (16 + zlen header) = Some header ∧
    slice buf (16 + zlen header) (zlen buf - zlen attachment) = Some body ∧
    slice_from buf (zlen buf - zlen attachment) = Some attachment
  | Err e =>
    (65535 < zlen header)%Z ∨ (4294967295 < zlen attachment)%Z ∨
    (max < 16 + zlen header + zlen body + zlen attachment)%Z ∨
    (4294967295 < 16 + zlen header + zlen body + zlen attachment)%Z
  | Panic => False
  end.
Proof.
  intros Hwf. destruct (construct _ _ _ _ _) as [buf|e|] eqn:Hc.
  - destruct (construct_parts _ _ _ _ _ _ Hwf Hc) as (? & Hl & ? & ? & ?).
    apply construct_Ok in Hc. change (Z.of_nat frameHeadLen) with 16%Z in Hc.
    split_and!; try done. lia.
  - apply construct_Err in Hc. change (Z.of_nat frameHeadLen) with 16%Z in Hc. lia.
  - by apply construct_not_Panic in Hc.
Qed.
End frame.

(** ** The theorems at concrete inputs *)

Module FrameExamples.
Import Sample.

Definition head1 : FrameHead := MkFrameHead 0 0 0 0 7 1 0.
Definition head2 : FrameHead := MkFrameHead 1 2 0 0 8 1 0.
Definition frame1 : bytes := frame_of head1 [Byte.x0a] (str_bytes "body") (str_bytes "at").
Definition frame2 : bytes := frame_of head2 [] (str_bytes "data") [].

Lemma head1_wf : FrameHead_wf head1.
Proof. repeat split; vm_compute; done. Defined.

Lemma head2_wf : FrameHead_wf head2.
Proof. repeat split; vm_compute; done. Defined.

Lemma frame1_constructed : constructed 100 frame1.
Proof.
  exists head1, [Byte.x0a], (str_bytes "body"), (str_bytes "at").
  split; [apply head1_wf|vm_compute; reflexivity].
Defined.

Lemma frame2_constructed : constructed 100 frame2.
Proof.
  exists head2, [], (str_bytes "data"), [].
  split; [apply head2_wf|vm_compute; reflexivity].
Defined.

Lemma ReadFrames_concat_witness :
  ReadFrames 3 100 (MkReader (frame1 ++ frame2) EOF) = ([frame1; frame2], Some EOF).
Proof.
  apply (ReadFrames_concat 100 [frame1; frame2]).
  - split; vm_compute; done.
  - constructor; [apply frame1_constructed|].
    constructor; [apply frame2_constructed|constructor].
Defined.

Lemma ReadFrame_truncated_witness :
  (ReadFrame 100 (MkReader (take 18 frame1) EOF)).1 = Err ErrUnexpectedEOF.
Proof.
  apply (ReadFrame_truncated 100 (take 18 frame1) (drop 18 frame1)).
  - split; vm_compute; done.
  - rewrite take_drop. apply frame1_constructed.
  - vm_compute. discriminate.
Defined.

Lemma construct_extract_witness :
  extract frame1 = Ok (MkFrameHead 0 0 23 1 7 1 0) ∧
  slice frame1 17 21 = Some (str_bytes "body").
Proof.
  pose proof (construct_extract 100 head1 [Byte.x0a] (str_bytes "body") (str_bytes "at") head1_wf)
    as H. vm_compute in H. destruct H as (H1 & _ & _ & H2 & _).
  split; [exact H1|exact H2].
Defined.
End FrameExamples.
