(* ===== verification/GoStrings.v ===== *)
(** The functions of Go's packages [strings] and [bytes] that the components use, on
    byte strings, with the lemmas that characterise them. *)

From S2P Require Import Prelude.
From Stdlib Require Import Ascii.

(** A byte written as a character. *)
Definition ch (a : ascii) : byte := byte_of_ascii a.

(** [s[lo:hi]] and [s[lo:]] at indices that are in range. *)
Definition sub (l : bytes) (lo hi : Z) : bytes := take (Z.to_nat (hi - lo)) (drop (Z.to_nat lo) l).
Definition from (l : bytes) (lo : Z) : bytes := drop (Z.to_nat lo) l.

(** [strings.IndexByte], with [None] for -1. *)
Fixpoint index_opt (c : byte) (l : bytes) : option nat :=
  match l with
  | [] => None
  | b :: l' => if decide (b = c) then Some 0 else S <$> index_opt c l'
  end.

(** [strings.Index] of a one-byte string. *)
Definition index (c : byte) (l : bytes) : Z :=
  match index_opt c l with Some i => Z.of_nat i | None => -1 end.

(** [strings.LastIndex] of a one-byte string. *)
Fixpoint last_index_opt (c : byte) (l : bytes) : option nat :=
  match l with
  | [] => None
  | b :: l' =>
    match last_index_opt c l' with
    | Some i => Some (S i)
    | None => if decide (b = c) then Some 0 else None
    end
  end.
Definition last_index (c : byte) (l : bytes) : Z :=
  match last_index_opt c l with Some i => Z.of_nat i | None => -1 end.

(** [strings.Count] of a one-byte string. *)
Fixpoint count (c : byte) (l : bytes) : nat :=
  match l with
  | [] => 0
  | b :: l' => (if decide (b = c) then 1 else 0) + count c l'
  end.

Definition contains (c : byte) (l : bytes) : bool := bool_decide (c ∈ l).
Definition contains_any (l : bytes) (cs : bytes) : bool := existsb (λ b, bool_decide (b ∈ cs)) l.

(** [strings.Split] at a one-byte separator: never empty. *)
Fixpoint split (c : byte) (l : bytes) : list bytes :=
  match l with
  | [] => [[]]
  | b :: l' =>
    if decide (b = c) then [] :: split c l'
    else match split c l' with
         | [] => [[b]]
         | p :: ps => (b :: p) :: ps
         end
  end.

(** [strings.Join]. *)
Fixpoint join (sep : bytes) (ls : list bytes) : bytes :=
  match ls with
  | [] => []
  | [l] => l
  | l :: ls' => l ++ sep ++ join sep ls'
  end.

Definition has_prefix (p l : bytes) : bool := bool_decide (take (length p) l = p).
Definition has_suffix (p l : bytes) : bool :=
  bool_decide (length p ≤ length l ∧ drop (length l - length p) l = p).

(** [strings.TrimPrefix] and [bytes.TrimSuffix]. *)
Definition trim_prefix (p l : bytes) : bytes := if has_prefix p l then drop (length p) l else l.
Definition trim_suffix (p l : bytes) : bytes :=
  if has_suffix p l then take (length l - length p) l else l.

(** ** Characterisations *)

Lemma index_opt_Some c l i :
  index_opt c l = Some i ↔ ∃ p q, l = p ++ c :: q ∧ length p = i ∧ c ∉ p.
Proof.
  revert i. induction l as [|b l IH]; intros i; simpl.
  - split; [done|]. intros (p & q & Hl & _). by destruct p.
  - case_decide as Hb; [subst b|].
    + split.
      * intros [= <-]. exists [], l. split_and!; [done|done|apply not_elem_of_nil].
      * intros (p & q & Hl & Hlen & Hp). destruct p as [|b p]; [by simpl in Hlen; subst|].
        simplify_eq/=. set_solver.
    + destruct (index_opt c l) as [k|] eqn:E; simpl.
      * destruct (proj1 (IH k) eq_refl) as (p & q & -> & <- & Hp). split.
        -- intros [= <-]. exists (b :: p), q. split_and!; [done|done|set_solver].
        -- intros (p' & q' & Hl & <- & Hp'). destruct p' as [|b' p']; simplify_eq/=.
           f_equal. f_equal. assert (Some (length p) = Some (length p')) as [= ->]; [|done].
           apply IH. by exists p', q'; split_and!; [|done|set_solver].
      * split; [done|]. intros (p' & q' & Hl & <- & Hp'). destruct p' as [|b' p']; simplify_eq/=.
        assert (None = Some (length p')); [|done]. apply IH. exists p', q'.
        split_and!; [done|done|set_solver].
Qed.

Lemma index_opt_app c p q : c ∉ p → index_opt c (p ++ c :: q) = Some (length p).
Proof. intros. apply index_opt_Some. eauto. Qed.

Lemma index_opt_None c l : index_opt c l = None ↔ c ∉ l.
Proof.
  induction l as [|b l IH]; simpl; [split; [intros; apply not_elem_of_nil|done]|].
  case_decide; [set_solver|]. rewrite fmap_None, IH. set_solver.
Qed.

Lemma index_cases c l :
  (index c l = -1 ∧ c ∉ l)%Z ∨
  ∃ p q, index c l = zlen p ∧ l = p ++ c :: q ∧ c ∉ p.
Proof.
  unfold index. destruct (index_opt c l) as [i|] eqn:E.
  - right. apply index_opt_Some in E as (p & q & -> & <- & ?). by exists p, q.
  - left. by apply index_opt_None in E.
Qed.

Lemma index_app c p q : c ∉ p → index c (p ++ c :: q) = zlen p.
Proof. intros. unfold index. by rewrite index_opt_app. Qed.

Lemma from_app (p q : bytes) : from (p ++ q) (zlen p) = q.
Proof. unfold from, zlen. by rewrite Nat2Z.id, drop_app_length. Qed.

Lemma sub_app (p q r : bytes) : sub (p ++ q ++ r) (zlen p) (zlen p + zlen q) = q.
Proof.
  unfold sub, zlen. rewrite Nat2Z.id, drop_app_length.
  replace (Z.to_nat _) with (length q) by lia. apply take_app_length.
Qed.

Lemma contains_any_false l cs : contains_any l cs = false ↔ ∀ b, b ∈ l → b ∉ cs.
Proof.
  unfold contains_any. induction l as [|b l IH]; simpl.
  - split; [|done]. intros _ b Hb. by apply not_elem_of_nil in Hb.
  - rewrite orb_false_iff, IH, bool_decide_eq_false. set_solver.
Qed.

Lemma last_index_opt_Some c l i :
  last_index_opt c l = Some i → ∃ p q, l = p ++ c :: q ∧ length p = i ∧ c ∉ q.
Proof.
  revert i. induction l as [|b l IH]; intros i; simpl; [done|].
  destruct (last_index_opt c l) as [k|] eqn:E.
  - intros [= <-]. destruct (IH _ eq_refl) as (p & q & -> & <- & ?). by exists (b :: p), q.
  - case_decide; intros [= <-]. subst. exists [], l. split_and!; [done|done|].
    clear IH. induction l as [|b l IH]; [apply not_elem_of_nil|]. simpl in E.
    destruct (last_index_opt c l); [done|]. case_decide; [done|].
    apply not_elem_of_cons. split; [done|]. by apply IH.
Qed.

Lemma last_index_opt_None c l : last_index_opt c l = None ↔ c ∉ l.
Proof.
  induction l as [|b l IH]; simpl; [split; [intros; apply not_elem_of_nil|done]|].
  destruct (last_index_opt c l) as [k|] eqn:E.
  - split; [done|]. destruct (last_index_opt_Some _ _ _ E) as (p & q & -> & _). set_solver.
  - rewrite not_elem_of_cons. destruct IH as [IH _]. case_decide; naive_solver.
Qed.

Lemma last_index_opt_app c p q : c ∉ q → last_index_opt c (p ++ c :: q) = Some (length p).
Proof.
  intros Hq. induction p as [|b p IH]; simpl; [|by rewrite IH].
  rewrite (proj2 (last_index_opt_None c q) Hq). by rewrite decide_True.
Qed.

Lemma count_app c p q : count c (p ++ q) = count c p + count c q.
Proof. induction p; simpl; [done|]. rewrite IHp. lia. Qed.

Lemma count_0 c l : count c l = 0 ↔ c ∉ l.
Proof.
  induction l as [|b l IH]; simpl; [split; [intros; apply not_elem_of_nil|done]|].
  rewrite not_elem_of_cons. case_decide; subst; simpl; naive_solver lia.
Qed.

Lemma split_not_nil c l : split c l ≠ [].
Proof. destruct l; simpl; [done|]. case_decide; [done|]. by destruct (split c l). Qed.

Lemma length_split c l : length (split c l) = S (count c l).
Proof.
  induction l as [|b l IH]; simpl; [done|]. case_decide; simpl; [by rewrite IH|].
  destruct (split c l); simpl in *; done.
Qed.

(** Splitting and joining are inverse. *)
Lemma join_split c l : join [c] (split c l) = l.
Proof.
  induction l as [|b l IH]; simpl; [done|].
  pose proof (split_not_nil c l) as Hn. case_decide as Hb.
  - subst. destruct (split c l) as [|p ps]; [done|]. simpl in *. by rewrite IH.
  - destruct (split c l) as [|p ps]; [done|]. destruct ps; simpl in *; by rewrite <- IH.
Qed.

Lemma split_no_sep c l : c ∉ l → split c l = [l].
Proof.
  induction l as [|b l IH]; simpl; [done|]. intros Hn%not_elem_of_cons.
  rewrite decide_False by naive_solver. rewrite IH by naive_solver. done.
Qed.

Lemma split_app_sep c p q : c ∉ p → split c (p ++ c :: q) = p :: split c q.
Proof.
  induction p as [|b p IH]; simpl; intros Hn; [by rewrite decide_True|].
  apply not_elem_of_cons in Hn as [? ?]. rewrite decide_False by done. by rewrite IH.
Qed.

Lemma split_join c ls : ls ≠ [] → Forall (λ l, c ∉ l) ls → split c (join [c] ls) = ls.
Proof.
  intros Hne Hls. induction Hls as [|l ls Hl Hls IH]; [done|].
  destruct ls as [|l' ls]; [by apply split_no_sep|].
  change (join [c] (l :: l' :: ls)) with (l ++ c :: join [c] (l' :: ls)).
  rewrite split_app_sep by done. by rewrite IH.
Qed.

Lemma split_parts c l : Forall (λ p, c ∉ p) (split c l).
Proof.
  induction l as [|b l IH]; simpl.
  - repeat constructor. apply not_elem_of_nil.
  - case_decide; [constructor; [apply not_elem_of_nil|done]|].
    destruct (split c l) as [|p ps]; inversion IH; subst; repeat constructor; try done.
    + set_solver.
    + set_solver.
Qed.

(** Text after the last part is text of the last part. *)
Lemma join_snoc_app sep ls l v : join sep (ls ++ [l]) ++ v = join sep (ls ++ [l ++ v]).
Proof.
  induction ls as [|k ls IH]; [done|]. rewrite <- !app_comm_cons.
  assert (∀ ls' : list bytes, ls' ≠ [] → join sep (k :: ls') = k ++ sep ++ join sep ls') as Hj.
  { by intros []. }
  rewrite !Hj by (by destruct ls). by rewrite <- !app_assoc, IH.
Qed.

Lemma has_prefix_app p l : has_prefix p (p ++ l) = true.
Proof. apply bool_decide_eq_true. apply take_app_length. Qed.

Lemma has_prefix_true p l : has_prefix p l = true ↔ ∃ q, l = p ++ q.
Proof.
  unfold has_prefix. rewrite bool_decide_eq_true. split.
  - intros H. exists (drop (length p) l). rewrite <- H at 1. by rewrite take_drop.
  - intros [q ->]. apply take_app_length.
Qed.

Lemma has_suffix_true p l : has_suffix p l = true ↔ ∃ q, l = q ++ p.
Proof.
  unfold has_suffix. rewrite bool_decide_eq_true. split.
  - intros [Hle H]. exists (take (length l - length p) l). rewrite <- H at 2. by rewrite take_drop.
  - intros [q ->]. rewrite length_app. split; [lia|].
    replace (_ - _) with (length q) by lia. apply drop_app_length.
Qed.

Lemma trim_prefix_app p l : trim_prefix p (p ++ l) = l.
Proof. unfold trim_prefix. by rewrite has_prefix_app, drop_app_length. Qed.
