(* ===== verification/Errs.v ===== *)
(** Error values (errs/errs.go): construction, wrapping, and the error code and message
    that a caller reads off an error chain.  The call stack that an error may carry is
    left out: it is never read by the functions modelled here. *)

From S2P Require Import Prelude Pb.

Definition ErrorTypeFramework : Z := 1.
Definition ErrorTypeBusiness : Z := 2.
Definition ErrorTypeCalleeFramework : Z := 3.

Definition Success : string := "success".

Definition typeDesc (t : Z) : string :=
  if (t =? ErrorTypeFramework)%Z then "framework"
  else if (t =? ErrorTypeCalleeFramework)%Z then "callee framework"
  else "business".

(** [Error()] of the error types of the model. *)
Fixpoint Error (e : error) : string :=
  match e with
  | Plain text => text
  | Wrapped prefix inner => prefix +:+ Error inner
  | FrameTooLarge n => "frame len is larger than MaxFrameSize(" +:+ pretty n +:+ ")"
  | Status t c m _ => "type:" +:+ typeDesc t +:+ ", code:" +:+ pretty c +:+ ", msg:" +:+ m
  | StatusOf t c m _ cause =>
    "type:" +:+ typeDesc t +:+ ", code:" +:+ pretty c +:+ ", msg:" +:+ m
    +:+ ", caused by " +:+ Error cause
  | NilStatus => Success
  end.

(** [errors.As(e, &err)] for a target of type [*Error]: the first [*Error] of the
    chain. *)
Fixpoint As (e : error) : option error :=
  match e with
  | Plain _ | FrameTooLarge _ => None
  | Wrapped _ inner => As inner
  | Status _ _ _ _ | StatusOf _ _ _ _ _ | NilStatus => Some e
  end.

(** [New]: the code is converted to the 32-bit [TrpcRetCode]. *)
Definition New (code : Z) (msg : string) : error := Status ErrorTypeBusiness (i32 code) msg "".

Definition NewFrameError (code : Z) (msg : string) : error :=
  Status ErrorTypeFramework (i32 code) msg "trpc".

(** An interface value of type [error]: [None] is nil. *)
Definition Wrap (err : option error) (code : Z) (msg : string) : option error :=
  match err with
  | None => None
  | Some cause => Some (StatusOf ErrorTypeBusiness (i32 code) msg "" cause)
  end.

Definition WrapFrameError (err : option error) (code : Z) (msg : string) : option error :=
  match err with
  | None => None
  | Some cause => Some (StatusOf ErrorTypeFramework (i32 code) msg "trpc" cause)
  end.

Section codes.
Context `{PbEnum}.

(** [Code] first tries the type assertion and only then [errors.As]; both give the
    same target. *)
Definition Code (e : option error) : Z :=
  match e with
  | None => RetOK
  | Some e =>
    match As e with
    | None => RetUnknown
    | Some NilStatus => RetOK
    | Some (Status _ c _ _) | Some (StatusOf _ c _ _ _) => c
    | Some _ => RetUnknown
    end
  end.

Definition Msg (e : option error) : string :=
  match e with
  | None => Success
  | Some e =>
    match As e with
    | None => Error e
    | Some NilStatus => Success
    | Some (Status _ _ m _) => m
    | Some s => Error s
    end
  end.

(** The method [IsTimeout] of an [*Error] that is not nil (on a nil pointer it panics). *)
Definition IsTimeout (e : error) (typ : Z) : bool :=
  match e with
  | Status t c _ _ | StatusOf t c _ _ _ =>
    (t =? typ)%Z && ((c =? RetClientTimeout)%Z || (c =? RetClientFullLinkTimeout)%Z ||
                     (c =? RetServerTimeout)%Z || (c =? RetServerFullLinkTimeout)%Z)
  | _ => false
  end.

(** Any number of [fmt.Errorf("..: %w", err)] layers around an error. *)
Fixpoint layers (prefixes : list string) (e : error) : error :=
  match prefixes with
  | [] => e
  | p :: ps => Wrapped p (layers ps e)
  end.

Lemma As_layers ps e : As (layers ps e) = As e.
Proof. induction ps; simpl; auto. Qed.
End codes.
