(* ===== verification/Msg.v ===== *)
(** The per-call message of the framework (codec/message.go, codec/message_impl.go):
    the record every codec reads and writes, its accessors, and the functions that
    reset, copy and clone it.  The context a message belongs to is left out.  A nil map
    and an empty map are one value, as no accessor tells them apart. *)

From S2P Require Import Prelude GoStrings Pb Errs Frame.
From Stdlib Require Import Ascii.

(** The values of type [interface{}] that the codecs store in a message and tell apart
    by a type assertion; [IOther] is any other dynamic type.  An [Attachment] holds two
    [io.Reader]s, [None] being a nil interface. *)
Inductive iface : Type :=
| INil
| IFrameHead (h : FrameHead)
| IReq (r : RequestProtocol)
| IRsp (r : ResponseProtocol)
| IInit (m : TrpcStreamInitMeta)
| IClose (m : TrpcStreamCloseMeta)
| IFeedback (m : TrpcStreamFeedBackMeta)
| IAttachment (Request Response : option Reader)
| IOther (tag : string).

(** [net.Addr]: what its methods [Network] and [String] return. *)
Record Addr := MkAddr { Network : string; AddrString : string }.

(** Keys of the common meta data: the two attachment key types and any other key. *)
Inductive MetaKey := ClientAttachmentKey | ServerAttachmentKey | OtherKey (s : string).

#[global] Instance MetaKey_eq_dec : EqDecision MetaKey.
Proof. solve_decision. Defined.

#[global] Program Instance MetaKey_countable : Countable MetaKey :=
  inj_countable' (λ k, match k with
      | ClientAttachmentKey => inl true | ServerAttachmentKey => inl false
      | OtherKey s => inr s end)
    (λ s : bool + string, match s with
      | inl true => ClientAttachmentKey | inl false => ServerAttachmentKey
      | inr s => OtherKey s end) _.
Next Obligation. by intros []. Qed.

Abbreviation MetaData := (gmap string bytes).
Abbreviation CommonMeta := (gmap MetaKey iface).

(** [Clone] makes a map with the same bindings. *)
Definition Clone {K V} `{Countable K} (m : gmap K V) : gmap K V :=
  map_fold (λ k v md, <[k := v]> md) ∅ m.

Record msg := MkMsg {
  frameHead : iface;
  requestTimeout : Z;
  serializationType : Z;
  compressType : Z;
  streamID : Z;
  dyeing : bool;
  dyeingKey : string;
  serverRPCName : string;
  clientRPCName : string;
  serverMetaData : MetaData;
  clientMetaData : MetaData;
  callerServiceName : string;
  calleeServiceName : string;
  calleeContainerName : string;
  serverRspErr : option error;
  clientRspErr : option error;
  serverReqHead : iface;
  serverRspHead : iface;
  clientReqHead : iface;
  clientRspHead : iface;
  localAddr : option Addr;
  remoteAddr : option Addr;
  logger : iface;
  callerApp : string;
  callerServer : string;
  callerService : string;
  callerMethod : string;
  calleeApp : string;
  calleeServer : string;
  calleeService : string;
  calleeMethod : string;
  namespace : string;
  setName : string;
  envName : string;
  envTransfer : string;
  requestID : Z;
  calleeSetName : string;
  streamFrame : iface;
  commonMeta : CommonMeta;
  callType : Z
}.

#[export] Instance eta_msg : Eta msg := λ m,
  MkMsg (frameHead m) (requestTimeout m) (serializationType m) (compressType m) (streamID m)
    (dyeing m) (dyeingKey m) (serverRPCName m) (clientRPCName m) (serverMetaData m)
    (clientMetaData m) (callerServiceName m) (calleeServiceName m) (calleeContainerName m)
    (serverRspErr m) (clientRspErr m) (serverReqHead m) (serverRspHead m) (clientReqHead m)
    (clientRspHead m) (localAddr m) (remoteAddr m) (logger m) (callerApp m) (callerServer m)
    (callerService m) (callerMethod m) (calleeApp m) (calleeServer m) (calleeService m)
    (calleeMethod m) (namespace m) (setName m) (envName m) (envTransfer m) (requestID m)
    (calleeSetName m) (streamFrame m) (commonMeta m) (callType m).

(** The message [&msg{}] of the pool. *)
Definition zero_msg : msg :=
  MkMsg INil 0 0 0 0 false "" "" "" ∅ ∅ "" "" "" None None INil INil INil INil None None INil "" "" "" "" "" "" "" "" "" "" "" "" 0 "" INil ∅ 0.

(** The assignments of [resetDefault], in its order. *)
Definition resetDefault (m : msg) : msg :=
  m <| frameHead := INil |>
    <| requestTimeout := 0%Z |>
    <| serializationType := 0%Z |>
    <| compressType := 0%Z |>
    <| dyeing := false |>
    <| dyeingKey := "" |>
    <| serverRPCName := "" |>
    <| clientRPCName := "" |>
    <| serverMetaData := ∅ |>
    <| clientMetaData := ∅ |>
    <| callerServiceName := "" |>
    <| calleeServiceName := "" |>
    <| calleeContainerName := "" |>
    <| serverRspErr := None |>
    <| clientRspErr := None |>
    <| serverReqHead := INil |>
    <| serverRspHead := INil |>
    <| clientReqHead := INil |>
    <| clientRspHead := INil |>
    <| localAddr := None |>
    <| remoteAddr := None |>
    <| logger := INil |>
    <| callerApp := "" |>
    <| callerServer := "" |>
    <| callerService := "" |>
    <| callerMethod := "" |>
    <| calleeApp := "" |>
    <| calleeServer := "" |>
    <| calleeService := "" |>
    <| calleeMethod := "" |>
    <| namespace := "" |>
    <| setName := "" |>
    <| envName := "" |>
    <| envTransfer := "" |>
    <| requestID := 0%Z |>
    <| streamFrame := INil |>
    <| streamID := 0%Z |>
    <| calleeSetName := "" |>
    <| commonMeta := ∅ |>
    <| callType := 0%Z |>.

(** ** Setters that assign one field *)

Definition WithNamespace (m : msg) (v : string) : msg := m <| namespace := v |>.
Definition WithEnvName (m : msg) (v : string) : msg := m <| envName := v |>.
Definition WithSetName (m : msg) (v : string) : msg := m <| setName := v |>.
Definition WithCalleeSetName (m : msg) (v : string) : msg := m <| calleeSetName := v |>.
Definition WithEnvTransfer (m : msg) (v : string) : msg := m <| envTransfer := v |>.
Definition WithRemoteAddr (m : msg) (v : option Addr) : msg := m <| remoteAddr := v |>.
Definition WithLocalAddr (m : msg) (v : option Addr) : msg := m <| localAddr := v |>.
Definition WithRequestTimeout (m : msg) (v : Z) : msg := m <| requestTimeout := v |>.
Definition WithFrameHead (m : msg) (v : iface) : msg := m <| frameHead := v |>.
Definition WithSerializationType (m : msg) (v : Z) : msg := m <| serializationType := v |>.
Definition WithCompressType (m : msg) (v : Z) : msg := m <| compressType := v |>.
Definition WithServerMetaData (m : msg) (v : MetaData) : msg := m <| serverMetaData := v |>.
Definition WithClientMetaData (m : msg) (v : MetaData) : msg := m <| clientMetaData := v |>.
Definition WithCalleeContainerName (m : msg) (v : string) : msg := m <| calleeContainerName := v |>.
Definition WithStreamFrame (m : msg) (v : iface) : msg := m <| streamFrame := v |>.
Definition WithServerRspErr (m : msg) (v : option error) : msg := m <| serverRspErr := v |>.
Definition WithStreamID (m : msg) (v : Z) : msg := m <| streamID := v |>.
Definition WithClientRspErr (m : msg) (v : option error) : msg := m <| clientRspErr := v |>.
Definition WithServerReqHead (m : msg) (v : iface) : msg := m <| serverReqHead := v |>.
Definition WithServerRspHead (m : msg) (v : iface) : msg := m <| serverRspHead := v |>.
Definition WithClientReqHead (m : msg) (v : iface) : msg := m <| clientReqHead := v |>.
Definition WithClientRspHead (m : msg) (v : iface) : msg := m <| clientRspHead := v |>.
Definition WithDyeing (m : msg) (v : bool) : msg := m <| dyeing := v |>.
Definition WithDyeingKey (m : msg) (v : string) : msg := m <| dyeingKey := v |>.
Definition WithCallerApp (m : msg) (v : string) : msg := m <| callerApp := v |>.
Definition WithCallerServer (m : msg) (v : string) : msg := m <| callerServer := v |>.
Definition WithCallerService (m : msg) (v : string) : msg := m <| callerService := v |>.
Definition WithCallerMethod (m : msg) (v : string) : msg := m <| callerMethod := v |>.
Definition WithCalleeApp (m : msg) (v : string) : msg := m <| calleeApp := v |>.
Definition WithCalleeServer (m : msg) (v : string) : msg := m <| calleeServer := v |>.
Definition WithCalleeService (m : msg) (v : string) : msg := m <| calleeService := v |>.
Definition WithCalleeMethod (m : msg) (v : string) : msg := m <| calleeMethod := v |>.
Definition WithLogger (m : msg) (v : iface) : msg := m <| logger := v |>.
Definition WithRequestID (m : msg) (v : Z) : msg := m <| requestID := v |>.
Definition WithCommonMeta (m : msg) (v : CommonMeta) : msg := m <| commonMeta := v |>.
Definition WithCallType (m : msg) (v : Z) : msg := m <| callType := v |>.

(** ** Getters that return one field

    [msg_X] is the accessor [X] of a message. *)

Definition msg_FrameHead (m : msg) : iface := frameHead m.
Definition msg_RequestTimeout (m : msg) : Z := requestTimeout m.
Definition msg_SerializationType (m : msg) : Z := serializationType m.
Definition msg_CompressType (m : msg) : Z := compressType m.
Definition msg_StreamID (m : msg) : Z := streamID m.
Definition msg_Dyeing (m : msg) : bool := dyeing m.
Definition msg_DyeingKey (m : msg) : string := dyeingKey m.
Definition msg_ServerRPCName (m : msg) : string := serverRPCName m.
Definition msg_ClientRPCName (m : msg) : string := clientRPCName m.
Definition msg_ServerMetaData (m : msg) : MetaData := serverMetaData m.
Definition msg_ClientMetaData (m : msg) : MetaData := clientMetaData m.
Definition msg_CallerServiceName (m : msg) : string := callerServiceName m.
Definition msg_CalleeServiceName (m : msg) : string := calleeServiceName m.
Definition msg_CalleeContainerName (m : msg) : string := calleeContainerName m.
Definition msg_ClientRspErr (m : msg) : option error := clientRspErr m.
Definition msg_ServerReqHead (m : msg) : iface := serverReqHead m.
Definition msg_ServerRspHead (m : msg) : iface := serverRspHead m.
Definition msg_ClientReqHead (m : msg) : iface := clientReqHead m.
Definition msg_ClientRspHead (m : msg) : iface := clientRspHead m.
Definition msg_LocalAddr (m : msg) : option Addr := localAddr m.
Definition msg_RemoteAddr (m : msg) : option Addr := remoteAddr m.
Definition msg_Logger (m : msg) : iface := logger m.
Definition msg_CallerApp (m : msg) : string := callerApp m.
Definition msg_CallerServer (m : msg) : string := callerServer m.
Definition msg_CallerService (m : msg) : string := callerService m.
Definition msg_CallerMethod (m : msg) : string := callerMethod m.
Definition msg_CalleeApp (m : msg) : string := calleeApp m.
Definition msg_CalleeServer (m : msg) : string := calleeServer m.
Definition msg_CalleeService (m : msg) : string := calleeService m.
Definition msg_CalleeMethod (m : msg) : string := calleeMethod m.
Definition msg_Namespace (m : msg) : string := namespace m.
Definition msg_SetName (m : msg) : string := setName m.
Definition msg_EnvName (m : msg) : string := envName m.
Definition msg_EnvTransfer (m : msg) : string := envTransfer m.
Definition msg_RequestID (m : msg) : Z := requestID m.
Definition msg_CalleeSetName (m : msg) : string := calleeSetName m.
Definition msg_StreamFrame (m : msg) : iface := streamFrame m.
Definition msg_CommonMeta (m : msg) : CommonMeta := commonMeta m.
Definition msg_CallType (m : msg) : Z := callType m.

(** ** Names *)

(** [getAppServerService]: app, server and service of a service name. *)
Definition ServiceSectionLength : Z := 4.

Definition dot : byte := ch ".".
Definition slash : byte := ch "/".

Definition getAppServerService (name : string) : string * string * string :=
  let s := str_bytes name in
  if (ServiceSectionLength - 1 <=? Z.of_nat (count dot s))%Z then
    let i := (index dot s + 1)%Z in
    let j := (index dot (from s i) + i + 1)%Z in
    let k := (index dot (from s j) + j + 1)%Z in
    (bytes_str (sub s i (j - 1)), bytes_str (sub s j (k - 1)), bytes_str (from s k))
  else
    let i := index dot s in
    if (i =? -1)%Z then (name, "", "") else
    let app := bytes_str (sub s 0 i) in
    let i := (i + 1)%Z in
    let j := index dot (from s i) in
    if (j =? -1)%Z then (app, bytes_str (from s i), "") else
    let j := (j + i + 1)%Z in
    (app, bytes_str (sub s i (j - 1)), bytes_str (from s j)).

(** [methodFromRPCName]: what follows the last slash. *)
Definition methodFromRPCName (name : string) : string :=
  let s := str_bytes name in bytes_str (from s (last_index slash s + 1)).

(** [rpcNameIsTRPCForm] *)
Definition rpcNameIsTRPCForm (name : string) : bool :=
  let s := str_bytes name in
  match s with
  | [] => false
  | c :: _ =>
    if negb (bool_decide (c = slash)) then false else
    let start := 1%Z in
    let firstDot := index dot (from s start) in
    if (firstDot =? -1)%Z || (firstDot =? 0)%Z then false else
    if contains slash (sub s start (start + firstDot)) then false else
    let secondSlash := index slash (from s (start + firstDot)) in
    if (secondSlash =? -1)%Z || (secondSlash =? 1)%Z then false else
    if (start + firstDot + secondSlash =? zlen s - 1)%Z then false else
    let offset := 1%Z in
    if contains_any (from s (start + firstDot + secondSlash + offset)) [slash; dot]
    then false else true
  end.

(** ** Setters with more to do *)

Definition updateMethodNameUsingRPCName (m : msg) (s : string) : msg :=
  if rpcNameIsTRPCForm s then WithCalleeMethod m (methodFromRPCName s)
  else if bool_decide (msg_CalleeMethod m = "") then WithCalleeMethod m s
  else m.

Definition WithServerRPCName (m : msg) (s : string) : msg :=
  if bool_decide (serverRPCName m = s) then m
  else updateMethodNameUsingRPCName (m <| serverRPCName := s |>) s.

Definition WithClientRPCName (m : msg) (s : string) : msg :=
  if bool_decide (clientRPCName m = s) then m
  else updateMethodNameUsingRPCName (m <| clientRPCName := s |>) s.

Definition WithCalleeServiceName (m : msg) (s : string) : msg :=
  if bool_decide (calleeServiceName m = s) then m else
  let m := m <| calleeServiceName := s |> in
  if bool_decide (s = "*") then m else
  let '(app, server, service) := getAppServerService s in
  WithCalleeService (WithCalleeServer (WithCalleeApp m app) server) service.

Definition WithCallerServiceName (m : msg) (s : string) : msg :=
  if bool_decide (callerServiceName m = s) then m else
  let m := m <| callerServiceName := s |> in
  if bool_decide (s = "*") then m else
  let '(app, server, service) := getAppServerService s in
  WithCallerService (WithCallerServer (WithCallerApp m app) server) service.

Section errors.
Context `{PbEnum}.

(** [ServerRspErr] returns an [*errs.Error]: a nil pointer is [None], an error of any
    other type is turned into one. *)
Definition ServerRspErr (m : msg) : option error :=
  match serverRspErr m with
  | None => None
  | Some NilStatus => None
  | Some (Status t c x d) => Some (Status t c x d)
  | Some (StatusOf t c x d cause) => Some (StatusOf t c x d cause)
  | Some e => Some (Status ErrorTypeBusiness RetUnknown (Error e) "")
  end.

(** The [*errs.Error] that [ServerRspErr] returns, stored as an [error]: a nil pointer
    becomes an interface that is not nil. *)
Definition as_error (e : option error) : option error :=
  Some (match e with None => NilStatus | Some e => e end).

(** [CopyMsg], in the order of its calls; for messages that are not nil. *)
Definition CopyMsg (dst src : msg) : msg :=
  let d := WithFrameHead dst (msg_FrameHead src) in
  let d := WithRequestTimeout d (msg_RequestTimeout src) in
  let d := WithSerializationType d (msg_SerializationType src) in
  let d := WithCompressType d (msg_CompressType src) in
  let d := WithStreamID d (msg_StreamID src) in
  let d := WithDyeing d (msg_Dyeing src) in
  let d := WithDyeingKey d (msg_DyeingKey src) in
  let d := WithServerRPCName d (msg_ServerRPCName src) in
  let d := WithClientRPCName d (msg_ClientRPCName src) in
  let d := WithServerMetaData d (Clone (msg_ServerMetaData src)) in
  let d := WithClientMetaData d (Clone (msg_ClientMetaData src)) in
  let d := WithCallerServiceName d (msg_CallerServiceName src) in
  let d := WithCalleeServiceName d (msg_CalleeServiceName src) in
  let d := WithCalleeContainerName d (msg_CalleeContainerName src) in
  let d := WithServerRspErr d (as_error (ServerRspErr src)) in
  let d := WithClientRspErr d (msg_ClientRspErr src) in
  let d := WithServerReqHead d (msg_ServerReqHead src) in
  let d := WithServerRspHead d (msg_ServerRspHead src) in
  let d := WithClientReqHead d (msg_ClientReqHead src) in
  let d := WithClientRspHead d (msg_ClientRspHead src) in
  let d := WithLocalAddr d (msg_LocalAddr src) in
  let d := WithRemoteAddr d (msg_RemoteAddr src) in
  let d := WithLogger d (msg_Logger src) in
  let d := WithCallerApp d (msg_CallerApp src) in
  let d := WithCallerServer d (msg_CallerServer src) in
  let d := WithCallerService d (msg_CallerService src) in
  let d := WithCallerMethod d (msg_CallerMethod src) in
  let d := WithCalleeApp d (msg_CalleeApp src) in
  let d := WithCalleeServer d (msg_CalleeServer src) in
  let d := WithCalleeService d (msg_CalleeService src) in
  let d := WithCalleeMethod d (msg_CalleeMethod src) in
  let d := WithNamespace d (msg_Namespace src) in
  let d := WithSetName d (msg_SetName src) in
  let d := WithEnvName d (msg_EnvName src) in
  let d := WithEnvTransfer d (msg_EnvTransfer src) in
  let d := WithRequestID d (msg_RequestID src) in
  let d := WithStreamFrame d (msg_StreamFrame src) in
  let d := WithCalleeSetName d (msg_CalleeSetName src) in
  let d := WithCommonMeta d (Clone (msg_CommonMeta src)) in
  WithCallType d (msg_CallType src).
End errors.

(** ** Cloning for a downstream call *)

Definition copyCommonMessage (m newMsg : msg) : msg :=
  newMsg <| frameHead := frameHead m |>
    <| requestTimeout := requestTimeout m |>
    <| serializationType := serializationType m |>
    <| serverRPCName := serverRPCName m |>
    <| clientRPCName := clientRPCName m |>
    <| serverReqHead := serverReqHead m |>
    <| serverRspHead := serverRspHead m |>
    <| dyeing := dyeing m |>
    <| dyeingKey := dyeingKey m |>
    <| serverMetaData := Clone (serverMetaData m) |>
    <| logger := logger m |>
    <| namespace := namespace m |>
    <| envName := envName m |>
    <| setName := setName m |>
    <| envTransfer := envTransfer m |>
    <| commonMeta := Clone (commonMeta m) |>.

Definition copyServerToClientMessage (m newMsg : msg) : msg :=
  newMsg <| clientMetaData := Clone (serverMetaData m) |>
    <| callerServiceName := calleeServiceName m |>
    <| callerApp := calleeApp m |>
    <| callerServer := calleeServer m |>
    <| callerService := calleeService m |>
    <| callerMethod := calleeMethod m |>.

Definition copyServerToServerMessage (m newMsg : msg) : msg :=
  newMsg <| callerServiceName := callerServiceName m |>
    <| callerApp := callerApp m |>
    <| callerServer := callerServer m |>
    <| callerService := callerService m |>
    <| callerMethod := callerMethod m |>
    <| calleeServiceName := calleeServiceName m |>
    <| calleeService := calleeService m |>
    <| calleeApp := calleeApp m |>
    <| calleeServer := calleeServer m |>
    <| calleeMethod := calleeMethod m |>.

(** A message is taken from the pool: one that [PutBackMessage] put there, or a new
    one.  [WithCloneMessage] and [WithCloneContextAndMessage] of a context that holds
    the message [ctx] ([None] if it holds none). *)
Definition PutBackMessage (m : msg) : msg := resetDefault m.

Definition WithCloneMessage (ctx : option msg) (pooled : msg) : msg :=
  match ctx with
  | None => pooled
  | Some m => copyServerToClientMessage m (copyCommonMessage m pooled)
  end.

Definition WithCloneContextAndMessage (ctx : option msg) (pooled : msg) : msg :=
  match ctx with
  | None => pooled
  | Some m => copyServerToServerMessage m (copyCommonMessage m pooled)
  end.

(** ** Properties *)

Lemma Clone_eq {K V} `{Countable K} (m : gmap K V) : Clone m = m.
Proof.
  unfold Clone. apply (map_fold_weak_ind (λ r m, r = m)); [done|].
  by intros k v m' r Hk ->.
Qed.
#[global] Hint Rewrite @Clone_eq : trpc.

Lemma resetDefault_zero m : resetDefault m = zero_msg.
Proof. reflexivity. Qed.

(** The regular expressions of the comment on [rpcNameIsTRPCForm]: a character, a
    negated class, and the repetition of a class at least once. *)
Inductive re :=
| Char (c : byte)
| NotIn1 (cs : bytes)           (* [^cs]+ *)
| Seq (r1 r2 : re).

Inductive re_match : re → bytes → Prop :=
| match_Char c : re_match (Char c) [c]
| match_NotIn1 cs l : l ≠ [] → (∀ b, b ∈ l → b ∉ cs) → re_match (NotIn1 cs) l
| match_Seq r1 r2 l1 l2 : re_match r1 l1 → re_match r2 l2 → re_match (Seq r1 r2) (l1 ++ l2).

(** [^/[^/.]+\.[^/]+/[^/.]+$] *)
Definition trpc_form_re : re :=
  Seq (Char slash) (Seq (NotIn1 [slash; dot]) (Seq (Char dot)
    (Seq (NotIn1 [slash]) (Seq (Char slash) (NotIn1 [slash; dot]))))).

Lemma trpc_form_re_match l :
  re_match trpc_form_re l ↔
  ∃ p q r, l = slash :: p ++ dot :: q ++ slash :: r ∧ p ≠ [] ∧ q ≠ [] ∧ r ≠ [] ∧
    slash ∉ p ∧ dot ∉ p ∧ slash ∉ q ∧ slash ∉ r ∧ dot ∉ r.
Proof.
  split.
  - unfold trpc_form_re. intros Hm.
    repeat match goal with H : re_match (Seq _ _) _ |- _ => inversion H; subst; clear H end.
    repeat match goal with
    | H : re_match (Char _) _ |- _ => inversion H; subst; clear H
    | H : re_match (NotIn1 _) _ |- _ => inversion H; subst; clear H end.
    match goal with |- ∃ p q r, [_] ++ ?a ++ [_] ++ ?b ++ [_] ++ ?c = _ ∧ _ => exists a, b, c end.
    split_and!; try done; set_solver.
  - intros (p & q & r & -> & ? & ? & ? & ? & ? & ? & ? & ?).
    change (slash :: p ++ dot :: q ++ slash :: r)
      with ([slash] ++ p ++ [dot] ++ q ++ [slash] ++ r).
    repeat (constructor; [by constructor; try done; set_solver|]).
    constructor; [done|set_solver].
Qed.

Lemma dot_not_slash : dot ≠ slash.
Proof. vm_compute. discriminate. Qed.

(** The parts of a name in trpc form, found by the successive searches. *)
Lemma rpcName_parts p q r s :
  str_bytes s = slash :: p ++ dot :: q ++ slash :: r →
  dot ∉ p → slash ∉ q →
  rpcNameIsTRPCForm s =
  (negb (zlen p =? 0) && negb (contains slash p) && negb (zlen q =? 0) &&
   negb (zlen r =? 0) && negb (contains_any r [slash; dot]))%Z%bool.
Proof.
  intros Hs Hp Hq. unfold rpcNameIsTRPCForm. rewrite Hs, bool_decide_true by done. simpl negb.
  change (slash :: p ++ dot :: q ++ slash :: r) with ([slash] ++ p ++ dot :: q ++ slash :: r).
  change 1%Z with (zlen [slash]). rewrite from_app, index_app by done.
  pose proof (zlen_nonneg p). pose proof (zlen_nonneg q). pose proof (zlen_nonneg r).
  rewrite (proj2 (Z.eqb_neq (zlen p) (-1))), orb_false_l by lia.
  destruct (zlen p =? 0)%Z eqn:Ep; [done|]. rewrite sub_app. simpl negb at 1.
  destruct (contains slash p); [done|]. simpl negb at 1.
  rewrite <- zlen_app, app_assoc, from_app.
  change (dot :: q ++ slash :: r) with ((dot :: q) ++ slash :: r).
  rewrite index_app by (apply not_elem_of_cons; split; [apply not_eq_sym, dot_not_slash|done]).
  change (zlen (dot :: q)) with (Z.of_nat (S (length q))).
  rewrite (proj2 (Z.eqb_neq _ (-1))), orb_false_l by lia.
  destruct (zlen q =? 0)%Z eqn:Eq; bool_to_prop; unfold zlen in Eq.
  { rewrite (proj2 (Z.eqb_eq _ (zlen [slash]))); [done|]. unfold zlen. simpl. lia. }
  rewrite (proj2 (Z.eqb_neq _ (zlen [slash]))) by (unfold zlen; simpl; lia). simpl andb.
  replace (zlen ([slash] ++ p) + Z.of_nat (S (length q)))%Z
    with (zlen (([slash] ++ p) ++ dot :: q)) by (unfold zlen; rewrite !length_app; simpl; lia).
  rewrite (app_assoc ([slash] ++ p) (dot :: q)).
  destruct (zlen r =? 0)%Z eqn:Er; bool_to_prop; unfold zlen in Er.
  { rewrite (proj2 (Z.eqb_eq _ _)); [done|]. rewrite (zlen_app _ (slash :: r)).
    unfold zlen. simpl. lia. }
  rewrite (proj2 (Z.eqb_neq _ _)); cycle 1.
  { rewrite (zlen_app _ (slash :: r)). unfold zlen. simpl. lia. }
  simpl andb.
  replace (zlen (([slash] ++ p) ++ dot :: q) + zlen [slash])%Z
    with (zlen ((([slash] ++ p) ++ dot :: q) ++ [slash])) by (by rewrite zlen_app).
  change (slash :: r) with ([slash] ++ r). rewrite (app_assoc _ [slash]), from_app.
  by destruct (contains_any r [slash; dot]).
Qed.

Lemma zlen_zero {A} (l : list A) : (zlen l =? 0)%Z = bool_decide (l = []).
Proof.
  unfold zlen. destruct l; [by rewrite bool_decide_true|].
  rewrite bool_decide_false by done. apply Z.eqb_neq. simpl. lia.
Qed.

(** A name that passes the searches has the shape of [rpcName_parts]. *)
Lemma rpcName_shape s :
  rpcNameIsTRPCForm s = true →
  ∃ p q r, str_bytes s = slash :: p ++ dot :: q ++ slash :: r ∧ dot ∉ p ∧ slash ∉ q.
Proof.
  intros H. unfold rpcNameIsTRPCForm in H.
  destruct (str_bytes s) as [|c l] eqn:Hs; [done|].
  case_bool_decide; [subst c|done]. simpl negb in H.
  change (from (slash :: l) 1) with l in H.
  destruct (index_cases dot l) as [[Hi _]|(p & l2 & Hi & -> & Hp)]; [by rewrite Hi in H|].
  change (slash :: p ++ dot :: l2) with ([slash] ++ p ++ dot :: l2) in H.
  rewrite Hi in H. change 1%Z with (zlen [slash]) in H.
  rewrite <- zlen_app, app_assoc, from_app in H.
  destruct (index_cases slash (dot :: l2)) as [[Hj _]|(q & r & Hj & Hl & Hq)].
  { rewrite Hj in H. by repeat break_hyp. }
  destruct q as [|c q]; [exfalso; apply dot_not_slash; by injection Hl|].
  injection Hl as <- ->. apply not_elem_of_cons in Hq as [_ Hq]. by exists p, q, r.
Qed.

(** [rpcNameIsTRPCForm] accepts exactly the strings that the regular expression of
    its comment matches, although it searches for separators one after the other
    instead of matching. *)
Theorem rpcNameIsTRPCForm_regexp (s : string) :
  rpcNameIsTRPCForm s = true ↔ re_match trpc_form_re (str_bytes s).
Proof.
  rewrite trpc_form_re_match. split.
  - intros H. destruct (rpcName_shape s H) as (p & q & r & Hs & Hp & Hq).
    rewrite (rpcName_parts p q r s Hs Hp Hq), !zlen_zero in H. bool_to_prop.
    exists p, q, r. unfold contains in *. bool_to_prop.
    match goal with H : contains_any _ _ = false |- _ =>
      pose proof (proj1 (contains_any_false _ _) H) as Hr end.
    split_and!; try done; intros Hin; by apply Hr in Hin; set_solver.
  - intros (p & q & r & Hs & Hp & Hq & Hr & Hsp & Hdp & Hsq & Hsr & Hdr).
    rewrite (rpcName_parts p q r s Hs Hdp Hsq), !zlen_zero, !bool_decide_false by done.
    unfold contains. rewrite bool_decide_false by done. simpl.
    rewrite (proj2 (contains_any_false _ _)); [done|]. set_solver.
Qed.

(** The setters with more to do assign, besides their own field, only fields derived
    from the name. *)
Lemma WithServerRPCName_eq m s :
  ∃ v, WithServerRPCName m s = m <| serverRPCName := s |> <| calleeMethod := v |>.
Proof.
  unfold WithServerRPCName, updateMethodNameUsingRPCName, WithCalleeMethod.
  case_bool_decide as Hs; [exists (calleeMethod m); subst s; by destruct m|].
  case_match; [by eexists|]. case_match; [by eexists|]. exists (calleeMethod m). by destruct m.
Qed.

Lemma WithClientRPCName_eq m s :
  ∃ v, WithClientRPCName m s = m <| clientRPCName := s |> <| calleeMethod := v |>.
Proof.
  unfold WithClientRPCName, updateMethodNameUsingRPCName, WithCalleeMethod.
  case_bool_decide as Hs; [exists (calleeMethod m); subst s; by destruct m|].
  case_match; [by eexists|]. case_match; [by eexists|]. exists (calleeMethod m). by destruct m.
Qed.

Lemma WithCalleeServiceName_eq m s :
  ∃ a b c, WithCalleeServiceName m s =
    m <| calleeServiceName := s |> <| calleeApp := a |> <| calleeServer := b |>
      <| calleeService := c |>.
Proof.
  unfold WithCalleeServiceName, WithCalleeService, WithCalleeServer, WithCalleeApp.
  case_bool_decide as Hs.
  { exists (calleeApp m), (calleeServer m), (calleeService m). subst s. by destruct m. }
  case_bool_decide.
  { exists (calleeApp m), (calleeServer m), (calleeService m). by destruct m. }
  destruct (getAppServerService s) as [[a b] c]. by exists a, b, c.
Qed.

Lemma WithCallerServiceName_eq m s :
  ∃ a b c, WithCallerServiceName m s =
    m <| callerServiceName := s |> <| callerApp := a |> <| callerServer := b |>
      <| callerService := c |>.
Proof.
  unfold WithCallerServiceName, WithCallerService, WithCallerServer, WithCallerApp.
  case_bool_decide as Hs.
  { exists (callerApp m), (callerServer m), (callerService m). subst s. by destruct m. }
  case_bool_decide.
  { exists (callerApp m), (callerServer m), (callerService m). by destruct m. }
  destruct (getAppServerService s) as [[a b] c]. by exists a, b, c.
Qed.

(** [CopyMsg] copies every field of the source to the destination, whatever the
    destination held: the only difference is that a response error of another type is
    stored as the [*errs.Error] that [ServerRspErr] makes of it, and reads back the
    same. *)
Theorem CopyMsg_copies `{PbEnum} (dst src : msg) :
  CopyMsg dst src = src <| serverRspErr := as_error (ServerRspErr src) |> ∧
  ServerRspErr (CopyMsg dst src) = ServerRspErr src.
Proof.
  assert (CopyMsg dst src = src <| serverRspErr := as_error (ServerRspErr src) |>) as Heq.
  { unfold CopyMsg. rewrite !Clone_eq.
    repeat match goal with
    | |- context [WithServerRPCName ?m ?s] => destruct (WithServerRPCName_eq m s) as [? ->]
    | |- context [WithClientRPCName ?m ?s] => destruct (WithClientRPCName_eq m s) as [? ->]
    | |- context [WithCalleeServiceName ?m ?s] =>
      destruct (WithCalleeServiceName_eq m s) as (? & ? & ? & ->)
    | |- context [WithCallerServiceName ?m ?s] =>
      destruct (WithCallerServiceName_eq m s) as (? & ? & ? & ->)
    end.
    generalize (as_error (ServerRspErr src)). intros e. destruct src. vm_compute. reflexivity. }
  split; [exact Heq|]. rewrite Heq. unfold ServerRspErr, as_error. simpl.
  destruct (serverRspErr src) as [[]|]; reflexivity.
Qed.

(** Cloning for a downstream call into a recycled message does not depend on what the
    recycled message held: the caller of the new message is the callee of the old one,
    the metadata of the request goes to the client side, and the callee, the
    compression type, the response errors and the addresses start empty. *)
Theorem WithCloneMessage_fresh (m old : msg) :
  WithCloneMessage (Some m) (PutBackMessage old) =
  zero_msg
    <| frameHead := frameHead m |> <| requestTimeout := requestTimeout m |>
    <| serializationType := serializationType m |>
    <| serverRPCName := serverRPCName m |> <| clientRPCName := clientRPCName m |>
    <| serverReqHead := serverReqHead m |> <| serverRspHead := serverRspHead m |>
    <| dyeing := dyeing m |> <| dyeingKey := dyeingKey m |>
    <| serverMetaData := serverMetaData m |> <| clientMetaData := serverMetaData m |>
    <| logger := logger m |> <| namespace := namespace m |> <| envName := envName m |>
    <| setName := setName m |> <| envTransfer := envTransfer m |>
    <| commonMeta := commonMeta m |>
    <| callerServiceName := calleeServiceName m |> <| callerApp := calleeApp m |>
    <| callerServer := calleeServer m |> <| callerService := calleeService m |>
    <| callerMethod := calleeMethod m |>.
Proof.
  unfold WithCloneMessage, PutBackMessage, copyServerToClientMessage, copyCommonMessage.
  rewrite !Clone_eq, resetDefault_zero. destruct m. vm_compute. reflexivity.
Qed.

(** A service name of the documented form "trpc.app.server.service" is split into
    its app, server and service; only the service may contain further dots. *)
Theorem getAppServerService_form (p app server service : string) :
  dot ∉ str_bytes p → dot ∉ str_bytes app → dot ∉ str_bytes server →
  getAppServerService (p +:+ "." +:+ app +:+ "." +:+ server +:+ "." +:+ service) =
  (app, server, service).
Proof.
  intros Hp Ha Hs. unfold getAppServerService.
  rewrite !str_bytes_app. change (str_bytes ".") with [dot].
  set (P := str_bytes p) in *. set (A := str_bytes app) in *. set (S' := str_bytes server) in *.
  rewrite !count_app. change (count dot [dot]) with 1.
  rewrite (proj2 (Z.leb_le _ _)) by (unfold ServiceSectionLength; lia).
  set (rest3 := S' ++ [dot] ++ str_bytes service).
  set (rest2 := A ++ [dot] ++ rest3).
  assert (Hi : index dot (P ++ [dot] ++ rest2) = zlen P) by by apply index_app.
  rewrite Hi. replace (zlen P + 1)%Z with (zlen (P ++ [dot])) by (by rewrite zlen_app).
  rewrite (app_assoc P), from_app.
  assert (Hj : index dot rest2 = zlen A) by by apply index_app.
  rewrite Hj.
  replace (zlen A + zlen (P ++ [dot]) + 1)%Z with (zlen ((P ++ [dot]) ++ A ++ [dot]))
    by (rewrite !zlen_app; change (zlen [dot]) with 1%Z; lia).
  replace ((P ++ [dot]) ++ rest2) with (((P ++ [dot]) ++ A ++ [dot]) ++ rest3)
    by (unfold rest2; by rewrite <- !app_assoc).
  rewrite from_app.
  assert (Hk : index dot rest3 = zlen S') by by apply index_app.
  rewrite Hk.
  replace (zlen S' + zlen ((P ++ [dot]) ++ A ++ [dot]) + 1)%Z
    with (zlen (((P ++ [dot]) ++ A ++ [dot]) ++ S' ++ [dot]))
    by (rewrite !zlen_app; change (zlen [dot]) with 1%Z; lia).
  f_equal; [f_equal|].
  - replace (((P ++ [dot]) ++ A ++ [dot]) ++ rest3) with ((P ++ [dot]) ++ A ++ [dot] ++ rest3)
      by by rewrite <- !app_assoc.
    replace (zlen ((P ++ [dot]) ++ A ++ [dot]) - 1)%Z with (zlen (P ++ [dot]) + zlen A)%Z
      by (rewrite !zlen_app; change (zlen [dot]) with 1%Z; lia).
    rewrite sub_app. apply bytes_str_bytes.
  - replace (zlen (((P ++ [dot]) ++ A ++ [dot]) ++ S' ++ [dot]) - 1)%Z
      with (zlen ((P ++ [dot]) ++ A ++ [dot]) + zlen S')%Z
      by (rewrite !zlen_app; change (zlen [dot]) with 1%Z; lia).
    unfold rest3. rewrite sub_app. apply bytes_str_bytes.
  - unfold rest3. replace (((P ++ [dot]) ++ A ++ [dot]) ++ S' ++ [dot] ++ str_bytes service)
      with ((((P ++ [dot]) ++ A ++ [dot]) ++ S' ++ [dot]) ++ str_bytes service)
      by by rewrite <- !app_assoc.
    rewrite from_app. apply bytes_str_bytes.
Qed.

Lemma getAppServerService_form_witness :
  getAppServerService "trpc.shop.cart.Cart.v2" = ("shop", "cart", "Cart.v2").
Proof.
  apply (getAppServerService_form "trpc" "shop" "cart" "Cart.v2");
    apply (bool_decide_unpack _); vm_compute; done.
Defined.
