(* ===== verification/StreamCodec.v ===== *)
(** The streaming codecs of the trpc protocol (codec_stream.go).  A codec operation
    takes the message and returns it as it leaves it; the server codec also keeps, per
    connection and stream, the init meta of the streams that are open.

    A head or frame that the Go code shares through a pointer with the message is
    written back to the message when it is changed. *)

From S2P Require Import Prelude GoStrings Pb Errs Frame Msg.
From Stdlib Require Import Ascii.

Definition DyeingKey : string := "trpc-dyeing-key".
Definition EnvTransferKey : string := "trpc-env".
Definition ProtocolName : string := "trpc".

(** [addrutil.AddrToKey]; calling a method of a nil address panics. *)
Definition AddrToKey (local remote : option Addr) : result string :=
  match local, remote with
  | Some l, Some r => Ok (Network l +:+ "_" +:+ AddrString l +:+ "_" +:+ AddrString r)
  | _, _ => Panic
  end.

(** [setClientTransInfo] (codec.go): the bindings of the metadata, the dyeing key and
    the environment replace those of [trans]. *)
Definition setClientTransInfo (m : msg) (trans : gmap string bytes) : gmap string bytes :=
  let trans := clientMetaData m ∪ trans in
  let trans := if bool_decide (dyeingKey m = "") then trans
               else <[DyeingKey := str_bytes (dyeingKey m)]> trans in
  if bool_decide (envTransfer m = "") then
    match trans !! EnvTransferKey with
    | Some _ => <[EnvTransferKey := []]> trans
    | None => trans
    end
  else <[EnvTransferKey := str_bytes (envTransfer m)]> trans.

(** The state of the server codec: address key, then stream id, to init meta. *)
Abbreviation InitMetas := (gmap string (gmap Z TrpcStreamInitMeta)).

Section codec.
Context `{PbEnum}.
Context `{Message TrpcStreamInitMeta} `{Message TrpcStreamCloseMeta}
        `{Message TrpcStreamFeedBackMeta}.

(** The value of [DefaultMaxFrameSize], and the base name of the process. *)
Variable maxFrameSize : Z.
Variable procName : string.

Definition errUnknownFrameType : error := Plain "unknown stream frame type".
Definition errEncodeCloseFrame : error := Plain "encode close frame error".
Definition errEncodeFeedbackFrame : error := Plain "encode feedback error".
Definition errUninitializedMeta : error := Plain "uninitialized meta".

Definition frameWrite (frameHead : FrameHead) (streamBuf : bytes) : result bytes :=
  construct maxFrameSize frameHead [] streamBuf [].

(** Marshal a message and write it as the payload of a frame. *)
Definition marshalWrite {M} `{Message M} (frameHead : FrameHead) (x : M) : result bytes :=
  do buf <- lift (marshal x); frameWrite frameHead buf.

(** The payload [buf[frameHeadLen:]] of a frame. *)
Definition payload (buf : bytes) : result bytes :=
  of_option (slice_from buf (Z.of_nat frameHeadLen)).

Definition unmarshalPayload {M} `{Message M} (buf : bytes) : result M :=
  do p <- payload buf; lift (unmarshal p).

(** The head of a message that the stream codecs accept. *)
Definition streamHead (m : msg) : option FrameHead :=
  match msg_FrameHead m with
  | IFrameHead h => if isStream h then Some h else None
  | _ => None
  end.

(** ** Client *)

Definition defaultStreamCaller : string := "trpc.app." +:+ procName +:+ ".service".

Definition encodeInitFrame_client (h : FrameHead) (m : msg) : result bytes * msg :=
  let '(initMeta, shared) := match msg_StreamFrame m with
    | IInit i => (i, true)
    | _ => (zero_init <| init_RequestMeta := Some zero_initreq |>, false) end in
  let m := if bool_decide (msg_CallerServiceName m = "")
           then WithCallerServiceName m defaultStreamCaller else m in
  match init_RequestMeta initMeta with
  | None => (Panic, m)
  | Some req =>
    let req := req <| initreq_Caller := str_bytes (msg_CallerServiceName m) |>
                   <| initreq_Callee := str_bytes (msg_CalleeServiceName m) |>
                   <| initreq_Func := str_bytes (msg_ClientRPCName m) |> in
    let req := if msg_Dyeing m then
      req <| initreq_MessageType := Z.lor (initreq_MessageType req) (u32 TRPC_DYEING_MESSAGE) |>
      else req in
    let req := req <| initreq_TransInfo := setClientTransInfo m (initreq_TransInfo req) |> in
    let initMeta := initMeta <| init_ContentType := u32 (msg_SerializationType m) |>
                             <| init_ContentEncoding := u32 (msg_CompressType m) |>
                             <| init_RequestMeta := Some req |> in
    let m := if shared then WithStreamFrame m (IInit initMeta) else m in
    (marshalWrite h initMeta, m)
  end.

Definition encodeDataFrame_client (h : FrameHead) (reqBuf : bytes) : result bytes :=
  frameWrite h reqBuf.

Definition encodeCloseFrame_client (h : FrameHead) (m : msg) : result bytes :=
  match msg_StreamFrame m with
  | IClose c => marshalWrite h c
  | _ => Err errEncodeCloseFrame
  end.

Definition encodeFeedbackFrame (h : FrameHead) (m : msg) : result bytes :=
  match msg_StreamFrame m with
  | IFeedback f => marshalWrite h f
  | _ => Err errEncodeFeedbackFrame
  end.

(** [ClientStreamCodec.Encode] *)
Definition ClientStreamEncode (m : msg) (reqBuf : bytes) : result bytes * msg :=
  match streamHead m with
  | None => (Err errUnknownFrameType, m)
  | Some h =>
    let t := StreamFrameType h in
    if (t =? TRPC_STREAM_FRAME_INIT)%Z then encodeInitFrame_client h m
    else if (t =? TRPC_STREAM_FRAME_DATA)%Z then (encodeDataFrame_client h reqBuf, m)
    else if (t =? TRPC_STREAM_FRAME_CLOSE)%Z then (encodeCloseFrame_client h m, m)
    else if (t =? TRPC_STREAM_FRAME_FEEDBACK)%Z then (encodeFeedbackFrame h m, m)
    else (Err errUnknownFrameType, m)
  end.

Definition updateClientStreamCloseMeta (m : msg) (c : TrpcStreamCloseMeta) : msg :=
  let m := match msg_ClientRspHead m with
    | IRsp rsp => WithClientRspHead m (IRsp
        (rsp <| rsp_Ret := close_Ret c |> <| rsp_FuncRet := close_FuncRet c |>
             <| rsp_ErrorMsg := close_Msg c |> <| rsp_MessageType := close_MessageType c |>
             <| rsp_TransInfo := close_TransInfo c |>))
    | _ => m end in
  if decide (close_TransInfo c = ∅) then m
  else WithClientMetaData m (close_TransInfo c ∪ msg_ClientMetaData m).

(** The condition under which a Close frame is a reset. *)
Definition isReset (c : TrpcStreamCloseMeta) : bool :=
  (close_CloseType c =? i32 TRPC_STREAM_RESET)%Z || negb (close_Ret c =? 0)%Z.

Definition resetError (c : TrpcStreamCloseMeta) : error :=
  Status ErrorTypeCalleeFramework (close_Ret c) (bytes_str (close_Msg c)) "trpc".

(** Handlers that unmarshal the payload and update the message if that succeeds. *)
Definition withPayload {M} `{Message M} (m : msg) (buf : bytes) (k : M → result bytes * msg)
    : result bytes * msg :=
  match unmarshalPayload buf with
  | Ok x => k x
  | Err e => (Err e, m)
  | Panic => (Panic, m)
  end.

Definition decodeCloseFrame_client (m : msg) (rspBuf : bytes) : result bytes * msg :=
  withPayload m rspBuf (λ c : TrpcStreamCloseMeta,
    let m := updateClientStreamCloseMeta m c in
    let m := if isReset c then WithClientRspErr m (Some (resetError c))
             else if negb (close_FuncRet c =? 0)%Z then
               WithClientRspErr m (Some (New (close_FuncRet c) (bytes_str (close_Msg c))))
             else m in
    (Ok [], WithStreamFrame m (IClose c))).

Definition decodeFeedbackFrame_client (m : msg) (rspBuf : bytes) : result bytes * msg :=
  withPayload m rspBuf (λ f : TrpcStreamFeedBackMeta,
    (Ok [], WithStreamFrame m (IFeedback f))).

(** The generated getters are defined on nil pointers. *)
Definition GetResponseMeta (i : TrpcStreamInitMeta) : TrpcStreamInitResponseMeta :=
  default zero_initrsp (init_ResponseMeta i).
Definition GetRequestMeta (i : TrpcStreamInitMeta) : TrpcStreamInitRequestMeta :=
  default zero_initreq (init_RequestMeta i).

Definition decodeInitFrame_client (m : msg) (rspBuf : bytes) : result bytes * msg :=
  withPayload m rspBuf (λ i : TrpcStreamInitMeta,
    let m := WithCompressType m (init_ContentEncoding i) in
    let m := WithSerializationType m (init_ContentType i) in
    let r := GetResponseMeta i in
    let m := if negb (initrsp_Ret r =? 0)%Z then
        WithClientRspErr m (Some (Status ErrorTypeCalleeFramework (initrsp_Ret r)
          (bytes_str (initrsp_ErrorMsg r)) "trpc"))
      else m in
    (Ok [], WithStreamFrame m (IInit i))).

Definition decodeDataFrame_client (m : msg) (rspBuf : bytes) : result bytes * msg :=
  (payload rspBuf, m).

(** [ClientStreamCodec.Decode] *)
Definition ClientStreamDecode (m : msg) (rspBuf : bytes) : result bytes * msg :=
  match streamHead m with
  | None => (Err errUnknownFrameType, m)
  | Some h =>
    let m := WithStreamID m (StreamID h) in
    let t := StreamFrameType h in
    if (t =? TRPC_STREAM_FRAME_INIT)%Z then decodeInitFrame_client m rspBuf
    else if (t =? TRPC_STREAM_FRAME_DATA)%Z then decodeDataFrame_client m rspBuf
    else if (t =? TRPC_STREAM_FRAME_CLOSE)%Z then decodeCloseFrame_client m rspBuf
    else if (t =? TRPC_STREAM_FRAME_FEEDBACK)%Z then decodeFeedbackFrame_client m rspBuf
    else (Err errUnknownFrameType, m)
  end.

(** ** Server *)

Definition lookupMeta (s : InitMetas) (addr : string) (id : Z) : option TrpcStreamInitMeta :=
  s !! addr ≫= λ t, t !! id.

(** [setInitMeta]: the rpc name of a known stream is set in the message. *)
Definition setInitMeta (s : InitMetas) (m : msg) : result msg :=
  do addr <- AddrToKey (msg_LocalAddr m) (msg_RemoteAddr m);
  match s !! addr with
  | Some t =>
    match t !! msg_StreamID m with
    | Some i => Ok (WithServerRPCName m (bytes_str (initreq_Func (GetRequestMeta i))))
    | None => Err errUninitializedMeta
    end
  | None => Err errUninitializedMeta
  end.

Definition deleteInitMeta (s : InitMetas) (m : msg) : result InitMetas :=
  do addr <- AddrToKey (msg_LocalAddr m) (msg_RemoteAddr m);
  let t := delete (msg_StreamID m) (default ∅ (s !! addr)) in
  Ok (if decide (t = ∅) then delete addr s else <[addr := t]> s).

Definition storeInitMeta (s : InitMetas) (m : msg) (i : TrpcStreamInitMeta) : result InitMetas :=
  do addr <- AddrToKey (msg_LocalAddr m) (msg_RemoteAddr m);
  Ok (match s !! addr with
      | Some t => <[addr := <[msg_StreamID m := i]> t]> s
      | None => <[addr := {[msg_StreamID m := i]}]> s
      end).

(** [updateMsg]: the getters accept a nil request meta, but the field [TransInfo] is
    read without one. *)
Definition updateMsg_server (m : msg) (i : TrpcStreamInitMeta) : result msg :=
  let req := GetRequestMeta i in
  let m := WithCallerServiceName m (bytes_str (initreq_Caller req)) in
  let m := WithCalleeServiceName m (bytes_str (initreq_Callee req)) in
  let m := WithServerRPCName m (bytes_str (initreq_Func req)) in
  let m := WithSerializationType m (init_ContentType i) in
  let m := WithCompressType m (init_ContentEncoding i) in
  let m := WithDyeing m (negb (Z.land (initreq_MessageType req) (u32 TRPC_DYEING_MESSAGE) =? 0)%Z) in
  match init_RequestMeta i with
  | None => Panic
  | Some req =>
    if decide (initreq_TransInfo req = ∅) then Ok m else
    let m := WithServerMetaData m (Clone (initreq_TransInfo req)) in
    let m := match initreq_TransInfo req !! DyeingKey with
             | Some bs => WithDyeingKey m (bytes_str bs) | None => m end in
    Ok (match initreq_TransInfo req !! EnvTransferKey with
        | Some envs => WithEnvTransfer m (bytes_str envs) | None => m end)
  end.

(** [buildResetFrame]: the head is the one of the message. *)
Definition buildResetFrame (m : msg) (h : FrameHead) (err : error) : FrameHead * msg :=
  let h := h <| StreamFrameType := u8 TRPC_STREAM_FRAME_CLOSE |> in
  let closeMeta := zero_close <| close_CloseType := i32 TRPC_STREAM_RESET |>
    <| close_Ret := i32 (Code (Some err)) |>
    <| close_Msg := str_bytes (Errs.Msg (Some err)) |> in
  (h, WithStreamFrame (WithFrameHead m (IFrameHead h)) (IClose closeMeta)).

Definition setStreamCloseMetaData (m : msg) (c : TrpcStreamCloseMeta) : TrpcStreamCloseMeta :=
  if decide (msg_ServerMetaData m = ∅) then c
  else c <| close_TransInfo := msg_ServerMetaData m ∪ close_TransInfo c |>.

(** The deferred [deleteInitMeta] runs on every path, with the message as the body
    leaves it. *)
Definition encodeCloseFrame_server (s : InitMetas) (h : FrameHead) (m : msg)
    : result bytes * msg * InitMetas :=
  let '(r, m) :=
    match msg_StreamFrame m with
    | IClose c =>
      let c := setStreamCloseMetaData m c in
      let m := WithStreamID (WithStreamFrame m (IClose c)) (StreamID h) in
      (marshalWrite h c, m)
    | _ => (Err errEncodeCloseFrame, m)
    end in
  match deleteInitMeta s m with
  | Ok s => (r, m, s)
  | _ => (Panic, m, s)
  end.

Definition encodeDataFrame_server (s : InitMetas) (h : FrameHead) (m : msg) (reqBuf : bytes)
    : result bytes * msg * InitMetas :=
  match ServerRspErr m with
  | Some err =>
    let '(h, m) := buildResetFrame m h err in
    encodeCloseFrame_server s h m
  | None => (frameWrite h reqBuf, m, s)
  end.

Definition encodeInitFrame_server (h : FrameHead) (m : msg) : result bytes * msg :=
  let '(rsp, shared) := match msg_StreamFrame m with
    | IInit i => (i, true)
    | _ => (zero_init <| init_ResponseMeta := Some zero_initrsp |>, false) end in
  let rspMeta := match ServerRspErr m with
    | Some (Status _ c x _) | Some (StatusOf _ c x _ _) => MkInitRsp (i32 c) (str_bytes x)
    | _ => zero_initrsp end in
  let rsp := rsp <| init_ContentType := u32 (msg_SerializationType m) |>
                 <| init_ContentEncoding := u32 (msg_CompressType m) |>
                 <| init_ResponseMeta := Some rspMeta |> in
  let m := if shared then WithStreamFrame m (IInit rsp) else m in
  (marshalWrite h rsp, m).

(** [ServerStreamCodec.Encode] *)
Definition ServerStreamEncode (s : InitMetas) (m : msg) (reqBuf : bytes)
    : result bytes * msg * InitMetas :=
  match streamHead m with
  | None => (Err errUnknownFrameType, m, s)
  | Some h =>
    let t := StreamFrameType h in
    if (t =? TRPC_STREAM_FRAME_INIT)%Z then (encodeInitFrame_server h m, s)
    else if (t =? TRPC_STREAM_FRAME_DATA)%Z then encodeDataFrame_server s h m reqBuf
    else if (t =? TRPC_STREAM_FRAME_CLOSE)%Z then encodeCloseFrame_server s h m
    else if (t =? TRPC_STREAM_FRAME_FEEDBACK)%Z then (encodeFeedbackFrame h m, m, s)
    else (Err errUnknownFrameType, m, s)
  end.

Definition decodeFeedbackFrame_server (s : InitMetas) (m : msg) (reqBuf : bytes)
    : result bytes * msg :=
  match setInitMeta s m with
  | Ok m => withPayload m reqBuf (λ f : TrpcStreamFeedBackMeta,
      (Ok [], WithStreamFrame m (IFeedback f)))
  | Err e => (Err e, m)
  | Panic => (Panic, m)
  end.

Definition decodeCloseFrame_server (s : InitMetas) (m : msg) (reqBuf : bytes)
    : result bytes * msg :=
  match setInitMeta s m with
  | Ok m => withPayload m reqBuf (λ c : TrpcStreamCloseMeta,
      let m := if isReset c then WithServerRspErr m (Some (resetError c)) else m in
      (Ok [], WithStreamFrame m (IClose c)))
  | Err e => (Err e, m)
  | Panic => (Panic, m)
  end.

Definition decodeDataFrame_server (s : InitMetas) (m : msg) (reqBuf : bytes)
    : result bytes * msg :=
  match setInitMeta s m with
  | Ok m => (payload reqBuf, m)
  | Err e => (Err e, m)
  | Panic => (Panic, m)
  end.

Definition decodeInitFrame_server (s : InitMetas) (m : msg) (reqBuf : bytes)
    : result bytes * msg * InitMetas :=
  match unmarshalPayload reqBuf with
  | Ok i =>
    match updateMsg_server m i with
    | Ok m =>
      match storeInitMeta s m i with
      | Ok s => (Ok [], WithStreamFrame m (IInit i), s)
      | Err e => (Err e, m, s)
      | Panic => (Panic, m, s)
      end
    | Err e => (Err e, m, s)
    | Panic => (Panic, m, s)
    end
  | Err e => (Err e, m, s)
  | Panic => (Panic, m, s)
  end.

(** [ServerStreamCodec.Decode] *)
Definition ServerStreamDecode (s : InitMetas) (m : msg) (reqBuf : bytes)
    : result bytes * msg * InitMetas :=
  match streamHead m with
  | None => (Err errUnknownFrameType, m, s)
  | Some h =>
    let m := WithStreamID m (StreamID h) in
    let t := StreamFrameType h in
    if (t =? TRPC_STREAM_FRAME_INIT)%Z then decodeInitFrame_server s m reqBuf
    else if (t =? TRPC_STREAM_FRAME_DATA)%Z then (decodeDataFrame_server s m reqBuf, s)
    else if (t =? TRPC_STREAM_FRAME_CLOSE)%Z then (decodeCloseFrame_server s m reqBuf, s)
    else if (t =? TRPC_STREAM_FRAME_FEEDBACK)%Z then (decodeFeedbackFrame_server s m reqBuf, s)
    else (Err errUnknownFrameType, m, s)
  end.
(** ** Lemmas on the table of init metas *)

Lemma AddrToKey_not_Err l r e : AddrToKey l r ≠ Err e.
Proof. unfold AddrToKey. by destruct l, r. Qed.

(** The key of the peer of a message. *)
Definition peer (m : msg) : result string := AddrToKey (msg_LocalAddr m) (msg_RemoteAddr m).

(** No connection is kept with an empty table: the table of a connection goes away
    with its last stream. *)
Definition tables_nonempty (s : InitMetas) : Prop := ∀ a t, s !! a = Some t → t ≠ ∅.

Lemma lookupMeta_store s m i s' key a id :
  storeInitMeta s m i = Ok s' → peer m = Ok key →
  lookupMeta s' a id =
  if decide (a = key ∧ id = msg_StreamID m) then Some i else lookupMeta s a id.
Proof.
  unfold storeInitMeta, peer, lookupMeta. intros Hs Hk. rewrite Hk in Hs. simpl in Hs.
  destruct (s !! key) as [t|] eqn:Ht; simplify_eq;
    (destruct (decide (a = key)) as [->|Ha];
     [rewrite lookup_insert_eq; simpl
     |rewrite lookup_insert_ne by done; by rewrite decide_False by naive_solver]);
    (destruct (decide (id = msg_StreamID m)) as [->|Hid];
     [rewrite decide_True by done; by simplify_map_eq
     |rewrite decide_False by naive_solver; by simplify_map_eq]).
Qed.

Lemma storeInitMeta_nonempty s m i s' :
  storeInitMeta s m i = Ok s' → tables_nonempty s → tables_nonempty s'.
Proof.
  unfold storeInitMeta. intros Hs Hne. destruct (AddrToKey _ _) as [key| |]; simplify_eq/=.
  intros a t Ht. destruct (s !! key) eqn:Hk;
    (destruct (decide (a = key)) as [->|];
     [rewrite lookup_insert_eq in Ht; simplify_eq; first [apply insert_non_empty|apply map_non_empty_singleton]
     |rewrite lookup_insert_ne in Ht by done; by eapply Hne]).
Qed.

Lemma lookupMeta_delete s m s' key a id :
  deleteInitMeta s m = Ok s' → peer m = Ok key →
  lookupMeta s' a id =
  if decide (a = key ∧ id = msg_StreamID m) then None else lookupMeta s a id.
Proof.
  unfold deleteInitMeta, peer, lookupMeta. intros Hs Hk. rewrite Hk in Hs. simpl in Hs.
  set (t := delete _ _) in Hs. assert (Ht : ∀ j, t !! j =
    if decide (j = msg_StreamID m) then None else lookupMeta s key j).
  { intros j. unfold t, lookupMeta. destruct (decide (j = msg_StreamID m)) as [->|].
    - by rewrite lookup_delete_eq.
    - rewrite lookup_delete_ne by done. by destruct (s !! key). }
  destruct (decide (a = key)) as [->|Ha].
  - destruct (decide (t = ∅)) as [He|He]; simplify_eq; simplify_map_eq.
    + pose proof (Ht id) as Hi. rewrite He, lookup_empty in Hi.
      unfold lookupMeta in Hi. repeat case_decide; naive_solver.
    + rewrite Ht. unfold lookupMeta. repeat case_decide; naive_solver.
  - rewrite (decide_False (P := a = key ∧ _)) by naive_solver.
    destruct (decide (t = ∅)); simplify_eq; simplify_map_eq; done.
Qed.

Lemma deleteInitMeta_nonempty s m s' :
  deleteInitMeta s m = Ok s' → tables_nonempty s → tables_nonempty s'.
Proof.
  unfold deleteInitMeta. intros Hs Hne. destruct (AddrToKey _ _) as [key| |]; simplify_eq/=.
  intros a t Ht. case_decide as He.
  - apply lookup_delete_Some in Ht as [_ Ht]. by eapply Hne.
  - destruct (decide (a = key)) as [->|].
    + rewrite lookup_insert_eq in Ht. by simplify_eq.
    + rewrite lookup_insert_ne in Ht by done. by eapply Hne.
Qed.

(** The updates of an INIT frame leave the identity of the stream alone. *)
Lemma updateMsg_server_stream m i m' :
  updateMsg_server m i = Ok m' → peer m' = peer m ∧ msg_StreamID m' = msg_StreamID m.
Proof.
  unfold updateMsg_server. intros Hu. destruct (init_RequestMeta i) as [req|]; [|done].
  repeat match type of Hu with
  | context [WithServerRPCName ?x ?s] =>
    let v := fresh in destruct (WithServerRPCName_eq x s) as [v Hv]; rewrite Hv in Hu; clear Hv
  | context [WithCalleeServiceName ?x ?s] =>
    destruct (WithCalleeServiceName_eq x s) as (? & ? & ? & Hv); rewrite Hv in Hu; clear Hv
  | context [WithCallerServiceName ?x ?s] =>
    destruct (WithCallerServiceName_eq x s) as (? & ? & ? & Hv); rewrite Hv in Hu; clear Hv
  end.
  case_decide; [by simplify_eq|]. injection Hu as <-.
  by destruct (initreq_TransInfo req !! DyeingKey), (initreq_TransInfo req !! EnvTransferKey).
Qed.

(** ** The server codec as a table of open streams *)

(** An operation of the codec at its arguments. *)
Inductive stream_op :=
| DecodeOp (m : msg) (reqBuf : bytes)
| EncodeOp (m : msg) (reqBuf : bytes).

Definition step_op (s : InitMetas) (o : stream_op) : InitMetas :=
  match o with
  | DecodeOp m buf => (ServerStreamDecode s m buf).2
  | EncodeOp m buf => (ServerStreamEncode s m buf).2
  end.

Definition run_ops (s : InitMetas) (ops : list stream_op) : InitMetas := foldl step_op s ops.

(** What an operation means for the streams, whatever the table holds: a stream is
    opened, a stream is closed, or nothing changes. *)
Inductive stream_event :=
| Opened (addr : string) (id : Z) (i : TrpcStreamInitMeta)
| Closed (addr : string) (id : Z)
| Unchanged.

Definition event (o : stream_op) : stream_event :=
  match o with
  | DecodeOp m buf =>
    match streamHead m with
    | Some h =>
      if (StreamFrameType h =? TRPC_STREAM_FRAME_INIT)%Z then
        match unmarshalPayload buf, peer m with
        | Ok i, Ok addr =>
          if init_RequestMeta i then Opened addr (StreamID h) i else Unchanged
        | _, _ => Unchanged
        end
      else Unchanged
    | None => Unchanged
    end
  | EncodeOp m buf =>
    match streamHead m, peer m with
    | Some h, Ok addr =>
      let t := StreamFrameType h in
      if (t =? TRPC_STREAM_FRAME_INIT)%Z then Unchanged
      else if (t =? TRPC_STREAM_FRAME_DATA)%Z then
        if ServerRspErr m then Closed addr (StreamID h) else Unchanged
      else if (t =? TRPC_STREAM_FRAME_CLOSE)%Z then
        Closed addr (if msg_StreamFrame m is IClose _ then StreamID h else msg_StreamID m)
      else Unchanged
    | _, _ => Unchanged
    end
  end.

(** The abstract table: a partial function of address and stream id. *)
Definition apply_event (f : string → Z → option TrpcStreamInitMeta) (e : stream_event)
    : string → Z → option TrpcStreamInitMeta :=
  match e with
  | Opened a id i => λ a' id', if decide (a' = a ∧ id' = id) then Some i else f a' id'
  | Closed a id => λ a' id', if decide (a' = a ∧ id' = id) then None else f a' id'
  | Unchanged => f
  end.

Lemma decode_step s m buf a id :
  (tables_nonempty s → tables_nonempty (step_op s (DecodeOp m buf))) ∧
  lookupMeta (step_op s (DecodeOp m buf)) a id =
  apply_event (lookupMeta s) (event (DecodeOp m buf)) a id.
Proof.
  simpl. unfold ServerStreamDecode. destruct (streamHead m) as [h|]; [|done].
  case_match; [|repeat case_match; done].
  unfold decodeInitFrame_server. destruct (unmarshalPayload buf) as [i|e|]; [|done..].
  destruct (updateMsg_server _ i) as [m'| |] eqn:Hu.
  - pose proof (updateMsg_server_stream _ _ _ Hu) as [Hp Hid].
    assert (peer m' = peer m) as Hp' by done. clear Hp.
    assert (is_Some (init_RequestMeta i)) as [req Hreq].
    { unfold updateMsg_server in Hu. destruct (init_RequestMeta i); eauto. done. }
    destruct (storeInitMeta s m' i) as [s'| |] eqn:Hs; simpl.
    + destruct (peer m) as [key| |] eqn:Hk.
      * rewrite Hreq. split; [by eapply storeInitMeta_nonempty|].
        rewrite (lookupMeta_store _ _ _ _ _ _ _ Hs Hp'). by rewrite Hid.
      * by apply AddrToKey_not_Err in Hk.
      * unfold storeInitMeta in Hs. unfold peer in Hp'. by rewrite Hp' in Hs.
    + unfold storeInitMeta in Hs. unfold peer in Hp'.
      destruct (AddrToKey _ _) eqn:Hk in Hs; try done. by apply AddrToKey_not_Err in Hk.
    + unfold storeInitMeta in Hs. unfold peer in *. destruct (AddrToKey _ _) eqn:Hk in Hs; try done.
      rewrite <- Hp', Hk. done.
  - unfold updateMsg_server in Hu. destruct (init_RequestMeta i); [|done].
    by repeat case_match.
  - unfold updateMsg_server in Hu. destruct (init_RequestMeta i); [by repeat case_match|].
    simpl. by destruct (peer m).
Qed.

Lemma encodeClose_step s h m a id :
  let s' := (encodeCloseFrame_server s h m).2 in
  (tables_nonempty s → tables_nonempty s') ∧
  lookupMeta s' a id = apply_event (lookupMeta s)
    (match peer m with
     | Ok addr => Closed addr (if msg_StreamFrame m is IClose _ then StreamID h else msg_StreamID m)
     | _ => Unchanged
     end) a id.
Proof.
  unfold encodeCloseFrame_server. set (p := match msg_StreamFrame m with IClose _ => _ | _ => _ end).
  assert (Hp : peer p.2 = peer m ∧ msg_StreamID p.2 =
    (if msg_StreamFrame m is IClose _ then StreamID h else msg_StreamID m)).
  { unfold p. by destruct (msg_StreamFrame m). }
  destruct p as [r m']. simpl in Hp. destruct Hp as [Hp <-].
  destruct (deleteInitMeta s m') as [s'|e|] eqn:Hd; simpl.
  - destruct (peer m) as [key| |] eqn:Hk.
    + split; [by eapply deleteInitMeta_nonempty|]. by apply lookupMeta_delete.
    + by apply AddrToKey_not_Err in Hk.
    + unfold deleteInitMeta in Hd. unfold peer in Hp. by rewrite Hp in Hd.
  - unfold deleteInitMeta in Hd. destruct (AddrToKey _ _) eqn:Hk in Hd; try done.
    by apply AddrToKey_not_Err in Hk.
  - unfold deleteInitMeta in Hd. unfold peer in *. destruct (AddrToKey _ _) eqn:Hk in Hd; try done.
    rewrite <- Hp, Hk. done.
Qed.

Lemma encode_step s m buf a id :
  (tables_nonempty s → tables_nonempty (step_op s (EncodeOp m buf))) ∧
  lookupMeta (step_op s (EncodeOp m buf)) a id =
  apply_event (lookupMeta s) (event (EncodeOp m buf)) a id.
Proof.
  simpl. unfold ServerStreamEncode. destruct (streamHead m) as [h|]; [|done].
  destruct (StreamFrameType h =? TRPC_STREAM_FRAME_INIT)%Z; [simpl; by destruct (peer m)|].
  destruct (StreamFrameType h =? TRPC_STREAM_FRAME_DATA)%Z.
  - unfold encodeDataFrame_server. destruct (ServerRspErr m) as [err|]; [|simpl; by destruct (peer m)].
    apply encodeClose_step.
  - destruct (StreamFrameType h =? TRPC_STREAM_FRAME_CLOSE)%Z; [apply encodeClose_step|].
    destruct (StreamFrameType h =? TRPC_STREAM_FRAME_FEEDBACK)%Z; simpl; by destruct (peer m).
Qed.

(** C8. The two-level table of the server stream codec is the abstract table of open
    streams: after any sequence of decode and encode operations, of any connections, a
    stream has exactly the init meta of its last INIT frame if it was not closed since,
    and the table of a connection without open streams has been removed. *)
Theorem ServerStream_refines (ops : list stream_op) (s : InitMetas) :
  (tables_nonempty s → tables_nonempty (run_ops s ops)) ∧
  ∀ a id, lookupMeta (run_ops s ops) a id =
    foldl apply_event (lookupMeta s) (event <$> ops) a id.
Proof.
  revert s. induction ops as [|o ops IH] using rev_ind; intros s; [done|].
  unfold run_ops in *. rewrite fmap_app, !foldl_app. simpl. destruct (IH s) as [IHn IHl].
  set (s1 := foldl step_op s ops) in *. split.
  - intros Hn. specialize (IHn Hn).
    destruct o as [m buf|m buf]; [by apply (decode_step s1 m buf "" 0)|by apply (encode_step s1 m buf "" 0)].
  - intros a id. destruct o as [m buf|m buf];
      [rewrite (proj2 (decode_step s1 m buf a id))|rewrite (proj2 (encode_step s1 m buf a id))];
      (destruct (event _); simpl; [by rewrite IHl..|by apply IHl]).
Qed.

(** ** What a frame of a known and of an unknown stream does *)

(** The frames of an open stream: every one but INIT. *)
Definition inner_frame (h : FrameHead) : Prop :=
  StreamFrameType h = TRPC_STREAM_FRAME_DATA ∨ StreamFrameType h = TRPC_STREAM_FRAME_CLOSE ∨
  StreamFrameType h = TRPC_STREAM_FRAME_FEEDBACK.

Lemma inner_not_init `{!PbEnumOk} h :
  inner_frame h → (StreamFrameType h =? TRPC_STREAM_FRAME_INIT)%Z = false.
Proof.
  pose proof stream_frames_nodup as Hn. rewrite !NoDup_cons in Hn.
  intros Hin. apply Z.eqb_neq. intros He. destruct Hn as [Hn _]. apply Hn.
  unfold inner_frame in Hin. rewrite He in Hin. set_solver.
Qed.

Lemma frame_types_distinct `{!PbEnumOk} :
  (TRPC_STREAM_FRAME_DATA =? TRPC_STREAM_FRAME_INIT)%Z = false ∧
  (TRPC_STREAM_FRAME_CLOSE =? TRPC_STREAM_FRAME_INIT)%Z = false ∧
  (TRPC_STREAM_FRAME_CLOSE =? TRPC_STREAM_FRAME_DATA)%Z = false.
Proof.
  pose proof stream_frames_nodup as Hn. rewrite !NoDup_cons in Hn.
  rewrite !Z.eqb_neq. set_solver.
Qed.

Lemma setInitMeta_lookup s m addr :
  peer m = Ok addr →
  setInitMeta s m = match lookupMeta s addr (msg_StreamID m) with
    | Some i => Ok (WithServerRPCName m (bytes_str (initreq_Func (GetRequestMeta i))))
    | None => Err errUninitializedMeta
    end.
Proof.
  unfold setInitMeta, peer, lookupMeta. intros ->. simpl.
  destruct (s !! addr) as [t|]; simpl; [|done]. by destruct (t !! _).
Qed.

(** A data, close or feedback frame of a stream that is not open at the server, be
    it unknown or already closed, is refused with the "uninitialized meta" error, and
    the table of streams and the message, but for the stream id, stay as they were. *)
Theorem ServerStreamDecode_uninitialized `{!PbEnumOk} (s : InitMetas) (m : msg)
    (h : FrameHead) (addr : string) (buf : bytes) :
  streamHead m = Some h → inner_frame h → peer m = Ok addr →
  lookupMeta s addr (StreamID h) = None →
  ServerStreamDecode s m buf = (Err errUninitializedMeta, WithStreamID m (StreamID h), s).
Proof.
  intros Hh Hin Hp Hl. unfold ServerStreamDecode. rewrite Hh, inner_not_init by done.
  set (m1 := WithStreamID m (StreamID h)).
  assert (setInitMeta s m1 = Err errUninitializedMeta) as Hs.
  { rewrite (setInitMeta_lookup s m1 addr) by done. simpl. by rewrite Hl. }
  unfold decodeDataFrame_server, decodeCloseFrame_server, decodeFeedbackFrame_server.
  rewrite Hs. case_match; [done|]. case_match; [done|]. case_match; [done|].
  unfold inner_frame in Hin. bool_to_prop. naive_solver.
Qed.

(** The payload of a frame that [frameWrite] built is what was written. *)
Lemma frameWrite_payload h p buf :
  FrameHead_wf h → frameWrite h p = Ok buf →
  payload buf = Ok p ∧
  extract buf = Ok (h <| TotalLen := zlen buf |> <| HeaderLen := 0%Z |>).
Proof.
  unfold frameWrite. intros Hwf Hc.
  destruct (construct_parts _ _ _ _ _ _ Hwf Hc) as (He & _ & _ & Hs & _). split; [|done].
  unfold payload, slice_from. change (zlen (@nil byte)) with 0%Z in Hs.
  rewrite Z.sub_0_r in Hs. change (16 + 0)%Z with 16%Z in Hs.
  change (Z.of_nat frameHeadLen) with 16%Z. by rewrite Hs.
Qed.

Lemma marshalWrite_payload {M} `{Message M} `{!MessageOk M} h (x : M) buf :
  FrameHead_wf h → marshalWrite h x = Ok buf →
  unmarshalPayload buf = Ok x ∧
  extract buf = Ok (h <| TotalLen := zlen buf |> <| HeaderLen := 0%Z |>).
Proof.
  unfold marshalWrite, unmarshalPayload. intros Hwf Hw.
  destruct (marshal x) as [p|] eqn:Hm; simpl in Hw; [|done].
  destruct (frameWrite_payload _ _ _ Hwf Hw) as [-> He]. simpl.
  by rewrite (unmarshal_marshal x p Hm).
Qed.

Lemma streamHead_Some m h : streamHead m = Some h → msg_FrameHead m = IFrameHead h ∧ isStream h = true.
Proof. unfold streamHead. intros. repeat case_match; simplify_eq. done. Qed.

(** The head that the receiver of a frame has extracted from it. *)
Definition received (m : msg) (buf : bytes) : Prop :=
  ∃ h, extract buf = Ok h ∧ msg_FrameHead m = IFrameHead h.

Lemma received_head m buf h :
  isStream h = true → received m buf →
  extract buf = Ok (h <| TotalLen := zlen buf |> <| HeaderLen := 0%Z |>) →
  ∃ h', streamHead m = Some h' ∧ StreamFrameType h' = StreamFrameType h ∧
    StreamID h' = StreamID h.
Proof.
  intros Hi (h' & He & Hm) He2. rewrite He in He2. injection He2 as ->.
  unfold streamHead. rewrite Hm. unfold isStream in *. simpl. rewrite Hi. eauto.
Qed.

(** Data sent by a client on an open stream reach the server unchanged and under
    the rpc name that the stream was opened with. *)
Theorem stream_data_roundtrip `{!PbEnumOk} (c m : msg) (h : FrameHead) (s : InitMetas)
    (data buf : bytes) (addr : string) (i : TrpcStreamInitMeta) :
  streamHead c = Some h → FrameHead_wf h → StreamFrameType h = TRPC_STREAM_FRAME_DATA →
  (ClientStreamEncode c data).1 = Ok buf → received m buf →
  peer m = Ok addr → lookupMeta s addr (StreamID h) = Some i →
  ∃ m', ServerStreamDecode s m buf = (Ok data, m', s) ∧ msg_StreamID m' = StreamID h ∧
    msg_ServerRPCName m' = bytes_str (initreq_Func (GetRequestMeta i)).
Proof.
  intros Hh Hwf Ht He Hr Hp Hl. pose proof frame_types_distinct as (Hd & _).
  unfold ClientStreamEncode in He. rewrite Hh, Ht, Hd, Z.eqb_refl in He. simpl in He.
  destruct (frameWrite_payload _ _ _ Hwf He) as [Hpl Hx].
  destruct (received_head _ _ _ (proj2 (streamHead_Some _ _ Hh)) Hr Hx) as (h' & Hs & Ht' & Hid).
  unfold ServerStreamDecode. rewrite Hs, Ht', Ht, Hd, Z.eqb_refl.
  unfold decodeDataFrame_server. rewrite (setInitMeta_lookup _ _ addr) by done.
  simpl. rewrite Hid, Hl, Hpl. eexists. split; [done|].
  destruct (WithServerRPCName_eq (WithStreamID m (StreamID h)) (bytes_str (initreq_Func (GetRequestMeta i))))
    as [v ->]. done.
Qed.

(** The metadata that an opening client sends, and the caller it names. *)
Definition sentMetaData (c : msg) : MetaData := setClientTransInfo c ∅.
Definition sentCaller (c : msg) : string :=
  if bool_decide (msg_CallerServiceName c = "") then defaultStreamCaller
  else msg_CallerServiceName c.

(** The updates of an INIT frame, field by field. *)
Lemma updateMsg_server_fields m i req m' :
  init_RequestMeta i = Some req → updateMsg_server m i = Ok m' →
  msg_ServerRPCName m' = bytes_str (initreq_Func req) ∧
  msg_CallerServiceName m' = bytes_str (initreq_Caller req) ∧
  msg_CalleeServiceName m' = bytes_str (initreq_Callee req) ∧
  msg_SerializationType m' = init_ContentType i ∧
  msg_CompressType m' = init_ContentEncoding i ∧
  msg_Dyeing m' = negb (Z.land (initreq_MessageType req) (u32 TRPC_DYEING_MESSAGE) =? 0)%Z ∧
  (initreq_TransInfo req ≠ ∅ → msg_ServerMetaData m' = initreq_TransInfo req).
Proof.
  intros Hi Hu. unfold updateMsg_server in Hu. rewrite Hi in Hu.
  unfold GetRequestMeta in Hu. rewrite Hi in Hu. simpl default in Hu.
  repeat match type of Hu with
  | context [WithServerRPCName ?x ?s] =>
    let v := fresh in destruct (WithServerRPCName_eq x s) as [v Hv]; rewrite Hv in Hu; clear Hv
  | context [WithCalleeServiceName ?x ?s] =>
    destruct (WithCalleeServiceName_eq x s) as (? & ? & ? & Hv); rewrite Hv in Hu; clear Hv
  | context [WithCallerServiceName ?x ?s] =>
    destruct (WithCallerServiceName_eq x s) as (? & ? & ? & Hv); rewrite Hv in Hu; clear Hv
  end.
  rewrite Clone_eq in Hu. case_decide; [by simplify_eq|]. injection Hu as <-.
  by destruct (initreq_TransInfo req !! DyeingKey), (initreq_TransInfo req !! EnvTransferKey).
Qed.

(** The init meta that the client fills in: the one of its message, as when a stream is opened (client.go
    sets one with the window of the receiver), or a new one. *)
Definition sentInit (c : msg) : TrpcStreamInitMeta :=
  match msg_StreamFrame c with
  | IInit i => i
  | _ => zero_init <| init_RequestMeta := Some zero_initreq |>
  end.

Lemma dyeing_bit `{!PbEnumOk} x :
  negb (Z.land (Z.lor x (u32 TRPC_DYEING_MESSAGE)) (u32 TRPC_DYEING_MESSAGE) =? 0)%Z = true.
Proof.
  apply negb_true_iff, Z.eqb_neq.
  rewrite Z.land_lor_distr_l, Z.land_diag, Z.lor_eq_0_iff. intros [_ E]. by apply dyeing_not_zero.
Qed.

(** The init meta that it sends. *)
Lemma encodeInitFrame_client_sent `{!PbEnumOk} c h r0 :
  init_RequestMeta (sentInit c) = Some r0 →
  ∃ i req, (encodeInitFrame_client h c).1 = marshalWrite h i ∧
    init_RequestMeta i = Some req ∧
    bytes_str (initreq_Func req) = msg_ClientRPCName c ∧
    bytes_str (initreq_Caller req) = sentCaller c ∧
    bytes_str (initreq_Callee req) = msg_CalleeServiceName c ∧
    init_ContentType i = u32 (msg_SerializationType c) ∧
    init_ContentEncoding i = u32 (msg_CompressType c) ∧
    negb (Z.land (initreq_MessageType req) (u32 TRPC_DYEING_MESSAGE) =? 0)%Z =
      msg_Dyeing c || negb (Z.land (initreq_MessageType r0) (u32 TRPC_DYEING_MESSAGE) =? 0)%Z ∧
    initreq_TransInfo req = setClientTransInfo c (initreq_TransInfo r0) ∧
    init_InitWindowSize i = init_InitWindowSize (sentInit c).
Proof.
  intros Hf. unfold encodeInitFrame_client.
  assert (∃ sh, match msg_StreamFrame c with
    | IInit i => (i, true)
    | _ => (zero_init <| init_RequestMeta := Some zero_initreq |>, false) end = (sentInit c, sh)) as [sh ->].
  { unfold sentInit. destruct (msg_StreamFrame c); by eexists. }
  set (c1 := if bool_decide _ then _ else _).
  assert (Hc1 : ∃ a b d, c1 = c <| callerServiceName := sentCaller c |> <| callerApp := a |>
    <| callerServer := b |> <| callerService := d |>).
  { unfold c1, sentCaller. case_bool_decide; [apply WithCallerServiceName_eq|].
    exists (callerApp c), (callerServer c), (callerService c). by destruct c. }
  clearbody c1. destruct Hc1 as (a & b & d & ->). rewrite Hf. cbv iota zeta beta.
  do 2 eexists. split; [reflexivity|]. split; [reflexivity|]. unfold msg_Dyeing. simpl.
  split_and!; try (destruct (dyeing c); simpl; by rewrite ?bytes_str_bytes).
  destruct (dyeing c); simpl; [|done]. apply dyeing_bit.
Qed.

(** C12. Opening a stream: the INIT frame of a client makes the server hold the stream as
    open and gives the server's message the rpc name, caller, callee, serialization and
    compression type, dyeing and metadata of the client's message and the window of the client's
    receiver: whether the message of the client has an init meta, as every client stream
    sets one with the window, or not. *)
Theorem stream_init_roundtrip `{!PbEnumOk} `{!MessageOk TrpcStreamInitMeta} (c m : msg)
    (h : FrameHead) (r0 : TrpcStreamInitRequestMeta) (s : InitMetas) (reqBuf buf : bytes) (addr : string) :
  streamHead c = Some h → FrameHead_wf h → StreamFrameType h = TRPC_STREAM_FRAME_INIT →
  init_RequestMeta (sentInit c) = Some r0 → (ClientStreamEncode c reqBuf).1 = Ok buf →
  received m buf → peer m = Ok addr →
  let trans := setClientTransInfo c (initreq_TransInfo r0) in
  ∃ m' s' i, ServerStreamDecode s m buf = (Ok [], m', s') ∧
    lookupMeta s' addr (StreamID h) = Some i ∧ msg_StreamFrame m' = IInit i ∧
    bytes_str (initreq_Func (GetRequestMeta i)) = msg_ClientRPCName c ∧
    init_InitWindowSize i = init_InitWindowSize (sentInit c) ∧
    msg_StreamID m' = StreamID h ∧
    msg_ServerRPCName m' = msg_ClientRPCName c ∧
    msg_CallerServiceName m' = sentCaller c ∧
    msg_CalleeServiceName m' = msg_CalleeServiceName c ∧
    msg_SerializationType m' = u32 (msg_SerializationType c) ∧
    msg_CompressType m' = u32 (msg_CompressType c) ∧
    msg_Dyeing m' =
      msg_Dyeing c || negb (Z.land (initreq_MessageType r0) (u32 TRPC_DYEING_MESSAGE) =? 0)%Z ∧
    (trans ≠ ∅ → msg_ServerMetaData m' = trans).
Proof.
  intros Hh Hwf Ht Hf He Hr Hp trans.
  unfold ClientStreamEncode in He. rewrite Hh, Ht, Z.eqb_refl in He.
  destruct (encodeInitFrame_client_sent c h r0 Hf)
    as (i & req & Hi & Hreq & E1 & E2 & E3 & E4 & E5 & E6 & E7 & E8).
  rewrite Hi in He.
  destruct (marshalWrite_payload _ _ _ Hwf He) as [Hpl Hx].
  destruct (received_head _ _ _ (proj2 (streamHead_Some _ _ Hh)) Hr Hx) as (h' & Hs & Ht' & Hid).
  unfold ServerStreamDecode. rewrite Hs, Ht', Ht, Z.eqb_refl.
  unfold decodeInitFrame_server. rewrite Hpl.
  destruct (updateMsg_server (WithStreamID m (StreamID h')) i) as [m1|e|] eqn:Hu.
  2, 3: unfold updateMsg_server in Hu; rewrite Hreq in Hu; by repeat case_match.
  destruct (updateMsg_server_stream _ _ _ Hu) as [Hp1 Hid1].
  destruct (updateMsg_server_fields _ _ _ _ Hreq Hu) as (F1 & F2 & F3 & F4 & F5 & F6 & F7).
  assert (peer m1 = Ok addr) as Hpa by (rewrite Hp1; exact Hp).
  destruct (storeInitMeta s m1 i) as [s1| |] eqn:Hst.
  2, 3: unfold storeInitMeta in Hst; unfold peer in Hpa; by rewrite Hpa in Hst.
  exists (WithStreamFrame m1 (IInit i)), s1, i. split; [done|]. split.
  { rewrite (lookupMeta_store _ _ _ _ _ _ _ Hst Hpa). rewrite decide_True; [done|].
    rewrite Hid1. by rewrite <- Hid. }
  assert (GetRequestMeta i = req) as -> by (unfold GetRequestMeta; by rewrite Hreq).
  unfold trans. rewrite <- E1, <- E2, <- E3, <- E4, <- E5, <- E6, <- E7, <- Hid.
  split_and!; [reflexivity|reflexivity|exact E8|exact Hid1|exact F1|exact F2|exact F3|exact F4|exact F5|exact F6|exact F7].
Qed.

(** A handler's failure travels to the client: once the server's message carries an
    error, sending a data frame closes the stream at the server, and the client that
    decodes the frame finds the error's code and message in its response error. *)
Theorem stream_error_roundtrip `{!PbEnumOk} `{!MessageOk TrpcStreamCloseMeta} (m c : msg)
    (h : FrameHead) (err : error) (s : InitMetas) (data buf : bytes) (addr : string) :
  streamHead m = Some h → FrameHead_wf h → StreamFrameType h = TRPC_STREAM_FRAME_DATA →
  ServerRspErr m = Some err → peer m = Ok addr →
  (ServerStreamEncode s m data).1.1 = Ok buf → received c buf →
  lookupMeta (ServerStreamEncode s m data).2 addr (StreamID h) = None ∧
  ∃ c', ClientStreamDecode c buf = (Ok [], c') ∧ msg_StreamID c' = StreamID h ∧
    msg_ClientRspErr c' =
    Some (Status ErrorTypeCalleeFramework (i32 (Code (Some err))) (Errs.Msg (Some err)) "trpc").
Proof.
  intros Hh Hwf Ht Herr Hp He Hr. pose proof frame_types_distinct as (Hd1 & Hd2 & Hd3).
  unfold ServerStreamEncode in *. rewrite Hh, Ht, Hd1, Z.eqb_refl in *.
  unfold encodeDataFrame_server in *. rewrite Herr in *.
  destruct (buildResetFrame m h err) as [h2 m2] eqn:Hb.
  set (cm := zero_close <| close_CloseType := i32 TRPC_STREAM_RESET |>
    <| close_Ret := i32 (Code (Some err)) |>
    <| close_Msg := str_bytes (Errs.Msg (Some err)) |>).
  assert (h2 = h <| StreamFrameType := u8 TRPC_STREAM_FRAME_CLOSE |> ∧
    peer m2 = peer m ∧ msg_StreamFrame m2 = IClose cm) as (Hh2 & Hp2 & Hf2)
    by (by injection Hb as <- <-).
  clear Hb. assert (StreamFrameType h2 = TRPC_STREAM_FRAME_CLOSE ∧ FrameHead_wf h2 ∧
    isStream h2 = true ∧ StreamID h2 = StreamID h) as (Ht2 & Hwf2 & His & Hid2).
  { pose proof stream_frames_u8 as Hu. rewrite !Forall_cons in Hu.
    rewrite Hh2. destruct Hwf as (? & ? & ? & ? & ? & ? & ?).
    assert (u8 TRPC_STREAM_FRAME_CLOSE = TRPC_STREAM_FRAME_CLOSE) as Hu8 by apply Z.mod_small, Hu.
    split_and!; simpl; [done| |apply (streamHead_Some _ _ Hh)|done].
    unfold FrameHead_wf, is_u8, is_u16, is_u32 in *. simpl. rewrite Hu8. lia. }
  split.
  { pose proof (encodeClose_step s h2 m2 addr (StreamID h)) as [_ Hc]. rewrite Hc, Hp2, Hp, Hf2.
    simpl. by rewrite Hid2, decide_True. }
  unfold encodeCloseFrame_server in He. rewrite Hf2 in He. cbv iota zeta beta in He.
  assert (Hmw : marshalWrite h2 (setStreamCloseMetaData m2 cm) = Ok buf)
    by (repeat case_match; first [exact He|discriminate He]).
  destruct (marshalWrite_payload _ _ _ Hwf2 Hmw) as [Hpl Hx].
  destruct (received_head _ _ _ His Hr Hx) as (h' & Hs & Ht' & Hid).
  unfold ClientStreamDecode. rewrite Hs, Ht', Ht2, Hd2, Hd3, Z.eqb_refl.
  unfold decodeCloseFrame_client, withPayload. rewrite Hpl.
  assert (isReset (setStreamCloseMetaData m2 cm) = true ∧
    resetError (setStreamCloseMetaData m2 cm) = Status ErrorTypeCalleeFramework
      (i32 (Code (Some err))) (Errs.Msg (Some err)) "trpc") as (Hrs & ->).
  { unfold cm, setStreamCloseMetaData, isReset, resetError. case_decide; simpl;
      rewrite Z.eqb_refl, bytes_str_bytes; done. }
  rewrite Hrs. eexists. split; [reflexivity|].
  rewrite <- Hid2, <- Hid. split; [|reflexivity].
  unfold updateClientStreamCloseMeta. simpl. destruct (clientRspHead c); case_decide; done.
Qed.

(** An INIT frame whose init meta has no request meta, for instance one with an empty
    payload, makes the server's [Decode] panic: [updateMsg] reads the field [TransInfo] of
    a nil request meta. *)
Theorem ServerStreamDecode_init_panics (s : InitMetas) (m : msg) (h : FrameHead) (buf : bytes)
    (i : TrpcStreamInitMeta) :
  streamHead m = Some h → StreamFrameType h = TRPC_STREAM_FRAME_INIT →
  unmarshalPayload buf = Ok i → init_RequestMeta i = None →
  (ServerStreamDecode s m buf).1.1 = Panic.
Proof.
  intros Hh Ht Hu Hn. unfold ServerStreamDecode. rewrite Hh, Ht, Z.eqb_refl.
  unfold decodeInitFrame_server. rewrite Hu. unfold updateMsg_server. by rewrite Hn.
Qed.
End codec.

(** ** The theorems at concrete inputs *)

Module StreamExamples.
Import Sample.

Definition client0 : msg :=
  zero_msg <| callerServiceName := "trpc.a.b.c" |> <| calleeServiceName := "trpc.d.e.f" |>
    <| clientRPCName := "/trpc.d.e.f/M" |> <| clientMetaData := {["k" := str_bytes "v"]} |>.

Definition init_meta : TrpcStreamInitMeta :=
  MkInit (Some (MkInitReq (str_bytes "trpc.a.b.c") (str_bytes "trpc.d.e.f")
    (str_bytes "/trpc.d.e.f/M") 0 {["k" := str_bytes "v"]})) None 0 0 0.

(** A client stream opens with the window of its receiver. *)
Definition client1 : msg :=
  WithStreamFrame client0 (IInit (zero_init <| init_RequestMeta := Some zero_initreq |>
    <| init_InitWindowSize := 65535%Z |>)).
Definition window_meta : TrpcStreamInitMeta := init_meta <| init_InitWindowSize := 65535%Z |>.
Definition close_meta : TrpcStreamCloseMeta :=
  MkClose 1 5 (str_bytes "boom") 0 ∅ 0.

#[local] Instance init_msg : Message TrpcStreamInitMeta :=
  table [(init_meta, str_bytes "I"); (window_meta, str_bytes "W"); (zero_init, [])].
#[local] Instance init_msg_ok : MessageOk TrpcStreamInitMeta.
Proof. apply table_ok. apply (bool_decide_unpack _). vm_compute. done. Defined.
#[local] Instance close_msg : Message TrpcStreamCloseMeta :=
  table [(close_meta, str_bytes "C")].
#[local] Instance close_msg_ok : MessageOk TrpcStreamCloseMeta.
Proof. apply table_ok. apply (bool_decide_unpack _). vm_compute. done. Defined.
#[local] Instance feedback_msg : Message TrpcStreamFeedBackMeta := table [].

Definition head (t : Z) : FrameHead := MkFrameHead 1 t 0 0 9 1 0.
Lemma head_wf t : is_u8 t → FrameHead_wf (head t).
Proof. intros. unfold FrameHead_wf, is_u8, is_u16, is_u32 in *. simpl. lia. Defined.
Definition received_as (m : msg) (buf : bytes) : msg :=
  match extract buf with Ok h => WithFrameHead m (IFrameHead h) | _ => m end.

Definition addr0 : option Addr := Some (MkAddr "tcp" "h:1").
Definition server0 : msg := zero_msg <| localAddr := addr0 |> <| remoteAddr := addr0 |>.
Definition key : string := "tcp_h:1_h:1".
Definition open : InitMetas := {[key := {[9%Z := init_meta]}]}.

Definition init_buf : bytes := frame_of (head 1) [] (str_bytes "I") [].
Definition window_buf : bytes := frame_of (head 1) [] (str_bytes "W") [].
Definition data_buf : bytes := frame_of (head 2) [] (str_bytes "data") [].
Definition close_buf : bytes := frame_of (head 4) [] (str_bytes "C") [].
Definition empty_buf : bytes := frame_of (head 1) [] [] [].

Ltac go_eval := vm_compute; reflexivity.

Definition closing : msg :=
  WithStreamFrame (WithFrameHead server0 (IFrameHead (head 4))) (IClose close_meta).

Lemma ServerStream_refines_witness :
  tables_nonempty (run_ops 100 ∅ [DecodeOp (received_as server0 init_buf) init_buf;
    EncodeOp closing []]) ∧
  lookupMeta (run_ops 100 ∅ [DecodeOp (received_as server0 init_buf) init_buf;
    EncodeOp closing []]) key 9 = None.
Proof.
  destruct (ServerStream_refines 100 [DecodeOp (received_as server0 init_buf) init_buf;
    EncodeOp closing []] ∅) as [Hn Hl].
  split; [apply Hn; intros a t Ht; discriminate Ht|]. rewrite Hl. go_eval.
Defined.

Lemma ServerStreamDecode_uninitialized_witness :
  (ServerStreamDecode ∅ (WithFrameHead server0 (IFrameHead (head 2))) data_buf).1.1 =
  Err errUninitializedMeta.
Proof.
  erewrite (ServerStreamDecode_uninitialized ∅ (WithFrameHead server0 (IFrameHead (head 2)))
    (head 2) key data_buf); [reflexivity|go_eval|left; go_eval|go_eval|go_eval].
Defined.

Lemma stream_data_roundtrip_witness :
  ∃ m', ServerStreamDecode open (received_as server0 data_buf) data_buf =
    (Ok (str_bytes "data"), m', open) ∧ msg_StreamID m' = 9%Z ∧
    msg_ServerRPCName m' = "/trpc.d.e.f/M".
Proof.
  apply (stream_data_roundtrip 100 "p" (WithFrameHead client0 (IFrameHead (head 2)))
    (received_as server0 data_buf) (head 2) open (str_bytes "data") data_buf key init_meta);
    try go_eval; [apply head_wf; unfold is_u8; lia|].
  exists (MkFrameHead 1 2 20 0 9 1 0). split; go_eval.
Defined.

Lemma stream_init_roundtrip_witness :
  ∃ m' s' i, ServerStreamDecode ∅ (received_as server0 window_buf) window_buf = (Ok [], m', s') ∧
    lookupMeta s' key 9 = Some i ∧ init_InitWindowSize i = 65535%Z ∧ msg_ServerRPCName m' = "/trpc.d.e.f/M".
Proof.
  destruct (stream_init_roundtrip 100 "p" (WithFrameHead client1 (IFrameHead (head 1)))
    (received_as server0 window_buf) (head 1) zero_initreq ∅ [] window_buf key)
    as (m' & s' & i & H1 & H2 & _ & _ & H3 & _ & H4 & _); try go_eval.
  - apply head_wf. unfold is_u8. lia.
  - exists (MkFrameHead 1 1 17 0 9 1 0). split; go_eval.
  - exists m', s', i. split; [exact H1|]. split; [exact H2|]. split; [exact H3|exact H4].
Defined.

Definition failing : msg :=
  WithFrameHead server0 (IFrameHead (head 2)) <| serverRspErr := Some (Status 1 5 "boom" "") |>.

Lemma stream_error_roundtrip_witness :
  lookupMeta (ServerStreamEncode 100 open failing []).2 key 9 = None ∧
  ∃ c', ClientStreamDecode (received_as client0 close_buf) close_buf = (Ok [], c') ∧
    msg_StreamID c' = 9%Z ∧
    msg_ClientRspErr c' = Some (Status ErrorTypeCalleeFramework 5 "boom" "trpc").
Proof.
  apply (stream_error_roundtrip 100 failing (received_as client0 close_buf) (head 2)
    (Status 1 5 "boom" "") open [] close_buf key); try go_eval; [apply head_wf; unfold is_u8; lia|].
  exists (MkFrameHead 1 4 17 0 9 1 0). split; go_eval.
Defined.

Lemma ServerStreamDecode_init_panics_witness :
  (ServerStreamDecode ∅ (received_as server0 empty_buf) empty_buf).1.1 = Panic.
Proof.
  apply (ServerStreamDecode_init_panics ∅ (received_as server0 empty_buf)
    (MkFrameHead 1 1 16 0 9 1 0) empty_buf zero_init); go_eval.
Defined.
End StreamExamples.
