(* ===== verification/UnaryCodec.v ===== *)
(** The unary codecs of the trpc protocol (codec.go): request and response heads,
    attachments, request ids, the error frame of a response that does not fit, and the
    hand-over of stream frames to StreamCodec.v.

    The request and response heads that the Go code shares through a pointer with the
    message are written back to the message when they change.  What the shared map of
    client metadata looks like to other holders of it is left out. *)

From S2P Require Import Prelude GoStrings Pb Errs Frame Msg StreamCodec.

(** ** Attachments (internal/attachment) *)

Definition NoopAttachment : Reader := MkReader [] EOF.

(** The reader may be a nil interface although the attachment is there. *)
Definition ClientRequestAttachment (m : msg) : option (option Reader) :=
  match msg_CommonMeta m !! ClientAttachmentKey with
  | Some (IAttachment rq _) => Some rq
  | _ => None
  end.

Definition ServerResponseAttachment (m : msg) : option (option Reader) :=
  match msg_CommonMeta m !! ServerAttachmentKey with
  | Some (IAttachment _ rs) => Some rs
  | _ => None
  end.

Definition SetClientResponseAttachment (m : msg) (attachment : bytes) : msg :=
  match msg_CommonMeta m !! ClientAttachmentKey with
  | Some (IAttachment rq _) =>
    WithCommonMeta m (<[ClientAttachmentKey := IAttachment rq (Some (MkReader attachment EOF))]>
      (msg_CommonMeta m))
  | _ => m
  end.

Definition SetServerRequestAttachment (m : msg) (attachment : bytes) : msg :=
  WithCommonMeta m (<[ServerAttachmentKey :=
    IAttachment (Some (MkReader attachment EOF)) (Some NoopAttachment)]> (msg_CommonMeta m)).

(** [io.ReadAll]: the bytes up to the end of the reader, which is drained; a nil reader
    is a nil pointer dereference. *)
Definition ReadAll (r : option Reader) : result bytes :=
  match r with
  | None => Panic
  | Some r => if decide (final r = EOF) then Ok (pending r)
              else Err (Wrapped "encoding attachment: " (final r))
  end.

Definition drained (r : option Reader) : option Reader :=
  match r with None => None | Some r => Some (MkReader [] (final r)) end.

(** The attachment to send, and the message with its reader drained. *)
Definition readClientRequest (m : msg) : result bytes * msg :=
  match msg_CommonMeta m !! ClientAttachmentKey with
  | Some (IAttachment rq rs) =>
    (ReadAll rq, WithCommonMeta m
       (<[ClientAttachmentKey := IAttachment (drained rq) rs]> (msg_CommonMeta m)))
  | _ => (Ok [], m)
  end.

Definition readServerResponse (m : msg) : result bytes * msg :=
  match msg_CommonMeta m !! ServerAttachmentKey with
  | Some (IAttachment rq rs) =>
    (ReadAll rs, WithCommonMeta m
       (<[ServerAttachmentKey := IAttachment rq (drained rs)]> (msg_CommonMeta m)))
  | _ => (Ok [], m)
  end.

Section codec.
Context `{PbEnum}.
Context `{Message TrpcStreamInitMeta} `{Message TrpcStreamCloseMeta}
        `{Message TrpcStreamFeedBackMeta} `{Message RequestProtocol}
        `{Message ResponseProtocol}.

(** The value of [DefaultMaxFrameSize], the base name of the process, and what a failed
    [proto.Unmarshal] leaves in a response head. *)
Variable maxFrameSize : Z.
Variable procName : string.
Variable leftover : bytes → ResponseProtocol.

Definition millisecond : Z := 1000000.

Definition errDecodeLen (side : string) : error := Plain (side +:+ " buf len invalid").
Definition errTotalLen (totalLen bufLen : Z) : error :=
  Plain ("total len " +:+ pretty totalLen +:+ " is not actual buf len " +:+ pretty bufLen).
Definition errPbHeadEmpty (side : string) : error := Plain (side +:+ " decode pb head len empty").
Definition errPbHeadInvalid (side : string) : error :=
  Plain (side +:+ " decode pb head len invalid").
Definition errAttachmentSize (s want : Z) : error :=
  Plain ("decoding attachment: len of attachment(" +:+ pretty s +:+
    ") isn't equal to expected AttachmentSize(" +:+ pretty want +:+ ") ").
Definition errRspAttachmentSize (s want : Z) : error :=
  Plain ("decoding attachment:(" +:+ pretty s +:+
    ") len of attachmentisn't equal to expected AttachmentSize(" +:+ pretty want +:+ ")").
Definition errReqHeadType : error :=
  Plain "client encode req head type invalid, must be trpc request protocol head".
Definition errRspHeadType : error :=
  Plain "client decode rsp head type invalid, must be trpc response protocol head".
Definition errRequestId (rsp req : Z) : error :=
  Plain ("rsp request_id " +:+ pretty rsp +:+ " different from req request_id " +:+ pretty req).

(** ** Server *)

Definition newResponseProtocol (req : RequestProtocol) : ResponseProtocol :=
  zero_rsp <| rsp_Version := u32 TRPC_PROTO_V1 |> <| rsp_CallType := req_CallType req |>
    <| rsp_RequestId := req_RequestId req |> <| rsp_MessageType := req_MessageType req |>
    <| rsp_ContentType := req_ContentType req |>
    <| rsp_ContentEncoding := req_ContentEncoding req |>.

Definition msgWithRequestProtocol (m : msg) (req : RequestProtocol) (attm : bytes) : msg :=
  let m := WithServerReqHead m (IReq req) in
  let m := WithServerRspHead m (IRsp (newResponseProtocol req)) in
  let m := WithRequestTimeout m (millisecond * req_Timeout req) in
  let m := WithCallerServiceName m (bytes_str (req_Caller req)) in
  let m := WithCalleeServiceName m (bytes_str (req_Callee req)) in
  let m := WithServerRPCName m (bytes_str (req_Func req)) in
  let m := WithSerializationType m (req_ContentType req) in
  let m := WithCompressType m (req_ContentEncoding req) in
  let m := WithDyeing m (negb (Z.land (req_MessageType req) (u32 TRPC_DYEING_MESSAGE) =? 0)%Z) in
  let m := if decide (req_TransInfo req = ∅) then m else
    let m := WithServerMetaData m (Clone (req_TransInfo req)) in
    let m := match req_TransInfo req !! DyeingKey with
             | Some bs => WithDyeingKey m (bytes_str bs) | None => m end in
    match req_TransInfo req !! EnvTransferKey with
    | Some envs => WithEnvTransfer m (bytes_str envs) | None => m end in
  let m := WithCallType m (req_CallType req) in
  if (zlen attm =? 0)%Z then m else SetServerRequestAttachment m attm.

(** The unary part of [ServerCodec.Decode], on a frame whose total length is right. *)
Definition ServerDecode_unary (m : msg) (frameHead : FrameHead) (reqBuf : bytes)
    : result bytes * msg :=
  if (HeaderLen frameHead =? 0)%Z then (Err (errPbHeadEmpty "server"), m) else
  let requestProtocolBegin := u32 (Z.of_nat frameHeadLen) in
  let requestProtocolEnd := u32 (requestProtocolBegin + u32 (HeaderLen frameHead)) in
  if (u32 (zlen reqBuf) <? requestProtocolEnd)%Z then (Err (errPbHeadInvalid "server"), m) else
  match slice reqBuf requestProtocolBegin requestProtocolEnd with
  | None => (Panic, m)
  | Some header =>
    match unmarshal header with
    | inr e => (Err e, m)
    | inl req =>
      let attachmentBegin := u32 (TotalLen frameHead - req_AttachmentSize req) in
      let s := u32 (u32 (zlen reqBuf) - attachmentBegin) in
      if negb (s =? req_AttachmentSize req)%Z
      then (Err (errAttachmentSize s (req_AttachmentSize req)), m) else
      match slice_from reqBuf attachmentBegin with
      | None => (Panic, m)
      | Some attm =>
        let m := msgWithRequestProtocol m req attm in
        (of_option (slice reqBuf requestProtocolEnd attachmentBegin), m)
      end
    end
  end.

(** [ServerCodec.Decode] *)
Definition ServerDecode (st : InitMetas) (m : msg) (reqBuf : bytes)
    : result bytes * msg * InitMetas :=
  if (zlen reqBuf <? Z.of_nat frameHeadLen)%Z then (Err (errDecodeLen "server decode req"), m, st) else
  match extract reqBuf with
  | Err e => (Err e, m, st)
  | Panic => (Panic, m, st)
  | Ok frameHead =>
    let m := WithFrameHead m (IFrameHead frameHead) in
    if negb (TotalLen frameHead =? u32 (zlen reqBuf))%Z
    then (Err (errTotalLen (TotalLen frameHead) (zlen reqBuf)), m, st) else
    if negb (FrameType frameHead =? u8 TRPC_UNARY_FRAME)%Z then
      match ServerStreamDecode st m reqBuf with
      | (Err e, m, st) =>
        let e := NewFrameError RetServerDecodeFail (Error e) in
        (Err e, (buildResetFrame m frameHead e).2, st)
      | r => r
      end
    else (ServerDecode_unary m frameHead reqBuf, st)
  end.

(** [loadOrStoreDefaultUnaryFrameHead] *)
Definition loadOrStoreDefaultUnaryFrameHead (m : msg) : FrameHead * msg :=
  match msg_FrameHead m with
  | IFrameHead h => (h, m)
  | _ => (newDefaultUnaryFrameHead, WithFrameHead m (IFrameHead newDefaultUnaryFrameHead))
  end.

Definition getAndInitResponseProtocol (m : msg) : ResponseProtocol :=
  let rsp := match msg_ServerRspHead m with
    | IRsp rsp => rsp
    | _ => match msg_ServerReqHead m with
           | IReq req => newResponseProtocol req
           | _ => zero_rsp
           end
    end in
  let rsp := rsp <| rsp_ContentType := u32 (msg_SerializationType m) |>
                 <| rsp_ContentEncoding := u32 (msg_CompressType m) |> in
  let rsp := match ServerRspErr m with
    | Some (Status t c x _) | Some (StatusOf t c x _ _) =>
      let rsp := rsp <| rsp_ErrorMsg := str_bytes x |> in
      if (t =? ErrorTypeFramework)%Z then rsp <| rsp_Ret := i32 c |>
      else rsp <| rsp_FuncRet := i32 c |>
    | _ => rsp
    end in
  if decide (msg_ServerMetaData m = ∅) then rsp
  else rsp <| rsp_TransInfo := msg_ServerMetaData m ∪ rsp_TransInfo rsp |>.

(** The response head as [handleEncodeErr] rewrites it. *)
Definition encodeErrHead (rsp : ResponseProtocol) (encodeErr : error) : ResponseProtocol :=
  rsp <| rsp_TransInfo := ∅ |> <| rsp_Ret := i32 RetServerEncodeFail |>
      <| rsp_ErrorMsg := str_bytes (Error encodeErr) |>.

(** [handleEncodeErr]: the frame, and the head it leaves. *)
Definition handleEncodeErr (rsp : ResponseProtocol) (frameHead : FrameHead) (rspBody : bytes)
    (encodeErr : error) : result bytes * ResponseProtocol :=
  let rsp := encodeErrHead rsp encodeErr in
  (do rspHead <- lift (marshal rsp); construct maxFrameSize frameHead rspHead rspBody [], rsp).

(** A response head that belongs to the message is changed in place. *)
Definition storeRspHead (m : msg) (rsp : ResponseProtocol) : msg :=
  match msg_ServerRspHead m with IRsp _ => WithServerRspHead m (IRsp rsp) | _ => m end.

(** Marshal, construct, and the answer to a frame that does not fit. *)
Definition encodeResponse (frameHead : FrameHead) (rsp : ResponseProtocol)
    (rspBody attm : bytes) : result bytes * ResponseProtocol :=
  match marshal rsp with
  | inr e => (Err e, rsp)
  | inl rspHead =>
    match construct maxFrameSize frameHead rspHead rspBody attm with
    | Err e =>
      if decide (e = errHeadOverflowsUint16) then handleEncodeErr rsp frameHead rspBody e
      else match e with
        | FrameTooLarge _ => handleEncodeErr rsp frameHead [] e
        | _ => if decide (e = errHeadOverflowsUint32) then handleEncodeErr rsp frameHead [] e
               else (Err e, rsp)
        end
    | r => (r, rsp)
    end
  end.

(** [ServerCodec.Encode] *)
Definition ServerEncode (st : InitMetas) (m : msg) (rspBody : bytes)
    : result bytes * msg * InitMetas :=
  let '(frameHead, m) := loadOrStoreDefaultUnaryFrameHead m in
  if isStream frameHead then ServerStreamEncode maxFrameSize st m rspBody else
  if negb (isUnary frameHead) then (Err errUnknownFrameType, m, st) else
  let rsp := getAndInitResponseProtocol m in
  let m := storeRspHead m rsp in
  let '(attm, m) := readServerResponse m in
  match attm with
  | Err e => (Err e, m, st)
  | Panic => (Panic, m, st)
  | Ok attm =>
    let rsp := rsp <| rsp_AttachmentSize := u32 (zlen attm) |> in
    let '(r, rsp) := encodeResponse frameHead rsp rspBody attm in
    (r, storeRspHead m rsp, st)
  end.

(** ** Client *)

Definition newDefaultUnaryRequestProtocol : RequestProtocol :=
  zero_req <| req_Version := u32 TRPC_PROTO_V1 |> <| req_CallType := u32 TRPC_UNARY_CALL |>.

Definition loadOrStoreDefaultRequestProtocol (m : msg) : result RequestProtocol * msg :=
  match msg_ClientReqHead m with
  | INil => (Ok newDefaultUnaryRequestProtocol,
             WithClientReqHead m (IReq newDefaultUnaryRequestProtocol))
  | IReq req => (Ok req, m)
  | _ => (Err errReqHeadType, m)
  end.

Definition updateCallerServiceName (m : msg) (name : string) : msg :=
  if bool_decide (msg_CallerServiceName m = "") then WithCallerServiceName m name else m.

Definition updateRequestProtocol (req : RequestProtocol) (m : msg) : RequestProtocol :=
  let req := req <| req_RequestId := msg_RequestID m |>
                 <| req_Caller := str_bytes (msg_CallerServiceName m) |>
                 <| req_Callee := str_bytes (msg_CalleeServiceName m) |>
                 <| req_Func := str_bytes (msg_ClientRPCName m) |>
                 <| req_ContentType := u32 (msg_SerializationType m) |>
                 <| req_ContentEncoding := u32 (msg_CompressType m) |>
                 <| req_Timeout := u32 (msg_RequestTimeout m ÷ millisecond) |> in
  let req := if msg_Dyeing m then
    req <| req_MessageType := Z.lor (req_MessageType req) (u32 TRPC_DYEING_MESSAGE) |> else req in
  req <| req_TransInfo := setClientTransInfo m (req_TransInfo req) |>
      <| req_CallType := u32 (msg_CallType m) |>.

(** [ClientCodec.Encode]; [counter] is the field [requestID] of the codec. *)
Definition ClientEncode (defaultCaller : string) (counter : Z) (m : msg) (reqBody : bytes)
    : result bytes * msg * Z :=
  let '(frameHead, m) := loadOrStoreDefaultUnaryFrameHead m in
  if isStream frameHead then (ClientStreamEncode maxFrameSize procName m reqBody, counter) else
  if negb (isUnary frameHead) then (Err errUnknownFrameType, m, counter) else
  let frameHead := newDefaultUnaryFrameHead in
  match loadOrStoreDefaultRequestProtocol m with
  | (Err e, m) => (Err e, m, counter)
  | (Panic, m) => (Panic, m, counter)
  | (Ok req, m) =>
    let counter := u32 (counter + 1) in
    let frameHead := upgradeProtocol frameHead curProtocolVersion counter in
    let m := WithRequestID m counter in
    match readClientRequest m with
    | (Err e, m) => (Err e, m, counter)
    | (Panic, m) => (Panic, m, counter)
    | (Ok attm, m) =>
      let req := req <| req_AttachmentSize := u32 (zlen attm) |> in
      let m := updateCallerServiceName m defaultCaller in
      let req := updateRequestProtocol req m in
      let m := WithClientReqHead m (IReq req) in
      (do reqHead <- lift (marshal req);
       construct maxFrameSize frameHead reqHead reqBody attm, m, counter)
    end
  end.

(** [loadOrStoreResponseHead] followed by [proto.Unmarshal] into the head. *)
Definition loadOrStoreResponseHead (m : msg) : result ResponseProtocol * msg :=
  match msg_ClientRspHead m with
  | INil => (Ok zero_rsp, WithClientRspHead m (IRsp zero_rsp))
  | IRsp rsp => (Ok rsp, m)
  | _ => (Err errRspHeadType, m)
  end.

(** [updateMsg] (codec.go): an error if the request id is not that of the request. *)
Definition updateMsg_client (m : msg) (frameHead : FrameHead) (rsp : ResponseProtocol)
    (attm : bytes) : option error * msg :=
  let m := WithFrameHead m (IFrameHead frameHead) in
  let m := WithCompressType m (rsp_ContentEncoding rsp) in
  let m := WithSerializationType m (rsp_ContentType rsp) in
  let m := if decide (rsp_TransInfo rsp = ∅) then m
           else WithClientMetaData m (rsp_TransInfo rsp ∪ msg_ClientMetaData m) in
  let m :=
    if negb (rsp_Ret rsp =? 0)%Z then
      WithClientRspErr m (Some (Status ErrorTypeCalleeFramework (rsp_Ret rsp)
        (bytes_str (rsp_ErrorMsg rsp)) ProtocolName))
    else if negb (rsp_FuncRet rsp =? 0)%Z then
      WithClientRspErr m (Some (New (rsp_FuncRet rsp) (bytes_str (rsp_ErrorMsg rsp))))
    else m in
  let '(req, m) := loadOrStoreDefaultRequestProtocol m in
  let mismatch := match req with
    | Ok req => if negb (rsp_RequestId rsp =? req_RequestId req)%Z
                then Some (errRequestId (rsp_RequestId rsp) (req_RequestId req)) else None
    | _ => None
    end in
  match mismatch with
  | Some e => (Some e, m)
  | None =>
    let frameHead := upgradeProtocol frameHead curProtocolVersion (rsp_RequestId rsp) in
    let m := WithRequestID (WithFrameHead m (IFrameHead frameHead)) (rsp_RequestId rsp) in
    (None, if (zlen attm =? 0)%Z then m else SetClientResponseAttachment m attm)
  end.

(** The unary part of [ClientCodec.Decode]. *)
Definition ClientDecode_unary (m : msg) (frameHead : FrameHead) (rspBuf : bytes)
    : result bytes * msg :=
  if (HeaderLen frameHead =? 0)%Z then (Err (errPbHeadEmpty "client"), m) else
  let responseProtocolBegin := u32 (Z.of_nat frameHeadLen) in
  let responseProtocolEnd := u32 (responseProtocolBegin + u32 (HeaderLen frameHead)) in
  if (u32 (zlen rspBuf) <? responseProtocolEnd)%Z then (Err (errPbHeadInvalid "client"), m) else
  match loadOrStoreResponseHead m with
  | (Err e, m) => (Err e, m)
  | (Panic, m) => (Panic, m)
  | (Ok _, m) =>
    match slice rspBuf responseProtocolBegin responseProtocolEnd with
    | None => (Panic, m)
    | Some header =>
      match unmarshal header with
      | inr e => (Err e, WithClientRspHead m (IRsp (leftover header)))
      | inl rsp =>
        let m := WithClientRspHead m (IRsp rsp) in
        let attachmentBegin := u32 (TotalLen frameHead - rsp_AttachmentSize rsp) in
        let s := u32 (u32 (zlen rspBuf) - attachmentBegin) in
        if negb (rsp_AttachmentSize rsp =? s)%Z
        then (Err (errRspAttachmentSize s (rsp_AttachmentSize rsp)), m) else
        match slice_from rspBuf attachmentBegin with
        | None => (Panic, m)
        | Some attm =>
          match updateMsg_client m frameHead rsp attm with
          | (Some e, m) => (Err e, m)
          | (None, m) => (of_option (slice rspBuf responseProtocolEnd attachmentBegin), m)
          end
        end
      end
    end
  end.

(** [ClientCodec.Decode] *)
Definition ClientDecode (m : msg) (rspBuf : bytes) : result bytes * msg :=
  if (zlen rspBuf <? Z.of_nat frameHeadLen)%Z then (Err (errDecodeLen "client decode rsp"), m) else
  match extract rspBuf with
  | Err e => (Err e, m)
  | Panic => (Panic, m)
  | Ok frameHead =>
    let m := WithFrameHead m (IFrameHead frameHead) in
    if negb (TotalLen frameHead =? u32 (zlen rspBuf))%Z
    then (Err (errTotalLen (TotalLen frameHead) (zlen rspBuf)), m) else
    if negb (FrameType frameHead =? TRPC_UNARY_FRAME)%Z then ClientStreamDecode m rspBuf
    else ClientDecode_unary m frameHead rspBuf
  end.

(** ** Cutting a frame into head, body and attachment *)

Lemma frame_of_merge h header body att :
  frame_of h header body att = frame_of h header (body ++ att) [].
Proof.
  unfold frame_of. rewrite app_nil_r, zlen_app, zlen_nil. do 2 f_equal. lia.
Qed.

(** The positions that the decoders compute in 32-bit arithmetic from the attachment
    size [n] a head declares: the test of the size never fails, and the cuts are those of
    the code if and only if the frame holds [n] bytes behind the head. *)
Lemma frame_cuts h header rest n (buf := frame_of h header rest []) (t := zlen buf)
    (ab := u32 (t - n)) :
  is_u32 t → is_u32 n →
  u32 (t - ab) = n ∧
  (if decide (n ≤ zlen rest)%Z then
     slice_from buf ab = Some (drop (Z.to_nat (zlen rest - n)) rest) ∧
     slice buf (16 + zlen header) ab = Some (take (Z.to_nat (zlen rest - n)) rest)
   else slice_from buf ab = None ∨ slice buf (16 + zlen header) ab = None).
Proof.
  unfold is_u32. intros Ht Hn.
  pose proof (length_frame_of h header rest []) as Hl. fold buf t in Hl.
  rewrite zlen_nil in Hl. change (Z.of_nat frameHeadLen) with 16%Z in Hl.
  pose proof (zlen_nonneg header). pose proof (zlen_nonneg rest).
  split.
  { unfold ab, u32. rewrite Zminus_mod_idemp_r. replace (t - (t - n))%Z with n by lia.
    by apply Z.mod_small. }
  case_decide as Hle.
  - assert (ab = (16 + zlen header + (zlen rest - n))%Z) as Hab.
    { unfold ab, u32. rewrite Z.mod_small by lia. lia. }
    set (k := Z.to_nat (zlen rest - n)).
    assert (zlen (take k rest) = zlen rest - n)%Z as Hk.
    { unfold zlen in *. rewrite length_take. unfold k. lia. }
    assert (Hb : ∃ hb, zlen hb = (16 + zlen header)%Z ∧ buf = hb ++ take k rest ++ drop k rest).
    { exists (head_bytes h t (zlen header) ++ header).
      rewrite zlen_app. unfold zlen at 1. rewrite length_head_bytes. split; [done|].
      unfold buf, frame_of. rewrite app_nil_r, take_drop, <- app_assoc.
      fold buf. unfold t. rewrite (length_frame_of h header rest []). done. }
    destruct Hb as (hb & Hhb & ->).
    rewrite Hab, <- Hhb, <- Hk. split; [|apply slice_app_mid].
    rewrite app_assoc, <- zlen_app. apply slice_from_app.
  - destruct (decide (t < n))%Z.
    + left. apply slice_None. fold t. unfold ab, u32.
      rewrite <- (Z.mod_add _ 1), Z.mod_small by lia. lia.
    + right. apply slice_None. fold t. unfold ab, u32. rewrite Z.mod_small by lia. lia.
Qed.

(** The numbers in a head that [construct] wrote. *)
Lemma frame_head_parts h header rest buf :
  FrameHead_wf h → construct maxFrameSize h header rest [] = Ok buf →
  is_u32 (zlen buf) ∧ (16 ≤ zlen buf)%Z ∧
  u32 (u32 (Z.of_nat frameHeadLen) + u32 (zlen header)) = (16 + zlen header)%Z ∧
  u32 (zlen buf) = zlen buf ∧ (16 + zlen header ≤ zlen buf)%Z ∧
  slice buf (u32 (Z.of_nat frameHeadLen)) (16 + zlen header) = Some header.
Proof.
  intros Hwf Hc. destruct (construct_parts _ _ _ _ _ _ Hwf Hc) as (_ & Hl & Hs & _).
  apply construct_Ok in Hc. change (Z.of_nat frameHeadLen) with 16%Z in *.
  rewrite zlen_nil in *.
  pose proof (zlen_nonneg header). pose proof (zlen_nonneg rest).
  assert (is_u32 (zlen buf)) by (unfold is_u32; lia).
  split_and!; [done|lia| |by apply u32_small|lia|done].
  rewrite (u32_small 16), (u32_small (zlen header)), u32_small; unfold is_u32 in *; lia.
Qed.

(** The server's [Decode] of any unary frame whose head unmarshals. *)
Lemma ServerDecode_frame `{!PbEnumOk} st m h header rest buf req :
  FrameHead_wf h → FrameType h = TRPC_UNARY_FRAME →
  construct maxFrameSize h header rest [] = Ok buf → header ≠ [] →
  unmarshal header = inl req → is_u32 (req_AttachmentSize req) →
  let k := Z.to_nat (zlen rest - req_AttachmentSize req) in
  let m1 := WithFrameHead m
    (IFrameHead (h <| TotalLen := zlen buf |> <| HeaderLen := zlen header |>)) in
  if decide (req_AttachmentSize req ≤ zlen rest)%Z then
    ServerDecode st m buf =
    (Ok (take k rest), msgWithRequestProtocol m1 req (drop k rest), st)
  else (ServerDecode st m buf).1.1 = Panic.
Proof.
  intros Hwf Ht Hc Hne Hu Hn k m1.
  destruct (frame_head_parts _ _ _ _ Hwf Hc) as (Hlen & H16 & He & Hid & Hle & Hs).
  destruct (construct_parts _ _ _ _ _ _ Hwf Hc) as (Hx & _).
  pose proof (proj1 (construct_Ok _ _ _ _ _ _) Hc) as (_ & _ & _ & Hbuf).
  pose proof (frame_cuts h header rest (req_AttachmentSize req)) as Hcut.
  rewrite <- Hbuf in Hcut. specialize (Hcut Hlen Hn). destruct Hcut as [Hsz Hcut].
  unfold ServerDecode. rewrite (proj2 (Z.ltb_ge _ _)) by (unfold frameHeadLen; lia).
  rewrite Hx. simpl TotalLen. simpl FrameType. rewrite Hid, Z.eqb_refl. simpl negb.
  assert (u8 TRPC_UNARY_FRAME = TRPC_UNARY_FRAME) as -> by apply Z.mod_small, unary_u8.
  rewrite Ht, Z.eqb_refl. simpl negb. fold m1. unfold ServerDecode_unary. simpl HeaderLen. simpl TotalLen.
  rewrite (proj2 (Z.eqb_neq (zlen header) 0)); cycle 1.
  { unfold zlen. destruct header; [done|simpl; lia]. }
  rewrite He, Hid, (proj2 (Z.ltb_ge _ _)) by lia. rewrite Hs, Hu.
  rewrite Hsz, Z.eqb_refl. simpl negb. case_decide.
  - destruct Hcut as [-> ->]. done.
  - destruct Hcut as [->|Hcut]; [done|]. destruct (slice_from _ _); [|done].
    by rewrite Hcut.
Qed.

(** The same for the client. *)
Lemma ClientDecode_frame `{!PbEnumOk} m h header rest buf rsp m2 r0 :
  FrameHead_wf h → FrameType h = TRPC_UNARY_FRAME →
  construct maxFrameSize h header rest [] = Ok buf → header ≠ [] →
  unmarshal header = inl rsp → is_u32 (rsp_AttachmentSize rsp) →
  let h1 := h <| TotalLen := zlen buf |> <| HeaderLen := zlen header |> in
  loadOrStoreResponseHead (WithFrameHead m (IFrameHead h1)) = (Ok r0, m2) →
  let k := Z.to_nat (zlen rest - rsp_AttachmentSize rsp) in
  let m3 := WithClientRspHead m2 (IRsp rsp) in
  if decide (rsp_AttachmentSize rsp ≤ zlen rest)%Z then
    ClientDecode m buf = match updateMsg_client m3 h1 rsp (drop k rest) with
      | (Some e, m) => (Err e, m)
      | (None, m) => (Ok (take k rest), m)
      end
  else (∀ attm, (updateMsg_client m3 h1 rsp attm).1 = None) → (ClientDecode m buf).1 = Panic.
Proof.
  intros Hwf Ht Hc Hne Hu Hn h1 Hl k m3.
  destruct (frame_head_parts _ _ _ _ Hwf Hc) as (Hlen & H16 & He & Hid & Hle & Hs).
  destruct (construct_parts _ _ _ _ _ _ Hwf Hc) as (Hx & _).
  pose proof (proj1 (construct_Ok _ _ _ _ _ _) Hc) as (_ & _ & _ & Hbuf).
  pose proof (frame_cuts h header rest (rsp_AttachmentSize rsp)) as Hcut.
  rewrite <- Hbuf in Hcut. specialize (Hcut Hlen Hn). destruct Hcut as [Hsz Hcut].
  unfold ClientDecode. rewrite (proj2 (Z.ltb_ge _ _)) by (unfold frameHeadLen; lia).
  rewrite Hx. fold h1. assert (TotalLen h1 = zlen buf) as -> by done.
  assert (FrameType h1 = TRPC_UNARY_FRAME) as -> by done.
  rewrite Hid, !Z.eqb_refl. simpl negb. unfold ClientDecode_unary.
  assert (TotalLen h1 = zlen buf) as -> by done. assert (HeaderLen h1 = zlen header) as -> by done.
  rewrite (proj2 (Z.eqb_neq (zlen header) 0)); cycle 1.
  { unfold zlen. destruct header; [done|simpl; lia]. }
  rewrite He, Hid, (proj2 (Z.ltb_ge _ _)) by lia. rewrite Hl, Hs, Hu. fold m3.
  rewrite Hsz, Z.eqb_refl. simpl negb. case_decide.
  - destruct Hcut as [-> ->]. by destruct (updateMsg_client _ _ _ _) as [[]].
  - intros Hup. destruct (slice_from _ _) as [a|]; [|done]. specialize (Hup a).
    destruct (updateMsg_client _ _ _ _) as [[e|] m4]; [done|].
    destruct Hcut as [Hcut|Hcut]; [done|]. by rewrite Hcut.
Qed.

(** ** Properties *)

(** Only the default message marshals to the empty byte string (protobuf, proto3). *)
Lemma marshal_not_empty {M} `{Message M} `{!MessageOk M} (zero m : M) b :
  marshal zero = inl [] → marshal m = inl b → m ≠ zero → b ≠ [].
Proof.
  intros Hz Hm Hne ->. apply Hne.
  pose proof (unmarshal_marshal _ _ Hz) as U1. pose proof (unmarshal_marshal _ _ Hm) as U2.
  rewrite U1 in U2. by simplify_eq.
Qed.

(** The server's decoder and the attachment size a request declares: for a
    well-formed unary frame, if at most the bytes behind the head are declared, these
    are cut into body and attachment at that point, and if more are declared, [Decode]
    panics with an index out of range; the error for a wrong attachment size is never
    returned. *)
Theorem ServerDecode_attachment `{!PbEnumOk} (st : InitMetas) (m : msg) (h : FrameHead)
    (header rest buf : bytes) (req : RequestProtocol) :
  FrameHead_wf h → FrameType h = TRPC_UNARY_FRAME →
  construct maxFrameSize h header rest [] = Ok buf → header ≠ [] →
  unmarshal header = inl req → is_u32 (req_AttachmentSize req) →
  (ServerDecode st m buf).1.1 =
  if decide (req_AttachmentSize req ≤ zlen rest)%Z
  then Ok (take (Z.to_nat (zlen rest - req_AttachmentSize req)) rest) else Panic.
Proof.
  intros Hwf Ht Hc Hne Hu Hn.
  pose proof (ServerDecode_frame st m h header rest buf req Hwf Ht Hc Hne Hu Hn) as Hd.
  simpl in Hd. case_decide; by rewrite Hd.
Qed.

(** What the server's message holds after a request head. *)
Lemma msgWithRequestProtocol_fields m req attm (m' := msgWithRequestProtocol m req attm) :
  msg_ServerReqHead m' = IReq req ∧
  msg_RequestTimeout m' = (millisecond * req_Timeout req)%Z ∧
  msg_CallerServiceName m' = bytes_str (req_Caller req) ∧
  msg_CalleeServiceName m' = bytes_str (req_Callee req) ∧
  msg_ServerRPCName m' = bytes_str (req_Func req) ∧
  msg_SerializationType m' = req_ContentType req ∧
  msg_CompressType m' = req_ContentEncoding req ∧
  msg_Dyeing m' = negb (Z.land (req_MessageType req) (u32 TRPC_DYEING_MESSAGE) =? 0)%Z ∧
  (req_TransInfo req ≠ ∅ → msg_ServerMetaData m' = req_TransInfo req) ∧
  msg_CallType m' = req_CallType req ∧
  (attm ≠ [] → msg_CommonMeta m' !! ServerAttachmentKey =
     Some (IAttachment (Some (MkReader attm EOF)) (Some NoopAttachment))).
Proof.
  unfold m', msgWithRequestProtocol.
  match goal with |- context [WithCallerServiceName ?x ?s] =>
    destruct (WithCallerServiceName_eq x s) as (? & ? & ? & ->) end.
  match goal with |- context [WithCalleeServiceName ?x ?s] =>
    destruct (WithCalleeServiceName_eq x s) as (? & ? & ? & ->) end.
  match goal with |- context [WithServerRPCName ?x ?s] =>
    destruct (WithServerRPCName_eq x s) as [? ->] end.
  rewrite Clone_eq.
  match goal with |- context [if decide (req_TransInfo req = ∅) then ?x else _] => set (m1 := x) end.
  set (m2 := if decide (req_TransInfo req = ∅) then _ else _).
  set (m3 := WithCallType m2 _).
  assert (Hm2 : ∃ a b d, m2 = m1 <| serverMetaData := a |> <| dyeingKey := b |> <| envTransfer := d |> ∧
    (req_TransInfo req ≠ ∅ → a = req_TransInfo req)).
  { unfold m2. clearbody m1. case_decide.
    - exists (serverMetaData m1), (dyeingKey m1), (envTransfer m1). destruct m1. done.
    - exists (req_TransInfo req),
        (if req_TransInfo req !! DyeingKey is Some bs then bytes_str bs else dyeingKey m1),
        (if req_TransInfo req !! EnvTransferKey is Some bs then bytes_str bs else envTransfer m1).
      split; [|done].
      by destruct (req_TransInfo req !! DyeingKey), (req_TransInfo req !! EnvTransferKey), m1. }
  clearbody m2. destruct Hm2 as (a & b & d & -> & Ha).
  assert (Hatt : ∃ cm, (if (zlen attm =? 0)%Z then m3 else SetServerRequestAttachment m3 attm) =
    m3 <| commonMeta := cm |> ∧ (attm ≠ [] → cm !! ServerAttachmentKey =
     Some (IAttachment (Some (MkReader attm EOF)) (Some NoopAttachment)))).
  { destruct (zlen attm =? 0)%Z eqn:Hz; bool_to_prop.
    - exists (commonMeta m3). split; [by destruct m3|]. destruct attm; [done|].
      unfold zlen in Hz. simpl in Hz. lia.
    - eexists. split; [reflexivity|]. intros _. apply lookup_insert_eq. }
  destruct Hatt as (cm & -> & Hcm). split_and!; try reflexivity; [exact Ha|exact Hcm].
Qed.

Lemma msgWithRequestProtocol_keeps m req attm (m' := msgWithRequestProtocol m req attm) :
  msg_FrameHead m' = msg_FrameHead m ∧ ServerRspErr m' = ServerRspErr m ∧
  msg_ServerRspHead m' = IRsp (newResponseProtocol req) ∧
  msg_LocalAddr m' = msg_LocalAddr m ∧ msg_RemoteAddr m' = msg_RemoteAddr m.
Proof.
  unfold m', msgWithRequestProtocol, ServerRspErr.
  match goal with |- context [WithCallerServiceName ?x ?s] =>
    destruct (WithCallerServiceName_eq x s) as (? & ? & ? & ->) end.
  match goal with |- context [WithCalleeServiceName ?x ?s] =>
    destruct (WithCalleeServiceName_eq x s) as (? & ? & ? & ->) end.
  match goal with |- context [WithServerRPCName ?x ?s] =>
    destruct (WithServerRPCName_eq x s) as [? ->] end.
  case_decide; [|destruct (_ !! DyeingKey), (_ !! EnvTransferKey)];
    destruct (zlen attm =? 0)%Z; split_and!; reflexivity.
Qed.

Lemma default_head_wf `{!PbEnumOk} id :
  is_u32 id → FrameHead_wf (upgradeProtocol newDefaultUnaryFrameHead curProtocolVersion id) ∧
  FrameType (upgradeProtocol newDefaultUnaryFrameHead curProtocolVersion id) = TRPC_UNARY_FRAME.
Proof.
  assert (u8 TRPC_UNARY_FRAME = TRPC_UNARY_FRAME) as Hu by apply Z.mod_small, unary_u8.
  pose proof unary_u8. unfold FrameHead_wf, newDefaultUnaryFrameHead. simpl. rewrite Hu.
  unfold is_u8, is_u16, is_u32, curProtocolVersion, protocolVersion1 in *. lia.
Qed.

(** The bytes that the client's attachment reader still delivers. *)
Definition sentAttachment (c : msg) : bytes :=
  match ClientRequestAttachment c with
  | Some (Some r) => pending r
  | _ => []
  end.

(** A successful [ClientCodec.Encode] of a unary request, step by step. *)
Lemma ClientEncode_Ok caller counter c body buf c' n :
  isUnary (loadOrStoreDefaultUnaryFrameHead c).1 = true →
  isStream (loadOrStoreDefaultUnaryFrameHead c).1 = false →
  msg_ClientReqHead c = INil →
  ClientEncode caller counter c body = (Ok buf, c', n) →
  n = u32 (counter + 1) ∧ ∃ req reqHead,
    msg_RequestID c' = n ∧ msg_ClientReqHead c' = IReq req ∧ marshal req = inl reqHead ∧
    construct maxFrameSize (upgradeProtocol newDefaultUnaryFrameHead curProtocolVersion n)
      reqHead body (sentAttachment c) = Ok buf ∧
    req_RequestId req = n ∧ req_AttachmentSize req = u32 (zlen (sentAttachment c)) ∧
    bytes_str (req_Caller req) =
      (if bool_decide (msg_CallerServiceName c = "") then caller else msg_CallerServiceName c) ∧
    bytes_str (req_Callee req) = msg_CalleeServiceName c ∧
    bytes_str (req_Func req) = msg_ClientRPCName c ∧
    req_ContentType req = u32 (msg_SerializationType c) ∧
    req_ContentEncoding req = u32 (msg_CompressType c) ∧
    req_Timeout req = u32 (msg_RequestTimeout c ÷ millisecond) ∧
    req_MessageType req = (if msg_Dyeing c then u32 TRPC_DYEING_MESSAGE else 0%Z) ∧
    req_TransInfo req = setClientTransInfo c ∅ ∧ req_CallType req = u32 (msg_CallType c) ∧
    msg_ClientRspHead c' = msg_ClientRspHead c ∧ msg_ClientRspErr c' = msg_ClientRspErr c.
Proof.
  intros Hun Hst Hreq. unfold ClientEncode.
  destruct (loadOrStoreDefaultUnaryFrameHead c) as [h c1] eqn:Hh. simpl in Hun, Hst.
  rewrite Hst, Hun. simpl negb. cbv iota.
  assert (∃ fh, c1 = c <| frameHead := fh |>) as [fh ->].
  { unfold loadOrStoreDefaultUnaryFrameHead in Hh. destruct (msg_FrameHead c);
      injection Hh as <- <-; try (by eexists). exists (frameHead c). by destruct c. }
  unfold loadOrStoreDefaultRequestProtocol. unfold msg_ClientReqHead in *. simpl clientReqHead.
  rewrite Hreq. cbv iota zeta beta. set (n' := u32 (counter + 1)).
  match goal with |- context [readClientRequest ?x] => set (c2 := x) end.
  assert (Hra : ∀ a c3, readClientRequest c2 = (Ok a, c3) →
    a = sentAttachment c ∧ ∃ cm, c3 = c2 <| commonMeta := cm |>).
  { intros a c3. unfold readClientRequest, sentAttachment, ClientRequestAttachment.
    assert (msg_CommonMeta c2 = msg_CommonMeta c) as -> by done.
    assert (∃ cm, c2 = c2 <| commonMeta := cm |>) as Hc2 by (exists (commonMeta c2); by destruct c2).
    destruct (msg_CommonMeta c !! ClientAttachmentKey) as [[]|]; intros; simplify_eq; try done.
    destruct Request as [r|]; simpl in *; [|done].
    case_decide; simplify_eq. split; [done|]. by eexists. }
  destruct (readClientRequest c2) as [[attm|e|] c3]; [|intros; simplify_eq..].
  destruct (Hra _ _ eq_refl) as [-> [cm ->]]. clear Hra.
  set (c4 := updateCallerServiceName _ caller).
  assert (∃ a b d, c4 = c2 <| commonMeta := cm |> <| callerServiceName :=
      (if bool_decide (msg_CallerServiceName c = "") then caller else msg_CallerServiceName c) |>
      <| callerApp := a |> <| callerServer := b |> <| callerService := d |>) as (a & b & d & ->).
  { unfold c4, updateCallerServiceName.
    assert (msg_CallerServiceName (c2 <| commonMeta := cm |>) = msg_CallerServiceName c) as -> by done.
    case_bool_decide; [apply WithCallerServiceName_eq|].
    exists (callerApp c), (callerServer c), (callerService c). unfold c2. by destruct c. }
  match goal with |- context [lift (marshal ?x)] => set (req := x) end.
  intros Heq. injection Heq as He <- <-.
  destruct (marshal req) as [reqHead|] eqn:Hm; simpl in He; [|done].
  split; [done|]. exists req, reqHead.
  split_and!; try done; unfold req, updateRequestProtocol, msg_Dyeing; simpl;
    destruct (dyeing c); simpl; by rewrite ?bytes_str_bytes.
Qed.

(** What the request head of a call carries of the client's message [c], and what [Encode] leaves in
    the message [c']. *)
Record carries (caller : string) (c c' : msg) (req : RequestProtocol) : Prop := {
  carries_request : msg_ClientReqHead c' = IReq req;
  carries_id : msg_RequestID c' = req_RequestId req;
  carries_rsp : msg_ClientRspHead c' = msg_ClientRspHead c;
  carries_err : msg_ClientRspErr c' = msg_ClientRspErr c;
  carries_func : bytes_str (req_Func req) = msg_ClientRPCName c;
  carries_caller : bytes_str (req_Caller req) =
    (if bool_decide (msg_CallerServiceName c = "") then caller else msg_CallerServiceName c);
  carries_callee : bytes_str (req_Callee req) = msg_CalleeServiceName c;
  carries_ser : req_ContentType req = u32 (msg_SerializationType c);
  carries_comp : req_ContentEncoding req = u32 (msg_CompressType c);
  carries_timeout : req_Timeout req = u32 (msg_RequestTimeout c ÷ millisecond);
  carries_message : req_MessageType req = (if msg_Dyeing c then u32 TRPC_DYEING_MESSAGE else 0%Z);
  carries_trans : req_TransInfo req = setClientTransInfo c ∅;
  carries_call : req_CallType req = u32 (msg_CallType c)
}.

(** A unary request on its way: the frame that the client encodes is decoded by any server
    to the body and the head of the client. *)
Lemma request_sent `{!PbEnumOk} `{!MessageOk RequestProtocol} caller counter n c c' body buf :
  marshal zero_req = inl [] →
  isUnary (loadOrStoreDefaultUnaryFrameHead c).1 = true →
  msg_ClientReqHead c = INil → u32 (counter + 1) ≠ 0%Z →
  ClientEncode caller counter c body = (Ok buf, c', n) →
  ∃ h req, FrameHead_wf h ∧ FrameType h = TRPC_UNARY_FRAME ∧
    n = req_RequestId req ∧ req_RequestId req ≠ 0%Z ∧ carries caller c c' req ∧
    ∀ st m, ServerDecode st m buf =
      (Ok body, msgWithRequestProtocol (WithFrameHead m (IFrameHead h)) req (sentAttachment c), st).
Proof.
  intros Hz Hun Hreq Hid He.
  assert (isStream (loadOrStoreDefaultUnaryFrameHead c).1 = false) as Hst.
  { unfold isStream, isUnary in *. bool_to_prop. apply Z.eqb_neq. rewrite Hun.
    apply unary_not_stream. }
  destruct (ClientEncode_Ok _ _ _ _ _ _ _ Hun Hst Hreq He) as (Hn & req & reqHead & E1 & E2 & Hm &
    Hc & R1 & R2 & R3 & R4 & R5 & R6 & R7 & R8 & R9 & R10 & R11 & R12 & R13).
  pose proof (u32_range (counter + 1)) as Hu. rewrite <- Hn in Hu, Hid.
  destruct (default_head_wf n Hu) as [Hwf Ht].
  set (att := sentAttachment c) in *.
  assert (Hatt : is_u32 (zlen att)).
  { apply construct_Ok in Hc. unfold is_u32. pose proof (zlen_nonneg att).
    pose proof (zlen_nonneg reqHead). pose proof (zlen_nonneg body). lia. }
  rewrite (u32_small _ Hatt) in R2.
  assert (construct maxFrameSize (upgradeProtocol newDefaultUnaryFrameHead curProtocolVersion n)
    reqHead (body ++ att) [] = Ok buf) as Hc2.
  { apply construct_Ok in Hc. apply construct_Ok. rewrite zlen_app, zlen_nil, <- frame_of_merge.
    split_and!; [apply Hc|lia|lia|apply Hc]. }
  assert (reqHead ≠ []) as Hne.
  { apply (marshal_not_empty zero_req req); [done|done|]. intros ->. by rewrite <- R1 in Hid. }
  pose proof (unmarshal_marshal _ _ Hm) as Hum.
  assert (is_u32 (req_AttachmentSize req)) as Hau by by rewrite R2.
  pose proof (λ st m, ServerDecode_frame st m _ _ _ _ _ Hwf Ht Hc2 Hne Hum Hau) as Hd.
  assert (Hk : Z.to_nat (zlen (body ++ att) - req_AttachmentSize req) = length body).
  { rewrite R2, zlen_app. unfold zlen. lia. }
  rewrite <- R1 in Hid.
  eexists _, req. split_and!; cycle -1.
  { intros st m. specialize (Hd st m). simpl in Hd. rewrite Hk, take_app_length, drop_app_length in Hd.
    rewrite decide_True in Hd by (rewrite R2, zlen_app; pose proof (zlen_nonneg body); lia).
    exact Hd. }
  - destruct (frame_head_parts _ _ _ _ Hwf Hc2) as [Hb _].
    pose proof (proj1 (construct_Ok _ _ _ _ _ _) Hc2) as (L1 & _).
    destruct Hwf as (W1 & W2 & W3 & W4 & W5 & W6 & W7). split_and!; try done.
    pose proof (zlen_nonneg reqHead). unfold is_u16. simpl. lia.
  - exact Ht.
  - congruence.
  - exact Hid.
  - by split; try congruence.
Qed.

(** A unary call reaches the server as the client made it: the server decodes the
    encoded frame into the body and the request head of the client, and its message gets
    the request id, names, types, timeout (in whole milliseconds), dyeing, metadata, call
    type and attachment of the client's message. *)
Theorem unary_request_roundtrip `{!PbEnumOk} `{!MessageOk RequestProtocol}
    (caller : string) (counter n : Z) (c c' m : msg) (body buf : bytes) (st : InitMetas) :
  marshal zero_req = inl [] →
  isUnary (loadOrStoreDefaultUnaryFrameHead c).1 = true →
  msg_ClientReqHead c = INil → u32 (counter + 1) ≠ 0%Z →
  ClientEncode caller counter c body = (Ok buf, c', n) →
  ∃ m' req, ServerDecode st m buf = (Ok body, m', st) ∧
    msg_ClientReqHead c' = IReq req ∧ msg_ServerReqHead m' = IReq req ∧
    msg_RequestID c' = req_RequestId req ∧ n = req_RequestId req ∧
    msg_ServerRPCName m' = msg_ClientRPCName c ∧
    msg_CallerServiceName m' =
      (if bool_decide (msg_CallerServiceName c = "") then caller else msg_CallerServiceName c) ∧
    msg_CalleeServiceName m' = msg_CalleeServiceName c ∧
    msg_SerializationType m' = u32 (msg_SerializationType c) ∧
    msg_CompressType m' = u32 (msg_CompressType c) ∧
    msg_RequestTimeout m' = (millisecond * u32 (msg_RequestTimeout c ÷ millisecond))%Z ∧
    msg_Dyeing m' = msg_Dyeing c ∧ msg_CallType m' = u32 (msg_CallType c) ∧
    (sentMetaData c ≠ ∅ → msg_ServerMetaData m' = sentMetaData c) ∧
    (sentAttachment c ≠ [] → msg_CommonMeta m' !! ServerAttachmentKey =
       Some (IAttachment (Some (MkReader (sentAttachment c) EOF)) (Some NoopAttachment))).
Proof.
  intros Hz Hun Hreq Hid He.
  destruct (request_sent _ _ _ _ _ _ _ Hz Hun Hreq Hid He) as (h & req & _ & _ & Hn & _ & Hc & Hd).
  exists (msgWithRequestProtocol (WithFrameHead m (IFrameHead h)) req (sentAttachment c)), req.
  split; [apply Hd|]. destruct Hc.
  destruct (msgWithRequestProtocol_fields (WithFrameHead m (IFrameHead h)) req (sentAttachment c))
    as (F1 & F2 & F3 & F4 & F5 & F6 & F7 & F8 & F9 & F10 & F11).
  rewrite F1, F2, F3, F4, F5, F6, F7, F8, F10. split_and!; try congruence.
  - rewrite carries_message0. unfold msg_Dyeing. destruct (dyeing c); [|done]. rewrite Z.land_diag.
    apply negb_true_iff, Z.eqb_neq, dyeing_not_zero.
  - unfold sentMetaData. rewrite <- carries_trans0. exact F9.
  - exact F11.
Qed.

(** The error that a client's message gets from a response head. *)
Definition headError (rsp : ResponseProtocol) : option error :=
  if negb (rsp_Ret rsp =? 0)%Z then
    Some (Status ErrorTypeCalleeFramework (rsp_Ret rsp) (bytes_str (rsp_ErrorMsg rsp)) ProtocolName)
  else if negb (rsp_FuncRet rsp =? 0)%Z then
    Some (New (rsp_FuncRet rsp) (bytes_str (rsp_ErrorMsg rsp)))
  else None.

Lemma updateMsg_client_ok m h rsp req attm (m' := (updateMsg_client m h rsp attm).2) :
  msg_ClientReqHead m = IReq req → rsp_RequestId rsp = req_RequestId req →
  (updateMsg_client m h rsp attm).1 = None ∧
  msg_RequestID m' = req_RequestId req ∧
  msg_SerializationType m' = rsp_ContentType rsp ∧
  msg_CompressType m' = rsp_ContentEncoding rsp ∧
  msg_ClientRspErr m' = from_option Some (msg_ClientRspErr m) (headError rsp) ∧
  msg_ClientMetaData m' = rsp_TransInfo rsp ∪ msg_ClientMetaData m ∧
  (∀ rq rs, attm ≠ [] → msg_CommonMeta m !! ClientAttachmentKey = Some (IAttachment rq rs) →
     msg_CommonMeta m' !! ClientAttachmentKey =
     Some (IAttachment rq (Some (MkReader attm EOF)))).
Proof.
  intros Hreq Hid. unfold m', updateMsg_client. clear m'.
  set (m1 := if decide (rsp_TransInfo rsp = ∅) then _ else _).
  assert (m1 = m <| frameHead := IFrameHead h |> <| compressType := rsp_ContentEncoding rsp |>
    <| serializationType := rsp_ContentType rsp |>
    <| clientMetaData := rsp_TransInfo rsp ∪ msg_ClientMetaData m |>) as ->.
  { unfold m1. case_decide as Ht; [|by destruct m]. rewrite Ht, map_empty_union. by destruct m. }
  set (m2 := if negb (rsp_Ret rsp =? 0)%Z then _ else _).
  assert (m2 = m <| frameHead := IFrameHead h |> <| compressType := rsp_ContentEncoding rsp |>
    <| serializationType := rsp_ContentType rsp |>
    <| clientMetaData := rsp_TransInfo rsp ∪ msg_ClientMetaData m |>
    <| clientRspErr := from_option Some (msg_ClientRspErr m) (headError rsp) |>) as ->.
  { unfold m2, headError. destruct (negb (rsp_Ret rsp =? 0)%Z), (negb (rsp_FuncRet rsp =? 0)%Z);
      by destruct m. }
  unfold loadOrStoreDefaultRequestProtocol. unfold msg_ClientReqHead in *. simpl clientReqHead.
  rewrite Hreq, Hid, Z.eqb_refl. simpl negb. cbv iota zeta.
  destruct (zlen attm =? 0)%Z eqn:Hz; bool_to_prop.
  - split_and!; try done. intros rq rs Hne. destruct attm; [done|]. unfold zlen in Hz. simpl in Hz. lia.
  - unfold SetClientResponseAttachment. set (m3 := WithRequestID _ _).
    assert (msg_CommonMeta m3 = msg_CommonMeta m) as -> by done.
    destruct (msg_CommonMeta m !! ClientAttachmentKey) as [[]|] eqn:Hcm;
      (split_and!; try done; intros; simplify_eq). apply lookup_insert_eq.
Qed.

(** The bytes that the server's attachment reader still delivers. *)
Definition sentServerAttachment (m : msg) : bytes :=
  match ServerResponseAttachment m with
  | Some (Some r) => pending r
  | _ => []
  end.

(** The server's attachment can be read. *)
Definition readableServerAttachment (m : msg) : Prop :=
  match ServerResponseAttachment m with
  | Some (Some r) => final r = EOF
  | Some None => False
  | None => True
  end.

(** The response head that [Encode] marshals. *)
Definition responseHead (m : msg) : ResponseProtocol :=
  getAndInitResponseProtocol m <| rsp_AttachmentSize := u32 (zlen (sentServerAttachment m)) |>.

Lemma responseHead_types m :
  rsp_ContentType (responseHead m) = u32 (msg_SerializationType m) ∧
  rsp_ContentEncoding (responseHead m) = u32 (msg_CompressType m).
Proof.
  unfold responseHead, getAndInitResponseProtocol.
  destruct (ServerRspErr m) as [[]|]; case_decide; simpl; try done;
    match goal with |- context [if ?b then _ else _] => destruct b end; done.
Qed.

Lemma ServerEncode_unary st m body h :
  msg_FrameHead m = IFrameHead h → isUnary h = true → isStream h = false →
  readableServerAttachment m →
  (ServerEncode st m body).1.1 =
  (encodeResponse h (responseHead m) body (sentServerAttachment m)).1 ∧
  (ServerEncode st m body).2 = st.
Proof.
  intros Hh Hu Hs Hr. unfold ServerEncode, loadOrStoreDefaultUnaryFrameHead.
  rewrite Hh, Hs, Hu. simpl negb. cbv iota. set (m1 := storeRspHead m _).
  assert (msg_CommonMeta m1 = msg_CommonMeta m) as Hcm.
  { unfold m1, storeRspHead. by destruct (msg_ServerRspHead m). }
  unfold readServerResponse, responseHead, readableServerAttachment, sentServerAttachment,
    ServerResponseAttachment in *. rewrite Hcm.
  destruct (msg_CommonMeta m !! ServerAttachmentKey) as [[]|]; simpl.
  all: try (destruct Response as [r|]; [|done]; simpl; rewrite decide_True by done).
  all: destruct (encodeResponse _ _ _ _); done.
Qed.

(** The client's decoder on a frame that answers its own request. *)
Lemma ClientDecode_answer `{!PbEnumOk} c h header rest buf rsp req :
  FrameHead_wf h → FrameType h = TRPC_UNARY_FRAME →
  construct maxFrameSize h header rest [] = Ok buf → header ≠ [] →
  unmarshal header = inl rsp → is_u32 (rsp_AttachmentSize rsp) →
  msg_ClientReqHead c = IReq req → msg_ClientRspHead c = INil →
  rsp_RequestId rsp = req_RequestId req →
  if decide (rsp_AttachmentSize rsp ≤ zlen rest)%Z then
    let k := Z.to_nat (zlen rest - rsp_AttachmentSize rsp) in
    ∃ c', ClientDecode c buf = (Ok (take k rest), c') ∧
      msg_RequestID c' = req_RequestId req ∧
      msg_SerializationType c' = rsp_ContentType rsp ∧
      msg_CompressType c' = rsp_ContentEncoding rsp ∧
      msg_ClientRspErr c' = from_option Some (msg_ClientRspErr c) (headError rsp) ∧
      msg_ClientMetaData c' = rsp_TransInfo rsp ∪ msg_ClientMetaData c ∧
      (∀ rq rs, drop k rest ≠ [] →
         msg_CommonMeta c !! ClientAttachmentKey = Some (IAttachment rq rs) →
         msg_CommonMeta c' !! ClientAttachmentKey =
         Some (IAttachment rq (Some (MkReader (drop k rest) EOF))))
  else (ClientDecode c buf).1 = Panic.
Proof.
  intros Hwf Ht Hc Hne Hum Hn Hreq Hrsp Hid.
  set (h1 := h <| TotalLen := zlen buf |> <| HeaderLen := zlen header |>).
  set (c1 := WithFrameHead c (IFrameHead h1)).
  assert (loadOrStoreResponseHead c1 = (Ok zero_rsp, WithClientRspHead c1 (IRsp zero_rsp))) as Hl.
  { unfold loadOrStoreResponseHead. assert (msg_ClientRspHead c1 = INil) as -> by done. done. }
  pose proof (ClientDecode_frame c h header rest buf rsp _ zero_rsp Hwf Ht Hc Hne Hum Hn Hl) as Hd.
  simpl in Hd. fold h1 in Hd.
  match type of Hd with context [updateMsg_client ?x _ _ _] => set (c2 := x) in * end.
  assert (Hup : ∀ attm, _) by exact (λ attm, updateMsg_client_ok c2 h1 rsp req attm Hreq Hid).
  case_decide.
  - simpl. set (k := Z.to_nat _) in *. destruct (Hup (drop k rest)) as (U1 & U).
    destruct (updateMsg_client c2 h1 rsp (drop k rest)) as [o c']. simpl in U1, U. subst o.
    exists c'. split; [exact Hd|exact U].
  - apply Hd. intros attm. apply (Hup attm).
Qed.

(** A response reaches the client as the server sent it: body, attachment, request id,
    serialization and compression type; a failure of the handler is reported as a callee
    framework error or as a business error with its code and message, and the metadata of
    the server are merged over those of the client. *)
Theorem unary_response_roundtrip `{!PbEnumOk} `{!MessageOk ResponseProtocol}
    (st : InitMetas) (m c : msg) (h : FrameHead) (rspHead body buf : bytes)
    (req : RequestProtocol) :
  marshal zero_rsp = inl [] →
  msg_FrameHead m = IFrameHead h → FrameHead_wf h → isUnary h = true →
  readableServerAttachment m →
  marshal (responseHead m) = inl rspHead →
  construct maxFrameSize h rspHead body (sentServerAttachment m) = Ok buf →
  msg_ClientReqHead c = IReq req → msg_ClientRspHead c = INil →
  rsp_RequestId (responseHead m) = req_RequestId req → req_RequestId req ≠ 0%Z →
  (ServerEncode st m body).1.1 = Ok buf ∧
  ∃ c', ClientDecode c buf = (Ok body, c') ∧
    msg_RequestID c' = req_RequestId req ∧
    msg_SerializationType c' = u32 (msg_SerializationType m) ∧
    msg_CompressType c' = u32 (msg_CompressType m) ∧
    msg_ClientRspErr c' = from_option Some (msg_ClientRspErr c) (headError (responseHead m)) ∧
    msg_ClientMetaData c' = rsp_TransInfo (responseHead m) ∪ msg_ClientMetaData c ∧
    (∀ rq rs, sentServerAttachment m ≠ [] →
       msg_CommonMeta c !! ClientAttachmentKey = Some (IAttachment rq rs) →
       msg_CommonMeta c' !! ClientAttachmentKey =
       Some (IAttachment rq (Some (MkReader (sentServerAttachment m) EOF)))).
Proof.
  intros Hz Hh Hwf Hun Hra Hm Hc Hreq Hrsp Hid Hnz.
  assert (FrameType h = TRPC_UNARY_FRAME) as Ht by (unfold isUnary in Hun; by bool_to_prop).
  assert (isStream h = false) as Hst
    by (unfold isStream; apply Z.eqb_neq; rewrite Ht; apply unary_not_stream).
  set (att := sentServerAttachment m) in *. set (rsp := responseHead m) in *. split.
  { destruct (ServerEncode_unary st m body h Hh Hun Hst Hra) as [-> _]. fold att rsp.
    unfold encodeResponse. by rewrite Hm, Hc. }
  pose proof (proj1 (construct_Ok _ _ _ _ _ _) Hc) as (L1 & L2 & L3 & L4).
  pose proof (zlen_nonneg att). pose proof (zlen_nonneg body). pose proof (zlen_nonneg rspHead).
  assert (rsp_AttachmentSize rsp = zlen att) as Hsz by (apply (u32_small (zlen att)); unfold is_u32; lia).
  assert (construct maxFrameSize h rspHead (body ++ att) [] = Ok buf) as Hc2.
  { apply construct_Ok. rewrite zlen_app, zlen_nil, <- frame_of_merge. split_and!; [done|lia|lia|done]. }
  assert (rspHead ≠ []) as Hne.
  { apply (marshal_not_empty zero_rsp rsp); [done|done|]. intros E. by rewrite E in Hid. }
  assert (Hk : Z.to_nat (zlen (body ++ att) - rsp_AttachmentSize rsp) = length body).
  { rewrite Hsz, zlen_app. unfold zlen. lia. }
  pose proof (ClientDecode_answer c h rspHead (body ++ att) buf rsp req Hwf Ht Hc2 Hne
    (unmarshal_marshal _ _ Hm)) as Hd.
  cbv zeta in Hd. rewrite Hk, take_app_length, drop_app_length, Hsz in Hd.
  rewrite decide_True in Hd by (rewrite zlen_app; lia).
  destruct (responseHead_types m) as [<- <-]. apply Hd; try done. unfold is_u32. lia.
Qed.

(** The error frame that replaces a response that does not fit. *)
Lemma encodeResponse_too_large h rsp rspHead body attm e :
  marshal rsp = inl rspHead → construct maxFrameSize h rspHead body attm = Err e →
  e = FrameTooLarge maxFrameSize ∨ e = errHeadOverflowsUint32 →
  encodeResponse h rsp body attm = handleEncodeErr rsp h [] e.
Proof.
  intros Hm Hc He. unfold encodeResponse. rewrite Hm, Hc.
  by destruct He as [-> | ->].
Qed.

(** A response that is too large for a frame is replaced by a frame without body that
    makes the client's call fail with the code for a server encode failure, provided the
    response has no attachment. *)
Theorem ServerEncode_too_large `{!PbEnumOk} `{!MessageOk ResponseProtocol}
    (st : InitMetas) (m c : msg) (h : FrameHead) (rspHead errHead body buf : bytes)
    (e : error) (req : RequestProtocol) :
  marshal zero_rsp = inl [] →
  msg_FrameHead m = IFrameHead h → FrameHead_wf h → isUnary h = true →
  readableServerAttachment m → sentServerAttachment m = [] →
  marshal (responseHead m) = inl rspHead →
  construct maxFrameSize h rspHead body [] = Err e →
  e = FrameTooLarge maxFrameSize ∨ e = errHeadOverflowsUint32 →
  marshal (encodeErrHead (responseHead m) e) = inl errHead →
  construct maxFrameSize h errHead [] [] = Ok buf →
  msg_ClientReqHead c = IReq req → msg_ClientRspHead c = INil →
  rsp_RequestId (responseHead m) = req_RequestId req →
  (ServerEncode st m body).1.1 = Ok buf ∧
  ∃ c', ClientDecode c buf = (Ok [], c') ∧
    msg_ClientRspErr c' = Some (Status ErrorTypeCalleeFramework (i32 RetServerEncodeFail)
      (Error e) ProtocolName).
Proof.
  intros Hz Hh Hwf Hun Hra Hatt Hm Hc He Hm2 Hc2 Hreq Hrsp Hid.
  assert (FrameType h = TRPC_UNARY_FRAME) as Ht by (unfold isUnary in Hun; by bool_to_prop).
  assert (isStream h = false) as Hst
    by (unfold isStream; apply Z.eqb_neq; rewrite Ht; apply unary_not_stream).
  pose proof server_encode_fail_not_ok as Hnz. split.
  { destruct (ServerEncode_unary st m body h Hh Hun Hst Hra) as [-> _]. rewrite Hatt.
    rewrite (encodeResponse_too_large _ _ _ _ _ _ Hm Hc He). unfold handleEncodeErr.
    simpl. rewrite Hm2. exact Hc2. }
  set (rsp := encodeErrHead (responseHead m) e) in *.
  assert (errHead ≠ []) as Hne.
  { apply (marshal_not_empty zero_rsp rsp); [done|done|]. intros E.
    apply Hnz. change (i32 RetServerEncodeFail) with (rsp_Ret rsp). by rewrite E. }
  assert (rsp_AttachmentSize rsp = 0%Z) as Hsz.
  { unfold rsp, responseHead. simpl. by rewrite Hatt. }
  pose proof (ClientDecode_answer c h errHead [] buf rsp req Hwf Ht Hc2 Hne
    (unmarshal_marshal _ _ Hm2)) as Hd. rewrite Hsz in Hd. simpl in Hd.
  destruct Hd as (c' & Hd & _ & _ & _ & Herr & _); try done.
  exists c'. rewrite Herr. split; [exact Hd|]. unfold headError.
  assert (rsp_Ret rsp = i32 RetServerEncodeFail) as -> by done.
  rewrite (proj2 (Z.eqb_neq _ _)) by done. simpl. by rewrite bytes_str_bytes.
Qed.

(** If the response that is too large has an attachment, the error frame still
    declares the size of the attachment although it carries none: [handleEncodeErr] does
    not reset the field, and the client's [Decode] panics on the frame. *)
Theorem ServerEncode_too_large_panics `{!PbEnumOk} `{!MessageOk ResponseProtocol}
    (st : InitMetas) (m c : msg) (h : FrameHead) (rspHead errHead body buf : bytes)
    (e : error) (req : RequestProtocol) :
  marshal zero_rsp = inl [] →
  msg_FrameHead m = IFrameHead h → FrameHead_wf h → isUnary h = true →
  readableServerAttachment m → u32 (zlen (sentServerAttachment m)) ≠ 0%Z →
  marshal (responseHead m) = inl rspHead →
  construct maxFrameSize h rspHead body (sentServerAttachment m) = Err e →
  e = FrameTooLarge maxFrameSize ∨ e = errHeadOverflowsUint32 →
  marshal (encodeErrHead (responseHead m) e) = inl errHead →
  construct maxFrameSize h errHead [] [] = Ok buf →
  msg_ClientReqHead c = IReq req → msg_ClientRspHead c = INil →
  rsp_RequestId (responseHead m) = req_RequestId req →
  (ServerEncode st m body).1.1 = Ok buf ∧ (ClientDecode c buf).1 = Panic.
Proof.
  intros Hz Hh Hwf Hun Hra Hatt Hm Hc He Hm2 Hc2 Hreq Hrsp Hid.
  assert (FrameType h = TRPC_UNARY_FRAME) as Ht by (unfold isUnary in Hun; by bool_to_prop).
  assert (isStream h = false) as Hst
    by (unfold isStream; apply Z.eqb_neq; rewrite Ht; apply unary_not_stream).
  pose proof server_encode_fail_not_ok as Hnz. split.
  { destruct (ServerEncode_unary st m body h Hh Hun Hst Hra) as [-> _].
    rewrite (encodeResponse_too_large _ _ _ _ _ _ Hm Hc He). unfold handleEncodeErr.
    simpl. rewrite Hm2. exact Hc2. }
  set (rsp := encodeErrHead (responseHead m) e) in *.
  assert (errHead ≠ []) as Hne.
  { apply (marshal_not_empty zero_rsp rsp); [done|done|]. intros E.
    apply Hnz. change (i32 RetServerEncodeFail) with (rsp_Ret rsp). by rewrite E. }
  pose proof (u32_range (zlen (sentServerAttachment m))) as Hr.
  pose proof (ClientDecode_answer c h errHead [] buf rsp req Hwf Ht Hc2 Hne
    (unmarshal_marshal _ _ Hm2)) as Hd.
  assert (rsp_AttachmentSize rsp = u32 (zlen (sentServerAttachment m))) as Hsz by done.
  rewrite Hsz, decide_False in Hd by (unfold is_u32 in Hr; rewrite zlen_nil; lia).
  by apply Hd.
Qed.

(** A response with another request id than the request is refused. *)
Theorem ClientDecode_request_id `{!PbEnumOk} (c : msg) (h : FrameHead)
    (header rest buf : bytes) (rsp : ResponseProtocol) (req : RequestProtocol) :
  FrameHead_wf h → FrameType h = TRPC_UNARY_FRAME →
  construct maxFrameSize h header rest [] = Ok buf → header ≠ [] →
  unmarshal header = inl rsp → is_u32 (rsp_AttachmentSize rsp) →
  (rsp_AttachmentSize rsp ≤ zlen rest)%Z →
  msg_ClientReqHead c = IReq req → msg_ClientRspHead c = INil →
  rsp_RequestId rsp ≠ req_RequestId req →
  (ClientDecode c buf).1 = Err (errRequestId (rsp_RequestId rsp) (req_RequestId req)).
Proof.
  intros Hwf Ht Hc Hne Hum Hn Hle Hreq Hrsp Hid.
  set (h1 := h <| TotalLen := zlen buf |> <| HeaderLen := zlen header |>).
  set (c1 := WithFrameHead c (IFrameHead h1)).
  assert (loadOrStoreResponseHead c1 = (Ok zero_rsp, WithClientRspHead c1 (IRsp zero_rsp))) as Hl.
  { unfold loadOrStoreResponseHead. assert (msg_ClientRspHead c1 = INil) as -> by done. done. }
  pose proof (ClientDecode_frame c h header rest buf rsp _ zero_rsp Hwf Ht Hc Hne Hum Hn Hl) as Hd.
  simpl in Hd. fold h1 in Hd. rewrite decide_True in Hd by done. rewrite Hd.
  match goal with |- context [updateMsg_client ?x _ _ ?a] => set (c2 := x); set (at' := a) end.
  assert ((updateMsg_client c2 h1 rsp at').1 = Some (errRequestId (rsp_RequestId rsp) (req_RequestId req))) as Hup.
  { unfold updateMsg_client.
    match goal with |- context [loadOrStoreDefaultRequestProtocol ?x] => set (c3 := x) end.
    assert (msg_ClientReqHead c3 = IReq req) as Hc3.
    { unfold c3. repeat (match goal with |- context [if ?b then _ else _] => destruct b end); exact Hreq. }
    unfold loadOrStoreDefaultRequestProtocol. rewrite Hc3.
    by rewrite (proj2 (Z.eqb_neq _ _)). }
  destruct (updateMsg_client c2 h1 rsp at') as [o c4]. simpl in Hup. by rewrite Hup.
Qed.

(** ** Request ids *)

(** The ids of [n] successive unary encodes of one client codec. *)
Fixpoint requestIDs (n : nat) (counter : Z) : list Z :=
  match n with
  | O => []
  | S n => let id := u32 (counter + 1) in id :: requestIDs n id
  end.

(** Successive calls of [Encode] with any messages and bodies. *)
Fixpoint encodes (caller : string) (counter : Z) (calls : list (msg * bytes)) : list msg :=
  match calls with
  | [] => []
  | (m, body) :: calls =>
    let '(_, m, counter) := ClientEncode caller counter m body in
    m :: encodes caller counter calls
  end.

(** A message that [Encode] takes as a unary request. *)
Definition unary_call (m : msg) : Prop :=
  isUnary (loadOrStoreDefaultUnaryFrameHead m).1 = true ∧
  ∃ req, (loadOrStoreDefaultRequestProtocol m).1 = Ok req.

Lemma readClientRequest_id m : msg_RequestID (readClientRequest m).2 = msg_RequestID m.
Proof. unfold readClientRequest. by destruct (msg_CommonMeta m !! ClientAttachmentKey) as [[]|]. Qed.

(** Whatever becomes of the request, its message has the next id. *)
Lemma ClientEncode_id `{!PbEnumOk} caller counter m body :
  unary_call m →
  (ClientEncode caller counter m body).2 = u32 (counter + 1) ∧
  msg_RequestID (ClientEncode caller counter m body).1.2 = u32 (counter + 1).
Proof.
  intros [Hu [req Hr]]. unfold ClientEncode.
  destruct (loadOrStoreDefaultUnaryFrameHead m) as [h m1] eqn:Hl. simpl in Hu.
  assert (isStream h = false) as ->.
  { unfold isStream, isUnary in *. bool_to_prop. apply Z.eqb_neq. rewrite Hu. apply unary_not_stream. }
  rewrite Hu. simpl negb. cbv iota.
  assert ((loadOrStoreDefaultRequestProtocol m1).1 = Ok req) as Hr1.
  { unfold loadOrStoreDefaultUnaryFrameHead in Hl. destruct (msg_FrameHead m); injection Hl as <- <-;
      try done; unfold loadOrStoreDefaultRequestProtocol in *; unfold msg_ClientReqHead in *; simpl in *;
      by destruct (clientReqHead m). }
  destruct (loadOrStoreDefaultRequestProtocol m1) as [r m2]. simpl in Hr1. subst r.
  set (m3 := WithRequestID m2 _). pose proof (readClientRequest_id m3) as Hid.
  destruct (readClientRequest m3) as [[attm|e|] m4]; simpl in Hid; simpl; (split; [done|]); [|done..].
  unfold updateCallerServiceName. case_bool_decide; [|done].
  by destruct (WithCallerServiceName_eq m4 caller) as (? & ? & ? & ->).
Qed.

Lemma requestIDs_lookup n counter i id :
  requestIDs n counter !! i = Some id → id = u32 (counter + Z.of_nat i + 1).
Proof.
  revert counter i. induction n as [|n IH]; intros counter [|i]; simpl; intros Hl; simplify_eq.
  - f_equal. lia.
  - rewrite (IH _ _ Hl). unfold u32. rewrite <- Z.add_assoc, Zplus_mod_idemp_l. f_equal. lia.
Qed.

Lemma requestIDs_NoDup n counter : (Z.of_nat n ≤ 2 ^ 32)%Z → NoDup (requestIDs n counter).
Proof.
  intros Hn. apply NoDup_alt. intros i j id Hi Hj.
  assert (∀ k, requestIDs n counter !! k = Some id → k < n) as Hlt.
  { intros k Hk%lookup_lt_Some. revert Hk. generalize counter. clear.
    revert k. induction n; simpl; intros k c Hk; [lia|]. destruct k; [lia|].
    specialize (IHn k (u32 (c + 1))). lia. }
  pose proof (Hlt _ Hi). pose proof (Hlt _ Hj).
  apply requestIDs_lookup in Hi, Hj. rewrite Hi in Hj. unfold u32 in Hj.
  assert (Z.of_nat i = Z.of_nat j); [|lia].
  assert (((Z.of_nat i - Z.of_nat j) mod 2 ^ 32)%Z = 0%Z) as Hm.
  { replace (Z.of_nat i - Z.of_nat j)%Z
      with ((counter + Z.of_nat i + 1) - (counter + Z.of_nat j + 1))%Z by lia.
    rewrite Zminus_mod, Hj, Z.sub_diag. done. }
  apply Z.mod_divide in Hm; [|lia]. destruct Hm as [q Hq]. nia.
Qed.

(** The requests of a client codec are told apart by their ids: the ids of up to 2^32
    successive unary requests are all different, whether the requests could be encoded or
    not. *)
Theorem request_ids_distinct `{!PbEnumOk} (caller : string) (counter : Z)
    (calls : list (msg * bytes)) :
  Forall (λ c, unary_call c.1) calls → (zlen calls ≤ 2 ^ 32)%Z →
  msg_RequestID <$> encodes caller counter calls = requestIDs (length calls) counter ∧
  NoDup (msg_RequestID <$> encodes caller counter calls).
Proof.
  intros Hc Hn.
  assert (msg_RequestID <$> encodes caller counter calls = requestIDs (length calls) counter) as Heq.
  { clear Hn. revert counter. induction Hc as [|[m body] calls Hm Hc IH]; intros counter; [done|].
    destruct (ClientEncode_id caller counter m body Hm) as [H1' H2'].
    simpl. destruct (ClientEncode caller counter m body) as [[r m'] n]. simpl in *.
    by rewrite H1', H2', IH. }
  split; [done|]. rewrite Heq. by apply requestIDs_NoDup.
Qed.
End codec.

(** ** The theorems at concrete inputs *)

Module UnaryExamples.
Import Sample.

Ltac go_eval := vm_compute; reflexivity.

Definition client0 : msg :=
  zero_msg <| callerServiceName := "trpc.a.b.c" |> <| calleeServiceName := "trpc.d.e.f" |>
    <| clientRPCName := "/trpc.d.e.f/M" |> <| requestTimeout := 5000000%Z |>
    <| commonMeta := {[ClientAttachmentKey := IAttachment (Some (MkReader (str_bytes "att") EOF)) None]} |>.

Definition req0 : RequestProtocol :=
  MkReq 0 0 1 5 (str_bytes "trpc.a.b.c") (str_bytes "trpc.d.e.f") (str_bytes "/trpc.d.e.f/M")
    0 ∅ 0 0 3.
(** A request that declares a larger attachment than its frame has. *)
Definition req_bad : RequestProtocol := req0 <| req_AttachmentSize := 100%Z |>.

Definition rsp0 : ResponseProtocol := MkRsp 0 0 1 0 7 (str_bytes "no") 0 ∅ 0 0 2.
Definition rsp1 : ResponseProtocol := rsp0 <| rsp_AttachmentSize := 0%Z |>.
Definition rsp_other : ResponseProtocol := rsp1 <| rsp_RequestId := 2%Z |>.

Definition limit : Z := 40.
Definition e0 : error := FrameTooLarge limit.

#[local] Instance req_msg : Message RequestProtocol :=
  table [(zero_req, []); (req0, str_bytes "R"); (req_bad, str_bytes "B")].
#[local] Instance req_msg_ok : MessageOk RequestProtocol.
Proof. apply table_ok. apply (bool_decide_unpack _). vm_compute. done. Defined.
#[local] Instance rsp_msg : Message ResponseProtocol :=
  table [(zero_rsp, []); (rsp0, str_bytes "P"); (rsp1, str_bytes "Q");
    (rsp_other, str_bytes "O"); (encodeErrHead rsp1 e0, str_bytes "E");
    (encodeErrHead rsp0 e0, str_bytes "F")].
#[local] Instance rsp_msg_ok : MessageOk ResponseProtocol.
Proof. apply table_ok. apply (bool_decide_unpack _). vm_compute. done. Defined.
#[local] Instance init_msg : Message TrpcStreamInitMeta := table [].
#[local] Instance close_msg : Message TrpcStreamCloseMeta := table [].
#[local] Instance feedback_msg : Message TrpcStreamFeedBackMeta := table [].

Definition head1 : FrameHead := upgradeProtocol newDefaultUnaryFrameHead curProtocolVersion 1.
Definition head1_ok : FrameHead_wf head1 ∧ FrameType head1 = TRPC_UNARY_FRAME.
Proof. apply default_head_wf. unfold is_u32. lia. Defined.

Definition no_leftover : bytes → ResponseProtocol := λ _, zero_rsp.
Definition request_buf : bytes := frame_of head1 (str_bytes "R") (str_bytes "body") (str_bytes "att").
Definition bad_buf : bytes := frame_of head1 (str_bytes "B") (str_bytes "body") [].

Lemma ServerDecode_attachment_witness :
  (ServerDecode ∅ zero_msg bad_buf).1.1 = Panic.
Proof.
  rewrite (ServerDecode_attachment limit ∅ zero_msg head1 (str_bytes "B") (str_bytes "body")
    bad_buf req_bad); try go_eval; [apply head1_ok|discriminate|unfold is_u32; simpl; lia].
Defined.

Lemma unary_request_roundtrip_witness :
  ∃ m' req, ServerDecode ∅ zero_msg request_buf = (Ok (str_bytes "body"), m', ∅) ∧
    msg_ServerReqHead m' = IReq req ∧ msg_ServerRPCName m' = "/trpc.d.e.f/M" ∧
    msg_RequestTimeout m' = 5000000%Z.
Proof.
  destruct (unary_request_roundtrip limit "p" "" 0 1 client0
    (ClientEncode limit "p" "" 0 client0 (str_bytes "body")).1.2 zero_msg (str_bytes "body")
    request_buf ∅) as (m' & req & H1 & _ & H2 & _ & _ & H3 & _ & _ & _ & _ & H4 & _);
    try go_eval; [discriminate|].
  exists m', req. split; [exact H1|]. split; [exact H2|]. split; [exact H3|]. rewrite H4. go_eval.
Defined.

(** A server's message after the request [req0], with a business error and an attachment. *)
Definition server0 : msg :=
  (msgWithRequestProtocol (WithFrameHead zero_msg (IFrameHead head1)) req0 (str_bytes "att"))
    <| serverRspErr := Some (Status ErrorTypeBusiness 7 "no" "") |>
    <| commonMeta := {[ServerAttachmentKey :=
         IAttachment (Some (MkReader [] EOF)) (Some (MkReader (str_bytes "bt") EOF))]} |>.
Definition server1 : msg := server0 <| commonMeta := ∅ |>.
Definition client1 : msg := client0 <| clientReqHead := IReq req0 |>.
Definition big : bytes := replicate 30 Byte.x01.

Lemma unary_response_roundtrip_witness :
  ∃ c', ClientDecode no_leftover client1
      (frame_of head1 (str_bytes "P") (str_bytes "body") (str_bytes "bt")) =
    (Ok (str_bytes "body"), c') ∧ msg_ClientRspErr c' = Some (New 7 "no").
Proof.
  destruct (unary_response_roundtrip limit no_leftover ∅ server0 client1 head1 (str_bytes "P")
    (str_bytes "body") (frame_of head1 (str_bytes "P") (str_bytes "body") (str_bytes "bt")) req0)
    as (_ & c' & H1 & _ & _ & _ & H2 & _);
    try go_eval; [apply head1_ok|discriminate|].
  exists c'. split; [exact H1|]. rewrite H2. go_eval.
Defined.

Lemma ServerEncode_too_large_witness :
  (ServerEncode limit ∅ server1 big).1.1 = Ok (frame_of head1 (str_bytes "E") [] []) ∧
  ∃ c', ClientDecode no_leftover client1 (frame_of head1 (str_bytes "E") [] []) = (Ok [], c') ∧
    msg_ClientRspErr c' =
    Some (Status ErrorTypeCalleeFramework 2 (Error e0) "trpc").
Proof.
  destruct (ServerEncode_too_large limit no_leftover ∅ server1 client1 head1 (str_bytes "Q")
    (str_bytes "E") big (frame_of head1 (str_bytes "E") [] []) e0 req0)
    as (H1 & c' & H2 & H3); try go_eval; try exact I; [apply head1_ok|left; go_eval|].
  split; [exact H1|]. exists c'. split; [exact H2|exact H3].
Defined.

Lemma ServerEncode_too_large_panics_witness :
  (ServerEncode limit ∅ server0 big).1.1 = Ok (frame_of head1 (str_bytes "F") [] []) ∧
  (ClientDecode no_leftover client1 (frame_of head1 (str_bytes "F") [] [])).1 = Panic.
Proof.
  apply (ServerEncode_too_large_panics limit no_leftover ∅ server0 client1 head1 (str_bytes "P")
    (str_bytes "F") big (frame_of head1 (str_bytes "F") [] []) e0 req0);
    try go_eval; [apply head1_ok|vm_compute; discriminate|left; go_eval].
Defined.

Lemma ClientDecode_request_id_witness :
  (ClientDecode no_leftover client1 (frame_of head1 (str_bytes "O") [] [])).1 =
  Err (errRequestId 2 1).
Proof.
  apply (ClientDecode_request_id limit no_leftover client1 head1 (str_bytes "O") []
    (frame_of head1 (str_bytes "O") [] []) rsp_other req0);
    try go_eval; first [apply head1_ok|discriminate|unfold is_u32; simpl; lia].
Defined.

Lemma request_ids_distinct_witness :
  msg_RequestID <$> encodes limit "p" "" 4294967295 [(client0, []); (client0, [])] = [0; 1]%Z.
Proof.
  apply (request_ids_distinct limit "p" "" 4294967295 [(client0, []); (client0, [])]).
  - repeat constructor; try (eexists; go_eval).
  - vm_compute. discriminate.
Defined.
End UnaryExamples.
