(* ===== verification/Ring.v ===== *)
(** The concurrent circular queue (internal/ring/ring.go).

    An operation is a thread whose local state is a program point of [pc]; one step of a
    thread is one atomic access to the shared ring (Go's atomics are sequentially
    consistent).  A run interleaves the steps of any number of operations.

    Sequence numbers: a counter of the model is the machine's uint32 counter before
    truncation, and every comparison, difference and slot index of the code is taken on
    the truncated values ([u32]).  The history of the values put, in the order in which the
    operations got their sequence numbers, is kept beside the ring.  The code compares counters modulo
    2^32 and does not see that one went around; the theorems are on the runs where none lags by 2^31
    ([windowed]), which every run of fewer than 2^31 operations is ([few_windowed]). *)

From S2P Require Import Prelude.

Section ring.
Context {V : Type}.
(** The zero value of the element type. *)
Variable zero : V.

(** ** Data *)

Record ringItem := MkItem { putSeq : Z; getSeq : Z; value : V }.
#[local] Instance eta_item : Eta ringItem := λ i, MkItem (putSeq i) (getSeq i) (value i).

Record Ring := MkRing { capacity : Z; head : Z; tail : Z; data : list ringItem }.
#[local] Instance eta_ring : Eta Ring := λ r, MkRing (capacity r) (head r) (tail r) (data r).

Definition mask (r : Ring) : Z := capacity r - 1.

(** [roundUpToPower2]: every assignment on a uint32. *)
Definition roundUpToPower2 (v : Z) : Z :=
  let v := u32 (v - 1) in
  let v := Z.lor v (Z.shiftr v 1) in
  let v := Z.lor v (Z.shiftr v 2) in
  let v := Z.lor v (Z.shiftr v 4) in
  let v := Z.lor v (Z.shiftr v 8) in
  let v := Z.lor v (Z.shiftr v 16) in
  u32 (v + 1).

Definition init_item (capacity i : Z) : ringItem :=
  if (i =? 0)%Z then MkItem capacity capacity zero else MkItem i i zero.

Definition New (cap : Z) : Ring :=
  let c := roundUpToPower2 cap in
  let c := if (c <? 2)%Z then 2%Z else c in
  MkRing c 0 0 (init_item c ∘ Z.of_nat <$> seq 0 (Z.to_nat c)).

Definition quantity (head tail : Z) : Z := u32 (u32 tail - u32 head).

Definition Cap (r : Ring) : Z := mask r.
Definition Size (r : Ring) : Z := quantity (head r) (tail r).
Definition IsEmpty (r : Ring) : bool := (u32 (head r) =? u32 (tail r))%Z.
Definition IsFull (r : Ring) : bool := (mask r <? u32 (u32 (u32 (tail r) + 1) - u32 (head r)))%Z.

(** The slot of a sequence number. *)
Definition index (r : Ring) (seq : Z) : nat := Z.to_nat (Z.land (u32 seq) (mask r)).

Definition item (r : Ring) (seq : Z) : ringItem :=
  default (MkItem 0 0 zero) (data r !! index r seq).

Definition set_item (r : Ring) (seq : Z) (i : ringItem) : Ring :=
  r <| data := <[index r seq := i]> (data r) |>.

(** ** Operations *)

(** The program points of [Put] ([acquirePutSequence] and [commit]) and of [Gets]
    ([acquireGetSequence] and [consume] for each element); [Get] is [Gets] for one
    element.  A point carries the local variables of the code that are still read. *)
Inductive pc : Type :=
| PutStart (v : V)
| PutHead (v : V) (head : Z)
| PutTail (v : V) (head tail : Z)
| CommitStart (v : V) (seq : Z)
| CommitGetSeq (v : V) (seq getSeq : Z)
| CommitWrite (v : V) (seq : Z)
| CommitAdd (v : V) (seq : Z)
| PutDone (full : bool)
| GetStart (ask : Z)
| GetHead (ask head : Z)
| GetTail (ask head tail : Z)
| ConsumeStart (head size remain : Z) (got : list V)
| ConsumeGetSeq (head size remain : Z) (got : list V) (getSeq : Z)
| ConsumeRead (head size remain : Z) (got : list V)
| ConsumeClear (head size remain : Z) (got : list V) (val : V)
| ConsumeAdd (head size remain : Z) (got : list V) (val : V)
| GetDone (head remain : Z) (got : list V).

(** The sequence number of the next element to consume. *)
Definition nextSeq (head : Z) (got : list V) : Z := head + 1 + zlen got.

(** One step of an operation: the ring, the history of puts, the next program point. *)
Definition step (r : Ring) (log : list V) (p : pc) : Ring * list V * pc :=
  match p with
  | PutStart v => (r, log, PutHead v (head r))
  | PutHead v h => (r, log, PutTail v h (tail r))
  | PutTail v h t =>
    if (mask r <? quantity h (t + 1))%Z then (r, log, PutDone true)
    else if (u32 (tail r) =? u32 t)%Z
    then (r <| tail := (tail r + 1)%Z |>, log ++ [v], CommitStart v (tail r + 1))
    else (r, log, PutStart v)
  | CommitStart v seq => (r, log, CommitGetSeq v seq (getSeq (item r seq)))
  | CommitGetSeq v seq g =>
    if (u32 seq =? u32 (putSeq (item r seq)))%Z && (u32 g =? u32 (putSeq (item r seq)))%Z
    then (r, log, CommitWrite v seq) else (r, log, CommitStart v seq)
  | CommitWrite v seq => (set_item r seq (item r seq <| value := v |>), log, CommitAdd v seq)
  | CommitAdd v seq =>
    (set_item r seq (item r seq <| putSeq := (putSeq (item r seq) + capacity r)%Z |>), log,
     PutDone false)
  | PutDone b => (r, log, PutDone b)
  | GetStart ask => (r, log, GetHead ask (head r))
  | GetHead ask h => (r, log, GetTail ask h (tail r))
  | GetTail ask h t =>
    let remain := quantity h t in
    if (remain <? 1)%Z then (r, log, GetDone h 0 [])
    else
      let size := if (ask <? remain)%Z then ask else remain in
      if (u32 (head r) =? u32 h)%Z
      then (r <| head := (head r + size)%Z |>, log,
            if (size =? 0)%Z then GetDone (head r) 0 []
            else ConsumeStart (head r) size (remain - size) [])
      else (r, log, GetStart ask)
  | ConsumeStart h n remain got =>
    (r, log, ConsumeGetSeq h n remain got (getSeq (item r (nextSeq h got))))
  | ConsumeGetSeq h n remain got g =>
    if (u32 (nextSeq h got) =? u32 g)%Z
       && (u32 g =? u32 (u32 (putSeq (item r (nextSeq h got))) - capacity r))%Z
    then (r, log, ConsumeRead h n remain got) else (r, log, ConsumeStart h n remain got)
  | ConsumeRead h n remain got =>
    (r, log, ConsumeClear h n remain got (value (item r (nextSeq h got))))
  | ConsumeClear h n remain got v =>
    (set_item r (nextSeq h got) (item r (nextSeq h got) <| value := zero |>), log,
     ConsumeAdd h n remain got v)
  | ConsumeAdd h n remain got v =>
    let seq := nextSeq h got in
    (set_item r seq (item r seq <| getSeq := (getSeq (item r seq) + capacity r)%Z |>), log,
     if (zlen got + 1 <? n)%Z then ConsumeStart h n remain (got ++ [v])
     else GetDone h remain (got ++ [v]))
  | GetDone h remain got => (r, log, GetDone h remain got)
  end.

(** Interleaving: the scheduler picks the operation that makes the next step. *)
Record config := MkConfig { ring : Ring; log : list V; ops : list pc }.

Definition cstep (i : nat) (c : config) : config :=
  match ops c !! i with
  | Some p =>
    let '(r, l, p') := step (ring c) (log c) p in MkConfig r l (<[i := p']> (ops c))
  | None => c
  end.

(** One operation alone, until it is done or the fuel is used up. *)
Fixpoint alone (fuel : nat) (r : Ring) (l : list V) (p : pc) : Ring * list V * pc :=
  match fuel with
  | O => (r, l, p)
  | S fuel =>
    match p with
    | PutDone _ | GetDone _ _ _ => (r, l, p)
    | _ => let '(r, l, p) := step r l p in alone fuel r l p
    end
  end.

(** ** Sequence numbers and slots *)

Lemma mod_gap a b c : (0 < c)%Z → (a mod c = b mod c)%Z → (a < b)%Z → (a + c ≤ b)%Z.
Proof.
  intros Hc Hm Hlt. pose proof (Z.div_mod a c ltac:(lia)). pose proof (Z.div_mod b c ltac:(lia)).
  assert (a / c < b / c)%Z by nia. nia.
Qed.

Lemma u32_eq a b : u32 a = u32 b → (a ≤ b)%Z → (b - a < 2 ^ 32)%Z → a = b.
Proof.
  unfold u32. intros Hm Hle Hlt. destruct (decide (a = b)) as [|Hne]; [done|].
  pose proof (mod_gap a b (2 ^ 32) ltac:(lia) Hm ltac:(lia)). lia.
Qed.

(** The static shape of a ring: the capacity is a power of two between 2 and 2^31. *)
Definition sized (r : Ring) : Prop :=
  (∃ k, (1 ≤ k ≤ 31)%Z ∧ capacity r = (2 ^ k)%Z) ∧ length (data r) = Z.to_nat (capacity r).

Lemma sized_capacity r : sized r → (2 ≤ capacity r ≤ 2 ^ 31)%Z.
Proof.
  intros [(k & Hk & ->) _]. split.
  - change 2%Z with (2 ^ 1)%Z at 1. apply Z.pow_le_mono_r; lia.
  - apply Z.pow_le_mono_r; lia.
Qed.

Lemma index_mod r n : sized r → index r n = Z.to_nat (n mod capacity r).
Proof.
  intros [(k & Hk & Hc) _]. unfold index, mask. rewrite Hc, Z.sub_1_r.
  rewrite <- Z.ones_equiv, Z.land_ones by lia. f_equal. unfold u32.
  replace (2 ^ 32)%Z with (2 ^ k * 2 ^ (32 - k))%Z by (rewrite <- Z.pow_add_r by lia; f_equal; lia).
  assert (0 < 2 ^ k)%Z by (apply Z.pow_pos_nonneg; lia).
  assert (0 < 2 ^ (32 - k))%Z by (apply Z.pow_pos_nonneg; lia).
  rewrite Z.rem_mul_r by lia. rewrite Z.mul_comm, Z.mod_add by lia. by apply Z.mod_mod; lia.
Qed.

Lemma index_lt r n : sized r → index r n < length (data r).
Proof.
  intros Hs. rewrite index_mod by done. pose proof (sized_capacity r Hs).
  destruct Hs as [_ ->]. pose proof (Z.mod_pos_bound n (capacity r)). lia.
Qed.

(** Writing a slot and reading any slot. *)
Lemma item_set r n s m :
  sized r →
  item (set_item r n s) m = if decide (n mod capacity r = m mod capacity r)%Z then s else item r m.
Proof.
  intros Hs. pose proof (sized_capacity r Hs) as Hc. unfold item, set_item.
  assert (index (r <| data := <[index r n := s]> (data r) |>) m = index r m) as -> by done.
  simpl. case_decide as Hm.
  - rewrite (index_mod r m), <- Hm, <- (index_mod r n) by done.
    by rewrite list_lookup_insert_eq by by apply index_lt.
  - rewrite list_lookup_insert_ne; [done|]. rewrite !index_mod by done.
    pose proof (Z.mod_pos_bound n (capacity r)). pose proof (Z.mod_pos_bound m (capacity r)). lia.
Qed.

Lemma sized_set r n s : sized r → sized (set_item r n s).
Proof. intros [Hk Hl]. split; [done|]. unfold set_item. simpl. by rewrite length_insert. Qed.

(** ** What the operations rely on *)

Definition log_at (l : list V) (n : Z) : option V := l !! Z.to_nat (n - 1).

(** The sequence number an operation has to put, and those it has taken. *)
Definition put_seq (p : pc) : option Z :=
  match p with
  | CommitStart _ n | CommitGetSeq _ n _ | CommitWrite _ n | CommitAdd _ n => Some n
  | _ => None
  end.

Definition taken (p : pc) : option (Z * Z) :=
  match p with
  | ConsumeStart h n _ _ | ConsumeGetSeq h n _ _ _ | ConsumeRead h n _ _
  | ConsumeClear h n _ _ _ | ConsumeAdd h n _ _ _ => Some (h, h + n)%Z
  | GetDone h _ got => Some (h, h + zlen got)%Z
  | _ => None
  end.

(** An operation has cleared the value of slot [n] but not yet released the slot. *)
Definition clears (p : pc) (n : Z) : Prop :=
  match p with ConsumeAdd h _ _ got _ => nextSeq h got = n | _ => False end.

Definition consuming (r : Ring) (l : list V) (h n : Z) (got : list V) : Prop :=
  (0 ≤ h ∧ h + n ≤ head r ∧ zlen got < n)%Z ∧
  got = take (length got) (drop (Z.to_nat h) l) ∧
  ∀ m, (nextSeq h got ≤ m ≤ h + n)%Z → (getSeq (item r m) ≤ m)%Z.

(** The slot of [n] is ready to be read: the code's test of [consume] holds. *)
Definition readable (r : Ring) (n : Z) : Prop :=
  getSeq (item r n) = n ∧ putSeq (item r n) = (n + capacity r)%Z.

Definition committing (r : Ring) (l : list V) (v : V) (n : Z) : Prop :=
  (1 ≤ n ≤ tail r)%Z ∧ log_at l n = Some v ∧ (putSeq (item r n) ≤ n)%Z.

Definition writable (r : Ring) (n : Z) : Prop :=
  putSeq (item r n) = n ∧ getSeq (item r n) = n.

Definition op_ok (r : Ring) (l : list V) (p : pc) : Prop :=
  match p with
  | PutStart _ | PutDone _ | GetStart _ => True
  | PutHead _ h | GetHead _ h => (0 ≤ h ≤ head r)%Z
  | PutTail _ h t | GetTail _ h t => (0 ≤ h ≤ head r ∧ h ≤ t ≤ tail r)%Z
  | CommitStart v n => committing r l v n
  | CommitGetSeq v n g => committing r l v n ∧ (g ≤ getSeq (item r n))%Z
  | CommitWrite v n => committing r l v n ∧ writable r n
  | CommitAdd v n => committing r l v n ∧ writable r n ∧ value (item r n) = v
  | ConsumeStart h n _ got => consuming r l h n got
  | ConsumeGetSeq h n _ got g =>
    consuming r l h n got ∧ (g ≤ getSeq (item r (nextSeq h got)))%Z
  | ConsumeRead h n _ got => consuming r l h n got ∧ readable r (nextSeq h got)
  | ConsumeClear h n _ got v | ConsumeAdd h n _ got v =>
    consuming r l h n got ∧ readable r (nextSeq h got) ∧ log_at l (nextSeq h got) = Some v
  | GetDone h _ got =>
    (0 ≤ h ∧ h + zlen got ≤ head r)%Z ∧ got = take (length got) (drop (Z.to_nat h) l)
  end.

(** The slot of [n]; [ps] are the operations. *)
Definition slot_ok (r : Ring) (l : list V) (ps : list pc) (n : Z) : Prop :=
  let s := item r n in
  (putSeq s mod capacity r = n mod capacity r)%Z ∧ (1 ≤ getSeq s)%Z ∧
  (putSeq s = getSeq s ∨ putSeq s = getSeq s + capacity r)%Z ∧
  (getSeq s ≤ head r + capacity r)%Z ∧ (putSeq s ≤ tail r + capacity r)%Z ∧
  (putSeq s = getSeq s + capacity r →
   log_at l (getSeq s) = Some (value s) ∨ ∃ i p, ps !! i = Some p ∧ clears p (getSeq s))%Z.

(** No two operations have the same sequence number to put, or have taken overlapping
    ranges. *)
Definition puts_disjoint (ps : list pc) : Prop := ∀ i j p q n,
  i ≠ j → ps !! i = Some p → ps !! j = Some q → put_seq p = Some n → put_seq q ≠ Some n.

Definition disjoint (x y : Z * Z) : Prop := (x.2 ≤ y.1 ∨ y.2 ≤ x.1 ∨ x.2 ≤ x.1 ∨ y.2 ≤ y.1)%Z.

Definition taken_disjoint (ps : list pc) : Prop := ∀ i j p q x y,
  i ≠ j → ps !! i = Some p → ps !! j = Some q → taken p = Some x → taken q = Some y →
  disjoint x y.

Record inv (c : config) : Prop := {
  inv_sized : sized (ring c);
  inv_counters : (0 ≤ head (ring c) ≤ tail (ring c))%Z ∧
    (tail (ring c) < head (ring c) + capacity (ring c))%Z ∧ zlen (log c) = tail (ring c);
  inv_slots : ∀ n, slot_ok (ring c) (log c) (ops c) n;
  inv_ops : ∀ i p, ops c !! i = Some p → op_ok (ring c) (log c) p;
  inv_put : puts_disjoint (ops c);
  inv_taken : taken_disjoint (ops c)
}.

(** No slot and no operation lags behind by 2^32 sequence numbers, so that equal
    truncated counters are equal. *)
Definition loaded (p : pc) : list Z :=
  match p with
  | PutTail _ h t | GetTail _ h t => [h; t]
  | CommitGetSeq _ _ g | ConsumeGetSeq _ _ _ _ g => [g]
  | _ => []
  end.

Definition window (c : config) : Prop :=
  (∀ n, tail (ring c) - getSeq (item (ring c) n) < 2 ^ 31)%Z ∧
  ∀ i p x, ops c !! i = Some p → x ∈ loaded p → (tail (ring c) - x < 2 ^ 31)%Z.

(** ** Frame lemmas *)

Lemma take_drop_prefix (l l' got : list V) h :
  l `prefix_of` l' → (0 ≤ h)%Z → (h + zlen got ≤ zlen l)%Z →
  got = take (length got) (drop (Z.to_nat h) l) →
  got = take (length got) (drop (Z.to_nat h) l').
Proof.
  intros [k ->] Hh Hle Hg. rewrite drop_app_le by (unfold zlen in *; lia).
  rewrite take_app_le; [done|]. rewrite length_drop. unfold zlen in *. lia.
Qed.

Lemma log_at_prefix (l l' : list V) n v :
  l `prefix_of` l' → log_at l n = Some v → log_at l' n = Some v.
Proof. intros Hp Hl. unfold log_at in *. by eapply prefix_lookup_Some. Qed.

(** The counters grow and the history is extended; the slots stay. *)
Lemma op_ok_grow r r' l l' q :
  (∀ m, item r' m = item r m) → capacity r' = capacity r →
  (head r ≤ head r')%Z → (tail r ≤ tail r')%Z → l `prefix_of` l' → (head r ≤ zlen l)%Z →
  op_ok r l q → op_ok r' l' q.
Proof.
  intros Hi Hc Hh Ht Hl Hz.
  assert (∀ v n, committing r l v n → committing r' l' v n) as Hco.
  { intros v n (? & Hla & ?). unfold committing. rewrite Hi. split_and!; try lia.
    by eapply log_at_prefix. }
  assert (∀ h n got, consuming r l h n got → consuming r' l' h n got) as Hcs.
  { intros h n got (? & Hg & Hm). unfold consuming. split_and!; try lia.
    - eapply take_drop_prefix; [done|lia|lia|done].
    - intros m Hr. rewrite Hi. auto. }
  destruct q; simpl; unfold writable, readable; rewrite ?Hi, ?Hc; intros;
    repeat match goal with H : _ ∧ _ |- _ => destruct H end;
    split_and?; eauto using log_at_prefix; try lia.
  eapply take_drop_prefix; [done|lia|lia|done].
Qed.

(** The slot that an operation in its critical section works on. *)
Definition crit (p : pc) : option Z :=
  match p with
  | CommitWrite _ n | CommitAdd _ n => Some n
  | ConsumeRead h _ _ got | ConsumeClear h _ _ got _ | ConsumeAdd h _ _ got _ =>
    Some (nextSeq h got)
  | _ => None
  end.

(** The sequence numbers that an operation has taken and still has to read. *)
Definition remaining (p : pc) : option (Z * Z) :=
  match p with
  | ConsumeStart h n _ got | ConsumeGetSeq h n _ got _ | ConsumeRead h n _ got
  | ConsumeClear h n _ got _ | ConsumeAdd h n _ got _ => Some (nextSeq h got, h + n)%Z
  | _ => None
  end.

(** A write to the slot of [n] does not disturb another operation [q]. *)
Lemma op_ok_set r l n s q :
  sized r → op_ok r l q → (getSeq (item r n) ≤ getSeq s)%Z →
  (∀ m, put_seq q = Some m → n mod capacity r = m mod capacity r → putSeq s ≤ m)%Z →
  (∀ a b m, remaining q = Some (a, b) → a ≤ m ≤ b → n mod capacity r = m mod capacity r →
     getSeq s ≤ m)%Z →
  (∀ m, crit q = Some m → n mod capacity r ≠ m mod capacity r)%Z →
  op_ok (set_item r n s) l q.
Proof.
  intros Hs Hok Hg Hp Hr Hcr.
  assert (∀ v m, put_seq q = Some m → committing r l v m → committing (set_item r n s) l v m) as Hco.
  { intros v m Hq (Hr1 & ? & ?). split; [exact Hr1|]. split; [done|].
    rewrite item_set by done. case_decide; eauto. }
  assert (∀ h k got, remaining q = Some (nextSeq h got, h + k)%Z →
    consuming r l h k got → consuming (set_item r n s) l h k got) as Hcs.
  { intros h k got Hq (Hr1 & ? & Hm). split; [exact Hr1|]. split; [done|]. intros m Hrg.
    rewrite item_set by done. case_decide; eauto. }
  assert (∀ m, crit q = Some m → item (set_item r n s) m = item r m) as Hit.
  { intros m Hm. rewrite item_set by done. rewrite decide_False; [done|]. eauto. }
  assert (∀ m g, (g ≤ getSeq (item r m))%Z → (g ≤ getSeq (item (set_item r n s) m))%Z) as Hge.
  { intros m g Hle. rewrite item_set by done. case_decide as Hm; [|done].
    assert (item r m = item r n) as Heq; [|rewrite Heq in Hle; lia].
    unfold item. by rewrite !index_mod, Hm by done. }
  destruct q; simpl in *; unfold writable, readable in *; rewrite ?Hit by done;
    repeat match goal with H : _ ∧ _ |- _ => destruct H end; split_and?; eauto.
Qed.

(** Two operations are never in their critical sections on one slot. *)
Lemma crit_exclusive c i j p q n m :
  inv c → i ≠ j → ops c !! i = Some p → ops c !! j = Some q →
  crit p = Some n → crit q = Some m → (n mod capacity (ring c) ≠ m mod capacity (ring c))%Z.
Proof.
  intros Hinv Hij Hp Hq Hn Hm Heq.
  pose proof (inv_ops _ Hinv _ _ Hp) as Op. pose proof (inv_ops _ Hinv _ _ Hq) as Oq.
  pose proof (sized_capacity _ (inv_sized _ Hinv)).
  assert (item (ring c) n = item (ring c) m) as Hit.
  { unfold item. rewrite !index_mod, Heq by apply Hinv. done. }
  pose proof (inv_put _ Hinv i j p q n Hij Hp Hq) as Hput.
  pose proof (λ x y, inv_taken _ Hinv i j p q x y Hij Hp Hq) as Htk. unfold disjoint in Htk.
  destruct p, q; simpl in *; simplify_eq; unfold writable, readable, consuming in *; destruct_and?;
    rewrite Hit in *.
  all: first
    [ apply Hput; [done|f_equal; congruence]
    | specialize (Htk _ _ eq_refl eq_refl); simpl in Htk; unfold nextSeq in *;
      repeat match goal with H : context [zlen ?x] |- _ =>
        lazymatch goal with G : (0 ≤ zlen x)%Z |- _ => fail | _ => pose proof (zlen_nonneg x) end end;
      lia
    | lia ].
Qed.

(** ** Preservation *)

Lemma puts_update ps i p p' :
  puts_disjoint ps → ps !! i = Some p →
  (∀ n, put_seq p' = Some n → put_seq p = Some n ∨
     ∀ j q, ps !! j = Some q → put_seq q ≠ Some n) →
  puts_disjoint (<[i:=p']> ps).
Proof.
  intros Hd Hp Hn j k q q' n Hjk Hq Hq' H1 H2.
  apply list_lookup_insert_Some in Hq, Hq'.
  destruct Hq as [(<- & <- & _)|[Hj Hq]], Hq' as [(<- & <- & _)|[Hk Hq']]; try done.
  - destruct (Hn n H1) as [Hs|Hs]; [by apply (Hd i k p q' n)|by apply (Hs k q')].
  - destruct (Hn n H2) as [Hs|Hs]; [by apply (Hd i j p q n); auto|by apply (Hs j q)].
  - by apply (Hd j k q q' n).
Qed.

Lemma taken_update ps i p p' :
  taken_disjoint ps → ps !! i = Some p →
  (∀ x, taken p' = Some x → taken p = Some x ∨
     ∀ j q y, ps !! j = Some q → taken q = Some y → disjoint x y) →
  taken_disjoint (<[i:=p']> ps).
Proof.
  intros Hd Hp Hn j k q q' x y Hjk Hq Hq' H1 H2.
  apply list_lookup_insert_Some in Hq, Hq'.
  destruct Hq as [(<- & <- & _)|[Hj Hq]], Hq' as [(<- & <- & _)|[Hk Hq']]; try done.
  - destruct (Hn x H1) as [Hs|Hs]; [by apply (Hd i k p q' x y)|by apply (Hs k q')].
  - destruct (Hn y H2) as [Hs|Hs]; [by apply (Hd j i q p x y)|].
    specialize (Hs j q x Hq H1). unfold disjoint in *. lia.
  - by apply (Hd j k q q' x y).
Qed.

Lemma slot_ok_update r l ps i p p' n :
  slot_ok r l ps n → ps !! i = Some p → ¬ clears p (getSeq (item r n)) →
  slot_ok r l (<[i:=p']> ps) n.
Proof.
  intros (? & ? & ? & ? & ? & Hv) Hp Hc. unfold slot_ok. split_and!; try done.
  intros He. destruct (Hv He) as [?|(j & q & Hq & Hcl)]; [by left|]. right. exists j, q.
  split; [|done]. rewrite list_lookup_insert_ne; [done|]. intros ->. by simplify_eq.
Qed.

(** A step that changes only the local state of the operation. *)
Lemma inv_local c i p p' :
  inv c → ops c !! i = Some p → op_ok (ring c) (log c) p' →
  (∀ n, ¬ clears p n) →
  (put_seq p' = put_seq p ∨ put_seq p' = None) →
  (taken p' = taken p ∨ ∀ x, taken p' = Some x → x.2 ≤ x.1)%Z →
  inv (MkConfig (ring c) (log c) (<[i:=p']> (ops c))).
Proof.
  intros Hinv Hp Hok Hcl Hps Htk. split; simpl; try apply Hinv.
  - intros n. eapply slot_ok_update; [apply Hinv|done|apply Hcl].
  - intros j q [(<- & <- & _)|[Hj Hq]]%list_lookup_insert_Some; [done|by eapply inv_ops].
  - eapply puts_update; [apply Hinv|done|]. intros n Hn. left. destruct Hps; congruence.
  - eapply taken_update; [apply Hinv|done|]. intros x Hx. destruct Htk as [Htk|Htk].
    + left. congruence.
    + right. intros j q y _ _. unfold disjoint. specialize (Htk x Hx). lia.
Qed.

(** A write to a slot. *)
Lemma inv_write c i p p' n s :
  inv c → ops c !! i = Some p → crit p = Some n →
  op_ok (set_item (ring c) n s) (log c) p' →
  (getSeq (item (ring c) n) ≤ getSeq s)%Z →
  slot_ok (set_item (ring c) n s) (log c) (<[i:=p']> (ops c)) n →
  (∀ m, m mod capacity (ring c) ≠ n mod capacity (ring c) → ¬ clears p (getSeq (item (ring c) m)))%Z →
  (∀ j q m, i ≠ j → ops c !! j = Some q → put_seq q = Some m →
     n mod capacity (ring c) = m mod capacity (ring c) → putSeq s ≤ m)%Z →
  (∀ j q a b m, i ≠ j → ops c !! j = Some q → remaining q = Some (a, b) → a ≤ m ≤ b →
     n mod capacity (ring c) = m mod capacity (ring c) → getSeq s ≤ m)%Z →
  (put_seq p' = put_seq p ∨ put_seq p' = None) →
  taken p' = taken p →
  inv (MkConfig (set_item (ring c) n s) (log c) (<[i:=p']> (ops c))).
Proof.
  intros Hinv Hp Hcr Hok Hg Hs Hcl Hput Hrem Hps Htk.
  pose proof (inv_sized _ Hinv) as Hsz. split; simpl; try apply Hinv.
  - by apply sized_set.
  - intros m. destruct (decide (m mod capacity (ring c) = n mod capacity (ring c))%Z) as [Hm|Hm].
    + unfold slot_ok in *. rewrite !item_set in * by done.
      rewrite decide_True in Hs by done. rewrite decide_True by done. simpl in *.
      by rewrite Hm.
    + pose proof (slot_ok_update _ _ _ i p p' m (inv_slots _ Hinv m) Hp (Hcl m Hm)) as Hsm.
      unfold slot_ok in *. rewrite !item_set by done. rewrite decide_False by congruence. exact Hsm.
  - intros j q [(<- & <- & _)|[Hj Hq]]%list_lookup_insert_Some; [done|].
    apply op_ok_set; [done|by eapply inv_ops|done|intros; by eapply Hput|intros; by eapply Hrem|].
    intros m Hm. by eapply (crit_exclusive c i j p q).
  - eapply puts_update; [apply Hinv|done|]. intros m Hn. left. destruct Hps; congruence.
  - eapply taken_update; [apply Hinv|done|]. intros x Hx. left. congruence.
Qed.

Lemma quantity_small a b : (0 ≤ b - a < 2 ^ 32)%Z → quantity a b = (b - a)%Z.
Proof.
  intros. unfold quantity, u32. rewrite Zminus_mod_idemp_r, Zminus_mod_idemp_l.
  apply Z.mod_small. lia.
Qed.

Lemma slot_ok_grow r r' l l' ps n :
  (∀ m, item r' m = item r m) → capacity r' = capacity r →
  (head r ≤ head r')%Z → (tail r ≤ tail r')%Z → l `prefix_of` l' →
  slot_ok r l ps n → slot_ok r' l' ps n.
Proof.
  intros Hi Hc Hh Ht Hl (? & ? & ? & ? & ? & Hv). unfold slot_ok. rewrite Hi, Hc.
  split_and!; try done; try lia. intros He. destruct (Hv He) as [?|?]; [|by right].
  left. by eapply log_at_prefix.
Qed.

(** No operation owns a sequence number that was not handed out yet. *)
Lemma put_seq_bound c j q n :
  inv c → ops c !! j = Some q → put_seq q = Some n → (1 ≤ n ≤ tail (ring c))%Z.
Proof.
  intros Hinv Hq Hn. pose proof (inv_ops _ Hinv _ _ Hq) as Ho.
  destruct q; simpl in *; simplify_eq; unfold committing in Ho; lia.
Qed.

Lemma taken_bound c j q x :
  inv c → ops c !! j = Some q → taken q = Some x → (0 ≤ x.1 ∧ x.2 ≤ head (ring c))%Z.
Proof.
  intros Hinv Hq Hn. pose proof (inv_ops _ Hinv _ _ Hq) as Ho.
  destruct q; simpl in *; simplify_eq; simpl; unfold consuming in Ho; destruct_and?; lia.
Qed.

(** Slots of sequence numbers that are not handed out yet lag behind them. *)
Lemma slot_behind_put c n :
  inv c → (tail (ring c) < n)%Z → (putSeq (item (ring c) n) ≤ n)%Z.
Proof.
  intros Hinv Hn. destruct (inv_slots _ Hinv n) as (Hm & _ & _ & _ & Hle & _).
  pose proof (sized_capacity _ (inv_sized _ Hinv)).
  destruct (decide (n < putSeq (item (ring c) n))%Z) as [Hlt|]; [|lia].
  symmetry in Hm. pose proof (mod_gap _ _ (capacity (ring c)) ltac:(lia) Hm Hlt). lia.
Qed.

Lemma slot_behind_get c n :
  inv c → (head (ring c) < n)%Z → (getSeq (item (ring c) n) ≤ n)%Z.
Proof.
  intros Hinv Hn. destruct (inv_slots _ Hinv n) as (Hm & _ & Hpg & Hle & _ & _).
  pose proof (sized_capacity _ (inv_sized _ Hinv)).
  destruct (decide (n < getSeq (item (ring c) n))%Z) as [Hlt|]; [|lia].
  assert (getSeq (item (ring c) n) mod capacity (ring c) = n mod capacity (ring c))%Z as Hg.
  { destruct Hpg as [<-|Hpg]; [done|]. rewrite <- Hm, Hpg.
    replace (getSeq (item (ring c) n) + capacity (ring c))%Z
      with (getSeq (item (ring c) n) + 1 * capacity (ring c))%Z by lia.
    by rewrite Z.mod_add by lia. }
  symmetry in Hg. pose proof (mod_gap _ _ (capacity (ring c)) ltac:(lia) Hg Hlt). lia.
Qed.

Lemma step_put_cas c i v h t :
  inv c → window c → ops c !! i = Some (PutTail v h t) →
  (quantity h (t + 1) ≤ mask (ring c))%Z → u32 (tail (ring c)) = u32 t →
  inv (MkConfig (ring c <| tail := (tail (ring c) + 1)%Z |>) (log c ++ [v])
         (<[i:=CommitStart v (tail (ring c) + 1)]> (ops c))).
Proof.
  intros Hinv [_ Hw] Hp Hfull Hcas.
  pose proof (inv_ops _ Hinv _ _ Hp) as (Hh & Ht).
  destruct (inv_counters _ Hinv) as (Hc1 & Hc2 & Hc3).
  pose proof (Hw _ _ t Hp ltac:(simpl; set_solver)) as Wt.
  pose proof (Hw _ _ h Hp ltac:(simpl; set_solver)) as Wh.
  symmetry in Hcas. apply u32_eq in Hcas; [|lia..]. subst t.
  rewrite quantity_small in Hfull by lia. unfold mask in Hfull.
  set (r' := ring c <| tail := (tail (ring c) + 1)%Z |>).
  assert (∀ m, item r' m = item (ring c) m) as Hi by done.
  assert (log c `prefix_of` log c ++ [v]) as Hpre by by exists [v].
  split; simpl.
  - apply Hinv.
  - rewrite zlen_app. change (zlen [v]) with 1%Z. lia.
  - intros n. eapply slot_ok_update; [|exact Hp|intros []].
    eapply slot_ok_grow; [done|done|simpl; lia|simpl; lia|done|apply Hinv].
  - intros j q [(<- & <- & _)|[Hj Hq]]%list_lookup_insert_Some.
    + simpl. split_and!; simpl; try lia.
      * unfold log_at. replace (Z.to_nat (tail (ring c) + 1 - 1)) with (length (log c))
          by (unfold zlen in *; lia). apply list_lookup_middle. done.
      * apply slot_behind_put; [done|lia].
    + eapply (op_ok_grow (ring c)); [done|done|simpl; lia|simpl; lia|done|lia|].
      by eapply inv_ops.
  - eapply puts_update; [apply Hinv|done|]. intros n Hn. right. intros j q Hq Hq2.
    simpl in Hn. simplify_eq. pose proof (put_seq_bound _ _ _ _ Hinv Hq Hq2). lia.
  - eapply taken_update; [apply Hinv|done|]. done.
Qed.

Lemma step_get_cas c i ask h t size :
  inv c → window c → ops c !! i = Some (GetTail ask h t) → (0 ≤ ask)%Z →
  u32 (head (ring c)) = u32 h → (0 < size ≤ quantity h t)%Z →
  inv (MkConfig (ring c <| head := (head (ring c) + size)%Z |>) (log c)
         (<[i:=ConsumeStart (head (ring c)) size (quantity h t - size) []]> (ops c))).
Proof.
  intros Hinv [_ Hw] Hp Hask Hcas Hsize.
  pose proof (inv_ops _ Hinv _ _ Hp) as (Hh & Ht).
  destruct (inv_counters _ Hinv) as (Hc1 & Hc2 & Hc3).
  pose proof (Hw _ _ h Hp ltac:(simpl; set_solver)) as Wh.
  symmetry in Hcas. apply u32_eq in Hcas; [|lia..]. subst h.
  rewrite quantity_small in Hsize by lia.
  set (r' := ring c <| head := (head (ring c) + size)%Z |>).
  assert (∀ m, item r' m = item (ring c) m) as Hi by done.
  split; simpl.
  - apply Hinv.
  - lia.
  - intros n. eapply slot_ok_update; [|exact Hp|intros []].
    eapply slot_ok_grow; [done|done|simpl; lia|simpl; lia|done|apply Hinv].
  - intros j q [(<- & <- & _)|[Hj Hq]]%list_lookup_insert_Some.
    + simpl. split_and!; try done; simpl; try lia.
      * rewrite zlen_nil. lia.
      * unfold nextSeq. rewrite zlen_nil. intros m Hm. apply slot_behind_get; [done|lia].
    + eapply (op_ok_grow (ring c)); [done|done|simpl; lia|simpl; lia|done|lia|].
      by eapply inv_ops.
  - eapply puts_update; [apply Hinv|done|]. done.
  - eapply taken_update; [apply Hinv|done|]. intros x Hx. right. intros j q y Hq Hy.
    simpl in Hx. simplify_eq. pose proof (taken_bound _ _ _ _ Hinv Hq Hy).
    unfold disjoint. simpl. lia.
Qed.

(** The test of [commit] holds only if the slot is empty and it is this operation's turn. *)
Lemma commit_ready c i v n g :
  inv c → window c → ops c !! i = Some (CommitGetSeq v n g) →
  u32 n = u32 (putSeq (item (ring c) n)) → u32 g = u32 (putSeq (item (ring c) n)) →
  writable (ring c) n.
Proof.
  intros Hinv [Hw1 Hw2] Hp H1 H2. pose proof (inv_ops _ Hinv _ _ Hp) as [(Hn & _ & Hle) Hg].
  pose proof (Hw2 _ _ g Hp ltac:(simpl; set_solver)) as Wg. pose proof (Hw1 n) as Wn.
  destruct (inv_slots _ Hinv n) as (_ & _ & Hpg & _).
  pose proof (sized_capacity _ (inv_sized _ Hinv)).
  symmetry in H1. apply u32_eq in H1; [|lia..].
  rewrite H1 in *. apply u32_eq in H2; [|lia..]. unfold writable. lia.
Qed.

Lemma consume_ready c i h k rem got g :
  inv c → window c → ops c !! i = Some (ConsumeGetSeq h k rem got g) →
  u32 (nextSeq h got) = u32 g →
  u32 g = u32 (u32 (putSeq (item (ring c) (nextSeq h got))) - capacity (ring c)) →
  readable (ring c) (nextSeq h got).
Proof.
  intros Hinv [Hw1 Hw2] Hp H1 H2. pose proof (inv_ops _ Hinv _ _ Hp) as [(Hn & _ & Hle) Hg].
  pose proof (Hw2 _ _ g Hp ltac:(simpl; set_solver)) as Wg.
  destruct (inv_counters _ Hinv) as (Hc1 & _).
  specialize (Hle (nextSeq h got)). unfold nextSeq in *. set (n := (h + 1 + zlen got)%Z) in *.
  specialize (Hle ltac:(lia)).
  destruct (inv_slots _ Hinv n) as (_ & _ & Hpg & _).
  pose proof (sized_capacity _ (inv_sized _ Hinv)) as Hcap.
  symmetry in H1. apply u32_eq in H1; [|lia..]. subst g.
  assert (getSeq (item (ring c) n) = n) as Hgn by lia. split; [done|].
  destruct Hpg as [Hpg|Hpg]; [|lia]. exfalso. rewrite Hpg, Hgn in H2.
  assert (u32 (n - capacity (ring c)) = u32 n) as H3.
  { rewrite H2. unfold u32. by rewrite Zminus_mod_idemp_l. }
  apply u32_eq in H3; lia.
Qed.

Lemma item_mod r n m :
  sized r → (n mod capacity r = m mod capacity r)%Z → item r n = item r m.
Proof. intros Hs Hm. unfold item. by rewrite !index_mod, Hm by done. Qed.

Lemma item_set_same r n s : sized r → item (set_item r n s) n = s.
Proof. intros Hs. rewrite item_set by done. by rewrite decide_True. Qed.

Lemma step_commit_write c i v n :
  inv c → ops c !! i = Some (CommitWrite v n) →
  inv (MkConfig (set_item (ring c) n (item (ring c) n <| value := v |>)) (log c)
         (<[i:=CommitAdd v n]> (ops c))).
Proof.
  intros Hinv Hp. pose proof (inv_ops _ Hinv _ _ Hp) as [(Hn & Hl & Hle) [HP HG]].
  pose proof (inv_sized _ Hinv) as Hsz. pose proof (sized_capacity _ Hsz).
  eapply inv_write; try done; try (by left); simpl.
  - unfold committing, writable. rewrite item_set_same by done. simpl. split_and!; try done; lia.
  - unfold slot_ok. rewrite item_set_same by done. simpl.
    destruct (inv_slots _ Hinv n) as (? & ? & ? & ? & ? & _). split_and!; try done. lia.
  - by intros m _ [].
  - intros j q m Hij Hq Hs Hm. pose proof (inv_ops _ Hinv _ _ Hq) as Hok.
    assert (item (ring c) n = item (ring c) m) as -> by (by apply item_mod).
    destruct q; simpl in *; simplify_eq; unfold committing in Hok; destruct_and?; lia.
  - intros j q a b m Hij Hq Hs Hab Hm. pose proof (inv_ops _ Hinv _ _ Hq) as Hok.
    assert (item (ring c) n = item (ring c) m) as -> by (by apply item_mod).
    destruct q; simpl in *; simplify_eq; unfold consuming in Hok; destruct_and?; auto.
Qed.

Lemma step_commit_add c i v n :
  inv c → ops c !! i = Some (CommitAdd v n) →
  inv (MkConfig (set_item (ring c) n (item (ring c) n <| putSeq :=
           (putSeq (item (ring c) n) + capacity (ring c))%Z |>)) (log c)
         (<[i:=PutDone false]> (ops c))).
Proof.
  intros Hinv Hp. pose proof (inv_ops _ Hinv _ _ Hp) as [(Hn & Hl & Hle) [[HP HG] Hv]].
  pose proof (inv_sized _ Hinv) as Hsz. pose proof (sized_capacity _ Hsz).
  eapply inv_write; try done; try (by right); simpl.
  - unfold slot_ok. rewrite item_set_same by done. simpl.
    destruct (inv_slots _ Hinv n) as (? & ? & ? & ? & ? & _). rewrite HP, HG in *.
    split_and!; try done; try lia; [|intros _; left; by rewrite Hv].
    replace (n + capacity (ring c))%Z with (n + 1 * capacity (ring c))%Z by lia.
    by rewrite Z.mod_add by lia.
  - by intros m _ [].
  - intros j q m Hij Hq Hs Hm. rewrite HP. apply mod_gap; [lia|done|].
    assert (n ≠ m) as Hne.
    { intros ->. by apply (inv_put _ Hinv i j _ q m Hij Hp Hq). }
    pose proof (inv_ops _ Hinv _ _ Hq) as Hok.
    assert (item (ring c) n = item (ring c) m) as He by (by apply item_mod).
    rewrite He in HP. destruct q; simpl in *; simplify_eq; unfold committing in Hok; destruct_and?; lia.
  - intros j q a b m Hij Hq Hs Hab Hm. pose proof (inv_ops _ Hinv _ _ Hq) as Hok.
    assert (item (ring c) n = item (ring c) m) as -> by (by apply item_mod).
    destruct q; simpl in *; simplify_eq; unfold consuming in Hok; destruct_and?; auto.
Qed.

Lemma step_consume_clear c i h k rem got v :
  inv c → ops c !! i = Some (ConsumeClear h k rem got v) →
  let n := nextSeq h got in
  inv (MkConfig (set_item (ring c) n (item (ring c) n <| value := zero |>)) (log c)
         (<[i:=ConsumeAdd h k rem got v]> (ops c))).
Proof.
  intros Hinv Hp n. pose proof (inv_ops _ Hinv _ _ Hp) as [(Hn & Hl & Hle) [[HG HP] Hv]].
  pose proof (inv_sized _ Hinv) as Hsz. pose proof (sized_capacity _ Hsz).
  fold n in Hle, HG, HP, Hv.
  eapply (inv_write c i _ _ n); try done; try (by left); simpl.
  - unfold consuming, readable. fold n. rewrite item_set_same by done. simpl.
    split_and!; try done; try lia. intros m Hm. rewrite item_set by done.
    case_decide; [|auto]. simpl. fold n in Hm. lia.
  - unfold slot_ok. rewrite item_set_same by done. simpl.
    destruct (inv_slots _ Hinv n) as (? & ? & ? & ? & ? & _). split_and!; try done.
    intros _. right. exists i, (ConsumeAdd h k rem got v). split; [|by rewrite HG].
    apply list_lookup_insert_eq. by eapply lookup_lt_Some.
  - by intros m _ [].
  - intros j q m Hij Hq Hs Hm. pose proof (inv_ops _ Hinv _ _ Hq) as Hok.
    assert (item (ring c) n = item (ring c) m) as -> by (by apply item_mod).
    destruct q; simpl in *; simplify_eq; unfold committing in Hok; destruct_and?; lia.
  - intros j q a b m Hij Hq Hs Hab Hm. pose proof (inv_ops _ Hinv _ _ Hq) as Hok.
    assert (item (ring c) n = item (ring c) m) as -> by (by apply item_mod).
    destruct q; simpl in *; simplify_eq; unfold consuming in Hok; destruct_and?; auto.
Qed.

Lemma log_extend (l got : list V) h v :
  (0 ≤ h)%Z → got = take (length got) (drop (Z.to_nat h) l) → log_at l (nextSeq h got) = Some v →
  got ++ [v] = take (length (got ++ [v])) (drop (Z.to_nat h) l).
Proof.
  intros Hh Hg Hv. rewrite length_app, Nat.add_1_r. simpl.
  unfold log_at, nextSeq in Hv.
  replace (Z.to_nat (h + 1 + zlen got - 1)) with (Z.to_nat h + length got) in Hv
    by (unfold zlen; lia).
  rewrite <- lookup_drop in Hv. by rewrite (take_S_r _ _ _ Hv), <- Hg.
Qed.

Lemma step_consume_add c i h k rem got v p' :
  inv c → ops c !! i = Some (ConsumeAdd h k rem got v) →
  p' = (if (zlen got + 1 <? k)%Z then ConsumeStart h k rem (got ++ [v])
        else GetDone h rem (got ++ [v])) →
  let n := nextSeq h got in
  inv (MkConfig (set_item (ring c) n (item (ring c) n <| getSeq :=
           (getSeq (item (ring c) n) + capacity (ring c))%Z |>)) (log c)
         (<[i:=p']> (ops c))).
Proof.
  intros Hinv Hp Hp' n. pose proof (inv_ops _ Hinv _ _ Hp) as [(Hn & Hl & Hle) [[HG HP] Hv]].
  pose proof (inv_sized _ Hinv) as Hsz. pose proof (sized_capacity _ Hsz).
  pose proof (log_extend (log c) got h v ltac:(lia) Hl Hv) as Hlog.
  fold n in Hle, HG, HP, Hv.
  assert (zlen (got ++ [v]) = (zlen got + 1)%Z) as Hz by by rewrite zlen_app.
  assert (n = (h + 1 + zlen got)%Z) as Hnn by done.
  eapply (inv_write c i _ _ n); try done.
  - subst p'. destruct (zlen got + 1 <? k)%Z eqn:Hk; bool_to_prop; simpl.
    + unfold consuming. split_and!; try done; simpl; try lia.
      unfold nextSeq. rewrite Hz. intros m Hm.
      rewrite item_set by done. case_decide as Hmm; [|apply Hle; lia]. simpl.
      rewrite HG. apply mod_gap; [lia|done|lia].
    + split_and!; try done; simpl; lia.
  - simpl. lia.
  - unfold slot_ok. rewrite item_set_same by done. simpl.
    destruct (inv_slots _ Hinv n) as (? & ? & ? & ? & ? & _). rewrite HG, HP in *.
    split_and!; try done; lia.
  - simpl. fold n. intros m Hm Hcl. apply Hm.
    destruct (inv_slots _ Hinv m) as (Hmod & _ & Hpg & _). rewrite <- Hcl in Hpg.
    rewrite <- Hmod. destruct Hpg as [->| ->]; [done|].
    replace (n + capacity (ring c))%Z with (n + 1 * capacity (ring c))%Z by lia.
    by rewrite Z.mod_add by lia.
  - simpl. intros j q m Hij Hq Hs Hm. pose proof (inv_ops _ Hinv _ _ Hq) as Hok.
    assert (item (ring c) n = item (ring c) m) as -> by (by apply item_mod).
    destruct q; simpl in *; simplify_eq; unfold committing in Hok; destruct_and?; lia.
  - simpl. intros j q a b m Hij Hq Hs Hab Hm. rewrite HG. apply mod_gap; [lia|done|].
    pose proof (inv_ops _ Hinv _ _ Hq) as Hok.
    assert (item (ring c) n = item (ring c) m) as He by (by apply item_mod).
    pose proof (zlen_nonneg got). rewrite He in HG.
    pose proof (λ y, inv_taken _ Hinv i j _ q (h, h + k)%Z y Hij Hp Hq eq_refl) as Htk.
    unfold disjoint in Htk.
    destruct q as [| | | | | | | | | | |h2 k2 r2 g2|h2 k2 r2 g2|h2 k2 r2 g2|h2 k2 r2 g2|h2 k2 r2 g2|];
      simpl in *; simplify_eq; unfold consuming, nextSeq in *; destruct_and?;
      specialize (Htk _ eq_refl); simpl in Htk; pose proof (zlen_nonneg g2);
      repeat match goal with H : ∀ m, _ → (getSeq _ ≤ m)%Z |- _ => specialize (H m) end; lia.
  - subst p'. by destruct (zlen got + 1 <? k)%Z; right.
  - subst p'. destruct (zlen got + 1 <? k)%Z eqn:Hk; bool_to_prop; simpl; [done|].
    rewrite Hz. do 2 f_equal. lia.
Qed.

(** Every step of every operation preserves the invariant. *)
Lemma cstep_inv i c :
  (∀ p, ops c !! i = Some p → match p with GetTail ask _ _ => 0 ≤ ask | _ => True end)%Z →
  inv c → window c → inv (cstep i c).
Proof.
  intros Hask Hinv Hw. unfold cstep. destruct (ops c !! i) as [p|] eqn:Hp; [|done].
  specialize (Hask p eq_refl). pose proof (inv_ops _ Hinv _ _ Hp) as Hok.
  destruct (inv_counters _ Hinv) as (Hc1 & Hc2 & Hc3).
  destruct p; simpl.
  - apply inv_local with (PutStart v); simpl; auto; lia.
  - apply inv_local with (PutHead v head0); simpl in *; auto; lia.
  - destruct (mask (ring c) <? quantity head0 (tail0 + 1))%Z eqn:Hfull;
      [apply inv_local with (PutTail v head0 tail0); simpl; auto|].
    destruct (u32 (tail (ring c)) =? u32 tail0)%Z eqn:Hcas;
      [|apply inv_local with (PutTail v head0 tail0); simpl; auto].
    bool_to_prop. by eapply step_put_cas.
  - apply inv_local with (CommitStart v seq); simpl in *; auto. split; [done|lia].
  - destruct (u32 seq =? _)%Z eqn:H1; simpl;
      [destruct (u32 getSeq0 =? _)%Z eqn:H2; simpl|];
      (apply inv_local with (CommitGetSeq v seq getSeq0); simpl; auto); try apply Hok.
    bool_to_prop. split; [apply Hok|by eapply commit_ready].
  - by apply step_commit_write.
  - by eapply step_commit_add.
  - apply inv_local with (PutDone full); simpl; auto.
  - apply inv_local with (GetStart ask); simpl; auto; lia.
  - apply inv_local with (GetHead ask head0); simpl in *; auto; lia.
  - destruct (quantity head0 tail0 <? 1)%Z eqn:Hq.
    { apply inv_local with (GetTail ask head0 tail0); simpl in *; auto.
      - split; [unfold zlen; simpl; lia|done].
      - right. intros x Hx. simplify_eq. unfold zlen. simpl. lia. }
    destruct (u32 (head (ring c)) =? u32 head0)%Z eqn:Hcas;
      [|apply inv_local with (GetTail ask head0 tail0); simpl; auto].
    bool_to_prop.
    set (size := if (ask <? quantity head0 tail0)%Z then ask else quantity head0 tail0).
    assert (0 ≤ size ≤ quantity head0 tail0)%Z as Hsize.
    { unfold size. destruct (ask <? quantity head0 tail0)%Z eqn:?; bool_to_prop; lia. }
    destruct (size =? 0)%Z eqn:Hz; bool_to_prop.
    + rewrite Hz, Z.add_0_r.
      assert (ring c <| head := head (ring c) |> = ring c) as -> by by destruct (ring c).
      apply inv_local with (GetTail ask head0 tail0); simpl; auto.
      * split; [unfold zlen; simpl; lia|done].
      * right. intros x Hx. simplify_eq. unfold zlen. simpl. lia.
    + eapply step_get_cas; try done. lia.
  - apply inv_local with (ConsumeStart head0 size remain got); simpl in *; auto. split; [done|lia].
  - destruct (u32 (nextSeq head0 got) =? _)%Z eqn:H1; simpl;
      [destruct (u32 getSeq0 =? _)%Z eqn:H2; simpl|];
      (apply inv_local with (ConsumeGetSeq head0 size remain got getSeq0); simpl; auto);
      try apply Hok.
    bool_to_prop. split; [apply Hok|by eapply consume_ready].
  - apply inv_local with (ConsumeRead head0 size remain got); simpl in *; auto.
    destruct Hok as [Hcs Hrd]. split; [done|]. split; [done|].
    destruct (inv_slots _ Hinv (nextSeq head0 got)) as (_ & _ & _ & _ & _ & Hv).
    destruct Hrd as [HG HP]. rewrite HG, HP in Hv. destruct (Hv eq_refl) as [?|(j & q & Hq & Hcl)]; [done|].
    exfalso. assert (j ≠ i) as Hji by (intros ->; rewrite Hp in Hq; by simplify_eq).
    pose proof (crit_exclusive c j i q _ (nextSeq head0 got) (nextSeq head0 got) Hinv Hji Hq Hp) as Hx.
    apply Hx; [|done|done]. destruct q; simpl in *; try done. by rewrite Hcl.
  - by eapply step_consume_clear.
  - by eapply step_consume_add.
  - apply inv_local with (GetDone head0 remain got); simpl; auto.
Qed.

(** ** The capacity *)

(** [x] has bit [i] if [w] has a bit between [i] and [i + k - 1]. *)
Definition smeared (k w x : Z) : Prop :=
  ∀ i, (0 ≤ i)%Z → Z.testbit x i = true ↔ ∃ j, (i ≤ j < i + k)%Z ∧ Z.testbit w j = true.

Lemma smeared_double k w x :
  (0 ≤ k)%Z → smeared k w x → smeared (2 * k) w (Z.lor x (Z.shiftr x k)).
Proof.
  intros Hk Hs i Hi. rewrite Z.lor_spec, Z.shiftr_spec, orb_true_iff by done.
  rewrite (Hs i Hi), (Hs (i + k)%Z ltac:(lia)). split.
  - intros [(j & Hj & ?)|(j & Hj & ?)]; exists j; (split; [lia|done]).
  - intros (j & Hj & ?). destruct (decide (j < i + k)%Z);
      [left|right]; exists j; (split; [lia|done]).
Qed.

Lemma smeared_ones w x : (0 < w < 2 ^ 32)%Z → smeared 32 w x → x = Z.ones (Z.log2 w + 1).
Proof.
  intros Hw Hs. apply Z.bits_inj'. intros i Hi. pose proof (Z.log2_nonneg w).
  assert (Z.log2 w < 32)%Z by (apply Z.log2_lt_pow2; lia).
  destruct (decide (i ≤ Z.log2 w)%Z) as [Hle|Hgt].
  - rewrite Z.ones_spec_low by lia. apply Hs; [done|]. exists (Z.log2 w). split; [lia|].
    apply Z.bit_log2. lia.
  - rewrite Z.ones_spec_high by lia. apply not_true_is_false. intros Hb.
    apply Hs in Hb as (j & Hj & Hb); [|done]. rewrite Z.bits_above_log2 in Hb; [done|lia|lia].
Qed.

Lemma roundUp_smear w (x := Z.lor w (Z.shiftr w 1)) (y := Z.lor x (Z.shiftr x 2))
    (z := Z.lor y (Z.shiftr y 4)) (a := Z.lor z (Z.shiftr z 8)) :
  (0 < w < 2 ^ 32)%Z → Z.lor a (Z.shiftr a 16) = Z.ones (Z.log2 w + 1).
Proof.
  intros Hw. apply smeared_ones; [done|].
  assert (smeared 1 w w) as H1.
  { intros i Hi. split; [intros; exists i; split; [lia|done]|].
    intros (j & Hj & Hb). by replace i with j by lia. }
  apply (smeared_double 1) in H1; [|lia]. apply (smeared_double 2) in H1; [|lia].
  apply (smeared_double 4) in H1; [|lia]. apply (smeared_double 8) in H1; [|lia].
  by apply (smeared_double 16) in H1; [|lia].
Qed.

(** [roundUpToPower2] computes the least power of two that is not below its argument,
    by smearing the highest bit; for the arguments whose result does not fit 32 bits,
    and for 0, it is 0, and [New] then makes a ring of the minimal capacity 2. *)
Theorem roundUpToPower2_spec (v : Z) :
  is_u32 v →
  if decide (1 ≤ v ≤ 2 ^ 31)%Z then
    ∃ k, (0 ≤ k ≤ 31)%Z ∧ roundUpToPower2 v = (2 ^ k)%Z ∧ (v ≤ 2 ^ k)%Z ∧
      ∀ j, (0 ≤ j)%Z → (v ≤ 2 ^ j)%Z → (k ≤ j)%Z
  else roundUpToPower2 v = 0%Z ∧ capacity (New v) = 2%Z.
Proof.
  intros Hv. unfold is_u32 in Hv. destruct (decide (v = 1%Z)) as [->|H1].
  { rewrite decide_True by lia. exists 0%Z. split_and!; try done; lia. }
  destruct (decide (v = 0%Z)) as [->|H0]; [by rewrite decide_False by lia|].
  assert (Hr : roundUpToPower2 v = u32 (2 ^ (Z.log2 (v - 1) + 1))).
  { unfold roundUpToPower2. rewrite (u32_small (v - 1)) by (unfold is_u32; lia).
    rewrite roundUp_smear by lia. rewrite Z.ones_equiv. f_equal. lia. }
  pose proof (Z.log2_spec (v - 1) ltac:(lia)) as Hl. pose proof (Z.log2_nonneg (v - 1)) as Hn.
  set (l := Z.log2 (v - 1)) in *. rewrite Z.add_1_r in Hr. case_decide as Hd.
  - assert (l < 31)%Z by (apply Z.log2_lt_pow2; lia).
    assert (2 ^ Z.succ l ≤ 2 ^ 31)%Z by (apply Z.pow_le_mono_r; lia).
    exists (Z.succ l). rewrite Hr, u32_small by (unfold is_u32; lia).
    split_and!; try done; try lia. intros j Hj Hvj.
    destruct (decide (Z.succ l ≤ j)%Z) as [|Hlt]; [done|].
    assert (2 ^ j ≤ 2 ^ l)%Z by (apply Z.pow_le_mono_r; lia). lia.
  - assert (l = 31)%Z as Hl31.
    { assert (31 ≤ l)%Z by (apply Z.log2_le_pow2; lia).
      assert (l < 32)%Z by (apply Z.log2_lt_pow2; lia). lia. }
    rewrite Hl31 in Hr. unfold New. rewrite Hr. done.
Qed.

(** ** Runs of the ring *)

Lemma New_capacity v :
  is_u32 v → ∃ k, (1 ≤ k ≤ 31)%Z ∧ capacity (New v) = (2 ^ k)%Z.
Proof.
  intros Hv. unfold New. simpl. destruct (decide (v ≤ 1 ∨ 2 ^ 31 < v)%Z) as [Hs|Hs].
  - exists 1%Z. split; [lia|].
    assert (roundUpToPower2 v = 0 ∨ roundUpToPower2 v = 1)%Z as [-> | ->]; try done.
    unfold is_u32 in Hv. destruct (decide (v = 1%Z)) as [->|]; [by right|].
    destruct (decide (v = 0%Z)) as [->|]; [by left|]. left.
    unfold roundUpToPower2. rewrite (u32_small (v - 1)) by (unfold is_u32; lia).
    rewrite roundUp_smear by lia.
    assert (Z.log2 (v - 1) = 31)%Z as ->; [|done].
    assert (31 ≤ Z.log2 (v - 1))%Z by (apply Z.log2_le_pow2; lia).
    assert (Z.log2 (v - 1) < 32)%Z by (apply Z.log2_lt_pow2; unfold is_u32 in *; lia). lia.
  - unfold roundUpToPower2. rewrite (u32_small (v - 1)) by (unfold is_u32 in *; lia).
    rewrite roundUp_smear by lia. rewrite Z.ones_equiv.
    pose proof (Z.log2_nonneg (v - 1)).
    assert (Z.log2 (v - 1) < 31)%Z by (apply Z.log2_lt_pow2; lia).
    set (l := (Z.log2 (v - 1) + 1)%Z) in *.
    assert (2 ^ 1 ≤ 2 ^ l)%Z by (apply Z.pow_le_mono_r; lia).
    assert (2 ^ l ≤ 2 ^ 31)%Z by (apply Z.pow_le_mono_r; lia).
    rewrite u32_small by (unfold is_u32; lia).
    replace (Z.pred (2 ^ l) + 1)%Z with (2 ^ l)%Z by lia.
    rewrite (proj2 (Z.ltb_ge _ _)) by lia. exists l. split; [lia|done].
Qed.

Lemma New_sized v : is_u32 v → sized (New v).
Proof.
  intros Hv. split; [by apply New_capacity|]. unfold New. simpl.
  by rewrite length_fmap, length_seq.
Qed.

Lemma New_item v n :
  is_u32 v → item (New v) n = init_item (capacity (New v)) (n mod capacity (New v)).
Proof.
  intros Hv. pose proof (New_sized v Hv) as Hs. pose proof (sized_capacity _ Hs).
  unfold item. rewrite index_mod by done. set (c := capacity (New v)) in *.
  assert (data (New v) = init_item c ∘ Z.of_nat <$> seq 0 (Z.to_nat c)) as -> by done.
  rewrite list_lookup_fmap, lookup_seq_lt.
  - simpl. f_equal. rewrite Z2Nat.id; [done|]. apply Z.mod_pos_bound. lia.
  - pose proof (Z.mod_pos_bound n c ltac:(lia)). lia.
Qed.

(** Operations that have not started; [Gets] asks for a number of elements. *)
Definition fresh (p : pc) : Prop :=
  match p with PutStart _ => True | GetStart ask => (0 ≤ ask)%Z | _ => False end.

Definition asks (p : pc) : Prop :=
  match p with
  | GetStart ask | GetHead ask _ | GetTail ask _ _ => (0 ≤ ask)%Z | _ => True end.

Lemma step_asks r l p : asks p → asks (step r l p).2.
Proof. destruct p; simpl; intros; repeat case_match; simpl; done. Qed.

(** The operations [ps] on a new ring, and the run of a schedule: the operation that makes each step. *)
Definition start (cap : Z) (ps : list pc) : config := MkConfig (New cap) [] ps.
Definition run (ix : list nat) (c : config) : config := foldl (λ c i, cstep i c) c ix.

(** The window condition holds before every step.  The code does not enforce it: an operation that sleeps
    while 2^31 elements are put may take an old counter for a new one. *)
Definition windowed (ix : list nat) (c : config) : Prop := ∀ k, k < length ix → window (run (take k ix) c).

Lemma run_snoc ix i c : run (ix ++ [i]) c = cstep i (run ix c).
Proof. unfold run. by rewrite foldl_app. Qed.

Lemma windowed_snoc ix i c : windowed (ix ++ [i]) c → windowed ix c ∧ window (run ix c).
Proof.
  intros Hw. split.
  - intros k Hk. specialize (Hw k). rewrite length_app, take_app_le in Hw by lia. apply Hw. lia.
  - specialize (Hw (length ix)). rewrite length_app, take_app_length in Hw. apply Hw. simpl. lia.
Qed.

Lemma start_inv cap ps : is_u32 cap → Forall fresh ps → inv (start cap ps) ∧ Forall asks (ops (start cap ps)).
Proof.
  intros Hcap Hps.
  pose proof (New_sized cap Hcap) as Hs. pose proof (sized_capacity _ Hs) as Hc.
  split; [|eapply Forall_impl; [exact Hps|by intros []]].
  assert (Hf : ∀ i p, ps !! i = Some p → fresh p) by (by apply Forall_lookup).
  split; simpl; try done.
  + split_and!; try done. unfold New in *. simpl in *. lia.
  + intros n. unfold slot_ok. rewrite New_item by done.
    pose proof (Z.mod_pos_bound n (capacity (New cap)) ltac:(lia)). set (c := capacity (New cap)) in *.
    assert (head (New cap) = 0%Z) as -> by done. assert (tail (New cap) = 0%Z) as -> by done.
    unfold init_item. destruct (n mod c =? 0)%Z eqn:Hz; bool_to_prop; simpl;
      (split; [|split_and!; try lia; intros; exfalso; lia]).
    * rewrite Hz. apply Z.mod_same. lia.
    * apply Z.mod_mod. lia.
  + intros i p Hp. specialize (Hf i p Hp). by destruct p.
  + intros i j p q n _ Hp _ Hn. specialize (Hf i p Hp). by destruct p.
  + intros i j p q x y _ Hp _ Hn. specialize (Hf i p Hp). by destruct p.
Qed.

Lemma cstep_ok i c : inv c ∧ Forall asks (ops c) → window c → inv (cstep i c) ∧ Forall asks (ops (cstep i c)).
Proof.
  intros [IH Ha] Hw.
  split.
  - apply cstep_inv; [|done|done]. intros p Hp.
    assert (asks p) as Has by (by eapply Forall_lookup_1). by destruct p.
  - unfold cstep. destruct (ops c !! i) as [p|] eqn:Hp; [|done].
    pose proof (step_asks (ring c) (log c) p) as Hst.
    destruct (step (ring c) (log c) p) as [[r l] p']. simpl in *.
    apply Forall_insert; [done|]. apply Hst. by eapply Forall_lookup_1.
Qed.

Lemma run_inv cap ps ix :
  is_u32 cap → Forall fresh ps → windowed ix (start cap ps) →
  inv (run ix (start cap ps)) ∧ Forall asks (ops (run ix (start cap ps))).
Proof.
  intros Hcap Hps. induction ix as [|i ix IH] using rev_ind; intros Hw; [by apply start_inv|].
  apply windowed_snoc in Hw as [Hw Hc]. rewrite run_snoc. apply cstep_ok; auto.
Qed.

(** *** Up to 2^31 operations the window condition always holds *)

(** The operation may still put its element. *)
Definition may_put (p : pc) : nat :=
  match p with PutStart _ | PutHead _ _ | PutTail _ _ _ => 1 | _ => 0 end.

Definition loads (c : config) : Prop := ∀ i p x, ops c !! i = Some p → x ∈ loaded p → (0 ≤ x)%Z.

Lemma step_may_put r l p :
  let '(_, l', p') := step r l p in length l' + may_put p' ≤ length l + may_put p.
Proof. destruct p; simpl; repeat case_match; simplify_eq/=; rewrite ?length_app; simpl; lia. Qed.

Lemma sum_insert (l : list pc) i p p' :
  l !! i = Some p → sum_list (may_put <$> <[i := p']> l) + may_put p = sum_list (may_put <$> l) + may_put p'.
Proof.
  revert i. induction l as [|q l IH]; intros [|i] H; simplify_eq/=; [lia|]. specialize (IH i H). lia.
Qed.

Lemma cstep_puts i c :
  length (log (cstep i c)) + sum_list (may_put <$> ops (cstep i c)) ≤ length (log c) + sum_list (may_put <$> ops c).
Proof.
  unfold cstep. destruct (ops c !! i) as [p|] eqn:Hp; [|done].
  pose proof (step_may_put (ring c) (log c) p) as H. destruct (step (ring c) (log c) p) as [[r l] p']. simpl.
  pose proof (sum_insert _ _ _ p' Hp). lia.
Qed.

Lemma run_puts ix c : length (log (run ix c)) ≤ length (log c) + sum_list (may_put <$> ops c).
Proof.
  cut (length (log (run ix c)) + sum_list (may_put <$> ops (run ix c)) ≤ length (log c) + sum_list (may_put <$> ops c));
    [lia|]. induction ix as [|i ix IH] using rev_ind; [done|]. rewrite run_snoc. pose proof (cstep_puts i (run ix c)). lia.
Qed.

Lemma may_put_le (ps : list pc) : sum_list (may_put <$> ps) ≤ length ps.
Proof.
  induction ps as [|p ps IH]; [done|]. rewrite fmap_cons. simpl. destruct p; simpl; lia.
Qed.

Lemma step_loads r l p x :
  (0 ≤ head r)%Z → (0 ≤ tail r)%Z → (∀ n, 1 ≤ getSeq (item r n))%Z → (∀ x, x ∈ loaded p → 0 ≤ x)%Z →
  op_ok r l p → x ∈ loaded (step r l p).2 → (0 ≤ x)%Z.
Proof.
  intros Hh Ht Hg Hl Hok Hx.
  destruct p; simpl in *; repeat case_match; simpl in *; try (by apply elem_of_nil in Hx); try (by apply Hl).
  all: repeat (apply elem_of_cons in Hx as [->|Hx]); try (by apply elem_of_nil in Hx); try lia.
  all: match goal with |- (0 ≤ getSeq (item ?r ?n))%Z => pose proof (Hg n); lia end.
Qed.

Lemma cstep_loads i c : inv c → loads c → loads (cstep i c).
Proof.
  intros Hinv Hl. unfold cstep. destruct (ops c !! i) as [p|] eqn:Hp; [|done].
  pose proof (step_loads (ring c) (log c) p) as H. destruct (inv_counters _ Hinv) as (Hc1 & Hc2 & Hc3).
  pose proof (inv_ops _ Hinv _ _ Hp) as Hok.
  destruct (step (ring c) (log c) p) as [[r l] p']. simpl in *. intros j q x Hq Hx. simpl in Hq.
  apply list_lookup_insert_Some in Hq as [(-> & <- & _)|[_ Hq]]; [|by eapply Hl].
  apply (H x); try done; [lia|lia|by apply Hinv|intros y Hy; by eapply Hl].
Qed.

(** However its steps interleave, a run of fewer than 2^31 operations satisfies the window condition. *)
Lemma few_windowed cap ps ix :
  is_u32 cap → Forall fresh ps → (zlen ps < 2 ^ 31)%Z → windowed ix (start cap ps).
Proof.
  intros Hcap Hps Hlen.
  assert (∀ c, inv c → loads c → (tail (ring c) < 2 ^ 31)%Z → window c) as Hwin.
  { intros c Hinv Hl Ht. split; [|intros i p x Hp Hx; specialize (Hl i p x Hp Hx); lia].
    intros n. destruct (inv_slots _ Hinv n) as (_ & Hg & _). lia. }
  assert (∀ ix, windowed ix (start cap ps) ∧ loads (run ix (start cap ps))) as Hall; [|apply Hall].
  clear ix. intros ix. induction ix as [|i ix [IHw IHl]] using rev_ind.
  { split; [by intros k Hk; simpl in Hk; lia|]. intros i p x Hp Hx. simpl in Hp.
    assert (fresh p) as Hf by (by eapply Forall_lookup_1). destruct p; try done; by apply elem_of_nil in Hx. }
  destruct (run_inv cap ps ix Hcap Hps IHw) as [Hinv _].
  assert (window (run ix (start cap ps))) as Hw.
  { apply Hwin; [done|done|]. destruct (inv_counters _ Hinv) as (_ & _ & <-).
    pose proof (run_puts ix (start cap ps)) as Hr. pose proof (may_put_le ps). simpl in Hr. unfold zlen in *. lia. }
  split; [|rewrite run_snoc; by apply cstep_loads]. intros k Hk. rewrite length_app in Hk. simpl in Hk.
  destruct (decide (k = length ix)) as [->|Hne]; [by rewrite take_app_length|].
  rewrite take_app_le by lia. apply IHw. lia.
Qed.

(** C33. The ring is a bounded FIFO queue under any interleaving [ix] of any number of puts and
    gets before whose steps no counter lags by 2^31 ([windowed]: so whatever the interleaving, if there
    are fewer than 2^31 operations, [few_windowed]): it never holds more than [Cap] elements, a
    finished [Gets] has returned, in order, exactly the values that were put under the sequence numbers
    it took, and no two of them took the same one.  So no element is lost, duplicated or reordered. *)
Theorem Ring_fifo (cap : Z) (ps : list pc) (ix : list nat) :
  is_u32 cap → Forall fresh ps → windowed ix (start cap ps) →
  let c := run ix (start cap ps) in
  (0 ≤ tail (ring c) - head (ring c) ≤ Cap (ring c))%Z ∧
  Size (ring c) = (tail (ring c) - head (ring c))%Z ∧
  zlen (log c) = tail (ring c) ∧
  (∀ i h rem got, ops c !! i = Some (GetDone h rem got) →
     (0 ≤ h ∧ h + zlen got ≤ head (ring c))%Z ∧
     got = take (length got) (drop (Z.to_nat h) (log c))) ∧
  (∀ i j h rem got h' rem' got', i ≠ j → ops c !! i = Some (GetDone h rem got) →
     ops c !! j = Some (GetDone h' rem' got') → got ≠ [] → got' ≠ [] →
     h + zlen got ≤ h' ∨ h' + zlen got' ≤ h)%Z.
Proof.
  intros Hcap Hps Hr c. destruct (run_inv _ _ _ Hcap Hps Hr) as [Hinv _]. fold c in Hinv.
  destruct (inv_counters _ Hinv) as (Hc1 & Hc2 & Hc3).
  pose proof (sized_capacity _ (inv_sized _ Hinv)).
  split; [unfold Cap, mask; lia|]. split; [apply quantity_small; lia|]. split; [done|]. split.
  - intros i h rem got Hp. by apply (inv_ops _ Hinv _ _ Hp).
  - intros i j h rem got h' rem' got' Hij Hp Hq Hg Hg'.
    pose proof (inv_taken _ Hinv i j _ _ (h, h + zlen got)%Z (h', h' + zlen got')%Z Hij Hp Hq eq_refl eq_refl) as Ht.
    unfold disjoint in Ht. simpl in Ht.
    assert (0 < zlen got ∧ 0 < zlen got')%Z by (destruct got, got'; try done; unfold zlen; simpl; lia).
    lia.
Qed.

(** Two operations never work on the value of one slot at the same time: of a put that
    is past its waiting loop and another operation past its own, each has its own slot. *)
Theorem Ring_exclusive (cap : Z) (ps : list pc) (ix : list nat) (i j : nat) (p q : pc) (n m : Z) :
  is_u32 cap → Forall fresh ps → windowed ix (start cap ps) → i ≠ j →
  let c := run ix (start cap ps) in
  ops c !! i = Some p → ops c !! j = Some q → crit p = Some n → crit q = Some m →
  index (ring c) n ≠ index (ring c) m.
Proof.
  intros Hcap Hps Hr Hij c Hp Hq Hn Hm. destruct (run_inv _ _ _ Hcap Hps Hr) as [Hinv _]. fold c in Hinv.
  pose proof (sized_capacity _ (inv_sized _ Hinv)).
  rewrite !index_mod by apply Hinv. intros Heq.
  apply (crit_exclusive c i j p q n m Hinv Hij Hp Hq Hn Hm).
  pose proof (Z.mod_pos_bound n (capacity (ring c))). pose proof (Z.mod_pos_bound m (capacity (ring c))).
  lia.
Qed.

(** ** One operation at a time *)

(** No operation is under way: the slots above [lo] up to the tail are full, the others
    are empty. *)
Record quiet_from (r : Ring) (l : list V) (lo : Z) : Prop := {
  quiet_sized : sized r;
  quiet_lo : (0 ≤ lo ≤ head r ∧ head r ≤ tail r ∧ tail r < lo + capacity r)%Z;
  quiet_log : zlen l = tail r;
  quiet_full : ∀ n, (lo < n ≤ tail r)%Z →
    readable r n ∧ log_at l n = Some (value (item r n));
  quiet_empty : ∀ n, (tail r < n ≤ lo + capacity r)%Z → writable r n
}.

Definition quiet (r : Ring) (l : list V) : Prop := quiet_from r l (head r).

(** The elements in the queue. *)
Definition queue (r : Ring) (l : list V) : list V := drop (Z.to_nat (head r)) l.

Lemma zlen_queue r l : quiet r l → zlen (queue r l) = (tail r - head r)%Z.
Proof.
  intros Hq. unfold queue, zlen. rewrite length_drop.
  pose proof (quiet_log _ _ _ Hq) as Hl. pose proof (quiet_lo _ _ _ Hq). unfold zlen in Hl. lia.
Qed.

Lemma alone_S fuel r l p :
  match p with PutDone _ | GetDone _ _ _ => False | _ => True end →
  alone (S fuel) r l p = let '(r', l', p') := step r l p in alone fuel r' l' p'.
Proof. by destruct p. Qed.

(** Different numbers within a capacity have different slots. *)
Lemma other_slot r lo n m :
  sized r → (lo < n ≤ lo + capacity r)%Z → (lo < m ≤ lo + capacity r)%Z → n ≠ m →
  (n mod capacity r ≠ m mod capacity r)%Z.
Proof.
  intros Hs Hn Hm Hne Heq. pose proof (sized_capacity r Hs).
  destruct (decide (n < m)%Z).
  - pose proof (mod_gap n m (capacity r) ltac:(lia) Heq). lia.
  - symmetry in Heq. pose proof (mod_gap m n (capacity r) ltac:(lia) Heq). lia.
Qed.

Lemma consume_one r l lo k rem got v fuel :
  quiet_from r l (lo + zlen got) → (0 ≤ lo)%Z → (lo + zlen got < head r)%Z →
  log_at l (nextSeq lo got) = Some v →
  ∃ r', quiet_from r' l (lo + zlen got + 1) ∧ head r' = head r ∧ tail r' = tail r ∧
    capacity r' = capacity r ∧
    alone (5 + fuel) r l (ConsumeStart lo k rem got) =
    alone fuel r' l (if (zlen got + 1 <? k)%Z then ConsumeStart lo k rem (got ++ [v])
                     else GetDone lo rem (got ++ [v])).
Proof.
  intros Hq Hlo Hlt Hv. set (n := nextSeq lo got).
  assert (n = lo + zlen got + 1)%Z as Hn by (unfold n, nextSeq; lia).
  pose proof (quiet_sized _ _ _ Hq) as Hs. pose proof (sized_capacity r Hs) as Hc.
  pose proof (quiet_lo _ _ _ Hq) as Hb.
  destruct (quiet_full _ _ _ Hq n ltac:(lia)) as [[HG HP] Hval]. fold n in Hv.
  rewrite Hval in Hv. injection Hv as Hv.
  set (r1 := set_item r n (item r n <| value := zero |>)).
  set (r2 := set_item r1 n (item r1 n <| getSeq := (getSeq (item r1 n) + capacity r1)%Z |>)).
  assert (sized r1) as Hs1 by by apply sized_set.
  assert (∀ m, (n mod capacity r ≠ m mod capacity r)%Z → item r2 m = item r m) as Hi.
  { intros m Hm. unfold r2. rewrite item_set by done. rewrite decide_False by done.
    unfold r1. rewrite item_set by done. by rewrite decide_False. }
  assert (item r2 n = MkItem (putSeq (item r n)) (n + capacity r)%Z zero) as Hi2.
  { unfold r2. rewrite item_set_same by done. unfold r1. rewrite item_set_same by done.
    simpl. by rewrite HG. }
  exists r2. split_and!; try done.
  - split; try apply Hq; [by apply sized_set|simpl; lia| |].
    + intros m Hm. simpl in Hm.
      destruct (quiet_full _ _ _ Hq m ltac:(lia)) as [[? ?] ?].
      unfold readable. rewrite Hi; [done|]. apply (other_slot r (lo + zlen got)); [done|lia..].
    + intros m Hm. simpl in Hm. unfold writable.
      destruct (decide (m = n + capacity r)%Z) as [->|Hne].
      * assert (item r2 (n + capacity r) = item r2 n) as ->.
        { apply item_mod; [by apply sized_set|]. simpl.
          replace (n + capacity r)%Z with (n + 1 * capacity r)%Z by lia. by rewrite Z.mod_add by lia. }
        rewrite Hi2. simpl. split; [lia|done].
      * rewrite Hi; [by apply (quiet_empty _ _ _ Hq); lia|].
        apply (other_slot r (lo + zlen got)); [done|lia..].
  - change (5 + fuel) with (S (S (S (S (S fuel))))). rewrite !alone_S by done. simpl step.
    cbv iota zeta. rewrite alone_S by done. simpl step. fold n. rewrite HG, Z.eqb_refl, HP.
    rewrite (proj2 (Z.eqb_eq _ _)); cycle 1.
    { unfold u32. rewrite Zminus_mod_idemp_l. f_equal. lia. }
    simpl andb. cbv iota zeta. rewrite alone_S by done. simpl step. cbv iota zeta.
    rewrite alone_S by done. simpl step. cbv iota zeta. rewrite alone_S by done. simpl step.
    cbv iota zeta. fold n r1 r2. by rewrite <- Hv.
Qed.

Lemma consume_all k r l lo rem got fuel :
  quiet_from r l (lo + zlen got) → (0 ≤ lo)%Z → (lo + zlen got + Z.of_nat (S k) = head r)%Z →
  ∃ r', quiet_from r' l (head r) ∧ head r' = head r ∧ tail r' = tail r ∧
    capacity r' = capacity r ∧
    alone (5 * S k + fuel) r l (ConsumeStart lo (zlen got + Z.of_nat (S k)) rem got) =
    alone fuel r' l (GetDone lo rem
      (got ++ take (S k) (drop (Z.to_nat (lo + zlen got)) l))).
Proof.
  revert r got. induction k as [|k IH]; intros r got Hq Hlo Hhd;
    pose proof (quiet_lo _ _ _ Hq) as Hb; pose proof (quiet_log _ _ _ Hq) as Hl;
    pose proof (zlen_nonneg got);
    destruct (lookup_lt_is_Some_2 l (Z.to_nat (lo + zlen got))) as [v Hv];
      [unfold zlen in *; lia| |unfold zlen in *; lia|];
    assert (log_at l (nextSeq lo got) = Some v) as Hla
      by (unfold log_at, nextSeq; rewrite <- Hv; f_equal; lia).
  - destruct (consume_one r l lo (zlen got + 1) rem got v fuel Hq Hlo ltac:(lia) Hla)
      as (r' & Hq' & Hh & Ht & Hcp & Ha).
    exists r'. split_and!; try done; [by replace (head r) with (lo + zlen got + 1)%Z by lia|].
    change (5 * 1 + fuel) with (5 + fuel). change (Z.of_nat 1) with 1%Z. rewrite Ha.
    rewrite Z.ltb_irrefl. by rewrite (drop_S l v _ Hv).
  - destruct (consume_one r l lo (zlen got + Z.of_nat (S (S k))) rem got v (5 * S k + fuel)
      Hq Hlo ltac:(lia) Hla) as (r1 & Hq1 & Hh & Ht & Hcp & Ha).
    assert (zlen (got ++ [v]) = zlen got + 1)%Z as Hz by by rewrite zlen_app.
    destruct (IH r1 (got ++ [v])) as (r' & Hq' & Hh' & Ht' & Hcp' & Ha').
    { by rewrite Hz, Z.add_assoc. } { done. } { rewrite Hz, Hh. lia. }
    exists r'. rewrite Hh in *. split_and!; try done; [congruence..|].
    replace (5 * S (S k) + fuel) with (5 + (5 * S k + fuel)) by lia. rewrite Ha.
    rewrite (proj2 (Z.ltb_lt _ _)) by lia.
    replace (zlen got + Z.of_nat (S (S k)))%Z with (zlen (got ++ [v]) + Z.of_nat (S k))%Z by lia.
    rewrite Ha'. do 2 f_equal. rewrite <- app_assoc, Hz. f_equal.
    rewrite (drop_S l v _ Hv). replace (Z.to_nat (lo + (zlen got + 1))) with (S (Z.to_nat (lo + zlen got))) by lia.
    done.
Qed.

(** The specification: a list bounded by [cap], and what an operation returns. *)
Definition spec (cap : Z) (q : list V) (p : pc) (q' : list V) (p' : pc) : Prop :=
  match p, p' with
  | PutStart v, PutDone full =>
    if (zlen q =? cap)%Z then full = true ∧ q' = q else full = false ∧ q' = q ++ [v]
  | GetStart ask, GetDone _ rem got =>
    got = take (Z.to_nat ask) q ∧ q' = drop (Z.to_nat ask) q ∧
    rem = (if decide (got = []) then 0%Z else zlen q')
  | _, _ => False
  end.

Lemma alone_put r l v :
  quiet r l → ∃ r' l' p', alone 7 r l (PutStart v) = (r', l', p') ∧ quiet r' l' ∧
    spec (Cap r) (queue r l) (PutStart v) (queue r' l') p' ∧ capacity r' = capacity r.
Proof.
  intros Hq. pose proof (zlen_queue r l Hq) as Hz.
  pose proof (quiet_sized _ _ _ Hq) as Hs. pose proof (sized_capacity r Hs) as Hc.
  pose proof (quiet_lo _ _ _ Hq) as Hb. pose proof (quiet_log _ _ _ Hq) as Hl.
  rewrite alone_S by done. simpl step. cbv iota zeta. rewrite alone_S by done. simpl step.
  cbv iota zeta. rewrite alone_S by done. simpl step. rewrite quantity_small by lia.
  destruct (mask r <? tail r + 1 - head r)%Z eqn:Hfull; bool_to_prop; unfold mask in Hfull.
  { do 3 eexists. split; [reflexivity|]. split; [done|]. split; [|done]. simpl.
    rewrite (proj2 (Z.eqb_eq _ _)); [done|]. unfold Cap, mask. lia. }
  rewrite Z.eqb_refl. set (r0 := r <| tail := (tail r + 1)%Z |>). set (n := (tail r + 1)%Z).
  assert (sized r0) as Hs0 by exact Hs.
  destruct (quiet_empty _ _ _ Hq n ltac:(lia)) as [HP HG].
  rewrite alone_S by done. simpl step. cbv iota zeta. rewrite alone_S by done. simpl step.
  assert (item r0 n = item r n) as Hi0 by done. rewrite !Hi0, HP, HG, Z.eqb_refl.
  simpl andb. cbv iota zeta. rewrite alone_S by done. simpl step. cbv iota zeta.
  set (r1 := set_item r0 n _). rewrite alone_S by done. simpl step. cbv iota zeta.
  set (r2 := set_item r1 n _). simpl alone.
  assert (sized r1) as Hs1 by by apply sized_set.
  assert (∀ m, (n mod capacity r ≠ m mod capacity r)%Z → item r2 m = item r m) as Hi.
  { intros m Hm. unfold r2. rewrite item_set by done. rewrite decide_False by done.
    unfold r1. rewrite item_set by done. by rewrite decide_False. }
  assert (item r2 n = MkItem (n + capacity r)%Z n v) as Hi2.
  { unfold r2. rewrite item_set_same by done. unfold r1. rewrite item_set_same by done.
    rewrite Hi0. clear -HP HG. destruct (item r n). simpl in *. by subst. }
  assert (queue r2 (l ++ [v]) = queue r l ++ [v]) as Hqq.
  { unfold queue. simpl. rewrite drop_app_le; [done|]. unfold zlen in Hl. lia. }
  do 3 eexists. split; [reflexivity|]. split; [|split].
  - split; simpl.
    + by apply sized_set.
    + lia.
    + rewrite zlen_app, Hl. done.
    + intros m Hm. destruct (decide (m = n)) as [->|Hne].
      * rewrite Hi2. unfold readable. rewrite Hi2. split_and!; try done. simpl.
        unfold log_at. replace (Z.to_nat (n - 1)) with (length l) by (unfold zlen in Hl; lia).
        by apply list_lookup_middle.
      * destruct (quiet_full _ _ _ Hq m ltac:(lia)) as [[? ?] ?]. unfold readable.
        rewrite Hi; [|apply (other_slot r (head r)); [done|lia..]]. split; [done|].
        eapply log_at_prefix; [by exists [v]|done].
    + intros m Hm. unfold writable. rewrite Hi; [|apply (other_slot r (head r)); [done|lia..]].
      apply (quiet_empty _ _ _ Hq). lia.
  - simpl. rewrite (proj2 (Z.eqb_neq _ _)); [done|]. unfold Cap, mask. lia.
  - done.
Qed.

Lemma alone_gets r l ask :
  quiet r l → (0 ≤ ask)%Z →
  ∃ fuel r' p', alone fuel r l (GetStart ask) = (r', l, p') ∧ quiet r' l ∧
    spec (Cap r) (queue r l) (GetStart ask) (queue r' l) p' ∧ capacity r' = capacity r.
Proof.
  intros Hq Hask. pose proof (zlen_queue r l Hq) as Hz.
  pose proof (quiet_sized _ _ _ Hq) as Hs. pose proof (sized_capacity r Hs) as Hc.
  pose proof (quiet_lo _ _ _ Hq) as Hb. pose proof (quiet_log _ _ _ Hq) as Hl.
  set (q := queue r l) in *. set (k := if (ask <? zlen q)%Z then ask else zlen q).
  assert (take (Z.to_nat k) q = take (Z.to_nat ask) q ∧ drop (Z.to_nat k) q = drop (Z.to_nat ask) q)
    as [Htk Hdk].
  { unfold k. destruct (ask <? zlen q)%Z eqn:?; bool_to_prop; [done|].
    unfold zlen in *. rewrite !take_ge, !drop_ge by lia. done. }
  destruct (decide (k = 0%Z)) as [Hk0|Hk0].
  - exists 3, r, (GetDone (head r) 0 []). split; [|split; [done|split; [|done]]].
    + rewrite alone_S by done. simpl step. cbv iota zeta. rewrite alone_S by done. simpl step.
      cbv iota zeta. rewrite alone_S by done. simpl step. rewrite quantity_small by lia.
      rewrite <- Hz. fold k. rewrite Hk0, Z.eqb_refl, Z.add_0_r.
      assert (r <| head := head r |> = r) as -> by by destruct r.
      destruct (zlen q <? 1)%Z; [done|]. by rewrite Z.eqb_refl.
    + simpl. rewrite <- Htk, <- Hdk, Hk0. split_and!; done.
  - assert (0 < k ≤ zlen q)%Z as Hk.
    { unfold k in *. destruct (ask <? zlen q)%Z eqn:?; bool_to_prop; pose proof (zlen_nonneg q); lia. }
    set (r1 := r <| head := (head r + k)%Z |>).
    assert (quiet_from r1 l (head r + zlen (@nil V))) as Hq1.
    { rewrite zlen_nil, Z.add_0_r. split; simpl; [done|lia|done|apply Hq|apply Hq]. }
    destruct (consume_all (Z.to_nat (k - 1)) r1 l (head r) (zlen q - k) [] 0 Hq1)
      as (r' & Hq' & Hh & Ht & Hcp & Ha); [lia|rewrite zlen_nil; simpl; lia|].
    assert (Z.of_nat (S (Z.to_nat (k - 1))) = k) as Hsk by lia.
    assert (S (Z.to_nat (k - 1)) = Z.to_nat k) as Hsk2 by lia.
    rewrite zlen_nil, Z.add_0_l, Z.add_0_r, Hsk, Hsk2 in Ha. rewrite app_nil_l in Ha.
    change (drop (Z.to_nat (head r)) l) with q in Ha. rewrite Htk in Ha.
    exists (3 + (5 * Z.to_nat k + 0)), r'. eexists. split; [|split; [|split]].
    + change (3 + ?x) with (S (S (S x))).
      rewrite alone_S by done. simpl step. cbv iota zeta. rewrite alone_S by done. simpl step.
      cbv iota zeta. rewrite alone_S by done. simpl step. rewrite quantity_small by lia.
      rewrite <- Hz. fold k. rewrite (proj2 (Z.ltb_ge _ _)) by lia. rewrite Z.eqb_refl.
      rewrite (proj2 (Z.eqb_neq k 0)) by lia. fold r1. rewrite Ha. reflexivity.
    + unfold quiet. by rewrite Hh.
    + assert (queue r' l = drop (Z.to_nat ask) q) as Hq2.
      { unfold queue. rewrite Hh. unfold r1. simpl. rewrite <- Hdk. unfold q, queue.
        rewrite drop_drop. f_equal. lia. }
      simpl. rewrite Hq2. split_and!; try done.
      rewrite <- Htk, <- Hdk. rewrite decide_False.
      * unfold zlen in *. rewrite length_drop. lia.
      * intros He%(f_equal length). rewrite length_take in He. unfold zlen in *. simpl in He. lia.
    + by rewrite Hcp.
Qed.

Lemma New_quiet cap : is_u32 cap → quiet (New cap) [].
Proof.
  intros Hcap. pose proof (New_sized cap Hcap) as Hs. pose proof (sized_capacity _ Hs) as Hc.
  split; [done| |done|..].
  - assert (head (New cap) = 0%Z) as -> by done. assert (tail (New cap) = 0%Z) as -> by done. lia.
  - intros n Hn. simpl in Hn. lia.
  - intros n Hn. assert (head (New cap) = 0%Z) as Hh by done.
    assert (tail (New cap) = 0%Z) as Ht by done. rewrite Hh, Ht in Hn.
    unfold writable. rewrite New_item by done. set (c := capacity (New cap)) in *.
    unfold init_item. destruct (decide (n = c)) as [->|Hne].
    + rewrite Z.mod_same by lia. done.
    + rewrite (Z.mod_small n) by lia. rewrite (proj2 (Z.eqb_neq _ _)) by lia. done.
Qed.

(** C34. Without contention the ring is the bounded queue of its specification: [New] makes an
    empty one of the rounded capacity less one, [Put] appends or reports that the queue
    is full, [Gets] takes as many elements as are asked for and there, and each of them
    returns, for every position of the counters, also where uint32 wraps around. *)
Theorem Ring_refines (r : Ring) (l : list V) (p : pc) :
  (∀ cap, is_u32 cap → quiet (New cap) [] ∧ queue (New cap) [] = []) ∧
  (quiet r l → fresh p → ∃ fuel r' l' p',
    alone fuel r l p = (r', l', p') ∧ quiet r' l' ∧ capacity r' = capacity r ∧
    spec (Cap r) (queue r l) p (queue r' l') p').
Proof.
  split; [intros cap Hcap; split; [by apply New_quiet|done]|].
  intros Hq Hp. destruct p; try done.
  - destruct (alone_put r l v Hq) as (r' & l' & p' & ? & ? & ? & ?). by exists 7, r', l', p'.
  - destruct (alone_gets r l ask Hq Hp) as (fuel & r' & p' & ? & ? & ? & ?).
    by exists fuel, r', l, p'.
Qed.

End ring.

Arguments Ring V : clear implicits.
Arguments pc V : clear implicits.
Arguments config V : clear implicits.

(** ** The theorems at concrete inputs *)

Module RingExamples.

Lemma roundUpToPower2_spec_witness :
  ∃ k, (0 ≤ k ≤ 31)%Z ∧ roundUpToPower2 5 = (2 ^ k)%Z ∧ (5 ≤ 2 ^ k)%Z ∧
    ∀ j, (0 ≤ j)%Z → (5 ≤ 2 ^ j)%Z → (k ≤ j)%Z.
Proof. apply (roundUpToPower2_spec 0 5). unfold is_u32. lia. Defined.

Definition programs : list (pc Z) := [PutStart 7%Z; PutStart 8%Z; GetStart 1; GetStart 1].

Lemma programs_fresh : Forall fresh programs.
Proof. repeat constructor; simpl; lia. Defined.

(** Two puts that interleave, then two gets. *)
Definition schedule : list nat :=
  [0; 1; 0; 1; 0; 1; 1; 1; 1; 1; 0; 0; 0; 0; 1; 1; 1; 1; 1; 1; 1; 1;
   2; 3; 2; 2; 2; 2; 2; 2; 2; 3; 3; 3; 3; 3; 3; 3; 3; 3; 3].
Definition final : config Z := run 0%Z schedule (start 0%Z 2 programs).

Lemma Ring_fifo_witness :
  (tail (ring final) - head (ring final) ≤ 1)%Z ∧
  ops final !! 2 = Some (GetDone 0 0 [7%Z]) ∧ take 1 (drop 0 (log final)) = [7%Z].
Proof.
  destruct (Ring_fifo 0%Z 2 programs schedule) as (H1 & _ & _ & H2 & _).
  - unfold is_u32. lia.
  - apply programs_fresh.
  - apply few_windowed; [unfold is_u32; lia|apply programs_fresh|reflexivity].
  - assert (ops final !! 2 = Some (GetDone 0 0 [7%Z])) as Ho by (vm_compute; reflexivity).
    split; [|split; [exact Ho|]].
    + exact (proj2 H1).
    + symmetry. exact (proj2 (H2 2 _ _ _ Ho)).
Defined.

Definition two : list (pc Z) := [PutStart 7%Z; PutStart 8%Z].

Lemma Ring_exclusive_witness :
  index (ring (run 0%Z [0; 0; 0; 0; 0; 1; 1; 1; 1; 1] (start 0%Z 4 two))) 1 ≠
  index (ring (run 0%Z [0; 0; 0; 0; 0; 1; 1; 1; 1; 1] (start 0%Z 4 two))) 2.
Proof.
  apply (Ring_exclusive 0%Z 4 two [0; 0; 0; 0; 0; 1; 1; 1; 1; 1] 0 1 (CommitWrite 7%Z 1) (CommitWrite 8%Z 2) 1 2).
  - unfold is_u32. lia.
  - repeat constructor.
  - apply few_windowed; [unfold is_u32; lia|repeat constructor|reflexivity].
  - discriminate.
  - vm_compute. reflexivity.
  - vm_compute. reflexivity.
  - reflexivity.
  - reflexivity.
Defined.

Lemma Ring_refines_witness :
  ∃ fuel r' l' p', alone 0%Z fuel (New 0%Z 2) [] (PutStart 7%Z) = (r', l', p') ∧
    quiet 0%Z r' l' ∧ spec (Cap (New 0%Z 2)) [] (PutStart 7%Z) (queue r' l') p'.
Proof.
  destruct (Ring_refines 0%Z (New 0%Z 2) [] (PutStart 7%Z)) as [H1 H2].
  destruct (H1 2%Z) as [Hq _]; [unfold is_u32; lia|].
  destruct (H2 Hq I) as (fuel & r' & l' & p' & Ha & Hb & _ & Hc).
  exists fuel, r', l', p'. split; [exact Ha|]. split; [exact Hb|exact Hc].
Defined.
End RingExamples.
