(* ===== verification/Queue.v ===== *)
(** The infinite queue with a blocking get (internal/queue/queue.go).

    Any number of goroutines put while one gets.  A step is a critical section of the
    mutex, or one communication on the channels [notify] (of capacity 1) and [done].  The
    configuration keeps the history of the values put and taken. *)

From S2P Require Import Prelude.

Section queue.
Context {V : Type}.

Record Queue := MkQueue { list_ : list V; notify : bool; waiting : bool }.
#[local] Instance eta_Queue : Eta Queue := λ q, MkQueue (list_ q) (notify q) (waiting q).

Definition New : Queue := MkQueue [] false false.

(** A put before and after its critical section; [wakeUp] is its local variable. *)
Inductive putter := PutStart (v : V) | PutNotify (wakeUp : bool) | PutEnd.

(** The getter: before its critical section, in the select, after [done] was received,
    and returned. *)
Inductive getter := GetStart | GetSelect | GetDone | GetReturn (r : option V).

(** The critical section of [Put]. *)
Definition put_locked (q : Queue) (v : V) : Queue * bool :=
  (q <| list_ := list_ q ++ [v] |> <| waiting := false |>, waiting q).

(** The non-blocking send on a channel of capacity 1. *)
Definition send (q : Queue) : Queue := q <| notify := true |>.

(** The critical section at the head of the loop of [Get]. *)
Definition get_locked (q : Queue) : Queue * getter :=
  match list_ q with
  | v :: l => (q <| list_ := l |>, GetReturn (Some v))
  | [] => (q <| waiting := true |>, GetSelect)
  end.

(** The critical section after [done] was received. *)
Definition done_locked (q : Queue) : Queue * getter :=
  match list_ q with
  | v :: l => (q <| list_ := l |>, GetReturn (Some v))
  | [] => (q <| waiting := false |>, GetReturn None)
  end.

Record config := MkConfig {
  queue : Queue;
  closed : bool;
  puts : list putter;
  get : getter;
  put_log : list V;
  get_log : list V
}.

Definition returned (g : getter) : list V :=
  match g with GetReturn (Some v) => [v] | _ => [] end.

Inductive step : config → config → Prop :=
| step_put i v q cl ps g pl gl :
    ps !! i = Some (PutStart v) →
    step (MkConfig q cl ps g pl gl)
         (MkConfig (put_locked q v).1 cl (<[i := PutNotify (put_locked q v).2]> ps) g
            (pl ++ [v]) gl)
| step_notify i w q cl ps g pl gl :
    ps !! i = Some (PutNotify w) →
    step (MkConfig q cl ps g pl gl)
         (MkConfig (if w then send q else q) cl (<[i := PutEnd]> ps) g pl gl)
| step_get q cl ps pl gl :
    step (MkConfig q cl ps GetStart pl gl)
         (MkConfig (get_locked q).1 cl ps (get_locked q).2 pl (gl ++ returned (get_locked q).2))
| step_receive q cl ps pl gl :
    notify q = true →
    step (MkConfig q cl ps GetSelect pl gl)
         (MkConfig (q <| notify := false |>) cl ps GetStart pl gl)
| step_done q ps pl gl :
    step (MkConfig q true ps GetSelect pl gl) (MkConfig q true ps GetDone pl gl)
| step_done_locked q cl ps pl gl :
    step (MkConfig q cl ps GetDone pl gl)
         (MkConfig (done_locked q).1 cl ps (done_locked q).2 pl (gl ++ returned (done_locked q).2))
| step_again q cl ps r pl gl :
    step (MkConfig q cl ps (GetReturn r) pl gl) (MkConfig q cl ps GetStart pl gl)
| step_close q cl ps g pl gl :
    step (MkConfig q cl ps g pl gl) (MkConfig q true ps g pl gl)
| step_new_put v q cl ps g pl gl :
    step (MkConfig q cl ps g pl gl) (MkConfig q cl (ps ++ [PutStart v]) g pl gl).

Definition init : config := MkConfig New false [] GetStart [] [].

(** A put has seen the getter waiting and will wake it up. *)
Definition waking (ps : list putter) : Prop := ∃ i, ps !! i = Some (PutNotify true).

Record inv (c : config) : Prop := {
  inv_fifo : put_log c = get_log c ++ list_ (queue c);
  inv_wake : get c = GetSelect →
    waiting (queue c) = true ∧ list_ (queue c) = [] ∨ notify (queue c) = true ∨ waking (puts c);
  inv_closed : get c = GetDone → closed c = true;
  inv_false : get c = GetReturn None → closed c = true
}.

Lemma waking_insert ps i p p' :
  ps !! i = Some p → p ≠ PutNotify true → waking ps → waking (<[i := p']> ps).
Proof.
  intros Hp Hne [j Hj]. exists j. rewrite list_lookup_insert_ne; [done|].
  intros ->. rewrite Hp in Hj. by simplify_eq.
Qed.

Lemma waking_notify ps i w : ps !! i = Some (PutNotify w) → waking ps →
  w = true ∨ waking (<[i := PutEnd]> ps).
Proof.
  intros Hp Hw. destruct w; [by left|]. right. by eapply waking_insert.
Qed.

Lemma queue_step_inv c c' : step c c' → inv c → inv c'.
Proof.
  intros Hs [Hf Hw Hc Hn]. destruct Hs as
    [i v q cl ps g pl gl Hp|i w q cl ps g pl gl Hp|q cl ps pl gl|q cl ps pl gl Hno|q ps pl gl
    |q cl ps pl gl|q cl ps r pl gl|q cl ps g pl gl|v q cl ps g pl gl]; simpl in *; split; simpl;
    try done; try (intros; by auto).
  - by rewrite Hf, app_assoc.
  - intros Hg. destruct (Hw Hg) as [[Hwt _]|[?|?]].
    + right; right. exists i. rewrite Hwt. apply list_lookup_insert_eq. by eapply lookup_lt_Some.
    + by right; left.
    + right; right. eapply waking_insert; [exact Hp|done|done].
  - by destruct w.
  - intros Hg. destruct (Hw Hg) as [?|[?|Hwk]]; [left; by destruct w|right; left; by destruct w|].
    destruct (waking_notify _ _ _ Hp Hwk) as [->|?]; auto.
  - rewrite Hf. destruct q as [[|v l] n w]; simpl; [by rewrite !app_nil_r|].
    by rewrite <- app_assoc.
  - destruct q as [[|v l] n w]; simpl; [|done]. by left.
  - unfold get_locked. by destruct (list_ q).
  - unfold get_locked. by destruct (list_ q).
  - rewrite Hf. destruct q as [[|v l] n w]; simpl; [by rewrite !app_nil_r|].
    by rewrite <- app_assoc.
  - unfold done_locked. by destruct (list_ q).
  - intros Hg. destruct (Hw Hg) as [?|[?|[i Hi]]]; auto. right; right. exists i.
    by apply lookup_app_l_Some.
Qed.

Lemma steps_inv c c' : rtc step c c' → inv c → inv c'.
Proof. induction 1; eauto using queue_step_inv. Qed.

Lemma init_inv : inv init.
Proof. by split. Qed.

(** C35. The queue under any interleaving of puts, gets and the closing of [done]: the
    values are taken in the order in which they were put, each one once; [Get] gives up
    only after [done]; and no wake-up is lost: if the getter is blocked in its select
    with nothing to receive and every put has finished, the queue is empty. *)
Theorem Queue_correct (c : config) :
  rtc step init c →
  put_log c = get_log c ++ list_ (queue c) ∧
  (get c = GetReturn None → closed c = true) ∧
  (get c = GetSelect → notify (queue c) = false → Forall (λ p, p ≠ PutNotify true) (puts c) →
   list_ (queue c) = [] ∧ waiting (queue c) = true).
Proof.
  intros Hr. destruct (steps_inv _ _ Hr init_inv) as [Hf Hw _ Hn].
  split_and!; [done|done|]. intros Hg Hno Hp.
  destruct (Hw Hg) as [[? ?]|[?|[i Hi]]]; [done|congruence|].
  rewrite Forall_lookup in Hp. by destruct (Hp _ _ Hi).
Qed.
End queue.

Arguments Queue V : clear implicits.
Arguments config V : clear implicits.

Module QueueExamples.
(** A get that waits, a put that wakes it up, and the get that takes the value. *)
Definition taken : config Z :=
  MkConfig (MkQueue [] false false) false [PutEnd] (GetReturn (Some 5%Z)) [5%Z] [5%Z].

Lemma taken_reachable : rtc step init taken.
Proof.
  eapply rtc_l; [apply step_get|]. eapply rtc_l; [apply (step_new_put 5%Z)|].
  eapply rtc_l; [apply (step_put 0 5%Z); reflexivity|].
  eapply rtc_l; [apply (step_notify 0 true); reflexivity|].
  eapply rtc_l; [apply step_receive; reflexivity|].
  eapply rtc_l; [apply step_get|]. apply rtc_refl.
Defined.

Lemma Queue_correct_witness : put_log taken = get_log taken ++ list_ (queue taken).
Proof. apply (Queue_correct taken taken_reachable). Defined.
End QueueExamples.
