(* ===== verification/FlowControl.v ===== *)
(** Flow control of streams (stream/flow_control.go): the window of the sender, the
    accounting of the receiver, and the two of them connected by a data channel in one
    direction and a feedback channel in the other.

    The size that the sender takes from its window for a message and the size that the receiver
    counts for it are two numbers: a server counts the compressed data that the client took
    (stream/server.go, client/stream.go), but a client counts the data after it decompressed them
    (stream/client.go), for which the server took the compressed size. *)

From S2P Require Import Prelude.

(** ** The operations *)

(** [sendControl]: the window and the buffered token of [ch]. *)
Record sendControl := MkSend { window : Z; ch : bool }.

Definition newSendControl (window : Z) : sendControl := MkSend window false.

(** One round of the loop of [GetWindow] is a load, and then an addition or a wait. *)
Definition available (s : sendControl) : bool := (0 <? window s)%Z.
Definition take_window (s : sendControl) (w : Z) : sendControl :=
  MkSend (i64 (window s - w)) (ch s).

Definition checkUpdate (updatedWindow increment : Z) : bool :=
  (updatedWindow - increment <=? 0)%Z && (0 <? updatedWindow)%Z.

(** [UpdateWindow]: the addition, and the signal that may follow. *)
Definition add_window (s : sendControl) (increment : Z) : sendControl * bool :=
  let updated := i64 (window s + increment) in
  (MkSend updated (ch s), checkUpdate updated increment).
Definition signal (s : sendControl) : sendControl := MkSend (window s) true.

(** [receiveControl]: the limit and the bytes consumed but not yet reported. *)
Record receiveControl := MkReceive { buffer : Z; unUpdated : Z }.

Definition newReceiveControl (buffer : Z) : receiveControl := MkReceive buffer 0.

(** [OnRecv]: the new state and the increment to feed back, if any. *)
Definition OnRecv (r : receiveControl) (n : Z) : receiveControl * option Z :=
  let un := u32 (unUpdated r + n) in
  if (buffer r `div` 4 <=? un)%Z then (MkReceive (buffer r) 0, Some un)
  else (MkReceive (buffer r) un, None).

(** ** Sender and receiver together *)

Section flow.
(** The sizes taken and counted for one message. *)
Variable counts : Z → Z → Prop.

(** The sending goroutine: between messages, before the load, before the addition, and
    in the select; with the size that it takes and the size that the receiver will count. *)
Inductive sender := Idle | Load (n k : Z) | Add (n k : Z) | Select (n k : Z).

(** [drift]: by how much more was counted than taken so far; no part of the code. *)
Record stream := MkStream {
  sctl : sendControl;
  snd_pc : sender;
  data : list (Z * Z);
  rctl : receiveControl;
  feedback : list Z;
  updating : option bool;
  drift : Z
}.

(** Messages of at most 2^31 bytes: frames are limited to much less. *)
Inductive step : stream → stream → Prop :=
| send_start s d r f u x n k : (0 ≤ n ≤ 2 ^ 31)%Z → (0 ≤ k ≤ 2 ^ 31)%Z → counts n k →
    step (MkStream s Idle d r f u x) (MkStream s (Load n k) d r f u x)
| send_load s d r f u x n k :
    step (MkStream s (Load n k) d r f u x)
         (MkStream s (if available s then Add n k else Select n k) d r f u x)
| send_add s d r f u x n k :
    step (MkStream s (Add n k) d r f u x) (MkStream (take_window s n) Idle (d ++ [(n, k)]) r f u x)
| send_wake s d r f u x n k : ch s = true →
    step (MkStream s (Select n k) d r f u x) (MkStream (MkSend (window s) false) (Load n k) d r f u x)
| receive s p n k d r f u x :
    step (MkStream s p ((n, k) :: d) r f u x)
         (MkStream s p d (OnRecv r k).1 (f ++ option_list (OnRecv r k).2) u (x + (k - n)))
| update_add s p d r i f x :
    step (MkStream s p d r (i :: f) None x)
         (MkStream (add_window s i).1 p d r f (Some (add_window s i).2) x)
| update_signal s p d r f b x :
    step (MkStream s p d r f (Some b) x) (MkStream (if b then signal s else s) p d r f None x).

Definition init (W : Z) : stream :=
  MkStream (newSendControl W) Idle [] (newReceiveControl W) [] None 0.

Definition sum (l : list Z) : Z := foldr Z.add 0%Z l.

Lemma sum_app l k : sum (l ++ k) = (sum l + sum k)%Z.
Proof. induction l; simpl; [done|]. unfold sum in *. simpl. lia. Qed.

Lemma sum_nonneg l : Forall (λ n, 0 ≤ n)%Z l → (0 ≤ sum l)%Z.
Proof. unfold sum. induction 1; simpl; lia. Qed.

(** The bytes taken and on their way, and those counted that the sender has not been credited for. *)
Definition taken (c : stream) : Z := sum (fst <$> data c).
Definition outstanding (c : stream) : Z := taken c + unUpdated (rctl c) + sum (feedback c).

Definition message (p : sender) : option (Z * Z) :=
  match p with Idle => None | Load n k | Add n k | Select n k => Some (n, k) end.

(** A message as the receiver counts it is at least as long as the sender took it. *)
Definition sized (m : Z * Z) : Prop := (0 ≤ m.1 ≤ m.2)%Z ∧ (m.2 ≤ 2 ^ 31)%Z ∧ counts m.1 m.2.

Record inv (W : Z) (c : stream) : Prop := {
  inv_buffer : buffer (rctl c) = W;
  inv_credit : (window (sctl c) + outstanding c = W + drift c)%Z;
  inv_drift : (0 ≤ drift c)%Z;
  inv_exact : (∀ n k, counts n k → k = n) → drift c = 0%Z;
  inv_data : Forall sized (data c);
  inv_feedback : Forall (λ n, 0 ≤ n)%Z (feedback c);
  inv_unUpdated : (unUpdated (rctl c) = 0 ∨ 0 ≤ unUpdated (rctl c) < W `div` 4)%Z;
  inv_window : (- 2 ^ 31 < window (sctl c) ≤ W + drift c)%Z;
  inv_message : ∀ m, message (snd_pc c) = Some m → sized m;
  inv_add : ∀ n k, snd_pc c = Add n k → (0 < window (sctl c))%Z;
  inv_wake : ∀ n k, snd_pc c = Select n k →
    (window (sctl c) ≤ 0)%Z ∨ ch (sctl c) = true ∨ updating c = Some true
}.

Lemma taken_nonneg l : Forall sized l → (0 ≤ sum (fst <$> l))%Z.
Proof. intros H. apply sum_nonneg, Forall_fmap. eapply Forall_impl; [exact H|]. intros [n k] [? _]. simpl in *. lia. Qed.

Lemma OnRecv_spec W r n : (0 < W < 2 ^ 32)%Z → buffer r = W → (0 ≤ n ≤ 2 ^ 31)%Z →
  (unUpdated r = 0 ∨ 0 ≤ unUpdated r < W `div` 4)%Z →
  buffer (OnRecv r n).1 = W ∧
  (unUpdated (OnRecv r n).1 + sum (option_list (OnRecv r n).2) = unUpdated r + n)%Z ∧
  (unUpdated (OnRecv r n).1 = 0 ∨ 0 ≤ unUpdated (OnRecv r n).1 < W `div` 4)%Z ∧
  Forall (λ n, 0 ≤ n)%Z (option_list (OnRecv r n).2).
Proof.
  intros HW Hb Hn Hu. assert (W `div` 4 < 2 ^ 30)%Z by (apply Z.div_lt_upper_bound; lia).
  unfold OnRecv. rewrite Hb, u32_small by (unfold is_u32; lia).
  destruct (W `div` 4 <=? _)%Z eqn:Hle; bool_to_prop; simpl; unfold sum; simpl;
    split_and!; try done; try lia; repeat constructor; lia.
Qed.

(** What is counted is at least what was taken: true without compression, and where it shortens. *)
Hypothesis not_shorter : ∀ n k, counts n k → (n ≤ k)%Z.

(** The messages of a run are sized, so [drift] grows. *)
Definition wf (c : stream) : Prop := Forall sized (data c) ∧ ∀ m, message (snd_pc c) = Some m → sized m.

Lemma step_wf c c' : step c c' → wf c → wf c' ∧ (drift c ≤ drift c')%Z.
Proof.
  intros Hs [Hd Hm]. destruct Hs as [s d r f u x n k Hn Hk Hct|s d r f u x n k|s d r f u x n k|s d r f u x n k Hch|
    s p n k d r f u x|s p d r i f x|s p d r f b x]; simpl in *; (split; [split|]); simpl; try done.
  - intros m Hm'. simplify_eq. pose proof (not_shorter _ _ Hct). split_and!; simpl; [lia..|done].
  - intros m Hm'. apply Hm. by destruct (available s).
  - apply Forall_app. split; [done|]. apply Forall_singleton. by apply Hm.
  - by apply Forall_cons in Hd as [_ ?].
  - apply Forall_cons in Hd as [(? & ? & _) _]. simpl in *. lia.
Qed.

(** The bounds of the window are far from the width of the counter as long as [drift] is. *)
Lemma flow_step_inv W c c' :
  (0 < W < 2 ^ 32)%Z → step c c' → inv W c → (drift c' < 2 ^ 62)%Z → inv W c'.
Proof.
  intros HW Hs Hi. destruct Hi as [Hb Hc Hx He Hd Hf Hu Hw Hm Ha Hk].
  pose proof (taken_nonneg _ Hd) as Htk. pose proof (sum_nonneg _ Hf) as Hsf.
  destruct Hs as [s d r f u x n k Hn Hk' Hct|s d r f u x n k|s d r f u x n k|s d r f u x n k Hch|
    s p n k d r f u x|s p d r i f x|s p d r f b x]; unfold outstanding, taken in *; simpl in *.
  - intros _. split; simpl in *; try done. intros m Hm'. simplify_eq.
    pose proof (not_shorter _ _ Hct). split_and!; simpl; [lia..|done].
  - intros _. split; simpl in *; try done.
    + intros m Hm'. apply Hm. unfold available in Hm'. by destruct (0 <? window s)%Z.
    + intros m j. unfold available. destruct (0 <? window s)%Z eqn:E; bool_to_prop; [done|done].
    + intros m j. unfold available. destruct (0 <? window s)%Z eqn:E; bool_to_prop; [done|]. intros _. left. lia.
  - intros Hlt. specialize (Ha n k eq_refl). specialize (Hm (n, k) eq_refl).
    pose proof Hm as (Hn & Hk2 & _). simpl in Hn, Hk2.
    assert (i64 (window s - n) = window s - n)%Z as Hi64 by (apply i64_small; unfold is_i64; lia).
    split; simpl in *; rewrite ?Hi64; try done; try lia.
    + unfold outstanding, taken. simpl. rewrite fmap_app, sum_app. unfold sum at 2. simpl. lia.
    + apply Forall_app. split; [done|by apply Forall_singleton].
  - intros _. by split.
  - apply Forall_cons in Hd as [Hnk Hd]. pose proof Hnk as (Hn & Hk2 & Hct). simpl in Hn, Hk2, Hct.
    destruct (OnRecv_spec W r k HW Hb ltac:(lia) Hu) as (R1 & R2 & R3 & R4).
    assert (window s + (n + sum (fst <$> d) + unUpdated r + sum f) = W + x)%Z as Hc' by exact Hc.
    intros _. split; simpl; try done.
    + unfold outstanding, taken. cbn [data rctl feedback]. rewrite sum_app. lia.
    + lia.
    + intros E. rewrite (He E), (E _ _ Hct). lia.
    + by apply Forall_app.
    + lia.
  - intros Hlt. apply Forall_cons in Hf as [Hn Hf]. unfold sum at 2 in Hc. simpl in Hc. fold (sum f) in Hc.
    pose proof (sum_nonneg f Hf).
    assert (0 ≤ unUpdated r)%Z by lia.
    assert (i64 (window s + i) = window s + i)%Z as Hi64 by (apply i64_small; unfold is_i64; lia).
    split; simpl in *; rewrite ?Hi64; try done; try lia.
    + unfold outstanding, taken. simpl. lia.
    + intros m j Hm'. specialize (Ha m j Hm'). lia.
    + intros m j Hm'. destruct (Hk m j Hm') as [?|[?|?]]; [|by right; left|done].
      unfold checkUpdate. destruct (decide (0 < window s + i)%Z); [|left; lia].
      right; right. f_equal. apply andb_true_iff. split; [apply Z.leb_le|apply Z.ltb_lt]; lia.
  - intros _. split; simpl in *; try done; try (destruct b; done).
    intros m j Hm'. destruct (Hk m j Hm') as [?|[?|?]]; destruct b; simpl in *; auto; done.
Qed.

Lemma flow_init_inv W : (0 < W < 2 ^ 32)%Z → inv W (init W).
Proof.
  intros HW. split; simpl; try done; try lia; try (by repeat constructor).
Qed.

Lemma flow_reach_inv W c : (0 < W < 2 ^ 32)%Z → rtc step (init W) c → (drift c < 2 ^ 62)%Z → inv W c.
Proof.
  intros HW Hr. cut (wf c ∧ (drift c < 2 ^ 62 → inv W c)%Z); [by intros [_ ?]|].
  revert c Hr. apply rtc_ind_r.
  { split; [by split|]. intros _. by apply flow_init_inv. }
  intros c c' _ Hs [Hwf IH]. destruct (step_wf _ _ Hs Hwf) as [Hwf' Hle]. split; [done|]. intros Hlt.
  eapply flow_step_inv; [done|done|apply IH; lia|done].
Qed.

(** C36. Flow control neither loses credit nor blocks for ever, as long as the receiver counts at least
    what the sender took for a message and counted less than 2^62 more in all: the sender's window and the
    bytes under way or consumed but not yet reported always add up to the window of [W] bytes and what
    was counted more; the sender has at most one message more than that under way; and a sender that
    waits for the window to grow, while no data and no feedback is under way, has already been
    signalled.  If both take and count the same - a client that sends, or a server that does not
    compress - nothing is counted more, and the bounds are those of [W]. *)
Theorem FlowControl_correct (W : Z) (c : stream) :
  (0 < W < 2 ^ 32)%Z → rtc step (init W) c → (drift c < 2 ^ 62)%Z →
  (window (sctl c) + outstanding c = W + drift c)%Z ∧
  (outstanding c < W + drift c + 2 ^ 31)%Z ∧
  ((∀ n k, counts n k → k = n) → drift c = 0%Z) ∧
  (∀ n k, snd_pc c = Select n k → data c = [] → feedback c = [] →
     (0 < window (sctl c))%Z ∧ (ch (sctl c) = true ∨ updating c = Some true)).
Proof.
  intros HW Hr Hlt. pose proof (flow_reach_inv W c HW Hr Hlt) as Hi.
  pose proof (inv_credit _ _ Hi) as Hc. pose proof (inv_window _ _ Hi). pose proof (inv_drift _ _ Hi).
  split; [done|]. split; [lia|]. split; [apply Hi|]. intros n k Hn Hd Hf.
  assert (0 < window (sctl c))%Z as Hpos.
  { unfold outstanding, taken in Hc. rewrite Hd, Hf in Hc. unfold sum in Hc. simpl in Hc.
    assert (W `div` 4 < W)%Z by (apply Z.div_lt; lia).
    destruct (inv_unUpdated _ _ Hi); lia. }
  split; [done|]. destruct (inv_wake _ _ Hi n k Hn) as [?|?]; [lia|done].
Qed.
End flow.

Module FlowExamples.
(** A sender that has used up a window of 8 bytes and waits; 8 bytes are under way. *)
Definition blocked : stream :=
  MkStream (MkSend 0 false) (Select 1 1) [(8%Z, 8%Z)] (MkReceive 8 0) [] None 0.

Lemma blocked_reachable : rtc (step eq) (init 8) blocked.
Proof.
  eapply rtc_l; [apply (send_start _ _ _ _ _ _ _ 8 8); lia|].
  eapply rtc_l; [apply send_load|]. eapply rtc_l; [apply send_add|].
  eapply rtc_l; [apply (send_start _ _ _ _ _ _ _ 1 1); lia|].
  eapply rtc_l; [apply send_load|]. apply rtc_refl.
Defined.

Lemma FlowControl_correct_witness : (window (sctl blocked) + outstanding blocked = 8)%Z.
Proof.
  apply (FlowControl_correct eq (λ n k H, Z.eq_le_incl _ _ H) 8 blocked); [lia|exact blocked_reachable|reflexivity].
Defined.

(** Messages that compression makes longer: 25 bytes are taken for a message that counts 1. *)
Definition longer (n k : Z) : Prop := n = 25%Z ∧ k = 1%Z.

(** The window of 8 bytes is used up by the first message; the receiver counts 1 byte of it, which it does
    not report yet: the second message waits, and nothing will happen any more. *)
Definition stalled : stream :=
  MkStream (MkSend (-17) false) (Select 25 1) [] (MkReceive 8 1) [] None (-24).

Lemma compression_stalls : rtc (step longer) (init 8) stalled ∧ ∀ c, ¬ step longer stalled c.
Proof.
  split; [|by inversion 1].
  eapply rtc_l; [apply (send_start _ _ _ _ _ _ _ 25 1); [lia|lia|done]|].
  eapply rtc_l; [apply send_load|]. eapply rtc_l; [apply send_add|]. eapply rtc_l; [apply receive|].
  eapply rtc_l; [apply (send_start _ _ _ _ _ _ _ 25 1); [lia|lia|done]|].
  eapply rtc_l; [apply send_load|]. apply rtc_refl.
Qed.

(** Messages that it makes shorter: 1 byte is taken for one that counts 8, and the window grows. *)
Lemma compression_grows :
  rtc (step (λ n k, n = 1 ∧ k = 8)%Z) (init 8) (MkStream (MkSend 15 false) Idle [] (MkReceive 8 0) [] (Some false) 7).
Proof.
  eapply rtc_l; [apply (send_start _ _ _ _ _ _ _ 1 8); [lia|lia|done]|].
  eapply rtc_l; [apply send_load|]. eapply rtc_l; [apply send_add|]. eapply rtc_l; [apply receive|].
  eapply rtc_l; [apply update_add|]. apply rtc_refl.
Qed.
End FlowExamples.
