(* ===== verification/RoundRobin.v ===== *)
(** Round robin and smooth weighted round robin load balancing
    (naming/loadbalance/roundrobin, naming/loadbalance/weightroundrobin).

    A picker keeps the list of nodes of one service; the clock is an argument of [Pick].
    [DeepCopyNode] returns a node with the same contents. *)

From S2P Require Import Prelude.

(** The fields of registry.Node that the balancers read. *)
Record Node := MkNode { Address : string; Weight : Z }.

#[global] Instance Node_eq_dec : EqDecision Node.
Proof. solve_decision. Defined.

Definition ErrNoServerAvailable : error := Plain "no server is available".

(** Whether the list of a picker is replaced: [time.Since(updated) > interval]. *)
Definition outdated {A} (plist : list A) (updated interval : Z) (nodes : list Node) (now : Z) : bool :=
  (zlen plist =? 0)%Z || negb (zlen plist =? zlen nodes)%Z || (interval <? now - updated)%Z.

(** ** Round robin *)

Record rrPicker := MkRR { rr_list : list Node; rr_updated : Z; next : Z; rr_interval : Z }.

Definition rr_new (interval : Z) : rrPicker := MkRR [] 0 0 interval.

Definition rr_updateState (p : rrPicker) (nodes : list Node) (now : Z) : rrPicker :=
  if outdated (rr_list p) (rr_updated p) (rr_interval p) nodes now
  then MkRR nodes now 0 (rr_interval p) else p.

Definition rr_Pick (p : rrPicker) (nodes : list Node) (now : Z) : result Node * rrPicker :=
  let p := rr_updateState p nodes now in
  if (zlen (rr_list p) =? 0)%Z then (Err ErrNoServerAvailable, p) else
  let node := if (next p <? 0)%Z then None else rr_list p !! Z.to_nat (next p) in
  (of_option node,
   MkRR (rr_list p) (rr_updated p) ((next p + 1) mod zlen (rr_list p)) (rr_interval p)).

(** ** Smooth weighted round robin *)

Record Server := MkServer { node : Node; weight : Z; currentWeight : Z; effectWeight : Z }.

Record wrrPicker := MkWRR { wrr_list : list Server; wrr_updated : Z; wrr_interval : Z }.

Definition wrr_new (interval : Z) : wrrPicker := MkWRR [] 0 interval.

Definition nodeWeight (n : Node) : Z := if (Weight n =? 0)%Z then 1000%Z else Weight n.

Definition getServers (nodes : list Node) : list Server :=
  (λ n, MkServer n (nodeWeight n) 0 (nodeWeight n)) <$> nodes.

Definition wrr_updateState (p : wrrPicker) (nodes : list Node) (now : Z) : wrrPicker :=
  if outdated (wrr_list p) (wrr_updated p) (wrr_interval p) nodes now
  then MkWRR (getServers nodes) now (wrr_interval p) else p.

(** What the body of the loop does to a server. *)
Definition bump (s : Server) : Server :=
  MkServer (node s) (weight s) (i64 (currentWeight s + effectWeight s))
    (if (effectWeight s <? weight s)%Z then i64 (effectWeight s + 1) else effectWeight s).

(** The loop: [i] is the position, [selected] the position and current weight of the server
    selected so far. *)
Fixpoint select_loop (i : nat) (selected : option (nat * Z)) (total : Z) (l : list Server)
    : option (nat * Z) * Z * list Server :=
  match l with
  | [] => (selected, total, [])
  | s :: l =>
    let s' := bump s in
    let total := i64 (total + effectWeight s) in
    let selected := match selected with
      | None => Some (i, currentWeight s')
      | Some (_, w) => if (w <? currentWeight s')%Z then Some (i, currentWeight s') else selected
      end in
    let '(sel, total, l) := select_loop (S i) selected total l in (sel, total, s' :: l)
  end.

(** [selectServer]: the position of the selected server, and the servers afterwards; on an
    empty list the code dereferences a nil pointer. *)
Definition selectServer (l : list Server) : option nat * list Server :=
  let '(sel, total, l) := select_loop 0 None 0 l in
  match sel with
  | None => (None, l)
  | Some (i, _) =>
    (Some i, alter (λ s, MkServer (node s) (weight s) (i64 (currentWeight s - total))
                           (effectWeight s)) i l)
  end.

Definition wrr_Pick (p : wrrPicker) (nodes : list Node) (now : Z) : result Node * wrrPicker :=
  let p := wrr_updateState p nodes now in
  if (zlen (wrr_list p) =? 0)%Z then (Err ErrNoServerAvailable, p) else
  let '(sel, l) := selectServer (wrr_list p) in
  (of_option (i ← sel; node <$> l !! i), MkWRR l (wrr_updated p) (wrr_interval p)).

(** ** Balancers: a picker per service *)

Definition Select {P} (pick : P → list Node → Z → result Node * P) (newPicker : P)
    (pickers : gmap string P) (serviceName : string) (nodes : list Node) (now : Z)
    : result Node * gmap string P :=
  let p := default newPicker (pickers !! serviceName) in
  let '(r, p) := pick p nodes now in (r, <[serviceName := p]> pickers).

(** ** Calls in a row *)

(** The results of calls of [Pick] with the same list at the given times. *)
Fixpoint calls {P} (pick : P → list Node → Z → result Node * P) (p : P) (nodes : list Node)
    (times : list Z) : list (result Node) * P :=
  match times with
  | [] => ([], p)
  | t :: times =>
    let '(r, p) := pick p nodes t in
    let '(rs, p) := calls pick p nodes times in (r :: rs, p)
  end.

Definition rr_ok (p : rrPicker) : Prop := (0 ≤ next p < zlen (rr_list p))%Z.

Lemma rr_Pick_ok p nodes t :
  rr_ok p → outdated (rr_list p) (rr_updated p) (rr_interval p) nodes t = false →
  ∃ n, rr_list p !! Z.to_nat (next p) = Some n ∧
    rr_Pick p nodes t =
    (Ok n, MkRR (rr_list p) (rr_updated p) ((next p + 1) mod zlen (rr_list p)) (rr_interval p)).
Proof.
  unfold rr_ok. intros Hn Ho. unfold rr_Pick, rr_updateState. rewrite Ho.
  rewrite (proj2 (Z.eqb_neq _ _)) by lia. rewrite (proj2 (Z.ltb_ge _ _)) by lia.
  destruct (lookup_lt_is_Some_2 (rr_list p) (Z.to_nat (next p))) as [n Hl]; [unfold zlen in *; lia|].
  exists n. by rewrite Hl.
Qed.

(** The node at a position, counted around the list. *)
Definition around (l : list Node) (k : Z) : option Node := l !! Z.to_nat (k mod zlen l).

Lemma rr_calls times p nodes :
  rr_ok p → Forall (λ t, outdated (rr_list p) (rr_updated p) (rr_interval p) nodes t = false) times →
  Some <$> (calls rr_Pick p nodes times).1 =
  (λ i, Ok <$> around (rr_list p) (next p + Z.of_nat i)) <$> seq 0 (length times).
Proof.
  revert p. induction times as [|t times IH]; intros p Hp Ht; [done|].
  apply Forall_cons in Ht as [Ht Hts].
  destruct (rr_Pick_ok p nodes t Hp Ht) as (n & Hn & Heq). simpl. rewrite Heq.
  set (p' := MkRR _ _ _ _). specialize (IH p').
  assert (rr_ok p') as Hp'.
  { unfold rr_ok in *. simpl. apply Z.mod_pos_bound. lia. }
  specialize (IH Hp' Hts). destruct (calls rr_Pick p' nodes times) as [rs p''] eqn:Hc.
  simpl in *. unfold rr_ok in Hp. f_equal.
  - unfold around. rewrite Z.add_0_r, Z.mod_small by lia. by rewrite Hn.
  - etrans; [exact IH|]. rewrite <- fmap_S_seq, <- list_fmap_compose. apply list_fmap_ext.
    intros i k _. unfold around. simpl. do 3 f_equal. rewrite Zplus_mod_idemp_l. f_equal. lia.
Qed.

Lemma around_all l a :
  (0 ≤ a < zlen l)%Z →
  (λ i, Ok <$> around l (a + Z.of_nat i)) <$> seq 0 (length l) =
  Some <$> (Ok <$> (drop (Z.to_nat a) l ++ take (Z.to_nat a) l)).
Proof.
  intros Ha. apply list_eq. intros i. unfold zlen in Ha.
  rewrite !list_lookup_fmap. destruct (decide (i < length l)) as [Hi|Hi].
  - rewrite lookup_seq_lt by done. simpl. unfold around, zlen.
    destruct (decide (Z.to_nat a + i < length l)).
    + rewrite Z.mod_small by lia. rewrite lookup_app_l by (rewrite length_drop; lia).
      rewrite lookup_drop. replace (Z.to_nat (a + Z.of_nat i)) with (Z.to_nat a + i) by lia.
      destruct (lookup_lt_is_Some_2 l (Z.to_nat a + i)) as [x ->]; [lia|done].
    + rewrite <- (Z.mod_add _ (-1)), Z.mod_small by lia.
      rewrite lookup_app_r by (rewrite length_drop; lia). rewrite length_drop, lookup_take_lt by lia.
      replace (Z.to_nat (a + Z.of_nat i + -1 * Z.of_nat (length l)))
        with (i - (length l - Z.to_nat a)) by lia.
      destruct (lookup_lt_is_Some_2 l (i - (length l - Z.to_nat a))) as [x ->]; [lia|done].
  - rewrite lookup_seq_ge, lookup_ge_None_2; [done| |lia].
    rewrite length_app, length_drop, length_take. lia.
Qed.

(** Round robin: while its list is not due for renewal, a picker never fails and goes
    around its list, so any [length list] calls in a row pick every position once. *)
Theorem rr_fair (p : rrPicker) (nodes : list Node) (times : list Z) :
  rr_ok p → Forall (λ t, outdated (rr_list p) (rr_updated p) (rr_interval p) nodes t = false) times →
  Some <$> (calls rr_Pick p nodes times).1 =
    ((λ i, Ok <$> around (rr_list p) (next p + Z.of_nat i)) <$> seq 0 (length times)) ∧
  (length times = length (rr_list p) →
     (calls rr_Pick p nodes times).1 ≡ₚ Ok <$> rr_list p).
Proof.
  intros Hp Ht. pose proof (rr_calls times p nodes Hp Ht) as Hc. split; [done|]. intros Hl.
  rewrite Hl, around_all in Hc by exact Hp.
  apply (inj (fmap Some)) in Hc. rewrite Hc, Permutation_app_comm, take_drop. done.
Qed.

(** ** Sums over positions *)

Fixpoint sumf (n : nat) (f : nat → Z) : Z :=
  match n with O => 0%Z | S n => (sumf n f + f n)%Z end.

Lemma sumf_ext n (f g : nat → Z) : (∀ i, (i < n)%nat → f i = g i) → sumf n f = sumf n g.
Proof. intros H. induction n; simpl; [done|]. rewrite IHn, H by auto. done. Qed.

Lemma sumf_add n (f g : nat → Z) : sumf n (λ i : nat, f i + g i)%Z = (sumf n f + sumf n g)%Z.
Proof. induction n; simpl; lia. Qed.

Lemma sumf_scale n c (f : nat → Z) : sumf n (λ i : nat, c * f i)%Z = (c * sumf n f)%Z.
Proof. induction n; simpl; lia. Qed.

Lemma sumf_le n (f g : nat → Z) : (∀ i, (i < n)%nat → f i ≤ g i)%Z → (sumf n f ≤ sumf n g)%Z.
Proof.
  intros H. induction n; simpl; [done|].
  pose proof (H n ltac:(lia)). assert (sumf n f ≤ sumf n g)%Z by auto. lia.
Qed.

Lemma sumf_pos n (f : nat → Z) : (0 < sumf n f)%Z → ∃ i, (i < n)%nat ∧ (0 < f i)%Z.
Proof.
  induction n; simpl; intros H; [lia|]. destruct (decide (0 < f n)%Z); [exists n; lia|].
  destruct IHn as (i & ? & ?); [lia|]. exists i. lia.
Qed.

(** One term is what the others leave. *)
Lemma sumf_split n (f : nat → Z) i : i < n →
  sumf n f = (f i + sumf n (λ j : nat, if decide (j = i) then 0 else f j))%Z.
Proof.
  induction n; simpl; intros Hi; [lia|]. destruct (decide (i = n)) as [->|].
  - rewrite decide_True by done.
    rewrite (sumf_ext n (λ j : nat, if decide (j = n) then 0 else f j) f)%Z; [lia|].
    intros j Hj. rewrite decide_False by lia. done.
  - rewrite (decide_False (P := n = i)) by lia. rewrite IHn by lia. lia.
Qed.

Definition times_of (ps : list nat) (i : nat) : Z := Z.of_nat (count_occ Nat.eq_dec ps i).

Lemma times_of_app ps k i :
  times_of (ps ++ [k]) i = (times_of ps i + if decide (i = k) then 1 else 0)%Z.
Proof.
  unfold times_of. rewrite count_occ_app. simpl. case_decide as Hd; destruct (Nat.eq_dec k i); lia.
Qed.

Lemma sumf_times n ps : Forall (λ k, k < n) ps → sumf n (times_of ps) = zlen ps.
Proof.
  induction ps as [|k ps IH] using rev_ind.
  - intros _. unfold times_of, zlen. simpl. induction n; simpl; lia.
  - intros [Hps Hk]%Forall_app. pose proof (Forall_inv Hk) as Hkn. simpl in Hkn.
    rewrite (sumf_ext _ _ _ (λ (i : nat) _, times_of_app ps k i)), sumf_add, IH by done.
    rewrite zlen_app, (sumf_split n _ k Hkn). rewrite decide_True by done.
    assert (sumf n (λ j : nat, if decide (j = k) then 0 else if decide (j = k) then 1 else 0)%Z = 0%Z) as ->; [|done].
    clear. induction n; simpl; [done|]. rewrite IHn. by repeat case_decide.
Qed.

(** ** Smooth weighted round robin is exact *)

Definition suml (l : list Z) : Z := foldr Z.add 0%Z l.

Lemma suml_snoc l x : suml (l ++ [x]) = (suml l + x)%Z.
Proof. unfold suml. rewrite foldr_app. simpl. induction l; simpl in *; lia. Qed.

Lemma suml_sumf l f : (∀ i x, l !! i = Some x → x = f i) → suml l = sumf (length l) f.
Proof.
  induction l as [|x l IH] using rev_ind; intros H; [done|].
  rewrite suml_snoc, length_app, Nat.add_1_r. simpl. rewrite IH.
  - f_equal. apply (H (length l)). by apply list_lookup_middle.
  - intros i y Hy. apply (H i). by apply lookup_app_l_Some.
Qed.

Lemma select_loop_spec i sel total l :
  Forall (λ s, 0 ≤ effectWeight s)%Z l → (0 ≤ total)%Z →
  (total + suml (effectWeight <$> l) < 2 ^ 63)%Z →
  ∃ sel', select_loop i sel total l =
    (sel', total + suml (effectWeight <$> l), bump <$> l)%Z ∧
  (l ≠ [] ∨ sel ≠ None → ∃ k w, sel' = Some (k, w) ∧
     (sel = Some (k, w) ∨ ∃ s, i ≤ k ∧ l !! (k - i) = Some s ∧ w = currentWeight (bump s)) ∧
     (∀ j s, l !! j = Some s → currentWeight (bump s) ≤ w)%Z ∧
     (∀ k0 w0, sel = Some (k0, w0) → w0 ≤ w)%Z).
Proof.
  revert i sel total. induction l as [|s l IH]; intros i sel total Hp Ht Hb.
  { exists sel. unfold suml. simpl. rewrite Z.add_0_r. split; [done|].
    intros [?|?]; [done|]. destruct sel as [[k w]|]; [|done]. exists k, w. split; [done|].
    split; [by left|]. split; [done|]. intros. by simplify_eq. }
  apply Forall_cons in Hp as [Hs Hp]. simpl in Hs.
  assert (0 ≤ suml (effectWeight <$> l))%Z as Hnn.
  { clear -Hp. induction Hp as [|x l Hx Hp IHp]; [done|]. simpl in Hx.
    change (suml (effectWeight <$> x :: l)) with (effectWeight x + suml (effectWeight <$> l))%Z. lia. }
  assert (suml (effectWeight <$> s :: l) = effectWeight s + suml (effectWeight <$> l))%Z as Hsum by done.
  rewrite Hsum in Hb |- *. clear Hsum. simpl select_loop.
  assert (i64 (total + effectWeight s) = total + effectWeight s)%Z as -> by (apply i64_small; unfold is_i64; lia).
  set (sel1 := match sel with None => _ | Some _ => _ end).
  destruct (IH (S i) sel1 (total + effectWeight s)%Z Hp ltac:(lia) ltac:(lia)) as (sel' & Heq & Hsp).
  rewrite Heq. exists sel'. split; [do 2 f_equal; lia|]. intros _.
  assert (∃ k1 w1, sel1 = Some (k1, w1) ∧ (currentWeight (bump s) ≤ w1)%Z ∧
    (∀ k0 w0, sel = Some (k0, w0) → w0 ≤ w1)%Z ∧
    (sel = Some (k1, w1) ∨ k1 = i ∧ w1 = currentWeight (bump s))) as (k1 & w1 & E1 & E2 & E3 & E4).
  { unfold sel1. destruct sel as [[k0 w0]|];
      change (i64 (currentWeight s + effectWeight s)) with (currentWeight (bump s)); clear.
    - destruct (w0 <? currentWeight (bump s))%Z eqn:Hlt; bool_to_prop; do 2 eexists;
        (split; [reflexivity|]); split_and!; auto; try (intros; simplify_eq; lia); lia.
    - do 2 eexists. split; [reflexivity|]. split_and!; auto; try lia. done. }
  destruct Hsp as (k & w & -> & Hk & Hmax & Hprev); [right; by rewrite E1|].
  exists k, w. split; [done|]. specialize (Hprev _ _ E1). split_and!.
  - destruct Hk as [Hk|(s' & Hik & Hl & Hw)].
    + rewrite E1 in Hk. simplify_eq. destruct E4 as [E4|[-> ->]]; [by left|]. right. exists s.
      by rewrite Nat.sub_diag.
    + right. exists s'. split; [lia|]. split; [|done].
      by replace (k - i) with (S (k - S i)) by lia.
  - intros [|j] s' Hj; simpl in Hj; simplify_eq; [lia|by eapply Hmax].
  - intros k0 w0 Hs0. specialize (E3 _ _ Hs0). lia.
Qed.

(** The servers after the picks [ps], for positive weights [w] of sum [W]. *)
Record balanced (w : nat → Z) (n : nat) (l : list Server) (ps : list nat) : Prop := {
  bal_length : length l = n;
  bal_picks : Forall (λ k, k < n) ps;
  bal_server : ∀ i s, l !! i = Some s →
    weight s = w i ∧ effectWeight s = w i ∧
    (currentWeight s = zlen ps * w i - sumf n w * times_of ps i)%Z ∧
    (- sumf n w < currentWeight s)%Z
}.

(** The current weights add up to zero. *)
Lemma balanced_zero w n ps :
  Forall (λ k, k < n) ps → sumf n (λ i : nat, zlen ps * w i - sumf n w * times_of ps i)%Z = 0%Z.
Proof.
  intros Hp. rewrite (sumf_ext n _ (λ i : nat, zlen ps * w i + (- sumf n w) * times_of ps i)%Z).
  - rewrite sumf_add, !sumf_scale, sumf_times by done. lia.
  - intros. lia.
Qed.

Lemma sumf_zero n : sumf n (λ _ : nat, 0%Z) = 0%Z.
Proof. induction n; simpl; lia. Qed.

Lemma sumf_const n c : sumf n (λ _ : nat, c) = (c * Z.of_nat n)%Z.
Proof. induction n; simpl; lia. Qed.

(** A weight is at most the sum, and the sum is positive. *)
Lemma sumf_weights n w i : (∀ i, (i < n)%nat → 0 < w i)%Z → i < n → (0 < w i ≤ sumf n w)%Z.
Proof.
  intros Hw Hi. rewrite (sumf_split n w i Hi). pose proof (Hw i Hi).
  assert (sumf n (λ _ : nat, 0%Z) ≤ sumf n (λ j : nat, if decide (j = i) then 0 else w j)%Z)%Z as Hle.
  { apply sumf_le. intros j Hj. case_decide; [lia|]. pose proof (Hw j Hj). lia. }
  rewrite sumf_zero in Hle. lia.
Qed.

(** Terms that add up to zero and are above [-W] are below [(n - 1) * W]. *)
Lemma sumf_upper n f W i :
  sumf n f = 0%Z → (∀ j, (j < n)%nat → - W < f j)%Z → i < n → (f i ≤ W * (Z.of_nat n - 1))%Z.
Proof.
  intros Hz Hf Hi. rewrite (sumf_split n f i Hi) in Hz.
  assert (sumf n (λ j : nat, if decide (j = i) then 0 else - W)%Z ≤
    sumf n (λ j : nat, if decide (j = i) then 0 else f j)%Z)%Z as Hle.
  { apply sumf_le. intros j Hj. case_decide; [lia|]. pose proof (Hf j Hj). lia. }
  pose proof (sumf_split n (λ _ : nat, - W)%Z i Hi) as Hc. rewrite sumf_const in Hc. simpl in Hc. lia.
Qed.

Lemma selectServer_balanced w n l ps :
  (∀ i, (i < n)%nat → 0 < w i)%Z → 0 < n → (Z.of_nat n * sumf n w < 2 ^ 63)%Z →
  balanced w n l ps →
  ∃ k l', selectServer l = (Some k, l') ∧ balanced w n l' (ps ++ [k]) ∧ node <$> l' = node <$> l.
Proof.
  intros Hw Hn HW [Hlen Hps Hs]. set (W := sumf n w) in *.
  set (cw := λ i : nat, (zlen ps * w i - W * times_of ps i)%Z) in *.
  assert (∀ i, (i < n)%nat → 0 < w i ≤ W)%Z as Hwi by (intros i Hi; by apply sumf_weights).
  assert (∀ i, (i < n)%nat → - W < cw i)%Z as Hlow.
  { intros i Hi. destruct (lookup_lt_is_Some_2 l i) as [s Hl]; [lia|].
    destruct (Hs i s Hl) as (_ & _ & Hc & ?). unfold cw. lia. }
  pose proof (balanced_zero w n ps Hps) as Hzero. fold W cw in Hzero.
  pose proof (Hwi 0 Hn) as HW0.
  assert (∀ i, (i < n)%nat → cw i + w i < 2 ^ 63)%Z as Hup.
  { intros i Hi. pose proof (sumf_upper n cw W i Hzero Hlow Hi). pose proof (Hwi i Hi). nia. }
  assert (∀ i s, l !! i = Some s → i < n ∧ bump s = MkServer (node s) (w i) (cw i + w i)%Z (w i)) as Hbump.
  { intros i s Hl. assert (i < n) by (rewrite <- Hlen; by eapply lookup_lt_Some). split; [done|].
    destruct (Hs i s Hl) as (E1 & E2 & E3 & E4). unfold bump. rewrite E1, E2, E3, Z.ltb_irrefl.
    fold (cw i). rewrite i64_small; [done|]. pose proof (Hup i ltac:(done)).
    pose proof (Hlow i ltac:(done)). pose proof (Hw i ltac:(done)).
    assert (W < 2 ^ 63)%Z by nia. unfold is_i64. lia. }
  assert (suml (effectWeight <$> l) = W) as Hsum.
  { rewrite (suml_sumf _ w); [by rewrite length_fmap, Hlen|]. intros i x Hx.
    apply list_lookup_fmap_Some in Hx as (s & -> & Hl). by apply (Hs i s Hl). }
  assert (W < 2 ^ 63)%Z as HWb by nia.
  destruct (select_loop_spec 0 None 0 l) as (sel & Hloop & Hsel).
  { apply Forall_lookup. intros i s Hl. destruct (Hs i s Hl) as (_ & -> & _).
    assert (i < n) by (rewrite <- Hlen; by eapply lookup_lt_Some). pose proof (Hw i ltac:(done)). lia. }
  { lia. } { rewrite Hsum. lia. }
  rewrite Hsum, Z.add_0_l in Hloop.
  destruct Hsel as (k & wk & -> & Hk & Hmax & _); [left; intros ->; simpl in Hlen; lia|].
  destruct Hk as [|(s & _ & Hlk & Hwk)]; [done|]. rewrite Nat.sub_0_r in Hlk.
  destruct (Hbump k s Hlk) as [Hkn Hbk]. rewrite Hbk in Hwk. simpl in Hwk. subst wk.
  (* the selected one has a positive current weight *)
  assert (0 < cw k + w k)%Z as Hpos.
  { destruct (sumf_pos n (λ i : nat, cw i + w i)%Z) as (i & Hi & Hpi).
    { rewrite sumf_add, Hzero. fold W. lia. }
    destruct (lookup_lt_is_Some_2 l i) as [s' Hl']; [lia|].
    pose proof (Hmax i s' Hl') as Hm. rewrite (proj2 (Hbump i s' Hl')) in Hm. simpl in Hm. lia. }
  unfold selectServer. rewrite Hloop. eexists k, _. split; [reflexivity|].
  set (l' := alter _ k (bump <$> l)).
  assert (∀ i s', l' !! i = Some s' → ∃ s0, l !! i = Some s0 ∧ s' = MkServer (node s0) (w i)
    (cw i + w i - if decide (i = k) then W else 0)%Z (w i)) as Hl'.
  { intros i s' Hs'. unfold l' in Hs'. destruct (decide (i = k)) as [->|Hne].
    - rewrite list_lookup_alter_eq, list_lookup_fmap, Hlk in Hs' by done. cbn [fmap option_fmap option_map] in Hs'.
      rewrite Hbk in Hs'. simpl in Hs'. injection Hs' as <-. exists s. split; [done|].
      f_equal.
      apply i64_small. pose proof (Hup k Hkn). unfold is_i64. lia.
    - rewrite list_lookup_alter_ne, list_lookup_fmap in Hs' by done.
      destruct (l !! i) as [s0|] eqn:Hl0; [|done]. cbn [fmap option_fmap option_map] in Hs'.
      rewrite (proj2 (Hbump i s0 Hl0)) in Hs'. injection Hs' as <-.
      exists s0. split; [done|]. f_equal. lia. }
  split; [split|].
  - unfold l'. by rewrite length_alter, length_fmap.
  - apply Forall_app. split; [done|by apply Forall_singleton].
  - intros i s' Hs'. destruct (Hl' i s' Hs') as (s0 & Hl0 & ->). simpl.
    assert (i < n) by (rewrite <- Hlen; by eapply lookup_lt_Some).
    rewrite zlen_app, times_of_app. change (zlen [k]) with 1%Z. fold W.
    pose proof (Hlow i ltac:(done)). pose proof (Hw i ltac:(done)).
    split_and!; try done; unfold cw in *; case_decide; subst; lia.
  - apply list_eq. intros i. rewrite !list_lookup_fmap. destruct (l' !! i) as [s'|] eqn:Hs'.
    + destruct (Hl' i s' Hs') as (s0 & Hl0 & ->). by rewrite Hl0.
    + apply lookup_ge_None in Hs'. unfold l' in Hs'. rewrite length_alter, length_fmap in Hs'.
      by rewrite lookup_ge_None_2.
Qed.

Lemma getServers_balanced nodes (w := λ i, from_option nodeWeight 0%Z (nodes !! i)) :
  (∀ i, (i < length nodes)%nat → 0 < w i)%Z →
  balanced w (length nodes) (getServers nodes) [].
Proof.
  intros Hw. split; [by unfold getServers; rewrite length_fmap|done|].
  intros i s Hs. unfold getServers in Hs. apply list_lookup_fmap_Some in Hs as (n & -> & Hn).
  assert (w i = nodeWeight n) as Hwi by (unfold w; by rewrite Hn).
  assert (i < length nodes) as Hi by by eapply lookup_lt_Some.
  simpl. rewrite <- Hwi. split_and!; try done.
  - unfold times_of, zlen. simpl. lia.
  - pose proof (sumf_weights _ w i Hw Hi). lia.
Qed.

Lemma wrr_calls w nodes p ps times :
  (∀ i, (i < length nodes)%nat → 0 < w i)%Z → nodes ≠ [] →
  (zlen nodes * sumf (length nodes) w < 2 ^ 63)%Z →
  balanced w (length nodes) (wrr_list p) ps → node <$> wrr_list p = nodes →
  Forall (λ t, t - wrr_updated p ≤ wrr_interval p)%Z times →
  ∃ ps' l, (calls wrr_Pick p nodes times).1 = (λ k, of_option (nodes !! k)) <$> ps' ∧
    length ps' = length times ∧ balanced w (length nodes) l (ps ++ ps').
Proof.
  intros Hw Hne HW. revert p ps. induction times as [|t times IH]; intros p ps Hb Hn Ht.
  { exists [], (wrr_list p). by rewrite app_nil_r. }
  apply Forall_cons in Ht as [Ht Hts].
  assert (0 < length nodes) as Hpos by (destruct nodes; [done|simpl; lia]).
  destruct (selectServer_balanced w _ _ ps Hw Hpos HW Hb) as (k & l' & Hsel & Hb' & Hn').
  assert (zlen (wrr_list p) = zlen nodes) as Hz by (unfold zlen; by rewrite (bal_length _ _ _ _ Hb)).
  assert (wrr_Pick p nodes t =
    (of_option (nodes !! k), MkWRR l' (wrr_updated p) (wrr_interval p))) as Hpick.
  { unfold wrr_Pick, wrr_updateState, outdated. rewrite Hz, Z.eqb_refl.
    assert ((zlen nodes =? 0)%Z = false) as He by (apply Z.eqb_neq; unfold zlen; lia).
    rewrite He, (proj2 (Z.ltb_ge _ _) Ht). simpl. rewrite Hz, He, Hsel.
    pose proof (list_lookup_fmap node l' k) as Heq. rewrite Hn', Hn in Heq.
    simpl. by rewrite <- Heq. }
  simpl. rewrite Hpick. set (p' := MkWRR l' _ _).
  destruct (IH p' (ps ++ [k]) Hb') as (ps' & l & Hc & Hl & Hb2); [simpl; by rewrite Hn'|done|].
  destruct (calls wrr_Pick p' nodes times) as [rs p'']. simpl in Hc |- *.
  exists (k :: ps'), l. simpl. rewrite Hc. split; [done|]. split; [by f_equal|].
  by rewrite <- app_assoc in Hb2.
Qed.

(** C38. Weighted round robin is exact: of the calls that follow the fetch of a list, as many
    as the weights add up to, every node gets exactly as many as its weight (1000 for an
    unset one), and none of them fails. *)
Theorem wrr_exact (interval t0 : Z) (nodes : list Node) (times : list Z) :
  nodes ≠ [] → Forall (λ n, 0 < nodeWeight n)%Z nodes →
  (zlen nodes * suml (nodeWeight <$> nodes) < 2 ^ 63)%Z →
  Forall (λ t, t - t0 ≤ interval)%Z times →
  zlen (t0 :: times) = suml (nodeWeight <$> nodes) → (0 ≤ interval)%Z →
  ∃ ps, (calls wrr_Pick (wrr_new interval) nodes (t0 :: times)).1 =
      (λ k, of_option (nodes !! k)) <$> ps ∧
    Forall (λ k, k < length nodes) ps ∧
    ∀ i n, nodes !! i = Some n → times_of ps i = nodeWeight n.
Proof.
  intros Hne Hpos HW Ht Hlen Hint.
  set (w := λ i, from_option nodeWeight 0%Z (nodes !! i)).
  assert (suml (nodeWeight <$> nodes) = sumf (length nodes) w) as Hsum.
  { rewrite (suml_sumf _ w); [by rewrite length_fmap|]. intros i x Hx.
    apply list_lookup_fmap_Some in Hx as (n & -> & Hn). unfold w. by rewrite Hn. }
  rewrite Hsum in *.
  assert (∀ i, (i < length nodes)%nat → 0 < w i)%Z as Hw.
  { intros i Hi. destruct (lookup_lt_is_Some_2 nodes i Hi) as [n Hn]. unfold w. rewrite Hn.
    simpl. rewrite Forall_lookup in Hpos. by apply (Hpos i). }
  pose proof (getServers_balanced nodes Hw) as Hb.
  set (p1 := MkWRR (getServers nodes) t0 interval).
  assert (node <$> getServers nodes = nodes) as Hn.
  { unfold getServers. rewrite <- list_fmap_compose. apply list_fmap_id. }
  assert (Hfirst : calls wrr_Pick (wrr_new interval) nodes (t0 :: times) =
    calls wrr_Pick p1 nodes (t0 :: times)).
  { assert (wrr_updateState (wrr_new interval) nodes t0 = p1) as H1 by done.
    assert (wrr_updateState p1 nodes t0 = p1) as H2.
    { unfold wrr_updateState. by destruct (outdated _ _ _ _ _). }
    simpl. unfold wrr_Pick. by rewrite H1, H2. }
  rewrite Hfirst.
  destruct (wrr_calls w nodes p1 [] (t0 :: times) Hw Hne HW Hb Hn) as (ps & l & Hc & Hl & Hbal).
  { constructor; [simpl; lia|done]. }
  exists ps. split; [done|]. split; [apply Hbal|]. intros i n Hni.
  assert (i < length nodes) as Hi by by eapply lookup_lt_Some.
  pose proof (bal_picks _ _ _ _ Hbal) as Hps. simpl in Hps.
  assert (zlen ps = sumf (length nodes) w) as Hzl by (rewrite <- Hlen; unfold zlen; by rewrite Hl).
  (* every count is at most the weight, and the counts add up to the weights *)
  assert (∀ j, (j < length nodes)%nat → times_of ps j ≤ w j)%Z as Hle.
  { intros j Hj. destruct (lookup_lt_is_Some_2 l j) as [s Hs]; [by rewrite (bal_length _ _ _ _ Hbal)|].
    destruct (bal_server _ _ _ _ Hbal j s Hs) as (_ & _ & E1 & E2). simpl in *.
    rewrite Hzl in E1. pose proof (sumf_weights _ w j Hw Hj). nia. }
  pose proof (sumf_times _ ps Hps) as Hst. rewrite Hzl in Hst.
  rewrite (sumf_split _ (times_of ps) i Hi), (sumf_split _ w i Hi) in Hst.
  assert (sumf (length nodes) (λ j : nat, if decide (j = i) then 0 else times_of ps j)%Z ≤
    sumf (length nodes) (λ j : nat, if decide (j = i) then 0 else w j)%Z)%Z.
  { apply sumf_le. intros j Hj. case_decide; [lia|]. by apply Hle. }
  specialize (Hle i Hi). assert (w i = nodeWeight n) by (unfold w; by rewrite Hni). lia.
Qed.

Module RoundRobinExamples.
Definition a : Node := MkNode "a" 2.
Definition b : Node := MkNode "b" 1.

Lemma rr_fair_witness :
  (calls rr_Pick (MkRR [a; b] 0 1 10) [a; b] [1; 2]%Z).1 ≡ₚ [Ok a; Ok b].
Proof.
  apply (rr_fair (MkRR [a; b] 0 1 10) [a; b] [1; 2]%Z); [|repeat constructor|reflexivity].
  unfold rr_ok, zlen. simpl. lia.
Defined.

Lemma wrr_exact_witness :
  ∃ ps, (calls wrr_Pick (wrr_new 10) [a; b] [5; 6; 7]%Z).1 =
      (λ k, of_option ([a; b] !! k)) <$> ps ∧ times_of ps 0 = 2%Z ∧ times_of ps 1 = 1%Z.
Proof.
  destruct (wrr_exact 10 5 [a; b] [6; 7]%Z) as (ps & H1 & _ & H2).
  - discriminate.
  - repeat constructor.
  - vm_compute. reflexivity.
  - repeat constructor; lia.
  - reflexivity.
  - lia.
  - exists ps. split; [exact H1|]. split; [apply (H2 0 a); reflexivity|apply (H2 1 b); reflexivity].
Defined.
End RoundRobinExamples.
