(* ===== verification/ConsistentHash.v ===== *)
(** Consistent hashing (naming/loadbalance/consistenthash/consistenthash.go): the ring of virtual
    nodes of a service, its cache, and the choice of a node for a key.  The hash function is a
    parameter.  A node is what the picker reads of it; a nil pointer is [None]. *)

From S2P Require Import Prelude RoundRobin.
From stdpp Require Import sorting.

Definition defaultReplicas : Z := 100.
Definition prime : Z := 16777619.

Definition errMissingKey : error := Plain "missing key".
Definition errNilNode : error := Plain "list contains nil node".

Abbreviation NodeList := (list (option Node)).

(** ** The picker *)

Record chPicker := MkPicker {
  ch_list : NodeList;
  keys : list Z;
  hashMap : gmap Z (list Node)
}.

Definition new_picker : chPicker := MkPicker [] [] ∅.

(** The loop of [isNodeSliceEqualBCE] over lists of one length; a nil node in both lists at one place
    is read. *)
Fixpoint same_addresses (a b : NodeList) : result bool :=
  match a, b with
  | v :: a, w :: b =>
    match v, w with
    | Some v, Some w => if decide (Address v ≠ Address w) then Ok false else same_addresses a b
    | None, None => Panic
    | _, _ => Ok false
    end
  | _, _ => Ok true
  end.

Definition isNodeSliceEqualBCE (a b : NodeList) : result bool :=
  if decide (length a ≠ length b) then Ok false else same_addresses a b.

(** [sort.Search]: the least index at which [f] holds, for [f] that stays true; by bisection. *)
Fixpoint search_loop (fuel : nat) (f : nat → bool) (i j : nat) : nat :=
  match fuel with
  | O => i
  | S fuel =>
    if i <? j then
      let h := (i + j) / 2 in
      if f h then search_loop fuel f i h else search_loop fuel f (h + 1) j
    else i
  end%nat.

Definition Search (n : nat) (f : nat → bool) : nat := search_loop (S n) f 0 n.

Section picker.
Variable hashFunc : bytes → Z.

(** The hash of the virtual node [j] of a node. *)
Definition virtual (node : Node) (j : nat) : Z := hashFunc (str_bytes (pretty (Z.of_nat j) +:+ Address node)).

Definition actualReplicas (replicas : Z) : nat :=
  Z.to_nat (if (replicas <=? 0)%Z then defaultReplicas else replicas).

(** The entries of one node: keys from index [i * replicas] on, and the hash map. *)
Definition add_node (node : Node) (replicas : nat) (m : gmap Z (list Node)) : list Z * gmap Z (list Node) :=
  let hashes := virtual node <$> seq 0 replicas in
  (hashes, foldl (λ m hash, <[hash := default [] (m !! hash) ++ [node]]> m) m hashes).

(** The loop of [updateState]; the flag is whether it ran to the end.  Keys that are not filled are 0. *)
Fixpoint fill (nodes : NodeList) (replicas : nat) (m : gmap Z (list Node))
    : list Z * gmap Z (list Node) * bool :=
  match nodes with
  | [] => ([], m, true)
  | None :: rest => (replicate (length nodes * replicas) 0%Z, m, false)
  | Some node :: rest =>
    let '(hashes, m) := add_node node replicas m in
    let '(ks, m, ok) := fill rest replicas m in
    (hashes ++ ks, m, ok)
  end.

Definition updateState (p : chPicker) (nodes : NodeList) (replicas : Z) : chPicker * result (list Z * gmap Z (list Node)) :=
  match isNodeSliceEqualBCE (ch_list p) nodes with
  | Ok true => (p, Ok (keys p, hashMap p))
  | Ok false =>
    let '(ks, m, ok) := fill nodes (actualReplicas replicas) ∅ in
    if (ok : bool) then
      let ks := merge_sort Z.le ks in
      (MkPicker nodes ks m, Ok (ks, m))
    else (MkPicker nodes ks m, Err errNilNode)
  | Err e => (p, Err e)
  | Panic => (p, Panic)
  end.

Definition innerRepr (key : string) : bytes := str_bytes (pretty prime +:+ ":" +:+ key).

(** What [Pick] does with the ring; an index out of range is a panic. *)
Definition pick_in (ks : list Z) (m : gmap Z (list Node)) (key : string) : result Node :=
  let hash := hashFunc (str_bytes key) in
  let idx := Search (length ks) (λ i, (hash <=? default 0%Z (ks !! i))%Z) in
  let idx := if decide (idx = length ks) then 0 else idx in
  match ks !! idx with
  | None => Panic
  | Some k =>
    match m !! k with
    | None => Err ErrNoServerAvailable
    | Some [node] => Ok node
    | Some nodes =>
      let innerIndex := hashFunc (innerRepr key) in
      of_option (nodes !! Z.to_nat (innerIndex mod zlen nodes))
    end
  end.

Definition Pick (p : chPicker) (nodes : NodeList) (key : string) (replicas : Z) : chPicker * result Node :=
  if decide (nodes = []) then (p, Err ErrNoServerAvailable) else
  if decide (key = "") then (p, Err errMissingKey) else
  match updateState p nodes replicas with
  | (p, Ok (ks, m)) => (p, pick_in ks m key)
  | (p, Err e) => (p, Err e)
  | (p, Panic) => (p, Panic)
  end.

(** [ConsistentHash.Select]: a picker per service. *)
Definition Select (pickers : gmap string chPicker) (serviceName : string) (nodes : NodeList)
    (key : string) (replicas : Z) : gmap string chPicker * result Node :=
  let p := default new_picker (pickers !! serviceName) in
  let '(p, r) := Pick p nodes key replicas in
  (<[serviceName := p]> pickers, r).
End picker.

(** ** The ring

    A virtual node is a point of the ring of 64-bit hashes; a node owns the keys for which none of the
    other points comes sooner, going up from the hash of the key. *)

Definition hash_range : Z := 2 ^ 64.

Definition distance (from to : Z) : Z := (to - from) mod hash_range.

Definition addresses (nodes : NodeList) : list string := Address <$> omap id nodes.

Section ring.
Variable hashFunc : bytes → Z.
Hypothesis hash_u64 : ∀ b, (0 ≤ hashFunc b < hash_range)%Z.

Definition point (a : string) (j : nat) : Z := hashFunc (str_bytes (pretty (Z.of_nat j) +:+ a)).

(** The address [a] owns the key: one of its points is as near as any. *)
Definition owns (addrs : list string) (replicas : nat) (key a : string) : Prop :=
  a ∈ addrs ∧ ∃ j, j < replicas ∧ ∀ a' j', a' ∈ addrs → j' < replicas →
    (distance (hashFunc (str_bytes key)) (point a j) ≤ distance (hashFunc (str_bytes key)) (point a' j'))%Z.

Definition points (nodes : list Node) (replicas : nat) : list (Z * Node) :=
  n ← nodes; (λ j, (point (Address n) j, n)) <$> seq 0 replicas.

Definition at_hash (h : Z) (ps : list (Z * Node)) : list Node := (filter (λ p, p.1 = h) ps).*2.

Lemma at_hash_app h ps qs : at_hash h (ps ++ qs) = at_hash h ps ++ at_hash h qs.
Proof. unfold at_hash. by rewrite filter_app, fmap_app. Qed.

Lemma elem_of_points h n nodes R :
  (h, n) ∈ points nodes R ↔ n ∈ nodes ∧ ∃ j, j < R ∧ h = point (Address n) j.
Proof.
  unfold points. rewrite list_elem_of_bind. split.
  - intros (n' & Hp & Hn). apply list_elem_of_fmap in Hp as (j & [= -> ->] & Hj).
    apply elem_of_seq in Hj. split; [done|]. exists j. split; [lia|done].
  - intros (Hn & j & Hj & ->). exists n. split; [|done]. apply list_elem_of_fmap. exists j.
    split; [done|]. apply elem_of_seq. lia.
Qed.

Lemma elem_of_at_hash h n ps : n ∈ at_hash h ps ↔ (h, n) ∈ ps.
Proof.
  unfold at_hash. rewrite list_elem_of_fmap. split.
  - intros ([h' n'] & -> & Hf). apply list_elem_of_filter in Hf as [<- Hp]. done.
  - intros Hp. exists (h, n). split; [done|]. by apply list_elem_of_filter.
Qed.

(** The hash map of the points, on top of [m]. *)
Definition maps (m m' : gmap Z (list Node)) (ps : list (Z * Node)) : Prop :=
  ∀ h, m' !! h = match at_hash h ps with
                 | [] => m !! h
                 | ns => Some (default [] (m !! h) ++ ns)
                 end.

Lemma maps_trans m1 m2 m3 ps qs : maps m1 m2 ps → maps m2 m3 qs → maps m1 m3 (ps ++ qs).
Proof.
  intros H1 H2 h. rewrite at_hash_app, (H2 h), (H1 h).
  destruct (at_hash h ps), (at_hash h qs); simpl; rewrite ?app_nil_r; try done.
  by rewrite <- app_assoc.
Qed.

Lemma add_node_maps node R m :
  let '(hashes, m') := add_node hashFunc node R m in
  hashes = (points [node] R).*1 ∧ maps m m' (points [node] R).
Proof.
  unfold add_node, points. simpl. rewrite app_nil_r.
  assert ((λ x, (x : Z * Node).1) ∘ (λ j, (point (Address node) j, node)) = virtual hashFunc node) as E by done.
  split; [by rewrite <- list_fmap_compose|]. generalize (seq 0 R). intros js. revert m.
  induction js as [|j js IH]; intros m; [done|]. simpl.
  change (point (Address node) j) with (virtual hashFunc node j).
  eapply (maps_trans m _ _ [(virtual hashFunc node j, node)]); [|apply IH].
  intros h. unfold at_hash. rewrite filter_cons. simpl. case_decide as Hd; simpl.
  - subst h. by rewrite lookup_insert_eq.
  - by rewrite lookup_insert_ne.
Qed.

Lemma points_cons n ns R : points (n :: ns) R = points [n] R ++ points ns R.
Proof. unfold points. simpl. by rewrite app_nil_r. Qed.

Lemma fill_maps nodes R m ks m' :
  fill hashFunc nodes R m = (ks, m', true) →
  ∃ ns, nodes = Some <$> ns ∧ ks = (points ns R).*1 ∧ maps m m' (points ns R).
Proof.
  revert m ks. induction nodes as [|[node|] nodes IH]; intros m ks; cbn [fill].
  - intros [= <- <-]. by exists [].
  - pose proof (add_node_maps node R m) as Ha. destruct (add_node hashFunc node R m) as [hashes m1].
    destruct Ha as [-> Hm]. destruct (fill hashFunc nodes R m1) as [[ks2 m2] ok] eqn:Hf.
    intros [= <- <- ->]. destruct (IH _ _ Hf) as (ns & -> & -> & Hm2). exists (node :: ns).
    split; [done|]. rewrite points_cons. split; [symmetry; apply (fmap_app fst (points [node] R))|].
    by eapply maps_trans.
  - done.
Qed.

Lemma fill_total nodes R m : None ∉ nodes → (fill hashFunc nodes R m).2 = true.
Proof.
  revert m. induction nodes as [|[node|] nodes IH]; intros m Hn; cbn [fill]; [done| |].
  - destruct (add_node hashFunc node R m) as [hashes m1].
    specialize (IH m1). destruct (fill hashFunc nodes R m1) as [[ks2 m2] ok]. apply IH. set_solver.
  - set_solver.
Qed.

(** *** The binary search *)

Lemma search_loop_correct f n fuel i j :
  (∀ a b, a ≤ b → b < n → f a = true → f b = true) →
  i ≤ j → j ≤ n → j - i < fuel →
  (∀ a, a < i → f a = false) → (∀ a, j ≤ a → a < n → f a = true) →
  let r := search_loop fuel f i j in
  r ≤ n ∧ (∀ a, a < r → f a = false) ∧ (∀ a, r ≤ a → a < n → f a = true).
Proof.
  intros Hmono. revert i j. induction fuel as [|fuel IH]; intros i j Hij Hjn Hf Hlo Hhi; [lia|].
  cbn [search_loop]. cbv zeta.
  destruct (i <? j)%nat eqn:E; bool_to_prop; [|split_and!; [lia|done|]; intros a ??; apply Hhi; lia].
  assert (i ≤ (i + j) / 2 ∧ (i + j) / 2 < j)%nat as [H1 H2].
  { split; [apply Nat.div_le_lower_bound; lia|apply Nat.Div0.div_lt_upper_bound; lia]. }
  set (h := ((i + j) / 2)%nat) in *. clearbody h. destruct (f h) eqn:Eh.
  - apply IH; try lia; [done|]. intros a Ha1 Ha2. by apply (Hmono h).
  - apply IH; try lia; [|done]. intros a Ha. destruct (f a) eqn:Ea; [|done].
    rewrite (Hmono a h) in Eh; [done|lia|lia|done].
Qed.

Lemma Search_correct f n :
  (∀ a b, a ≤ b → b < n → f a = true → f b = true) →
  Search n f ≤ n ∧ (∀ a, a < Search n f → f a = false) ∧ (Search n f < n → f (Search n f) = true).
Proof.
  intros Hm. destruct (search_loop_correct f n (S n) 0 n Hm) as (H1 & H2 & H3); try lia.
  split_and!; [done|done|]. intros Hl. by apply H3.
Qed.

(** *** The choice *)

Lemma sorted_nth (ks : list Z) i j x y : StronglySorted Z.le ks → i ≤ j →
  ks !! i = Some x → ks !! j = Some y → (x ≤ y)%Z.
Proof.
  intros Hs. revert i j. induction Hs as [|k ks Hs IH Hk]; intros [|i] [|j] Hij Hi Hj; simpl in *;
    try done; try lia; simplify_eq; [lia| |eapply IH; [|done..]; lia].
  rewrite Forall_lookup in Hk. by eapply Hk.
Qed.

Definition chosen (ks : list Z) (h : Z) : nat :=
  let idx := Search (length ks) (λ i, (h <=? default 0%Z (ks !! i))%Z) in
  if decide (idx = length ks) then 0 else idx.

(** The key found is the nearest one. *)
Lemma chosen_nearest (ks : list Z) h k k' :
  StronglySorted Z.le ks → (0 ≤ h < hash_range)%Z → Forall (λ k, 0 ≤ k < hash_range)%Z ks →
  ks !! chosen ks h = Some k → k' ∈ ks → (distance h k ≤ distance h k')%Z.
Proof.
  intros Hs Hh Hr Hk Hin. rewrite Forall_forall in Hr.
  pose proof (Hr _ (list_elem_of_lookup_2 _ _ _ Hk)) as Hkr. pose proof (Hr _ Hin) as Hkr'.
  apply list_elem_of_lookup in Hin as [i' Hi']. pose proof (lookup_lt_Some _ _ _ Hi') as Hlt.
  destruct (Search_correct (λ i, (h <=? default 0%Z (ks !! i))%Z) (length ks)) as (S1 & S2 & S3).
  { intros a b Hab Hb Ha. apply Z.leb_le in Ha. apply Z.leb_le.
    destruct (lookup_lt_is_Some_2 ks a) as [x Hx]; [lia|].
    destruct (lookup_lt_is_Some_2 ks b) as [y Hy]; [lia|]. rewrite Hx in Ha. rewrite Hy. simpl in *.
    pose proof (sorted_nth _ _ _ _ _ Hs Hab Hx Hy). lia. }
  unfold chosen in Hk. set (idx := Search _ _) in *.
  assert (distance h k' = k' - h ∨ distance h k' = k' - h + hash_range)%Z as Hd'.
  { unfold distance, hash_range in *. destruct (decide (h ≤ k')%Z); [left; apply Z.mod_small; lia|right].
    rewrite <- (Z.mod_add _ 1) by lia. rewrite Z.mod_small; lia. }
  assert (k' < h → distance h k' = k' - h + hash_range)%Z as Hd2.
  { intros. destruct Hd' as [Hd'|]; [|done]. pose proof (Z.mod_pos_bound (k' - h) hash_range) as Hb.
    unfold distance in *. unfold hash_range in *. lia. }
  case_decide as Hidx.
  - assert (k < h ∧ k' < h)%Z as [Hlt1 Hlt2].
    { pose proof (lookup_lt_Some _ _ _ Hk). split.
      - specialize (S2 0 ltac:(lia)). simpl in S2. rewrite Hk in S2. apply Z.leb_gt in S2. done.
      - specialize (S2 i' ltac:(lia)). simpl in S2. rewrite Hi' in S2. apply Z.leb_gt in S2. done. }
    rewrite (Hd2 Hlt2). pose proof (sorted_nth _ _ _ _ _ Hs (Nat.le_0_l i') Hk Hi').
    unfold distance. rewrite <- (Z.mod_add _ 1) by (unfold hash_range; lia).
    rewrite Z.mod_small; unfold hash_range in *; lia.
  - assert (h ≤ k)%Z as Hle.
    { specialize (S3 ltac:(lia)). rewrite Hk in S3. apply Z.leb_le in S3. done. }
    assert (distance h k = k - h)%Z as -> by (apply Z.mod_small; unfold hash_range in *; lia).
    destruct (decide (i' < idx)) as [Hb|Hb].
    + specialize (S2 i' Hb). simpl in S2. rewrite Hi' in S2. apply Z.leb_gt in S2. simpl in S2.
      rewrite (Hd2 S2). lia.
    + pose proof (sorted_nth ks idx i' _ _ Hs ltac:(lia) Hk Hi'). destruct Hd' as [->| ->];
        unfold hash_range in *; lia.
Qed.
(** *** The picker *)

(** The ring of a picker is that of its list. *)
Definition ring_of (R : nat) (p : chPicker) : Prop :=
  p = new_picker ∨ ∃ ns, ch_list p = Some <$> ns ∧ keys p = merge_sort Z.le (points ns R).*1 ∧
    maps ∅ (hashMap p) (points ns R).

Lemma omap_Some {A} (ns : list A) : omap id (Some <$> ns) = ns.
Proof. induction ns; simpl; [done|]. by f_equal. Qed.

Lemma all_Some (nodes : NodeList) : None ∉ nodes → ∃ ns, nodes = Some <$> ns.
Proof.
  induction nodes as [|[n|] nodes IH]; intros Hn; [by exists []| |set_solver].
  destruct IH as [ns ->]; [set_solver|]. by exists (n :: ns).
Qed.

Lemma addresses_Some ns : addresses (Some <$> ns) = Address <$> ns.
Proof. unfold addresses. by rewrite omap_Some. Qed.

(** Lists that count as the same have the same addresses. *)
Lemma same_addresses_eq ns (nodes : NodeList) :
  None ∉ nodes → length ns = length nodes →
  same_addresses (Some <$> ns) nodes = Ok (bool_decide (Address <$> ns = addresses nodes)).
Proof.
  revert nodes. induction ns as [|n ns IH]; intros [|[m|] nodes] Hn Hl; try done; [|set_solver].
  cbn [same_addresses fmap list_fmap]. unfold addresses. simpl. fold (addresses nodes).
  case_decide as Ha; [by rewrite bool_decide_false by congruence|].
  change (list_fmap Node (option Node) Some ns) with (Some <$> ns).
  rewrite IH; [|set_solver|by injection Hl].
  change (list_fmap Node string Address (list_omap (option Node) Node id nodes)) with (addresses nodes).
  rewrite Ha. f_equal. apply bool_decide_ext. split; [by intros ->|by intros [= ->]].
Qed.

Lemma isNodeSliceEqualBCE_eq ns (nodes : NodeList) :
  None ∉ nodes →
  isNodeSliceEqualBCE (Some <$> ns) nodes = Ok (bool_decide (Address <$> ns = addresses nodes)).
Proof.
  intros Hn. unfold isNodeSliceEqualBCE. rewrite length_fmap. case_decide as Hl.
  - rewrite bool_decide_false; [done|]. intros E. apply Hl. destruct (all_Some nodes Hn) as [ns' ->].
    rewrite addresses_Some in E. apply (f_equal length) in E. by rewrite !length_fmap in *.
  - apply same_addresses_eq; [done|lia].
Qed.

Lemma updateState_ring R p (nodes : NodeList) replicas :
  R = actualReplicas replicas → ring_of R p → None ∉ nodes → nodes ≠ [] →
  ∃ p' ns, updateState hashFunc p nodes replicas = (p', Ok (keys p', hashMap p')) ∧ ring_of R p' ∧
    keys p' = merge_sort Z.le (points ns R).*1 ∧ maps ∅ (hashMap p') (points ns R) ∧
    Address <$> ns = addresses nodes.
Proof.
  intros HR Hp Hn Hne.
  assert (isNodeSliceEqualBCE (ch_list p) nodes = Ok false ∨
    (isNodeSliceEqualBCE (ch_list p) nodes = Ok true ∧ ∃ ns, ch_list p = Some <$> ns ∧
     keys p = merge_sort Z.le (points ns R).*1 ∧ maps ∅ (hashMap p) (points ns R) ∧
     Address <$> ns = addresses nodes)) as Hcases.
  { destruct Hp as [->|(ns & Hl & Hk & Hm)].
    - left. unfold isNodeSliceEqualBCE. rewrite decide_True; [done|]. by destruct nodes.
    - rewrite Hl, isNodeSliceEqualBCE_eq by done. case_bool_decide as E; [right|by left].
      split; [done|]. by exists ns. }
  unfold updateState. destruct Hcases as [->|(-> & ns & Hl & Hk & Hm & Ha)].
  - pose proof (fill_total nodes R ∅ Hn) as Hok. rewrite <- HR.
    destruct (fill hashFunc nodes R ∅) as [[ks m] ok] eqn:Hf. simpl in Hok. subst ok.
    destruct (fill_maps _ _ _ _ _ Hf) as (ns & -> & -> & Hm).
    exists (MkPicker (Some <$> ns) (merge_sort Z.le (points ns R).*1) m), ns.
    split; [done|]. split; [right; by exists ns|]. split_and!; [done|done|].
    by rewrite addresses_Some.
  - exists p, ns. split; [done|]. split_and!; done.
Qed.

Lemma merge_sort_sorted (ks : list Z) : StronglySorted Z.le (merge_sort Z.le ks).
Proof. apply Sorted_StronglySorted; [intros ???; apply Z.le_trans|]. apply Sorted_merge_sort. intros ??; lia. Qed.

Lemma pick_in_owner ns R m (key : string) :
  ns ≠ [] → 0 < R → maps ∅ m (points ns R) →
  ∃ n, pick_in hashFunc (merge_sort Z.le (points ns R).*1) m key = Ok n ∧
    owns (Address <$> ns) R key (Address n).
Proof.
  intros Hne HR Hm. set (ks := merge_sort Z.le (points ns R).*1).
  assert (ks ≡ₚ (points ns R).*1) as Hperm by apply merge_sort_Permutation.
  set (h := hashFunc (str_bytes key)).
  assert (∀ k, k ∈ ks ↔ k ∈ (points ns R).*1) as Hin by (intros k; by rewrite Hperm).
  assert (Forall (λ k, 0 ≤ k < hash_range)%Z ks) as Hrange.
  { apply Forall_forall. intros k Hk. apply Hin, list_elem_of_fmap in Hk as ([k' n] & -> & Hp).
    apply elem_of_points in Hp as (_ & j & _ & ->). apply hash_u64. }
  assert (ks ≠ []) as Hks.
  { intros E. destruct ns as [|n ns]; [done|]. assert (point (Address n) 0 ∈ ks) as Hk; [|by rewrite E in Hk; apply elem_of_nil in Hk].
    apply Hin, list_elem_of_fmap. exists (point (Address n) 0, n). split; [done|].
    apply elem_of_points. split; [by left|]. by exists 0. }
  assert (chosen ks h < length ks) as Hlt.
  { unfold chosen. destruct (Search_correct (λ i, (h <=? default 0%Z (ks !! i))%Z) (length ks)) as (S1 & _).
    { intros a b Hab Hb Ha. apply Z.leb_le in Ha. apply Z.leb_le.
      destruct (lookup_lt_is_Some_2 ks a) as [x Hx]; [lia|].
      destruct (lookup_lt_is_Some_2 ks b) as [y Hy]; [lia|]. rewrite Hx in Ha. rewrite Hy. simpl in *.
      pose proof (sorted_nth _ _ _ _ _ (merge_sort_sorted _) Hab Hx Hy). lia. }
    case_decide; [destruct ks; [done|simpl; lia]|lia]. }
  apply lookup_lt_is_Some_2 in Hlt as [k Hk].
  assert (k ∈ (points ns R).*1) as Hkin by (apply Hin; by eapply list_elem_of_lookup_2).
  apply list_elem_of_fmap in Hkin as ([k0 n0] & -> & Hp0). simpl in Hk.
  assert (∃ n, pick_in hashFunc ks m key = Ok n ∧ (k0, n) ∈ points ns R) as (n & Hpick & Hpn).
  { unfold pick_in. fold h. fold (chosen ks h). rewrite Hk, (Hm k0), lookup_empty. simpl.
    destruct (at_hash k0 (points ns R)) as [|n1 [|n2 rest]] eqn:Ha.
    - apply elem_of_at_hash in Hp0. rewrite Ha in Hp0. by apply elem_of_nil in Hp0.
    - exists n1. split; [done|]. apply elem_of_at_hash. rewrite Ha. by left.
    - set (l := n1 :: n2 :: rest) in *. set (i := hashFunc (innerRepr key)).
      destruct (lookup_lt_is_Some_2 l (Z.to_nat (i mod zlen l))) as [n Hn].
      { pose proof (Z.mod_pos_bound i (zlen l)). unfold zlen in *. simpl in *. lia. }
      rewrite Hn. exists n. split; [done|]. apply elem_of_at_hash. rewrite Ha.
      by eapply list_elem_of_lookup_2. }
  exists n. split; [done|]. apply elem_of_points in Hpn as (Hn & j & Hj & Hkj). split.
  - apply list_elem_of_fmap. by exists n.
  - exists j. split; [done|]. intros a' j' Ha' Hj'. rewrite <- Hkj.
    eapply chosen_nearest; [apply merge_sort_sorted|apply hash_u64|exact Hrange|exact Hk|].
    apply list_elem_of_fmap in Ha' as (n' & -> & Hn'). apply Hin, list_elem_of_fmap.
    exists (point (Address n') j', n'). split; [done|]. apply elem_of_points. split; [done|]. by exists j'.
Qed.

(** Pickers that have served any calls with one number of replicas and without nil nodes. *)
Inductive serving (replicas : Z) : chPicker → Prop :=
| serving_new : serving replicas new_picker
| serving_pick p nodes key : serving replicas p → None ∉ nodes →
    serving replicas (Pick hashFunc p nodes key replicas).1.

Lemma Pick_ring p nodes key replicas :
  ring_of (actualReplicas replicas) p → None ∉ nodes → nodes ≠ [] → key ≠ "" →
  ∃ p' n, Pick hashFunc p nodes key replicas = (p', Ok n) ∧ ring_of (actualReplicas replicas) p' ∧
    owns (addresses nodes) (actualReplicas replicas) key (Address n).
Proof.
  intros Hp Hn Hne Hk. unfold Pick. rewrite !decide_False by done.
  destruct (updateState_ring _ p nodes replicas eq_refl Hp Hn Hne) as (p' & ns & -> & Hp' & Hks & Hm & Ha).
  destruct (pick_in_owner ns (actualReplicas replicas) (hashMap p') key) as (n & Hpick & Hown).
  - intros ->. destruct (all_Some nodes Hn) as [ns' ->]. rewrite addresses_Some in Ha. by destruct ns'.
  - unfold actualReplicas, defaultReplicas. destruct (replicas <=? 0)%Z eqn:E; bool_to_prop; lia.
  - done.
  - exists p', n. rewrite Hks, Hpick, <- Ha. done.
Qed.

Lemma serving_ring replicas p : serving replicas p → ring_of (actualReplicas replicas) p.
Proof.
  induction 1 as [|p nodes key _ IH Hn]; [by left|].
  destruct (decide (nodes = [])) as [->|Hne]; [done|].
  destruct (decide (key = "")) as [->|Hk].
  - unfold Pick. rewrite decide_False by done. by rewrite decide_True.
  - by destruct (Pick_ring p nodes key replicas IH Hn Hne Hk) as (p' & n & -> & Hp' & _).
Qed.

(** C23. [Pick] chooses by the ring: if every call of the picker so far had the same number of replicas and
    no nil node in its list, for a list of nodes that is not empty and a key it returns a node - found by sorting the points of the ring and bisection - that owns
    the key: one of its virtual nodes has the hash that comes first, going up from the hash of the key
    and around. *)
Theorem Pick_owner (replicas : Z) (p : chPicker) (nodes : NodeList) (key : string) :
  serving replicas p → None ∉ nodes → nodes ≠ [] → key ≠ "" →
  ∃ n, (Pick hashFunc p nodes key replicas).2 = Ok n ∧
    owns (addresses nodes) (actualReplicas replicas) key (Address n).
Proof.
  intros Hp Hn Hne Hk. destruct (Pick_ring p nodes key replicas (serving_ring _ _ Hp) Hn Hne Hk)
    as (p' & n & -> & _ & Ho). by exists n.
Qed.

(** Virtual nodes of different addresses do not meet. *)
Definition no_collision (addrs : list string) (replicas : nat) : Prop :=
  ∀ a a' j j', a ∈ addrs → a' ∈ addrs → j < replicas → j' < replicas → point a j = point a' j' → a = a'.

Lemma distance_inj h k k' : (0 ≤ k < hash_range)%Z → (0 ≤ k' < hash_range)%Z →
  distance h k = distance h k' → k = k'.
Proof.
  unfold distance, hash_range. intros H1 H2 E.
  assert ((k - k') mod 2 ^ 64 = 0)%Z as Hz.
  { replace (k - k')%Z with ((k - h) - (k' - h))%Z by lia. by rewrite Zminus_mod, E, Z.sub_diag. }
  apply Z.mod_divide in Hz as [q Hq]; [|lia]. nia.
Qed.

Lemma owns_unique addrs R key a a' :
  no_collision addrs R → owns addrs R key a → owns addrs R key a' → a = a'.
Proof.
  intros Hc (Ha & j & Hj & Hmin) (Ha' & j' & Hj' & Hmin').
  apply (Hc a a' j j'); try done. eapply distance_inj; try apply hash_u64.
  apply Z.le_antisymm; [by apply Hmin|by apply Hmin'].
Qed.

(** Who owns a key among fewer nodes, one of which owned it among all, did so too. *)
Lemma owns_superset addrs addrs' R key a a' :
  addrs' ⊆ addrs → a ∈ addrs' → owns addrs R key a → owns addrs' R key a' → owns addrs R key a'.
Proof.
  intros Hs Ha (_ & j & Hj & Hmin) (Ha' & j' & Hj' & Hmin'). split; [by apply Hs|]. exists j'. split; [done|].
  intros b k Hb Hk. etrans; [by apply (Hmin' a j)|by apply Hmin].
Qed.

(** C24. Keys stay where they are: removing nodes from a service - or adding nodes, read the other way - only
    moves the keys of those nodes, but for keys whose virtual node meets one of another address; the order of
    the nodes does not matter, nor what the pickers have seen before, as long as every call had the same
    number of replicas and no nil node. *)
Theorem Pick_stable (replicas : Z) (p p' : chPicker) (nodes nodes' : NodeList) (key : string) (n : Node) :
  serving replicas p → serving replicas p' → None ∉ nodes → None ∉ nodes' → key ≠ "" →
  (Pick hashFunc p nodes key replicas).2 = Ok n →
  (∀ a, owns (addresses nodes) (actualReplicas replicas) key a → a = Address n) →
  addresses nodes' ⊆ addresses nodes → Address n ∈ addresses nodes' →
  ∃ n', (Pick hashFunc p' nodes' key replicas).2 = Ok n' ∧ Address n' = Address n.
Proof.
  intros Hp Hp' Hn Hn' Hk Hpick Hu Hs Ha.
  assert (nodes' ≠ []) as Hne' by (intros ->; by apply elem_of_nil in Ha).
  assert (nodes ≠ []) as Hne by (intros ->; apply Hs in Ha; by apply elem_of_nil in Ha).
  destruct (Pick_ring p nodes key replicas (serving_ring _ _ Hp) Hn Hne Hk) as (q & m & E & _ & Ho).
  rewrite E in Hpick. injection Hpick as ->.
  destruct (Pick_ring p' nodes' key replicas (serving_ring _ _ Hp') Hn' Hne' Hk) as (q' & m' & -> & _ & Ho').
  exists m'. split; [done|]. apply Hu. by apply (owns_superset _ _ _ _ _ _ Hs Ha Ho Ho').
Qed.
End ring.

Module ConsistentHashExamples.
(** A hash for the examples: the value of the bytes in base 256. *)
Definition value (b : bytes) : Z := unbe b mod hash_range.

Lemma value_u64 b : (0 ≤ value b < hash_range)%Z.
Proof. apply Z.mod_pos_bound. done. Qed.

Definition node (a : string) : option Node := Some (MkNode a 0).
Definition three : NodeList := [node "a"; node "b"; node "c"].
Definition two : NodeList := [node "c"; node "b"].

Lemma Pick_owner_witness :
  ∃ n, (Pick value (Pick value new_picker two "k" 2).1 three "1b" 2).2 = Ok n ∧
    owns value (addresses three) (actualReplicas 2) "1b" (Address n).
Proof.
  apply (Pick_owner value value_u64 2).
  - apply serving_pick; [apply serving_new|]. apply (bool_decide_unpack _). vm_compute. exact I.
  - apply (bool_decide_unpack _). vm_compute. exact I.
  - discriminate.
  - discriminate.
Defined.

Definition distinct_points (addrs : list string) (R : nat) : bool :=
  forallb (λ a, forallb (λ a', forallb (λ j, forallb (λ j',
    negb (point value a j =? point value a' j')%Z || bool_decide (a = a'))
    (seq 0 R)) (seq 0 R)) addrs) addrs.

Lemma distinct_points_ok addrs R : distinct_points addrs R = true → no_collision value addrs R.
Proof.
  intros Hd a a' j j' Ha Ha' Hj Hj' E. unfold distinct_points in Hd.
  rewrite forallb_forall in Hd. specialize (Hd a (proj1 (list_elem_of_In _ _) Ha)).
  rewrite forallb_forall in Hd. specialize (Hd a' (proj1 (list_elem_of_In _ _) Ha')).
  rewrite forallb_forall in Hd. specialize (Hd j (proj2 (in_seq _ _ _) (conj (Nat.le_0_l _) Hj))).
  rewrite forallb_forall in Hd. specialize (Hd j' (proj2 (in_seq _ _ _) (conj (Nat.le_0_l _) Hj'))).
  apply orb_true_iff in Hd as [Hd|Hd]; [|by apply bool_decide_eq_true in Hd].
  rewrite E, Z.eqb_refl in Hd. done.
Defined.

(** The node a is removed; a key of c stays. *)
Lemma Pick_stable_witness :
  (Pick value new_picker three "1c" 2).2 = Ok (MkNode "c" 0) ∧
  ∃ n', (Pick value new_picker two "1c" 2).2 = Ok n' ∧ Address n' = "c".
Proof.
  split; [vm_compute; reflexivity|].
  apply (Pick_stable value value_u64 2 new_picker new_picker three two "1c" (MkNode "c" 0)).
  - apply serving_new.
  - apply serving_new.
  - apply (bool_decide_unpack _). vm_compute. exact I.
  - apply (bool_decide_unpack _). vm_compute. exact I.
  - discriminate.
  - vm_compute. reflexivity.
  - intros a Ha. apply (owns_unique value value_u64 (addresses three) 2 "1c");
      [apply distinct_points_ok; vm_compute; reflexivity|exact Ha|].
    split; [apply (bool_decide_unpack _); vm_compute; exact I|]. exists 1. split; [lia|].
    assert (Forall (λ a', Forall (λ j', (distance (value (str_bytes "1c")) (point value "c" 1) ≤
      distance (value (str_bytes "1c")) (point value a' j'))%Z) [0; 1]) (addresses three)) as Hall
      by (apply (bool_decide_unpack _); vm_compute; exact I).
    intros a' j' Ha' Hj'. rewrite Forall_forall in Hall. specialize (Hall a' Ha'). rewrite Forall_forall in Hall.
    apply Hall. destruct j' as [|[|]]; [set_solver..|]. simpl in Hj'. unfold actualReplicas in Hj'. simpl in Hj'. lia.
  - refine (proj1 (Forall_forall (λ x, x ∈ addresses three) (addresses two)) _). apply (bool_decide_unpack _). vm_compute. exact I.
  - apply (bool_decide_unpack _). vm_compute. exact I.
Defined.

(** The number of replicas of a later call does not matter for a list that is known. *)
Lemma replicas_ignored :
  let p := (Pick value new_picker three "k" 2).1 in
  length (keys (Pick value p three "k" 50).1) = 6.
Proof. vm_compute. reflexivity. Qed.

(** A nil node is an error the first time, and a panic the second time. *)
Lemma nil_node_panics :
  let '(p, r) := Pick value new_picker [node "a"; None] "k" 2 in
  r = Err errNilNode ∧ (Pick value p [node "a"; None] "k" 2).2 = Panic.
Proof. vm_compute. done. Qed.

(** The virtual nodes of two addresses may be the same text. *)
Lemma virtual_text_ambiguous (hash : bytes → Z) :
  point hash "1.2.3.4:80" 21 = point hash "11.2.3.4:80" 2.
Proof. reflexivity. Qed.
End ConsistentHashExamples.
