(* ===== verification/HttpRule.v ===== *)
(** HTTP path templates of the RESTful service (internal/httprule): the template language
    and its parser, the printer, and the matcher with its stack (internal/stack).

    The parser's position in the path is represented by the bytes that are left.  The text
    that [Parse] wraps around an error (the path and the position) is left out. *)

From S2P Require Import Prelude GoStrings.
From Stdlib Require Import Ascii.

(** ** Templates (template.go) *)

Inductive segment : Type :=
| wildcard
| deepWildcard
| literal (l : bytes)
| variable (fp : list bytes) (segments : list segment).

Record PathTemplate := MkTemplate { segments : list segment; verb : bytes }.

(** [String]; the method of a variable prints its nested segments. *)
Fixpoint seg_String (s : segment) : bytes :=
  match s with
  | wildcard => [ch "*"]
  | deepWildcard => [ch "*"; ch "*"]
  | literal l => l
  | variable fp segs =>
    ch "{" :: join [ch "."] fp ++ ch "=" :: join [ch "/"] (map seg_String segs) ++ [ch "}"]
  end.

(** The method [fieldPath], [None] being nil. *)
Definition fieldPath (s : segment) : option (list bytes) :=
  match s with variable fp _ => Some fp | _ => None end.

Definition FieldPaths (t : PathTemplate) : list (list bytes) := omap fieldPath (segments t).

(** ** Character classes (parse.go) *)

Definition between (lo hi : ascii) (b : byte) : bool :=
  (byte_Z (ch lo) <=? byte_Z b)%Z && (byte_Z b <=? byte_Z (ch hi))%Z.

Definition isAlpha (b : byte) : bool := between "A" "Z" b || between "a" "z" b.
Definition isDigit (b : byte) : bool := between "0" "9" b.
Definition isUnreserved (b : byte) : bool :=
  isAlpha b || isDigit b || bool_decide (b ∈ [ch "-"; ch "."; ch "_"; ch "~"]).
Definition isSubDelims (b : byte) : bool :=
  bool_decide (b ∈ [ch "!"; ch "$"; ch "&"; ch "'"; ch "("; ch ")"; ch "*"; ch "+"; ch ",";
                    ch ";"; ch "="]).
Definition isHexDigit (b : byte) : bool := between "0" "9" b || between "A" "F" b || between "a" "f" b.
Definition isPCTEncoded (b1 b2 b3 : byte) : bool :=
  bool_decide (b1 = ch "%") && isHexDigit b2 && isHexDigit b3.

(** ** Parser (parse.go) *)

Definition invalidChar : byte := Byte.x00.

Definition errParserInternal : error := Plain "parser internal error".
Definition errEmptyLiteral : error := Plain "empty literal is not allowed".
Definition errInitialCharAlpha : error := Plain "initial char of identifier not alpha".
Definition errNestedVar : error := Plain "nested variables are not allowed".
Definition errDeepWildcard : error := Plain "deep wildcard must be the last segment".
Definition errDupFieldPath : error := Plain "dup field path".
Definition errTrailingSlash : error := Plain "trailing slash is not allowed".
Definition errConsume (c : byte) : error :=
  Plain ("failed to consume `" +:+ bytes_str [c] +:+ "`").

Definition currentChar (p : bytes) : byte := match p with [] => invalidChar | c :: _ => c end.
Definition peekN (p : bytes) (n : nat) : byte := default invalidChar (p !! n).

(** [consume]: what is left after the character. *)
Definition consume (c : byte) (p : bytes) : option bytes :=
  match p with b :: p' => if decide (b = c) then Some p' else None | [] => None end.

(** The characters of a literal that stand for themselves. *)
Definition isPlain (b : byte) : bool :=
  isUnreserved b || isSubDelims b || bool_decide (b = ch "@") || bool_decide (b = ch ":").

(** The loop of [parseLiteral]: the literal and what is left; an escape takes three bytes. *)
Fixpoint literal_loop (p : bytes) : bytes * bytes :=
  match p with
  | [] => ([], [])
  | b :: p' =>
    if isPlain b then let '(l, rest) := literal_loop p' in (b :: l, rest)
    else match p' with
      | b2 :: b3 :: p'' =>
        if isPCTEncoded b b2 b3
        then let '(l, rest) := literal_loop p'' in (b :: b2 :: b3 :: l, rest)
        else ([], p)
      | _ => ([], p)
      end
  end.

Definition parseLiteral (p : bytes) : result (bytes * bytes) :=
  let '(l, rest) := literal_loop p in
  if decide (l = []) then Err errEmptyLiteral else Ok (l, rest).

Definition isIdentChar (b : byte) : bool := isAlpha b || isDigit b || bool_decide (b = ch "_").

Fixpoint ident_loop (p : bytes) : bytes * bytes :=
  match p with
  | [] => ([], [])
  | b :: p' => if isIdentChar b then let '(l, rest) := ident_loop p' in (b :: l, rest) else ([], p)
  end.

(** [parseIdent]: the first character is tested before the loop goes on. *)
Definition parseIdent (p : bytes) : result (bytes * bytes) :=
  if isAlpha (currentChar p) then Ok (ident_loop p) else Err errInitialCharAlpha.

(** The recursive functions take fuel; [None] is that it ran out. *)
Fixpoint parseFieldPath (fuel : nat) (p : bytes) : option (result (list bytes * bytes)) :=
  match fuel with
  | O => None
  | S fuel =>
    match parseIdent p with
    | Err e => Some (Err e)
    | Panic => Some Panic
    | Ok (ident, p) =>
      match consume (ch ".") p with
      | None => Some (Ok ([ident], p))
      | Some p =>
        r ← parseFieldPath fuel p;
        Some (do ' (fp, p) <- r; Ok (ident :: fp, p))
      end
    end
  end.

(** [parseSegment] and [parseVariableSegment], with [parseSegments] as an argument. *)
Definition parseVariableSegment (parseSegments : bytes → option (result (list segment * bytes)))
    (p : bytes) : option (result (segment * bytes)) :=
  match consume (ch "{") p with
  | None => Some (Err (errConsume (ch "{")))
  | Some p =>
    match parseFieldPath (S (length p)) p with
    | None => None
    | Some (Err e) => Some (Err e)
    | Some Panic => Some Panic
    | Some (Ok (fp, p)) =>
      r ← match consume (ch "=") p with
          | Some p => parseSegments p
          | None => Some (Ok ([wildcard], p))
          end;
      Some (do ' (segs, p) <- r;
            match consume (ch "}") p with
            | None => Err (errConsume (ch "}"))
            | Some p => Ok (variable fp segs, p)
            end)
    end
  end.

Definition parseSegment (parseSegments : bytes → option (result (list segment * bytes)))
    (p : bytes) : option (result (segment * bytes)) :=
  let c := currentChar p in
  if decide (c = invalidChar) then Some (Err errParserInternal)
  else if decide (c = ch "*") then
    if decide (peekN p 1 = ch "*") then Some (Ok (deepWildcard, drop 2 p))
    else Some (Ok (wildcard, drop 1 p))
  else if decide (c = ch "{") then parseVariableSegment parseSegments p
  else Some (do ' (l, p) <- parseLiteral p; Ok (literal l, p)).

Fixpoint parseSegments (fuel : nat) (p : bytes) : option (result (list segment * bytes)) :=
  match fuel with
  | O => None
  | S fuel =>
    r ← parseSegment (parseSegments fuel) p;
    match r with
    | Err e => Some (Err e)
    | Panic => Some Panic
    | Ok (seg, p) =>
      match consume (ch "/") p with
      | None => Some (Ok ([seg], p))
      | Some p =>
        if decide (p = []) then Some (Err errTrailingSlash)
        else r ← parseSegments fuel p; Some (do ' (segs, p) <- r; Ok (seg :: segs, p))
      end
    end
  end.

Definition isVariable (s : segment) : bool := if s is variable _ _ then true else false.
Definition isDeep (s : segment) : bool := if s is deepWildcard then true else false.

(** The nested segments of a variable; [last] tells whether the variable is the last
    segment of the template. *)
Fixpoint validate_nested (last : bool) (segs : list segment) : option error :=
  match segs with
  | [] => None
  | s :: segs =>
    if isVariable s then Some errNestedVar
    else if negb last && isDeep s then Some errDeepWildcard
    else if last && negb (bool_decide (segs = [])) && isDeep s then Some errDeepWildcard
    else validate_nested last segs
  end.

(** [validate]; [seen] are the names of the variables so far. *)
Fixpoint validate (seen : list bytes) (segs : list segment) : option error :=
  match segs with
  | [] => None
  | s :: segs =>
    let last := bool_decide (segs = []) in
    match s with
    | variable fp nested =>
      let name := join [ch "."] fp in
      if decide (name ∈ seen) then Some errDupFieldPath
      else match validate_nested last nested with
        | Some e => Some e
        | None => validate (name :: seen) segs
        end
    | _ => if negb last && isDeep s then Some errDeepWildcard else validate seen segs
    end
  end.

(** The verb: cut off a last literal at its last colon, or parsed after a colon. *)
Definition parseVerb (segs : list segment) (p : bytes) : result (PathTemplate * bytes) :=
  match last segs with
  | None => Panic
  | Some (literal s) =>
    let idx := last_index (ch ":") s in
    if (0 <? idx)%Z
    then Ok (MkTemplate (take (length segs - 1) segs ++ [literal (sub s 0 idx)]) (from s (idx + 1)), p)
    else Ok (MkTemplate segs [], p)
  | Some _ =>
    match consume (ch ":") p with
    | Some p => do ' (v, p) <- parseLiteral p; Ok (MkTemplate segs v, p)
    | None => Ok (MkTemplate segs [], p)
    end
  end.

Definition parse (urlPath : bytes) : option (result PathTemplate) :=
  match consume (ch "/") urlPath with
  | None => Some (Err (errConsume (ch "/")))
  | Some p =>
    r ← parseSegments (S (length p)) p;
    Some (do ' (segs, p) <- r;
          do ' (tpl, p) <- parseVerb segs p;
          if decide (p = []) then
            match validate [] (segments tpl) with
            | Some e => Err e
            | None => Ok tpl
            end
          else Err errParserInternal)
  end.

(** [Parse]; the fuel of [parse] is always enough, see [Parse_total]. *)
Definition Parse (urlPath : bytes) : result PathTemplate := default Panic (parse urlPath).

(** ** The stack (internal/stack) *)

Definition Push {T} (v : T) (st : list T) : list T := v :: st.
Definition Pop {T} (st : list T) : option (T * list T) :=
  match st with [] => None | v :: st => Some (v, st) end.

(** ** Matcher (match.go) *)

Definition errNotMatch : error := Plain "not match to the path template".
Definition errVerbMismatched : error := Plain "verb mismatched".

Record matcher := MkMatcher {
  components : list bytes;
  pos : nat;
  captured : gmap string bytes;
  st : list bytes
}.

(** Pops [n] values; the last one popped comes first. *)
Fixpoint pop_n (n : nat) (st : list bytes) (concat : list bytes) : option (list bytes * list bytes) :=
  match n with
  | O => Some (concat, st)
  | S n => match Pop st with
           | None => None
           | Some (s, st) => pop_n n st (s :: concat)
           end
  end.

Fixpoint handle (s : segment) (m : matcher) : result matcher :=
  match s with
  | wildcard =>
    match components m !! pos m with
    | None => Err errNotMatch
    | Some c => Ok (MkMatcher (components m) (S (pos m)) (captured m) (Push c (st m)))
    end
  | deepWildcard =>
    if decide (length (components m) < pos m) then Err errNotMatch
    else if decide (pos m = length (components m)) then
      Ok (MkMatcher (components m) (pos m) (captured m) (Push [] (st m)))
    else
      let sb := concat (cons (ch "/") <$> drop (pos m) (components m)) in
      Ok (MkMatcher (components m) (length (components m)) (captured m) (Push (drop 1 sb) (st m)))
  | literal l =>
    match components m !! pos m with
    | None => Err errNotMatch
    | Some c =>
      if decide (c = l)
      then Ok (MkMatcher (components m) (S (pos m)) (captured m) (Push c (st m)))
      else Err errNotMatch
    end
  | variable fp segs =>
    do m <- (fix handle_all segs m :=
               match segs with
               | [] => Ok m
               | s :: segs => do m <- handle s m; handle_all segs m
               end) segs m;
    match pop_n (length segs) (st m) [] with
    | None => Err errNotMatch
    | Some (concat, st) =>
      Ok (MkMatcher (components m) (pos m)
            (<[bytes_str (join [ch "."] fp) := join [ch "/"] concat]> (captured m)) st)
    end
  end.

Fixpoint handle_all (segs : list segment) (m : matcher) : result matcher :=
  match segs with
  | [] => Ok m
  | s :: segs => do m <- handle s m; handle_all segs m
  end.

(** Cut the verb off the last component. *)
Definition match_verb (verb : bytes) (components : list bytes) : option (list bytes) :=
  if decide (verb = []) then Some components else
  match last components with
  | None => None
  | Some c =>
    if has_suffix (ch ":" :: verb) c then
      let idx := (zlen c - zlen verb - 1)%Z in
      if (idx <=? 0)%Z then None
      else Some (take (length components - 1) components ++ [sub c 0 idx])
    else None
  end.

(** [PathTemplate.Match] *)
Definition Match (t : PathTemplate) (urlPath : bytes) : result (gmap string bytes) :=
  match urlPath with
  | b :: urlPath =>
    if decide (b = ch "/") then
      match match_verb (verb t) (split (ch "/") urlPath) with
      | None => Err errVerbMismatched
      | Some components =>
        do m <- handle_all (segments t) (MkMatcher components 0 ∅ []);
        if decide (pos m = length components) then Ok (captured m) else Err errNotMatch
      end
    else Err errNotMatch
  | [] => Err errNotMatch
  end.

(** ** The language of the templates *)

#[local] Arguments ch : simpl never.

(** The characters of a literal: plain ones and escapes. *)
Inductive pchars : bytes → Prop :=
| pchars_nil : pchars []
| pchars_plain b l : isPlain b = true → pchars l → pchars (b :: l)
| pchars_pct b1 b2 b3 l : isPCTEncoded b1 b2 b3 = true → pchars l → pchars (b1 :: b2 :: b3 :: l).

Definition literal_ok (l : bytes) : Prop := pchars l ∧ l ≠ [] ∧ head l ≠ Some (ch "*").

Definition ident_ok (l : bytes) : Prop :=
  isAlpha (currentChar l) = true ∧ Forall (λ b, isIdentChar b = true) l.

(** What the grammar alone guarantees of a segment. *)
Inductive syn_ok : segment → Prop :=
| syn_wildcard : syn_ok wildcard
| syn_deep : syn_ok deepWildcard
| syn_literal l : literal_ok l → syn_ok (literal l)
| syn_variable fp segs :
    fp ≠ [] → Forall ident_ok fp → segs ≠ [] → Forall syn_ok segs → syn_ok (variable fp segs).

Definition nested (s : segment) : list segment :=
  match s with variable _ segs => segs | _ => [] end.

(** The segments a path is matched against, in order. *)
Definition flat (s : segment) : list segment :=
  match s with variable _ segs => segs | s => [s] end.

Definition var_names (segs : list segment) : list bytes := join [ch "."] <$> omap fieldPath segs.

(** A deep wildcard has to be the last segment. *)
Definition deep_last (segs : list segment) : Prop :=
  ∀ i, segs !! i = Some deepWildcard → S i = length segs.

Definition verb_ok (segs : list segment) (v : bytes) : Prop :=
  pchars v ∧ ∀ l, last segs = Some (literal l) → ch ":" ∉ v.

Definition template_ok (t : PathTemplate) : Prop :=
  segments t ≠ [] ∧ Forall syn_ok (segments t) ∧
  Forall (λ s, Forall (λ n, isVariable n = false) (nested s)) (segments t) ∧
  NoDup (var_names (segments t)) ∧
  deep_last (concat (flat <$> segments t)) ∧
  verb_ok (segments t) (verb t).

(** The text of a template; the colon of an empty verb is only written after a last
    literal that has one itself. *)
Definition print_verb (segs : list segment) (v : bytes) : bytes :=
  let needed := match last segs with
                | Some (literal l) => (0 <? last_index (ch ":") l)%Z
                | _ => false
                end in
  if decide (v = []) then if needed then [ch ":"] else [] else ch ":" :: v.

Definition print_segments (segs : list segment) : bytes := join [ch "/"] (seg_String <$> segs).

Definition print (t : PathTemplate) : bytes :=
  ch "/" :: print_segments (segments t) ++ print_verb (segments t) (verb t).

(** The texts that stand for a segment: a variable with one wildcard may leave it out. *)
Inductive seg_text : segment → bytes → Prop :=
| text_flat s : isVariable s = false → seg_text s (seg_String s)
| text_variable fp segs ts : Forall2 seg_text segs ts →
    seg_text (variable fp segs) (ch "{" :: join [ch "."] fp ++ ch "=" :: join [ch "/"] ts ++ [ch "}"])
| text_short fp : seg_text (variable fp [wildcard]) (ch "{" :: join [ch "."] fp ++ [ch "}"]).

(** The texts of a verb after the last of the segments: one that is not empty follows a colon; for an
    empty one there is nothing, or after a literal a colon, which there has to be when the literal has
    one itself behind its first character. *)
Definition verb_text (segs : list segment) (v x : bytes) : Prop :=
  if decide (v = []) then
    match last segs with
    | Some (literal l) => x = [ch ":"] ∨ x = [] ∧ (last_index (ch ":") l ≤ 0)%Z
    | _ => x = []
    end
  else x = ch ":" :: v.

(** The texts of a template. *)
Definition template_text (t : PathTemplate) (s : bytes) : Prop :=
  ∃ ts x, Forall2 seg_text (segments t) ts ∧ verb_text (segments t) (verb t) x ∧
    s = ch "/" :: join [ch "/"] ts ++ x.

(** ** The parser terminates *)

(** A parser that succeeds has consumed something; it never panics. *)
Definition progress {A} (p : bytes) (r : result (A * bytes)) : Prop :=
  match r with Ok (_, p') => length p' < length p | Err _ => True | Panic => False end.

Lemma consume_Some c p p' : consume c p = Some p' ↔ p = c :: p'.
Proof. destruct p; simpl; [done|]. case_decide; naive_solver. Qed.

Lemma literal_loop_spec p : let '(l, rest) := literal_loop p in p = l ++ rest ∧ pchars l.
Proof.
  remember (length p) as n eqn:Hn. revert p Hn.
  induction n as [n IH] using lt_wf_ind. intros [|b p] ->; simpl; [split; [done|constructor]|].
  destruct (isPlain b) eqn:Hb.
  - pose proof (IH (length p) ltac:(simpl; lia) p eq_refl) as Hp.
    destruct (literal_loop p) as [l rest]. destruct Hp as [-> ?]. by repeat constructor.
  - destruct p as [|b2 [|b3 p]]; [by repeat constructor..|].
    destruct (isPCTEncoded b b2 b3) eqn:E; [|by repeat constructor].
    pose proof (IH (length p) ltac:(simpl; lia) p eq_refl) as Hp.
    destruct (literal_loop p) as [l rest]. destruct Hp as [-> ?].
    split; [done|]. by apply pchars_pct.
Qed.

Lemma parseLiteral_spec p l rest :
  parseLiteral p = Ok (l, rest) → p = l ++ rest ∧ pchars l ∧ l ≠ [].
Proof.
  unfold parseLiteral. pose proof (literal_loop_spec p) as H.
  destruct (literal_loop p) as [l' rest']. case_decide; [done|]. intros [= <- <-]. naive_solver.
Qed.

Lemma ident_loop_spec p :
  let '(l, rest) := ident_loop p in p = l ++ rest ∧ Forall (λ b, isIdentChar b = true) l.
Proof.
  induction p as [|b p IH]; simpl; [by split|].
  destruct (isIdentChar b) eqn:?; [|by split].
  destruct (ident_loop p) as [l rest]. destruct IH as [-> ?]. split; [done|by constructor].
Qed.

Lemma isAlpha_ident b : isAlpha b = true → isIdentChar b = true.
Proof. unfold isIdentChar. by intros ->. Qed.

Lemma parseIdent_spec p l rest : parseIdent p = Ok (l, rest) → p = l ++ rest ∧ ident_ok l ∧ l ≠ [].
Proof.
  unfold parseIdent. destruct (isAlpha (currentChar p)) eqn:Ha; [|done].
  pose proof (ident_loop_spec p) as H. intros [= E]. rewrite E in H. destruct H as [-> Hl].
  destruct l as [|b l].
  - exfalso. simpl in Ha, E. destruct rest as [|b rest]; [done|]. simpl in *.
    rewrite (isAlpha_ident _ Ha) in E. by destruct (ident_loop rest).
  - split_and!; [done| |done]. by split.
Qed.

Lemma parseFieldPath_total fuel p :
  length p < fuel →
  ∃ r, parseFieldPath fuel p = Some r ∧ progress p r ∧
       ∀ fp p', r = Ok (fp, p') → fp ≠ [] ∧ Forall ident_ok fp.
Proof.
  revert p. induction fuel as [|fuel IH]; intros p Hf; [lia|]. simpl.
  destruct (parseIdent p) as [[id rest]|e|] eqn:E.
  - apply parseIdent_spec in E as (-> & Hid & Hne). rewrite length_app in Hf.
    assert (0 < length id) by (destruct id; [done|simpl; lia]).
    destruct (consume (ch ".") rest) as [p'|] eqn:Ec.
    + apply consume_Some in Ec as ->. destruct (IH p') as (r & -> & Hp & Hok); [simpl in *; lia|].
      eexists. split; [done|]. destruct r as [[fp p'']| |]; simpl in *; [|done..].
      split; [rewrite length_app; simpl; lia|]. intros ? ? [= <- <-].
      split; [done|]. constructor; [done|]. by eapply Hok.
    + eexists. split; [done|]. simpl. split; [rewrite length_app; lia|].
      intros ? ? [= <- <-]. auto.
  - eexists. split; [done|]. by split.
  - exfalso. revert E. unfold parseIdent. by case_match.
Qed.

(** The common shape of the parsers of segments: enough fuel gives a result, the result
    consumed something and is a [Q]. *)
Definition total_parser {A} (Q : A → Prop) (f : bytes → option (result (A * bytes))) (p : bytes) :=
  ∃ r, f p = Some r ∧ progress p r ∧ ∀ a p', r = Ok (a, p') → Q a.

Definition segs_ok (segs : list segment) : Prop := segs ≠ [] ∧ Forall syn_ok segs.

Lemma parseVariableSegment_total f p :
  (∀ p', length p' < length p → total_parser segs_ok f p') →
  total_parser syn_ok (parseVariableSegment f) p.
Proof.
  intros Hf. unfold total_parser, parseVariableSegment.
  destruct (consume (ch "{") p) as [p1|] eqn:E1; [|by eexists].
  apply consume_Some in E1 as ->.
  destruct (parseFieldPath_total (S (length p1)) p1) as (r1 & -> & Hp1 & Hok1); [lia|].
  destruct r1 as [[fp p2]| |]; [|by eexists|done]. simpl in Hp1.
  destruct (Hok1 _ _ eq_refl) as [Hne Hid].
  assert (∃ r, (match consume (ch "=") p2 with Some p => f p | None => Some (Ok ([wildcard], p2)) end)
               = Some r ∧ (∀ a p', r = Ok (a, p') → segs_ok a ∧ length p' ≤ length p2) ∧ r ≠ Panic)
    as (r2 & -> & Hok2 & HnP).
  { destruct (consume (ch "=") p2) as [p3|] eqn:E2.
    - apply consume_Some in E2 as ->. simpl in *. destruct (Hf p3) as (r & Hr & Hp & Hok); [lia|].
      exists r. split_and!; [done| |by intros ->]. intros a p' ->. simpl in Hp. split; [eauto|lia].
    - eexists. split_and!; [done| |done]. intros ? ? [= <- <-]. repeat constructor. done. }
  simpl. eexists. split; [done|]. destruct r2 as [[segs p3]| |]; simpl; [|done..].
  destruct (Hok2 _ _ eq_refl) as [[Hs1 Hs2] Hlen].
  destruct (consume (ch "}") p3) as [p4|] eqn:E3; [|done].
  apply consume_Some in E3 as ->. simpl in *. split; [lia|].
  intros ? ? [= <- <-]. by constructor.
Qed.

Lemma parseSegment_total f p :
  (∀ p', length p' < length p → total_parser segs_ok f p') →
  total_parser syn_ok (parseSegment f) p.
Proof.
  intros Hf. unfold total_parser, parseSegment. cbv zeta.
  case_decide as H0; [by eexists|].
  case_decide as H1; [case_decide as H2|case_decide as H3].
  - destruct p as [|b1 [|b2 p]]; [by simpl in H1..|]. eexists. split; [done|]. simpl.
    rewrite drop_0. split; [lia|]. intros ? ? [= <- <-]. constructor.
  - destruct p as [|b1 p]; [by simpl in H1|]. eexists. split; [done|]. simpl. rewrite drop_0.
    split; [lia|]. intros ? ? [= <- <-]. constructor.
  - by apply parseVariableSegment_total.
  - eexists. split; [done|]. destruct (parseLiteral p) as [[l rest]| |] eqn:E; simpl.
    + apply parseLiteral_spec in E as (-> & Hl & Hne). destruct l as [|b l]; [done|].
      simpl. rewrite length_app. split; [lia|]. intros ? ? [= <- <-]. constructor.
      split_and!; [done..|]. simpl in H1. naive_solver.
    + done.
    + revert E. unfold parseLiteral. destruct (literal_loop p). by case_decide.
Qed.

Lemma parseSegments_total fuel p :
  length p < fuel → total_parser segs_ok (parseSegments fuel) p.
Proof.
  revert p. induction fuel as [|fuel IH]; intros p Hf; [lia|].
  assert (∀ p', length p' < length p → total_parser segs_ok (parseSegments fuel) p') as IH'
    by (intros; apply IH; lia).
  unfold total_parser. simpl.
  destruct (parseSegment_total _ p IH') as (r & -> & Hp & Hok).
  simpl. destruct r as [[seg p1]| |]; [|by eexists|done]. simpl in Hp.
  pose proof (Hok _ _ eq_refl) as Hseg.
  destruct (consume (ch "/") p1) as [p2|] eqn:E.
  - apply consume_Some in E as ->. simpl in Hp. case_decide; [by eexists|].
    destruct (IH p2) as (r & -> & Hp2 & Hok2); [lia|]. simpl. eexists. split; [done|].
    destruct r as [[segs p3]| |]; simpl in *; [|done..]. split; [lia|].
    intros ? ? [= <- <-]. split; [done|]. constructor; [done|]. by eapply Hok2.
  - eexists. split; [done|]. split; [done|]. intros ? ? [= <- <-]. split; [done|]. auto.
Qed.

(** ** Validation *)

Lemma deep_last_cons s segs :
  deep_last (s :: segs) ↔ (s = deepWildcard → segs = []) ∧ deep_last segs.
Proof.
  unfold deep_last. split.
  - intros H. split; [intros ->|intros i Hi; specialize (H (S i) Hi); simpl in H; lia].
    specialize (H 0 eq_refl). by destruct segs.
  - intros [Hs H] [|i] Hi; simpl in *; [simplify_eq; by rewrite Hs|]. by rewrite (H i).
Qed.

Lemma deep_last_app a b : b ≠ [] → deep_last (a ++ b) ↔ deepWildcard ∉ a ∧ deep_last b.
Proof.
  intros Hb. induction a as [|s a IH]; simpl; [set_solver|].
  rewrite deep_last_cons, IH, not_elem_of_cons. split.
  - intros [Hs [? ?]]. split_and!; [|done..]. intros <-. by destruct a, b; specialize (Hs eq_refl).
  - naive_solver.
Qed.

Lemma isDeep_true s : isDeep s = true ↔ s = deepWildcard.
Proof. by destruct s. Qed.

Lemma validate_nested_None last segs :
  validate_nested last segs = None ↔
  Forall (λ n, isVariable n = false) segs ∧ (if last then deep_last segs else deepWildcard ∉ segs).
Proof.
  induction segs as [|s segs IH]; simpl.
  - split; [|done]. intros _. split; [constructor|]. destruct last; [|apply not_elem_of_nil].
    by intros i Hi.
  - destruct (isVariable s) eqn:Hv; [split; [done|]; intros [H _]; inversion H; congruence|].
    rewrite Forall_cons.
    destruct last, (isDeep s) eqn:Hd; simpl; rewrite ?deep_last_cons, ?not_elem_of_cons,
      ?andb_true_r.
    + apply isDeep_true in Hd as ->. case_bool_decide; simpl; [rewrite IH; naive_solver|].
      split; [done|]. naive_solver.
    + rewrite andb_false_r, IH. assert (s ≠ deepWildcard) by (intros ->; done). naive_solver.
    + apply isDeep_true in Hd as ->. naive_solver.
    + rewrite IH. assert (s ≠ deepWildcard) by (intros ->; done). naive_solver.
Qed.

Lemma var_names_cons s segs :
  var_names (s :: segs) =
  match s with variable fp _ => [join [ch "."] fp] | _ => [] end ++ var_names segs.
Proof. by destruct s. Qed.

Lemma flat_not_nil segs : segs ≠ [] → Forall syn_ok segs → concat (flat <$> segs) ≠ [].
Proof.
  intros Hne Hok. destruct Hok as [|s segs Hs Hok]; [done|]. simpl.
  inversion Hs; simpl; try done. by destruct segs0.
Qed.

(** The condition on deep wildcards, one segment at a time. *)
Lemma deep_last_flat s segs :
  Forall syn_ok segs →
  deep_last (concat (flat <$> s :: segs)) ↔
  (if bool_decide (segs = []) then deep_last (flat s) else deepWildcard ∉ flat s) ∧
  deep_last (concat (flat <$> segs)).
Proof.
  intros Hok. case_bool_decide as Hs; simpl.
  - subst. simpl. rewrite app_nil_r. split; [|naive_solver]. by split.
  - rewrite deep_last_app; [done|]. by apply flat_not_nil.
Qed.

Lemma validate_None segs : ∀ seen,
  Forall syn_ok segs →
  validate seen segs = None ↔
  Forall (λ s, Forall (λ n, isVariable n = false) (nested s)) segs ∧
  NoDup (var_names segs) ∧ Forall (λ n, n ∉ seen) (var_names segs) ∧
  deep_last (concat (flat <$> segs)).
Proof.
  induction segs as [|s segs IH]; intros seen Hok.
  { simpl. split; [|done]. intros _. split_and!; [constructor..|]. by intros i Hi. }
  apply Forall_cons in Hok as [Hs Hok].
  rewrite deep_last_flat, Forall_cons, var_names_cons by done.
  assert (∀ e, (match e with Some e => Some e | None => validate seen segs end = None ↔
    e = None ∧ validate seen segs = None)) as Hand by (intros []; naive_solver).
  destruct s as [| |l|fp segs']; simpl.
  - rewrite andb_false_r, IH by done.
    assert (deep_last [wildcard]) by (intros [|[]]; done).
    assert (deepWildcard ∉ [wildcard]) by set_solver.
    case_bool_decide; naive_solver.
  - rewrite andb_true_r. assert (deep_last [deepWildcard]) by (intros [|[]]; done).
    case_bool_decide; simpl; [rewrite IH by done; naive_solver|]. set_solver.
  - rewrite andb_false_r, IH by done.
    assert (deep_last [literal l]) by (intros [|[]]; done).
    assert (deepWildcard ∉ [literal l]) by set_solver.
    case_bool_decide; naive_solver.
  - rewrite NoDup_cons, Forall_cons. case_decide as Hseen; [naive_solver|].
    pose proof (validate_nested_None (bool_decide (segs = [])) segs') as Hn.
    destruct (validate_nested _ segs') as [e|].
    + split; [done|]. intros H. destruct Hn as [_ Hn]. apply Hn. tauto.
    + rewrite IH by done.
      assert (Forall (λ n, n ∉ join [ch "."] fp :: seen) (var_names segs) ↔
              join [ch "."] fp ∉ var_names segs ∧ Forall (λ n, n ∉ seen) (var_names segs)) as ->.
      { rewrite !Forall_forall. set_solver. }
      pose proof (proj1 Hn eq_refl). tauto.
Qed.

(** ** Soundness of the parser *)

Lemma pchars_app p q : pchars p → pchars q → pchars (p ++ q).
Proof. induction 1; simpl; [done| |]; intros; [apply pchars_plain|apply pchars_pct]; auto. Qed.

Lemma pchars_split p q : pchars (p ++ ch ":" :: q) → pchars p ∧ pchars q.
Proof.
  remember (p ++ ch ":" :: q) as l eqn:Hl. intros H. revert p Hl.
  induction H as [|b l Hb Hl IH|b1 b2 b3 l Hb Hl IH]; intros p E; [by destruct p|..].
  - destruct p as [|b' p]; simplify_eq/=; [split; [constructor|done]|].
    destruct (IH p eq_refl). split; [by apply pchars_plain|done].
  - pose proof Hb as Hb'. unfold isPCTEncoded in Hb'. bool_to_prop. subst.
    destruct p as [|? [|? [|? p]]]; simplify_eq/=;
      try match goal with Hx : isHexDigit (ch ":") = true |- _ => done end.
    destruct (IH p eq_refl). split; [|done]. by apply pchars_pct.
Qed.

Lemma last_index_cases c l :
  (last_index c l = -1 ∧ c ∉ l)%Z ∨ ∃ p q, last_index c l = zlen p ∧ l = p ++ c :: q ∧ c ∉ q.
Proof.
  unfold last_index. destruct (last_index_opt c l) as [i|] eqn:E.
  - right. apply last_index_opt_Some in E as (p & q & -> & <- & ?). by exists p, q.
  - left. by apply last_index_opt_None in E.
Qed.

Lemma take_snoc {A} (l : list A) x : take (length (l ++ [x]) - 1) (l ++ [x]) = l.
Proof.
  rewrite length_app. simpl. replace (length l + 1 - 1) with (length l) by lia.
  apply take_app_length.
Qed.

(** Replacing a last literal keeps what validation looks at. *)
Lemma var_names_snoc_literal segs l : var_names (segs ++ [literal l]) = var_names segs.
Proof. unfold var_names. rewrite omap_app. simpl. by rewrite app_nil_r. Qed.

(** The verb is cut off or parsed as its specification says, and nothing else changes. *)
Lemma parseVerb_sound segs p tpl p' :
  parseVerb segs p = Ok (tpl, p') → segs_ok segs →
  segs_ok (segments tpl) ∧ verb_ok (segments tpl) (verb tpl).
Proof.
  intros H [Hne Hok]. unfold parseVerb in H.
  destruct segs as [|s segs _] using rev_ind; [done|]. rewrite last_snoc in H.
  apply Forall_app in Hok as [Hok Hs]. apply Forall_cons in Hs as [Hs _].
  assert (segs_ok (segs ++ [s])) as Hsegs.
  { split; [by destruct segs|]. by rewrite Forall_app, Forall_singleton. }
  assert ((∀ l, s = literal l → False) ∨ ∃ l, s = literal l) as [Hnl|[l ->]].
  { destruct s; (by right; eauto) || by left. }
  - assert (∀ v, pchars v → verb_ok (segs ++ [s]) v) as Hv.
    { intros v ?. split; [done|]. intros l. rewrite last_snoc. intros [= ->]. by edestruct Hnl. }
    assert (match consume (ch ":") p with
            | Some p => do ' (v, p) <- parseLiteral p; Ok (MkTemplate (segs ++ [s]) v, p)
            | None => Ok (MkTemplate (segs ++ [s]) [], p)
            end = Ok (tpl, p')) as H'. { destruct s; try done. by edestruct Hnl. }
    destruct (consume _ p) as [p1|]; [|simplify_eq; split; [done|apply Hv; constructor]].
    destruct (parseLiteral p1) as [[v p2]| |] eqn:E; simplify_eq/=.
    apply parseLiteral_spec in E as (-> & ? & ?). eauto.
  - rewrite take_snoc in H.
    destruct (last_index_cases (ch ":") l) as [[E Hn]|(a & b & E & -> & Hn)]; rewrite E in H; simpl in H.
    + simplify_eq/=. split; [done|]. split; [constructor|]. intros. apply not_elem_of_nil.
    + destruct (0 <? zlen a)%Z eqn:Ha; simplify_eq/=; bool_to_prop.
      2:{ split; [done|]. split; [constructor|]. intros. apply not_elem_of_nil. }
      inversion Hs as [| |? (Hl & Hlne & Hhd)|]; subst. apply pchars_split in Hl as [Hpa Hpb].
      assert (sub (a ++ ch ":" :: b) 0 (zlen a) = a) as ->.
      { unfold sub. rewrite drop_0. replace (Z.to_nat _) with (length a) by (unfold zlen; lia).
        apply take_app_length. }
      assert (from (a ++ ch ":" :: b) (zlen a + 1) = b) as ->.
      { unfold from. replace (Z.to_nat _) with (length (a ++ [ch ":"])) by
          (rewrite length_app; unfold zlen; simpl; lia).
        change (ch ":" :: b) with ([ch ":"] ++ b). rewrite app_assoc. apply drop_app_length. }
      split; [split; [by destruct segs|]|split; [done|by intros]].
      apply Forall_app_2; [done|]. constructor; [|done]. constructor.
      destruct a; [done|]. by split_and!.
Qed.

Lemma parseVerb_no_panic segs p : segs ≠ [] → parseVerb segs p ≠ Panic.
Proof.
  intros Hne. unfold parseVerb. destruct (last segs) as [s|] eqn:E; [|by apply last_None in E].
  assert (∀ q, match consume (ch ":") q with
    | Some p => do ' (v, p) <- parseLiteral p; Ok (MkTemplate segs v, p)
    | None => Ok (MkTemplate segs [], q)
    end ≠ Panic).
  { intros q. destruct (consume _ q); [|done]. unfold parseLiteral.
    destruct (literal_loop _). by case_decide. }
  destruct s; try done. by case_match.
Qed.

Lemma parse_sound s tpl : parse s = Some (Ok tpl) → template_ok tpl.
Proof.
  unfold parse. destruct (consume (ch "/") s) as [p|]; [|done].
  destruct (parseSegments_total (S (length p)) p) as (r & -> & _ & Hok); [lia|].
  simpl. destruct r as [[segs p1]| |]; [|done..]. specialize (Hok _ _ eq_refl). simpl.
  destruct (parseVerb segs p1) as [[tpl' p2]| |] eqn:E; simpl; [|done..].
  apply parseVerb_sound in E as [[Hne Hsegs] Hv]; [|done].
  case_decide; [|done]. destruct (validate [] (segments tpl')) eqn:Hval; [done|].
  intros [= <-]. apply validate_None in Hval as (? & ? & _ & ?); [|done]. done.
Qed.

(** Parsing always comes to an end, whatever the path: the fuel that [parse] hands to
    [parseSegments] is enough, and the result is a template or an error, never a panic. *)
Theorem Parse_total (urlPath : bytes) :
  parse urlPath = Some (Parse urlPath) ∧ Parse urlPath ≠ Panic.
Proof.
  assert (∃ r, parse urlPath = Some r ∧ r ≠ Panic) as (r & Hr & Hne).
  { unfold parse. destruct (consume (ch "/") urlPath) as [p|]; [|by eexists].
    destruct (parseSegments_total (S (length p)) p) as (r & -> & Hp & Hok); [lia|].
    simpl. eexists. split; [done|]. destruct r as [[segs p1]| |]; [|done..].
    destruct (Hok _ _ eq_refl) as [Hne _]. simpl.
    pose proof (parseVerb_no_panic segs p1 Hne).
    destruct (parseVerb segs p1) as [[tpl p2]| |]; simpl; [|done..].
    case_decide; [|done]. by case_match. }
  unfold Parse. by rewrite Hr.
Qed.

(** ** Completeness of the parser *)

(** What may follow the text of a literal, and of a segment. *)
Definition stops (rest : bytes) : Prop :=
  ∀ b, head rest = Some b → isPlain b = false ∧ b ≠ ch "%".

Definition follows (s : segment) (rest : bytes) : Prop :=
  match s with
  | literal _ => stops rest
  | wildcard => head rest ≠ Some (ch "*")
  | _ => True
  end.

Lemma literal_loop_app l rest : pchars l → stops rest → literal_loop (l ++ rest) = (l, rest).
Proof.
  intros Hl Hr. induction Hl as [|b l Hb Hl IH|b1 b2 b3 l Hb Hl IH]; simpl.
  - destruct rest as [|b rest]; [done|]. simpl. destruct (Hr b eq_refl) as [-> Hn].
    destruct rest as [|? [|]]; [done..|]. unfold isPCTEncoded. by rewrite bool_decide_false.
  - by rewrite Hb, IH.
  - destruct (isPlain b1) eqn:E; [|by rewrite Hb, IH].
    exfalso. unfold isPCTEncoded in Hb. bool_to_prop. by subst.
Qed.

Lemma parseLiteral_app l rest :
  pchars l → l ≠ [] → stops rest → parseLiteral (l ++ rest) = Ok (l, rest).
Proof.
  intros. unfold parseLiteral. rewrite literal_loop_app by done. by rewrite decide_False.
Qed.

Lemma ident_loop_app l rest :
  Forall (λ b, isIdentChar b = true) l → (∀ b, head rest = Some b → isIdentChar b = false) →
  ident_loop (l ++ rest) = (l, rest).
Proof.
  intros Hl Hr. induction Hl as [|b l Hb Hl IH]; simpl; [|by rewrite Hb, IH].
  destruct rest; [done|]. simpl. by rewrite (Hr _ eq_refl).
Qed.

Lemma parseIdent_app l rest :
  ident_ok l → (∀ b, head rest = Some b → isIdentChar b = false) →
  parseIdent (l ++ rest) = Ok (l, rest).
Proof.
  intros [Ha Hl] Hr. unfold parseIdent. destruct l; [done|]. simpl in *. rewrite Ha.
  f_equal. by apply (ident_loop_app (_ :: _)).
Qed.

Lemma ident_ok_not_nil l : ident_ok l → 0 < length l.
Proof. intros [H _]. destruct l; [done|]. simpl. lia. Qed.

Lemma parseFieldPath_app fp rest fuel :
  fp ≠ [] → Forall ident_ok fp → head rest = Some (ch "=") ∨ head rest = Some (ch "}") →
  length (join [ch "."] fp ++ rest) < fuel →
  parseFieldPath fuel (join [ch "."] fp ++ rest) = Some (Ok (fp, rest)).
Proof.
  intros Hne Hok Hr. revert fuel.
  induction Hok as [|id fp Hid Hok IH]; [done|]. intros [|fuel] Hf; [lia|].
  pose proof (ident_ok_not_nil id Hid).
  destruct fp as [|id' fp].
  - simpl. rewrite parseIdent_app; [|done|]; [|destruct Hr as [-> | ->]; by intros ? [= <-]].
    destruct rest; [by destruct Hr|]. by destruct Hr; simplify_eq/=.
  - change (join [ch "."] (id :: id' :: fp)) with (id ++ ch "." :: join [ch "."] (id' :: fp)) in *.
    rewrite <- app_assoc, <- app_comm_cons in *. cbn [parseFieldPath].
    rewrite parseIdent_app; [|done|]; [|by intros ? [= <-]].
    rewrite (proj2 (consume_Some (ch ".") _ (join [ch "."] (id' :: fp) ++ rest)) eq_refl).
    rewrite IH; [done|done|]. rewrite length_app in Hf. cbn [length] in Hf. lia.
Qed.

Lemma head_app_Some {A} (l k : list A) x : head l = Some x → head (l ++ k) = Some x.
Proof. by destruct l. Qed.

(** A segment is read back from its text. *)
Definition reads (s : segment) (t : bytes) : Prop :=
  ∀ rest fuel, length (t ++ rest) ≤ fuel → follows s rest →
  parseSegment (parseSegments fuel) (t ++ rest) = Some (Ok (s, rest)).

Lemma reads_flat s : syn_ok s → isVariable s = false → reads s (seg_String s).
Proof.
  intros Hs Hv rest fuel _ Hf. unfold parseSegment. inversion Hs as [| |l (Hl & Hne & Hh)|]; subst.
  - simpl. rewrite decide_False; [by rewrite drop_0|].
    simpl in Hf. destruct rest; [done|]. intros E. apply Hf. simpl. f_equal. exact E.
  - simpl. by rewrite drop_0.
  - destruct l as [|b l]; [done|].
    assert (isPlain b = true ∨ b = ch "%") as Hb.
    { inversion Hl; subst; [by left|]. unfold isPCTEncoded in *. bool_to_prop. by right. }
    simpl seg_String. rewrite parseLiteral_app by done.
    simpl currentChar. rewrite !decide_False; [done|..].
    + intros ->. by destruct Hb.
    + naive_solver.
    + intros ->. by destruct Hb.
  - done.
Qed.

Lemma join_cons_cons (sep t t' : bytes) ts : join sep (t :: t' :: ts) = t ++ sep ++ join sep (t' :: ts).
Proof. done. Qed.

Lemma seg_text_not_nil s t : syn_ok s → seg_text s t → t ≠ [].
Proof. intros Hs Ht. destruct Ht as [s Hv| |]; [|done..]. by inversion Hs as [| |l (?&?&?)|]; subst. Qed.

Lemma join_not_nil t ts : t ≠ [] → join [ch "/"] (t :: ts) ≠ [].
Proof. by destruct t, ts. Qed.

Lemma follows_slash s rest : follows s (ch "/" :: rest).
Proof. destruct s; simpl; [done..| |done]. intros b [= <-]. done. Qed.

Lemma parseSegments_app segs ts rest fuel :
  segs ≠ [] → Forall syn_ok segs → Forall2 seg_text segs ts → Forall2 reads segs ts →
  (∀ s, last segs = Some s → follows s rest) → head rest ≠ Some (ch "/") →
  length (join [ch "/"] ts ++ rest) < fuel →
  parseSegments fuel (join [ch "/"] ts ++ rest) = Some (Ok (segs, rest)).
Proof.
  intros Hne Hok Ht Hreads. revert fuel Ht.
  induction Hreads as [|s t segs ts Hs Hreads IH]; [done|]. intros [|fuel] Ht Hlast Hrest Hf; [lia|].
  apply Forall_cons in Hok as [Hoks Hok]. apply Forall2_cons_1 in Ht as [Hst Ht].
  cbn [parseSegments]. destruct Hreads as [|s' t' segs ts Hs' Hreads].
  - change (join [ch "/"] [t]) with t in *.
    rewrite (Hs rest fuel); [|lia|by apply Hlast]. simpl.
    destruct (consume (ch "/") rest) eqn:E; [|done]. by apply consume_Some in E as ->.
  - rewrite join_cons_cons, <- !app_assoc in *. cbn [app] in *.
    rewrite Hs; [|lia|apply follows_slash]. cbn [mbind option_bind].
    rewrite (proj2 (consume_Some (ch "/") _ (join [ch "/"] (t' :: ts) ++ rest)) eq_refl).
    assert (join [ch "/"] (t' :: ts) ≠ []).
    { apply join_not_nil. apply Forall_cons in Hok as [? _]. apply Forall2_cons_1 in Ht as [? _].
      by eapply seg_text_not_nil. }
    rewrite decide_False by (intros [? _]%app_nil; done).
    rewrite IH; [done|done|done|done|done|done|]. rewrite length_app in Hf. cbn [length] in Hf. lia.
Qed.

Lemma seg_text_flat s t : isVariable s = false → seg_text s t → t = seg_String s.
Proof. intros Hv Ht. by destruct Ht. Qed.

Lemma flat_reads segs ts :
  Forall syn_ok segs → Forall (λ n, isVariable n = false) segs → Forall2 seg_text segs ts → Forall2 reads segs ts.
Proof.
  intros Hok Hnv Ht. induction Ht as [|s t segs ts Hs Ht IH]; [done|].
  apply Forall_cons in Hok as [Hoks Hok]. apply Forall_cons in Hnv as [Hv Hnv].
  constructor; [|by apply IH]. rewrite (seg_text_flat _ _ Hv Hs). by apply reads_flat.
Qed.

(** What follows the field path of a variable is read by [f]. *)
Lemma reads_braces fp segs t :
  fp ≠ [] → Forall ident_ok fp → head t = Some (ch "=") ∨ head t = Some (ch "}") →
  (∀ rest fuel, length (t ++ rest) ≤ fuel →
     match consume (ch "=") (t ++ rest) with
     | Some p => parseSegments fuel p
     | None => Some (Ok ([wildcard], t ++ rest))
     end = Some (Ok (segs, ch "}" :: rest))) →
  reads (variable fp segs) (ch "{" :: join [ch "."] fp ++ t).
Proof.
  intros Hfp Hid Ht Hr rest fuel Hf _. cbn [app] in *. rewrite <- app_assoc in *.
  unfold parseSegment. cbn [currentChar]. rewrite !decide_False by done. rewrite decide_True by done.
  unfold parseVariableSegment. rewrite (proj2 (consume_Some (ch "{") _ _) eq_refl).
  cbn [length] in Hf. rewrite length_app in Hf.
  rewrite parseFieldPath_app; [|done|done|destruct t; [by destruct Ht|done]|rewrite length_app; lia].
  rewrite Hr by lia. cbn. by rewrite decide_True.
Qed.

Lemma reads_text s t :
  syn_ok s → Forall (λ n, isVariable n = false) (nested s) → seg_text s t → reads s t.
Proof.
  intros Hs Hnv Hst. destruct Hst as [s Hv|fp segs ts Ht|fp]; [by apply reads_flat|..];
    inversion Hs as [| | |? ? Hfp Hid Hne Hok]; subst.
  - apply reads_braces; [done|done|by left|]. intros rest fuel Hf. cbn [app] in *. rewrite <- app_assoc in *.
    rewrite (proj2 (consume_Some (ch "=") _ _) eq_refl).
    apply parseSegments_app; [done|done|done|by apply flat_reads| |done|].
    + intros s _. destruct s; simpl; [done..| |done]. by intros b [= <-].
    + cbn [length app] in *. lia.
  - apply reads_braces; [done|done|by right|]. done.
Qed.

Lemma reads_texts segs ts :
  Forall syn_ok segs → Forall (λ s, Forall (λ n, isVariable n = false) (nested s)) segs →
  Forall2 seg_text segs ts → Forall2 reads segs ts.
Proof.
  intros Hok Hn Ht. induction Ht as [|s t segs ts Hs Ht IH]; [done|].
  apply Forall_cons in Hok as [? ?]. apply Forall_cons in Hn as [? ?]. constructor; [by apply reads_text|auto].
Qed.

Lemma last_index_app c p q : c ∉ q → last_index c (p ++ c :: q) = zlen p.
Proof. intros. unfold last_index. by rewrite last_index_opt_app. Qed.

(** A verb after a literal is cut off again. *)
Lemma parseVerb_literal segs l v x :
  l ≠ [] → ch ":" ∉ v → verb_text (segs ++ [literal l]) v x →
  parseVerb (segs ++ [literal (l ++ x)]) [] = Ok (MkTemplate (segs ++ [literal l]) v, []).
Proof.
  intros Hl Hv Hx. unfold parseVerb. rewrite !last_snoc, take_snoc.
  assert (∀ v', ch ":" ∉ v' →
    let s := l ++ ch ":" :: v' in let idx := last_index (ch ":") s in
    (0 <? idx)%Z = true ∧ sub s 0 idx = l ∧ from s (idx + 1) = v') as Hcut.
  { intros v' Hv' s idx. subst s idx. rewrite last_index_app by done. split_and!.
    - apply Z.ltb_lt. destruct l; [done|]. unfold zlen. simpl. lia.
    - unfold sub. rewrite drop_0. replace (Z.to_nat _) with (length l) by (unfold zlen; lia).
      apply take_app_length.
    - unfold from. replace (Z.to_nat _) with (length (l ++ [ch ":"])) by
        (rewrite length_app; unfold zlen; simpl; lia).
      change (ch ":" :: v') with ([ch ":"] ++ v'). rewrite app_assoc. apply drop_app_length. }
  unfold verb_text in Hx. rewrite last_snoc in Hx.
  case_decide as Hv0; [subst v|subst x; by destruct (Hcut v Hv) as (-> & -> & ->)].
  destruct Hx as [->|[-> Hx]].
  - by destruct (Hcut [] (not_elem_of_nil _)) as (-> & -> & ->).
  - rewrite app_nil_r. by rewrite (proj2 (Z.ltb_ge _ _)).
Qed.

Lemma verb_text_head segs v x b : verb_text segs v x → head x = Some b → b = ch ":".
Proof.
  unfold verb_text. intros Hx Hb. case_decide; [|by subst; simplify_eq/=].
  destruct (last segs) as [[]|]; naive_solver.
Qed.

Lemma pchars_verb_text segs v x : pchars v → verb_text segs v x → pchars x.
Proof.
  unfold verb_text. intros Hv Hx. assert (pchars [ch ":"]) by (by apply pchars_plain; constructor).
  case_decide; [|subst; by apply (pchars_app [_])].
  destruct (last segs) as [[]|]; naive_solver (eauto using pchars_nil).
Qed.

Lemma parse_finish tpl :
  template_ok tpl → validate [] (segments tpl) = None.
Proof.
  intros (? & ? & ? & ? & ? & _). apply validate_None; [done|]. split_and!; try done.
  apply Forall_forall. intros x _. apply not_elem_of_nil.
Qed.

(** What is left to do once the segments and the verb are read. *)
Lemma parse_reduce p segs rest tpl :
  parseSegments (S (length p)) p = Some (Ok (segs, rest)) →
  parseVerb segs rest = Ok (tpl, []) → template_ok tpl →
  parse (ch "/" :: p) = Some (Ok tpl).
Proof.
  intros Hs Hv Hok. unfold parse. rewrite (proj2 (consume_Some (ch "/") _ _) eq_refl), Hs.
  simpl. rewrite Hv. simpl. by rewrite parse_finish.
Qed.

(** A template whose last segment is not a literal: the verb is parsed on its own. *)
Lemma parse_text_other tpl s text :
  template_ok tpl → last (segments tpl) = Some s → (∀ l, s ≠ literal l) →
  template_text tpl text → parse text = Some (Ok tpl).
Proof.
  intros Hok El Hs (ts & x & Hts & Hx & ->). pose proof Hok as (Hne & Hsyn & Hnest & _ & _ & Hv & _).
  destruct tpl as [segs v]. simpl in *.
  apply parse_reduce with segs x; [| |done].
  - apply parseSegments_app; [done|done|done|by apply reads_texts| | |simpl; lia].
    + intros s' Hs'. rewrite El in Hs'. simplify_eq.
      destruct s'; simpl; [|done| |done].
      * intros E. by pose proof (verb_text_head _ _ _ _ Hx E).
      * by edestruct Hs.
    + intros E. by pose proof (verb_text_head _ _ _ _ Hx E).
  - assert (match consume (ch ":") x with
      | Some p => do ' (v, p) <- parseLiteral p; Ok (MkTemplate segs v, p)
      | None => Ok (MkTemplate segs [], x)
      end = Ok (MkTemplate segs v, [])) as E.
    { unfold verb_text in Hx. rewrite El in Hx. case_decide as Hv0.
      - subst v. assert (x = []) as -> by (by destruct s; [..|edestruct Hs|]). done.
      - subst x. simpl.
        pose proof (parseLiteral_app v [] Hv Hv0 ltac:(by intros ?)) as Ep.
        rewrite app_nil_r in Ep. by rewrite Ep. }
    unfold parseVerb. rewrite El. destruct s; try done. by edestruct Hs.
Qed.

(** A template that ends in a literal: the verb is part of what the literal reads. *)
Lemma parse_text_literal segs l v text :
  template_ok (MkTemplate (segs ++ [literal l]) v) → template_text (MkTemplate (segs ++ [literal l]) v) text →
  parse text = Some (Ok (MkTemplate (segs ++ [literal l]) v)).
Proof.
  intros Hok (ts & x & Hts & Hx & ->). pose proof Hok as (_ & Hsyn & Hnest & _ & _ & Hv & Hc). simpl in *.
  apply Forall_app in Hsyn as [Hsyn Hl]. apply Forall_cons in Hl as [Hl _].
  apply Forall_app in Hnest as [Hnest _]. apply Forall2_app_inv_l in Hts as (ts1 & ts2 & Hts & Hlt & ->).
  apply Forall2_cons_inv_l in Hlt as (t & ? & Ht & ->%Forall2_nil_inv_l & ->).
  apply (seg_text_flat (literal l)) in Ht as ->; [|done]. simpl seg_String.
  inversion Hl as [| |? (Hpl & Hlne & Hlh)|]; subst.
  assert (syn_ok (literal (l ++ x))) as Hl'.
  { constructor. split_and!; [apply pchars_app; [done|exact (pchars_verb_text _ _ _ Hv Hx)]|by destruct l|by destruct l]. }
  rewrite join_snoc_app. apply parse_reduce with (segs ++ [literal (l ++ x)]) []; [| |done].
  - rewrite <- (app_nil_r (join _ _)).
    assert (Forall2 seg_text (segs ++ [literal (l ++ x)]) (ts1 ++ [l ++ x])) as Hts'.
    { apply Forall2_app; [done|]. constructor; [|done]. by apply (text_flat (literal _)). }
    apply parseSegments_app; [by destruct segs| |done| | |done|].
    + by rewrite Forall_app, Forall_singleton.
    + apply reads_texts; [by rewrite Forall_app, Forall_singleton| |done].
      rewrite Forall_app, Forall_singleton. split; [done|constructor].
    + intros s _. by destruct s.
    + rewrite app_nil_r. lia.
  - apply parseVerb_literal; [done| |done]. apply (Hc l). by rewrite last_snoc.
Qed.

Lemma parse_text tpl text : template_ok tpl → template_text tpl text → parse text = Some (Ok tpl).
Proof.
  intros Hok Ht. destruct (last (segments tpl)) as [s|] eqn:El.
  - destruct s as [| |l|]; try by eapply parse_text_other.
    apply last_Some in El as [segs E]. destruct tpl as [? v]. simpl in E. subst.
    by apply parse_text_literal.
  - apply last_None in El. by destruct Hok.
Qed.

(** ** What was parsed is a text of the result *)

Lemma parseFieldPath_text fuel p fp p' :
  parseFieldPath fuel p = Some (Ok (fp, p')) → fp ≠ [] ∧ p = join [ch "."] fp ++ p'.
Proof.
  revert p fp. induction fuel as [|fuel IH]; intros p fp; [done|]. simpl.
  destruct (parseIdent p) as [[id rest]|e|] eqn:E; [|done..].
  apply parseIdent_spec in E as (-> & _ & _). destruct (consume (ch ".") rest) as [p1|] eqn:Ec.
  - apply consume_Some in Ec as ->. destruct (parseFieldPath fuel p1) as [[[fp' p2]| |]|] eqn:E; [|done..].
    intros [= <- <-]. apply IH in E as [Hne ->]. split; [done|]. destruct fp' as [|id' fp']; [done|].
    rewrite join_cons_cons, <- !app_assoc. done.
  - intros [= <- <-]. done.
Qed.

Definition text_parser (f : bytes → option (result (list segment * bytes))) : Prop :=
  ∀ p segs p', f p = Some (Ok (segs, p')) →
    ∃ ts, ts ≠ [] ∧ Forall2 seg_text segs ts ∧ p = join [ch "/"] ts ++ p'.

Lemma parseVariableSegment_text f p s p' :
  text_parser f → parseVariableSegment f p = Some (Ok (s, p')) → ∃ t, seg_text s t ∧ p = t ++ p'.
Proof.
  intros Hf. unfold parseVariableSegment.
  destruct (consume (ch "{") p) as [p1|] eqn:E1; [|done]. apply consume_Some in E1 as ->.
  destruct (parseFieldPath _ p1) as [[[fp p2]| |]|] eqn:E2; [|done..].
  apply parseFieldPath_text in E2 as [_ ->].
  destruct (consume (ch "=") p2) as [p3|] eqn:E3.
  - apply consume_Some in E3 as ->. destruct (f p3) as [[[segs p4]| |]|] eqn:E4; [|done..]. simpl.
    destruct (consume (ch "}") p4) as [p5|] eqn:E5; [|done]. apply consume_Some in E5 as ->.
    intros [= <- <-]. apply Hf in E4 as (ts & _ & Hts & ->).
    eexists. split; [by apply text_variable|]. cbn [app]. f_equal. rewrite <- !app_assoc. cbn [app].
    do 2 f_equal. by rewrite <- app_assoc.
  - simpl. destruct (consume (ch "}") p2) as [p5|] eqn:E5; [|done]. apply consume_Some in E5 as ->.
    intros [= <- <-]. eexists. split; [apply text_short|]. cbn [app]. f_equal. by rewrite <- app_assoc.
Qed.

Lemma parseSegment_text f p s p' :
  text_parser f → parseSegment f p = Some (Ok (s, p')) → ∃ t, seg_text s t ∧ p = t ++ p'.
Proof.
  intros Hf. unfold parseSegment. case_decide as H0; [done|].
  case_decide as H1; [case_decide as H2|case_decide as H3].
  - intros [= <- <-]. destruct p as [|b1 [|b2 p]]; [by simpl in *..|]. simpl in *. subst b1.
    unfold peekN in H2. simpl in H2. subst b2. rewrite drop_0.
    eexists. split; [by apply text_flat|]. done.
  - intros [= <- <-]. destruct p as [|b1 p]; [by simpl in *|]. simpl in *. subst b1. rewrite drop_0.
    eexists. split; [by apply text_flat|]. done.
  - by apply parseVariableSegment_text.
  - destruct (parseLiteral p) as [[l rest]| |] eqn:E; simpl; [|done..]. intros [= <- <-].
    apply parseLiteral_spec in E as (-> & _). exists l. split; [by apply (text_flat (literal l))|done].
Qed.

Lemma parseSegments_text fuel : text_parser (parseSegments fuel).
Proof.
  induction fuel as [|fuel IH]; intros p segs p'; [done|]. simpl.
  destruct (parseSegment (parseSegments fuel) p) as [[[s p1]| |]|] eqn:E; [|done..]. simpl.
  apply (parseSegment_text _ _ _ _ IH) in E as (t & Ht & ->).
  destruct (consume (ch "/") p1) as [p2|] eqn:Ec.
  - apply consume_Some in Ec as ->. case_decide; [done|].
    destruct (parseSegments fuel p2) as [[[segs' p3]| |]|] eqn:E2; [|done..]. intros [= <- <-].
    apply IH in E2 as (ts & Hne & Hts & ->). exists (t :: ts). split; [done|]. split; [by constructor|].
    destruct ts as [|t' ts]; [done|]. by rewrite join_cons_cons, <- !app_assoc.
  - intros [= <- <-]. exists [t]. split; [done|]. split; [by constructor|done].
Qed.

Lemma parseVerb_text segs ts p tpl p' :
  parseVerb segs p = Ok (tpl, p') → Forall2 seg_text segs ts →
  ∃ ts' x, Forall2 seg_text (segments tpl) ts' ∧ verb_text (segments tpl) (verb tpl) x ∧
    join [ch "/"] ts ++ p = join [ch "/"] ts' ++ x ++ p'.
Proof.
  intros H Hts. unfold parseVerb in H.
  destruct segs as [|s segs _] using rev_ind; [done|]. rewrite last_snoc in H.
  assert ((∀ l, s ≠ literal l) ∨ ∃ l, s = literal l) as [Hnl|[l ->]].
  { destruct s; (by right; eauto) || by left. }
  - assert (match consume (ch ":") p with
            | Some p => do ' (v, p) <- parseLiteral p; Ok (MkTemplate (segs ++ [s]) v, p)
            | None => Ok (MkTemplate (segs ++ [s]) [], p)
            end = Ok (tpl, p')) as H'. { destruct s; try done. by edestruct Hnl. }
    exists ts. destruct (consume _ p) as [p1|] eqn:E.
    + apply consume_Some in E as ->. destruct (parseLiteral p1) as [[v p2]| |] eqn:E; simplify_eq/=.
      apply parseLiteral_spec in E as (-> & _ & Hne). exists (ch ":" :: v).
      unfold verb_text. by rewrite decide_False.
    + simplify_eq/=. exists []. split; [done|]. split; [|done]. unfold verb_text. rewrite decide_True, last_snoc by done.
      destruct s; try done. by edestruct Hnl.
  - rewrite take_snoc in H. apply Forall2_app_inv_l in Hts as (ts1 & ts2 & Hts & Hlt & ->).
    apply Forall2_cons_inv_l in Hlt as (t & ? & Ht & ->%Forall2_nil_inv_l & ->).
    apply (seg_text_flat (literal l)) in Ht as ->; [|done]. simpl seg_String.
    destruct (0 <? last_index (ch ":") l)%Z eqn:Hi; simplify_eq/=; bool_to_prop.
    + destruct (last_index_cases (ch ":") l) as [[E _]|(a & b & E & -> & Hn)]; [lia|]. rewrite E in *.
      assert (sub (a ++ ch ":" :: b) 0 (zlen a) = a) as ->.
      { unfold sub. rewrite drop_0. replace (Z.to_nat _) with (length a) by (unfold zlen; lia).
        apply take_app_length. }
      assert (from (a ++ ch ":" :: b) (zlen a + 1) = b) as ->.
      { unfold from. replace (Z.to_nat _) with (length (a ++ [ch ":"])) by
          (rewrite length_app; unfold zlen; simpl; lia).
        change (ch ":" :: b) with ([ch ":"] ++ b). rewrite app_assoc. apply drop_app_length. }
      exists (ts1 ++ [a]), (ch ":" :: b). split.
      { apply Forall2_app; [done|]. constructor; [|done]. by apply (text_flat (literal a)). }
      split; [unfold verb_text; rewrite last_snoc; case_decide; [subst; by left|done]|].
      by rewrite <- join_snoc_app, <- app_assoc.
    + exists (ts1 ++ [l]), []. split; [apply Forall2_app; [done|]; constructor; [|done]; by apply (text_flat (literal l))|].
      split; [|done]. unfold verb_text. rewrite decide_True, last_snoc by done. right. split; [done|lia].
Qed.

Lemma parse_template_text text tpl : parse text = Some (Ok tpl) → template_text tpl text.
Proof.
  unfold parse. destruct (consume (ch "/") text) as [p|] eqn:Ec; [|done]. apply consume_Some in Ec as ->.
  destruct (parseSegments _ p) as [[[segs p1]| |]|] eqn:E; [|done..]. simpl.
  apply parseSegments_text in E as (ts & _ & Hts & ->).
  destruct (parseVerb segs p1) as [[tpl' p2]| |] eqn:E; simpl; [|done..].
  case_decide as Hp; [|done]. destruct (validate _ _); [done|]. intros [= <-]. subst p2.
  destruct (parseVerb_text _ _ _ _ _ E Hts) as (ts' & x & Hts' & Hx & Ej). rewrite Ej.
  exists ts', x. by rewrite app_nil_r.
Qed.

Lemma template_text_print t : template_ok t → template_text t (print t).
Proof.
  intros (_ & _ & Hn & _). exists (seg_String <$> segments t), (print_verb (segments t) (verb t)).
  split; [|split; [|done]].
  - induction Hn as [|s segs Hs Hn IH]; [constructor|]. constructor; [|done].
    destruct s as [| |l|fp ns]; try by apply text_flat. simpl. apply text_variable.
    simpl in Hs. clear -Hs. induction Hs as [|s ns Hs _ IH]; constructor; [by apply text_flat|done].
  - unfold verb_text, print_verb. case_decide; [|done].
    destruct (last (segments t)) as [[]|]; try done.
    destruct (0 <? _)%Z eqn:E; bool_to_prop; [by left|by right].
Qed.


(** ** Matching *)

(** What a flat segment matches, and the value it stands for. *)
Inductive seg_matches : segment → list bytes → bytes → Prop :=
| match_wildcard c : seg_matches wildcard [c] c
| match_deep cs : seg_matches deepWildcard cs (join [ch "/"] cs)
| match_literal l : seg_matches (literal l) [l] l.

Inductive segs_match : list segment → list bytes → list bytes → Prop :=
| segs_match_nil : segs_match [] [] []
| segs_match_cons s segs cs cs' v vs :
    seg_matches s cs v → segs_match segs cs' vs → segs_match (s :: segs) (cs ++ cs') (v :: vs).

(** The segments of a template match the components; the variables are captured in order. *)
Inductive template_match : list segment → list bytes → list (string * bytes) → Prop :=
| template_match_nil : template_match [] [] []
| template_match_flat s segs cs cs' v caps :
    seg_matches s cs v → template_match segs cs' caps → template_match (s :: segs) (cs ++ cs') caps
| template_match_var fp nested segs cs cs' vs caps :
    segs_match nested cs vs → template_match segs cs' caps →
    template_match (variable fp nested :: segs) (cs ++ cs')
      ((bytes_str (join [ch "."] fp), join [ch "/"] vs) :: caps).

(** The path of the components, the verb after the last one. *)
Definition path_of (verb : bytes) (comps : list bytes) : bytes :=
  ch "/" :: join [ch "/"] comps ++ (if decide (verb = []) then [] else ch ":" :: verb).

Definition comps_ok (verb : bytes) (comps : list bytes) : Prop :=
  comps ≠ [] ∧ Forall (λ c, ch "/" ∉ c) comps ∧ (verb ≠ [] → last comps ≠ Some []).

(** The matcher on the components that are left. *)
Definition flat_step (s : segment) (rem : list bytes) : option (bytes * list bytes) :=
  match s, rem with
  | wildcard, c :: rem => Some (c, rem)
  | deepWildcard, _ => Some (join [ch "/"] rem, [])
  | literal l, c :: rem => if decide (c = l) then Some (c, rem) else None
  | _, _ => None
  end.

Fixpoint flat_run (segs : list segment) (rem : list bytes) : option (list bytes * list bytes) :=
  match segs with
  | [] => Some ([], rem)
  | s :: segs =>
    '(v, rem) ← flat_step s rem; '(vs, rem) ← flat_run segs rem; Some (v :: vs, rem)
  end.

Fixpoint run (segs : list segment) (rem : list bytes) : option (list (string * bytes) * list bytes) :=
  match segs with
  | [] => Some ([], rem)
  | variable fp nested :: segs =>
    '(vs, rem) ← flat_run nested rem;
    '(caps, rem) ← run segs rem;
    Some ((bytes_str (join [ch "."] fp), join [ch "/"] vs) :: caps, rem)
  | s :: segs => '(_, rem) ← flat_step s rem; run segs rem
  end.

(** The matcher whose remaining components are [rem]. *)
Definition at_rem (comps rem : list bytes) (cap : gmap string bytes) (st : list bytes) : matcher :=
  MkMatcher comps (length comps - length rem) cap st.

Lemma concat_slash c cs :
  concat (cons (ch "/") <$> c :: cs) = ch "/" :: join [ch "/"] (c :: cs).
Proof.
  revert c. induction cs as [|c' cs IH]; intros c; [simpl; by rewrite app_nil_r|].
  change (concat (cons (ch "/") <$> c :: c' :: cs)) with
    (ch "/" :: c ++ concat (cons (ch "/") <$> c' :: cs)).
  by rewrite IH.
Qed.

Lemma flat_step_suffix s rem v rem' : flat_step s rem = Some (v, rem') → rem' `suffix_of` rem.
Proof.
  destruct s, rem as [|c rem]; simpl; try done.
  - intros [= <- <-]. by apply suffix_cons_r.
  - intros [= <- <-]. apply suffix_nil.
  - intros [= <- <-]. apply suffix_nil.
  - case_decide; [|done]. intros [= <- <-]. by apply suffix_cons_r.
Qed.

(** The state of the matcher at a suffix of the components. *)
Lemma rem_at (comps rem : list bytes) :
  rem `suffix_of` comps →
  drop (length comps - length rem) comps = rem ∧
  (comps !! (length comps - length rem) = head rem) ∧ length rem ≤ length comps.
Proof.
  intros [pre ->]. rewrite length_app.
  replace (length pre + length rem - length rem) with (length pre) by lia.
  split_and!; [apply drop_app_length| |lia].
  rewrite lookup_app_r by lia. rewrite Nat.sub_diag. by destruct rem.
Qed.

Lemma handle_flat s comps rem cap st :
  isVariable s = false → rem `suffix_of` comps →
  handle s (at_rem comps rem cap st) =
  match flat_step s rem with
  | Some (v, rem') => Ok (at_rem comps rem' cap (v :: st))
  | None => Err errNotMatch
  end.
Proof.
  intros Hv Hsuf. destruct (rem_at _ _ Hsuf) as (Hd & Hl & Hle).
  unfold at_rem. destruct s; simpl; [| | |done].
  - rewrite Hl. destruct rem as [|c rem]; [done|]. simpl in *. do 2 f_equal. lia.
  - rewrite decide_False by lia. case_decide as He.
    + assert (rem = []) as -> by (apply nil_length_inv; lia). simpl. do 2 f_equal.
    + rewrite Hd. destruct rem as [|c rem]; [simpl in *; lia|].
      rewrite concat_slash. simpl. do 2 f_equal. lia.
  - rewrite Hl. destruct rem as [|c rem]; [done|]. simpl in *.
    case_decide; [|done]. do 2 f_equal. lia.
Qed.

Lemma flat_run_suffix segs rem vs rem' :
  flat_run segs rem = Some (vs, rem') → rem' `suffix_of` rem ∧ length vs = length segs.
Proof.
  revert rem vs. induction segs as [|s segs IH]; intros rem vs; simpl; [by intros [= <- <-]|].
  destruct (flat_step s rem) as [[v rem1]|] eqn:E; [|done]. simpl.
  destruct (flat_run segs rem1) as [[vs1 rem2]|] eqn:E2; [|done].
  intros [= <- <-]. apply IH in E2 as [? <-]. apply flat_step_suffix in E.
  split; [by etrans|done].
Qed.

Lemma handle_all_flat segs comps rem cap st :
  Forall (λ n, isVariable n = false) segs → rem `suffix_of` comps →
  handle_all segs (at_rem comps rem cap st) =
  match flat_run segs rem with
  | Some (vs, rem') => Ok (at_rem comps rem' cap (rev vs ++ st))
  | None => Err errNotMatch
  end.
Proof.
  intros Hv. revert rem st. induction Hv as [|s segs Hs Hv IH]; intros rem st Hsuf; [done|].
  simpl. rewrite handle_flat by done. destruct (flat_step s rem) as [[v rem1]|] eqn:E; [|done].
  simpl. rewrite IH by (etrans; [by eapply flat_step_suffix|done]).
  destruct (flat_run segs rem1) as [[vs rem2]|]; [|done]. simpl. by rewrite <- app_assoc.
Qed.

Lemma handle_variable fp segs m :
  handle (variable fp segs) m =
  do m <- handle_all segs m;
  match pop_n (length segs) (st m) [] with
  | None => Err errNotMatch
  | Some (concat, st) =>
    Ok (MkMatcher (components m) (pos m)
          (<[bytes_str (join [ch "."] fp) := join [ch "/"] concat]> (captured m)) st)
  end.
Proof. done. Qed.

(** The values come back from the stack in the order they were pushed. *)
Lemma pop_n_rev vs st acc : pop_n (length vs) (rev vs ++ st) acc = Some (vs ++ acc, st).
Proof.
  revert st acc. induction vs as [|v vs IH] using rev_ind; intros st acc; [done|].
  rewrite length_app, Nat.add_comm, rev_app_distr. simpl. rewrite IH. by rewrite <- app_assoc.
Qed.

Definition add_caps (cap : gmap string bytes) (caps : list (string * bytes)) : gmap string bytes :=
  foldl (λ m c, <[c.1 := c.2]> m) cap caps.

Lemma handle_all_run segs comps rem cap st :
  Forall (λ s, Forall (λ n, isVariable n = false) (nested s)) segs → rem `suffix_of` comps →
  match run segs rem with
  | Some (caps, rem') =>
    ∃ st', handle_all segs (at_rem comps rem cap st) = Ok (at_rem comps rem' (add_caps cap caps) st') ∧
           rem' `suffix_of` comps
  | None => handle_all segs (at_rem comps rem cap st) = Err errNotMatch
  end.
Proof.
  intros Hn. revert rem cap st.
  induction Hn as [|s segs Hs Hn IH]; intros rem cap st Hsuf; [simpl; eauto|].
  destruct (isVariable s) eqn:Hv.
  - destruct s as [| | |fp ns]; try done. simpl in Hs. simpl run.
    cbn [handle_all]. rewrite handle_variable, handle_all_flat by done.
    destruct (flat_run ns rem) as [[vs rem1]|] eqn:E; [|done]. unfold at_rem at 1. cbn.
    apply flat_run_suffix in E as [Hsuf1 <-]. rewrite pop_n_rev, app_nil_r.
    simpl. fold (at_rem comps rem1 (<[bytes_str (join [ch "."] fp):=join [ch "/"] vs]> cap) st).
    specialize (IH rem1 (<[bytes_str (join [ch "."] fp):=join [ch "/"] vs]> cap) st
                  ltac:(by etrans)).
    destruct (run segs rem1) as [[caps rem2]|]; exact IH.
  - assert (run (s :: segs) rem = '(_, rem) ← flat_step s rem; run segs rem) as -> by (by destruct s).
    simpl. rewrite handle_flat by done.
    destruct (flat_step s rem) as [[v rem1]|] eqn:E; [|done]. apply flat_step_suffix in E.
    apply (IH rem1 cap (v :: st)). by etrans.
Qed.

Lemma flat_step_sound s rem v rem' :
  flat_step s rem = Some (v, rem') → ∃ cs, rem = cs ++ rem' ∧ seg_matches s cs v.
Proof.
  destruct s as [| |l|]; simpl; [| | |done].
  - destruct rem as [|c rem]; [done|]. intros [= <- <-]. exists [c]. split; [done|constructor].
  - intros [= <- <-]. exists rem. rewrite app_nil_r. split; [done|constructor].
  - destruct rem as [|c rem]; [done|]. case_decide; [|done]. intros [= <- <-]. subst.
    exists [l]. split; [done|constructor].
Qed.

Lemma flat_step_complete s cs v rest :
  seg_matches s cs v → (s = deepWildcard → rest = []) → flat_step s (cs ++ rest) = Some (v, rest).
Proof.
  intros [c|cs'|l] Hr; simpl; [done| |by rewrite decide_True].
  by rewrite Hr, app_nil_r.
Qed.

Lemma flat_run_sound segs rem vs rem' :
  flat_run segs rem = Some (vs, rem') → ∃ cs, rem = cs ++ rem' ∧ segs_match segs cs vs.
Proof.
  revert rem vs. induction segs as [|s segs IH]; intros rem vs; simpl.
  - intros [= <- <-]. exists []. split; [done|constructor].
  - destruct (flat_step s rem) as [[v rem1]|] eqn:E; [|done]. simpl.
    destruct (flat_run segs rem1) as [[vs1 rem2]|] eqn:E2; [|done]. intros [= <- <-].
    apply flat_step_sound in E as (cs & -> & ?). apply IH in E2 as (cs' & -> & ?).
    exists (cs ++ cs'). rewrite app_assoc. split; [done|by constructor].
Qed.

Lemma flat_run_complete segs cs vs rest :
  segs_match segs cs vs → deepWildcard ∉ segs ∨ (deep_last segs ∧ rest = []) →
  flat_run segs (cs ++ rest) = Some (vs, rest).
Proof.
  induction 1 as [|s segs cs cs' v vs Hs Hsegs IH]; intros Hd; [done|].
  rewrite <- app_assoc. simpl. rewrite (flat_step_complete s cs v (cs' ++ rest)).
  - simpl. rewrite IH; [done|]. rewrite not_elem_of_cons, deep_last_cons in Hd. tauto.
  - done.
  - intros ->. destruct Hd as [Hd|[Hd ->]]; [set_solver|]. apply deep_last_cons in Hd as [Hd _].
    rewrite (Hd eq_refl) in Hsegs. by inversion Hsegs.
Qed.

Lemma run_sound segs rem caps rem' :
  run segs rem = Some (caps, rem') → ∃ cs, rem = cs ++ rem' ∧ template_match segs cs caps.
Proof.
  revert rem caps. induction segs as [|s segs IH]; intros rem caps.
  - intros [= <- <-]. exists []. split; [done|constructor].
  - destruct s as [| |l|fp ns]; cbn [run].
    1-3: destruct (flat_step _ rem) as [[v rem1]|] eqn:E; [|done]; simpl; intros E2;
      apply flat_step_sound in E as (cs & -> & ?); apply IH in E2 as (cs' & -> & ?);
      exists (cs ++ cs'); rewrite app_assoc; split; [done|by eapply template_match_flat].
    destruct (flat_run ns rem) as [[vs rem1]|] eqn:E; [|done]. simpl.
    destruct (run segs rem1) as [[caps1 rem2]|] eqn:E2; [|done]. intros [= <- <-].
    apply flat_run_sound in E as (cs & -> & ?). apply IH in E2 as (cs' & -> & ?).
    exists (cs ++ cs'). rewrite app_assoc. split; [done|by apply template_match_var].
Qed.

Lemma template_match_nil_inv cs caps : template_match [] cs caps → cs = [].
Proof. by inversion 1. Qed.

Lemma run_complete segs cs caps :
  template_match segs cs caps → Forall syn_ok segs → deep_last (concat (flat <$> segs)) →
  run segs cs = Some (caps, []).
Proof.
  induction 1 as [|s segs cs cs' v caps Hs Hsegs IH|fp ns segs cs cs' vs caps Hns Hsegs IH];
    intros Hok Hd; [done|..];
    apply Forall_cons in Hok as [_ Hok]; apply deep_last_flat in Hd as [Hd1 Hd2]; [|done| |done].
  - assert (run (s :: segs) (cs ++ cs') = '(_, rem) ← flat_step s (cs ++ cs'); run segs rem) as ->.
    { by destruct Hs. }
    rewrite (flat_step_complete s cs v cs'); [simpl; by apply IH|done|].
    intros ->. case_bool_decide; [|set_solver]. subst. by apply template_match_nil_inv in Hsegs.
  - cbn [run]. rewrite (flat_run_complete ns cs vs cs'); [|done|].
    + simpl. by rewrite IH.
    + case_bool_decide; [|by left]. subst. apply template_match_nil_inv in Hsegs. by right.
Qed.

Lemma template_match_names segs cs caps :
  template_match segs cs caps → caps.*1 = bytes_str <$> var_names segs.
Proof.
  induction 1 as [|s segs cs cs' v caps Hs Hsegs IH|]; [done|..].
  - rewrite IH. by destruct Hs.
  - simpl. by f_equal.
Qed.

Lemma add_caps_list_to_map caps : NoDup caps.*1 → add_caps ∅ caps = list_to_map caps.
Proof.
  unfold add_caps. induction caps as [|[k v] caps IH] using rev_ind; intros Hnd; [done|].
  rewrite foldl_app, fmap_app in *. simpl. apply NoDup_app in Hnd as (Hnd & Hdis & _).
  rewrite IH by done. rewrite list_to_map_snoc; [done|]. set_solver.
Qed.

Lemma bytes_str_inj : Inj (=) (=) bytes_str.
Proof. intros a b H. by rewrite <- (str_bytes_str a), H, str_bytes_str. Qed.

Lemma join_inj ls ls' :
  ls ≠ [] → ls' ≠ [] → Forall (λ c, ch "/" ∉ c) ls → Forall (λ c, ch "/" ∉ c) ls' →
  join [ch "/"] ls = join [ch "/"] ls' → ls = ls'.
Proof.
  intros ? ? H H' E. rewrite <- (split_join (ch "/") ls), <- (split_join (ch "/") ls') by done.
  by rewrite E.
Qed.

Lemma match_verb_spec v ls comps :
  ls ≠ [] → Forall (λ c, ch "/" ∉ c) ls → ch "/" ∉ v →
  match_verb v ls = Some comps ↔
  ch "/" :: join [ch "/"] ls = path_of v comps ∧ comps_ok v comps.
Proof.
  intros Hne Hls Hv. unfold match_verb, path_of, comps_ok. case_decide as Hv0.
  - split; [intros [= <-]; by rewrite app_nil_r|]. intros [[= E] (?&?&_)]. rewrite app_nil_r in E.
    f_equal. by apply join_inj.
  - destruct ls as [|c ls _] using rev_ind; [done|]. rewrite last_snoc, take_snoc.
    apply Forall_app in Hls as [Hls Hc]. apply Forall_cons in Hc as [Hc _]. split.
    + destruct (has_suffix _ c) eqn:E; [|done]. apply has_suffix_true in E as [c' ->].
      destruct (_ <=? 0)%Z eqn:Ei; [done|]. bool_to_prop. intros [= <-].
      assert (sub (c' ++ ch ":" :: v) 0 (zlen (c' ++ ch ":" :: v) - zlen v - 1) = c') as ->.
      { unfold sub. rewrite drop_0, zlen_app. unfold zlen. cbn [length].
        replace (Z.to_nat _) with (length c') by lia. apply take_app_length. }
      split; [by rewrite join_snoc_app|]. split_and!; [by destruct ls| |].
      * rewrite Forall_app, Forall_singleton. set_solver.
      * intros _. rewrite last_snoc. intros [= ->]. unfold zlen in Ei. simpl in Ei. lia.
    + intros [[= E] (Hcne & Hcs & Hl)]. destruct comps as [|c' comps _] using rev_ind; [done|].
      specialize (Hl Hv0). rewrite last_snoc in Hl. rewrite join_snoc_app in E.
      apply Forall_app in Hcs as [Hcs Hc']. apply Forall_cons in Hc' as [Hc' _].
      apply join_inj in E; [|by destruct ls|by destruct comps|..].
      2:{ rewrite Forall_app, Forall_singleton. done. }
      2:{ rewrite Forall_app, Forall_singleton. split; [done|].
          rewrite not_elem_of_app, not_elem_of_cons. by split_and!. }
      apply app_inj_tail in E as [-> ->].
      rewrite (proj2 (has_suffix_true _ _)) by eauto.
      assert (zlen (c' ++ ch ":" :: v) - zlen v - 1 = zlen c')%Z as ->.
      { rewrite zlen_app. unfold zlen. cbn [length]. lia. }
      destruct (_ <=? 0)%Z eqn:Ei.
      { bool_to_prop. destruct c'; [done|]. unfold zlen in Ei. simpl in Ei. lia. }
      do 3 f_equal. unfold sub. rewrite drop_0.
      replace (Z.to_nat _) with (length c') by (unfold zlen; lia). apply take_app_length.
Qed.

Lemma pchars_no_slash v : pchars v → ch "/" ∉ v.
Proof.
  induction 1 as [|b l Hb _ IH|b1 b2 b3 l Hb _ IH]; [apply not_elem_of_nil|..].
  - apply not_elem_of_cons. split; [|done]. by intros <-.
  - unfold isPCTEncoded in Hb. bool_to_prop. subst. rewrite !not_elem_of_cons.
    split_and!; [done| | |done]; by intros <-.
Qed.

(** The matcher on the components of a path. *)
Lemma handle_all_correct t comps :
  template_ok t →
  match handle_all (segments t) (MkMatcher comps 0 ∅ []) with
  | Panic => False
  | Err _ => ∀ caps, ¬ template_match (segments t) comps caps
  | Ok m =>
    (pos m = length comps → ∃ caps, template_match (segments t) comps caps) ∧
    ∀ caps, template_match (segments t) comps caps →
      pos m = length comps ∧ captured m = list_to_map caps
  end.
Proof.
  intros (_ & Hsyn & Hn & Hnd & Hd & _).
  assert (MkMatcher comps 0 ∅ [] = at_rem comps comps ∅ []) as ->.
  { unfold at_rem. by rewrite Nat.sub_diag. }
  pose proof (handle_all_run (segments t) comps comps ∅ [] Hn ltac:(done)) as H.
  destruct (run (segments t) comps) as [[caps rem]|] eqn:E.
  - destruct H as (st' & -> & Hsuf). apply rem_at in Hsuf as (_ & _ & Hle).
    simpl. split.
    + intros Hp. pose proof (run_sound _ _ _ _ E) as (cs & -> & Hm).
      assert (rem = []) as -> by (apply nil_length_inv; rewrite length_app in *; lia).
      exists caps. by rewrite app_nil_r.
    + intros caps' Hm. rewrite (run_complete _ _ _ Hm Hsyn Hd) in E. simplify_eq.
      split; [simpl; lia|]. apply add_caps_list_to_map.
      rewrite (template_match_names _ _ _ Hm). apply NoDup_fmap_2; [apply bytes_str_inj|done].
  - rewrite H. intros caps Hm. by rewrite (run_complete _ _ _ Hm Hsyn Hd) in E.
Qed.

(** C39. Matching is exact: for a template that [Parse] can return, [Match] succeeds exactly on
    the paths whose components, the verb cut off the last one, the segments match, and the
    captured values are the ones the segments of each variable matched; matching greedily
    from left to right loses nothing because a deep wildcard is last.  It never panics. *)
Theorem Match_correct (t : PathTemplate) (urlPath : bytes) :
  template_ok t →
  Match t urlPath ≠ Panic ∧
  ∀ cap, Match t urlPath = Ok cap ↔
    ∃ comps caps, urlPath = path_of (verb t) comps ∧ comps_ok (verb t) comps ∧
                  template_match (segments t) comps caps ∧ cap = list_to_map caps.
Proof.
  intros Hok. pose proof Hok as (_ & _ & _ & _ & _ & Hv & _).
  unfold Match. destruct urlPath as [|b u].
  { split; [done|]. intros cap. split; [done|]. by intros (? & ? & ? & _). }
  case_decide as Hb.
  2:{ split; [done|]. intros cap. split; [done|]. intros (? & ? & E & _).
      unfold path_of in E. by simplify_eq. }
  subst b. pose proof (match_verb_spec (verb t) (split (ch "/") u)) as Hmv.
  rewrite join_split in Hmv.
  assert (∀ comps, match_verb (verb t) (split (ch "/") u) = Some comps ↔
    ch "/" :: u = path_of (verb t) comps ∧ comps_ok (verb t) comps) as Hmv'.
  { intros comps. apply Hmv; [apply split_not_nil|apply split_parts|by apply pchars_no_slash]. }
  clear Hmv. destruct (match_verb _ _) as [comps|].
  - pose proof (handle_all_correct t comps Hok) as Hm.
    pose proof (proj1 (Hmv' comps) eq_refl) as [Hp Hc].
    assert (∀ comps' , ch "/" :: u = path_of (verb t) comps' ∧ comps_ok (verb t) comps' → comps' = comps)
      as Huniq by (intros comps' H%Hmv'; congruence).
    destruct (handle_all _ _) as [m|e|]; simpl; [|split; [done|]|done].
    + destruct Hm as [Hm1 Hm2]. split; [by case_decide|]. intros cap. split.
      * case_decide as Hlen; [|done]. intros [= <-]. destruct (Hm1 Hlen) as [caps Hm].
        exists comps, caps. split_and!; [done..|by apply Hm2].
      * intros (comps' & caps & E & Hc' & Hm' & ->).
        assert (comps' = comps) as -> by (by apply Huniq).
        destruct (Hm2 _ Hm') as [Hlen ->]. by rewrite decide_True.
    + intros cap. split; [done|]. intros (comps' & caps & E & Hc' & Hm' & ->).
      assert (comps' = comps) as -> by (by apply Huniq). by edestruct Hm.
  - split; [done|]. intros cap. split; [done|]. intros (comps & caps & E & Hc & _).
    assert (None = Some comps) as H by (by apply Hmv'). done.
Qed.

(** ** A concrete template *)

Module HttpRuleExamples.

(** [/v1/{parent=shelves/*}/books/{book.id=**}:archive]. *)
Definition tpl : PathTemplate := MkTemplate
  [literal (str_bytes "v1");
   variable [str_bytes "parent"] [literal (str_bytes "shelves"); wildcard];
   literal (str_bytes "books");
   variable [str_bytes "book"; str_bytes "id"] [deepWildcard]] (str_bytes "archive").

Example tpl_text :
  print tpl = str_bytes "/v1/{parent=shelves/*}/books/{book.id=**}:archive".
Proof. vm_compute. reflexivity. Qed.

Lemma tpl_ok : template_ok tpl.
Proof.
  apply (parse_sound (str_bytes "/v1/{parent=shelves/*}/books/{book.id=**}:archive")).
  vm_compute. reflexivity.
Qed.

Example Parse_nested_variable :
  Parse (str_bytes "/{a={b}}") = Err errNestedVar ∧
  Parse (str_bytes "/{a=**}/b") = Err errDeepWildcard ∧
  Parse (str_bytes "/{a}/{a}") = Err errDupFieldPath ∧
  Parse (str_bytes "/a/") = Err errTrailingSlash ∧
  Parse (str_bytes "/{_a}") = Err errInitialCharAlpha.
Proof. vm_compute. done. Qed.


Lemma Match_correct_witness :
  Match tpl (str_bytes "/v1/shelves/7/books/a/b:archive") ≠ Panic ∧
  ∃ comps caps,
    str_bytes "/v1/shelves/7/books/a/b:archive" = path_of (verb tpl) comps ∧
    comps_ok (verb tpl) comps ∧ template_match (segments tpl) comps caps ∧
    list_to_map [("parent", str_bytes "shelves/7"); ("book.id", str_bytes "a/b")]
      =@{gmap string bytes} list_to_map caps.
Proof.
  destruct (Match_correct tpl (str_bytes "/v1/shelves/7/books/a/b:archive") tpl_ok) as [H1 H2].
  split; [exact H1|]. apply H2. vm_compute. reflexivity.
Defined.

End HttpRuleExamples.
