(* ===== verification/Dat.v ===== *)
(** The double array trie of the RESTful service (internal/dat/dat.go): the field paths that
    a template binds are stored in it, and query parameters below one of them are ignored.

    Positions, codes and sizes are natural numbers; [base] holds integers, negative at the
    leaves.  An index out of range is a panic.  The recursion of [insert] and the search
    for a free position take fuel; running out of it would be the error [OutOfFuel]. *)

From Stdlib Require Import OrdersEx.
From stdpp Require Import sorting.
From S2P Require Import Prelude.

Definition errByDictOrder : error := Plain "not by dict order".
Definition errEncoded : error := Plain "field name not encoded".
Definition OutOfFuel : error := Plain "out of fuel".

Definition defaultArraySize : nat := 64.

(** ** Field paths *)

Abbreviation fieldPaths := (list (list string)).

(** [fieldPaths.Less] *)
Fixpoint Less (p q : list string) : bool :=
  match p, q with
  | x :: p, y :: q => if String.ltb x y then true else if String.ltb y x then false else Less p q
  | _, q => negb (bool_decide (q = []))
  end.

(** [sort.Sort] and [sort.StringSlice]: the order is total, so the result does not depend on the
    algorithm. *)
Definition not_above (p q : list string) : Prop := Less q p = false.
Definition string_le (x y : string) : Prop := String.ltb y x = false.
#[global] Instance not_above_dec : RelDecision not_above.
Proof. intros p q. unfold not_above. apply _. Defined.
#[global] Instance string_le_dec : RelDecision string_le.
Proof. intros x y. unfold string_le. apply _. Defined.

Definition sort (fps : fieldPaths) : fieldPaths := merge_sort not_above fps.

Abbreviation fieldDict := (gmap string nat).

Definition newFieldDict (fps : fieldPaths) : fieldDict :=
  let fields := merge_sort string_le (remove_dups (concat fps)) in
  list_to_map (zip fields (seq 0 (length fields))).

(** ** The trie *)

Record DoubleArrayTrie := MkTrie {
  base : list Z;
  check : list nat;
  used : list bool;
  size : nat;
  allocSize : nat;
  fps : fieldPaths;
  dict : fieldDict;
  progress : nat;
  nextCheckPos : nat
}.

#[global] Instance eta_Trie : Eta DoubleArrayTrie := λ d,
  MkTrie (base d) (check d) (used d) (size d) (allocSize d) (fps d) (dict d) (progress d)
    (nextCheckPos d).

Record node := MkNode { code : nat; depth : nat; left : nat; right : nat }.

#[global] Instance eta_node : Eta node := λ n, MkNode (code n) (depth n) (left n) (right n).

(** Reading and writing an element of a slice. *)
Definition get {A} (l : list A) (i : nat) : result A :=
  match l !! i with Some x => Ok x | None => Panic end.
Definition set {A} (l : list A) (i : nat) (x : A) : result (list A) :=
  if decide (i < length l) then Ok (<[i := x]> l) else Panic.

Definition set_base (d : DoubleArrayTrie) (i : nat) (x : Z) : result DoubleArrayTrie :=
  do l <- set (base d) i x; Ok (d <| base := l |>).
Definition set_check (d : DoubleArrayTrie) (i : nat) (x : nat) : result DoubleArrayTrie :=
  do l <- set (check d) i x; Ok (d <| check := l |>).
Definition set_used (d : DoubleArrayTrie) (i : nat) : result DoubleArrayTrie :=
  do l <- set (used d) i true; Ok (d <| used := l |>).

(** [copy] into a new array of zeros. *)
Definition resized {A} (newSize : nat) (zero : A) (l : list A) : list A :=
  take newSize l ++ replicate (newSize - length l) zero.

Definition resize (d : DoubleArrayTrie) (newSize : nat) : DoubleArrayTrie :=
  d <| base := resized newSize 0%Z (base d) |> <| check := resized newSize 0 (check d) |>
    <| used := resized newSize false (used d) |> <| allocSize := newSize |>.

(** The loop of [fetch] at the path with index [i]; [children] is the list so far, the last
    child first. *)
Fixpoint fetch_loop (dict : fieldDict) (d : nat) (i : nat) (paths : fieldPaths) (prev : nat)
    (children : list node) : result (list node) :=
  match paths with
  | [] => Ok children
  | fp :: paths =>
    if decide (length fp < d) then fetch_loop dict d (S i) paths prev children
    else
      do curr <- match fp !! d with
                 | Some name => match dict !! name with
                                | Some v => Ok (v + 1)
                                | None => Err errEncoded
                                end
                 | None => Ok 0
                 end;
      if decide (curr < prev) then Err errByDictOrder
      else
        let children :=
          if bool_decide (curr ≠ prev) || bool_decide (children = []) then
            let closed := match children with
                          | [] => []
                          | last :: rest => last <| right := i |> :: rest
                          end in
            MkNode curr (d + 1) i 0 :: closed
          else children in
        fetch_loop dict d (S i) paths curr children
  end.

Definition fetch (d : DoubleArrayTrie) (parent : node) : result (list node) :=
  do children <- fetch_loop (dict d) (depth parent) (left parent)
                   (take (right parent - left parent) (drop (left parent) (fps d))) 0 [];
  Ok (rev match children with
          | [] => []
          | last :: rest => last <| right := right parent |> :: rest
          end).

(** The new size of an expansion.  [rate] is the quotient of two integers or 1.05; the floating
    point product is truncated, and for arrays below 2^40 it is the exact one. *)
Definition expand (d : DoubleArrayTrie) : DoubleArrayTrie :=
  let q := length (fps d) / (progress d + 1) in
  resize d (if decide (2 ≤ q) then allocSize d * q else allocSize d * 21 / 20).

Fixpoint conflict (d : DoubleArrayTrie) (begin : nat) (children : list node) : result bool :=
  match children with
  | [] => Ok false
  | child :: children =>
    do c <- get (check d) (begin + code child);
    if decide (c = 0) then conflict d begin children else Ok true
  end.

Definition last_code (children : list node) : nat :=
  match last children with Some n => code n | None => 0 end.

(** The loop of [loopForBegin] from the position [pos], with the first child and the others. *)
Fixpoint begin_loop (fuel : nat) (d : DoubleArrayTrie) (n0 : node) (children : list node)
    (first : bool) (numOfNonZero pos : nat) : result (nat * nat * nat * DoubleArrayTrie) :=
  match fuel with
  | O => Err OutOfFuel
  | S fuel =>
    let pos := pos + 1 in
    let d := if decide (allocSize d ≤ pos) then resize d (pos + 1) else d in
    do c <- get (check d) pos;
    if negb (bool_decide (c = 0)) then begin_loop fuel d n0 children first (numOfNonZero + 1) pos
    else
      let d := if first then d <| nextCheckPos := pos |> else d in
      let begin := pos - code n0 in
      let d := if decide (allocSize d ≤ begin + last_code (n0 :: children)) then expand d else d in
      do u <- get (used d) begin;
      if u : bool then begin_loop fuel d n0 children false numOfNonZero pos
      else
        do b <- conflict d begin children;
        if b : bool then begin_loop fuel d n0 children false numOfNonZero pos
        else Ok (begin, numOfNonZero, pos, d)
  end.

Definition loopForBegin (d : DoubleArrayTrie) (children : list node)
    : result (nat * DoubleArrayTrie) :=
  match children with
  | [] => Panic
  | n0 :: rest =>
    do '(begin, numOfNonZero, pos, d) <-
      begin_loop (allocSize d + code n0 + nextCheckPos d + 2) d n0 rest true 0
        (Nat.max (code n0) (nextCheckPos d - 1));
    Ok (begin, if decide (1 ≤ numOfNonZero / (pos - nextCheckPos d + 1))
               then d <| nextCheckPos := pos |> else d)
  end.

Fixpoint set_checks (d : DoubleArrayTrie) (begin : nat) (children : list node)
    : result DoubleArrayTrie :=
  match children with
  | [] => Ok d
  | child :: children =>
    do d <- set_check d (begin + code child) begin;
    set_checks d begin children
  end.

(** [insert] up to the loop: the children get their positions. *)
Definition place (d : DoubleArrayTrie) (children : list node) : result (nat * DoubleArrayTrie) :=
  do '(begin, d) <- loopForBegin d children;
  do d <- set_used d begin;
  let d := d <| size := Nat.max (size d) (begin + last_code children + 1) |> in
  do d <- set_checks d begin children;
  Ok (begin, d).

(** The depth-first loop of [insert] over the children, with the recursive call. *)
Fixpoint dfs (insert : DoubleArrayTrie → list node → result (nat * DoubleArrayTrie)) (begin : nat)
    (d : DoubleArrayTrie) (children : list node) : result DoubleArrayTrie :=
  match children with
  | [] => Ok d
  | child :: children =>
    do grandchildren <- fetch d child;
    match grandchildren with
    | [] =>
      do d <- set_base d (begin + code child) (- Z.of_nat (left child) - 1);
      dfs insert begin (d <| progress := progress d + 1 |>) children
    | _ =>
      do '(t, d) <- insert d grandchildren;
      do d <- set_base d (begin + code child) (Z.of_nat t);
      dfs insert begin d children
    end
  end.

Fixpoint insert (fuel : nat) (d : DoubleArrayTrie) (children : list node)
    : result (nat * DoubleArrayTrie) :=
  match fuel with
  | O => Err OutOfFuel
  | S fuel =>
    do '(begin, d) <- place d children;
    do d <- dfs (insert fuel) begin d children;
    Ok (begin, d)
  end.

Definition max_length (fps : fieldPaths) : nat := foldr (λ fp, Nat.max (length fp)) 0 fps.

Definition Build (fps : fieldPaths) : result DoubleArrayTrie :=
  let fps := sort fps in
  let d := resize (MkTrie [] [] [] 0 0 fps (newFieldDict fps) 0 0) defaultArraySize in
  do d <- set_base d 0 1;
  do children <- fetch d (MkNode 0 0 0 (length fps));
  do '(_, d) <- insert (max_length fps + 2) d children;
  Ok (resize d (size d)).

(** ** Searching *)

(** An element at an integer position. *)
Definition get_at {A} (l : list A) (i : Z) : result A :=
  if decide (0 ≤ i)%Z then get l (Z.to_nat i) else Panic.

(** Whether the leaf below the state [baseValue] exists. *)
Definition at_leaf (d : DoubleArrayTrie) (baseValue : Z) : result bool :=
  do c <- get_at (check d) baseValue;
  if decide (baseValue = Z.of_nat c) then
    do b <- get_at (base d) baseValue; Ok (bool_decide (b < 0)%Z)
  else Ok false.

Fixpoint search (d : DoubleArrayTrie) (baseValue : Z) (fieldPath : list string) : result bool :=
  match fieldPath with
  | [] => at_leaf d baseValue
  | name :: fieldPath =>
    match dict d !! name with
    | None => at_leaf d baseValue
    | Some v =>
      do leaf <- at_leaf d baseValue;
      if leaf : bool then Ok true
      else
        let pos := (baseValue + Z.of_nat (v + 1))%Z in
        if decide (zlen (check d) ≤ pos)%Z then Ok false
        else
          do c <- get_at (check d) pos;
          if decide (baseValue ≠ Z.of_nat c) then Ok false
          else do b <- get_at (base d) pos; search d b fieldPath
    end
  end.

Definition CommonPrefixSearch (d : DoubleArrayTrie) (fieldPath : list string) : result bool :=
  do b <- get (base d) 0;
  search d b fieldPath.

(** ** The order of strings *)

Lemma ltb_lt x y : String.ltb x y = true ↔ String_as_OT.lt x y.
Proof.
  unfold String.ltb, String_as_OT.lt. change String.compare with String_as_OT.compare.
  by destruct (String_as_OT.compare x y).
Qed.

Lemma ltb_trans x y z : String.ltb x y = true → String.ltb y z = true → String.ltb x z = true.
Proof. rewrite !ltb_lt. apply String_as_OT.lt_strorder. Qed.

Lemma ltb_irrefl x : String.ltb x x = false.
Proof.
  destruct (String.ltb x x) eqn:E; [|done]. apply ltb_lt in E.
  by destruct (StrictOrder_Irreflexive (R := String_as_OT.lt) x).
Qed.

Lemma ltb_cases x y : String.ltb x y = true ∨ x = y ∨ String.ltb y x = true.
Proof. rewrite !ltb_lt. destruct (String_as_OT.compare_spec x y); auto. Qed.

Lemma ltb_asym x y : String.ltb x y = true → String.ltb y x = false.
Proof.
  intros H. destruct (String.ltb y x) eqn:E; [|done].
  pose proof (ltb_trans _ _ _ H E) as Hx. by rewrite ltb_irrefl in Hx.
Qed.

#[global] Instance string_le_total : Total string_le.
Proof.
  intros x y. unfold string_le. destruct (String.ltb y x) eqn:E; [|by left].
  right. by apply ltb_asym.
Qed.

#[global] Instance string_le_trans : Transitive string_le.
Proof.
  intros x y z Hxy Hyz. unfold string_le in *. destruct (String.ltb z x) eqn:E; [|done].
  destruct (ltb_cases x y) as [H|[-> |H]]; [|congruence..].
  pose proof (ltb_trans _ _ _ E H). congruence.
Qed.

Lemma Less_asym p q : Less p q = true → Less q p = false.
Proof.
  revert q. induction p as [|x p IH]; intros [|y q]; simpl; try done.
  destruct (String.ltb x y) eqn:E1; [by rewrite (ltb_asym x y)|].
  destruct (String.ltb y x) eqn:E2; [done|]. apply IH.
Qed.

#[global] Instance not_above_total : Total not_above.
Proof.
  intros p q. unfold not_above. destruct (Less q p) eqn:E; [|by left].
  right. by apply Less_asym.
Qed.

(** ** The dictionary *)

(** The codes of a field path. *)
Definition enc (dict : fieldDict) (fp : list string) (p : list nat) : Prop :=
  Forall2 (λ name c, ∃ v, dict !! name = Some v ∧ c = v + 1) fp p.

Lemma zip_seq_lookup {A} (l : list A) n x v :
  (x, v) ∈ zip l (seq n (length l)) ↔ n ≤ v ∧ l !! (v - n) = Some x.
Proof.
  revert n. induction l as [|y l IH]; intros n; simpl.
  - split; [by intros ?%elem_of_nil|]. by intros [_ ?].
  - rewrite elem_of_cons, IH. split.
    + intros [[= -> ->]|[Hle Hl]]; [by rewrite Nat.sub_diag|].
      replace (v - n) with (S (v - S n)) by lia. split; [lia|done].
    + intros [Hle Hl]. destruct (decide (v = n)) as [->|Hne].
      * rewrite Nat.sub_diag in Hl. simplify_eq/=. by left.
      * right. replace (v - n) with (S (v - S n)) in Hl by lia. split; [lia|done].
Qed.

Lemma newFieldDict_lookup fps :
  ∃ fields, NoDup fields ∧ StronglySorted string_le fields ∧
    (∀ name, name ∈ fields ↔ name ∈ concat fps) ∧
    (∀ name v, newFieldDict fps !! name = Some v ↔ fields !! v = Some name).
Proof.
  unfold newFieldDict. set (fields := merge_sort string_le (remove_dups (concat fps))).
  assert (NoDup fields) as Hnd.
  { unfold fields. rewrite merge_sort_Permutation. apply NoDup_remove_dups. }
  exists fields. split_and!; [done|by apply Sorted_StronglySorted, Sorted_merge_sort; apply _| |].
  - intros name. unfold fields. by rewrite merge_sort_Permutation, elem_of_remove_dups.
  - intros name v. rewrite <- elem_of_list_to_map, zip_seq_lookup, Nat.sub_0_r; [intuition lia|].
    rewrite fst_zip by (by rewrite length_seq). done.
Qed.

Lemma dict_inj fps x y v :
  newFieldDict fps !! x = Some v → newFieldDict fps !! y = Some v → x = y.
Proof.
  destruct (newFieldDict_lookup fps) as (fields & _ & _ & _ & H). rewrite !H. congruence.
Qed.

Lemma dict_total fps fp name :
  fp ∈ fps → name ∈ fp → ∃ v, newFieldDict fps !! name = Some v.
Proof.
  intros Hfp Hname. destruct (newFieldDict_lookup fps) as (fields & _ & _ & Hin & H).
  assert (name ∈ fields) as [v Hv]%list_elem_of_lookup_1.
  { apply Hin, list_elem_of_In, in_concat. exists fp. by rewrite <- !list_elem_of_In. }
  exists v. by apply H.
Qed.

Lemma dict_mono fps x y v w :
  newFieldDict fps !! x = Some v → newFieldDict fps !! y = Some w →
  String.ltb x y = true → v < w.
Proof.
  destruct (newFieldDict_lookup fps) as (fields & _ & Hs & _ & H). rewrite !H. intros Hv Hw Hlt.
  destruct (decide (v < w)) as [|Hge]; [done|]. exfalso.
  destruct (decide (v = w)) as [->|Hne]; [simplify_eq; by rewrite ltb_irrefl in Hlt|].
  assert (string_le y x) as Hle.
  { apply (StronglySorted_app_1_elem_of string_le (take v fields) (drop v fields)).
    - by rewrite take_drop.
    - apply list_elem_of_lookup_2 with w. by rewrite lookup_take_lt by lia.
    - apply list_elem_of_lookup_2 with 0. by rewrite lookup_drop, Nat.add_0_r. }
  unfold string_le in Hle. congruence.
Qed.

(** ** Code lists *)

Fixpoint lexle (p q : list nat) : Prop :=
  match p, q with
  | [], _ => True
  | x :: p, y :: q => x < y ∨ (x = y ∧ lexle p q)
  | _ :: _, [] => False
  end.

Lemma enc_lexle fps p q p' q' :
  enc (newFieldDict fps) p p' → enc (newFieldDict fps) q q' → not_above p q → lexle p' q'.
Proof.
  intros Hp. revert q q'. unfold not_above.
  induction Hp as [|x c p p' (v & Hv & ->) Hp IH]; intros q q' Hq; [done|].
  destruct Hq as [|y c q q' (w & Hw & ->) Hq]; simpl; [done|].
  destruct (String.ltb y x) eqn:E1; [done|]. destruct (String.ltb x y) eqn:E2; intros Hl.
  - left. pose proof (dict_mono _ _ _ _ _ Hv Hw E2). lia.
  - right. destruct (ltb_cases x y) as [?|[-> |?]]; [congruence| |congruence].
    split; [congruence|by eapply IH].
Qed.

Lemma enc_pos dict fp p : enc dict fp p → Forall (λ c, 0 < c) p.
Proof. induction 1 as [|x c p p' (v & _ & ->) _ IH]; constructor; [lia|done]. Qed.

Lemma enc_total fps fp : fp ∈ fps → ∃ p, enc (newFieldDict fps) fp p.
Proof.
  intros Hfp. assert (∀ name, name ∈ fp → ∃ v, newFieldDict fps !! name = Some v) as H
    by (intros name; by apply dict_total).
  clear Hfp. unfold enc. induction fp as [|x fp IH]; [by exists []|].
  destruct (H x) as [v Hv]; [set_solver|]. destruct IH as [p Hp]; [set_solver|].
  exists (v + 1 :: p). constructor; eauto.
Qed.

Lemma enc_inj fps p q c : enc (newFieldDict fps) p c → enc (newFieldDict fps) q c → p = q.
Proof.
  intros Hp. revert q. induction Hp as [|x k p c (v & Hv & ->) Hp IH]; intros q Hq.
  - by inversion Hq.
  - inversion Hq as [|y ? q' ? (w & Hw & ?) Hq']; subst. assert (v = w) as -> by lia.
    f_equal; [by eapply dict_inj|by apply IH].
Qed.

(** The paths below a node, in order, grouped by the next code, which is 0 at the end. *)
Definition group_ok (g : nat * list (list nat)) : Prop :=
  g.2 ≠ [] ∧ Forall (λ p, hd 0 p = g.1) g.2 ∧ StronglySorted lexle (tl <$> g.2).

Definition groups (gs : list (nat * list (list nat))) (P : list (list nat)) : Prop :=
  P = concat gs.*2 ∧ StronglySorted lt gs.*1 ∧ Forall group_ok gs.

Definition positive (P : list (list nat)) : Prop := Forall (Forall (λ c, 0 < c)) P.

Lemma hd_zero p : Forall (λ c, 0 < c) p → hd 0 p = 0 → p = [].
Proof. destruct p as [|x p]; [done|]. intros [H _]%Forall_cons. simpl. lia. Qed.

Lemma lexle_tl p q :
  Forall (λ c, 0 < c) q → lexle p q → hd 0 p = hd 0 q → lexle (tl p) (tl q).
Proof.
  destruct p as [|x p], q as [|y q]; simpl; try done.
  intros _ [H|[_ H]] E; [lia|done].
Qed.

Lemma lexle_hd p q : lexle p q → hd 0 p ≤ hd 0 q.
Proof. destruct p, q; simpl; try done; lia. Qed.

Lemma groups_exist P : positive P → StronglySorted lexle P → ∃ gs, groups gs P.
Proof.
  intros Hpos Hs. induction Hs as [|p P Hs IH Hp].
  { exists []. split_and!; [done|constructor|done]. }
  apply Forall_cons in Hpos as [Hpp Hpos]. destruct IH as [gs (-> & Hlt & Hgs)]; [done|].
  assert (∀ c, hd 0 p = c → group_ok (c, [p])) as Hone.
  { intros c Hc. split_and!; [done|by apply Forall_singleton|]. repeat constructor. }
  destruct gs as [|[c Q] gs].
  { exists [(hd 0 p, [p])]. split_and!; [done|repeat constructor|]. apply Forall_singleton. auto. }
  simpl in Hp, Hpos, Hlt. apply Forall_cons in Hgs as [(HQ & Hhd & HsQ) Hgs].
  apply StronglySorted_cons in Hlt as [Hc Hlt]. simpl in HQ, Hhd, HsQ.
  apply Forall_app in Hp as [HpQ HpP]. apply Forall_app in Hpos as [HposQ _].
  assert (hd 0 p ≤ c) as Hle.
  { destruct Q as [|q Q]; [done|]. apply Forall_cons in Hhd as [<- _].
    apply Forall_cons in HpQ as [H _]. by apply lexle_hd. }
  destruct (decide (hd 0 p = c)) as [E|Hne].
  - exists ((c, p :: Q) :: gs). split_and!; [done|simpl; by apply StronglySorted_cons|].
    constructor; [|done]. split_and!; [done|by constructor|]. simpl. constructor; [done|].
    apply Forall_fmap. rewrite !Forall_forall in *. intros q Hq. simpl. apply lexle_tl; auto.
    by rewrite E, Hhd.
  - exists ((hd 0 p, [p]) :: (c, Q) :: gs). split_and!; [done| |].
    + simpl. apply StronglySorted_cons. split; [|by apply StronglySorted_cons].
      constructor; [lia|]. eapply Forall_impl; [exact Hc|]. simpl. lia.
    + constructor; [by apply Hone|]. by constructor.
Qed.

(** The heads and tails that a group stands for. *)
Definition heads (P : list (list nat)) : list nat := hd 0 <$> P.
Definition tails (c : nat) (P : list (list nat)) : list (list nat) :=
  omap (λ p, match p with x :: p => if decide (x = c) then Some p else None | [] => None end) P.

Lemma heads_groups gs P c : groups gs P → c ∈ heads P ↔ c ∈ gs.*1.
Proof.
  intros (-> & _ & Hgs). unfold heads. induction Hgs as [|[c' Q] gs (HQ & Hhd & _) _ IH]; [done|].
  simpl. rewrite fmap_app, elem_of_app, IH, elem_of_cons. simpl in HQ, Hhd. apply or_iff_compat_r.
  rewrite list_elem_of_fmap. rewrite Forall_forall in Hhd. split.
  - intros (p & -> & Hp). auto.
  - intros ->. destruct Q as [|q Q]; [done|]. exists q. rewrite Hhd by set_solver. set_solver.
Qed.

Lemma tails_app c P Q : tails c (P ++ Q) = tails c P ++ tails c Q.
Proof. apply omap_app. Qed.

Lemma tails_same c Q : c ≠ 0 → Forall (λ p, hd 0 p = c) Q → tails c Q = tl <$> Q.
Proof.
  intros Hc. induction 1 as [|[|x p] Q Hp _ IH]; simpl in *; [done|lia|].
  rewrite decide_True by done. by f_equal.
Qed.

Lemma tails_other c k Q : c ≠ k → Forall (λ p, hd 0 p = k) Q → tails c Q = [].
Proof.
  intros Hc. induction 1 as [|[|x p] Q Hp _ IH]; simpl in *; [done|done|].
  rewrite decide_False by lia. done.
Qed.

Lemma tails_groups gs P c Q : groups gs P → (c, Q) ∈ gs → c ≠ 0 → tails c P = tl <$> Q.
Proof.
  intros (-> & Hlt & Hgs) Hin Hc. induction Hgs as [|[k R] gs (_ & Hhd & _) Hgs IH];
    [by apply elem_of_nil in Hin|].
  simpl in Hlt, Hhd. apply StronglySorted_cons in Hlt as [Hk Hlt]. simpl. rewrite tails_app.
  apply elem_of_cons in Hin as [[= -> ->]|Hin].
  - rewrite tails_same by done. assert (∀ l, Forall (λ g : nat * list (list nat), g.1 ≠ k) l →
      Forall group_ok l → tails k (concat l.*2) = []) as Hnil.
    { induction 1 as [|[c' R'] l Hne _ IHl]; intros Hl; [done|].
      apply Forall_cons in Hl as [(_ & Hhd' & _) Hl]. simpl in *.
      rewrite tails_app, (tails_other k c') by done. by apply IHl. }
    rewrite Hnil, app_nil_r; [done| |done]. apply Forall_forall. intros g Hg.
    assert (k < g.1); [|lia]. rewrite Forall_forall in Hk. apply Hk, list_elem_of_fmap. by exists g.
  - rewrite (tails_other c k); [by apply IH| |done]. intros ->. rewrite Forall_forall in Hk.
    assert (k < k); [|lia]. apply Hk, list_elem_of_fmap. by exists (k, Q).
Qed.

(** ** Fetching children *)

(** The codes of the path from the depth [dep] on. *)
Definition suffix_at (dict : fieldDict) (dep : nat) (fp : list string) (p : list nat) : Prop :=
  ∃ pre, length pre = dep ∧ enc dict fp (pre ++ p).

(** The paths from the index [l] on have these codes from the depth [dep] on. *)
Definition spans (d : DoubleArrayTrie) (l dep : nat) (P : list (list nat)) : Prop :=
  Forall2 (suffix_at (dict d) dep) (take (length P) (drop l (fps d))) P.

(** The nodes of groups that start at the index [l]. *)
Fixpoint nodes (dep l : nat) (gs : list (nat * list (list nat))) : list node :=
  match gs with
  | [] => []
  | (c, Q) :: gs => MkNode c dep l (l + length Q) :: nodes dep (l + length Q) gs
  end.

Definition close_last (i : nat) (children : list node) : list node :=
  match children with [] => [] | last :: rest => last <| right := i |> :: rest end.

Lemma fetch_step dict dep i fp p paths prev children :
  suffix_at dict dep fp p →
  fetch_loop dict dep i (fp :: paths) prev children =
    if decide (hd 0 p < prev) then Err errByDictOrder
    else fetch_loop dict dep (S i) paths (hd 0 p)
      (if bool_decide (hd 0 p ≠ prev) || bool_decide (children = [])
       then MkNode (hd 0 p) (dep + 1) i 0 :: close_last i children else children).
Proof.
  intros (pre & Hpre & Henc). simpl.
  pose proof (Forall2_length _ _ _ Henc) as Hlen. rewrite length_app in Hlen.
  rewrite decide_False by lia.
  assert (match fp !! dep with
          | Some name => match dict !! name with Some v => Ok (v + 1) | None => Err errEncoded end
          | None => Ok 0
          end = Ok (hd 0 p)) as ->; [|done].
  destruct p as [|c p]; simpl in *.
  - by rewrite lookup_ge_None_2 by lia.
  - destruct (Forall2_lookup_r _ _ _ dep c Henc) as (name & -> & v & -> & ->); [|done].
    rewrite lookup_app_r by lia. by rewrite Hpre, Nat.sub_diag.
Qed.

Lemma fetch_skip dict dep i fp paths prev children :
  length fp < dep →
  fetch_loop dict dep i (fp :: paths) prev children = fetch_loop dict dep (S i) paths prev children.
Proof. intros H. simpl. by rewrite decide_True. Qed.

#[local] Arguments fetch_loop : simpl never.

Lemma fetch_group dict dep i sub Q c rest children :
  Forall2 (suffix_at dict dep) sub Q → Forall (λ p, hd 0 p = c) Q → children ≠ [] →
  fetch_loop dict dep i (sub ++ rest) c children = fetch_loop dict dep (i + length Q) rest c children.
Proof.
  intros Hsub. revert i. induction Hsub as [|fp p sub Q Hp Hsub IH]; intros i Hhd Hne; simpl.
  - by rewrite Nat.add_0_r.
  - apply Forall_cons in Hhd as [Hc Hhd]. replace (i + S (length Q)) with (S i + length Q) by lia.
    rewrite <- IH, (fetch_step _ _ _ _ p), Hc, decide_False by (done || lia). rewrite !bool_decide_eq_false_2 by (done || lia). done.
Qed.

Lemma fetch_groups dict dep gs i sub prev children :
  Forall2 (suffix_at dict dep) sub (concat gs.*2) → Forall group_ok gs →
  StronglySorted lt gs.*1 →
  (∀ c, head gs.*1 = Some c → children = [] ∧ prev = 0 ∨ prev < c) →
  ∃ children', fetch_loop dict dep i sub prev children = Ok children' ∧
    rev (close_last (i + length (concat gs.*2)) children') =
    rev (close_last i children) ++ nodes (dep + 1) i gs.
Proof.
  revert i sub prev children. induction gs as [|[c Q] gs IH]; intros i sub prev children Hsub Hgs Hlt Hprev.
  { apply Forall2_nil_inv_r in Hsub as ->. exists children. simpl. by rewrite Nat.add_0_r, app_nil_r. }
  simpl in Hsub, Hlt, Hprev. apply Forall_cons in Hgs as [(HQ & Hhd & _) Hgs]. simpl in HQ, Hhd.
  apply StronglySorted_cons in Hlt as [Hc Hlt].
  apply Forall2_app_inv_r in Hsub as (sub1 & sub2 & Hs1 & Hs2 & ->).
  destruct Q as [|q Q]; [done|]. apply Forall2_cons_inv_r in Hs1 as (fp & sub1' & Hq & Hs1 & ->).
  apply Forall_cons in Hhd as [Hcq Hhd].
  rewrite <- app_comm_cons, (fetch_step _ _ _ _ q) by done. rewrite Hcq.
  assert (¬ c < prev ∧ (bool_decide (c ≠ prev) || bool_decide (children = []) = true)) as [Hge Hnew].
  { destruct (Hprev c) as [[-> ->]|Hlt']; [done|..].
    - split; [lia|]. by rewrite orb_true_r.
    - split; [lia|]. by rewrite bool_decide_eq_true_2 by lia. }
  rewrite decide_False, Hnew by done. rewrite (fetch_group _ _ _ _ Q) by done.
  destruct (IH (S i + length Q) sub2 c (MkNode c (dep + 1) i 0 :: close_last i children))
    as (children' & -> & E); [done..| |].
  - intros c' Hc'. right. rewrite Forall_forall in Hc. apply Hc. destruct gs as [|[? ?] ?]; simplify_eq/=.
    set_solver.
  - exists children'. split; [done|]. csimpl in E. csimpl. rewrite length_app.
    rewrite !Nat.add_succ_r, Nat.add_assoc, E, <- app_assoc. simpl.
    by rewrite Nat.add_succ_r.
Qed.

Lemma fetch_spec d dep l P gs :
  spans d l dep P → groups gs P →
  ∀ c, fetch d (MkNode c dep l (l + length P)) = Ok (nodes (dep + 1) l gs).
Proof.
  intros Hs (-> & Hlt & Hgs) c. unfold fetch. simpl. replace (_ - l) with (length (concat gs.*2)) by lia.
  destruct (fetch_groups (dict d) dep gs l (take (length (concat gs.*2)) (drop l (fps d))) 0 [])
    as (children & -> & E); [done..|by left|].
  simpl in E |- *. by rewrite <- E.
Qed.

Lemma fetch_end d dep l n c :
  Forall (λ fp, length fp < dep) (take n (drop l (fps d))) →
  fetch d (MkNode c dep l (l + n)) = Ok [].
Proof.
  intros H. unfold fetch. simpl. replace (l + n - l) with n by lia.
  assert (∀ i, fetch_loop (dict d) dep i (take n (drop l (fps d))) 0 [] = Ok []) as ->; [|done].
  induction H as [|fp sub Hfp _ IH]; intros i; [done|]. rewrite fetch_skip by done. apply IH.
Qed.

(** ** Arrays *)

Definition chk (d : DoubleArrayTrie) (i : nat) : nat := default 0 (check d !! i).
Definition bas (d : DoubleArrayTrie) (i : nat) : Z := default 0%Z (base d !! i).
Definition usd (d : DoubleArrayTrie) (i : nat) : bool := default false (used d !! i).

Definition arrays (d : DoubleArrayTrie) : Prop :=
  length (base d) = allocSize d ∧ length (check d) = allocSize d ∧ length (used d) = allocSize d.

(** Tries that differ in the size of the arrays and in the search hints at most. *)
Definition same (d d' : DoubleArrayTrie) : Prop :=
  (∀ i, chk d' i = chk d i) ∧ (∀ i, bas d' i = bas d i) ∧ (∀ i, usd d' i = usd d i) ∧
  size d' = size d ∧ fps d' = fps d ∧ dict d' = dict d.

#[local] Instance same_refl : Reflexive same.
Proof. intros d. by split_and!. Qed.
#[local] Instance same_trans : Transitive same.
Proof. intros d1 d2 d3 (?&?&?&?&?&?) (?&?&?&?&?&?). split_and!; congruence. Qed.

Lemma resized_lookup {A} n (z : A) l i :
  default z (resized n z l !! i) = if decide (i < n) then default z (l !! i) else z.
Proof.
  unfold resized. rewrite lookup_app. case_decide as Hi.
  - rewrite lookup_take_lt by done. destruct (l !! i) eqn:E; [done|]. simpl.
    destruct (replicate _ _ !! _) eqn:E2; [|done]. by apply lookup_replicate in E2 as [-> _].
  - rewrite lookup_take_ge by lia. destruct (replicate _ _ !! _) eqn:E2; [|done].
    by apply lookup_replicate in E2 as [-> _].
Qed.

Lemma length_resized {A} n (z : A) l : length (resized n z l) = n.
Proof. unfold resized. rewrite length_app, length_take, length_replicate. lia. Qed.

Lemma resize_same d n : arrays d → allocSize d ≤ n → same d (resize d n) ∧ arrays (resize d n).
Proof.
  intros (Hb & Hc & Hu) Hn. split; [|by split_and!; apply length_resized].
  split_and!; try done; intros i; unfold chk, bas, usd; simpl; rewrite resized_lookup;
    case_decide; try done; by rewrite lookup_ge_None_2 by lia.
Qed.

Lemma expand_same d : arrays d → same d (expand d) ∧ arrays (expand d).
Proof.
  intros H. unfold expand. case_decide as Hq; apply resize_same; try done; [nia|].
  apply Nat.div_le_lower_bound; lia.
Qed.

Lemma get_Ok {A} (l : list A) i x : get l i = Ok x → l !! i = Some x.
Proof. unfold get. destruct (l !! i); naive_solver. Qed.

Lemma get_cases {A} (l : list A) i (P : result A → Prop) :
  P Panic → (∀ x, l !! i = Some x → P (Ok x)) → P (get l i).
Proof. unfold get. destruct (l !! i); auto. Qed.

Lemma conflict_spec d begin l :
  match conflict d begin l with
  | Ok true => ∃ n, n ∈ l ∧ chk d (begin + code n) ≠ 0
  | Ok false => Forall (λ n, chk d (begin + code n) = 0) l
  | Err _ => False
  | Panic => True
  end.
Proof.
  induction l as [|n l IH]; simpl; [done|]. apply get_cases; [done|]. intros c Hc. simpl.
  assert (chk d (begin + code n) = c) as E by (unfold chk; by rewrite Hc).
  case_decide as Hd; [|exists n; split; [set_solver|congruence]].
  destruct (conflict d begin l) as [[]| |]; try done.
  - destruct IH as (n' & ? & ?). exists n'. set_solver.
  - constructor; [congruence|done].
Qed.

(** The positions from [A] on are free. *)
Definition free_from (d : DoubleArrayTrie) (A : nat) : Prop :=
  ∀ i, A ≤ i → chk d i = 0 ∧ usd d i = false.

Lemma begin_loop_spec fuel d n0 children first nz pos A :
  arrays d → free_from d A → code n0 ≤ pos → A + code n0 - pos < fuel →
  match begin_loop fuel d n0 children first nz pos with
  | Ok (begin, _, pos', d') =>
      same d d' ∧ arrays d' ∧ pos < pos' ∧ begin = pos' - code n0 ∧ usd d begin = false ∧
      chk d pos' = 0 ∧ Forall (λ n, chk d (begin + code n) = 0) children
  | Err _ => False
  | Panic => True
  end.
Proof.
  revert d first nz pos. induction fuel as [|fuel IH]; intros d first nz pos Ha Hfree Hpos Hfuel; [lia|].
  simpl. set (d1 := if decide (allocSize d ≤ pos + 1) then resize d (pos + 1 + 1) else d).
  assert (same d d1 ∧ arrays d1) as [Hs1 Ha1].
  { unfold d1. case_decide; [apply resize_same; [done|lia]|by split]. }
  assert (∀ d2 first nz, same d d2 → arrays d2 → pos + 1 < A + code n0 →
    match begin_loop fuel d2 n0 children first nz (pos + 1) with
    | Ok (begin, _, pos', d') =>
        same d d' ∧ arrays d' ∧ pos < pos' ∧ begin = pos' - code n0 ∧ usd d begin = false ∧
        chk d pos' = 0 ∧ Forall (λ n, chk d (begin + code n) = 0) children
    | Err _ => False
    | Panic => True
    end) as Hnext.
  { intros d2 first' nz' Hs2 Ha2 Hlt. pose proof Hs2 as (Hchk & _ & Husd & _).
    assert (free_from d2 A) as Hfree2 by (intros i Hi; rewrite Hchk, Husd; by apply Hfree).
    specialize (IH d2 first' nz' (pos + 1) Ha2 Hfree2).
    destruct (begin_loop fuel d2 n0 children first' nz' (pos + 1)) as [[[[begin ?] pos'] d']| |];
      [|apply IH; lia|done].
    destruct IH as (Hs & ? & ? & ? & Hu & Hc & Hn); [lia..|]. rewrite Husd in Hu. rewrite Hchk in Hc.
    split_and!; try done; [by etrans|lia|]. eapply Forall_impl; [done|]. intros m. simpl. by rewrite Hchk. }
  apply get_cases; [done|]. intros c Hc. simpl.
  assert (chk d (pos + 1) = c) as Ec.
  { rewrite <- (proj1 Hs1). unfold chk. by rewrite Hc. }
  destruct (negb (bool_decide (c = 0))) eqn:Eoc.
  { apply Hnext; [done..|]. destruct (decide (A ≤ pos + 1)) as [Hle|]; [|lia].
    apply Hfree in Hle as [Hz _]. rewrite Hz in Ec. subst c. done. }
  apply negb_false_iff, bool_decide_eq_true_1 in Eoc.
  set (d2 := if first then d1 <| nextCheckPos := pos + 1 |> else d1).
  assert (same d d2 ∧ arrays d2) as [Hs2 Ha2] by (unfold d2; by destruct first).
  set (d3 := if decide (allocSize d2 ≤ _) then expand d2 else d2).
  assert (same d d3 ∧ arrays d3) as [Hs3 Ha3].
  { unfold d3. case_decide; [|done]. destruct (expand_same d2 Ha2). split; [by etrans|done]. }
  set (begin := pos + 1 - code n0).
  apply get_cases; [done|]. intros u Hu. simpl.
  assert (usd d begin = u) as Eu.
  { destruct Hs3 as (_ & _ & E & _). rewrite <- E. unfold usd. by rewrite Hu. }
  destruct u.
  { apply Hnext; [done..|]. destruct (decide (A ≤ begin)) as [Hle|]; [|unfold begin in *; lia].
    apply Hfree in Hle as [_ ?]. congruence. }
  pose proof (conflict_spec d3 begin children) as Hcon.
  destruct (conflict d3 begin children) as [[]| |]; [| |done|done]; simpl.
  - destruct Hcon as (n & _ & Hn). rewrite (proj1 Hs3) in Hn. apply Hnext; [done..|].
    destruct (decide (A ≤ begin + code n)) as [Hle|]; [|unfold begin in *; lia].
    by apply Hfree in Hle as [? _].
  - split_and!; try done; [lia|congruence|]. eapply Forall_impl; [done|]. intros m. simpl.
    by rewrite (proj1 Hs3).
Qed.

Lemma arrays_free d : arrays d → free_from d (allocSize d).
Proof.
  intros (Hb & Hc & Hu) i Hi. unfold chk, usd. by rewrite !lookup_ge_None_2 by lia.
Qed.

Lemma loopForBegin_spec d children :
  arrays d → children ≠ [] →
  match loopForBegin d children with
  | Ok (begin, d') =>
      same d d' ∧ arrays d' ∧ 0 < begin ∧ usd d begin = false ∧
      Forall (λ n, chk d (begin + code n) = 0) children
  | Err _ => False
  | Panic => True
  end.
Proof.
  intros Ha Hne. destruct children as [|n0 rest]; [done|]. unfold loopForBegin.
  set (pos := Nat.max _ _).
  pose proof (begin_loop_spec (allocSize d + code n0 + nextCheckPos d + 2) d n0 rest true 0 pos
    (allocSize d) Ha (arrays_free d Ha)) as H.
  destruct (begin_loop _ d n0 rest true 0 pos) as [[[[begin nz] pos'] d']| |]; [|apply H; lia|done].
  destruct H as (Hs & Ha' & Hlt & -> & Hu & Hc & Hn); [lia..|]. simpl. split_and!; try done.
  - by case_decide.
  - by case_decide.
  - lia.
  - constructor; [|done]. by replace (pos' - code n0 + code n0) with pos' by lia.
Qed.

(** ** Inserting *)

Record inv (d : DoubleArrayTrie) : Prop := {
  inv_arrays : arrays d;
  inv_check : ∀ i, chk d i ≠ 0 → usd d (chk d i) = true ∧ i < size d;
  inv_used : ∀ b, usd d b = true → b ≠ 0 ∧ b < size d
}.

(** The trie has grown from [d] to [d'] by nodes with the begin values [X]; the base values at the
    positions [E] may have changed. *)
Record grown (d d' : DoubleArrayTrie) (X : gset nat) (E : nat → Prop) : Prop := {
  grown_old : ∀ i, chk d i ≠ 0 → chk d' i = chk d i;
  grown_base : ∀ i, chk d i ≠ 0 → ¬ E i → bas d' i = bas d i;
  grown_new : ∀ i, chk d i = 0 → chk d' i ≠ 0 → chk d' i ∈ X;
  grown_used : ∀ b, usd d b = true → usd d' b = true;
  grown_fresh : ∀ x, x ∈ X → usd d x = false ∧ usd d' x = true;
  grown_root : bas d' 0 = bas d 0;
  grown_same : fps d' = fps d ∧ dict d' = dict d
}.

Lemma grown_trans d1 d2 d3 X Y (E F G : nat → Prop) :
  grown d1 d2 X E → grown d2 d3 Y F → (∀ i, chk d1 i ≠ 0 → ¬ G i → ¬ E i ∧ ¬ F i) →
  grown d1 d3 (X ∪ Y) G.
Proof.
  intros [O1 B1 N1 U1 F1 R1 [S1 T1]] [O2 B2 N2 U2 F2 R2 [S2 T2]] HG.
  split.
  - intros i Hi. pose proof (O1 i Hi) as E1. rewrite <- E1. apply O2. by rewrite E1.
  - intros i Hi HGi. destruct (HG i Hi HGi) as [? ?]. pose proof (O1 i Hi) as E1.
    rewrite <- (B1 i) by done. apply B2; [by rewrite E1|done].
  - intros i H1 H3. apply elem_of_union. destruct (decide (chk d2 i = 0)) as [Hz|Hz].
    + right. by apply N2.
    + left. rewrite (O2 i Hz). by apply N1.
  - auto.
  - intros x [Hx|Hx]%elem_of_union.
    + destruct (F1 x Hx). auto.
    + destruct (F2 x Hx) as [H2 ?]. split; [|done]. destruct (usd d1 x) eqn:Ex; [|done].
      apply U1 in Ex. congruence.
  - congruence.
  - split; congruence.
Qed.

Lemma grown_refl d E : grown d d ∅ E.
Proof. split; try done; intros; set_solver. Qed.

(** The state [b] of the trie stands for the paths [P]; [X] are the states below it. *)
Fixpoint repr (n : nat) (d : DoubleArrayTrie) (X : gset nat) (b : nat) (P : list (list nat)) : Prop :=
  match n with
  | O => False
  | S n =>
    b ∈ X ∧ (∀ c, chk d (b + c) = b ↔ c ∈ heads P) ∧ ([] ∈ P → (bas d b < 0)%Z) ∧
    ∀ c, c ≠ 0 → c ∈ heads P →
      ∃ t X', X' ⊆ X ∧ bas d (b + c) = Z.of_nat t ∧ repr n d X' t (tails c P)
  end.

Lemma repr_frame n d d' X b P :
  repr n d X b P →
  (∀ i, chk d i ∈ X → chk d' i = chk d i ∧ bas d' i = bas d i) →
  (∀ i, chk d' i ∈ X → chk d' i = chk d i) →
  repr n d' X b P.
Proof.
  revert X b P. induction n as [|n IH]; intros X b P; [done|]. simpl.
  intros (Hb & Hc & Hz & Hn) Hold Hnew. split_and!; [done| | |].
  - intros c. rewrite <- Hc. split; intros E.
    + rewrite <- Hnew; [done|by rewrite E].
    + destruct (Hold (b + c)) as [-> _]; [by rewrite E|done].
  - intros Hin. specialize (Hc 0). rewrite Nat.add_0_r in Hc.
    destruct (Hold b) as [_ ->]; [|by apply Hz]. rewrite (proj2 Hc); [done|].
    apply list_elem_of_fmap. by exists [].
  - intros c Hc0 Hin. destruct (Hn c Hc0 Hin) as (t & X' & Hsub & Hbas & Hr).
    exists t, X'. split_and!; [done| |].
    + destruct (Hold (b + c)) as [_ ->]; [|done]. by rewrite (proj2 (Hc c)).
    + apply IH; [done|..]; intros i Hi; [apply Hold|apply Hnew]; set_solver.
Qed.

Lemma repr_grown n d d' X b P Y E :
  repr n d X b P → inv d → (∀ x, x ∈ X → usd d x = true) → grown d d' Y E →
  (∀ i, E i → chk d i ∉ X) → repr n d' X b P.
Proof.
  intros Hr Hinv HX [O B N U F R S] HE.
  assert (0 ∉ X) as H0. { intros H. apply HX, (inv_used _ Hinv) in H. naive_solver. }
  eapply repr_frame; [done|..]; intros i Hi.
  - assert (chk d i ≠ 0) by (intros Hz; by rewrite Hz in Hi).
    split; [by apply O|]. apply B; [done|]. intros HEi. by apply (HE i).
  - destruct (decide (chk d i = 0)) as [Hz|Hz]; [|by apply O].
    destruct (decide (chk d' i = 0)) as [Hz'|Hz']; [congruence|].
    apply N in Hz'; [|done]. apply F in Hz' as [Hf _]. rewrite HX in Hf; done.
Qed.

Lemma set_cases {A} (l : list A) i x (P : result (list A) → Prop) :
  P Panic → (i < length l → P (Ok (<[i := x]> l))) → P (set l i x).
Proof. unfold set. case_decide; auto. Qed.

Lemma default_insert {A} (z : A) l i j x :
  i < length l → default z (<[i := x]> l !! j) = if decide (i = j) then x else default z (l !! j).
Proof.
  intros Hi. case_decide as Hd; [subst; by rewrite list_lookup_insert_eq|].
  by rewrite list_lookup_insert_ne.
Qed.

Lemma set_base_spec d i x :
  inv d → i ≠ 0 →
  match set_base d i x with
  | Ok d' => inv d' ∧ grown d d' ∅ (eq i) ∧ bas d' i = x ∧ ∀ j, chk d' j = chk d j
  | Err _ => False
  | Panic => True
  end.
Proof.
  intros [(Hb & Hc & Hu) Hck Hus] Hi. unfold set_base. apply set_cases; [done|]. intros Hlt. simpl.
  assert (∀ j, bas (d <| base := <[i := x]> (base d) |>) j = if decide (i = j) then x else bas d j) as E.
  { intros j. unfold bas. simpl. by apply default_insert. }
  split_and!; [| |by rewrite E, decide_True|done].
  - split; [|done..]. split_and!; [|done..]. simpl. by rewrite length_insert.
  - split; try done.
    + intros j _ Hne. by rewrite E, decide_False.
    + by rewrite E, decide_False.
Qed.

(** The positions of children. *)
Definition spots (b : nat) (l : list node) : list nat := (λ n, b + code n) <$> l.

Lemma elem_of_spots b l i : i ∈ spots b l ↔ ∃ n, i = b + code n ∧ n ∈ l.
Proof. apply list_elem_of_fmap. Qed.

Lemma set_checks_spec d b l :
  arrays d →
  match set_checks d b l with
  | Ok d' => arrays d' ∧ (∀ i, chk d' i = if decide (i ∈ spots b l) then b else chk d i) ∧
      (∀ i, bas d' i = bas d i) ∧ (∀ i, usd d' i = usd d i) ∧ size d' = size d ∧
      fps d' = fps d ∧ dict d' = dict d
  | Err _ => False
  | Panic => True
  end.
Proof.
  revert d. induction l as [|n l IH]; intros d Ha; simpl.
  - by split_and!.
  - unfold set_check. apply set_cases; [done|]. intros Hlt. simpl.
    destruct Ha as (Hb & Hc & Hu).
    specialize (IH (d <| check := <[b + code n := b]> (check d) |>)).
    destruct (set_checks _ b l) as [d'| |]; [|apply IH; split_and!; try done; simpl; by rewrite length_insert|done].
    destruct IH as (Ha' & Hck & ?); [split_and!; try done; simpl; by rewrite length_insert|].
    split; [done|]. split; [|done]. intros i. rewrite Hck. unfold chk. simpl.
    rewrite default_insert by done. rewrite (decide_ext (i ∈ b + code n :: spots b l) (b + code n = i ∨ i ∈ spots b l)).
    + destruct (decide (b + code n = i)), (decide (i ∈ spots b l)), (decide (_ ∨ _)); naive_solver.
    + rewrite elem_of_cons. naive_solver.
Qed.

Lemma last_code_max l n :
  StronglySorted lt (code <$> l) → n ∈ l → code n ≤ last_code l.
Proof.
  unfold last_code. induction l as [|m l IH]; [by intros _ ?%elem_of_nil|].
  intros [Hm Hs]%StronglySorted_cons [->|Hn]%elem_of_cons.
  - destruct l as [|k l]; [done|]. change (last (m :: k :: l)) with (last (k :: l)).
    destruct (last (k :: l)) as [z|] eqn:E; [|by apply last_None in E].
    assert (z ∈ k :: l) as Hz by (rewrite last_lookup in E; by eapply list_elem_of_lookup_2).
    rewrite Forall_forall in Hm. assert (code m < code z); [|lia].
    apply Hm. by apply (list_elem_of_fmap_2 code (k :: l) z).
  - destruct l as [|k l]; [by apply elem_of_nil in Hn|]. change (last (m :: k :: l)) with (last (k :: l)).
    by apply IH.
Qed.

Lemma place_spec d children :
  inv d → children ≠ [] → StronglySorted lt (code <$> children) →
  match place d children with
  | Ok (b, d') =>
      inv d' ∧ grown d d' {[b]} (λ _, False) ∧
      (∀ c, chk d' (b + c) = b ↔ c ∈ code <$> children)
  | Err _ => False
  | Panic => True
  end.
Proof.
  intros Hinv Hne Hs. unfold place. pose proof (loopForBegin_spec d children (inv_arrays _ Hinv) Hne) as H.
  destruct (loopForBegin d children) as [[b d1]| |]; [|done|done].
  destruct H as ((Hck & Hba & Hus & Hsz & Hfp & Hdi) & (Ab & Ac & Au) & Hpos & Hub & Hfree). simpl.
  unfold set_used. apply set_cases; [done|]. intros Hlt. simpl.
  set (d2 := d1 <| used := _ |> <| size := _ |>).
  assert (arrays d2) as Ha2 by (split_and!; try done; simpl; by rewrite length_insert).
  assert (∀ i, usd d2 i = if decide (b = i) then true else usd d i) as Hus2.
  { intros i. rewrite <- Hus. unfold usd. simpl. by apply default_insert. }
  pose proof (set_checks_spec d2 b children Ha2) as H.
  destruct (set_checks d2 b children) as [d3| |]; [|done|done]. simpl.
  destruct H as (Ha3 & Hck3 & Hba3 & Hus3 & Hsz3 & Hfp3 & Hdi3).
  assert (∀ i, usd d3 i = if decide (b = i) then true else usd d i) as Hus3' by (intros i; by rewrite Hus3).
  assert (∀ i, chk d3 i = if decide (i ∈ spots b children) then b else chk d i) as Hck3'.
  { intros i. rewrite Hck3. case_decide; [done|]. apply Hck. }
  assert (size d3 = Nat.max (size d) (b + last_code children + 1)) as Hsz3'.
  { rewrite Hsz3. simpl. by rewrite Hsz. }
  destruct Hinv as [Ha HI1 HI2]. rewrite Forall_forall in Hfree. split_and!.
  - split; [done| |].
    + intros i. rewrite Hck3'. case_decide as Hd.
      * intros _. rewrite Hus3', decide_True by done. split; [done|]. apply elem_of_spots in Hd as (n & -> & Hn).
        pose proof (last_code_max _ _ Hs Hn). lia.
      * intros Hi. destruct (HI1 i Hi) as [Hu ?]. split; [|lia]. rewrite Hus3'. by case_decide.
    + intros x. rewrite Hus3'. case_decide as Hd; [subst; lia|]. intros [? ?]%HI2. lia.
  - split.
    + intros i Hi. rewrite Hck3', decide_False; [done|]. intros (n & -> & Hn)%elem_of_spots. by rewrite Hfree in Hi.
    + intros i _ _. rewrite Hba3. apply Hba.
    + intros i Hz. rewrite Hck3'. case_decide; [set_solver|by intros ?].
    + intros x Hx. rewrite Hus3'. by case_decide.
    + intros x ->%elem_of_singleton. rewrite Hus3', decide_True by done. done.
    + rewrite Hba3. apply Hba.
    + rewrite Hfp3, Hdi3. by split.
  - intros c. rewrite Hck3', list_elem_of_fmap. case_decide as Hd.
    + split; [|done]. intros _. apply elem_of_spots in Hd as (n & ? & Hn). exists n. split; [lia|done].
    + split; [|intros (n & -> & Hn); destruct Hd; apply elem_of_spots; by exists n]. intros E. exfalso.
      destruct (HI1 (b + c)) as [Hu _]; [lia|]. rewrite E in Hu. congruence.
Qed.

Lemma spans_app d l dep Q R :
  spans d l dep (Q ++ R) → spans d l dep Q ∧ spans d (l + length Q) dep R.
Proof.
  unfold spans. intros H. pose proof (Forall2_length _ _ _ H) as Hlen.
  rewrite length_app, length_take in Hlen.
  rewrite length_app, <- (take_take_drop _ (length Q)), drop_drop in H.
  apply Forall2_app_inv in H; [done|]. rewrite length_take. lia.
Qed.

Lemma spans_same d d' l dep P : fps d' = fps d → dict d' = dict d → spans d l dep P → spans d' l dep P.
Proof. unfold spans. by intros -> ->. Qed.

Lemma spans_tl d l dep c Q :
  c ≠ 0 → Forall (λ p, hd 0 p = c) Q → spans d l dep Q → spans d l (dep + 1) (tl <$> Q).
Proof.
  unfold spans. rewrite length_fmap. intros Hc Hhd H.
  induction H as [|fp p sub Q (pre & Hpre & Henc) H IH]; [constructor|].
  apply Forall_cons in Hhd as [Hx Hhd]. destruct p as [|x p]; simpl in Hx; [lia|].
  simpl. constructor; [|by apply IH].
  exists (pre ++ [x]). rewrite length_app, <- app_assoc. split; [simpl; lia|done].
Qed.

Lemma spans_end d l dep Q :
  positive Q → Forall (λ p, hd 0 p = 0) Q → spans d l dep Q →
  Forall (λ fp, length fp < dep + 1) (take (length Q) (drop l (fps d))).
Proof.
  unfold spans. intros Hpos Hhd H.
  induction H as [|fp p sub Q (pre & Hpre & Henc) H IH]; [constructor|].
  apply Forall_cons in Hpos as [Hp Hpos]. apply Forall_cons in Hhd as [Hz Hhd].
  apply hd_zero in Hz as ->; [|done]. constructor; [|by apply IH].
  apply Forall2_length in Henc. rewrite app_nil_r in Henc. lia.
Qed.

(** A child of a group that has not ended has children of its own. *)
Lemma nodes_not_nil gs P dep l : groups gs P → P ≠ [] → nodes dep l gs ≠ [].
Proof. intros (-> & _) HP. destruct gs as [|[c Q] gs]; [done|]. by simpl. Qed.

(** What a call of [insert] for the paths [P] yields. *)
Definition inserted (n : nat) (d : DoubleArrayTrie) (P : list (list nat))
    (r : result (nat * DoubleArrayTrie)) : Prop :=
  match r with
  | Ok (t, d') => ∃ X, inv d' ∧ grown d d' X (λ _, False) ∧ repr n d' X t P
  | Err _ => False
  | Panic => True
  end.

Definition insert_ok (n : nat) (ins : DoubleArrayTrie → list node → result (nat * DoubleArrayTrie))
    : Prop :=
  ∀ d dep l P gs, inv d → spans d l dep P → P ≠ [] → groups gs P → positive P →
    Forall (λ p, length p < n) P → inserted n d P (ins d (nodes (dep + 1) l gs)).

(** What holds of a child after the loop. *)
Definition child_ok (n : nat) (d : DoubleArrayTrie) (X : gset nat) (b : nat)
    (g : nat * list (list nat)) : Prop :=
  if decide (g.1 = 0) then (bas d b < 0)%Z
  else ∃ t X', X' ⊆ X ∧ bas d (b + g.1) = Z.of_nat t ∧ repr n d X' t (tl <$> g.2).

Definition child_spot (b : nat) (gs : list (nat * list (list nat))) (i : nat) : Prop :=
  ∃ c, c ∈ gs.*1 ∧ i = b + c.

Definition looped (n : nat) (d : DoubleArrayTrie) (b : nat) (gs : list (nat * list (list nat)))
    (r : result DoubleArrayTrie) : Prop :=
  match r with
  | Ok d' => ∃ X, inv d' ∧ grown d d' X (child_spot b gs) ∧ Forall (child_ok n d' X b) gs
  | Err _ => False
  | Panic => True
  end.

(** The base value of the first child is written, and the loop goes on. *)
Lemma looped_cons n d d1 d2 X1 b c Q gs v r :
  inv d → usd d b = true → Forall (lt c) gs.*1 →
  (∀ k, k ∈ c :: gs.*1 → chk d (b + k) = b) →
  grown d d1 X1 (λ _, False) → inv d2 → grown d1 d2 ∅ (eq (b + c)) → bas d2 (b + c) = v →
  looped n d2 b gs r →
  (∀ d3 X, grown d1 d3 X (child_spot b ((c, Q) :: gs)) → bas d3 (b + c) = v →
     child_ok n d3 (X1 ∪ X) b (c, Q)) →
  looped n d b ((c, Q) :: gs) r.
Proof.
  intros Hinv Hub Hlt Hspot G1 Hinv2 G2 Hv Hr Hchild. destruct r as [d3| |]; [|done|done].
  destruct Hr as (X3 & Hinv3 & G3 & Hok).
  assert (b ≠ 0) as Hb by (by apply (inv_used _ Hinv)).
  assert (grown d1 d3 (∅ ∪ X3) (child_spot b ((c, Q) :: gs))) as G13.
  { eapply grown_trans; [done..|]. intros i _ Hn. split.
    - intros <-. apply Hn. exists c. csimpl. set_solver.
    - intros (k & Hk & ->). apply Hn. exists k. csimpl. set_solver. }
  exists (X1 ∪ (∅ ∪ X3)). split_and!; [done| |].
  - eapply grown_trans; [done..|]. intros i _ Hn. split; [by intros []|exact Hn].
  - constructor.
    + apply Hchild; [done|]. rewrite <- Hv. apply G3.
      * assert (chk d (b + c) = b) as E by (apply Hspot; set_solver).
        assert (chk d1 (b + c) = b) as E1 by (rewrite (grown_old _ _ _ _ G1); congruence).
        rewrite (grown_old _ _ _ _ G2); congruence.
      * intros (k & Hk & E). rewrite Forall_forall in Hlt. apply Hlt in Hk. lia.
    + eapply Forall_impl; [exact Hok|]. intros [k R]. unfold child_ok. case_decide; [done|].
      intros (t & X' & ? & ? & ?). exists t, X'. split_and!; [set_solver|done..].
Qed.

Lemma inv_progress d x : inv d → inv (d <| progress := x |>).
Proof. by intros [? ? ?]. Qed.

Lemma grown_progress d d' X E x : grown d d' X E → grown d (d' <| progress := x |>) X E.
Proof. by intros [? ? ? ? ? ? ?]. Qed.

Lemma positive_tl Q : positive Q → positive (tl <$> Q).
Proof.
  intros H. apply Forall_fmap. eapply Forall_impl; [exact H|]. intros [|x p]; simpl; [done|].
  by intros [_ ?]%Forall_cons.
Qed.

Lemma short_tl n c Q :
  c ≠ 0 → Forall (λ p, hd 0 p = c) Q → Forall (λ p, length p < S n) Q →
  Forall (λ p, length p < n) (tl <$> Q).
Proof.
  intros Hc Hhd Hl. apply Forall_fmap. rewrite !Forall_forall in *. intros p Hp. simpl.
  specialize (Hhd p Hp). specialize (Hl p Hp). destruct p as [|x p]; simpl in *; lia.
Qed.

Lemma dfs_spec ins n b dep l gs d :
  insert_ok n ins → inv d → usd d b = true → spans d l dep (concat gs.*2) →
  Forall group_ok gs → StronglySorted lt gs.*1 → positive (concat gs.*2) →
  Forall (λ p, length p < S n) (concat gs.*2) → (∀ k, k ∈ gs.*1 → chk d (b + k) = b) →
  looped n d b gs (dfs ins b d (nodes (dep + 1) l gs)).
Proof.
  intros Hins. revert l d. induction gs as [|[c Q] gs IH]; intros l d Hinv Hub Hs Hgs Hlt Hpos Hlen Hspot.
  { exists ∅. split_and!; [done|apply grown_refl|done]. }
  csimpl in Hs. csimpl in Hlt. csimpl in Hpos. csimpl in Hlen. csimpl in Hspot.
  apply Forall_cons in Hgs as [(HQ & Hhd & HsQ) Hgs]. simpl in HQ, Hhd, HsQ.
  apply StronglySorted_cons in Hlt as [Hc Hlt]. apply Forall_app in Hpos as [HposQ Hpos].
  apply Forall_app in Hlen as [HlenQ Hlen]. apply spans_app in Hs as [HsQ' Hs].
  assert (b ≠ 0) as Hb by (by apply (inv_used _ Hinv)).
  assert (chk d (b + c) = b) as Ec by (apply Hspot; set_solver).
  assert (∀ d1 d2 X v, grown d d1 X (λ _, False) → inv d2 → grown d1 d2 ∅ (eq (b + c)) →
    bas d2 (b + c) = v →
    (∀ d3 Y, grown d1 d3 Y (child_spot b ((c, Q) :: gs)) → bas d3 (b + c) = v →
       child_ok n d3 (X ∪ Y) b (c, Q)) →
    looped n d b ((c, Q) :: gs) (dfs ins b d2 (nodes (dep + 1) (l + length Q) gs))) as Hnext.
  { intros d1 d2 X v G1 Hinv2 G2 Hv Hchild. eapply looped_cons; [done..| |exact Hchild].
    destruct (grown_same _ _ _ _ G1) as [F1 D1]. destruct (grown_same _ _ _ _ G2) as [F2 D2].
    apply IH; try done.
    - by apply (grown_used _ _ _ _ G2), (grown_used _ _ _ _ G1).
    - eapply spans_same; [..|exact Hs]; congruence.
    - intros k Hk. assert (chk d (b + k) = b) as E by (apply Hspot; set_solver).
      assert (chk d1 (b + k) = b) as E1 by (rewrite (grown_old _ _ _ _ G1); congruence).
      rewrite (grown_old _ _ _ _ G2); congruence. }
  simpl nodes. simpl dfs. destruct (decide (c = 0)) as [->|Hc0].
  - rewrite fetch_end by (by apply spans_end). simpl.
    pose proof (set_base_spec d (b + 0) (- Z.of_nat l - 1) Hinv) as H.
    destruct (set_base d (b + 0) _) as [d2| |]; [|apply H; lia|done]. simpl.
    destruct H as (Hinv2 & G2 & Hv & _); [lia|].
    eapply (Hnext d _ ∅ (- Z.of_nat l - 1)%Z); [apply grown_refl|by apply inv_progress| |exact Hv|].
    + by apply grown_progress.
    + intros d3 Y _ E. unfold child_ok. rewrite decide_True by done. rewrite Nat.add_0_r in E. lia.
  - destruct (groups_exist (tl <$> Q)) as [gs' Hgs']; [by apply positive_tl|done|].
    pose proof (spans_tl _ _ _ _ _ Hc0 Hhd HsQ') as Hspan.
    pose proof (fetch_spec d (dep + 1) l _ gs' Hspan Hgs' c) as Hf. rewrite length_fmap in Hf.
    rewrite Hf. simpl.
    assert (tl <$> Q ≠ []) as HQ' by (by destruct Q).
    pose proof (nodes_not_nil gs' _ (dep + 1 + 1) l Hgs' HQ') as Hnn.
    pose proof (Hins d (dep + 1) l (tl <$> Q) gs' Hinv Hspan HQ' Hgs' (positive_tl _ HposQ)
                  (short_tl _ _ _ Hc0 Hhd HlenQ)) as H.
    destruct (nodes (dep + 1 + 1) l gs') as [|g1 gr]; [done|].
    destruct (ins d (g1 :: gr)) as [[t d1]| |]; [|done|done]. simpl.
    destruct H as (X & Hinv1 & G1 & Hr).
    pose proof (set_base_spec d1 (b + c) (Z.of_nat t) Hinv1) as H.
    destruct (set_base d1 (b + c) _) as [d2| |]; [|apply H; lia|done]. simpl.
    destruct H as (Hinv2 & G2 & Hv & _); [lia|].
    eapply (Hnext d1 d2 X); [done..|]. intros d3 Y G3 E. unfold child_ok. simpl. rewrite decide_False by done.
    exists t, X. split_and!; [set_solver|done|]. eapply repr_grown; [done..| |exact G3|].
    + intros x Hx. by apply (grown_fresh _ _ _ _ G1).
    + intros i (k & Hk & ->). csimpl in Hk. rewrite (grown_old _ _ _ _ G1); rewrite Hspot; [|done..].
      intros HX. apply (grown_fresh _ _ _ _ G1) in HX as [? _]. congruence.
Qed.

Lemma codes_nodes dep l gs : code <$> nodes dep l gs = gs.*1.
Proof. revert l. induction gs as [|[c Q] gs IH]; intros l; csimpl; [done|]. by rewrite IH. Qed.

Lemma repr_here n d d1 X b gs P :
  groups gs P → inv d → usd d b = true → (∀ c, chk d (b + c) = b ↔ c ∈ gs.*1) →
  grown d d1 X (child_spot b gs) → Forall (child_ok n d1 X b) gs →
  repr (S n) d1 ({[b]} ∪ X) b P.
Proof.
  intros Hg Hinv Hub Hspot G Hok. assert (b ≠ 0) as Hb by (by apply (inv_used _ Hinv)).
  assert (∀ c, c ∈ heads P → ∃ Q, (c, Q) ∈ gs ∧ child_ok n d1 X b (c, Q)) as Hchild.
  { intros c. rewrite (heads_groups gs P) by done. intros ([k Q] & -> & Hin)%list_elem_of_fmap.
    exists Q. split; [done|]. rewrite Forall_forall in Hok. by apply Hok. }
  split_and!.
  - set_solver.
  - intros c. rewrite (heads_groups gs P), <- Hspot by done.
    destruct (decide (chk d (b + c) = 0)) as [Hz|Hz].
    + rewrite Hz. split; [|congruence]. intros E. exfalso.
      assert (b ∈ X) as Hin by (rewrite <- E; apply (grown_new _ _ _ _ G); congruence).
      apply (grown_fresh _ _ _ _ G) in Hin as [? _]. congruence.
    + by rewrite (grown_old _ _ _ _ G) by done.
  - intros Hin. destruct (Hchild 0) as (Q & _ & H); [|by unfold child_ok in H].
    apply list_elem_of_fmap. by exists [].
  - intros c Hc Hin. destruct (Hchild c Hin) as (Q & HQ & H). unfold child_ok in H. simpl in H.
    rewrite decide_False in H by done. destruct H as (t & X' & Hsub & Hbas & Hr).
    exists t, X'. rewrite (tails_groups gs P c Q) by done. split_and!; [set_solver|done..].
Qed.

Lemma insert_spec n : insert_ok n (insert n).
Proof.
  induction n as [|n IH]; intros d dep l P gs Hinv Hs HP Hg Hpos Hlen.
  { destruct P as [|p P]; [done|]. apply Forall_cons in Hlen as [Hp _]. lia. }
  simpl. pose proof Hg as (E & Hlt & Hok).
  pose proof (place_spec d (nodes (dep + 1) l gs) Hinv (nodes_not_nil _ _ _ _ Hg HP)) as H.
  rewrite codes_nodes in H. specialize (H Hlt).
  destruct (place d (nodes (dep + 1) l gs)) as [[b d1]| |]; [|done|done]. simpl.
  destruct H as (Hinv1 & G1 & Hspot). destruct (grown_same _ _ _ _ G1) as [F1 D1].
  assert (usd d1 b = true) as Hub by (apply (grown_fresh _ _ _ _ G1); set_solver).
  assert (usd d b = false) as Hub0 by (apply (grown_fresh _ _ _ _ G1); set_solver).
  pose proof (dfs_spec (insert n) n b dep l gs d1 IH Hinv1 Hub) as H. rewrite <- E in H.
  specialize (H (spans_same d d1 l dep P F1 D1 Hs) Hok Hlt Hpos Hlen (λ k, proj2 (Hspot k))).
  destruct (dfs (insert n) b d1 (nodes (dep + 1) l gs)) as [d2| |]; [|done|done]. simpl.
  destruct H as (X & Hinv2 & G2 & Hchild). exists ({[b]} ∪ X). split; [done|]. split.
  - eapply grown_trans; [done..|]. intros i Hi _. split; [by intros []|]. intros (c & Hc & ->).
    pose proof (grown_old _ _ _ _ G1 _ Hi) as Eo. apply Hspot in Hc.
    destruct (inv_check _ Hinv _ Hi) as [Hu _]. rewrite <- Eo, Hc in Hu. congruence.
  - by apply (repr_here n d1 d2 X b gs).
Qed.

(** ** Searching *)

(** A path of the dictionary's codes is a prefix of the searched one. *)
Definition has_prefix (dict : fieldDict) (path : list string) (p : list nat) : Prop :=
  ∃ pre post, path = pre ++ post ∧ enc dict pre p.

Lemma get_at_nat {A} (l : list A) i x : l !! i = Some x → get_at l (Z.of_nat i) = Ok x.
Proof. intros H. unfold get_at, get. rewrite decide_True by lia. by rewrite Nat2Z.id, H. Qed.

Lemma get_at_default {A} (z : A) l i :
  i < length l → get_at l (Z.of_nat i) = Ok (default z (l !! i)).
Proof.
  intros H. destruct (lookup_lt_is_Some_2 l i H) as [x Hx]. by rewrite (get_at_nat _ _ x), Hx.
Qed.

Lemma at_leaf_spec n d X b P :
  arrays d → repr n d X b P → positive P → b < allocSize d →
  at_leaf d (Z.of_nat b) = Ok (bool_decide ([] ∈ P)).
Proof.
  intros (Ab & Ac & _) Hr Hpos Hb. destruct n as [|n]; [done|].
  destruct Hr as (_ & Hc & Hz & _). unfold at_leaf.
  rewrite (get_at_default 0) by lia. simpl. fold (chk d b).
  specialize (Hc 0). rewrite Nat.add_0_r in Hc.
  assert (0 ∈ heads P ↔ [] ∈ P) as Hnil.
  { unfold heads. rewrite list_elem_of_fmap. split; [|intros; by exists []].
    intros (p & Hp & Hin). unfold positive in Hpos. rewrite Forall_forall in Hpos.
    by rewrite <- (hd_zero p) by auto. }
  rewrite Hnil in Hc. case_decide as Hd.
  - assert ([] ∈ P) as Hin by (apply Hc; lia).
    rewrite (get_at_default 0%Z) by lia. simpl. fold (bas d b).
    rewrite !bool_decide_eq_true_2 by auto. done.
  - rewrite bool_decide_eq_false_2; [done|]. rewrite <- Hc. intros E. by rewrite E in Hd.
Qed.

Lemma elem_of_tails c P p : p ∈ tails c P ↔ c :: p ∈ P.
Proof.
  unfold tails. rewrite list_elem_of_omap. split.
  - intros ([|x q] & Hin & E); [done|]. case_decide; by simplify_eq.
  - intros Hin. exists (c :: p). split; [done|]. by rewrite decide_True.
Qed.

Lemma search_spec n d X b P path :
  arrays d → repr n d X b P → positive P → (∀ x, x ∈ X → x ≠ 0 ∧ x < allocSize d) →
  ∃ r, search d (Z.of_nat b) path = Ok r ∧ (r = true ↔ Exists (has_prefix (dict d) path) P).
Proof.
  intros Ha. revert n X b P. induction path as [|name path IH]; intros n X b P Hr Hpos HX.
  - assert (b < allocSize d) as Hb by (apply HX; destruct n; [done|apply Hr]).
    simpl. rewrite (at_leaf_spec n d X b P) by done. eexists. split; [done|].
    rewrite bool_decide_eq_true, Exists_exists. split.
    + intros Hin. exists []. split; [done|]. exists [], []. by split; [|constructor].
    + intros (p & Hin & pre & post & E & Henc). symmetry in E. apply app_eq_nil in E as [-> ->].
      by apply Forall2_nil_inv_l in Henc as ->.
  - assert (b < allocSize d) as Hb by (apply HX; destruct n; [done|apply Hr]).
    assert ([] ∈ P → Exists (has_prefix (dict d) (name :: path)) P) as Hnil.
    { intros Hin. apply Exists_exists. exists []. split; [done|]. exists [], (name :: path).
      by split; [|constructor]. }
    simpl. rewrite (at_leaf_spec n d X b P) by done. destruct (dict d !! name) as [v|] eqn:Ev.
    + simpl. destruct (bool_decide ([] ∈ P)) eqn:Eb.
      { apply bool_decide_eq_true in Eb. exists true. split; [done|]. split; auto. }
      apply bool_decide_eq_false in Eb.
      assert (Exists (has_prefix (dict d) (name :: path)) P ↔
              Exists (has_prefix (dict d) path) (tails (v + 1) P)) as Htl.
      { rewrite !Exists_exists. split.
        - intros (p & Hin & pre & post & E & Henc). destruct pre as [|x pre].
          { by apply Forall2_nil_inv_l in Henc as ->. }
          simplify_eq/=. apply Forall2_cons_inv_l in Henc as (c & p' & (w & Hw & ->) & Hp' & ->).
          simplify_eq. exists p'. rewrite elem_of_tails. split; [done|]. by exists pre, post.
        - intros (p & Hin%elem_of_tails & pre & post & -> & Henc). exists (v + 1 :: p).
          split; [done|]. exists (name :: pre), post. split; [done|]. constructor; eauto. }
      setoid_rewrite Htl. destruct n as [|n]; [done|]. destruct Hr as (HbX & Hc & _ & Hn).
      rewrite <- Nat2Z.inj_add. set (pos := b + (v + 1)). destruct Ha as (Ab & Ac & Au).
      assert (¬ (v + 1 ∈ heads P) → tails (v + 1) P = []) as Hnone.
      { intros Hno. destruct (tails (v + 1) P) as [|p l] eqn:E; [done|]. destruct Hno.
        apply list_elem_of_fmap. exists (v + 1 :: p). split; [done|].
        apply elem_of_tails. rewrite E. set_solver. }
      case_decide as Hlen.
      * exists false. split; [done|]. rewrite Hnone; [by rewrite Exists_nil|]. rewrite <- Hc.
        fold pos. unfold chk, zlen in *. rewrite lookup_ge_None_2 by lia. simpl. intros E.
        by destruct (HX b HbX).
      * unfold zlen in Hlen. rewrite (get_at_default 0) by lia. simpl. fold (chk d pos).
        case_decide as Hd.
        { exists false. split; [done|]. rewrite Hnone; [by rewrite Exists_nil|]. rewrite <- Hc.
          fold pos. intros E. by rewrite E in Hd. }
        assert (v + 1 ∈ heads P) as Hin by (apply Hc; fold pos; lia).
        destruct (Hn (v + 1)) as (t & X' & Hsub & Hbas & Hr); [lia|done|].
        rewrite (get_at_default 0%Z) by lia. simpl. fold (bas d pos). unfold pos. rewrite Hbas.
        apply (IH n X'); [done| |intros; apply HX; set_solver].
        apply Forall_forall. intros p Hp%elem_of_tails. unfold positive in Hpos.
        rewrite Forall_forall in Hpos. apply Hpos in Hp. by apply Forall_cons in Hp as [_ ?].
    + exists (bool_decide ([] ∈ P)). split; [done|]. rewrite bool_decide_eq_true. split; [done|].
      rewrite Exists_exists. intros (p & Hin & pre & post & E & Henc). destruct pre as [|x pre].
      { by apply Forall2_nil_inv_l in Henc as ->. }
      simplify_eq/=. apply Forall2_cons_inv_l in Henc as (c & p' & (w & Hw & ->) & _). congruence.
Qed.

(** ** Building *)

#[global] Instance not_above_trans : Transitive not_above.
Proof.
  unfold not_above. intros p q r. revert q r.
  induction p as [|x p IH]; intros [|y q] [|z r]; simpl; try done.
  destruct (String.ltb y x) eqn:Eyx; [done|]. destruct (String.ltb z y) eqn:Ezy; [done|].
  pose proof (string_le_trans x y z Eyx Ezy) as Ezx. unfold string_le in Ezx. rewrite Ezx.
  destruct (String.ltb x y) eqn:Exy, (String.ltb y z) eqn:Eyz.
  - by rewrite (ltb_trans _ _ _ Exy Eyz).
  - destruct (ltb_cases y z) as [?|[<-|?]]; [congruence| |congruence]. by rewrite Exy.
  - destruct (ltb_cases x y) as [?|[<-|?]]; [congruence| |congruence]. by rewrite Eyz.
  - destruct (ltb_cases x y) as [?|[<-|?]]; [congruence| |congruence]. rewrite Eyz. by eapply IH.
Qed.

Lemma sort_spec fps : StronglySorted not_above (sort fps) ∧ sort fps ≡ₚ fps.
Proof. split; [apply StronglySorted_merge_sort; apply _|apply merge_sort_Permutation]. Qed.

Lemma enc_all fps l : l ⊆ fps → ∃ P, Forall2 (enc (newFieldDict fps)) l P.
Proof.
  induction l as [|fp l IH]; intros Hl; [by exists []|]. destruct IH as [P HP]; [set_solver|].
  destruct (enc_total fps fp) as [p Hp]; [set_solver|]. exists (p :: P). by constructor.
Qed.

Lemma enc_sorted fps l P :
  Forall2 (enc (newFieldDict fps)) l P → StronglySorted not_above l → StronglySorted lexle P.
Proof.
  induction 1 as [|fp p l P Hp HP IH]; [constructor|]. intros [Hf Hs]%StronglySorted_cons.
  apply StronglySorted_cons. split; [|by apply IH]. apply Forall_forall. intros q Hq.
  apply list_elem_of_lookup_1 in Hq as [i Hi].
  destruct (Forall2_lookup_r _ _ _ _ _ HP Hi) as (fq & Hfq & Hencq).
  eapply enc_lexle; [done..|]. rewrite Forall_forall in Hf. apply Hf. by eapply list_elem_of_lookup_2.
Qed.

Lemma max_length_le fps fp : fp ∈ fps → length fp ≤ max_length fps.
Proof. unfold max_length. induction fps as [|q fps IH]; [by intros ?%elem_of_nil|]. simpl. set_solver by lia. Qed.

(** The first begin value is the one that the search starts from. *)
Lemma place_first d children b d' :
  arrays d → (∀ i, chk d i = 0) → (∀ i, usd d i = false) → nextCheckPos d = 0 →
  place d children = Ok (b, d') → b = 1.
Proof.
  intros Ha Hc Hu Hn. unfold place, loopForBegin. destruct children as [|n0 rest]; [done|].
  rewrite Hn. replace (allocSize d + code n0 + 0 + 2) with (S (allocSize d + code n0 + 1)) by lia.
  simpl. rewrite Nat.max_0_r.
  set (d1 := if decide (allocSize d ≤ code n0 + 1) then resize d (code n0 + 1 + 1) else d).
  assert (same d d1 ∧ arrays d1) as [(Hc1 & _ & Hu1 & _) Ha1].
  { unfold d1. case_decide; [apply resize_same; [done|lia]|by split]. }
  apply get_cases; [done|]. intros c Ec. simpl.
  assert (c = 0) as -> by (pose proof (Hc1 (code n0 + 1)) as E; rewrite Hc in E; unfold chk in E;
    by rewrite Ec in E).
  simpl. set (d2 := d1 <| nextCheckPos := code n0 + 1 |>).
  set (d3 := if decide (allocSize d2 ≤ code n0 + 1 - code n0 + last_code (n0 :: rest))
             then expand d2 else d2).
  assert (same d2 d3) as (Hc3 & _ & Hu3 & _).
  { unfold d3. case_decide; [by apply expand_same|done]. }
  change (if decide (allocSize d1 ≤ _) then expand d2 else d2) with d3.
  apply get_cases; [done|]. intros u Eu. simpl.
  assert (u = false) as ->.
  { pose proof (Hu3 (code n0 + 1 - code n0)) as E. change (usd d2) with (usd d1) in E.
    rewrite Hu1, Hu in E. unfold usd in E. by rewrite Eu in E. }
  pose proof (conflict_spec d3 (code n0 + 1 - code n0) rest) as Hcon.
  destruct (conflict d3 _ rest) as [[]| |]; [|simpl|done|done].
  - destruct Hcon as (n & _ & Hne). rewrite Hc3 in Hne. change (chk d2) with (chk d1) in Hne.
    by rewrite Hc1, Hc in Hne.
  - do 2 match goal with |- rbind ?m _ = _ → _ => destruct m; simpl; [|done|done] end.
    intros [= <- _]. lia.
Qed.

Definition new_trie (fps : fieldPaths) : DoubleArrayTrie :=
  resize (MkTrie [] [] [] 0 0 fps (newFieldDict fps) 0 0) defaultArraySize.

Lemma Build_start l :
  ∃ d, set_base (new_trie l) 0 1 = Ok d ∧ inv d ∧ (∀ i, chk d i = 0) ∧ (∀ i, usd d i = false) ∧
    bas d 0 = 1%Z ∧ nextCheckPos d = 0 ∧ fps d = l ∧ dict d = newFieldDict l.
Proof.
  unfold set_base, set. rewrite decide_True by (simpl; lia). simpl.
  eexists. split; [done|].
  assert (∀ i, chk (new_trie l) i = 0 ∧ usd (new_trie l) i = false) as H0.
  { intros i. unfold chk, usd, new_trie, resize. simpl check. simpl used.
    rewrite !resized_lookup. by repeat case_decide. }
  split_and!; try done; [split|..].
  - done.
  - intros i. change (chk _ i) with (chk (new_trie l) i). by destruct (H0 i) as [-> _].
  - intros b. change (usd _ b) with (usd (new_trie l) b). by destruct (H0 b) as [_ ->].
  - intros i. apply H0.
  - intros i. apply H0.
Qed.

Lemma groups_nil gs : groups gs [] → gs = [].
Proof.
  intros (E & _ & Hok). destruct gs as [|[c Q] gs]; [done|].
  apply Forall_cons in Hok as [(HQ & _) _]. symmetry in E. csimpl in E.
  apply app_eq_nil in E as [-> _]. done.
Qed.

(** What [Build] yields: an error never, and a trie for the paths unless it panics. *)
Lemma Build_spec fps :
  match Build fps with
  | Ok d => ∃ n X b P l, l ≡ₚ fps ∧ dict d = newFieldDict l ∧ Forall2 (enc (dict d)) l P ∧
      arrays d ∧ repr n d X b P ∧ positive P ∧ (∀ x, x ∈ X → x ≠ 0 ∧ x < allocSize d) ∧
      base d !! 0 = Some (Z.of_nat b)
  | Err _ => False
  | Panic => True
  end.
Proof.
  unfold Build. set (l := sort fps). destruct (sort_spec fps) as [Hsort Hperm]. fold l in Hsort, Hperm.
  cbv zeta. fold (new_trie l).
  destruct (Build_start l) as (d & -> & Hinv & Hck & Hus & Hb0 & Hnext & Hfps & Hdict). simpl.
  destruct (enc_all l l) as [P HP]; [done|].
  assert (positive P) as Hpos.
  { apply Forall_forall. intros p [i Hi]%list_elem_of_lookup_1.
    destruct (Forall2_lookup_r _ _ _ _ _ HP Hi) as (fp & _ & Henc). by apply enc_pos in Henc. }
  destruct (groups_exist P Hpos (enc_sorted _ _ _ HP Hsort)) as [gs Hgs].
  pose proof (Forall2_length _ _ _ HP) as Hlen.
  assert (spans d 0 0 P) as Hspan.
  { unfold spans. rewrite Hfps, Hdict, drop_0, take_ge by lia.
    eapply Forall2_impl; [exact HP|]. intros fp p Henc. by exists []. }
  rewrite Hlen. change (length P) with (0 + length P). rewrite (fetch_spec d 0 0 P gs Hspan Hgs 0). simpl.
  assert (Forall (λ p, length p < max_length l + 2) P) as Hshort.
  { apply Forall_forall. intros p [i Hi]%list_elem_of_lookup_1.
    destruct (Forall2_lookup_r _ _ _ _ _ HP Hi) as (fp & Hfp & Henc).
    apply list_elem_of_lookup_2, max_length_le in Hfp. apply Forall2_length in Henc. lia. }
  replace (max_length l + 2) with (S (max_length l + 1)) in * by lia.
  destruct (decide (P = [])) as [-> |HP0]; [apply groups_nil in Hgs as ->; done|].
  pose proof (insert_spec (S (max_length l + 1)) d 0 0 P gs Hinv Hspan HP0 Hgs Hpos Hshort) as Hi.
  destruct (insert _ d _) as [[b d1]| |] eqn:Ei; [|done|done]. simpl.
  destruct Hi as (X & Hinv1 & G & Hr). destruct (grown_same _ _ _ _ G) as [Hf Hd].
  assert (b = 1) as ->.
  { simpl in Ei. destruct (place d (nodes 1 0 gs)) as [[b1 d2]| |] eqn:Ep; [|done|done]. simpl in Ei.
    destruct (dfs _ b1 d2 _) as [d3| |]; [|done|done]. simplify_eq/=.
    by eapply place_first; [apply (inv_arrays _ Hinv)|..]. }
  exists (S (max_length l + 1)), X, 1, P, l. destruct Hinv1 as [(Ab & Ac & Au) Hck1 Hus1].
  assert (∀ i, chk (resize d1 (size d1)) i = chk d1 i) as Eck.
  { intros i. unfold chk at 1. simpl. rewrite resized_lookup. case_decide as Hi; [done|].
    destruct (decide (chk d1 i = 0)) as [Hz|Hz]; [done|]. apply Hck1 in Hz. lia. }
  assert (∀ i, i < size d1 → bas (resize d1 (size d1)) i = bas d1 i) as Eba.
  { intros i Hi. unfold bas at 1. simpl. rewrite resized_lookup. by rewrite decide_True. }
  assert (∀ x, x ∈ X → x ≠ 0 ∧ x < size d1) as HX.
  { intros x Hx. apply Hus1. by apply (grown_fresh _ _ _ _ G). }
  assert (1 < size d1) as Hsz by (apply HX; simpl in Hr; apply Hr).
  split_and!; try done.
  - simpl. congruence.
  - simpl. by rewrite Hd, Hdict.
  - split_and!; apply length_resized.
  - eapply repr_frame; [exact Hr|..]; intros i Hi.
    + split; [apply Eck|]. apply Eba. apply Hck1. intros Hz. rewrite Hz in Hi. by destruct (HX 0 Hi).
    + apply Eck.
  - assert (is_Some (base (resize d1 (size d1)) !! 0)) as [v Hv].
    { apply lookup_lt_is_Some. simpl. rewrite length_resized. lia. }
    change (base (resize d1 (size d1)) !! 0 = Some 1%Z). rewrite Hv. f_equal. pose proof (Eba 0) as E. unfold bas at 1 in E. rewrite Hv in E. simpl in E.
    rewrite E by lia. rewrite (grown_root _ _ _ _ G), Hb0. done.
Qed.

(** Building a trie never fails and never runs forever: the paths are always found in the
    order of the dictionary with all their names encoded, and a free place is always found. *)
Theorem Build_total (fps : fieldPaths) (e : error) : Build fps ≠ Err e.
Proof. pose proof (Build_spec fps) as H. intros E. by rewrite E in H. Qed.

Lemma search_built fps d path :
  Build fps = Ok d →
  ∃ r, CommonPrefixSearch d path = Ok r ∧ (r = true ↔ Exists (λ fp, fp `prefix_of` path) fps).
Proof.
  intros E. pose proof (Build_spec fps) as H. rewrite E in H.
  destruct H as (n & X & b & P & l & Hperm & Hd & HP & Ha & Hr & Hpos & HX & Hb).
  unfold CommonPrefixSearch, get. rewrite Hb. simpl.
  destruct (search_spec n d X b P path Ha Hr Hpos HX) as (r & -> & Hrp). exists r. split; [done|].
  rewrite Hrp, <- Hperm. rewrite Hd in *. clear -HP. rewrite !Exists_exists. split.
  - intros (p & [i Hi]%list_elem_of_lookup_1 & pre & post & -> & Henc).
    destruct (Forall2_lookup_r _ _ _ _ _ HP Hi) as (fp & Hfp & Henc').
    rewrite (enc_inj _ _ _ _ Henc Henc'). exists fp. split; [by eapply list_elem_of_lookup_2|].
    by eexists.
  - intros (fp & [i Hi]%list_elem_of_lookup_1 & post & ->).
    destruct (Forall2_lookup_l _ _ _ _ _ HP Hi) as (p & Hp & Henc).
    exists p. split; [by eapply list_elem_of_lookup_2|]. by exists fp, post.
Qed.

(** C18. The trie that is built for a list of field paths answers for every path whether
    one of them is a prefix of it, and the search stays within the arrays. *)
Theorem CommonPrefixSearch_correct (fps : fieldPaths) (d : DoubleArrayTrie) (path : list string) :
  Build fps = Ok d →
  CommonPrefixSearch d path = Ok (bool_decide (Exists (λ fp, fp `prefix_of` path) fps)).
Proof.
  intros E. destruct (search_built fps d path E) as (r & -> & Hr). f_equal.
  apply eq_true_iff_eq. by rewrite Hr, bool_decide_eq_true.
Qed.

Module DatExamples.

Definition bookstore : fieldPaths := [["shelf"; "theme"]; ["book"]; ["shelf"; "id"]].

Definition built : DoubleArrayTrie :=
  match Build bookstore with Ok d => d | _ => new_trie [] end.

Lemma CommonPrefixSearch_correct_witness :
  Build bookstore = Ok built ∧ CommonPrefixSearch built ["shelf"; "id"; "x"] = Ok true ∧
  CommonPrefixSearch built ["shelf"] = Ok false.
Proof.
  assert (Build bookstore = Ok built) as E by (vm_compute; reflexivity).
  split; [exact E|]. split.
  - rewrite (CommonPrefixSearch_correct bookstore built ["shelf"; "id"; "x"] E). clear E.
    vm_compute. reflexivity.
  - rewrite (CommonPrefixSearch_correct bookstore built ["shelf"] E). clear E.
    vm_compute. reflexivity.
Defined.

(** A template with 25 variables, one of them nested: an expansion by 5% is too small for the codes of
    the children, and the next access is out of range. *)
Definition letter (i : nat) : string := String (Ascii.ascii_of_nat (97 + i)) EmptyString.
Definition wide : fieldPaths :=
  [letter 23; letter 0] :: [letter 23; letter 24] :: ((λ i, [letter i]) <$> seq 0 25).

Example Build_panics : Build wide = Panic.
Proof. by vm_compute. Qed.

End DatExamples.
