(* ===== verification/Router.v ===== *)
(** Routing of RESTful requests (restful/router_trie.go, restful/router.go, restful/pattern.go): a
    trie of the segments of the templates proposes a transcoder, and the templates are
    tried one after the other where it proposes none that matches.

    A node of the trie is a value: no two parents share a child.  Paths are byte strings. *)

From S2P Require Import Prelude Dat GoStrings HttpRule.
From Stdlib Require Import Ascii.

(** ** Patterns *)

Record Pattern := MkPattern { template : PathTemplate; rawURLPath : bytes }.

(** [Parse] of restful/pattern.go. *)
Definition ParsePattern (urlPath : bytes) : result Pattern :=
  do tpl <- Parse urlPath; Ok (MkPattern tpl urlPath).

Inductive segmentType := segmentTypeStatic | segmentTypeParam | segmentTypeWildcard.

#[global] Instance segmentType_eq_dec : EqDecision segmentType.
Proof. solve_decision. Defined.

Record pathSegment := MkSegment { typ : segmentType; value : bytes }.

(** The loop of [splitPatternParts]: the depth of braces, the part being read and the parts. *)
Fixpoint splitPatternParts_loop (pattern : bytes) (braceDepth : Z) (current : bytes)
    (parts : list bytes) : list bytes :=
  match pattern with
  | [] => if bool_decide (current = []) then parts else parts ++ [current]
  | c :: pattern =>
    if decide (c = ch "{") then
      splitPatternParts_loop pattern (braceDepth + 1) (current ++ [c]) parts
    else if decide (c = ch "}") then
      splitPatternParts_loop pattern (braceDepth - 1) (current ++ [c]) parts
    else if decide (c = ch "/" ∧ braceDepth = 0%Z) then
      if bool_decide (current = []) then splitPatternParts_loop pattern braceDepth current parts
      else splitPatternParts_loop pattern braceDepth [] (parts ++ [current])
    else splitPatternParts_loop pattern braceDepth (current ++ [c]) parts
  end.

Definition splitPatternParts (pattern : bytes) : list bytes :=
  splitPatternParts_loop pattern 0 [] [].

Definition isWildcard (part : bytes) : bool :=
  bool_decide (part = [ch "*"; ch "*"]) || bool_decide (part = [ch "*"]).

(** The segments of one part. *)
Definition parsePart (part : bytes) : list pathSegment :=
  if bool_decide (part = []) then []
  else if isWildcard part then [MkSegment segmentTypeWildcard part]
  else if has_prefix [ch "{"] part && has_suffix [ch "}"] part then
    let paramContent := sub part 1 (zlen part - 1) in
    if bool_decide (paramContent = []) then []
    else
      let eqIdx := index (ch "=") paramContent in
      if (0 <? eqIdx)%Z then
        omap (λ prefixPart,
          if bool_decide (prefixPart = []) then None
          else Some (MkSegment (if isWildcard prefixPart then segmentTypeWildcard
                                else segmentTypeStatic) prefixPart))
          (split (ch "/") (from paramContent (eqIdx + 1)))
      else [MkSegment segmentTypeParam paramContent]
  else [MkSegment segmentTypeStatic part].

Definition parsePattern (pattern : bytes) : list pathSegment :=
  let pattern := trim_prefix [ch "/"] pattern in
  if bool_decide (pattern = []) then []
  else concat (parsePart <$> splitPatternParts pattern).

(** ** Transcoders *)

(** The rule for the body of a request: the empty text if there is none. *)
Record Binding := MkBinding { bname : string; HTTPMethod : string; pattern : Pattern;
                              body : option string }.

Record transcoder := MkTranscoder { name : string; httpMethod : string; pat : Pattern;
                                    tbody : option string; dat : option DoubleArrayTrie }.

Definition split_path (s : string) : list string :=
  bytes_str <$> split (ch ".") (str_bytes s).

(** The fields that the template and the body bind. *)
Definition bound_fields (b : Binding) : list (list string) :=
  map (map bytes_str) (FieldPaths (template (pattern b))) ++
  match body b with
  | Some fromBody => if bool_decide (fromBody = "") || bool_decide (fromBody = "*") then []
                     else [split_path fromBody]
  | None => []
  end.

Definition newTranscoder (b : Binding) : result transcoder :=
  let tr d := MkTranscoder (bname b) (HTTPMethod b) (pattern b) (body b) d in
  let fps := bound_fields b in
  if bool_decide (fps = []) then Ok (tr None)
  else match Build fps with
       | Ok d => Ok (tr (Some d))
       | Err e => Err (Wrapped "failed to build dat: " e)
       | Panic => Panic
       end.

(** ** The trie *)

#[local] Unset Elimination Schemes.
Inductive trieNode := MkNode {
  indices : bytes;
  paths : list bytes;
  children : list trieNode;
  paramChild : option trieNode;
  wildcardChild : option trieNode;
  leaf : option transcoder;
  isEnd : bool
}.
#[local] Set Elimination Schemes.

#[global] Instance eta_node : Eta trieNode := λ n,
  MkNode (indices n) (paths n) (children n) (paramChild n) (wildcardChild n) (leaf n) (isEnd n).

Definition newTrieNode : trieNode := MkNode [] [] [] None None None false.

(** The conversion of a byte to a string: the UTF-8 encoding of the character of this code. *)
Definition string_of_byte (b : byte) : bytes :=
  let z := byte_Z b in
  if (z <? 128)%Z then [b]
  else [Z_byte (Z.lor 192 (Z.shiftr z 6)); Z_byte (Z.lor 128 (Z.land z 63))].

(** The loop of [getChild] at the index [i]: the index of the child. *)
Fixpoint find_child (firstChar : byte) (path : bytes) (paths : list bytes) (indices : bytes)
    (i : nat) : result (option nat) :=
  match indices with
  | [] => Ok None
  | b :: indices =>
    if decide (b = firstChar) then
      do p <- match paths !! i with Some p => Ok p | None => Panic end;
      if decide (p = path) then Ok (Some i) else find_child firstChar path paths indices (S i)
    else find_child firstChar path paths indices (S i)
  end.

Definition getChild_index (node : trieNode) (path : bytes) : result (option nat) :=
  match path with
  | [] => Ok None
  | firstChar :: _ => find_child firstChar path (paths node) (indices node) 0
  end.

(** [getChild]: the index of the child and the child. *)
Definition getChild (node : trieNode) (path : bytes) : result (option (nat * trieNode)) :=
  do i <- getChild_index node path;
  match i with
  | None => Ok None
  | Some i => match children node !! i with Some c => Ok (Some (i, c)) | None => Panic end
  end.

(** [addChild] with the child as it is in the end. *)
Definition addChild (node : trieNode) (path : bytes) (child : trieNode) : result trieNode :=
  match path with
  | [] => Panic
  | b :: _ => Ok (node <| indices := indices node ++ string_of_byte b |>
                       <| paths := paths node ++ [path] |>
                       <| children := children node ++ [child] |>)
  end.

(** The loop of [insert] from the node [current]; a node is the last one if no segment follows. *)
Fixpoint insert_at (current : trieNode) (segments : list pathSegment) (tr : transcoder)
    : result trieNode :=
  match segments with
  | [] => Ok current
  | seg :: rest =>
    let mark node := if bool_decide (rest = []) then node <| isEnd := true |> <| leaf := Some tr |>
                     else node in
    match typ seg with
    | segmentTypeStatic =>
      do c <- getChild current (value seg);
      match c with
      | None =>
        do child <- insert_at (mark newTrieNode) rest tr;
        addChild current (value seg) child
      | Some (i, child) =>
        do child <- insert_at (mark child) rest tr;
        Ok (current <| children := <[i := child]> (children current) |>)
      end
    | segmentTypeParam =>
      do child <- insert_at (mark (default newTrieNode (paramChild current))) rest tr;
      Ok (current <| paramChild := Some child |>)
    | segmentTypeWildcard =>
      do child <- insert_at (mark (default newTrieNode (wildcardChild current))) rest tr;
      Ok (current <| wildcardChild := Some child |>)
    end
  end.

(** The trees of the methods, as the list [trees]. *)
Abbreviation RouterTrie := (list (string * trieNode)).

Fixpoint getRoot (rt : RouterTrie) (method : string) : option trieNode :=
  match rt with
  | [] => None
  | (m, root) :: rt => if decide (m = method) then Some root else getRoot rt method
  end.

Fixpoint set_root (rt : RouterTrie) (method : string) (root : trieNode) : RouterTrie :=
  match rt with
  | [] => [(method, root)]
  | (m, r) :: rt => if decide (m = method) then (m, root) :: rt else (m, r) :: set_root rt method root
  end.

(** [insert] with [getOrCreateRoot]. *)
Definition insert (rt : RouterTrie) (method : string) (tr : transcoder) : result RouterTrie :=
  do root <- insert_at (default newTrieNode (getRoot rt method))
               (parsePattern (rawURLPath (pat tr))) tr;
  Ok (set_root rt method root).

Definition end_of (node : trieNode) : option transcoder := if isEnd node then leaf node else None.

(** [dfs] on the segments from the index on; a wildcard jumps to the end. *)
Fixpoint dfs (node : trieNode) (segments : list bytes) : result (option transcoder) :=
  match segments with
  | [] => Ok (end_of node)
  | currentSegment :: rest =>
    do child <- getChild node currentSegment;
    do r <- match child with Some (_, child) => dfs child rest | None => Ok None end;
    match r with
    | Some tr => Ok (Some tr)
    | None =>
      do r <- match paramChild node with Some child => dfs child rest | None => Ok None end;
      match r with
      | Some tr => Ok (Some tr)
      | None => Ok (match wildcardChild node with Some child => end_of child | None => None end)
      end
    end
  end.

Definition path_segments (path : bytes) : list bytes :=
  let segments := split (ch "/") (trim_prefix [ch "/"] path) in
  if decide (segments = [[]]) then [] else segments.

Definition search (rt : RouterTrie) (method : string) (path : bytes) : result (option transcoder) :=
  match getRoot rt method with
  | None => Ok None
  | Some root => dfs root (path_segments path)
  end.

(** ** The router *)

Record Router := MkRouter { transcoders : gmap string (list transcoder); routerTrie : RouterTrie }.

Definition NewRouter : Router := MkRouter ∅ [].

Definition bound (r : Router) (method : string) : list transcoder :=
  default [] (transcoders r !! method).

Definition AddImplBinding (r : Router) (b : Binding) : result Router :=
  match newTranscoder b with
  | Ok tr =>
    let ts := <[HTTPMethod b := bound r (HTTPMethod b) ++ [tr]]> (transcoders r) in
    do rt <- insert (routerTrie r) (HTTPMethod b) tr;
    Ok (MkRouter ts rt)
  | Err e => Err (Wrapped "new transcoder during add impl binding: " e)
  | Panic => Panic
  end.

Fixpoint AddImplBindings (r : Router) (bs : list Binding) : result Router :=
  match bs with
  | [] => Ok r
  | b :: bs => do r <- AddImplBinding r b; AddImplBindings r bs
  end.

Definition tr_Match (tr : transcoder) (path : bytes) : result (gmap string bytes) :=
  Match (template (pat tr)) path.

(** The loop over the transcoders of the method. *)
Fixpoint first_match (trs : list transcoder) (path : bytes)
    : result (option (transcoder * gmap string bytes)) :=
  match trs with
  | [] => Ok None
  | tr :: trs =>
    match tr_Match tr path with
    | Ok fieldValues => Ok (Some (tr, fieldValues))
    | Err _ => first_match trs path
    | Panic => Panic
    end
  end.

Definition findTranscoder (r : Router) (method : string) (path : bytes)
    : result (option (transcoder * gmap string bytes)) :=
  do found <- search (routerTrie r) method path;
  match found with
  | Some tr =>
    match tr_Match tr path with
    | Ok fieldValues => Ok (Some (tr, fieldValues))
    | Err _ => first_match (bound r method) path
    | Panic => Panic
    end
  | None => first_match (bound r method) path
  end.

(** ** Query parameters *)

Section query.

(** [PopulateMessage] works on messages by protobuf reflection; it may have changed the message
    when it fails. *)
Context {M : Type}.
Variable PopulateMessage : M → list string → list string → M * option error.
Variable ErrTraverseNotFound : error.

(** [errors.Is] on the errors of [PopulateMessage]. *)
Variable Is : error → error → bool.

(** [transcodeQueryParams] for the parameters in the order in which the map is visited. *)
Fixpoint query_loop (tr : transcoder) (discardUnknownParams : bool) (msg : M)
    (form : list (string * list string)) : result M :=
  match form with
  | [] => Ok msg
  | (key, values) :: form =>
    do bound <- match dat tr with
                | Some d => CommonPrefixSearch d (split_path key)
                | None => Ok false
                end;
    if bound : bool then query_loop tr discardUnknownParams msg form
    else
      match PopulateMessage msg (split_path key) values with
      | (msg, None) => query_loop tr discardUnknownParams msg form
      | (msg, Some e) => if negb discardUnknownParams || negb (Is e ErrTraverseNotFound) then Err e
                         else query_loop tr discardUnknownParams msg form
      end
  end.

Definition transcodeQueryParams (tr : transcoder) (discardUnknownParams : bool) (msg : M)
    (form : list (string * list string)) : result M :=
  if bool_decide (tbody tr = Some "*") then Ok msg
  else query_loop tr discardUnknownParams msg form.

End query.

(** ** What a trie stands for *)

(** Segments as the trie tells them apart: the names of parameters do not matter. *)
Inductive shape := SStatic (v : bytes) | SParam | SWild.

#[global] Instance shape_eq_dec : EqDecision shape.
Proof. solve_decision. Defined.

Definition shape_of (seg : pathSegment) : shape :=
  match typ seg with
  | segmentTypeStatic => SStatic (value seg)
  | segmentTypeParam => SParam
  | segmentTypeWildcard => SWild
  end.

Fixpoint pos_of (path : bytes) (paths : list bytes) : option nat :=
  match paths with
  | [] => None
  | p :: paths => if decide (p = path) then Some 0 else S <$> pos_of path paths
  end.

Definition child_of (n : trieNode) (s : shape) : option trieNode :=
  match s with
  | SStatic v => i ← pos_of v (paths n); children n !! i
  | SParam => paramChild n
  | SWild => wildcardChild n
  end.

Fixpoint node_at (n : trieNode) (p : list shape) : option trieNode :=
  match p with [] => Some n | s :: p => c ← child_of n s; node_at c p end.

(** The table of transcoders that a trie stands for. *)
Definition table (n : trieNode) (p : list shape) : option transcoder :=
  n ← node_at n p; end_of n.

(** A node is well-formed: [indices] are the first bytes of the paths. *)
Inductive wf : trieNode → Prop :=
| wf_node n :
    length (paths n) = length (children n) →
    Forall2 (λ b p, head p = Some b) (indices n) (paths n) →
    (∀ i c, children n !! i = Some c → wf c) →
    (∀ c, paramChild n = Some c → wf c) →
    (∀ c, wildcardChild n = Some c → wf c) →
    wf n.

Lemma wf_new : wf newTrieNode.
Proof. by constructor. Qed.

Lemma table_new p : table newTrieNode p = None.
Proof. by destruct p as [|[] p]. Qed.

Lemma table_cons n s p : table n (s :: p) = c ← child_of n s; table c p.
Proof. unfold table. simpl. by destruct (child_of n s). Qed.

Lemma pos_of_lookup v ps i : pos_of v ps = Some i → ps !! i = Some v.
Proof.
  revert i. induction ps as [|p ps IH]; intros i; simpl; [done|]. case_decide as Hd.
  - intros [= <-]. by subst.
  - destruct (pos_of v ps) eqn:E; [|done]. intros [= <-]. by apply IH.
Qed.

Lemma pos_of_app v ps q :
  pos_of v (ps ++ [q]) =
  match pos_of v ps with
  | Some i => Some i
  | None => if decide (q = v) then Some (length ps) else None
  end.
Proof.
  induction ps as [|p ps IH]; simpl; [done|]. destruct (decide (p = v)); [done|]. rewrite IH.
  destruct (pos_of v ps); [done|]. simpl. by destruct (decide (q = v)).
Qed.

Lemma find_child_spec b v pre ps inds :
  head v = Some b → Forall2 (λ b p, head p = Some b) inds ps →
  find_child b v (pre ++ ps) inds (length pre) = Ok ((λ i, length pre + i) <$> pos_of v ps).
Proof.
  intros Hb H. revert pre. induction H as [|b' p inds ps Hp H IH]; intros pre; simpl; [done|].
  rewrite lookup_app_r, Nat.sub_diag by lia. simpl.
  assert (find_child b v (pre ++ p :: ps) inds (S (length pre)) =
          Ok ((λ i, length pre + i) <$> (S <$> pos_of v ps))) as Hnext.
  { specialize (IH (pre ++ [p])). rewrite <- app_assoc, length_app in IH. simpl in IH.
    rewrite Nat.add_1_r in IH. rewrite IH. destruct (pos_of v ps); [|done]. simpl. do 2 f_equal. lia. }
  destruct (decide (b' = b)) as [->|Hne].
  - simpl. case_decide as Hd; [simpl; by rewrite Nat.add_0_r|done].
  - rewrite (decide_False (P := p = v)); [done|]. intros ->. congruence.
Qed.

Lemma getChild_spec n v :
  wf n → getChild n v = Ok (i ← pos_of v (paths n); c ← children n !! i; Some (i, c)).
Proof.
  intros Hwf. inversion Hwf as [n' Hlen Hind _ _ _]; subst. unfold getChild, getChild_index.
  assert (∀ i, pos_of v (paths n) = Some i → is_Some (children n !! i)) as Hsome.
  { intros i Hi%pos_of_lookup%lookup_lt_Some. apply lookup_lt_is_Some. lia. }
  destruct v as [|b v].
  - simpl. destruct (pos_of [] (paths n)) as [i|] eqn:E; [|done].
    apply pos_of_lookup in E. by destruct (Forall2_lookup_r _ _ _ _ _ Hind E) as (? & _ & ?).
  - rewrite (find_child_spec b (b :: v) [] (paths n)) by done. simpl.
    destruct (pos_of (b :: v) (paths n)) as [i|]; [|done]. simpl.
    destruct (Hsome i eq_refl) as [c ->]. done.
Qed.

Lemma getChild_child n v :
  wf n → snd <$> (i ← pos_of v (paths n); c ← children n !! i; Some (i, c)) = child_of n (SStatic v).
Proof.
  intros _. simpl. destruct (pos_of v (paths n)) as [i|]; [|done]. simpl. by destruct (children n !! i).
Qed.

Lemma wf_child n s c : wf n → child_of n s = Some c → wf c.
Proof.
  intros Hwf. inversion Hwf as [n' _ _ H1 H2 H3]; subst. destruct s; simpl; [|apply H2|apply H3].
  destruct (pos_of v (paths n)); [|done]. apply H1.
Qed.

(** ** Inserting *)

(** The first character of a static segment is ASCII, which every template's is. *)
Definition plain_segment (seg : pathSegment) : Prop :=
  typ seg = segmentTypeStatic → ∃ b v, value seg = b :: v ∧ (byte_Z b < 128)%Z.

(** The node [c'] with the table of [c] where [tr] is entered for [p]. *)
Definition entered (c c' : trieNode) (p : list shape) (tr : transcoder) : Prop :=
  wf c' ∧ ∀ q, table c' q = if decide (q = p) then Some tr else table c q.

(** A node with a new child for the shape [s]. *)
Lemma entered_child n n' s p tr c c' :
  wf n' → end_of n' = end_of n → (∀ s', child_of n' s' = if decide (s' = s) then Some c' else child_of n s') →
  c = default newTrieNode (child_of n s) → entered c c' p tr → entered n n' (s :: p) tr.
Proof.
  intros Hwf Hend Hch -> [_ Htab]. split; [done|]. intros [|s' q].
  - rewrite decide_False by done. unfold table. simpl. by rewrite Hend.
  - rewrite !table_cons, Hch. destruct (decide (s' = s)) as [->|Hne].
    + simpl. rewrite Htab. destruct (decide (q = p)) as [->|Hq]; [by rewrite decide_True|].
      rewrite decide_False by congruence. destruct (child_of n s); [done|]. simpl. apply table_new.
    + by rewrite (decide_False (P := s' :: q = s :: p)) by congruence.
Qed.

Lemma entered_mark c tr (b : bool) :
  wf c → wf (if b then c <| isEnd := true |> <| leaf := Some tr |> else c).
Proof. destruct b; [|done]. intros H. inversion H. by constructor. Qed.

Lemma table_mark c tr q :
  table (c <| isEnd := true |> <| leaf := Some tr |>) q =
  if decide (q = []) then Some tr else table c q.
Proof. destruct q as [|s q]; [done|]. rewrite decide_False by done. by destruct s. Qed.

Lemma string_of_plain b : (byte_Z b < 128)%Z → string_of_byte b = [b].
Proof. intros H. unfold string_of_byte. by rewrite (proj2 (Z.ltb_lt _ _)). Qed.

Lemma put_child n v i c c' p tr :
  wf n → pos_of v (paths n) = Some i → children n !! i = Some c → entered c c' p tr →
  entered n (n <| children := <[i := c']> (children n) |>) (SStatic v :: p) tr.
Proof.
  intros Hwf Ei Ec Hent. inversion Hwf as [n0 Hlen Hind Hch Hpar Hwild]; subst n0.
  eapply entered_child; [|done| | |exact Hent].
  - constructor; simpl; [by rewrite length_insert|done| |done|done].
    intros j d. intros [[-> [-> _]]|[_ Hd]]%list_lookup_insert_Some; [apply Hent|by eapply Hch].
  - intros s'. destruct (decide (s' = SStatic v)) as [->|Hne]; simpl.
    + rewrite Ei. simpl. apply list_lookup_insert_eq. by eapply lookup_lt_Some.
    + destruct s' as [v'| |]; try done. simpl. destruct (pos_of v' (paths n)) as [j|] eqn:Ej; [|done].
      simpl. apply list_lookup_insert_ne. intros ->. apply pos_of_lookup in Ej, Ei. congruence.
  - simpl. rewrite Ei. simpl. by rewrite Ec.
Qed.

Lemma add_child n b v c' p tr :
  wf n → pos_of (b :: v) (paths n) = None → (byte_Z b < 128)%Z → entered newTrieNode c' p tr →
  ∃ n', addChild n (b :: v) c' = Ok n' ∧ end_of n' = end_of n ∧
    entered n n' (SStatic (b :: v) :: p) tr.
Proof.
  intros Hwf Ei Hb Hent. inversion Hwf as [n0 Hlen Hind Hch Hpar Hwild]; subst n0.
  simpl. rewrite (string_of_plain b Hb). eexists. split; [done|]. split; [done|].
  eapply entered_child; [|done| | |exact Hent].
  - constructor; simpl; [rewrite !length_app; simpl; lia| | |done|done].
    + apply Forall2_app; [done|]. constructor; [done|constructor].
    + intros j d [Hd|[_ Hd]]%lookup_app_Some; [by eapply Hch|].
      apply list_lookup_singleton_Some in Hd as [_ <-]. apply Hent.
  - intros s'. destruct (decide (s' = SStatic (b :: v))) as [->|Hne]; simpl.
    + rewrite pos_of_app, Ei, decide_True by done. simpl. rewrite Hlen. by apply list_lookup_middle.
    + destruct s' as [v'| |]; try done. simpl. rewrite pos_of_app.
      destruct (pos_of v' (paths n)) as [j|] eqn:Ej; simpl.
      * apply lookup_app_l. apply pos_of_lookup, lookup_lt_Some in Ej. lia.
      * by rewrite decide_False by congruence.
  - simpl. by rewrite Ei.
Qed.

Lemma param_child n c' p tr :
  wf n → entered (default newTrieNode (paramChild n)) c' p tr →
  entered n (n <| paramChild := Some c' |>) (SParam :: p) tr.
Proof.
  intros Hwf Hent. inversion Hwf as [n0 Hlen Hind Hch Hpar Hwild]; subst n0.
  eapply entered_child; [|done| |done|exact Hent].
  - constructor; simpl; [exact Hlen|exact Hind|exact Hch| |exact Hwild]. intros d [= <-]. apply Hent.
  - intros s'. case_decide as Hd; [by subst|]. by destruct s'.
Qed.

Lemma wildcard_child n c' p tr :
  wf n → entered (default newTrieNode (wildcardChild n)) c' p tr →
  entered n (n <| wildcardChild := Some c' |>) (SWild :: p) tr.
Proof.
  intros Hwf Hent. inversion Hwf as [n0 Hlen Hind Hch Hpar Hwild]; subst n0.
  eapply entered_child; [|done| |done|exact Hent].
  - constructor; simpl; [exact Hlen|exact Hind|exact Hch|exact Hpar|]. intros d [= <-]. apply Hent.
  - intros s'. case_decide as Hd; [by subst|]. by destruct s'.
Qed.

Lemma insert_at_spec n segs tr :
  wf n → Forall plain_segment segs → segs ≠ [] →
  ∃ n', insert_at n segs tr = Ok n' ∧ entered n n' (shape_of <$> segs) tr.
Proof.
  revert n. induction segs as [|seg rest IH]; intros n Hwf Hplain Hne; [done|].
  apply Forall_cons in Hplain as [Hseg Hrest].
  assert (∀ c, wf c → ∃ c', insert_at (if bool_decide (rest = [])
      then c <| isEnd := true |> <| leaf := Some tr |> else c) rest tr = Ok c' ∧
      entered c c' (shape_of <$> rest) tr) as Hrec.
  { intros c Hc. destruct (decide (rest = [])) as [->|Hne'].
    - exists (c <| isEnd := true |> <| leaf := Some tr |>). split; [done|].
      split; [apply (entered_mark c tr true Hc)|]. intros q.
      rewrite table_mark. by apply decide_ext.
    - rewrite bool_decide_eq_false_2 by done. by apply IH. }
  inversion Hwf as [n0 Hlen Hind Hch Hpar Hwild]; subst n0. rewrite fmap_cons.
  assert (shape_of seg = match typ seg with segmentTypeStatic => SStatic (value seg)
            | segmentTypeParam => SParam | segmentTypeWildcard => SWild end) as -> by done.
  simpl insert_at. destruct (typ seg) eqn:Et.
  - rewrite (getChild_spec n (value seg) Hwf). simpl.
    destruct (pos_of (value seg) (paths n)) as [i|] eqn:Ei; simpl.
    + destruct (children n !! i) as [c|] eqn:Ec.
      * simpl. destruct (Hrec c (Hch _ _ Ec)) as (c' & -> & Hent). simpl. eexists. split; [done|].
        by eapply put_child.
      * apply pos_of_lookup, lookup_lt_Some in Ei. apply lookup_ge_None in Ec. lia.
    + destruct (Hrec newTrieNode wf_new) as (c' & -> & Hent). simpl.
      destruct (Hseg Et) as (b & v & Ev & Hb). rewrite Ev in *.
      destruct (add_child n b v c' (shape_of <$> rest) tr) as (n' & E & _ & ?); [done..|]. eauto.
  - destruct (Hrec (default newTrieNode (paramChild n))) as (c' & -> & Hent).
    { destruct (paramChild n) eqn:Ep; [by apply Hpar|apply wf_new]. }
    simpl. eexists. split; [done|]. by apply param_child.
  - destruct (Hrec (default newTrieNode (wildcardChild n))) as (c' & -> & Hent).
    { destruct (wildcardChild n) eqn:Ep; [by apply Hwild|apply wf_new]. }
    simpl. eexists. split; [done|]. by apply wildcard_child.
Qed.

(** ** Searching *)

(** The segments of a path that a list of shapes matches; a wildcard matches all that is left and
    nothing can follow it. *)
Fixpoint seg_match (p : list shape) (segs : list bytes) : Prop :=
  match p, segs with
  | [], [] => True
  | SStatic v :: p, x :: segs => x = v ∧ seg_match p segs
  | SParam :: p, _ :: segs => seg_match p segs
  | SWild :: p, _ :: _ => p = []
  | _, _ => False
  end.

Definition rank (s : shape) : nat :=
  match s with SStatic _ => 0 | SParam => 1 | SWild => 2 end.

(** Static segments go before parameters, and these before wildcards, from left to right. *)
Fixpoint better (p q : list shape) : Prop :=
  match p, q with
  | a :: p, b :: q => rank a < rank b ∨ (a = b ∧ better p q)
  | _, _ => False
  end.

Definition best (n : trieNode) (segs : list bytes) (r : option transcoder) : Prop :=
  match r with
  | None => ∀ q tr, seg_match q segs → table n q ≠ Some tr
  | Some tr => ∃ p, seg_match p segs ∧ table n p = Some tr ∧
                 ∀ q tr', seg_match q segs → table n q = Some tr' → q = p ∨ better p q
  end.

(** The best entry below a shape. *)
Definition best_below (n : trieNode) (s : shape) (segs : list bytes) (r : option transcoder) : Prop :=
  match child_of n s with Some c => best c segs r | None => r = None end.

Lemma best_below_none n s segs q tr :
  best_below n s segs None → seg_match q segs → table n (s :: q) ≠ Some tr.
Proof.
  unfold best_below. rewrite table_cons. destruct (child_of n s) as [c|]; [|done]. simpl. intros H. apply H.
Qed.

Lemma best_below_some n s segs tr :
  best_below n s segs (Some tr) →
  ∃ p, seg_match p segs ∧ table n (s :: p) = Some tr ∧
    ∀ q tr', seg_match q segs → table n (s :: q) = Some tr' → q = p ∨ better p q.
Proof.
  unfold best_below. intros H. setoid_rewrite table_cons. destruct (child_of n s) as [c|]; [|done].
  exact H.
Qed.

Lemma best_here n x rest r1 r2 r3 :
  best_below n (SStatic x) rest r1 → best_below n SParam rest r2 →
  r3 = (match wildcardChild n with Some c => end_of c | None => None end) →
  best n (x :: rest) (match r1 with Some _ => r1 | None => match r2 with Some _ => r2 | None => r3 end end).
Proof.
  intros H1 H2 H3.
  assert (∀ q tr, seg_match q (x :: rest) → table n q = Some tr →
    (∃ q', q = SStatic x :: q' ∧ seg_match q' rest) ∨ (∃ q', q = SParam :: q' ∧ seg_match q' rest) ∨
    (q = [SWild] ∧ r3 = Some tr)) as Hcases.
  { intros [|[v| |] q] tr; simpl; try done.
    - intros [-> Hq] _. left. eauto.
    - intros Hq _. right. left. eauto.
    - intros -> Htab. right. right. split; [done|]. rewrite H3, <- Htab.
      rewrite table_cons. simpl. by destruct (wildcardChild n). }
  destruct r1 as [tr1|].
  { apply best_below_some in H1 as (p & Hp & Htab & Hbest). exists (SStatic x :: p).
    split; [done|]. split; [done|]. intros q tr' Hq Hq'. destruct (Hcases _ _ Hq Hq')
      as [(q' & -> & Hm)|[(q' & -> & Hm)|[-> _]]].
    - destruct (Hbest _ _ Hm Hq') as [->|]; [by left|]. right. right. done.
    - right. left. simpl. lia.
    - right. left. simpl. lia. }
  pose proof (best_below_none n (SStatic x) rest) as N1.
  destruct r2 as [tr2|].
  { apply best_below_some in H2 as (p & Hp & Htab & Hbest). exists (SParam :: p).
    split; [done|]. split; [done|]. intros q tr' Hq Hq'. destruct (Hcases _ _ Hq Hq')
      as [(q' & -> & Hm)|[(q' & -> & Hm)|[-> _]]].
    - by destruct (N1 _ _ H1 Hm Hq').
    - destruct (Hbest _ _ Hm Hq') as [->|]; [by left|]. right. right. done.
    - right. left. simpl. lia. }
  pose proof (best_below_none n SParam rest) as N2.
  destruct r3 as [tr3|] eqn:E3; simpl.
  - exists [SWild]. split; [done|]. split.
    + rewrite table_cons. simpl. destruct (wildcardChild n); [|done]. simpl. by rewrite H3.
    + intros q tr' Hq Hq'. destruct (Hcases _ _ Hq Hq') as [(q' & -> & Hm)|[(q' & -> & Hm)|[-> _]]].
      * by destruct (N1 _ _ H1 Hm Hq').
      * by destruct (N2 _ _ H2 Hm Hq').
      * by left.
  - intros q tr Hq Hq'. destruct (Hcases _ _ Hq Hq') as [(q' & -> & Hm)|[(q' & -> & Hm)|[_ ?]]]; [| |done].
    + by destruct (N1 _ _ H1 Hm Hq').
    + by destruct (N2 _ _ H2 Hm Hq').
Qed.

Lemma node_dfs_spec n segs : wf n → ∃ r, dfs n segs = Ok r ∧ best n segs r.
Proof.
  revert n. induction segs as [|x rest IH]; intros n Hwf.
  { exists (end_of n). split; [done|]. destruct (end_of n) as [tr|] eqn:E; simpl.
    - exists []. split; [done|]. split; [done|]. intros [|[] q] tr'; simpl; try done. by left.
    - intros [|[] q] tr; simpl; try done. unfold table. simpl. by rewrite E. }
  simpl. rewrite (getChild_spec n x Hwf). simpl.
  assert (∃ r1, (match (i ← pos_of x (paths n); c ← children n !! i; Some (i, c)) with
      | Some (_, child) => dfs child rest | None => Ok None end) = Ok r1 ∧
    best_below n (SStatic x) rest r1) as (r1 & -> & H1).
  { unfold best_below. rewrite <- (getChild_child n x Hwf). pose proof (wf_child n (SStatic x)) as Hc.
    simpl in Hc. destruct (pos_of x (paths n)) as [i|]; simpl; [|by exists None].
    destruct (children n !! i) as [c|] eqn:Ec; simpl; [|by exists None]. apply IH. by apply Hc. }
  assert (∃ r2, (match paramChild n with Some child => dfs child rest | None => Ok None end) = Ok r2 ∧
    best_below n SParam rest r2) as (r2 & E2 & H2).
  { unfold best_below. simpl. destruct (paramChild n) as [c|] eqn:Ec; [|by exists None]. apply IH.
    by apply (wf_child n SParam). }
  pose proof (best_here n x rest r1 r2 _ H1 H2 eq_refl) as Hbest. simpl.
  destruct r1 as [tr1|]; [by exists (Some tr1)|]. rewrite E2. simpl.
  destruct r2 as [tr2|]; [by exists (Some tr2)|]. eexists. split; [done|exact Hbest].
Qed.

(** ** Routing *)

(** The trie of a router has an entry only for a transcoder that is bound to the method, and the
    last binding of every list of shapes is entered. *)
Definition binding_shapes (tr : transcoder) : list shape :=
  shape_of <$> parsePattern (rawURLPath (pat tr)).

Definition last_with (trs : list transcoder) (p : list shape) : option transcoder :=
  foldl (λ r tr, if decide (binding_shapes tr = p) then Some tr else r) None trs.

Lemma last_with_snoc trs tr p :
  last_with (trs ++ [tr]) p = if decide (binding_shapes tr = p) then Some tr else last_with trs p.
Proof. unfold last_with. by rewrite foldl_app. Qed.

Definition routed (r : Router) : Prop :=
  ∀ m, wf (default newTrieNode (getRoot (routerTrie r) m)) ∧
    ∀ p, table (default newTrieNode (getRoot (routerTrie r) m)) p =
         if decide (p = []) then None else last_with (bound r m) p.

(** A binding whose template is parsed and whose segments start with an ASCII character. *)
Definition binding_ok (b : Binding) : Prop :=
  Forall plain_segment (parsePattern (rawURLPath (pattern b))).

Lemma getRoot_set rt m m' root :
  getRoot (set_root rt m root) m' = if decide (m = m') then Some root else getRoot rt m'.
Proof.
  induction rt as [|[k r] rt IH]; simpl; [by destruct (decide (m = m'))|].
  destruct (decide (k = m)) as [->|Hne]; simpl.
  - by destruct (decide (m = m')).
  - rewrite IH. destruct (decide (k = m')) as [->|]; [|done]. by rewrite decide_False.
Qed.

Lemma newTranscoder_fields b tr :
  newTranscoder b = Ok tr → pat tr = pattern b ∧ httpMethod tr = HTTPMethod b ∧ tbody tr = body b.
Proof.
  unfold newTranscoder. destruct (bool_decide _); [by intros [= <-]|].
  destruct (Build _); [|done|done]. by intros [= <-].
Qed.

Lemma bound_add r rt m m' tr :
  bound (MkRouter (<[m := bound r m ++ [tr]]> (transcoders r)) rt) m' =
  if decide (m = m') then bound r m ++ [tr] else bound r m'.
Proof.
  unfold bound. simpl. case_decide as Hd; [subst; by rewrite lookup_insert_eq|by rewrite lookup_insert_ne].
Qed.

Lemma AddImplBinding_routed r b r' :
  routed r → binding_ok b → AddImplBinding r b = Ok r' → routed r'.
Proof.
  intros Hr Hb. unfold AddImplBinding. destruct (newTranscoder b) as [tr|e|] eqn:Etr; [|done|done].
  apply newTranscoder_fields in Etr as (Ep & _). unfold insert. rewrite Ep.
  set (root := default newTrieNode (getRoot (routerTrie r) (HTTPMethod b))).
  destruct (Hr (HTTPMethod b)) as [Hwf Htab]. fold root in Hwf, Htab.
  assert (∃ root', insert_at root (parsePattern (rawURLPath (pattern b))) tr = Ok root' ∧ wf root' ∧
    ∀ p, table root' p = if decide (p = []) then None
                         else last_with (bound r (HTTPMethod b) ++ [tr]) p) as (root' & -> & Hwf' & Htab').
  { assert (∀ p, last_with (bound r (HTTPMethod b) ++ [tr]) p =
      if decide (shape_of <$> parsePattern (rawURLPath (pattern b)) = p) then Some tr
      else last_with (bound r (HTTPMethod b)) p) as Hlast.
    { intros p. rewrite last_with_snoc. unfold binding_shapes. by rewrite Ep. }
    destruct (decide (parsePattern (rawURLPath (pattern b)) = [])) as [E|Hne].
    - rewrite E in Hlast |- *. exists root. split; [done|]. split; [done|]. intros p. rewrite Htab, Hlast.
      destruct (decide (p = [])); [done|]. rewrite (decide_False (P := shape_of <$> [] = p)); [done|]. by intros <-.
    - destruct (insert_at_spec root _ tr Hwf Hb Hne) as (root' & -> & Hwf' & Htab').
      exists root'. split; [done|]. split; [done|]. intros p. rewrite Htab', Htab, Hlast.
      destruct (decide (p = [])) as [->|].
      + rewrite decide_False; [done|]. intros E. symmetry in E. by apply fmap_nil_inv in E.
      + by apply decide_ext. }
  simpl. intros [= <-] m. simpl. rewrite getRoot_set, bound_add.
  destruct (decide (HTTPMethod b = m)) as [<-|]; [split; [exact Hwf'|exact Htab']|apply Hr].
Qed.

(** ** Plain patterns *)

Definition ascii (l : bytes) : Prop := Forall (λ b, (byte_Z b < 128)%Z) l.

Lemma ascii_sub l k : l ⊆ k → ascii k → ascii l.
Proof. unfold ascii. rewrite !Forall_forall. set_solver. Qed.

(** Templates are texts of ASCII characters. *)
Lemma between_ascii lo hi b : (byte_Z (ch hi) < 128)%Z → between lo hi b = true → (byte_Z b < 128)%Z.
Proof. unfold between. intros. bool_to_prop. lia. Qed.

Lemma isHexDigit_ascii b : isHexDigit b = true → (byte_Z b < 128)%Z.
Proof. unfold isHexDigit. intros [[H|H]%orb_true_iff|H]%orb_true_iff; by eapply between_ascii, H. Qed.

Lemma isAlpha_ascii b : isAlpha b = true → (byte_Z b < 128)%Z.
Proof. unfold isAlpha. intros [H|H]%orb_true_iff; by eapply between_ascii, H. Qed.

Lemma isDigit_ascii b : isDigit b = true → (byte_Z b < 128)%Z.
Proof. by apply between_ascii. Qed.

Lemma isPlain_ascii b : isPlain b = true → (byte_Z b < 128)%Z.
Proof.
  unfold isPlain, isUnreserved, isSubDelims. rewrite !orb_true_iff, !bool_decide_eq_true, !elem_of_cons.
  intros H. destruct_or?; subst; try done; [by apply isAlpha_ascii|by apply isDigit_ascii|set_solver..].
Qed.

Lemma isIdentChar_ascii b : isIdentChar b = true → (byte_Z b < 128)%Z.
Proof.
  unfold isIdentChar. rewrite !orb_true_iff, bool_decide_eq_true.
  intros [[H| H]| ->]; [by apply isAlpha_ascii|by apply isDigit_ascii|done].
Qed.

Lemma pchars_ascii l : pchars l → ascii l.
Proof.
  induction 1 as [|b l Hb _ IH|b1 b2 b3 l Hb _ IH]; [constructor|constructor; [by apply isPlain_ascii|done]|].
  unfold isPCTEncoded in Hb. rewrite !andb_true_iff, bool_decide_eq_true in Hb. destruct Hb as [[-> H2] H3].
  by repeat (constructor; [first [done | by apply isHexDigit_ascii]|]).
Qed.

Lemma ascii_app l k : ascii (l ++ k) ↔ ascii l ∧ ascii k.
Proof. apply Forall_app. Qed.

Lemma join_ascii sep ls : ascii sep → Forall ascii ls → ascii (join sep ls).
Proof.
  intros Hs. induction 1 as [|l ls Hl Hls IH]; [constructor|]. destruct ls as [|l' ls]; [done|].
  rewrite join_cons_cons, !ascii_app. done.
Qed.

Lemma seg_text_ascii s t :
  syn_ok s → Forall (λ n, isVariable n = false) (nested s) → seg_text s t → ascii t.
Proof.
  assert (∀ s, syn_ok s → isVariable s = false → ascii (seg_String s)) as Hflat.
  { intros s' Hs Hv. inversion Hs as [| |l (Hl & _)|]; subst; simpl; [by repeat constructor..|by apply pchars_ascii|done]. }
  assert (∀ fp, Forall ident_ok fp → ascii (join [ch "."] fp)) as Hfp.
  { intros fp Hfp. apply join_ascii; [by repeat constructor|]. eapply Forall_impl; [exact Hfp|].
    intros id [_ Hid]. eapply Forall_impl; [exact Hid|]. apply isIdentChar_ascii. }
  intros Hs Hn Ht. destruct Ht as [s Hv|fp segs ts Ht|fp]; [by apply Hflat|..];
    inversion Hs as [| | |? ? _ Hid _ Hok]; subst; (constructor; [done|]); rewrite ascii_app;
    (split; [by apply Hfp|]); [|by repeat constructor].
  constructor; [done|]. rewrite ascii_app. split; [|by repeat constructor].
  apply join_ascii; [by repeat constructor|]. simpl in Hn. clear Hs Hid.
  induction Ht as [|s t segs ts Hs Ht IH]; [constructor|].
  apply Forall_cons in Hok as [Hok1 Hok]. apply Forall_cons in Hn as [Hv Hn].
  constructor; [|by apply IH]. rewrite (seg_text_flat _ _ Hv Hs). by apply Hflat.
Qed.

Lemma template_text_ascii t text : template_ok t → template_text t text → ascii text.
Proof.
  intros (_ & Hok & Hn & _ & _ & Hv & _) (ts & x & Ht & Hx & ->). constructor; [done|]. rewrite ascii_app. split.
  - apply join_ascii; [by repeat constructor|]. clear Hx Hv. induction Ht as [|s t' segs ts Hs Ht IH]; [constructor|].
    apply Forall_cons in Hok as [Hok1 Hok]. apply Forall_cons in Hn as [Hn1 Hn].
    constructor; [exact (seg_text_ascii _ _ Hok1 Hn1 Hs)|exact (IH Hok Hn)].
  - apply pchars_ascii. exact (pchars_verb_text _ _ _ Hv Hx).
Qed.

Lemma splitPatternParts_ascii pattern depth current parts :
  ascii pattern → ascii current → Forall ascii parts →
  Forall ascii (splitPatternParts_loop pattern depth current parts).
Proof.
  revert depth current parts. induction pattern as [|c pattern IH]; intros depth current parts Hp Hc Hps; simpl.
  - case_bool_decide; [done|]. apply Forall_app. by rewrite Forall_singleton.
  - apply Forall_cons in Hp as [Hb Hp].
    assert (ascii (current ++ [c])) as Hc' by (apply Forall_app; by rewrite Forall_singleton).
    assert (Forall ascii (parts ++ [current])) by (apply Forall_app; by rewrite Forall_singleton).
    repeat case_decide; try case_bool_decide; apply IH; done || constructor.
Qed.

Lemma split_ascii c l : ascii l → Forall ascii (split c l).
Proof.
  induction l as [|b l IH]; simpl; intros H; [by repeat constructor|].
  apply Forall_cons in H as [Hb H]. specialize (IH H). case_decide; [by constructor; [constructor|]|].
  destruct (split c l) as [|p ps]; [by repeat constructor|].
  apply Forall_cons in IH as [? ?]. constructor; [by constructor|done].
Qed.

Lemma plain_static t v : ascii v → v ≠ [] → plain_segment (MkSegment t v).
Proof. destruct v as [|b v]; [done|]. intros [Hb _]%Forall_cons _ _. by exists b, v. Qed.

Lemma parsePart_plain part : ascii part → Forall plain_segment (parsePart part).
Proof.
  intros H. unfold parsePart. case_bool_decide as Hne; [constructor|].
  destruct (isWildcard part); [by repeat constructor|].
  destruct (_ && _); [|repeat constructor; by apply plain_static].
  case_bool_decide; [constructor|]. destruct (0 <? _)%Z; [|by repeat constructor].
  apply Forall_forall. intros seg (q & Hq & E)%list_elem_of_omap. case_bool_decide; [done|].
  simplify_eq. apply plain_static; [|done].
  assert (ascii (from (sub part 1 (zlen part - 1)) (index (ch "=") (sub part 1 (zlen part - 1)) + 1))) as Ha.
  { unfold from, sub. by repeat (apply Forall_drop || apply Forall_take). }
  apply (split_ascii (ch "/")) in Ha. rewrite Forall_forall in Ha. by apply Ha.
Qed.

Lemma parsePattern_plain pattern : ascii pattern → Forall plain_segment (parsePattern pattern).
Proof.
  intros H. unfold parsePattern. case_bool_decide; [constructor|]. apply Forall_concat, Forall_fmap.
  assert (ascii (trim_prefix [ch "/"] pattern)) as Ha.
  { unfold trim_prefix. destruct (has_prefix _ _); [by apply Forall_drop|done]. }
  eapply Forall_impl; [|apply parsePart_plain].
  apply splitPatternParts_ascii; [done|constructor|constructor].
Qed.

(** ** The theorems *)

(** A binding as [Enforce] makes it. *)
Definition enforced (b : Binding) : Prop := ParsePattern (rawURLPath (pattern b)) = Ok (pattern b).

Lemma enforced_ok b : enforced b → binding_ok b ∧ template_ok (template (pattern b)).
Proof.
  intros Hp. unfold enforced, ParsePattern, Parse in Hp.
  destruct (parse (rawURLPath (pattern b))) as [[t|e|]|] eqn:E; simpl in Hp; try done.
  pose proof (parse_sound _ _ E) as Ht. split.
  - by eapply parsePattern_plain, template_text_ascii, parse_template_text.
  - destruct (pattern b). by simplify_eq/=.
Qed.

(** A transcoder that a binding gives. *)
Definition transcodes (b : Binding) (tr : transcoder) : Prop :=
  pat tr = pattern b ∧ name tr = bname b ∧ httpMethod tr = HTTPMethod b ∧ tbody tr = body b.

Definition bound_by (bs : list Binding) (m : string) (trs : list transcoder) : Prop :=
  Forall2 transcodes (filter (λ b, HTTPMethod b = m) bs) trs.

Lemma newTranscoder_transcodes b tr : newTranscoder b = Ok tr → transcodes b tr.
Proof.
  unfold newTranscoder. destruct (bool_decide _); [by intros [= <-]|].
  destruct (Build _); [|done|done]. by intros [= <-].
Qed.

Lemma AddImplBinding_bound r b r' bs :
  (∀ m, bound_by bs m (bound r m)) → AddImplBinding r b = Ok r' →
  ∀ m, bound_by (bs ++ [b]) m (bound r' m).
Proof.
  intros Hr. unfold AddImplBinding. destruct (newTranscoder b) as [tr|e|] eqn:Etr; [|done|done].
  apply newTranscoder_transcodes in Etr. destruct (insert _ _ _) as [rt| |]; [|done|done]. simpl.
  intros [= <-] m. rewrite bound_add. unfold bound_by. rewrite filter_app, filter_cons, filter_nil.
  repeat case_decide; try done.
  - subst m. apply Forall2_app; [apply Hr|]. constructor; [done|constructor].
  - rewrite app_nil_r. apply Hr.
Qed.

Lemma AddImplBindings_spec bs0 r bs r' :
  routed r → (∀ m, bound_by bs0 m (bound r m)) → Forall enforced bs →
  AddImplBindings r bs = Ok r' → routed r' ∧ ∀ m, bound_by (bs0 ++ bs) m (bound r' m).
Proof.
  revert bs0 r. induction bs as [|b bs IH]; intros bs0 r Hr Hb Hbs; simpl.
  { intros [= <-]. by rewrite app_nil_r. }
  apply Forall_cons in Hbs as [Hb1 Hbs]. destruct (AddImplBinding r b) as [r1| |] eqn:E; [|done|done].
  simpl. intros H. replace (bs0 ++ b :: bs) with ((bs0 ++ [b]) ++ bs) by (by rewrite <- app_assoc).
  apply (IH _ r1); [|by eapply AddImplBinding_bound|done|done].
  eapply AddImplBinding_routed; [done| |done]. by apply enforced_ok.
Qed.

Lemma router_spec bs r :
  AddImplBindings NewRouter bs = Ok r → Forall enforced bs →
  routed r ∧ ∀ m, bound_by bs m (bound r m).
Proof.
  intros E Hbs. apply (AddImplBindings_spec [] NewRouter bs r); [| |done|done].
  - intros m. split; [apply wf_new|]. intros p. simpl. rewrite table_new. by case_decide.
  - intros m. constructor.
Qed.

Lemma bound_by_elem bs m trs tr :
  bound_by bs m trs → tr ∈ trs → ∃ b, b ∈ bs ∧ HTTPMethod b = m ∧ transcodes b tr.
Proof.
  intros H [i Hi]%list_elem_of_lookup_1. destruct (Forall2_lookup_r _ _ _ _ _ H Hi) as (b & Hb & Htr).
  apply list_elem_of_lookup_2, list_elem_of_filter in Hb as [? ?]. eauto.
Qed.

Lemma bound_by_elem_r bs m trs b :
  bound_by bs m trs → b ∈ bs → HTTPMethod b = m → ∃ tr, tr ∈ trs ∧ transcodes b tr.
Proof.
  intros H Hb Hm. assert (b ∈ filter (λ b, HTTPMethod b = m) bs) as [i Hi]%list_elem_of_lookup_1.
  { by apply list_elem_of_filter. }
  destruct (Forall2_lookup_l _ _ _ _ _ H Hi) as (tr & Htr & ?). exists tr.
  split; [by eapply list_elem_of_lookup_2|done].
Qed.

Lemma last_with_elem trs p tr : last_with trs p = Some tr → tr ∈ trs ∧ binding_shapes tr = p.
Proof.
  induction trs as [|tr' trs IH] using rev_ind; [done|]. rewrite last_with_snoc.
  case_decide as Hd; [intros [= <-]; set_solver|]. intros [? ?]%IH. set_solver.
Qed.

Lemma first_match_spec trs path :
  (∀ tr, tr ∈ trs → tr_Match tr path ≠ Panic) →
  ∃ found, first_match trs path = Ok found ∧
    match found with
    | Some (tr, cap) => tr ∈ trs ∧ tr_Match tr path = Ok cap
    | None => ∀ tr cap, tr ∈ trs → tr_Match tr path ≠ Ok cap
    end.
Proof.
  induction trs as [|tr trs IH]; intros Hp; simpl.
  { exists None. split; [done|]. by intros tr cap ?%elem_of_nil. }
  destruct (tr_Match tr path) as [cap|e|] eqn:E.
  - exists (Some (tr, cap)). set_solver.
  - destruct IH as (found & -> & H); [set_solver|]. exists found. split; [done|].
    destruct found as [[tr' cap]|]; [set_solver|]. intros tr' cap [->|?]%elem_of_cons; [congruence|by apply H].
  - exfalso. by apply (Hp tr); [set_solver|].
Qed.

Lemma Match_no_panic t path : template_ok t → Match t path ≠ Panic.
Proof.
  intros Ht. unfold Match. destruct path as [|b u]; [done|]. case_decide; [|done].
  destruct (match_verb _ _) as [comps|]; [|done]. pose proof (handle_all_correct t comps Ht) as H'.
  destruct (handle_all _ _); [|done|done]. simpl. by case_decide.
Qed.

(** The entries of the trie that a path matches, through the bindings. *)
Lemma trie_search_spec r m path :
  routed r →
  ∃ found, search (routerTrie r) m path = Ok found ∧
    match found with
    | Some tr => ∃ p, seg_match p (path_segments path) ∧ last_with (bound r m) p = Some tr ∧
        ∀ q tr', seg_match q (path_segments path) → q ≠ [] → last_with (bound r m) q = Some tr' →
                 q = p ∨ better p q
    | None => ∀ q tr, seg_match q (path_segments path) → q ≠ [] → last_with (bound r m) q ≠ Some tr
    end.
Proof.
  intros Hr. destruct (Hr m) as [Hwf Htab]. unfold search.
  destruct (getRoot (routerTrie r) m) as [root|]; simpl in Hwf, Htab.
  - destruct (node_dfs_spec root (path_segments path) Hwf) as (found & -> & Hbest). exists found.
    split; [done|]. destruct found as [tr|].
    + destruct Hbest as (p & Hm & Hp & Hb). rewrite Htab in Hp. case_decide; [done|].
      exists p. split_and!; [done..|]. intros q tr' Hq Hne Hl. eapply Hb; [done|].
      by rewrite Htab, decide_False.
    + intros q tr Hq Hne Hl. eapply Hbest; [done|]. by rewrite Htab, decide_False.
  - exists None. split; [done|]. intros q tr Hq Hne. specialize (Htab q).
    rewrite decide_False, table_new in Htab by done. by rewrite <- Htab.
Qed.

(** C17. Routing is sound and complete.  Once bindings were added without error - their templates as
    [Enforce] parses them - routing does not panic, and a request finds a transcoder if and only if the template of one bound to its method matches its path, and
    the one it finds does match, with the values it returns; the trie only decides which. *)
Theorem findTranscoder_complete (bs : list Binding) (r : Router) (method : string) (path : bytes) :
  AddImplBindings NewRouter bs = Ok r → Forall enforced bs →
  ∃ found, findTranscoder r method path = Ok found ∧
    match found with
    | Some (tr, cap) => ∃ b, b ∈ bs ∧ HTTPMethod b = method ∧ transcodes b tr ∧
                             Match (template (pattern b)) path = Ok cap
    | None => ∀ b cap, b ∈ bs → HTTPMethod b = method → Match (template (pattern b)) path ≠ Ok cap
    end.
Proof.
  intros E Hbs. destruct (router_spec _ _ E Hbs) as [Hr Hbound]. specialize (Hbound method).
  assert (∀ tr, tr ∈ bound r method → tr_Match tr path ≠ Panic) as Hp.
  { intros tr Htr. destruct (bound_by_elem _ _ _ _ Hbound Htr) as (b & Hb & _ & Ht & _).
    unfold tr_Match. rewrite Ht. apply Match_no_panic. rewrite Forall_forall in Hbs.
    by apply enforced_ok, Hbs. }
  assert (∀ tr cap, tr ∈ bound r method → tr_Match tr path = Ok cap →
    ∃ b, b ∈ bs ∧ HTTPMethod b = method ∧ transcodes b tr ∧
         Match (template (pattern b)) path = Ok cap) as Hfound.
  { intros tr cap Htr Hcap. destruct (bound_by_elem _ _ _ _ Hbound Htr) as (b & Hb & Hm & Ht).
    exists b. split_and!; [done..|]. destruct Ht as (Ht & _). unfold tr_Match in Hcap. by rewrite <- Ht. }
  assert (∃ found, first_match (bound r method) path = Ok found ∧
    match found with
    | Some (tr, cap) => ∃ b, b ∈ bs ∧ HTTPMethod b = method ∧ transcodes b tr ∧
                             Match (template (pattern b)) path = Ok cap
    | None => ∀ b cap, b ∈ bs → HTTPMethod b = method → Match (template (pattern b)) path ≠ Ok cap
    end) as Hall.
  { destruct (first_match_spec _ path Hp) as (found & -> & H). exists found. split; [done|].
    destruct found as [[tr cap]|]; [destruct H; by apply Hfound|]. intros b cap Hb Hm Hc.
    destruct (bound_by_elem_r _ _ _ _ Hbound Hb Hm) as (tr & Htr & Ht & _).
    apply (H tr cap Htr). unfold tr_Match. by rewrite Ht. }
  unfold findTranscoder. destruct (trie_search_spec r method path Hr) as (found & -> & Hs). simpl.
  destruct found as [tr|]; [|done]. destruct Hs as (p & _ & [Htr _]%last_with_elem & _).
  destruct (tr_Match tr path) as [cap|e|] eqn:Em; [|done|by destruct (Hp tr Htr)].
  exists (Some (tr, cap)). split; [done|]. by apply Hfound.
Qed.

Definition shapes (b : Binding) : list shape := shape_of <$> parsePattern (rawURLPath (pattern b)).

Lemma transcodes_shapes b tr : transcodes b tr → binding_shapes tr = shapes b.
Proof. intros (Hp & _). unfold binding_shapes, shapes. by rewrite Hp. Qed.

Lemma last_with_split trs p tr :
  last_with trs p = Some tr ↔
  ∃ before after, trs = before ++ tr :: after ∧ binding_shapes tr = p ∧
    Forall (λ tr', binding_shapes tr' ≠ p) after.
Proof.
  induction trs as [|tr' trs IH] using rev_ind.
  { split; [done|]. by intros ([] & ? & ? & _). }
  rewrite last_with_snoc. case_decide as Hp.
  - split.
    + intros [= <-]. by exists trs, [].
    + intros (before & after & E & _ & Ha). destruct after as [|x after _] using rev_ind.
      { by apply app_inj_tail in E as [_ ->]. }
      rewrite app_comm_cons, app_assoc in E. apply app_inj_tail in E as [_ ->].
      by apply Forall_app in Ha as [_ [? _]%Forall_cons].
  - rewrite IH. split.
    + intros (before & after & -> & Hb & Ha). exists before, (after ++ [tr']).
      rewrite Forall_app, Forall_singleton, <- app_assoc. done.
    + intros (before & after & E & Hb & Ha). destruct after as [|x after _] using rev_ind.
      { apply app_inj_tail in E as [_ ->]. done. }
      rewrite app_comm_cons, app_assoc in E. apply app_inj_tail in E as [-> ->].
      exists before, after. apply Forall_app in Ha as [Ha _]. done.
Qed.

(** C19. The trie implements the table of bindings.  Once the bindings are added, the transcoder that a
    search gives is that of a binding of the method, such that no later one has the same list of static,
    parameter and wildcard segments - the last of equal templates wins - and whose segments the path
    matches; of every other such binding the segments are the same or worse, where static segments are
    better than parameters and these than wildcards, from left to right.  It serves the request if its
    template matches.  A search finds nothing exactly if the segments of no binding match; a
    template without segments is not in the trie. *)
Theorem search_best (bs : list Binding) (r : Router) (method : string) (path : bytes) :
  AddImplBindings NewRouter bs = Ok r → Forall enforced bs →
  ∃ found, search (routerTrie r) method path = Ok found ∧
    match found with
    | Some tr => ∃ before b after, filter (λ b, HTTPMethod b = method) bs = before ++ b :: after ∧
        transcodes b tr ∧ seg_match (shapes b) (path_segments path) ∧
        Forall (λ b', shapes b' ≠ shapes b) after ∧
        Forall (λ b', shapes b' ≠ [] → seg_match (shapes b') (path_segments path) →
                      shapes b' = shapes b ∨ better (shapes b) (shapes b')) (before ++ after) ∧
        ∀ cap, Match (template (pattern b)) path = Ok cap → findTranscoder r method path = Ok (Some (tr, cap))
    | None => Forall (λ b, shapes b ≠ [] → ¬ seg_match (shapes b) (path_segments path))
                (filter (λ b, HTTPMethod b = method) bs)
    end.
Proof.
  intros E Hbs. destruct (router_spec _ _ E Hbs) as [Hr Hbound]. specialize (Hbound method). unfold bound_by in Hbound.
  set (mine := filter (λ b, HTTPMethod b = method) bs) in *.
  assert (∀ b, b ∈ mine → ∃ tr, last_with (bound r method) (shapes b) = Some tr) as Hlast.
  { intros b Hb. assert (∃ tr, tr ∈ bound r method ∧ binding_shapes tr = shapes b) as (tr & Htr & <-).
    { apply list_elem_of_lookup_1 in Hb as [i Hi]. destruct (Forall2_lookup_l _ _ _ _ _ Hbound Hi) as (tr & Htr & Ht).
      exists tr. split; [by eapply list_elem_of_lookup_2|by apply transcodes_shapes]. }
    clear -Htr. generalize dependent (bound r method). intros trs.
    induction trs as [|t trs IH] using rev_ind; [by intros ?%elem_of_nil|]. rewrite last_with_snoc. case_decide; [eauto|].
    intros [?|E'%list_elem_of_singleton]%elem_of_app; [by apply IH|by subst]. }
  destruct (trie_search_spec r method path Hr) as (found & Es & Hs). exists found. split; [done|].
  destruct found as [tr|].
  - destruct Hs as (p & Hm & Hl & Hbest). apply last_with_split in Hl as (tbefore & tafter & Etr & <- & Hafter).
    rewrite Etr in Hbound. apply Forall2_app_inv_r in Hbound as (before & l & Hbefore & Hl & El).
    apply Forall2_cons_inv_r in Hl as (b & after & Hb & Hafter2 & ->).
    rewrite (transcodes_shapes _ _ Hb) in *. exists before, b, after. split_and!; [done..| | |].
    + clear -Hafter Hafter2. induction Hafter2 as [|b' tr' ? ? Hb' _ IH]; [constructor|].
      apply Forall_cons in Hafter as [H1 H2]. rewrite (transcodes_shapes _ _ Hb') in H1. constructor; auto.
    + apply Forall_forall. intros b' Hb' Hne Hm'. destruct (Hlast b') as [tr'' Hl'].
      { rewrite El. set_solver. } by eapply Hbest.
    + intros cap Hc. unfold findTranscoder. rewrite Es. simpl. unfold tr_Match.
      destruct Hb as (-> & _). by rewrite Hc.
  - apply Forall_forall. intros b Hb Hne Hm. destruct (Hlast b Hb) as [tr' Hl]. by eapply Hs.
Qed.

Section query_spec.
Context {M : Type}.
Variable PopulateMessage : M → list string → list string → M * option error.
Variable ErrTraverseNotFound : error.
Variable Is : error → error → bool.

(** Populating the message from all the parameters of a list. *)
Fixpoint populate (discardUnknownParams : bool) (msg : M) (form : list (string * list string))
    : result M :=
  match form with
  | [] => Ok msg
  | (key, values) :: form =>
    match PopulateMessage msg (split_path key) values with
    | (msg, Some e) => if negb discardUnknownParams || negb (Is e ErrTraverseNotFound) then Err e
                       else populate discardUnknownParams msg form
    | (msg, None) => populate discardUnknownParams msg form
    end
  end.

(** A parameter at or below a field that the template or the body binds. *)
Definition bound_key (b : Binding) (key : string) : Prop :=
  Exists (λ fp, fp `prefix_of` split_path key) (bound_fields b).

Lemma newTranscoder_dat b tr key :
  newTranscoder b = Ok tr →
  ∃ r, match dat tr with Some d => CommonPrefixSearch d (split_path key) | None => Ok false end = Ok r ∧
    (r = true ↔ bound_key b key).
Proof.
  unfold newTranscoder. case_bool_decide as Hd.
  - intros [= <-]. simpl. exists false. split; [done|]. unfold bound_key. rewrite Hd.
    by rewrite Exists_nil.
  - destruct (Build (bound_fields b)) as [d|e|] eqn:E; [|done|done]. intros [= <-]. simpl.
    by apply search_built.
Qed.

(** Query parameters cannot change what the path and the body determine: the message is
    populated exactly from the parameters that are not at or below a field bound by the template or
    the body, in their order, and from none if the body is the whole message. *)
Theorem transcodeQueryParams_bound (b : Binding) (tr : transcoder) (discard : bool) (msg : M)
    (form : list (string * list string)) :
  newTranscoder b = Ok tr →
  transcodeQueryParams PopulateMessage ErrTraverseNotFound Is tr discard msg form =
  if decide (body b = Some "*") then Ok msg
  else populate discard msg (filter (λ kv, ¬ bound_key b kv.1) form).
Proof.
  intros E. pose proof (newTranscoder_transcodes b tr E) as (_ & _ & _ & Eb).
  unfold transcodeQueryParams. rewrite Eb. case_bool_decide as Hd; [by rewrite decide_True|].
  rewrite decide_False by done. revert msg. induction form as [|[key values] form IH]; intros msg; [done|].
  simpl. destruct (newTranscoder_dat b tr key E) as (r & -> & Hr). rewrite filter_cons. simpl.
  destruct r.
  - rewrite decide_False by (intros Hn; by apply Hn, Hr). apply IH.
  - rewrite decide_True by (intros Hn%Hr; done). simpl.
    destruct (PopulateMessage msg (split_path key) values) as [msg' [e|]]; [|apply IH].
    destruct (_ || _); [done|apply IH].
Qed.

End query_spec.

(** ** Examples *)

Module RouterExamples.

Definition pattern_of (s : string) : Pattern :=
  MkPattern (match Parse (str_bytes s) with Ok t => t | _ => MkTemplate [] [] end) (str_bytes s).

Definition get (n s : string) : Binding := MkBinding n "GET" (pattern_of s) None.

Definition books : list Binding :=
  [get "GetBook" "/v1/books/{id}"; get "TopBook" "/v1/books/top"; get "List" "/v1/{parent=shelves/*}/books";
   get "Archive" "/v1/books/{id}:archive"].

Definition router : Router :=
  match AddImplBindings NewRouter books with Ok r => r | _ => NewRouter end.

Lemma books_enforced : Forall enforced books.
Proof.
  repeat constructor.
Qed.

Definition found (path : string) : option string :=
  match findTranscoder router "GET" (str_bytes path) with
  | Ok (Some (tr, _)) => Some (name tr)
  | _ => None
  end.

(** A static segment goes before a parameter; a template with a wildcard before its end is not
    found by the trie but by trying the templates in turn. *)
Example routes : found "/v1/books/top" = Some "TopBook" ∧ found "/v1/books/1" = Some "GetBook" ∧
  found "/v1/shelves/2/books" = Some "List" ∧ found "/v2" = None.
Proof. by vm_compute. Qed.

Lemma findTranscoder_complete_witness :
  ∃ tr cap, findTranscoder router "GET" (str_bytes "/v1/shelves/2/books") = Ok (Some (tr, cap)) ∧
    ∃ b, b ∈ books ∧ HTTPMethod b = "GET" ∧ transcodes b tr.
Proof.
  assert (AddImplBindings NewRouter books = Ok router) as E by (vm_compute; reflexivity).
  destruct (findTranscoder_complete books router "GET" (str_bytes "/v1/shelves/2/books") E books_enforced)
    as ([[tr cap]|] & Hf & H).
  - destruct H as (b & Hb & Hm & Ht & _). exists tr, cap. split; [exact Hf|].
    exists b. split; [exact Hb|]. split; [exact Hm|exact Ht].
  - exfalso. clear H. vm_compute in Hf. discriminate Hf.
Defined.

Lemma search_best_witness :
  ∃ tr, search (routerTrie router) "GET" (str_bytes "/v1/books/top") = Ok (Some tr) ∧
    ∃ before b after, filter (λ b, HTTPMethod b = "GET") books = before ++ b :: after ∧
      transcodes b tr ∧ seg_match (shapes b) (path_segments (str_bytes "/v1/books/top")).
Proof.
  assert (AddImplBindings NewRouter books = Ok router) as E by (vm_compute; reflexivity).
  destruct (search_best books router "GET" (str_bytes "/v1/books/top") E books_enforced)
    as ([tr|] & Hf & H).
  - destruct H as (before & b & after & H1 & H2 & H3 & _). exists tr. split; [exact Hf|]. exists before, b, after.
    split; [exact H1|]. split; [exact H2|exact H3].
  - exfalso. clear H. vm_compute in Hf. discriminate Hf.
Defined.

(** A message is here the list of the parameters that populate it. *)
Definition record (msg : list (list string)) (path : list string) (values : list string)
    : list (list string) * option error := (msg ++ [path], None).

Lemma transcodeQueryParams_bound_witness :
  ∃ tr, newTranscoder (get "GetBook" "/v1/books/{book.id}") = Ok tr ∧
    transcodeQueryParams record (Plain "not found") (λ _ _, false) tr false []
      [("book.id", ["7"]); ("book.theme", ["x"]); ("book.id.raw", ["8"]); ("page", ["1"])]
    = Ok [["book"; "theme"]; ["page"]].
Proof.
  set (b := get "GetBook" "/v1/books/{book.id}").
  set (tr := match newTranscoder b with Ok tr => tr | _ => MkTranscoder "" "" (pattern b) None None end).
  assert (newTranscoder b = Ok tr) as E by (vm_compute; reflexivity).
  exists tr. split; [exact E|].
  rewrite (transcodeQueryParams_bound record (Plain "not found") (λ _ _, false) b tr false [] _ E).
  clear E. vm_compute. reflexivity.
Defined.

End RouterExamples.
