(* ===== verification/Service.v ===== *)
(** The path of a request through a service (server/service.go, server/full_link_timeout.go,
    filter/filter.go), with the registries of serializers and compressors (codec/serialization.go,
    codec/compress.go) and the callers of the service in the TCP transport
    (transport/server_transport_tcp.go).

    A computation takes the environment of one request and may panic.  The environment has the
    message of the call, the world [W] that codec, filters and handlers see, and the shared errors:
    an [*errs.Error] that several holders point to is an address of the heap, since the code both
    compares such pointers and writes through them.  What is not code of the repository - the
    handlers, filters, formats, overload control - are parameters or arguments. *)

From S2P Require Import Prelude GoStrings Pb Errs Frame Msg StreamCodec UnaryCodec Router.

(** ** Error values

    [Shared l] is a pointer to the [*errs.Error] at [l], for example one of the error variables of
    package errs; [Own e] is an error that only its holder points to. *)
Inductive go_err := Shared (l : positive) | Own (e : error).

#[global] Instance go_err_eq_dec : EqDecision go_err.
Proof. solve_decision. Defined.

(** Addresses of the error variables of package errs. *)
Definition ErrServerNoResponse : go_err := Shared 1.
Definition ErrServerTimeout : go_err := Shared 2.
Definition ErrServerRoutinePoolBusy : go_err := Shared 3.

(** ** Contexts

    A context is its deadline; what else the service reads off a context is in the environment
    of the request. *)
Record CallContext := MkContext { deadline : option Z }.

Definition WithTimeout (now : Z) (ctx : CallContext) (timeout : Z) : CallContext :=
  let d := (now + timeout)%Z in
  MkContext (Some (match deadline ctx with Some old => Z.min old d | None => d end)).

(** ** Registries of formats *)

Definition SerializationTypePB : Z := 0.
Definition SerializationTypeUnsupported : Z := 128.
Definition CompressTypeNoop : Z := 0.

Definition IsValidSerializationType (t : Z) : bool := (SerializationTypePB <=? t)%Z.
Definition IsValidCompressType (t : Z) : bool := (CompressTypeNoop <=? t)%Z.

Record Compressor := MkCompressor {
  compress : bytes → result bytes;
  decompress : bytes → result bytes
}.

Section compressors.
Variable compressors : gmap Z Compressor.

Definition Compress (compressorType : Z) (input : bytes) : result bytes :=
  if (compressorType =? CompressTypeNoop)%Z then Ok input else
  if (zlen input =? 0)%Z then Ok [] else
  match compressors !! compressorType with
  | None => Err (Plain "compressor not registered")
  | Some c => compress c input
  end.

Definition Decompress (compressorType : Z) (input : bytes) : result bytes :=
  if (compressorType =? CompressTypeNoop)%Z then Ok input else
  if (zlen input =? 0)%Z then Ok [] else
  match compressors !! compressorType with
  | None => Err (Plain "compressor not registered")
  | Some c => decompress c input
  end.
End compressors.

(** Requests and responses are values of types [Q] and [B]; [Unmarshal] fills the value that it is
    given, also when it fails. *)
Record Serializer (Q B : Type) := MkSerializer {
  ser_Unmarshal : bytes → Q → Q * result ();
  ser_Marshal : B → result bytes
}.
Arguments MkSerializer {Q B}.
Arguments ser_Unmarshal {Q B}.
Arguments ser_Marshal {Q B}.

Section serializers.
Context {Q B : Type}.
Variable serializers : gmap Z (Serializer Q B).

(** The body of a request is never a nil interface. *)
Definition Unmarshal (serializationType : Z) (input : bytes) (body : Q) : Q * result () :=
  if (zlen input =? 0)%Z then (body, Ok ()) else
  if (serializationType =? SerializationTypeUnsupported)%Z then (body, Ok ()) else
  match serializers !! serializationType with
  | None => (body, Err (Plain "serializer not registered"))
  | Some s => ser_Unmarshal s input body
  end.

Definition Marshal (serializationType : Z) (body : option B) : result bytes :=
  match body with
  | None => Ok []
  | Some body =>
    if (serializationType =? SerializationTypeUnsupported)%Z then Ok [] else
    match serializers !! serializationType with
    | None => Err (Plain "serializer not registered")
    | Some s => ser_Marshal s body
    end
  end.
End serializers.

(** ** The environment of a request

    [preUnmarshal] is the value that the keep-order transport puts into the context of the request:
    [Stored] with [ReqBody]. *)
Record Env (W Q : Type) := MkEnv {
  heap : gmap positive error;
  emsg : msg;
  world : W;
  preUnmarshal : option (bool * option Q)
}.
Arguments MkEnv {W Q}.
Arguments heap {W Q}.
Arguments emsg {W Q}.
Arguments world {W Q}.
Arguments preUnmarshal {W Q}.

#[global] Instance eta_Env {W Q} : Eta (Env W Q) := λ e,
  MkEnv (heap e) (emsg e) (world e) (preUnmarshal e).

(** Computations over a state [S]; [None] is a panic. *)
Definition M (S A : Type) : Type := S → option A * S.

#[global] Instance M_ret {S} : MRet (M S) := λ _ x s, (Some x, s).
#[global] Instance M_bind {S} : MBind (M S) := λ _ _ f m s,
  match m s with (Some x, s) => f x s | (None, s) => (None, s) end.

Definition panic {S A} : M S A := λ s, (None, s).
Definition gets {S A} (f : S → A) : M S A := λ s, (Some (f s), s).
Definition modify {S} (f : S → S) : M S () := λ s, (Some (), f s).

Lemma gets_bind {S A B} (f : S → A) (k : A → M S B) s : (gets f ≫= k) s = k (f s) s.
Proof. done. Qed.

(** A deferred action: it runs whether or not the body panics. *)
Definition deferred {S A} (m : M S A) (f : S → S) : M S A := λ s, let '(r, s) := m s in (r, f s).

(** A Go function of the model that is not a computation. *)
Definition of_result {S A} (r : result A) : M S (A + error) :=
  match r with Ok x => mret (inl x) | Err e => mret (inr e) | Panic => panic end.

(** ** Filter chains (filter/filter.go); the spans of rpcz around each filter are left out. *)

Section filters.
Context {W Q B : Type}.

Definition rsp_err : Type := option B * option go_err.

Definition ServerHandleFunc : Type := CallContext → Q → M (Env W Q) rsp_err.
Definition ServerFilter : Type := CallContext → Q → ServerHandleFunc → M (Env W Q) rsp_err.
Definition ServerChain : Type := list ServerFilter.

Definition NoopServerFilter : ServerFilter := λ ctx req next, next ctx req.

(** The loop of [Filter], from the last filter to the first. *)
Fixpoint Filter_loop (reversed : ServerChain) (nextF : ServerHandleFunc) : ServerHandleFunc :=
  match reversed with
  | [] => nextF
  | curFilter :: reversed => Filter_loop reversed (λ ctx req, curFilter ctx req nextF)
  end.

Definition Filter (c : ServerChain) (ctx : CallContext) (req : Q) (next : ServerHandleFunc)
    : M (Env W Q) rsp_err :=
  Filter_loop (rev c) next ctx req.

(** *** Server timeouts (server/full_link_timeout.go) *)

Section codes.
Context `{PbEnum}.

Definition with_code (code : Z) (e : error) : error :=
  match e with
  | Status t _ m d => Status t code m d
  | StatusOf t _ m d cause => StatusOf t code m d cause
  | e => e
  end.

(** What the pointer or the interface holds. *)
Definition deref (h : gmap positive error) (e : go_err) : error :=
  match e with Shared l => default NilStatus (h !! l) | Own e => e end.

(** [e.Code = code] for the [*errs.Error] that [err] is. *)
Definition set_code (code : Z) (err : go_err) : M (Env W Q) go_err :=
  match err with
  | Own e => mret (Own (with_code code e))
  | Shared l =>
    _ ← modify (λ env, env <| heap := alter (with_code code) l (heap env) |>);
    mret err
  end.

(** Whether the code of the error is to be converted: a type assertion to [*errs.Error] that
    succeeds on a nil pointer makes [IsTimeout] panic. *)
Definition convertible (e : error) : result bool :=
  match e with
  | NilStatus => Panic
  | Status _ c _ _ | StatusOf _ c _ _ _ =>
    Ok (IsTimeout e ErrorTypeFramework && negb (c =? RetClientTimeout)%Z)
  | _ => Ok false
  end.

Definition convert_timeout (code : Z) (err : option go_err) : M (Env W Q) (option go_err) :=
  match err with
  | None => mret None
  | Some err =>
    h ← gets heap;
    match convertible (deref h err) with
    | Ok true => err ← set_code code err; mret (Some err)
    | Ok false => mret (Some err)
    | _ => panic
    end
  end.

Definition mayConvert2FullLinkTimeout : ServerFilter := λ ctx req next,
  '(rsp, err) ← next ctx req;
  err ← convert_timeout RetServerFullLinkTimeout err;
  mret (rsp, err).

Definition mayConvert2NormalTimeout : ServerFilter := λ ctx req next,
  '(rsp, err) ← next ctx req;
  err ← convert_timeout RetServerTimeout err;
  mret (rsp, err).
End codes.
End filters.
Arguments rsp_err : clear implicits.
Arguments ServerHandleFunc : clear implicits.
Arguments ServerFilter : clear implicits.
Arguments ServerChain : clear implicits.

(** ** Services *)

Record ServerCodec (W : Type) := MkCodec {
  codec_Decode : W → msg → bytes → result bytes * msg * W;
  codec_Encode : W → msg → bytes → result bytes * msg * W
}.
Arguments MkCodec {W}.
Arguments codec_Decode {W}.
Arguments codec_Encode {W}.

(** What the service uses of the language and of the registries of package codec: the kind of a
    request value and whether it may be assigned to another ([reflect]), its type in a text ([%T]), the
    clock, and the registered formats. *)
Class Runtime (W Q B : Type) := {
  is_pointer : Q → bool;
  is_nil : Q → bool;
  AssignableTo : Q → Q → bool;
  type_name : Q → string;
  now : W → Z;
  compressors : gmap Z Compressor;
  serializers : gmap Z (Serializer Q B)
}.

(** [T] is the type of the tokens of overload control, [St] of stream handlers (server.StreamHandler),
    [S] of service implementations, with the names of their Go types. *)
Section service.
Context {W Q B T St S : Type} `{PbEnum} `{!Runtime W Q B}.
Variable impl_name : S → string.

Definition FilterFunc : Type := Q → M (Env W Q) (Q * (ServerChain W Q B + go_err)).
Definition Handler : Type := CallContext → FilterFunc → M (Env W Q) (rsp_err B).

Record StreamServerInfo := MkStreamInfo {
  FullMethod : string;
  IsClientStream : bool;
  IsServerStream : bool
}.

Record StreamHandle := MkStreamHandle {
  StreamHandleFunc : CallContext → option St → option StreamServerInfo → option bytes →
                     M (Env W Q) (option B * option go_err);
  StreamInit : option error
}.

Record OverloadController := MkOverload {
  Acquire : CallContext → string → M (Env W Q) (T + error);
  OnResponse : T → CallContext → option go_err → M (Env W Q) ()
}.

Record Options := MkOptions {
  Namespace : string;
  EnvName : string;
  SetName : string;
  ServiceName : string;
  Timeout : Z;
  DisableRequestTimeout : bool;
  CurrentSerializationType : Z;
  CurrentCompressType : Z;
  OverloadCtrl : option OverloadController;
  Codec : option (ServerCodec W);
  Filters : ServerChain W Q B;
  opt_StreamHandle : option StreamHandle;
  CloseWaitTime : Z;
  opt_MaxCloseWaitTime : Z
}.

#[global] Instance eta_Options : Eta Options := λ o,
  MkOptions (Namespace o) (EnvName o) (SetName o) (ServiceName o) (Timeout o)
    (DisableRequestTimeout o) (CurrentSerializationType o) (CurrentCompressType o) (OverloadCtrl o)
    (Codec o) (Filters o) (opt_StreamHandle o) (CloseWaitTime o) (opt_MaxCloseWaitTime o).

Record service := MkService {
  opts : Options;
  handlers : gmap string Handler;
  streamHandlers : gmap string St;
  streamInfo : gmap string StreamServerInfo
}.

#[global] Instance eta_service : Eta service := λ s,
  MkService (opts s) (handlers s) (streamHandlers s) (streamInfo s).

Definition MaxCloseWaitTime : Z := 10 * 1000 * 1000000.

Definition defaultOptions : Options :=
  MkOptions "" "" "" "empty-name" 0 false (-1) (-1) None None [] None 0 0.

(** *** Decoding *)

Definition setOpt (s : service) (m : msg) : msg :=
  let m := WithNamespace m (Namespace (opts s)) in
  let m := WithEnvName m (EnvName (opts s)) in
  let m := WithSetName m (SetName (opts s)) in
  WithCalleeServiceName m (ServiceName (opts s)).

Definition upd_msg (f : msg → msg) : M (Env W Q) () := modify (λ env, env <| emsg := f (emsg env) |>).

(** A call of the codec on the message of the request. *)
Definition call_codec (f : W → msg → bytes → result bytes * msg * W) (buf : bytes)
    : M (Env W Q) (bytes + error) := λ env,
  let '(r, m, w) := f (world env) (emsg env) buf in
  of_result r (env <| emsg := m |> <| world := w |>).

Definition decode (s : service) (c : ServerCodec W) (reqBuf : bytes) : M (Env W Q) (bytes + error) :=
  _ ← upd_msg (setOpt s);
  r ← call_codec (codec_Decode c) reqBuf;
  match r with
  | inr e => mret (inr (NewFrameError RetServerDecodeFail ("service codec Decode: " +:+ Error e)))
  | inl reqBodyBuf => _ ← upd_msg (setOpt s); mret (inl reqBodyBuf)
  end.

Definition decompressAndUnmarshal (s : service) (m : msg) (reqBodyBuf : bytes) (reqBody : Q)
    : M (Env W Q) (Q * option error) :=
  let compressType := if IsValidCompressType (CurrentCompressType (opts s))
                      then CurrentCompressType (opts s) else msg_CompressType m in
  r ← of_result (Decompress compressors compressType reqBodyBuf);
  match r with
  | inr e => mret (reqBody, Some (NewFrameError RetServerDecodeFail
                                    ("service codec Decompress: " +:+ Error e)))
  | inl reqBodyBuf =>
    let serializationType := if IsValidSerializationType (CurrentSerializationType (opts s))
                             then CurrentSerializationType (opts s) else msg_SerializationType m in
    let '(reqBody, r) := Unmarshal serializers serializationType reqBodyBuf reqBody in
    r ← of_result r;
    match r with
    | inr e => mret (reqBody, Some (NewFrameError RetServerDecodeFail
                                      ("service codec Unmarshal: " +:+ Error e)))
    | inl _ => mret (reqBody, None)
    end
  end.

(** [assignPreUnmarshal]: the value that the destination gets. *)
Definition assignPreUnmarshal (dst : Q) (src : option Q) : Q * option error :=
  match src with
  | None => (dst, None)
  | Some src =>
    if negb (is_pointer dst) || is_nil dst
    then (dst, Some (Plain ("destination must be a non-nil pointer, got " +:+ type_name dst)))
    else if is_pointer src && is_nil src then (dst, None)
    else if negb (AssignableTo src dst) then (dst, Some (Plain ("cannot assign " +:+ type_name src +:+ " to " +:+ type_name dst)))
    else (src, None)
  end.

(** [filterFunc]: what the stub calls to read its request and to get the filters.  The message is
    read when the closure runs. *)
Definition filterFunc (s : service) (reqBodyBuf : bytes) (fixTimeout : option (ServerFilter W Q B))
    : FilterFunc := λ reqBody,
  env ← gets id;
  let filters := match fixTimeout with
    | Some f => Filters (opts s) ++ [f]
    | None => Filters (opts s)
    end in
  match preUnmarshal env with
  | Some (true, stored) =>
    match assignPreUnmarshal reqBody stored with
    | (reqBody, Some e) =>
      mret (reqBody, inr (Own (Wrapped "assigning pre-unmarshal value to stub error: " e)))
    | (reqBody, None) =>
      _ ← modify (λ env, env <| preUnmarshal := Some (true, None) |>);
      mret (reqBody, inl filters)
    end
  | pre =>
    '(reqBody, err) ← decompressAndUnmarshal s (emsg env) reqBodyBuf reqBody;
    match err, pre with
    | Some e, _ => mret (reqBody, inr (Own e))
    | None, Some _ =>
      _ ← modify (λ env, env <| preUnmarshal := Some (true, Some reqBody) |>);
      mret (reqBody, inl [λ _ _ _, mret (None, None)])
    | None, None => mret (reqBody, inl filters)
    end
  end.

(** *** Handling *)

(** The state around the environment: the counter of active requests, the [ReqBodyBuf] that the
    keep-order transport may put into the context, and the log of the tokens that overload control
    gave out and got back. *)
Inductive token_event := Acquired (t : T) | Responded (t : T) (err : option go_err).

Record SvcState := MkSvc {
  env : Env W Q;
  activeCount : Z;
  preDecode : option bytes;
  tokens : list token_event
}.

#[global] Instance eta_SvcState : Eta SvcState := λ s, MkSvc (env s) (activeCount s) (preDecode s) (tokens s).

Definition in_env {A} (m : M (Env W Q) A) : M SvcState A := λ s,
  let '(r, e) := m (env s) in (r, s <| env := e |>).

(** A deferred call that may panic itself. *)
Definition defer_call {A} (m : M SvcState A) (d : M SvcState ()) : M SvcState A := λ s,
  let '(r, s) := m s in
  match d s with (Some _, s) => (r, s) | (None, s) => (None, s) end.

(** [handle] calls these by the rpc name. *)
Definition find_handler (s : service) (name : string) : option Handler :=
  match handlers s !! name with Some h => Some h | None => handlers s !! "*" end.

Definition errNoFunc (m : msg) : go_err :=
  Own (NewFrameError RetServerNoFunc ("service handle: rpc name " +:+ msg_ServerRPCName m +:+
         " invalid, current service:" +:+ msg_CalleeServiceName m)).

Definition handleStream (s : service) (ctx : CallContext) (m : msg) (reqBuf : bytes) (sh : St)
    : M (Env W Q) (rsp_err B) :=
  match opt_StreamHandle (opts s) with
  | Some h => StreamHandleFunc h ctx (Some sh) (streamInfo s !! msg_ServerRPCName m) (Some reqBuf)
  | None => mret (None, Some (Own (NewFrameError RetServerNoService "Stream method no Handle")))
  end.

(** The timeout of a request: that of the service, or that of the caller if it is smaller, with the
    filter that names timeouts accordingly. *)
Definition request_timeout (o : Options) (m : msg) : Z * option (ServerFilter W Q B) :=
  let fixTimeout := if (0 <? Timeout o)%Z then Some mayConvert2NormalTimeout else None in
  if (0 <? msg_RequestTimeout m)%Z && negb (DisableRequestTimeout o) &&
     ((msg_RequestTimeout m <? Timeout o)%Z || (Timeout o =? 0)%Z)
  then (msg_RequestTimeout m, Some mayConvert2FullLinkTimeout)
  else (Timeout o, fixTimeout).

(** The framework error of a full-link timeout is not answered. *)
Definition full_link (e : error) : result bool :=
  match e with
  | NilStatus => Panic
  | Status t c _ _ | StatusOf t c _ _ _ =>
    Ok ((t =? ErrorTypeFramework)%Z && (c =? RetServerFullLinkTimeout)%Z)
  | _ => Ok false
  end.

Definition handle (s : service) (ctx : CallContext) (reqBodyBuf : bytes)
    : M (Env W Q) (rsp_err B) :=
  m ← gets emsg;
  match streamHandlers s !! msg_ServerRPCName m with
  | Some sh => handleStream s ctx m reqBodyBuf sh
  | None =>
    match find_handler s (msg_ServerRPCName m) with
    | None => mret (None, Some (errNoFunc m))
    | Some handler =>
      let '(timeout, fixTimeout) := request_timeout (opts s) m in
      t ← gets (λ env, now (world env));
      let ctx := if (0 <? timeout)%Z then WithTimeout t ctx timeout else ctx in
      '(rspBody, err) ← handler ctx (filterFunc s reqBodyBuf fixTimeout);
      match err with
      | Some err =>
        h ← gets heap;
        match full_link (deref h err) with
        | Ok true => mret (None, Some ErrServerNoResponse)
        | Ok false => mret (None, Some err)
        | _ => panic
        end
      | None =>
        m ← gets emsg;
        if (msg_CallType m =? TRPC_ONEWAY_CALL)%Z then mret (None, Some ErrServerNoResponse)
        else mret (rspBody, None)
      end
    end
  end.

Definition encode (c : ServerCodec W) (rspBodyBuf : bytes) (e : option go_err)
    : M (Env W Q) (bytes + go_err) :=
  h ← gets heap;
  _ ← match e with
      | Some e => upd_msg (λ m, WithServerRspErr m (Some (deref h e)))
      | None => mret ()
      end;
  r ← call_codec (codec_Encode c) rspBodyBuf;
  match r with inl rspBuf => mret (inl rspBuf) | inr e => mret (inr (Own e)) end.

Definition handleResponse (s : service) (c : ServerCodec W) (rspBody : option B)
    : M (Env W Q) (bytes + go_err) :=
  m ← gets emsg;
  let serializationType := if IsValidSerializationType (CurrentSerializationType (opts s))
                           then CurrentSerializationType (opts s) else msg_SerializationType m in
  r ← of_result (Marshal serializers serializationType rspBody);
  match r with
  | inr e => encode c [] (Some (Own (NewFrameError RetServerEncodeFail
                                       ("service codec Marshal: " +:+ Error e))))
  | inl rspBodyBuf =>
    let compressType := if IsValidCompressType (CurrentCompressType (opts s))
                        then CurrentCompressType (opts s) else msg_CompressType m in
    r ← of_result (Compress compressors compressType rspBodyBuf);
    match r with
    | inr e => encode c [] (Some (Own (NewFrameError RetServerEncodeFail
                                         ("service codec Compress: " +:+ Error e))))
    | inl rspBodyBuf => encode c rspBodyBuf None
    end
  end.

(** The token of a controller that is not a no-op; [token.OnResponse]. *)
Definition acquire (s : service) (ctx : CallContext) (m : msg)
    : M SvcState (option (OverloadController * T) + error) :=
  match OverloadCtrl (opts s) with
  | None => mret (inl None)
  | Some oc =>
    let addr := from_option AddrString "" (msg_RemoteAddr m) in
    r ← in_env (Acquire oc ctx addr);
    match r with
    | inl t => _ ← modify (λ s, s <| tokens := tokens s ++ [Acquired t] |>); mret (inl (Some (oc, t)))
    | inr e => mret (inr e)
    end
  end.

Definition on_response (token : option (OverloadController * T)) (ctx : CallContext)
    (err : option go_err) : M SvcState () :=
  match token with
  | None => mret ()
  | Some (oc, t) =>
    _ ← modify (λ s, s <| tokens := tokens s ++ [Responded t err] |>);
    in_env (OnResponse oc t ctx err)
  end.

(** [Handle] from the decoded request on. *)
Definition Handle_decoded (s : service) (c : ServerCodec W) (ctx : CallContext) (reqBodyBuf : bytes)
    : M SvcState (bytes + go_err) :=
  m ← gets (emsg ∘ env);
  match ServerRspErr m with
  | Some e => in_env (encode c [] (Some (Own e)))
  | None =>
    r ← acquire s ctx m;
    match r with
    | inr e => in_env (encode c [] (Some (Own (NewFrameError RetServerOverload (Error e)))))
    | inl token =>
      '(rspbody, err) ← in_env (handle s ctx reqBodyBuf);
      match err with
      | Some err =>
        if decide (err = ErrServerNoResponse) then
          _ ← on_response token ctx None; mret (inr err)
        else defer_call (in_env (encode c [] (Some err))) (on_response token ctx (Some err))
      | None => defer_call (in_env (handleResponse s c rspbody)) (on_response token ctx None)
      end
    end
  end.

(** The body of the request, decoded now or before by the transport. *)
Definition request_body (s : service) (c : ServerCodec W) (reqBuf : bytes)
    : M SvcState (bytes + error) :=
  pre ← gets preDecode;
  match pre with
  | Some buf => _ ← modify (λ st, st <| preDecode := Some [] |>); mret (inl buf)
  | None => in_env (decode s c reqBuf)
  end.

Definition Handle_codec (s : service) (c : ServerCodec W) (ctx : CallContext) (reqBuf : bytes)
    : M SvcState (bytes + go_err) :=
  r ← request_body s c reqBuf;
  match r with
  | inr e => in_env (encode c [] (Some (Own e)))
  | inl reqBodyBuf => Handle_decoded s c ctx reqBodyBuf
  end.

Definition counted (o : Options) : bool :=
  (CloseWaitTime o <? opt_MaxCloseWaitTime o)%Z || (MaxCloseWaitTime <? opt_MaxCloseWaitTime o)%Z.

Definition Handle (s : service) (ctx : CallContext) (reqBuf : bytes) : M SvcState (bytes + go_err) :=
  let body := match Codec (opts s) with
    | None => mret (inr (Own (Plain "server codec empty")))
    | Some c => Handle_codec s c ctx reqBuf
    end in
  if counted (opts s) then
    _ ← modify (λ s, s <| activeCount := (activeCount s + 1)%Z |>);
    deferred body (λ s, s <| activeCount := (activeCount s - 1)%Z |>)
  else body.

Definition HandleClose (s : service) (ctx : CallContext) : M (Env W Q) (option go_err) :=
  m ← gets emsg;
  match ServerRspErr m, opt_StreamHandle (opts s) with
  | Some _, Some h => '(_, err) ← StreamHandleFunc h ctx None None None; mret err
  | _, _ => mret None
  end.

(** *** Before handling: keep-order requests *)

Definition PreDecode (s : service) (reqBuf : bytes) : M (Env W Q) (bytes + error) :=
  match Codec (opts s) with
  | None => mret (inr (Plain "server codec empty"))
  | Some c => decode s c reqBuf
  end.

Definition PreUnmarshal (s : service) (ctx : CallContext) (reqBuf : bytes)
    : M (Env W Q) (option Q + error) :=
  r ← PreDecode s reqBuf;
  match r with
  | inr e => mret (inr e)
  | inl reqBodyBuf =>
    m ← gets emsg;
    match find_handler s (msg_ServerRPCName m) with
    | None => h ← gets heap; mret (inr (deref h (errNoFunc m)))
    | Some handler =>
      pre ← gets preUnmarshal;
      match pre with
      | None => mret (inr (Plain "failed to get keeporder pre-unmarshal info"))
      | Some _ =>
        '(_, err) ← handler ctx (filterFunc s reqBodyBuf None);
        env ← gets id;
        match err with
        | Some e => mret (inr (Wrapped "do handler during pre-unmarshal error: " (deref (heap env) e)))
        | None => mret (inl (preUnmarshal env ≫= snd))
        end
      end
    end
  end.

(** *** Stubs

    The code generated for a unary method (test/protocols/test.trpc.go): [req] is the new request
    value, [impl] the method of the service. *)
Definition stub (req : Q) (impl : ServerHandleFunc W Q B) : Handler := λ ctx f,
  '(req, r) ← f req;
  match r with
  | inr err => mret (None, Some err)
  | inl filters =>
    '(rsp, err) ← Filter filters ctx req impl;
    match err with Some err => mret (None, Some err) | None => mret (rsp, None) end
  end.

(** *** Registration *)

Record Method := MkMethod { mname : string; Func : option S → Handler; Bindings : list Binding }.
Record StreamDesc := MkStreamDesc {
  StreamName : string;
  stream_Handler : option S → St;
  ServerStreams : bool;
  ClientStreams : bool
}.
Record ServiceDesc := MkServiceDesc {
  HandlerType : string;
  implements : S → bool;
  Methods : list Method;
  Streams : list StreamDesc;
  desc_StreamHandle : option StreamHandle
}.

Definition errNotImplements (desc : ServiceDesc) (impl : S) : error :=
  Plain (impl_name impl +:+ " not implements interface " +:+ HandlerType desc).

Definition check_implements (desc : ServiceDesc) (impl : option S) : option error :=
  match impl with
  | Some i => if implements desc i then None else Some (errNotImplements desc i)
  | None => None
  end.

(** The loop over the methods, and the one over the streams; a duplicate name leaves the methods
    before it registered. *)
Fixpoint register_methods (s : service) (impl : option S) (ms : list Method)
    : service * option error :=
  match ms with
  | [] => (s, None)
  | m :: ms =>
    match handlers s !! mname m with
    | Some _ => (s, Some (Plain ("duplicate method name: " +:+ mname m)))
    | None => register_methods (s <| handlers := <[mname m := Func m impl]> (handlers s) |>) impl ms
    end
  end.

Fixpoint register_streams (s : service) (impl : option S) (ss : list StreamDesc)
    : service * option error :=
  match ss with
  | [] => (s, None)
  | d :: ss =>
    let n := StreamName d in
    match streamHandlers s !! n with
    | Some _ => (s, Some (Plain ("duplicate stream name: " +:+ n)))
    | None =>
      let info := MkStreamInfo n (ClientStreams d) (ServerStreams d) in
      register_streams (s <| streamInfo := <[n := info]> (streamInfo s) |>
                          <| streamHandlers := <[n := stream_Handler d impl]> (streamHandlers s) |>)
        impl ss
    end
  end.

(** A binding that fails leaves those before it. *)
Fixpoint add_bindings (r : Router) (bs : list Binding) : Router * result () :=
  match bs with
  | [] => (r, Ok ())
  | b :: bs =>
    match AddImplBinding r b with
    | Ok r => add_bindings r bs
    | Err e => (r, Err e)
    | Panic => (r, Panic)
    end
  end.

(** The routers of package restful: [None] is an [http.Handler] that is not a [*restful.Router]. *)
Abbreviation Routers := (gmap string (option Router)).

Definition createOrUpdateRouter (s : service) (bs : list Binding) (rs : Routers)
    : Routers * result () :=
  match bs with
  | [] => (rs, Ok ())
  | _ =>
    let n := ServiceName (opts s) in
    match rs !! n with
    | Some (Some router) =>
      let '(router, r) := add_bindings router bs in
      (<[n := Some router]> rs,
       match r with
       | Err e => Err (Wrapped "add impl binding during service registration: " e)
       | r => r
       end)
    | _ =>
      match add_bindings NewRouter bs with
      | (router, Ok _) => (<[n := Some router]> rs, Ok ())
      | (_, r) => (rs, r)
      end
    end
  end.

(** [Register] with a [*ServiceDesc]; the transport of streams and the options of the listener, which it
    also sets, are not part of the model. *)
Definition Register (s : service) (rs : Routers) (desc : ServiceDesc) (impl : option S)
    : service * Routers * result () :=
  let s := match desc_StreamHandle desc with
    | Some h => s <| opts := opts s <| opt_StreamHandle := Some h |> |>
    | None => s
    end in
  match desc_StreamHandle desc ≫= StreamInit with
  | Some e => (s, rs, Err e)
  | None =>
    match check_implements desc impl with Some e => (s, rs, Err e) | None =>
    match register_methods s impl (Methods desc) with
    | (s, Some e) => (s, rs, Err e)
    | (s, None) =>
      match register_streams s impl (Streams desc) with
      | (s, Some e) => (s, rs, Err e)
      | (s, None) =>
        let '(rs, r) := createOrUpdateRouter s (concat (Bindings <$> Methods desc)) rs in (s, rs, r)
      end
    end
    end
  end.

(** *** The TCP transport

    What becomes of a request: its response is written, it has none, the connection is closed, or
    the panic of a keep-order task is recovered. *)
Inductive outcome := Written (rsp : bytes) | Quiet | Closed | Recovered.

Record tcpconn := MkTcpConn {
  conn_localAddr : option Addr;
  conn_remoteAddr : option Addr;
  keepOrderPreDecodeExtractor : option (Env W Q → bytes → option string);
  keepOrderPreUnmarshalExtractor : option (Env W Q → option Q → option string)
}.

Definition background : CallContext := MkContext None.

(** The environment of a new request: a new message, and a context with the values given. *)
Definition new_request (m : msg) (pre : option bytes) (un : option (bool * option Q))
    : M SvcState () :=
  modify (λ s, s <| env := env s <| emsg := m |> <| preUnmarshal := un |> |> <| preDecode := pre |>).

Definition handleSyncWithErrAndContext (c : tcpconn) (s : service) (req : bytes) (e : option go_err)
    : M SvcState outcome :=
  h ← gets (heap ∘ env);
  _ ← in_env (upd_msg (λ m,
        WithRemoteAddr (WithLocalAddr (WithServerRspErr m (deref h <$> e)) (conn_localAddr c))
          (conn_remoteAddr c)));
  r ← Handle s background req;
  match r with
  | inl rsp => mret (Written rsp)
  | inr err => mret (if decide (err = ErrServerNoResponse) then Quiet else Closed)
  end.

Definition handleSyncWithErr (c : tcpconn) (s : service) (req : bytes) (e : option go_err)
    : M SvcState outcome :=
  _ ← new_request zero_msg None None;
  handleSyncWithErrAndContext c s req e.

(** A task of [orderedGroups] works on the message and the context of its request. *)
Definition task (c : tcpconn) (s : service) (req : bytes) (m : msg) (pre : option bytes)
    (un : option (bool * option Q)) : M SvcState outcome := λ st,
  match (_ ← new_request m pre un; handleSyncWithErrAndContext c s req None) st with
  | (None, st) => (Some Recovered, st)
  | r => r
  end.

(** The key and the task, or [None] if the request is handled without order. *)
Definition handleKeepOrderPreDecode (c : tcpconn) (s : service)
    (extractor : Env W Q → bytes → option string) (req : bytes)
    : M SvcState (option (string * M SvcState outcome)) :=
  _ ← new_request zero_msg None None;
  r ← in_env (PreDecode s req);
  match r with
  | inr _ => mret None
  | inl reqBody =>
    e ← gets env;
    match extractor e reqBody with
    | None => mret None
    | Some key => mret (Some (key, task c s req (emsg e) (Some reqBody) None))
    end
  end.

Definition handleKeepOrderPreUnmarshal (c : tcpconn) (s : service)
    (extractor : Env W Q → option Q → option string) (req : bytes)
    : M SvcState (option (string * M SvcState outcome)) :=
  _ ← new_request zero_msg None (Some (false, None));
  r ← in_env (PreUnmarshal s background req);
  match r with
  | inr _ => mret None
  | inl reqBody =>
    e ← gets env;
    match extractor e reqBody with
    | None => mret None
    | Some key => mret (Some (key, task c s req (emsg e) None (preUnmarshal e)))
    end
  end.

(** How a request goes on: as a task of its key, or at once.  [pool] is whether the connection
    has a goroutine pool, and if so whether the pool takes the job. *)
Definition tcp_handle (c : tcpconn) (s : service) (pool : option bool) (req : bytes)
    : M SvcState (option string * M SvcState outcome) :=
  pre ← match keepOrderPreDecodeExtractor c with
        | Some ex => handleKeepOrderPreDecode c s ex req
        | None => mret None
        end;
  pre ← match pre, keepOrderPreUnmarshalExtractor c with
        | None, Some ex => handleKeepOrderPreUnmarshal c s ex req
        | pre, _ => mret pre
        end;
  mret match pre with
       | Some (key, t) => (Some key, t)
       | None => (None, handleSyncWithErr c s req
                          (match pool with Some false => Some ErrServerRoutinePoolBusy | _ => None end))
       end.

(** ** Accounting

    Whatever happens to a request, a panic included, the counter of active requests is as before;
    a request has at most one token of overload control, and unless it panics the token is given
    back once. *)

(** The log that [Handle] adds, for the outcome [r]. *)
Definition log_ok {A} (r : option A) (l : list token_event) : Prop :=
  match l with
  | [] => True
  | [Acquired t; Responded t' _] => t' = t
  | [Acquired _] => r = None
  | _ => False
  end.

(** What a step does to the state around the environment. *)
Definition adds {A} (m : M SvcState A) (P : option A → list token_event → Prop) : Prop :=
  ∀ st, let '(r, st') := m st in
    activeCount st' = activeCount st ∧ ∃ l, tokens st' = tokens st ++ l ∧ P r l.

Lemma adds_weaken {A} (m : M SvcState A) (P R : option A → list token_event → Prop) :
  (∀ r l, P r l → R r l) → adds m P → adds m R.
Proof. intros HPR Hm st. specialize (Hm st). destruct (m st) as [r st']. naive_solver. Qed.

Lemma adds_in_env {A} (m : M (Env W Q) A) : adds (in_env m) (λ _ l, l = []).
Proof.
  intros st. unfold in_env. destruct (m (env st)) as [r e]. split; [done|].
  exists []. by rewrite app_nil_r.
Qed.

Lemma adds_ret {A} (x : A) : adds (mret x) (λ r l, r = Some x ∧ l = []).
Proof. intros st. split; [done|]. exists []. by rewrite app_nil_r. Qed.

Lemma adds_gets {A} (f : SvcState → A) : adds (gets f) (λ _ l, l = []).
Proof. intros st. split; [done|]. exists []. by rewrite app_nil_r. Qed.

Lemma adds_bind {A C} (m : M SvcState A) (k : A → M SvcState C)
    (P : option A → list token_event → Prop) (R : option C → list token_event → Prop) :
  adds m P →
  (∀ l, P None l → R None l) →
  (∀ x l, P (Some x) l → adds (k x) (λ r l', R r (l ++ l'))) →
  adds (x ← m; k x) R.
Proof.
  intros Hm Hnone Hk st. specialize (Hm st). unfold mbind, M_bind.
  destruct (m st) as [[x|] st1]; destruct Hm as (Ha & l & Hl & HP); [|naive_solver].
  specialize (Hk x l HP st1). destruct (k x st1) as [r st2].
  destruct Hk as (Ha2 & l' & Hl' & HR). split; [congruence|].
  exists (l ++ l'). by rewrite Hl', Hl, app_assoc.
Qed.

Lemma adds_quiet {A C} (m : M SvcState A) (k : A → M SvcState C) R :
  adds m (λ _ l, l = []) → R None [] → (∀ x, adds (k x) R) → adds (x ← m; k x) R.
Proof.
  intros Hm Hn Hk. eapply adds_bind; [exact Hm|by intros ? ->|].
  intros x l ->. apply Hk.
Qed.

Lemma adds_defer {A} (m : M SvcState A) (d : M SvcState ()) P R :
  adds m (λ _ l, l = []) → adds d P →
  (∀ l, P None l → R None l) → (∀ r l, P (Some ()) l → R r l) →
  adds (defer_call m d) R.
Proof.
  intros Hm Hd Hn Hs st. specialize (Hm st). unfold defer_call.
  destruct (m st) as [r st1]. destruct Hm as (Ha & ? & Hl & ->). rewrite app_nil_r in Hl.
  specialize (Hd st1). destruct (d st1) as [[[]|] st2]; destruct Hd as (Ha2 & l & Hl2 & HP);
    (split; [congruence|]); exists l; rewrite Hl2, Hl; auto.
Qed.

Definition responded (token : option (OverloadController * T)) (err : option go_err)
    : list token_event :=
  match token with Some (_, t) => [Responded t err] | None => [] end.

Definition acquired (token : option (OverloadController * T)) : list token_event :=
  match token with Some (_, t) => [Acquired t] | None => [] end.

Lemma adds_on_response token ctx err : adds (on_response token ctx err) (λ _ l, l = responded token err).
Proof.
  destruct token as [[oc t]|]; simpl;
    [|eapply adds_weaken; [|apply adds_ret]; by intros r l [_ ->]].
  intros st. unfold mbind, M_bind, modify. pose proof (adds_in_env (OnResponse oc t ctx err)
    (st <| tokens := tokens st ++ [Responded t err] |>)) as Hd.
  destruct (in_env _ _) as [r st']. destruct Hd as (Ha & l & Hl & ->). rewrite app_nil_r in Hl.
  split; [exact Ha|]. by exists [Responded t err].
Qed.

Lemma adds_acquire s ctx m :
  adds (acquire s ctx m) (λ r l, match r with
    | Some (inl token) => l = acquired token
    | _ => l = []
    end).
Proof.
  unfold acquire. destruct (OverloadCtrl (opts s)) as [oc|].
  - apply adds_quiet; [apply adds_in_env|done|]. intros [t|e].
    + intros st. simpl. split; [done|]. by exists [Acquired t].
    + eapply adds_weaken; [|apply adds_ret]. by intros r l [-> ->].
  - eapply adds_weaken; [|apply adds_ret]. by intros r l [-> ->].
Qed.

Lemma adds_Handle_decoded s c ctx buf : adds (Handle_decoded s c ctx buf) log_ok.
Proof.
  apply adds_quiet; [apply adds_gets|done|]. intros m.
  destruct (ServerRspErr m) as [e|].
  { eapply adds_weaken; [|apply adds_in_env]. by intros ? ? ->. }
  eapply adds_bind; [apply adds_acquire|by intros ? ->|]. intros [token|e] l ->; cycle 1.
  { eapply adds_weaken; [|apply adds_in_env]. by intros ? ? ->. }
  eapply adds_bind; [apply adds_in_env|by intros ? ->; destruct token as [[]|]|].
  intros [rspbody [err|]] l ->; simpl; [case_decide|].
  - eapply adds_bind; [apply adds_on_response|by intros ? ->; destruct token as [[]|]|].
    intros [] l ->. eapply adds_weaken; [|apply adds_ret].
    intros r l [-> ->]. by destruct token as [[]|].
  - eapply adds_defer; [apply adds_in_env|apply adds_on_response|intros l ->|intros r l ->];
      by destruct token as [[]|].
  - eapply adds_defer; [apply adds_in_env|apply adds_on_response|intros l ->|intros r l ->];
      by destruct token as [[]|].
Qed.

Lemma adds_request_body s c buf : adds (request_body s c buf) (λ _ l, l = []).
Proof.
  apply adds_quiet; [apply adds_gets|done|]. intros [b|]; [|apply adds_in_env].
  intros st. split; [done|]. exists []. by rewrite app_nil_r.
Qed.

Lemma adds_Handle s ctx buf : adds (Handle s ctx buf) log_ok.
Proof.
  unfold Handle. set (body := match Codec (opts s) with None => _ | Some c => _ end).
  assert (adds body log_ok) as Hb.
  { unfold body. destruct (Codec (opts s)) as [c|].
    - apply adds_quiet; [apply adds_request_body|done|]. intros [b|e]; [apply adds_Handle_decoded|].
      eapply adds_weaken; [|apply adds_in_env]. by intros ? ? ->.
    - eapply adds_weaken; [|apply adds_ret]. by intros ? ? [-> ->]. }
  destruct (counted (opts s)); [|done]. intros st. unfold mbind, M_bind, modify, deferred.
  specialize (Hb (st <| activeCount := (activeCount st + 1)%Z |>)).
  destruct (body _) as [r st']. destruct Hb as (Ha & l & Hl & HP).
  split; [simpl in *; lia|]. by exists l.
Qed.

(** C20. Every request is accounted for: whether it is answered, not answered or panics, the number of active
    requests is as before; and overload control is asked for at most one token, and gets back the one
    it gave exactly once, unless the request panics.  Then the token can be lost ([panic_keeps_token]): the
    response to overload control is deferred only after the handler has returned. *)
Theorem Handle_balanced (s : service) (ctx : CallContext) (reqBuf : bytes) (st : SvcState)
    (r : option (bytes + go_err)) (st' : SvcState) :
  Handle s ctx reqBuf st = (r, st') →
  activeCount st' = activeCount st ∧
  ∃ l, tokens st' = tokens st ++ l ∧
    match l with
    | [] => True
    | [Acquired t; Responded t' _] => t' = t
    | [Acquired _] => r = None
    | _ => False
    end.
Proof. intros E. pose proof (adds_Handle s ctx reqBuf st) as Ha. by rewrite E in Ha. Qed.

(** ** Filters *)

Lemma Filter_loop_app (l k : ServerChain W Q B) next :
  Filter_loop (l ++ k) next = Filter_loop k (Filter_loop l next).
Proof. revert next. induction l as [|f l IH]; intros next; [done|]. apply IH. Qed.

Lemma Filter_app (c1 c2 : ServerChain W Q B) ctx req next :
  Filter (c1 ++ c2) ctx req next = Filter c1 ctx req (λ ctx req, Filter c2 ctx req next).
Proof. unfold Filter. by rewrite rev_app_distr, Filter_loop_app. Qed.

(** The filters of a chain are nested: the first is the outermost and decides whether, and with
    what, the others run. *)
Theorem Filter_nested (c : ServerChain W Q B) (ctx : CallContext) (req : Q)
    (next : ServerHandleFunc W Q B) :
  Filter c ctx req next = foldr (λ f nextF ctx req, f ctx req nextF) next c ctx req.
Proof.
  assert (Filter_loop (rev c) next = foldr (λ f nextF ctx req, f ctx req nextF) next c) as E;
    [|unfold Filter; by rewrite E].
  induction c as [|f c IH]; [done|].
  simpl. rewrite Filter_loop_app, IH. done.
Qed.

(** ** Timeouts *)

(** A request that a stub serves: [impl] is to be called with the request [q]. *)
Record served (s : service) (e : Env W Q) (buf : bytes) (impl : ServerHandleFunc W Q B) (q : Q) := {
  served_unary : streamHandlers s !! msg_ServerRPCName (emsg e) = None;
  served_handler : ∃ q0, find_handler s (msg_ServerRPCName (emsg e)) = Some (stub q0 impl) ∧
    decompressAndUnmarshal s (emsg e) buf q0 e = (Some (q, None), e);
  served_plain : preUnmarshal e = None
}.

(** The context of the handler. *)
Definition request_ctx (s : service) (ctx : CallContext) (e : Env W Q) : CallContext :=
  let timeout := (request_timeout (opts s) (emsg e)).1 in
  if (0 <? timeout)%Z then WithTimeout (now (world e)) ctx timeout else ctx.

Definition request_chain (s : service) (e : Env W Q) : ServerChain W Q B :=
  match (request_timeout (opts s) (emsg e)).2 with
  | Some f => Filters (opts s) ++ [f]
  | None => Filters (opts s)
  end.

(** What [handle] makes of the outcome of the handler. *)
Definition handled (e : Env W Q) (r : rsp_err B) : option (rsp_err B) :=
  match r with
  | (_, Some err) =>
    match full_link (deref (heap e) err) with
    | Ok true => Some (None, Some ErrServerNoResponse)
    | Ok false => Some (None, Some err)
    | _ => None
    end
  | (rsp, None) => if (msg_CallType (emsg e) =? TRPC_ONEWAY_CALL)%Z
                   then Some (None, Some ErrServerNoResponse) else Some (rsp, None)
  end.

Lemma handle_served s ctx e buf impl q :
  served s e buf impl q →
  handle s ctx buf e =
  match Filter (request_chain s e) (request_ctx s ctx e) q impl e with
  | (Some r, e') => (handled e' r, e')
  | (None, e') => (None, e')
  end.
Proof.
  intros [Hs (q0 & Hh & Hd) Hp]. unfold handle, request_chain, request_ctx.
  unfold mbind at 1, M_bind at 1, gets at 1. rewrite Hs, Hh.
  destruct (request_timeout (opts s) (emsg e)) as [timeout fixTimeout]. simpl fst. simpl snd.
  unfold stub, filterFunc, gets, mbind, M_bind, mret, M_ret. simpl. rewrite Hp, Hd.
  set (chain := match fixTimeout with Some f => _ | None => _ end).
  destruct (Filter chain _ q impl e) as [[[rsp [err|]]|] e']; simpl; [..|done].
  - destruct (full_link (deref (heap e') err)) as [[]| |]; done.
  - by destruct (msg_CallType (emsg e') =? TRPC_ONEWAY_CALL)%Z.
Qed.

#[local] Arguments IsTimeout : simpl never.

Lemma decompressAndUnmarshal_pure s m buf q0 :
  ∃ r, ∀ e : Env W Q, decompressAndUnmarshal s m buf q0 e = (r, e).
Proof.
  unfold decompressAndUnmarshal, mbind, M_bind, of_result.
  destruct (Decompress _ _ _) as [b|?|]; [|by eexists..].
  simpl. destruct (Unmarshal _ _ _ _) as [q' [[]| |]]; by eexists.
Qed.

(** The earlier of two deadlines that need not be there. *)
Definition earlier (a b : option Z) : option Z := union_with (λ x y, Some (Z.min x y)) a b.

Definition deadline_in (t timeout : Z) : option Z :=
  if (0 <? timeout)%Z then Some (t + timeout)%Z else None.

(** The timeout of the caller, if it counts. *)
Definition caller_timeout (s : service) (e : Env W Q) : Z :=
  if DisableRequestTimeout (opts s) then 0 else msg_RequestTimeout (emsg e).

(** Whether the timeout of the caller is the one in force. *)
Definition caller_governs (s : service) (e : Env W Q) : bool :=
  (0 <? caller_timeout s e)%Z &&
  ((caller_timeout s e <? Timeout (opts s))%Z || (Timeout (opts s) =? 0)%Z).

Lemma request_timeout_cases s e :
  request_timeout (opts s) (emsg e) =
  if caller_governs s e then (caller_timeout s e, Some mayConvert2FullLinkTimeout)
  else (Timeout (opts s), if (0 <? Timeout (opts s))%Z then Some mayConvert2NormalTimeout else None).
Proof.
  unfold request_timeout, caller_governs, caller_timeout.
  destruct (DisableRequestTimeout (opts s)); simpl; [by rewrite andb_false_r|].
  by rewrite andb_true_r.
Qed.

Lemma request_ctx_deadline s ctx e :
  (0 ≤ Timeout (opts s))%Z →
  deadline (request_ctx s ctx e) =
  earlier (deadline ctx) (earlier (deadline_in (now (world e)) (Timeout (opts s)))
                                  (deadline_in (now (world e)) (caller_timeout s e))).
Proof.
  intros HT. unfold request_ctx. rewrite request_timeout_cases.
  unfold caller_governs, deadline_in, earlier.
  destruct (0 <? caller_timeout s e)%Z eqn:E1, (0 <? Timeout (opts s))%Z eqn:E2; simpl;
    destruct (caller_timeout s e <? Timeout (opts s))%Z eqn:E3; simpl;
    destruct (Timeout (opts s) =? 0)%Z eqn:E4; simpl; rewrite ?E1, ?E2; simpl; bool_to_prop;
    try lia; destruct (deadline ctx); simpl; try done; apply (f_equal Some); lia.
Qed.

(** The handler's own error as [handle] leaves it. *)
Definition timeout_error (s : service) (e : Env W Q) (c : Z) (m d : string) : go_err :=
  if caller_governs s e then ErrServerNoResponse
  else if (0 <? Timeout (opts s))%Z then Own (Status ErrorTypeFramework RetServerTimeout m d)
  else if (c =? RetServerFullLinkTimeout)%Z then ErrServerNoResponse
  else Own (Status ErrorTypeFramework c m d).

(** C21. Timeouts: the handler's deadline is the earliest of those of the context, the service and
    the caller.  When the handler reports a timeout, other than that of a call of its own, the
    caller gets no response if it was the caller's time that ran out, and the code of a server
    timeout if it was the service's. *)
Theorem handle_timeouts `{!PbEnumOk} (s : service) (ctx : CallContext) (e e' : Env W Q) (buf : bytes)
    (impl : ServerHandleFunc W Q B) (q : Q) (rsp : option B) (c : Z) (m d : string) :
  served s e buf impl q → Filters (opts s) = [] → (0 ≤ Timeout (opts s))%Z →
  impl (request_ctx s ctx e) q e = (Some (rsp, Some (Own (Status ErrorTypeFramework c m d))), e') →
  IsTimeout (Status ErrorTypeFramework c m d) ErrorTypeFramework = true → c ≠ RetClientTimeout →
  handle s ctx buf e = (Some (None, Some (timeout_error s e c m d)), e') ∧
  deadline (request_ctx s ctx e) =
  earlier (deadline ctx) (earlier (deadline_in (now (world e)) (Timeout (opts s)))
                                  (deadline_in (now (world e)) (caller_timeout s e))).
Proof.
  intros Hs Hf HT Hi Ht Hc. split; [|by apply request_ctx_deadline].
  rewrite (handle_served _ _ _ _ _ _ Hs). unfold request_chain, timeout_error.
  rewrite request_timeout_cases, Hf. apply Z.eqb_neq in Hc.
  destruct (caller_governs s e); [|destruct (0 <? Timeout (opts s))%Z]; simpl snd; simpl app; cbv iota.
  - change (Filter [mayConvert2FullLinkTimeout] ?x q impl e)
      with (mayConvert2FullLinkTimeout x q impl e).
    unfold mayConvert2FullLinkTimeout, mbind, M_bind. rewrite Hi. simpl.
    unfold convert_timeout, mbind, M_bind, gets. simpl. rewrite Ht, Hc. simpl.
    by rewrite Z.eqb_refl.
  - change (Filter [mayConvert2NormalTimeout] ?x q impl e)
      with (mayConvert2NormalTimeout x q impl e).
    unfold mayConvert2NormalTimeout, mbind, M_bind. rewrite Hi. simpl.
    unfold convert_timeout, mbind, M_bind, gets. simpl. rewrite Ht, Hc. simpl.
    pose proof server_timeouts_distinct as Hd. apply Z.eqb_neq in Hd. by rewrite Hd.
  - change (Filter [] ?x q impl e) with (impl x q e). rewrite Hi. simpl.
    by destruct (c =? RetServerFullLinkTimeout)%Z.
Qed.

(** The error variable [ErrServerTimeout] of package errs. *)
Definition ErrServerTimeout_init : error :=
  NewFrameError RetServerTimeout "server message handle timeout".

(** One full-link timeout changes [ErrServerTimeout] for the whole process: a handler that returns
    it when the caller's time ran out leaves a variable whose code is that of a full-link
    timeout, and from then on any service that returns it gets no response out, even if no
    timeout is in force, while before its caller got the error. *)
Theorem full_link_poisons `{!PbEnumOk} (s s2 : service) (ctx : CallContext) (e e2 : Env W Q)
    (buf buf2 : bytes) (q q2 : Q) (impl := λ _ _, mret (None, Some ErrServerTimeout)) :
  heap e !! 2%positive = Some ErrServerTimeout_init → heap e2 = heap e →
  served s e buf impl q → Filters (opts s) = [] → caller_governs s e = true →
  served s2 e2 buf2 impl q2 → Filters (opts s2) = [] → caller_governs s2 e2 = false →
  Timeout (opts s2) = 0%Z →
  handle s2 ctx buf2 e2 = (Some (None, Some ErrServerTimeout), e2) ∧
  ∃ e', handle s ctx buf e = (Some (None, Some ErrServerNoResponse), e') ∧
    handle s2 ctx buf2 (e2 <| heap := heap e' |>) =
      (Some (None, Some ErrServerNoResponse), e2 <| heap := heap e' |>).
Proof.
  intros Hh Hh2 Hs Hf Hg Hs2 Hf2 Hg2 HT2.
  pose proof server_timeouts_distinct as Hd. apply Z.eqb_neq in Hd.
  pose proof client_timeout_distinct as Hc. apply Z.eqb_neq in Hc.
  pose proof (i32_small _ server_timeout_i32) as Hi32.
  assert (∀ h, served s2 (e2 <| heap := h |>) buf2 impl q2) as Hs2'.
  { intros h. destruct Hs2 as [Hu (q0 & Hfh & Hde) Hp]. split; [done| |done]. exists q0.
    split; [done|]. destruct (decompressAndUnmarshal_pure s2 (emsg e2) buf2 q0) as [r Hr].
    rewrite Hr in Hde. change (emsg (e2 <| heap := h |>)) with (emsg e2). rewrite Hr.
    by simplify_eq. }
  assert (∀ h, handle s2 ctx buf2 (e2 <| heap := h |>) =
               (handled (e2 <| heap := h |>) (None, Some ErrServerTimeout), e2 <| heap := h |>)) as H2.
  { intros h. rewrite (handle_served _ _ _ _ _ _ (Hs2' h)). unfold request_chain.
    rewrite request_timeout_cases, Hf2.
    change (caller_governs s2 (e2 <| heap := h |>)) with (caller_governs s2 e2).
    by rewrite Hg2, HT2. }
  split.
  - assert (handle s2 ctx buf2 e2 = (handled e2 (None, Some ErrServerTimeout), e2)) as ->.
    { specialize (H2 (heap e2)). by destruct e2. }
    simpl. rewrite Hh2, Hh. simpl. by rewrite Hi32, Hd.
  - exists (e <| heap := alter (with_code RetServerFullLinkTimeout) 2%positive (heap e) |>). split.
    + rewrite (handle_served _ _ _ _ _ _ Hs). unfold request_chain.
      rewrite request_timeout_cases, Hf, Hg. simpl snd. simpl app. cbv iota.
      change (Filter [mayConvert2FullLinkTimeout] ?x q impl e)
        with (mayConvert2FullLinkTimeout x q impl e).
      unfold mayConvert2FullLinkTimeout, impl, convert_timeout, mbind, M_bind, mret, M_ret, gets.
      simpl. rewrite Hh. simpl. unfold IsTimeout, ErrServerTimeout_init, NewFrameError.
      rewrite !Hi32, !Z.eqb_refl, Hc, !orb_true_r. simpl.
      unfold mbind, M_bind, modify. simpl. rewrite lookup_alter_eq, Hh. simpl.
      by rewrite Z.eqb_refl.
    + rewrite H2. simpl. rewrite lookup_alter_eq, Hh. simpl. by rewrite Z.eqb_refl.
Qed.

(** ** Registration *)

Lemma register_methods_spec s impl ms s' o :
  register_methods s impl ms = (s', o) →
  opts s' = opts s ∧ streamHandlers s' = streamHandlers s ∧ streamInfo s' = streamInfo s ∧
  match o with
  | None => NoDup (mname <$> ms) ∧
    (∀ m, m ∈ ms → handlers s !! mname m = None ∧ handlers s' !! mname m = Some (Func m impl)) ∧
    (∀ n, n ∉ mname <$> ms → handlers s' !! n = handlers s !! n)
  | Some e => ∃ ms1 m ms2, ms = ms1 ++ m :: ms2 ∧
    e = Plain ("duplicate method name: " +:+ mname m) ∧
    (is_Some (handlers s !! mname m) ∨ mname m ∈ mname <$> ms1)
  end.
Proof.
  revert s. induction ms as [|m ms IH]; intros s; simpl.
  { intros [= <- <-]. split_and!; try done; [constructor|]. intros m Hm. by apply not_elem_of_nil in Hm. }
  destruct (handlers s !! mname m) as [h|] eqn:Em.
  { intros [= <- <-]. split_and!; try done. exists [], m, ms. split_and!; [done..|left; by eexists]. }
  intros Hr. destruct (IH _ Hr) as (E1 & E2 & E3 & Ho). split_and!; try done. clear IH Hr E1 E2 E3.
  simpl in Ho. destruct o as [e|].
  - destruct Ho as (ms1 & m' & ms2 & -> & -> & Hd). exists (m :: ms1), m', ms2.
    split_and!; try done. destruct (decide (mname m' = mname m)) as [Heq|Hne].
    { right. rewrite Heq. apply list_elem_of_here. }
    rewrite lookup_insert_ne in Hd by done. destruct Hd; [by left|right]. by apply list_elem_of_further.
  - destruct Ho as (Hnd & Hin & Hout).
    assert (mname m ∉ mname <$> ms) as Hni.
    { intros (m' & Hm' & Hin')%list_elem_of_fmap. destruct (Hin m' Hin') as [Hn _].
      by rewrite <- Hm', lookup_insert_eq in Hn. }
    split_and!.
    + by constructor.
    + intros m' [->|Hm']%elem_of_cons.
      * split; [done|]. by rewrite Hout, lookup_insert_eq.
      * destruct (Hin m' Hm') as [Hn Hs]. split; [|done].
        rewrite lookup_insert_ne in Hn; [done|]. intros Heq. apply Hni. rewrite Heq.
        apply list_elem_of_fmap. by exists m'.
    + intros n [Hne Hn]%not_elem_of_cons. by rewrite Hout, lookup_insert_ne by done.
Qed.

Lemma register_streams_spec s impl ss s' :
  register_streams s impl ss = (s', None) →
  opts s' = opts s ∧ handlers s' = handlers s ∧
  (∀ d, d ∈ ss → streamHandlers s !! StreamName d = None ∧
    streamHandlers s' !! StreamName d = Some (stream_Handler d impl) ∧
    streamInfo s' !! StreamName d = Some (MkStreamInfo (StreamName d) (ClientStreams d) (ServerStreams d))) ∧
  (∀ n, n ∉ StreamName <$> ss → streamHandlers s' !! n = streamHandlers s !! n ∧
    streamInfo s' !! n = streamInfo s !! n).
Proof.
  revert s. induction ss as [|d ss IH]; intros s; simpl.
  { intros [= <-]. split_and!; try done. intros d Hd. by apply not_elem_of_nil in Hd. }
  destruct (streamHandlers s !! StreamName d) as [h|] eqn:Ed; [done|].
  intros Hr. destruct (IH _ Hr) as (E1 & E2 & Hin & Hout). simpl in E1, E2, Hin, Hout.
  split_and!; try done.
  - assert (StreamName d ∉ StreamName <$> ss) as Hni.
    { intros (d' & Hd' & Hin')%list_elem_of_fmap. destruct (Hin d' Hin') as [Hn _].
      by rewrite <- Hd', lookup_insert_eq in Hn. }
    intros d' [->|Hd']%elem_of_cons.
    + destruct (Hout _ Hni) as [-> ->]. by rewrite !lookup_insert_eq.
    + destruct (Hin d' Hd') as (Hn & Hs). split; [|done].
      rewrite lookup_insert_ne in Hn; [done|]. intros Heq. apply Hni. rewrite Heq.
      apply list_elem_of_fmap. by exists d'.
  - intros n [Hne Hn]%not_elem_of_cons. destruct (Hout n Hn) as [-> ->].
    by rewrite !lookup_insert_ne by done.
Qed.

Lemma add_bindings_spec r bs r' :
  add_bindings r bs = (r', Ok ()) → AddImplBindings r bs = Ok r'.
Proof.
  revert r. induction bs as [|b bs IH]; intros r; simpl; [by intros [= ->]|].
  destruct (AddImplBinding r b); simpl; [apply IH|done..].
Qed.

(** The router that the bindings of a description were added to. *)
Definition routed_bindings (rs rs' : Routers) (n : string) (bs : list Binding) : Prop :=
  match bs with
  | [] => rs' = rs
  | _ => ∃ r, rs' !! n = Some (Some r) ∧ AddImplBindings
           (match rs !! n with Some (Some r0) => r0 | _ => NewRouter end) bs = Ok r
  end.

Lemma createOrUpdateRouter_spec s bs rs rs' :
  createOrUpdateRouter s bs rs = (rs', Ok ()) →
  routed_bindings rs rs' (ServiceName (opts s)) bs.
Proof.
  destruct bs as [|b bs]; [by intros [= ->]|].
  unfold createOrUpdateRouter, routed_bindings.
  destruct (rs !! ServiceName (opts s)) as [[r0|]|].
  - destruct (add_bindings r0 (b :: bs)) as [r o] eqn:Eb. destruct o as [[]| |]; intros [= <-].
    exists r. split; [apply lookup_insert_eq|]. by apply add_bindings_spec.
  - destruct (add_bindings NewRouter (b :: bs)) as [r [[]| |]] eqn:Eb; intros [= <-].
    exists r. split; [apply lookup_insert_eq|]. by apply add_bindings_spec.
  - destruct (add_bindings NewRouter (b :: bs)) as [r [[]| |]] eqn:Eb; intros [= <-].
    exists r. split; [apply lookup_insert_eq|]. by apply add_bindings_spec.
Qed.

(** A description that is registered is served: every method and stream, none of which was
    registered before, is found under its name with its own handler, every other name is served as
    before, and the HTTP bindings are added to the router of the service. *)
Theorem Register_dispatches (s s' : service) (rs rs' : Routers) (desc : ServiceDesc) (impl : option S) :
  Register s rs desc impl = (s', rs', Ok ()) →
  NoDup (mname <$> Methods desc) ∧
  (∀ m, m ∈ Methods desc → handlers s !! mname m = None ∧
    find_handler s' (mname m) = Some (Func m impl)) ∧
  (∀ n, n ∉ mname <$> Methods desc → "*" ∉ mname <$> Methods desc →
    find_handler s' n = find_handler s n) ∧
  (∀ d, d ∈ Streams desc → streamHandlers s !! StreamName d = None ∧
    streamHandlers s' !! StreamName d = Some (stream_Handler d impl)) ∧
  (∀ n, n ∉ StreamName <$> Streams desc → streamHandlers s' !! n = streamHandlers s !! n) ∧
  routed_bindings rs rs' (ServiceName (opts s)) (concat (Bindings <$> Methods desc)).
Proof.
  unfold Register. set (s0 := match desc_StreamHandle desc with Some h => _ | None => s end).
  assert (handlers s0 = handlers s ∧ streamHandlers s0 = streamHandlers s ∧
          ServiceName (opts s0) = ServiceName (opts s)) as (Eh & Es & En).
  { unfold s0. by destruct (desc_StreamHandle desc). }
  destruct (desc_StreamHandle desc ≫= StreamInit); [done|].
  destruct (check_implements desc impl); [done|].
  destruct (register_methods s0 impl (Methods desc)) as [s1 [e|]] eqn:Em; [done|].
  destruct (register_streams s1 impl (Streams desc)) as [s2 [e|]] eqn:Est; [done|].
  destruct (createOrUpdateRouter s2 _ rs) as [rs2 r] eqn:Er. intros [= <- <- ->].
  apply register_methods_spec in Em as (E1 & E2 & _ & Hnd & Hin & Hout).
  apply register_streams_spec in Est as (F1 & F2 & Gin & Gout).
  apply createOrUpdateRouter_spec in Er. rewrite F1, E1, En in Er.
  unfold find_handler. rewrite F2, <- Eh, <- Es, <- E2. split_and!; try done.
  - intros m Hm. destruct (Hin m Hm) as [-> ->]. done.
  - intros n Hn Hstar. by rewrite !Hout.
  - intros d Hd. destruct (Gin d Hd) as (? & ? & _). done.
  - intros n Hn. apply (Gout n Hn).
Qed.
End service.

(** ** Examples *)
Module ServiceExamples.
Import Sample.

Ltac go_eval := vm_compute; reflexivity.

(** Requests and responses are bytes; the world is the time. *)
#[local] Instance runtime : Runtime Z bytes bytes := {|
  is_pointer := λ _, true;
  is_nil := λ _, false;
  AssignableTo := λ _ _, true;
  type_name := λ _, "*[]uint8";
  now := λ w, w;
  compressors := ∅;
  serializers := {[0%Z := MkSerializer (λ b _, (b, Ok ())) Ok]}
|}.

(** A codec without a head: every request calls the method M. *)
Definition bare : ServerCodec Z := MkCodec
  (λ w m buf, (Ok buf, WithRequestTimeout (WithServerRPCName m "M") 5, w))
  (λ w m body, (Ok body, m, w)).

(** Overload control with one kind of token. *)
Definition control : @OverloadController Z bytes () :=
  MkOverload (λ _ _, mret (inl ())) (λ _ _ _, mret ()).

Definition fails (e : go_err) : ServerHandleFunc Z bytes bytes := λ _ _, mret (None, Some e).

Definition serving (impl : ServerHandleFunc Z bytes bytes) (timeout : Z) (off : bool)
    : @service Z bytes bytes () () :=
  MkService (defaultOptions <| Codec := Some bare |> <| Timeout := timeout |>
    <| DisableRequestTimeout := off |> <| OverloadCtrl := Some control |> <| opt_MaxCloseWaitTime := 1%Z |>)
    {["M" := stub [] impl]} ∅ ∅.

Definition env0 : Env Z bytes :=
  MkEnv {[2%positive := ErrServerTimeout_init]}
    (WithRequestTimeout (WithServerRPCName zero_msg "M") 5) 100%Z None.
Definition st0 : @SvcState Z bytes () := MkSvc env0 3%Z None [].

Definition refusing := serving (fails (Own (Plain "no"))) 0 true.

Lemma Handle_balanced_witness :
  let '(_, st) := Handle refusing background (str_bytes "ab") st0 in
  activeCount st = 3%Z ∧ tokens st = [Acquired (); Responded () (Some (Own (Plain "no")))].
Proof.
  destruct (Handle refusing background (str_bytes "ab") st0) as [r st] eqn:E.
  destruct (Handle_balanced _ _ _ _ _ _ E) as [H _]. split; [exact H|].
  assert (tokens (Handle refusing background (str_bytes "ab") st0).2 =
    [Acquired (); Responded () (Some (Own (Plain "no")))]) as Ht by go_eval.
  rewrite E in Ht. exact Ht.
Defined.

(** A handler that panics: the count is as before, and the token is not given back. *)
Definition panics : ServerHandleFunc Z bytes bytes := λ _ _ st, (None, st).

Lemma panic_keeps_token :
  let '(r, st) := Handle (serving panics 0 true) background (str_bytes "ab") st0 in
  r = None ∧ activeCount st = 3%Z ∧ tokens st = [Acquired ()].
Proof. vm_compute. done. Qed.

Definition late : error := Status ErrorTypeFramework RetServerTimeout "late" "trpc".

Lemma handle_timeouts_witness :
  (handle (serving (fails (Own late)) 9 false) background (str_bytes "ab") env0).1 =
    Some (None, Some ErrServerNoResponse) ∧
  (handle (serving (fails (Own late)) 3 false) background (str_bytes "ab") env0).1 =
    Some (None, Some (Own (Status ErrorTypeFramework 21 "late" "trpc"))).
Proof.
  split.
  - destruct (handle_timeouts (serving (fails (Own late)) 9 false) background env0 env0 (str_bytes "ab")
      (fails (Own late)) (str_bytes "ab") None RetServerTimeout "late" "trpc") as [-> _]; try reflexivity.
    + split; [reflexivity| |reflexivity]. exists []. split; reflexivity.
    + discriminate.
    + discriminate.
  - destruct (handle_timeouts (serving (fails (Own late)) 3 false) background env0 env0 (str_bytes "ab")
      (fails (Own late)) (str_bytes "ab") None RetServerTimeout "late" "trpc") as [-> _]; try reflexivity.
    + split; [reflexivity| |reflexivity]. exists []. split; reflexivity.
    + discriminate.
    + discriminate.
Defined.

Lemma full_link_poisons_witness :
  let s := serving (fails ErrServerTimeout) 0 false in
  let s2 := serving (fails ErrServerTimeout) 0 true in
  handle s2 background [] env0 = (Some (None, Some ErrServerTimeout), env0) ∧
  ∃ e', handle s background [] env0 = (Some (None, Some ErrServerNoResponse), e') ∧
    handle s2 background [] (env0 <| heap := heap e' |>) =
      (Some (None, Some ErrServerNoResponse), env0 <| heap := heap e' |>).
Proof.
  intros s s2.
  apply (full_link_poisons s s2 background env0 env0 [] [] [] []); try reflexivity;
    (split; [reflexivity| |reflexivity]; exists []; split; reflexivity).
Defined.

Definition desc : @ServiceDesc Z bytes bytes () () :=
  MkServiceDesc "Greeter" (λ _, true)
    [MkMethod "A" (λ _, stub [] (fails ErrServerTimeout)) []; MkMethod "B" (λ _, stub [] (fails (Own late))) []]
    [MkStreamDesc "S" (λ _, ()) true true] None.
Definition registered := Register (λ _, "impl") (serving (fails (Own late)) 0 true) ∅ desc (Some ()).

Lemma Register_dispatches_witness :
  find_handler registered.1.1 "A" = Some (stub [] (fails ErrServerTimeout)) ∧
  streamHandlers registered.1.1 !! "S" = Some ().
Proof.
  destruct (Register_dispatches (λ _, "impl") (serving (fails (Own late)) 0 true) registered.1.1 ∅
    registered.1.2 desc (Some ())) as (_ & H1 & _ & H2 & _); [reflexivity|].
  split.
  - apply (H1 (MkMethod "A" (λ _, stub [] (fails ErrServerTimeout)) [])). apply list_elem_of_here.
  - apply (H2 (MkStreamDesc "S" (λ _, ()) true true)). apply list_elem_of_here.
Defined.
End ServiceExamples.
