(* ===== verification/Rpc.v ===== *)
(** A unary call from end to end: the client codec (codec.go), a frame, the TCP transport and the
    service of the server (server/service.go) with the server codec, the handler, and the way back.
    The theorems compose those of UnaryCodec.v with the service of Service.v: for the caller, a remote
    call is a call of the method of the service. *)

From S2P Require Import Prelude GoStrings Pb Errs Frame Msg StreamCodec UnaryCodec Service.

Section rpc.
Context `{!PbEnum} `{!Message TrpcStreamInitMeta} `{!Message TrpcStreamCloseMeta}
        `{!Message TrpcStreamFeedBackMeta} `{!Message RequestProtocol}
        `{!Message ResponseProtocol}.
Context `{!PbEnumOk} `{!MessageOk RequestProtocol} `{!MessageOk ResponseProtocol}.
Context {W Q B T St : Type} `{!Runtime (InitMetas * W) Q B}.
Variable maxFrameSize : Z.
Variable procName : string.
Variable leftover : bytes → ResponseProtocol.

(** The server codec of the trpc protocol as the codec of a service: its table of init metas is a part
    of the world. *)
Definition trpc_codec : ServerCodec (InitMetas * W) := MkCodec
  (λ w m buf, let '(r, m, st) := ServerDecode w.1 m buf in (r, m, (st, w.2)))
  (λ w m body, let '(r, m, st) := ServerEncode maxFrameSize w.1 m body in (r, m, (st, w.2))).

Abbreviation env_t := (Env (InitMetas * W) Q).
Abbreviation service_t := (@service (InitMetas * W) Q B T St).
Abbreviation conn_t := (@tcpconn (InitMetas * W) Q).
Abbreviation state_t := (@SvcState (InitMetas * W) Q T).

(** ** The request at the server *)

Lemma setOpt_eq (s : service_t) m :
  ∃ a b c, setOpt s m = m <| namespace := Namespace (opts s) |> <| envName := EnvName (opts s) |>
    <| setName := SetName (opts s) |> <| calleeServiceName := ServiceName (opts s) |>
    <| calleeApp := a |> <| calleeServer := b |> <| calleeService := c |>.
Proof. apply WithCalleeServiceName_eq. Qed.

(** What the message of a request holds when the handler is looked for. *)
Record received (s : service_t) (caller : string) (c : msg) (m : msg) : Prop := {
  received_rpc : msg_ServerRPCName m = msg_ClientRPCName c;
  received_caller : msg_CallerServiceName m =
    (if bool_decide (msg_CallerServiceName c = "") then caller else msg_CallerServiceName c);
  received_callee : msg_CalleeServiceName m = ServiceName (opts s);
  received_ser : msg_SerializationType m = u32 (msg_SerializationType c);
  received_comp : msg_CompressType m = u32 (msg_CompressType c);
  received_timeout : msg_RequestTimeout m =
    (millisecond * u32 (msg_RequestTimeout c ÷ millisecond))%Z;
  received_call : msg_CallType m = u32 (msg_CallType c);
  received_meta : sentMetaData c ≠ ∅ → msg_ServerMetaData m = sentMetaData c;
  received_att : sentAttachment c ≠ [] → msg_CommonMeta m !! ServerAttachmentKey =
    Some (IAttachment (Some (MkReader (sentAttachment c) EOF)) (Some NoopAttachment));
  received_err : ServerRspErr m = None
}.

(** The message of a request is set up for the answer to [req]. *)
Definition answers (req : RequestProtocol) (m : msg) : Prop :=
  (∃ h, msg_FrameHead m = IFrameHead h ∧ FrameHead_wf h ∧ FrameType h = TRPC_UNARY_FRAME) ∧
  msg_ServerRspHead m = IRsp (newResponseProtocol req).

(** The environment of a new request on the connection. *)
Definition new_env (conn : conn_t) (e : env_t) : env_t :=
  MkEnv (heap e)
    (WithRemoteAddr (WithLocalAddr (WithServerRspErr zero_msg None) (conn_localAddr conn))
       (conn_remoteAddr conn)) (world e) None.

Lemma request_received (s : service_t) (conn : conn_t) e caller c c' req h body buf :
  FrameHead_wf h → FrameType h = TRPC_UNARY_FRAME → carries caller c c' req →
  (∀ st m, ServerDecode st m buf =
     (Ok body, msgWithRequestProtocol (WithFrameHead m (IFrameHead h)) req (sentAttachment c), st)) →
  ∃ m, decode s trpc_codec buf (new_env conn e) =
         (Some (inl body), new_env conn e <| emsg := m |>) ∧
       received s caller c m ∧ answers req m.
Proof.
  intros Hwf Ht Hc Hd. set (m0 := emsg (new_env conn e)).
  destruct (setOpt_eq s m0) as (a0 & b0 & c0 & E0).
  set (m1 := WithFrameHead (setOpt s m0) (IFrameHead h)).
  set (m2 := msgWithRequestProtocol m1 req (sentAttachment c)).
  exists (setOpt s m2). split.
  { unfold decode, upd_msg, call_codec, mbind, M_bind, modify. simpl.
    rewrite Hd. destruct e as [? ? [] ?]. reflexivity. }
  destruct (msgWithRequestProtocol_fields m1 req (sentAttachment c))
    as (F1 & F2 & F3 & F4 & F5 & F6 & F7 & F8 & F9 & F10 & F11).
  destruct (msgWithRequestProtocol_keeps m1 req (sentAttachment c)) as (K1 & K2 & K3 & K4 & K5).
  fold m2 in F1, F2, F3, F4, F5, F6, F7, F8, F9, F10, F11, K1, K2, K3, K4, K5.
  destruct (setOpt_eq s m2) as (a & b & d & E). rewrite E.
  destruct Hc. split.
  - split; [exact (eq_trans F5 carries_func)|exact (eq_trans F3 carries_caller)|reflexivity|
      exact (eq_trans F6 carries_ser)|exact (eq_trans F7 carries_comp)|
      exact (eq_trans F2 (f_equal _ carries_timeout))|exact (eq_trans F10 carries_call)|..].
    + unfold sentMetaData. rewrite <- carries_trans. exact F9.
    + exact F11.
    + change (ServerRspErr m2 = None). rewrite K2. unfold m1. by rewrite E0.
  - split; [|exact K3]. exists h. split; [exact K1|done].
Qed.

(** ** The way through the service *)

(** What the handler may not touch for its answer to arrive. *)
Record keeps (e1 e2 : env_t) : Prop := {
  keeps_head : msg_FrameHead (emsg e2) = msg_FrameHead (emsg e1);
  keeps_rsp : msg_ServerRspHead (emsg e2) = msg_ServerRspHead (emsg e1);
  keeps_err : ServerRspErr (emsg e2) = None;
  keeps_att : readableServerAttachment (emsg e2)
}.

Definition reply (r : option (bytes + go_err)) : option outcome :=
  match r with
  | Some (inl rsp) => Some (Written rsp)
  | Some (inr err) => Some (if decide (err = ErrServerNoResponse) then Quiet else Closed)
  | None => None
  end.

(** The answer to what [handle] returned. *)
Definition answer (s : service_t) (r : rsp_err B) : M (Env (InitMetas * W) Q) (bytes + go_err) :=
  match r with
  | (_, Some err) => if decide (err = ErrServerNoResponse) then mret (inr err)
                     else encode trpc_codec [] (Some err)
  | (rsp, None) => handleResponse s trpc_codec rsp
  end.

Lemma Handle_decoded_eq (s : service_t) ctx body (st : state_t) :
  OverloadCtrl (opts s) = None → ServerRspErr (emsg (env st)) = None →
  (Handle_decoded s trpc_codec ctx body st).1 =
  ((r ← handle s ctx body; answer s r) (env st)).1.
Proof.
  intros Ho He. unfold Handle_decoded, acquire, gets, in_env, mbind, M_bind. simpl. rewrite He, Ho. simpl.
  destruct (handle s ctx body (env st)) as [[[rsp [err|]]|] e2]; simpl; [..|done].
  - case_decide; [done|]. unfold defer_call, in_env. simpl.
    by destruct (encode trpc_codec [] (Some err) e2) as [[]].
  - unfold defer_call, in_env. simpl. by destruct (handleResponse s trpc_codec rsp e2) as [[]].
Qed.

(** The body of the request is read, from the frame or from the context. *)
Definition body_read (s : service_t) (buf body : bytes) (st : state_t) (e1 : env_t) : Prop :=
  match preDecode st with
  | Some b => b = body ∧ env st = e1
  | None => decode s trpc_codec buf (env st) = (Some (inl body), e1)
  end.

Lemma Handle_eq (s : service_t) ctx buf body (st : state_t) e1 :
  Codec (opts s) = Some trpc_codec → OverloadCtrl (opts s) = None →
  body_read s buf body st e1 → ServerRspErr (emsg e1) = None →
  (Handle s ctx buf st).1 = ((r ← handle s ctx body; answer s r) e1).1.
Proof.
  intros Hc Ho Hd He.
  assert (∀ st', body_read s buf body st' e1 → (Handle_codec s trpc_codec ctx buf st').1 =
    ((r ← handle s ctx body; answer s r) e1).1) as Hcodec.
  { intros st' Hb. unfold body_read in Hb. unfold Handle_codec, request_body, in_env, gets, mbind, M_bind.
    destruct (preDecode st') as [b|].
    - destruct Hb as [-> <-]. set (st4 := st' <| preDecode := Some [] |>).
      pose proof (Handle_decoded_eq s ctx body st4 Ho He) as Hk. exact Hk.
    - rewrite Hb. pose proof (Handle_decoded_eq s ctx body (st' <| env := e1 |>) Ho He) as Hk. exact Hk. }
  assert (∀ A (m : M state_t A) f st', (deferred m f st').1 = (m st').1) as Hdef.
  { intros A m f st'. unfold deferred. by destruct (m st'). }
  unfold Handle. rewrite Hc. destruct (counted (opts s)); [|by apply Hcodec].
  unfold mbind at 1, M_bind at 1, modify. rewrite Hdef. by apply Hcodec.
Qed.

(** A request that reaches the service is handled in the environment [e1] and answered. *)
Lemma call_handled (s : service_t) (conn : conn_t) (st : state_t) buf body e1 :
  Codec (opts s) = Some trpc_codec → OverloadCtrl (opts s) = None →
  decode s trpc_codec buf (new_env conn (env st)) = (Some (inl body), e1) →
  ServerRspErr (emsg e1) = None →
  (handleSyncWithErr conn s buf None st).1 =
  reply ((r ← handle s background body; answer s r) e1).1.
Proof.
  intros Hc Ho Hd He. unfold handleSyncWithErr, handleSyncWithErrAndContext.
  set (st1 := st <| env := new_env conn (env st) |> <| preDecode := None |>).
  pose proof (Handle_eq s background buf body st1 e1 Hc Ho Hd He) as Hh.
  rewrite <- Hh. unfold new_request, upd_msg, in_env, modify, gets, mbind, M_bind. simpl.
  match goal with |- context [Handle s background buf ?x] => change x with st1 end.
  by destruct (Handle s background buf st1) as [[[]|] ?].
Qed.

(** ** The answer *)

(** The error that the caller of a call sees for an error of the handler: a code of zero is no
    error. *)
Definition reported (e : error) : option error :=
  match ServerRspErr (WithServerRspErr zero_msg (Some e)) with
  | Some (Status t c x _) | Some (StatusOf t c x _ _) =>
    if (i32 c =? 0)%Z then None
    else if (t =? ErrorTypeFramework)%Z then Some (Status ErrorTypeCalleeFramework (i32 c) x ProtocolName)
    else Some (New (i32 c) x)
  | _ => None
  end.

(** An error of code 0 is answered as a success. *)
Lemma code_zero_succeeds t c x d : i32 c = 0%Z → reported (Status t c x d) = None.
Proof. intros E. unfold reported. simpl. by rewrite E. Qed.

Lemma responseHead_answer req m :
  msg_ServerRspHead m = IRsp (newResponseProtocol req) →
  rsp_RequestId (responseHead m) = req_RequestId req ∧
  headError (responseHead m) = serverRspErr m ≫= reported.
Proof.
  intros Hh. unfold responseHead, getAndInitResponseProtocol. rewrite Hh.
  assert (serverRspErr m ≫= reported =
    match ServerRspErr m with
    | Some (Status t c x _) | Some (StatusOf t c x _ _) =>
      if (i32 c =? 0)%Z then None
      else if (t =? ErrorTypeFramework)%Z
           then Some (Status ErrorTypeCalleeFramework (i32 c) x ProtocolName)
           else Some (New (i32 c) x)
    | _ => None end) as ->.
  { unfold reported, ServerRspErr. simpl. by destruct (serverRspErr m) as [[]|]. }
  destruct (ServerRspErr m) as [[]|]; case_decide; try (split; reflexivity);
    (destruct (Type_ =? ErrorTypeFramework)%Z; (split; [reflexivity|]));
    unfold headError; simpl; rewrite ?bytes_str_bytes, ?str_bytes_str;
    by destruct (i32 Code =? 0)%Z.
Qed.

(** The response fits a frame. *)
Definition fits (m : msg) (body : bytes) : Prop :=
  ∃ rspHead, marshal (responseHead m) = inl rspHead ∧ (zlen rspHead < 2 ^ 16)%Z ∧
    let size := (Z.of_nat frameHeadLen + zlen rspHead + zlen body + zlen (sentServerAttachment m))%Z in
    (size ≤ maxFrameSize)%Z ∧ (size < 2 ^ 32)%Z.

(** What the caller gets: the body, the error, and the rest of the server's message. *)
Record got (m c c'' : msg) (err : option error) : Prop := {
  got_err : msg_ClientRspErr c'' = from_option Some (msg_ClientRspErr c) err;
  got_ser : msg_SerializationType c'' = u32 (msg_SerializationType m);
  got_comp : msg_CompressType c'' = u32 (msg_CompressType m);
  got_meta : msg_ClientMetaData c'' = rsp_TransInfo (responseHead m) ∪ msg_ClientMetaData c;
  got_att : ∀ rq rs, sentServerAttachment m ≠ [] →
    msg_CommonMeta c !! ClientAttachmentKey = Some (IAttachment rq rs) →
    msg_CommonMeta c'' !! ClientAttachmentKey =
    Some (IAttachment rq (Some (MkReader (sentServerAttachment m) EOF)))
}.

Lemma answer_received (e : env_t) c req body :
  marshal zero_rsp = inl [] → answers req (emsg e) → readableServerAttachment (emsg e) →
  fits (emsg e) body → msg_ClientReqHead c = IReq req → msg_ClientRspHead c = INil →
  req_RequestId req ≠ 0%Z →
  ∃ buf, (call_codec (codec_Encode trpc_codec) body e).1 = Some (inl buf) ∧
    ∃ c'', ClientDecode leftover c buf = (Ok body, c'') ∧
      got (emsg e) c c'' (serverRspErr (emsg e) ≫= reported).
Proof.
  intros Hz ((h & Hh & Hwf & Ht) & Hr) Hra (rspHead & Hm & L1 & L2 & L3) Hq Hcr Hid.
  destruct (responseHead_answer _ _ Hr) as [R1 R2].
  assert (isUnary h = true) as Hun by by apply Z.eqb_eq.
  pose proof (proj2 (construct_Ok maxFrameSize h rspHead body (sentServerAttachment (emsg e)) _)
    (conj L1 (conj L2 (conj L3 eq_refl)))) as Hc.
  destruct (unary_response_roundtrip maxFrameSize leftover (world e).1 (emsg e) c h rspHead body _ req
    Hz Hh Hwf Hun Hra Hm Hc Hq Hcr R1 Hid) as (He & c'' & Hd & _ & S1 & S2 & S3 & S4 & S5).
  eexists. split; [|exists c''; split; [exact Hd|]].
  - unfold call_codec. simpl. destruct (ServerEncode _ _ _ _) as [[r m'] st']. simpl in He.
    by rewrite He.
  - rewrite R2 in S3. by split.
Qed.

(** ** Calls *)

(** A client that is about to make the call [c], and what its codec makes of it. *)
Record calls (caller : string) (counter : Z) (c c' : msg) (body buf : bytes) : Prop := {
  calls_unary : isUnary (loadOrStoreDefaultUnaryFrameHead c).1 = true;
  calls_req : msg_ClientReqHead c = INil;
  calls_rsp : msg_ClientRspHead c = INil;
  calls_id : u32 (counter + 1) ≠ 0%Z;
  calls_encode : ∃ n, ClientEncode maxFrameSize procName caller counter c body = (Ok buf, c', n)
}.

(** A service of the trpc protocol that has no stream of the name of the call. *)
Record serves (s : service_t) (c : msg) : Prop := {
  serves_codec : Codec (opts s) = Some trpc_codec;
  serves_overload : OverloadCtrl (opts s) = None;
  serves_unary : streamHandlers s !! msg_ClientRPCName c = None
}.

(** The environment in which a call is handled. *)
Record arrived (s : service_t) (conn : conn_t) (caller : string) (c : msg) (e e1 : env_t) : Prop := {
  arrived_msg : received s caller c (emsg e1);
  arrived_heap : heap e1 = heap e;
  arrived_world : world e1 = world e;
  arrived_plain : preUnmarshal e1 = None
}.

(** The environment in which the service handles the frame [buf]. *)
Definition request_env (s : service_t) (conn : conn_t) (buf : bytes) (st : state_t) : env_t :=
  (decode s trpc_codec buf (new_env conn (env st))).2.

Lemma call_arrives (s : service_t) (conn : conn_t) (st : state_t) caller counter c c' body buf :
  marshal zero_req = inl [] → calls caller counter c c' body buf → serves s c →
  let e1 := request_env s conn buf st in
  arrived s conn caller c (env st) e1 ∧ ∃ req, answers req (emsg e1) ∧
    msg_ClientReqHead c' = IReq req ∧ msg_ClientRspHead c' = INil ∧ req_RequestId req ≠ 0%Z ∧
    msg_ClientRspErr c' = msg_ClientRspErr c ∧
    (handleSyncWithErr conn s buf None st).1 =
    reply ((r ← handle s background body; answer s r) e1).1.
Proof.
  intros Hz [Hun Hq Hr Hid [n He]] [Hc Ho Hs].
  destruct (request_sent _ _ _ _ _ _ _ _ _ Hz Hun Hq Hid He)
    as (h & req & Hwf & Ht & _ & Hid' & Hca & Hd).
  destruct (request_received s conn (env st) caller c c' req h body buf Hwf Ht Hca Hd)
    as (m & Hde & Hrec & Hans).
  assert (request_env s conn buf st = new_env conn (env st) <| emsg := m |>) as E.
  { unfold request_env. by rewrite Hde. }
  cbv zeta. rewrite E. pose proof (call_handled s conn st buf body _ Hc Ho Hde (received_err _ _ _ _ Hrec)) as Hcall.
  split; [done|]. exists req. destruct Hca. split_and!; try done. by rewrite carries_rsp.
Qed.

Lemma keeps_answers req e1 e2 : answers req (emsg e1) → keeps e1 e2 → answers req (emsg e2).
Proof. intros [Hh Hr] [K1 K2 K3 K4]. unfold answers. by rewrite K1, K2. Qed.

(** C3. A failed call to a service without overload control, whose handler does not touch the heads of the
    message: an error of the handler, or of the service on the way to it, whose code has low 32 bits other
    than 0 reaches the caller with these as its code and with its message - a framework error as one of the
    callee's framework, any other as a business error -, without a body, if the response fits a
    frame; an error of code 0 reaches it as a success ([reported]); only [ErrServerNoResponse] is not
    answered. *)
Theorem unary_call_failed (s : service_t) (conn : conn_t) (st : state_t) (caller : string) (counter : Z)
    (c c' : msg) (body buf : bytes) :
  marshal zero_req = inl [] → marshal zero_rsp = inl [] →
  calls caller counter c c' body buf → serves s c →
  let e1 := request_env s conn buf st in
  arrived s conn caller c (env st) e1 ∧
    ∀ rsp err e2, handle s background body e1 = (Some (rsp, Some err), e2) → keeps e1 e2 →
    let e3 := e2 <| emsg := WithServerRspErr (emsg e2) (Some (deref (heap e2) err)) |> in
    if decide (err = ErrServerNoResponse)
    then (handleSyncWithErr conn s buf None st).1 = Some Quiet
    else fits (emsg e3) [] →
      ∃ rspbuf c'', (handleSyncWithErr conn s buf None st).1 = Some (Written rspbuf) ∧
        ClientDecode leftover c' rspbuf = (Ok [], c'') ∧
        got (emsg e3) c' c'' (reported (deref (heap e2) err)).
Proof.
  intros Hz Hz2 Hcalls Hs.
  destruct (call_arrives s conn st _ _ _ _ _ _ Hz Hcalls Hs) as (Ha & req & Hans & Hq & Hr & Hid & _ & Hcall).
  intros e1. fold e1 in Ha, Hans, Hcall. split; [done|]. intros rsp err e2 Hh Hk e3.
  rewrite Hcall. unfold mbind, M_bind. rewrite Hh. unfold answer.
  case_decide as Herr; [simpl; by rewrite decide_True|]. intros Hfit.
  pose proof (keeps_answers _ _ _ Hans Hk) as Hans2.
  destruct (answer_received e3 c' req [] Hz2 Hans2 (keeps_att _ _ Hk) Hfit Hq Hr Hid)
    as (rspbuf & He & c'' & Hd & Hg).
  exists rspbuf, c''. split; [|done].
  unfold encode, upd_msg, gets, modify, mbind, M_bind. change (env_t) with (Env (InitMetas * W) Q).
  fold e3. destruct (call_codec _ [] e3) as [r e4]. simpl in He. by rewrite He.
Qed.

(** The formats that the service uses for a message. *)
Definition ser_type (s : service_t) (m : msg) : Z :=
  if IsValidSerializationType (CurrentSerializationType (opts s))
  then CurrentSerializationType (opts s) else msg_SerializationType m.
Definition comp_type (s : service_t) (m : msg) : Z :=
  if IsValidCompressType (CurrentCompressType (opts s))
  then CurrentCompressType (opts s) else msg_CompressType m.

(** The request value that the stub reads from a body. *)
Definition request_value (s : service_t) (m : msg) (body : bytes) (q0 : Q) : option Q :=
  match Decompress compressors (comp_type s m) body with
  | Ok b => match Unmarshal serializers (ser_type s m) b q0 with
            | (q, Ok _) => Some q
            | _ => None
            end
  | _ => None
  end.

(** The body of the response to a value. *)
Definition response_body (s : service_t) (m : msg) (rsp : option B) : result bytes :=
  do b <- Marshal serializers (ser_type s m) rsp; Compress compressors (comp_type s m) b.

Lemma request_value_served (s : service_t) e1 c caller body q0 impl q :
  received s caller c (emsg e1) → preUnmarshal e1 = None → serves s c →
  find_handler s (msg_ClientRPCName c) = Some (stub q0 impl) →
  request_value s (emsg e1) body q0 = Some q → served s e1 body impl q.
Proof.
  intros Hr Hp [_ _ Hs] Hf Hv. split; [by rewrite (received_rpc _ _ _ _ Hr)| |done].
  exists q0. rewrite (received_rpc _ _ _ _ Hr). split; [done|]. revert Hv.
  unfold request_value, decompressAndUnmarshal, mbind, M_bind, of_result.
  fold (comp_type s (emsg e1)). fold (ser_type s (emsg e1)).
  destruct (Decompress _ _ _) as [b| |]; [|done..]. simpl.
  destruct (Unmarshal _ _ _ _) as [q' [[]| |]]; [|done..]. by intros [= ->].
Qed.

(** What the caller gets for its call. *)
Lemma call_returns (s : service_t) (conn : conn_t) (st : state_t) (caller : string) (counter : Z)
    (c c' : msg) (body buf : bytes) (q0 : Q) (impl : ServerHandleFunc (InitMetas * W) Q B) :
  marshal zero_req = inl [] → marshal zero_rsp = inl [] →
  calls caller counter c c' body buf → serves s c →
  find_handler s (msg_ClientRPCName c) = Some (stub q0 impl) →
  let e1 := request_env s conn buf st in
  arrived s conn caller c (env st) e1 ∧
    ∀ q rsp e2, request_value s (emsg e1) body q0 = Some q →
    Filter (request_chain s e1) (request_ctx s background e1) q impl e1 = (Some (rsp, None), e2) →
    keeps e1 e2 →
    if (msg_CallType (emsg e2) =? TRPC_ONEWAY_CALL)%Z
    then (handleSyncWithErr conn s buf None st).1 = Some Quiet
    else ∀ rspbody, response_body s (emsg e2) rsp = Ok rspbody → fits (emsg e2) rspbody →
      ∃ rspbuf c'', (handleSyncWithErr conn s buf None st).1 = Some (Written rspbuf) ∧
        ClientDecode leftover c' rspbuf = (Ok rspbody, c'') ∧ got (emsg e2) c' c'' None.
Proof.
  intros Hz Hz2 Hcalls Hs Hf.
  destruct (call_arrives s conn st _ _ _ _ _ _ Hz Hcalls Hs) as (Ha & req & Hans & Hq & Hr & Hid & _ & Hcall).
  intros e1. fold e1 in Ha, Hans, Hcall. split; [done|]. intros q rsp e2 Hv Hrun Hk.
  pose proof (request_value_served s e1 c caller body q0 impl q (arrived_msg _ _ _ _ _ _ Ha)
    (arrived_plain _ _ _ _ _ _ Ha) Hs Hf Hv) as Hserved.
  rewrite Hcall. unfold mbind, M_bind. rewrite (handle_served _ _ _ _ _ _ Hserved), Hrun. simpl.
  destruct (msg_CallType (emsg e2) =? TRPC_ONEWAY_CALL)%Z; [reflexivity|].
  intros rspbody Hb Hfit. pose proof (keeps_answers _ _ _ Hans Hk) as Hans2.
  destruct (answer_received e2 c' req rspbody Hz2 Hans2 (keeps_att _ _ Hk) Hfit Hq Hr Hid)
    as (rspbuf & He & c'' & Hd & Hg).
  assert (serverRspErr (emsg e2) ≫= reported = None) as Hnone.
  { pose proof (keeps_err _ _ Hk) as Hn. unfold ServerRspErr in Hn.
    by destruct (serverRspErr (emsg e2)) as [[]|]. }
  rewrite Hnone in Hg. exists rspbuf, c''. split; [|done].
  unfold response_body in Hb. simpl. unfold handleResponse, gets, mbind, M_bind.
  fold (comp_type s (emsg e2)). fold (ser_type s (emsg e2)).
  destruct (Marshal _ _ rsp) as [b| |]; simpl in Hb; [|done..]. simpl. rewrite Hb. simpl.
  unfold encode, gets, mbind, M_bind. simpl.
  destruct (call_codec _ rspbody e2) as [r e4]. simpl in He. by rewrite He.
Qed.

(** C2. A remote call is a local one: the handler of the service runs on the value that the request
    body stands for, with the message of the caller, and if the filters and the method return a
    response, the caller gets its bytes, its formats, the server's metadata and attachment, and
    no error; a one-way call gets nothing. *)
Theorem unary_call (s : service_t) (conn : conn_t) (st : state_t) (caller : string) (counter : Z)
    (c c' : msg) (body buf : bytes) (q0 : Q) (impl : ServerHandleFunc (InitMetas * W) Q B) :
  marshal zero_req = inl [] → marshal zero_rsp = inl [] →
  calls caller counter c c' body buf → serves s c →
  find_handler s (msg_ClientRPCName c) = Some (stub q0 impl) →
  let e1 := request_env s conn buf st in
  arrived s conn caller c (env st) e1 ∧
    ∀ q rsp e2, request_value s (emsg e1) body q0 = Some q →
    Filter (request_chain s e1) (request_ctx s background e1) q impl e1 = (Some (rsp, None), e2) →
    keeps e1 e2 →
    if (msg_CallType (emsg e2) =? TRPC_ONEWAY_CALL)%Z
    then (handleSyncWithErr conn s buf None st).1 = Some Quiet
    else ∀ rspbody, response_body s (emsg e2) rsp = Ok rspbody → fits (emsg e2) rspbody →
      ∃ rspbuf c'', (handleSyncWithErr conn s buf None st).1 = Some (Written rspbuf) ∧
        ClientDecode leftover c' rspbuf = (Ok rspbody, c'') ∧ got (emsg e2) c' c'' None.
Proof. apply call_returns. Qed.

(** ** Keep-order requests *)

(** What the transport sets before the service handles a request. *)
Definition at_addr (l r : option Addr) (m : msg) : msg :=
  WithRemoteAddr (WithLocalAddr (WithServerRspErr m None) l) r.

(** Decoding a unary request does not look at the addresses. *)
Lemma addr_free_callee n l r m :
  WithCalleeServiceName (at_addr l r m) n = at_addr l r (WithCalleeServiceName m n).
Proof.
  unfold WithCalleeServiceName, at_addr. simpl.
  case_bool_decide; [done|]. case_bool_decide; [done|]. by destruct (getAppServerService n) as [[]].
Qed.

Lemma addr_free_caller n l r m :
  WithCallerServiceName (at_addr l r m) n = at_addr l r (WithCallerServiceName m n).
Proof.
  unfold WithCallerServiceName, at_addr. simpl.
  case_bool_decide; [done|]. case_bool_decide; [done|]. by destruct (getAppServerService n) as [[]].
Qed.

Lemma addr_free_rpc n l r m :
  WithServerRPCName (at_addr l r m) n = at_addr l r (WithServerRPCName m n).
Proof.
  unfold WithServerRPCName, updateMethodNameUsingRPCName, at_addr. simpl.
  case_bool_decide; [done|]. destruct (rpcNameIsTRPCForm n); [done|]. by case_bool_decide.
Qed.

Lemma addr_free_setOpt (s : service_t) l r m : setOpt s (at_addr l r m) = at_addr l r (setOpt s m).
Proof.
  apply (addr_free_callee (ServiceName (opts s)) l r
    (WithSetName (WithEnvName (WithNamespace m (Namespace (opts s))) (EnvName (opts s)))
       (SetName (opts s)))).
Qed.

Lemma addr_free_ServerReqHead v l r m : WithServerReqHead (at_addr l r m) v = at_addr l r (WithServerReqHead m v).
Proof. by destruct m. Qed.
Lemma addr_free_ServerRspHead v l r m : WithServerRspHead (at_addr l r m) v = at_addr l r (WithServerRspHead m v).
Proof. by destruct m. Qed.
Lemma addr_free_RequestTimeout v l r m : WithRequestTimeout (at_addr l r m) v = at_addr l r (WithRequestTimeout m v).
Proof. by destruct m. Qed.
Lemma addr_free_SerializationType v l r m : WithSerializationType (at_addr l r m) v = at_addr l r (WithSerializationType m v).
Proof. by destruct m. Qed.
Lemma addr_free_CompressType v l r m : WithCompressType (at_addr l r m) v = at_addr l r (WithCompressType m v).
Proof. by destruct m. Qed.
Lemma addr_free_Dyeing v l r m : WithDyeing (at_addr l r m) v = at_addr l r (WithDyeing m v).
Proof. by destruct m. Qed.
Lemma addr_free_ServerMetaData v l r m : WithServerMetaData (at_addr l r m) v = at_addr l r (WithServerMetaData m v).
Proof. by destruct m. Qed.
Lemma addr_free_DyeingKey v l r m : WithDyeingKey (at_addr l r m) v = at_addr l r (WithDyeingKey m v).
Proof. by destruct m. Qed.
Lemma addr_free_EnvTransfer v l r m : WithEnvTransfer (at_addr l r m) v = at_addr l r (WithEnvTransfer m v).
Proof. by destruct m. Qed.
Lemma addr_free_CallType v l r m : WithCallType (at_addr l r m) v = at_addr l r (WithCallType m v).
Proof. by destruct m. Qed.
Lemma addr_free_FrameHead v l r m : WithFrameHead (at_addr l r m) v = at_addr l r (WithFrameHead m v).
Proof. by destruct m. Qed.
Lemma addr_free_attachment v l r m :
  SetServerRequestAttachment (at_addr l r m) v = at_addr l r (SetServerRequestAttachment m v).
Proof.
  destruct m. unfold SetServerRequestAttachment, msg_CommonMeta. simpl.
  by destruct (commonMeta !! ServerAttachmentKey) as [[]|].
Qed.

Lemma addr_free_request req attm l r m :
  msgWithRequestProtocol (at_addr l r m) req attm = at_addr l r (msgWithRequestProtocol m req attm).
Proof.
  unfold msgWithRequestProtocol.
  rewrite addr_free_ServerReqHead, addr_free_ServerRspHead, addr_free_RequestTimeout,
    addr_free_caller, addr_free_callee, addr_free_rpc, addr_free_SerializationType,
    addr_free_CompressType, addr_free_Dyeing.
  set (m1 := WithDyeing _ _). clearbody m1.
  case_decide; [|rewrite addr_free_ServerMetaData; set (m2 := WithServerMetaData _ _); clearbody m2;
    destruct (_ !! DyeingKey), (_ !! EnvTransferKey)];
    rewrite ?addr_free_DyeingKey, ?addr_free_EnvTransfer, addr_free_CallType;
    destruct (zlen attm =? 0)%Z; rewrite ?addr_free_attachment; done.
Qed.

(** The message of a request decoded before the transport sets the rest. *)
Lemma decoded_before (s : service_t) (conn : conn_t) e h req attm body buf :
  (∀ st m, ServerDecode st m buf =
     (Ok body, msgWithRequestProtocol (WithFrameHead m (IFrameHead h)) req attm, st)) →
  ∃ m, (∀ un, decode s trpc_codec buf (MkEnv (heap e) zero_msg (world e) un) =
          (Some (inl body), MkEnv (heap e) m (world e) un)) ∧
    decode s trpc_codec buf (new_env conn e) =
      (Some (inl body), new_env conn e <| emsg := at_addr (conn_localAddr conn) (conn_remoteAddr conn) m |>).
Proof.
  intros Hd. exists (setOpt s (msgWithRequestProtocol (WithFrameHead (setOpt s zero_msg) (IFrameHead h))
    req attm)). split.
  - intros un. unfold decode, upd_msg, call_codec, mbind, M_bind, modify. simpl. rewrite Hd.
    destruct e as [? ? [] ?]. reflexivity.
  - rewrite <- addr_free_setOpt, <- addr_free_request, <- addr_free_FrameHead, <- addr_free_setOpt.
    unfold decode, upd_msg, call_codec, mbind, M_bind, modify. simpl. rewrite Hd.
    destruct e as [? ? [] ?]. reflexivity.
Qed.

(** C22. Whether a task of a key or the connection itself handles it, a call has the same outcome, up to the
    recovery of a panic: decoding before the task gives the body and the message that decoding
    in it would give. *)
Theorem pre_decode_same (s : service_t) (conn : conn_t) (st : state_t) (caller : string) (counter : Z)
    (c c' : msg) (body buf : bytes) (extractor : env_t → bytes → option string) :
  marshal zero_req = inl [] → calls caller counter c c' body buf → serves s c →
  ∃ m st1, heap (env st1) = heap (env st) ∧ world (env st1) = world (env st) ∧
    handleKeepOrderPreDecode conn s extractor buf st =
    (Some (match extractor (env st1) body with
           | Some key => Some (key, task conn s buf m (Some body) None)
           | None => None
           end), st1) ∧
    ∀ st2, heap (env st2) = heap (env st) → world (env st2) = world (env st) →
      (task conn s buf m (Some body) None st2).1 =
      Some (default Recovered (handleSyncWithErr conn s buf None st).1).
Proof.
  intros Hz [Hun Hq Hr Hid [n He]] [Hc Ho Hs].
  destruct (request_sent _ _ _ _ _ _ _ _ _ Hz Hun Hq Hid He)
    as (h & req & Hwf & Ht & _ & Hid' & Hca & Hd).
  destruct (decoded_before s conn (env st) h req (sentAttachment c) body buf Hd) as (m & Hpre & Hdir).
  destruct (request_received s conn (env st) caller c c' req h body buf Hwf Ht Hca Hd)
    as (m' & Hde & Hrec & _).
  pose proof (received_err _ _ _ _ Hrec) as Herr.
  assert (m' = at_addr (conn_localAddr conn) (conn_remoteAddr conn) m) as ->.
  { pose proof (eq_trans (eq_sym Hde) Hdir) as E. injection E as E. exact E. }
  exists m, (st <| env := MkEnv (heap (env st)) m (world (env st)) None |> <| preDecode := None |>).
  split_and!; [done..| |].
  - unfold handleKeepOrderPreDecode, new_request, PreDecode, in_env, modify, gets, mbind, M_bind.
    rewrite Hc. specialize (Hpre None). simpl. unfold in_env. simpl.
    match goal with |- context [decode s trpc_codec buf ?x] =>
      change x with (MkEnv (heap (env st)) zero_msg (world (env st)) (@None (bool * option Q))) end.
    rewrite Hpre. simpl. by destruct (extractor _ body).
  - intros st2 Hheap Hw.
    rewrite (call_handled s conn st buf body _ Hc Ho Hdir Herr).
    set (e1 := new_env conn (env st) <| emsg := at_addr _ _ m |>).
    set (st3 := st2 <| env := e1 |> <| preDecode := Some body |>).
    pose proof (Handle_eq s background buf body st3 e1 Hc Ho (conj eq_refl eq_refl) Herr) as Hh.
    rewrite <- Hh. unfold task, handleSyncWithErrAndContext, new_request, upd_msg, in_env, modify, gets, mbind, M_bind.
    simpl. match goal with |- context [Handle s background buf ?x] => assert (x = st3) as -> end.
    { unfold st3, e1, new_env. rewrite <- Hheap, <- Hw. reflexivity. }
    by destruct (Handle s background buf st3) as [[[]|] ?].
Qed.

Lemma no_addr_panics st m buf h :
  msg_LocalAddr m = None → msg_FrameHead m = IFrameHead h →
  isStream h = true →
  StreamFrameType h ∈ [TRPC_STREAM_FRAME_INIT; TRPC_STREAM_FRAME_DATA;
                       TRPC_STREAM_FRAME_FEEDBACK; TRPC_STREAM_FRAME_CLOSE] →
  (StreamFrameType h = TRPC_STREAM_FRAME_INIT → ∃ i, unmarshalPayload buf = Ok (A := TrpcStreamInitMeta) i) →
  (ServerStreamDecode st m buf).1.1 = Panic.
Proof.
  intros Hl Hh Hs Ht Hi. unfold ServerStreamDecode, streamHead. rewrite Hh, Hs.
  set (m1 := WithStreamID m _).
  assert (setInitMeta st m1 = Panic) as Hset.
  { unfold setInitMeta. change (msg_LocalAddr m1) with (msg_LocalAddr m). by rewrite Hl. }
  unfold decodeInitFrame_server, decodeDataFrame_server, decodeCloseFrame_server,
    decodeFeedbackFrame_server. rewrite Hset.
  destruct (StreamFrameType h =? TRPC_STREAM_FRAME_INIT)%Z eqn:E1.
  - apply Z.eqb_eq in E1. destruct (Hi E1) as [i ->].
    destruct (updateMsg_server m1 i) as [m2|e|] eqn:Eu; [| |done].
    + destruct (updateMsg_server_stream _ _ _ Eu) as [Hp _].
      unfold storeInitMeta. fold (peer m2). rewrite Hp. unfold peer.
      change (msg_LocalAddr m1) with (msg_LocalAddr m). by rewrite Hl.
    + exfalso. unfold updateMsg_server in Eu. destruct (init_RequestMeta i); [|done].
      by case_decide.
  - repeat case_match; try done. bool_to_prop.
    repeat (apply elem_of_cons in Ht as [Ht|Ht]; [congruence|]). by apply not_elem_of_nil in Ht.
Qed.

(** A frame of a stream on a connection whose requests are decoded before their tasks makes the
    connection's own goroutine panic: the message has no addresses yet, and the stream codec
    asks for the key of the connection. *)
Theorem pre_decode_stream_panics (s : service_t) (conn : conn_t) (st : state_t) (pool : option bool)
    (extractor : env_t → bytes → option string) (buf : bytes) (h : FrameHead) :
  Codec (opts s) = Some trpc_codec → keepOrderPreDecodeExtractor conn = Some extractor →
  (Z.of_nat frameHeadLen ≤ zlen buf)%Z → extract buf = Ok h → TotalLen h = u32 (zlen buf) →
  FrameType h = TRPC_STREAM_FRAME →
  StreamFrameType h ∈ [TRPC_STREAM_FRAME_INIT; TRPC_STREAM_FRAME_DATA;
                       TRPC_STREAM_FRAME_FEEDBACK; TRPC_STREAM_FRAME_CLOSE] →
  (StreamFrameType h = TRPC_STREAM_FRAME_INIT → ∃ i, unmarshalPayload buf = Ok (A := TrpcStreamInitMeta) i) →
  (tcp_handle conn s pool buf st).1 = None.
Proof.
  intros Hc Hx Hlen Hex Htot Hft Ht Hi.
  assert (∀ m w, msg_LocalAddr m = None → (ServerDecode w m buf).1.1 = Panic) as Hd.
  { intros m w Hl. unfold ServerDecode. rewrite (proj2 (Z.ltb_ge _ _)) by done.
    rewrite Hex, Htot, Z.eqb_refl, Hft. simpl negb. cbv iota.
    assert (u8 TRPC_UNARY_FRAME = TRPC_UNARY_FRAME) as -> by apply Z.mod_small, unary_u8.
    rewrite (proj2 (Z.eqb_neq _ _)) by (apply not_eq_sym, unary_not_stream). simpl negb. cbv iota.
    pose proof (no_addr_panics w (WithFrameHead m (IFrameHead h)) buf h Hl eq_refl
      (proj2 (Z.eqb_eq _ _) Hft) Ht Hi) as Hp.
    destruct (ServerStreamDecode _ _ _) as [[[]]]; simpl in Hp; done. }
  unfold tcp_handle. rewrite Hx.
  unfold handleKeepOrderPreDecode, new_request, PreDecode, in_env, modify, gets, mbind, M_bind.
  rewrite Hc. simpl. unfold in_env, decode, upd_msg, call_codec, modify, mbind, M_bind. simpl.
  assert (msg_LocalAddr (setOpt s zero_msg) = None) as Hl.
  { by destruct (setOpt_eq s zero_msg) as (a & b & d & ->). }
  specialize (Hd _ (world (env st)).1 Hl). destruct (ServerDecode _ _ _) as [[r m] w]. simpl in Hd. by rewrite Hd.
Qed.
End rpc.

(** ** Examples *)
Module RpcExamples.
Import Sample.

Ltac go_eval := vm_compute; reflexivity.

(** Requests and responses are their bytes. *)
#[local] Instance runtime : Runtime (InitMetas * unit) bytes bytes := {|
  is_pointer := λ _, true;
  is_nil := λ _, false;
  AssignableTo := λ _ _, true;
  type_name := λ _, "*[]uint8";
  now := λ _, 0%Z;
  compressors := ∅;
  serializers := {[0%Z := MkSerializer (λ b _, (b, Ok ())) Ok]}
|}.

Definition client0 : msg :=
  zero_msg <| callerServiceName := "trpc.a.b.c" |> <| calleeServiceName := "trpc.d.e.f" |>
    <| clientRPCName := "/trpc.d.e.f/M" |> <| requestTimeout := 5000000%Z |>.
Definition client2 : msg := client0 <| clientRPCName := "/trpc.d.e.f/N" |>.

Definition req0 : RequestProtocol :=
  MkReq 0 0 1 5 (str_bytes "trpc.a.b.c") (str_bytes "trpc.d.e.f") (str_bytes "/trpc.d.e.f/M")
    0 ∅ 0 0 0.
Definition req2 : RequestProtocol := req0 <| req_Func := str_bytes "/trpc.d.e.f/N" |>.
Definition rsp0 : ResponseProtocol := newResponseProtocol req0.
Definition no_func : string :=
  "service handle: rpc name /trpc.d.e.f/N invalid, current service:trpc.d.e.f".
Definition rsp2 : ResponseProtocol :=
  rsp0 <| rsp_Ret := 12%Z |> <| rsp_ErrorMsg := str_bytes no_func |>.

#[local] Instance req_msg : Message RequestProtocol :=
  table [(zero_req, []); (req0, str_bytes "R"); (req2, str_bytes "S")].
#[local] Instance req_msg_ok : MessageOk RequestProtocol.
Proof. apply table_ok. apply (bool_decide_unpack _). vm_compute. done. Defined.
#[local] Instance rsp_msg : Message ResponseProtocol :=
  table [(zero_rsp, []); (rsp0, str_bytes "P"); (rsp2, str_bytes "Q")].
#[local] Instance rsp_msg_ok : MessageOk ResponseProtocol.
Proof. apply table_ok. apply (bool_decide_unpack _). vm_compute. done. Defined.
#[local] Instance init_msg : Message TrpcStreamInitMeta := table [].
#[local] Instance close_msg : Message TrpcStreamCloseMeta := table [].
#[local] Instance feedback_msg : Message TrpcStreamFeedBackMeta := table [].

Definition no_leftover : bytes → ResponseProtocol := λ _, zero_rsp.
Definition limit : Z := 100.

(** A service with one method, which answers a request with its bytes twice. *)
Definition twice : ServerHandleFunc (InitMetas * unit) bytes bytes :=
  λ _ q, mret (Some (q ++ q), None).
Definition server : @service (InitMetas * unit) bytes bytes unit unit :=
  MkService (defaultOptions <| Codec := Some (trpc_codec limit) |> <| ServiceName := "trpc.d.e.f" |>)
    {["/trpc.d.e.f/M" := stub [] twice]} ∅ ∅.
Definition conn : @tcpconn (InitMetas * unit) bytes :=
  MkTcpConn (Some (MkAddr "tcp" "l")) (Some (MkAddr "tcp" "r")) None None.
Definition st0 : @SvcState (InitMetas * unit) bytes unit :=
  MkSvc (MkEnv ∅ zero_msg (∅, ()) None) 0 None [].

Definition sent (c : msg) : result bytes * msg := (ClientEncode limit "p" "" 0 c (str_bytes "ab")).1.
Definition frame (c : msg) : bytes := match (sent c).1 with Ok buf => buf | _ => [] end.

Lemma client0_calls : calls limit "p" "" 0 client0 (sent client0).2 (str_bytes "ab") (frame client0).
Proof. split; [go_eval..|discriminate|]. exists 1%Z. go_eval. Defined.
Lemma client2_calls : calls limit "p" "" 0 client2 (sent client2).2 (str_bytes "ab") (frame client2).
Proof. split; [go_eval..|discriminate|]. exists 1%Z. go_eval. Defined.

Lemma unary_call_witness :
  ∃ rspbuf c'', (handleSyncWithErr conn server (frame client0) None st0).1 = Some (Written rspbuf) ∧
    ClientDecode no_leftover (sent client0).2 rspbuf = (Ok (str_bytes "abab"), c'') ∧
    msg_ClientRspErr c'' = None.
Proof.
  set (e1 := request_env limit server conn (frame client0) st0).
  destruct (unary_call limit "p" no_leftover server conn st0 "" 0 client0 (sent client0).2
    (str_bytes "ab") (frame client0) [] twice) as [_ Hcall];
    [go_eval|go_eval|exact client0_calls|split; reflexivity|reflexivity|].
  assert (keeps e1 e1) as Hk by (split; go_eval).
  specialize (Hcall (str_bytes "ab") (Some (str_bytes "abab")) e1).
  assert ((msg_CallType (emsg e1) =? TRPC_ONEWAY_CALL)%Z = false) as Hway by go_eval.
  rewrite Hway in Hcall.
  destruct (Hcall ltac:(go_eval) ltac:(go_eval) Hk (str_bytes "abab") ltac:(go_eval))
    as (rspbuf & c'' & H1 & H2 & H3).
  { exists (str_bytes "P"). split; [go_eval|]. split; [go_eval|]. split; [|go_eval].
    vm_compute. discriminate. }
  exists rspbuf, c''. split; [exact H1|]. split; [exact H2|].
  rewrite (got_err _ _ _ _ H3). go_eval.
Defined.

Lemma unary_call_failed_witness :
  ∃ rspbuf c'', (handleSyncWithErr conn server (frame client2) None st0).1 = Some (Written rspbuf) ∧
    ClientDecode no_leftover (sent client2).2 rspbuf = (Ok [], c'') ∧
    msg_ClientRspErr c'' = Some (Status ErrorTypeCalleeFramework 12 no_func "trpc").
Proof.
  set (e1 := request_env limit server conn (frame client2) st0).
  destruct (unary_call_failed limit "p" no_leftover server conn st0 "" 0 client2 (sent client2).2
    (str_bytes "ab") (frame client2)) as [_ Hcall];
    [go_eval|go_eval|exact client2_calls|split; reflexivity|].
  assert (keeps e1 e1) as Hk by (split; go_eval).
  assert (find_handler server (msg_ServerRPCName (emsg e1)) = None) as Hf by go_eval.
  assert (handle server background (str_bytes "ab") e1 = (Some (None, Some (errNoFunc (emsg e1))), e1)) as Hh.
  { unfold handle, gets, mbind, M_bind. rewrite Hf. reflexivity. }
  specialize (Hcall None (errNoFunc (emsg e1)) e1 Hh Hk).
  rewrite decide_False in Hcall by discriminate.
  destruct Hcall as (rspbuf & c'' & H1 & H2 & H3).
  { exists (str_bytes "Q"). split; [go_eval|]. split; [go_eval|]. split; [|go_eval].
    vm_compute. discriminate. }
  exists rspbuf, c''. split; [exact H1|]. split; [exact H2|].
  rewrite (got_err _ _ _ _ H3). go_eval.
Defined.

(** The key of a request is its body. *)
Definition by_body : Env (InitMetas * unit) bytes → bytes → option string :=
  λ _ b, Some (bytes_str b).

Lemma pre_decode_same_witness :
  ∃ t st1, handleKeepOrderPreDecode conn server by_body (frame client0) st0 = (Some (Some ("ab", t)), st1) ∧
    (t st0).1 = Some (default Recovered (handleSyncWithErr conn server (frame client0) None st0).1).
Proof.
  destruct (pre_decode_same limit "p" server conn st0 "" 0 client0 (sent client0).2 (str_bytes "ab")
    (frame client0) by_body) as (m & st1 & _ & _ & H1 & H2);
    [go_eval|exact client0_calls|split; reflexivity|].
  eexists _, st1. split; [exact H1|]. apply H2; reflexivity.
Defined.

Definition data_head : FrameHead := newDefaultUnaryFrameHead
  <| FrameType := TRPC_STREAM_FRAME |> <| StreamFrameType := TRPC_STREAM_FRAME_DATA |>
  <| TotalLen := 17%Z |>.

Lemma pre_decode_stream_panics_witness :
  (tcp_handle (MkTcpConn (conn_localAddr conn) (conn_remoteAddr conn) (Some by_body) None) server None
     (frame_of data_head [] [Byte.x00] []) st0).1 = None.
Proof.
  apply (pre_decode_stream_panics limit server _ st0 None by_body (frame_of data_head [] [Byte.x00] [])
    data_head);
    [reflexivity|reflexivity|vm_compute; discriminate|go_eval|go_eval|go_eval|right; left|].
  intros E. vm_compute in E. discriminate E.
Defined.
End RpcExamples.
