(* ===== verification/Naming.v ===== *)
(** The choice of a backend node: nodes (naming/registry/node.go), the nodes that a request avoids
    (naming/bannednodes/banned_nodes.go), the selectors (naming/selector) and the random load balancer
    (naming/loadbalance/random.go).

    Computations run on a state that has the banned nodes of the request's context and the random
    numbers.  Pointers to nodes are not nil; nodes are values, as every selector returns a fresh one. *)

From S2P Require Import Prelude GoStrings Msg Service.
From Stdlib Require Import Ascii.

(** What a value of a node's metadata may be: a circuit breaker, which [Report] looks for. *)
Inductive metadata (CB : Type) : Type := Breaker (cb : CB) | OtherMeta (tag : string).
Arguments Breaker {CB}.
Arguments OtherMeta {CB}.

(** A nil map is told apart from an empty one. *)
Record Node (CB : Type) := MkNode {
  n_ServiceName : string;
  n_ContainerName : string;
  n_Address : string;
  n_Network : string;
  n_Protocol : string;
  n_SetName : string;
  n_Weight : Z;
  n_CostTime : Z;
  n_EnvKey : string;
  n_Metadata : option (gmap string (metadata CB));
  n_ParseAddr : option (string → string → option Addr)
}.
Arguments MkNode {CB}.
Arguments n_ServiceName {CB}.
Arguments n_ContainerName {CB}.
Arguments n_Address {CB}.
Arguments n_Network {CB}.
Arguments n_Protocol {CB}.
Arguments n_SetName {CB}.
Arguments n_Weight {CB}.
Arguments n_CostTime {CB}.
Arguments n_EnvKey {CB}.
Arguments n_Metadata {CB}.
Arguments n_ParseAddr {CB}.

#[global] Instance eta_Node {CB} : Eta (Node CB) := λ n,
  MkNode (n_ServiceName n) (n_ContainerName n) (n_Address n) (n_Network n) (n_Protocol n) (n_SetName n)
    (n_Weight n) (n_CostTime n) (n_EnvKey n) (n_Metadata n) (n_ParseAddr n).

(** [&registry.Node{ServiceName: s, Address: a}] *)
Definition new_node {CB} (s a : string) : Node CB := MkNode s "" a "" "" "" 0 0 "" None None.

Definition ErrNoServerAvailable : error := Plain "no server is available".

(** The context of a request holds banned nodes and whether they are mandatory, or it does not;
    [set_bans] writes through the pointer that it holds.  [Intn] is [safeRand.Intn]. *)
Class NamingState (CB W : Type) := {
  bans : W → option (list (Node CB) * bool);
  set_bans : list (Node CB) → W → W;
  Intn : nat → W → nat * W
}.

Class NamingOk (CB W : Type) `{!NamingState CB W} := {
  bans_set : ∀ l s, bans (set_bans l s) = (λ '(_, mandatory), (l, mandatory)) <$> bans s;
  Intn_lt : ∀ n s, 0 < n → (Intn n s).1 < n;
  bans_Intn : ∀ n s, bans (Intn n s).2 = bans s
}.

Section naming.
Context {CB W : Type} `{!NamingState CB W}.

Definition intn (n : nat) : M W nat := λ s, let '(r, s) := Intn n s in (Some r, s).

(** ** Banned nodes *)

Definition FromCtx : M W (option (list (Node CB) * bool)) := gets bans.

Definition Add (node : Node CB) : M W () := λ s,
  match bans s with
  | None => (Some (), s)
  | Some (nodes, _) => (Some (), set_bans (node :: nodes) s)
  end.

Fixpoint Range (nodes : list (Node CB)) (f : Node CB → bool) : bool :=
  match nodes with
  | [] => true
  | n :: next => if f n then Range next f else false
  end.

Definition unbanned (bs : list (Node CB)) (addr : string) : bool :=
  Range bs (λ n, negb (bool_decide (n_Address n = addr))).

(** ** The selector of ip lists (naming/selector/ip_selector.go) *)

Definition comma : byte := ch ",".

(** The loop of [chooseOne], for [i] from 0 to [r]. *)
Fixpoint nth_part (r : nat) (serviceName : bytes) : bytes :=
  let j := index comma serviceName in
  if (j <? 0)%Z then serviceName else
  match r with
  | O => sub serviceName 0 j
  | S r => nth_part r (from serviceName (j + 1))
  end.

Definition ip_chooseOne (serviceName : bytes) : M W bytes :=
  let num := (count comma serviceName + 1)%nat in
  if (num =? 1)%nat then mret serviceName else
  r ← intn num;
  mret (nth_part r serviceName).

(** Each round removes an address that is banned. *)
Fixpoint ip_chooseUnbanned (fuel : nat) (addrs : list bytes) (bs : list (Node CB))
    : M W (bytes + error) :=
  match fuel, addrs with
  | O, _ | _, [] => mret (inr (Plain "no available targets"))
  | S fuel, _ =>
    r ← intn (length addrs);
    match addrs !! r with
    | None => panic
    | Some a =>
      if unbanned bs (bytes_str a) then mret (inl a)
      else ip_chooseUnbanned fuel (take r addrs ++ drop (S r) addrs) bs
    end
  end.

(** [Select]; the context of the options is nil or that of the request. *)
Definition ip_Select (hasCtx : bool) (serviceName : string) : M W (Node CB + error) :=
  if decide (serviceName = "") then mret (inr (Plain "serviceName empty")) else
  let s := str_bytes serviceName in
  let any := (a ← ip_chooseOne s; mret (inl (new_node serviceName (bytes_str a)))) in
  if negb hasCtx then any else
  bs ← FromCtx;
  match bs with
  | None => any
  | Some (bs, mandatory) =>
    let addrs := split comma s in
    r ← ip_chooseUnbanned (length addrs) addrs bs;
    r ← match r with
        | inr _ => if (mandatory : bool) then mret r else a ← ip_chooseOne s; mret (inl a)
        | inl _ => mret r
        end;
    match r with
    | inr e => mret (inr e)
    | inl a =>
      let node := new_node serviceName (bytes_str a) in
      _ ← Add node;
      mret (inl node)
    end
  end.

(** ** The random load balancer (naming/loadbalance/random.go) *)

Definition random_chooseOne (nodes : list (Node CB)) : M W (Node CB + error) :=
  match nodes with
  | [] => mret (inr ErrNoServerAvailable)
  | _ =>
    i ← intn (length nodes);
    match nodes !! i with Some n => mret (inl n) | None => panic end
  end.

(** The loop over the offsets, [n] of them left; a node out of range would be a panic. *)
Fixpoint unbanned_from (n offset : nat) (nodes bs : list (Node CB)) (i : nat) : result (Node CB) :=
  match n with
  | O => Err ErrNoServerAvailable
  | S n =>
    match nodes !! ((i + offset) mod length nodes)%nat with
    | None => Panic
    | Some node =>
      if unbanned bs (n_Address node) then Ok node
      else unbanned_from n (offset + 1) nodes bs i
    end
  end.

Definition random_chooseUnbanned (nodes : list (Node CB)) (bs : list (Node CB))
    : M W (Node CB + error) :=
  match nodes with
  | [] => mret (inr ErrNoServerAvailable)
  | _ =>
    i ← intn (length nodes);
    of_result (unbanned_from (length nodes) 0 nodes bs i)
  end.

Definition random_Select (hasCtx : bool) (nodes : list (Node CB)) : M W (Node CB + error) :=
  if negb hasCtx then random_chooseOne nodes else
  bs ← FromCtx;
  match bs with
  | None => random_chooseOne nodes
  | Some (bs, mandatory) =>
    r ← random_chooseUnbanned nodes bs;
    r ← match r with
        | inr _ => if (mandatory : bool) then mret r else random_chooseOne nodes
        | inl _ => mret r
        end;
    match r with
    | inr e => mret (inr e)
    | inl node => _ ← Add node; mret (inl node)
    end
  end.
End naming.

(** ** The selector of services (naming/selector/trpc_selector.go, naming/selector/options.go) *)

(** An option handed on to discovery, service router or load balancer. *)
Inductive part_option :=
| PContext
| PNamespace (s : string)
| PSourceSetName (s : string)
| PKey (s : string)
| PReplicas (r : Z)
| PDisableServiceRouter
| PLoadBalanceType (s : string)
| PEnvKey (s : string)
| PSourceNamespace (s : string)
| PSourceServiceName (s : string)
| PDestinationEnvName (s : string)
| PSourceEnvName (s : string)
| PEnvTransfer (s : string)
| PDestinationSetName (s : string)
| PSourceMetadata (k v : string)
| PDestinationMetadata (k v : string).

#[global] Instance part_option_eq_dec : EqDecision part_option.
Proof. solve_decision. Defined.

Record SelOptions (CB W : Type) := MkSelOptions {
  sel_Ctx : bool;
  sel_Key : string;
  sel_Replicas : Z;
  sel_EnvKey : string;
  sel_Namespace : string;
  sel_SourceNamespace : string;
  sel_SourceServiceName : string;
  sel_SourceEnvName : string;
  sel_SourceSetName : string;
  sel_SourceMetadata : gmap string string;
  sel_DestinationEnvName : string;
  sel_DestinationSetName : string;
  sel_DestinationMetadata : gmap string string;
  sel_LoadBalanceType : string;
  sel_EnvTransfer : string;
  Discovery : option (string → list part_option → M W (list (Node CB) + error));
  DiscoveryOptions : list part_option;
  ServiceRouter : option (string → list (Node CB) → list part_option → M W (list (Node CB) + error));
  ServiceRouterOptions : list part_option;
  LoadBalancer : option (string → list (Node CB) → list part_option → M W (Node CB + error));
  LoadBalanceOptions : list part_option;
  CircuitBreaker : option CB;
  sel_DisableServiceRouter : bool
}.
Arguments MkSelOptions {CB W}.
Arguments sel_Ctx {CB W}.
Arguments sel_Key {CB W}.
Arguments sel_Replicas {CB W}.
Arguments sel_EnvKey {CB W}.
Arguments sel_Namespace {CB W}.
Arguments sel_SourceNamespace {CB W}.
Arguments sel_SourceServiceName {CB W}.
Arguments sel_SourceEnvName {CB W}.
Arguments sel_SourceSetName {CB W}.
Arguments sel_SourceMetadata {CB W}.
Arguments sel_DestinationEnvName {CB W}.
Arguments sel_DestinationSetName {CB W}.
Arguments sel_DestinationMetadata {CB W}.
Arguments sel_LoadBalanceType {CB W}.
Arguments sel_EnvTransfer {CB W}.
Arguments Discovery {CB W}.
Arguments DiscoveryOptions {CB W}.
Arguments ServiceRouter {CB W}.
Arguments ServiceRouterOptions {CB W}.
Arguments LoadBalancer {CB W}.
Arguments LoadBalanceOptions {CB W}.
Arguments CircuitBreaker {CB W}.
Arguments sel_DisableServiceRouter {CB W}.

#[global] Instance eta_SelOptions {CB W} : Eta (SelOptions CB W) := λ o,
  MkSelOptions (sel_Ctx o) (sel_Key o) (sel_Replicas o) (sel_EnvKey o) (sel_Namespace o)
    (sel_SourceNamespace o) (sel_SourceServiceName o) (sel_SourceEnvName o) (sel_SourceSetName o)
    (sel_SourceMetadata o) (sel_DestinationEnvName o) (sel_DestinationSetName o)
    (sel_DestinationMetadata o) (sel_LoadBalanceType o) (sel_EnvTransfer o) (Discovery o)
    (DiscoveryOptions o) (ServiceRouter o) (ServiceRouterOptions o) (LoadBalancer o)
    (LoadBalanceOptions o) (CircuitBreaker o) (sel_DisableServiceRouter o).

Section selector.
Context {CB W : Type} `{!NamingState CB W}.

Definition SelOption : Type := SelOptions CB W → SelOptions CB W.

Definition to_discovery (p : part_option) (o : SelOptions CB W) : SelOptions CB W :=
  o <| DiscoveryOptions := DiscoveryOptions o ++ [p] |>.
Definition to_router (p : part_option) (o : SelOptions CB W) : SelOptions CB W :=
  o <| ServiceRouterOptions := ServiceRouterOptions o ++ [p] |>.
Definition to_balancer (p : part_option) (o : SelOptions CB W) : SelOptions CB W :=
  o <| LoadBalanceOptions := LoadBalanceOptions o ++ [p] |>.

Definition sel_WithContext : SelOption := λ o,
  to_router PContext (to_balancer PContext (to_discovery PContext (o <| sel_Ctx := true |>))).
Definition sel_WithNamespace (s : string) : SelOption := λ o,
  to_router (PNamespace s) (to_balancer (PNamespace s) (to_discovery (PNamespace s)
    (o <| sel_Namespace := s |>))).
Definition sel_WithSourceSetName (s : string) : SelOption := λ o,
  to_router (PSourceSetName s) (o <| sel_SourceSetName := s |>).
Definition sel_WithKey (s : string) : SelOption := λ o, to_balancer (PKey s) (o <| sel_Key := s |>).
Definition sel_WithReplicas (r : Z) : SelOption := λ o,
  to_balancer (PReplicas r) (o <| sel_Replicas := r |>).
Definition sel_WithDisableServiceRouter : SelOption := λ o,
  to_router PDisableServiceRouter (o <| sel_DisableServiceRouter := true |>).
Definition sel_WithDiscovery d : SelOption := λ o, o <| Discovery := d |>.
Definition sel_WithServiceRouter r : SelOption := λ o, o <| ServiceRouter := r |>.
Definition sel_WithLoadBalancer b : SelOption := λ o, o <| LoadBalancer := b |>.
Definition sel_WithLoadBalanceType (s : string) : SelOption := λ o,
  to_balancer (PLoadBalanceType s) (o <| sel_LoadBalanceType := s |>).
Definition sel_WithCircuitBreaker (cb : option CB) : SelOption := λ o, o <| CircuitBreaker := cb |>.
Definition sel_WithEnvKey (s : string) : SelOption := λ o,
  to_router (PEnvKey s) (o <| sel_EnvKey := s |>).
Definition sel_WithSourceNamespace (s : string) : SelOption := λ o,
  to_router (PSourceNamespace s) (o <| sel_SourceNamespace := s |>).
Definition sel_WithSourceServiceName (s : string) : SelOption := λ o,
  to_router (PSourceServiceName s) (o <| sel_SourceServiceName := s |>).
Definition sel_WithDestinationEnvName (s : string) : SelOption := λ o,
  to_router (PDestinationEnvName s) (o <| sel_DestinationEnvName := s |>).
Definition sel_WithSourceEnvName (s : string) : SelOption := λ o,
  to_router (PSourceEnvName s) (o <| sel_SourceEnvName := s |>).
Definition sel_WithEnvTransfer (s : string) : SelOption := λ o,
  to_router (PEnvTransfer s) (o <| sel_EnvTransfer := s |>).
Definition sel_WithDestinationSetName (s : string) : SelOption := λ o,
  to_router (PDestinationSetName s) (o <| sel_DestinationSetName := s |>).
Definition sel_WithSourceMetadata (k v : string) : SelOption := λ o,
  to_router (PSourceMetadata k v) (o <| sel_SourceMetadata := <[k := v]> (sel_SourceMetadata o) |>).
Definition sel_WithDestinationMetadata (k v : string) : SelOption := λ o,
  to_router (PDestinationMetadata k v)
    (o <| sel_DestinationMetadata := <[k := v]> (sel_DestinationMetadata o) |>).

Definition apply_options (opt : list SelOption) (o : SelOptions CB W) : SelOptions CB W :=
  foldl (λ o f, f o) o opt.

(** [var o Options] *)
Definition zero_SelOptions : SelOptions CB W :=
  MkSelOptions false "" 0 "" "" "" "" "" "" ∅ "" "" ∅ "" "" None [] None [] None [] None false.

(** A selector: its [Select] and [Report]. *)
Record Selector := MkSelector {
  Select : string → list SelOption → M W (Node CB + error);
  Report : Node CB → Z → option go_err → M W (option error)
}.

(** The defaults that the packages of naming declare. *)
Record Defaults := MkDefaults {
  DefaultDiscovery : option (string → list part_option → M W (list (Node CB) + error));
  DefaultServiceRouter :
    option (string → list (Node CB) → list part_option → M W (list (Node CB) + error));
  DefaultLoadBalancer : option (string → list (Node CB) → list part_option → M W (Node CB + error));
  DefaultCircuitBreaker : option CB
}.

(** [IPDiscovery.List], [NoopServiceRouter.Filter] and the random balancer as components. *)
Definition IPDiscovery_List (serviceName : string) (_ : list part_option)
    : M W (list (Node CB) + error) := mret (inl [new_node serviceName serviceName]).
Definition NoopServiceRouter_Filter (_ : string) (nodes : list (Node CB)) (_ : list part_option)
    : M W (list (Node CB) + error) := mret (inl nodes).
Definition Random_Select (_ : string) (nodes : list (Node CB)) (opts : list part_option)
    : M W (Node CB + error) := random_Select (bool_decide (PContext ∈ opts)) nodes.

Definition circuitbreaker_key : string := "circuitbreaker".

(** The last lines of [Select]. *)
Definition with_breaker (cb : CB) (node : Node CB) : Node CB :=
  let m := default ∅ (n_Metadata node) in
  node <| n_Metadata := Some (<[circuitbreaker_key := Breaker cb]> m) |>.

(** The options that [Select] starts from. *)
Definition default_options (d : Defaults) : SelOptions CB W :=
  zero_SelOptions <| Discovery := DefaultDiscovery d |> <| LoadBalancer := DefaultLoadBalancer d |>
    <| ServiceRouter := DefaultServiceRouter d |> <| CircuitBreaker := DefaultCircuitBreaker d |>.

Definition trpc_Select (d : Defaults) (serviceName : string) (opt : list SelOption)
    : M W (Node CB + error) :=
  if decide (serviceName = "") then mret (inr (Plain "service name empty")) else
  let opts := apply_options opt (default_options d) in
  match Discovery opts with
  | None => mret (inr (Plain "discovery not exists"))
  | Some List =>
    r ← List serviceName (DiscoveryOptions opts);
    match r with
    | inr e => mret (inr e)
    | inl list =>
      match ServiceRouter opts with
      | None => mret (inr (Plain "servicerouter not exists"))
      | Some Filter =>
        r ← Filter serviceName list (ServiceRouterOptions opts);
        match r with
        | inr e => mret (inr e)
        | inl list =>
          match LoadBalancer opts, CircuitBreaker opts with
          | None, _ => mret (inr (Plain "loadbalancer not exists"))
          | _, None => mret (inr (Plain "circuitbreaker not exists"))
          | Some Balance, Some cb =>
            r ← Balance serviceName list (LoadBalanceOptions opts);
            match r with
            | inr e => mret (inr e)
            | inl node => mret (inl (with_breaker cb node))
            end
          end
        end
      end
    end
  end.

Definition ErrReportMetaDataEmpty : error := Plain "selector report metadata empty".
Definition ErrReportNoCircuitBreaker : error := Plain "selector report not circuitbreaker".
Definition ErrReportInvalidCircuitBreaker : error := Plain "selector report circuitbreaker invalid".

(** [breaker_Report] is the method of circuit breakers. *)
Definition trpc_Report (breaker_Report : CB → Node CB → Z → option go_err → M W (option error))
    (node : Node CB) (cost : Z) (err : option go_err) : M W (option error) :=
  match n_Metadata node with
  | None => mret (Some ErrReportMetaDataEmpty)
  | Some m =>
    match m !! circuitbreaker_key with
    | None => mret (Some ErrReportNoCircuitBreaker)
    | Some (Breaker cb) => breaker_Report cb node cost err
    | Some (OtherMeta _) => mret (Some ErrReportInvalidCircuitBreaker)
    end
  end.

Definition TrpcSelector (d : Defaults) breaker_Report : Selector :=
  MkSelector (trpc_Select d) (trpc_Report breaker_Report).

Definition no_report : Node CB → Z → option go_err → M W (option error) := λ _ _ _, mret None.

Definition ipSelector : Selector :=
  MkSelector (λ serviceName opt, ip_Select (sel_Ctx (apply_options opt zero_SelOptions)) serviceName)
    no_report.

Definition passthroughSelector : Selector :=
  MkSelector (λ serviceName _, mret (inl (new_node serviceName serviceName))) no_report.

(** The registry of selectors (naming/selector/selector.go). *)
Definition Register (selectors : gmap string Selector) (name : string) (s : Selector)
    : gmap string Selector := <[name := s]> selectors.
Definition Get (selectors : gmap string Selector) (name : string) : option Selector := selectors !! name.
End selector.
Arguments Selector : clear implicits.
Arguments SelOption : clear implicits.
Arguments Defaults : clear implicits.

(** ** Lemmas *)

Section naming_lemmas.
Context {CB W : Type} `{NamingOk CB W}.
Implicit Types (bs nodes : list (Node CB)) (s : W).

Definition addresses (nodes : list (Node CB)) : list string := n_Address <$> nodes.

Lemma unbanned_true bs a : unbanned bs a = true ↔ a ∉ addresses bs.
Proof.
  unfold unbanned, addresses. induction bs as [|n bs IH]; csimpl.
  - split; [intros _; apply not_elem_of_nil|done].
  - rewrite not_elem_of_cons, <- IH. case_bool_decide; simpl; naive_solver.
Qed.

Lemma unbanned_false bs a : unbanned bs a = false ↔ a ∈ addresses bs.
Proof.
  rewrite <- not_true_iff_false, unbanned_true. split; [apply dec_stable|tauto].
Qed.

Lemma Add_eq n s bs mandatory :
  bans s = Some (bs, mandatory) →
  ∃ s', Add n s = (Some (), s') ∧ bans s' = Some (n :: bs, mandatory).
Proof.
  intros Hs. unfold Add. rewrite Hs. eexists; split; [done|]. by rewrite bans_set, Hs.
Qed.

Lemma intn_eq n s :
  0 < n → ∃ r s', intn n s = (Some r, s') ∧ r < n ∧ bans s' = bans s.
Proof.
  intros Hn. pose proof (Intn_lt n s Hn). pose proof (bans_Intn n s).
  unfold intn. destruct (Intn n s) as [r s']. eauto.
Qed.

Lemma nth_part_split r l : r ≤ count comma l → split comma l !! r = Some (nth_part r l).
Proof.
  revert l. induction r as [|r IH]; intros l Hr; simpl;
    (destruct (index_cases comma l) as [[-> Hl]|(p & q & -> & -> & Hp)];
     [rewrite split_no_sep by done|
      rewrite split_app_sep, (proj2 (Z.ltb_ge _ _)) by (done || apply zlen_nonneg); simpl]).
  - done.
  - f_equal. symmetry. apply (sub_app [] p (comma :: q)).
  - apply count_0 in Hl. lia.
  - rewrite IH.
    + do 2 f_equal. unfold from, zlen. by rewrite (cons_middle _ p), app_assoc, drop_app_length' by
        (rewrite length_app; simpl; lia).
    + rewrite count_app in Hr. apply count_0 in Hp. simpl in Hr. lia.
Qed.

Lemma ip_chooseOne_eq name s :
  ∃ a s', ip_chooseOne name s = (Some a, s') ∧ a ∈ split comma name ∧ bans s' = bans s.
Proof.
  unfold ip_chooseOne. destruct (Nat.eqb_spec (count comma name + 1) 1) as [E|E].
  - exists name, s. rewrite split_no_sep by (apply count_0; lia). set_solver.
  - destruct (intn_eq (count comma name + 1) s) as (r & s' & E' & Hr & Hs); [lia|].
    unfold mbind, M_bind. rewrite E'. eexists _, s'. split; [done|]. split; [|done].
    eapply list_elem_of_lookup_2, nth_part_split. lia.
Qed.

(** Random choice with removal finds an address that is not banned when there is one. *)
Lemma ip_chooseUnbanned_eq fuel addrs bs s :
  length addrs ≤ fuel →
  ∃ r s', ip_chooseUnbanned fuel addrs bs s = (Some r, s') ∧ bans s' = bans s ∧
    match r with
    | inl a => a ∈ addrs ∧ bytes_str a ∉ addresses bs
    | inr _ => ∀ a, a ∈ addrs → bytes_str a ∈ addresses bs
    end.
Proof.
  revert addrs s. induction fuel as [|fuel IH]; intros [|a addrs] s Hf; simpl in Hf; try lia.
  1-2: by eexists _, s; split_and!; [done..|]; intros b Hb%not_elem_of_nil.
  cbn [ip_chooseUnbanned]. unfold mbind, M_bind.
  set (l := a :: addrs) in *. destruct (intn_eq (length l) s) as (r & s1 & E & Hr & Hs); [simpl; lia|].
  destruct (lookup_lt_is_Some_2 l r Hr) as [b Hb].
  rewrite E, Hb. destruct (unbanned bs (bytes_str b)) eqn:Eb.
  - eexists _, s1. split; [done|]. split; [done|]. split; [by eapply list_elem_of_lookup_2|].
    by apply unbanned_true.
  - destruct (IH (take r l ++ drop (S r) l) s1) as (x & s2 & Ex & Hs2 & Hx).
    { rewrite length_app, length_take, length_drop. simpl in *. lia. }
    exists x, s2. split; [done|]. split; [congruence|]. destruct x as [x|e].
    + split; [|tauto]. destruct Hx as [[Hx|Hx]%elem_of_app _].
      * by eapply subseteq_take.
      * by eapply subseteq_drop.
    + intros c Hc. rewrite <- (take_drop_middle _ _ _ Hb) in Hc.
      apply elem_of_app in Hc as [Hc|[->|Hc]%elem_of_cons].
      * apply Hx. set_solver.
      * by apply unbanned_false.
      * apply Hx. set_solver.
Qed.

(** The scan from a random position visits every node. *)
Lemma unbanned_from_eq n offset nodes bs i :
  nodes ≠ [] →
  match unbanned_from n offset nodes bs i with
  | Ok node => node ∈ nodes ∧ n_Address node ∉ addresses bs
  | Err e => e = ErrNoServerAvailable ∧ ∀ j node, offset ≤ j < offset + n →
      nodes !! ((i + j) mod length nodes) = Some node → n_Address node ∈ addresses bs
  | Panic => False
  end.
Proof.
  intros Hn. revert offset. induction n as [|n IH]; intros offset; simpl.
  { split; [done|]. lia. }
  assert ((i + offset) mod length nodes < length nodes) as Hlt.
  { apply Nat.mod_upper_bound. by destruct nodes. }
  destruct (lookup_lt_is_Some_2 _ _ Hlt) as [node Hnode]. rewrite Hnode.
  destruct (unbanned bs (n_Address node)) eqn:E.
  - split; [by eapply list_elem_of_lookup_2|]. by apply unbanned_true.
  - specialize (IH (offset + 1)). destruct (unbanned_from _ _ _ _ _); [done| |done].
    destruct IH as [-> IH]. split; [done|]. intros j node' Hj Hj'.
    destruct (decide (j = offset)) as [->|].
    + simplify_eq. by apply unbanned_false.
    + apply (IH j); [lia|done].
Qed.

Lemma rotate_onto i k n : i < n → k < n → ∃ j, j < n ∧ (i + j) mod n = k.
Proof.
  intros Hi Hk. destruct (decide (i ≤ k)).
  - exists (k - i). split; [lia|]. rewrite Nat.mod_small; lia.
  - exists (k + n - i). split; [lia|]. replace (i + _) with (k + 1 * n) by lia.
    rewrite Nat.Div0.mod_add. by apply Nat.mod_small.
Qed.

Lemma random_chooseOne_eq nodes s :
  nodes ≠ [] →
  ∃ node s', random_chooseOne nodes s = (Some (inl node), s') ∧ node ∈ nodes ∧ bans s' = bans s.
Proof.
  intros Hn. destruct (intn_eq (length nodes) s) as (r & s' & E & Hr & Hs).
  { destruct nodes; simpl; [done|lia]. }
  destruct (lookup_lt_is_Some_2 _ _ Hr) as [node Hnode].
  exists node, s'. split_and!; [|by eapply list_elem_of_lookup_2|done].
  unfold random_chooseOne, mbind, M_bind. destruct nodes; [done|]. by rewrite E, Hnode.
Qed.

Lemma random_chooseUnbanned_eq nodes bs s :
  nodes ≠ [] →
  ∃ r s', random_chooseUnbanned nodes bs s = (Some r, s') ∧ bans s' = bans s ∧
    match r with
    | inl node => node ∈ nodes ∧ n_Address node ∉ addresses bs
    | inr _ => ∀ node, node ∈ nodes → n_Address node ∈ addresses bs
    end.
Proof.
  intros Hn. destruct (intn_eq (length nodes) s) as (r & s' & E & Hr & Hs).
  { destruct nodes; simpl; [done|lia]. }
  pose proof (unbanned_from_eq (length nodes) 0 nodes bs r Hn) as Hu.
  assert (random_chooseUnbanned nodes bs s =
    of_result (unbanned_from (length nodes) 0 nodes bs r) s') as ->.
  { unfold random_chooseUnbanned, mbind, M_bind. destruct nodes; [done|]. by rewrite E. }
  destruct (unbanned_from _ _ _ _ _) as [node|e|] eqn:Ef; [| |done].
  - by exists (inl node), s'.
  - exists (inr e), s'. split; [done|]. split; [done|]. destruct Hu as [_ Hu].
    intros node [k Hk]%list_elem_of_lookup_1. pose proof (lookup_lt_Some _ _ _ Hk).
    destruct (rotate_onto r k (length nodes)) as (j & Hj & Ej); [done..|].
    apply (Hu j); [lia|by rewrite Ej].
Qed.

(** ** What a retrying request relies on

    [selects k sel] is [k] calls of [Select] on one context. *)
Fixpoint selects (k : nat) (sel : M W (Node CB + error)) : M W (list (Node CB + error)) :=
  match k with
  | O => mret []
  | S k => r ← sel; rs ← selects k sel; mret (r :: rs)
  end.

(** One call: an address of the pool that the request has not been sent to, as long as there is one;
    then an error, or any address when the bans are not mandatory. *)
Record picks (pool : gset string) (sel : M W (Node CB + error)) : Prop := {
  picks_fresh s bs mandatory :
    bans s = Some (bs, mandatory) → ¬ pool ⊆ list_to_set (addresses bs) →
    ∃ n s', sel s = (Some (inl n), s') ∧ n_Address n ∈ pool ∧ n_Address n ∉ addresses bs ∧
      bans s' = Some (n :: bs, mandatory);
  picks_over s bs :
    bans s = Some (bs, true) → pool ⊆ list_to_set (addresses bs) →
    ∃ e s', sel s = (Some (inr e), s') ∧ bans s' = Some (bs, true);
  picks_again s bs :
    bans s = Some (bs, false) → pool ⊆ list_to_set (addresses bs) →
    ∃ n s', sel s = (Some (inl n), s') ∧ n_Address n ∈ pool ∧ bans s' = Some (n :: bs, false)
}.

(** The calls of a request: the first ones, as many as the pool has addresses, each give another
    address of the pool; what follows depends on whether the bans are mandatory. *)
Definition exhausts (pool : gset string) (sel : M W (Node CB + error)) : Prop :=
  ∀ s mandatory k, bans s = Some ([], mandatory) →
    ∃ ns rs s', selects (size pool + k) sel s = (Some (map inl ns ++ rs), s') ∧
      NoDup (addresses ns) ∧ list_to_set (addresses ns) = pool ∧ length rs = k ∧
      Forall (λ r, match r with
                   | inl n => mandatory = false ∧ n_Address n ∈ pool
                   | inr _ => mandatory = true
                   end) rs.

Lemma selects_app j k sel s rs s' rs' s'' :
  selects j sel s = (Some rs, s') → selects k sel s' = (Some rs', s'') →
  selects (j + k) sel s = (Some (rs ++ rs'), s'').
Proof.
  revert s rs. induction j as [|j IH]; intros s rs; simpl; [by intros [= <- <-]|].
  unfold mbind, M_bind. destruct (sel s) as [[r|] s1]; [|done].
  destruct (selects j sel s1) as [[l|] s2] eqn:E; [|done]. intros [= <- <-] Hk.
  by rewrite (IH _ _ E Hk).
Qed.

Lemma picks_all pool sel j s bs mandatory :
  picks pool sel → bans s = Some (bs, mandatory) → size (pool ∖ list_to_set (addresses bs)) = j →
  ∃ ns s', selects j sel s = (Some (map inl ns), s') ∧ NoDup (addresses ns) ∧
    list_to_set (addresses ns) = pool ∖ list_to_set (addresses bs) ∧
    bans s' = Some (reverse ns ++ bs, mandatory).
Proof.
  intros Hp. revert s bs. induction j as [|j IH]; intros s bs Hs Hj.
  { exists [], s. split_and!; [done|constructor| |done]. symmetry. by apply size_empty_inv, leibniz_equiv in Hj. }
  destruct (picks_fresh _ _ Hp s bs mandatory) as (n & s1 & E & Hn & Hb & Hs1); [done| |].
  { intros Hsub. rewrite subseteq_empty_difference_L, size_empty in Hj by done. done. }
  destruct (IH s1 (n :: bs)) as (ns & s2 & E2 & Hnd & Hset & Hs2); [done| |].
  { csimpl. rewrite (union_comm_L {[_]}), <- difference_difference_l_L.
    rewrite size_difference, size_singleton by set_solver. lia. }
  exists (n :: ns), s2. simpl. unfold mbind, M_bind. rewrite E, E2. split; [done|].
  csimpl in *. assert (∀ x, x ∈ addresses ns ↔ x ∈ pool ∧ ¬ (x = n_Address n ∨ x ∈ addresses bs)) as Hin.
  { intros x. rewrite <- (elem_of_list_to_set (C:=gset string)), Hset. set_solver. }
  split_and!.
  - apply NoDup_cons. split; [|done]. rewrite Hin. tauto.
  - rewrite Hset. apply set_eq. intros x.
    destruct (decide (x = n_Address n)); set_solver.
  - rewrite Hs2, reverse_cons. by simplify_list_eq.
Qed.

Lemma picks_rest pool sel k s bs mandatory :
  picks pool sel → bans s = Some (bs, mandatory) → pool ⊆ list_to_set (addresses bs) →
  ∃ rs s', selects k sel s = (Some rs, s') ∧ length rs = k ∧
    Forall (λ r, match r with
                 | inl n => mandatory = false ∧ n_Address n ∈ pool
                 | inr _ => mandatory = true
                 end) rs.
Proof.
  intros Hp. revert s bs. induction k as [|k IH]; intros s bs Hs Hb; [by exists [], s|].
  simpl. unfold mbind, M_bind. destruct mandatory.
  - destruct (picks_over _ _ Hp s bs) as (e & s1 & -> & Hs1); [done..|].
    destruct (IH s1 bs) as (rs & s2 & -> & Hl & Hrs); [done..|].
    exists (inr e :: rs), s2. split; [done|]. split; [simpl; lia|]. by constructor.
  - destruct (picks_again _ _ Hp s bs) as (n & s1 & -> & Hn & Hs1); [done..|].
    destruct (IH s1 (n :: bs)) as (rs & s2 & -> & Hl & Hrs); [done|csimpl; set_solver|].
    exists (inl n :: rs), s2. split; [done|]. split; [simpl; lia|]. by constructor.
Qed.

Lemma picks_exhausts pool sel : picks pool sel → exhausts pool sel.
Proof.
  intros Hp s mandatory k Hs.
  destruct (picks_all pool sel (size pool) s [] mandatory) as (ns & s1 & E & Hnd & Hset & Hs1);
    [done..|by csimpl; rewrite difference_empty_L|].
  csimpl in Hset. rewrite difference_empty_L in Hset.
  destruct (picks_rest pool sel k s1 (reverse ns ++ []) mandatory) as (rs & s2 & E2 & Hl & Hrs);
    [done..| |].
  { unfold addresses in *. rewrite app_nil_r, fmap_reverse, <- Hset. intros x.
    rewrite !elem_of_list_to_set, elem_of_reverse. done. }
  exists ns, rs, s2. split_and!; [by eapply selects_app|done..].
Qed.

(** The common shape of the two selectors: [attempt] avoids the banned nodes, [any] does not. *)
Lemma select_picks {A} (mk : A → Node CB) pool sel
    (attempt : list (Node CB) → M W (A + error)) (any : M W (A + error)) :
  (∀ s bs mandatory, bans s = Some (bs, mandatory) →
    sel s = (r ← attempt bs;
             r ← match r with inr _ => if (mandatory : bool) then mret r else any | inl _ => mret r end;
             match r with
             | inr e => mret (inr e)
             | inl a => _ ← Add (mk a); mret (inl (mk a))
             end) s) →
  (∀ bs s, ∃ r s', attempt bs s = (Some r, s') ∧ bans s' = bans s ∧
    match r with
    | inl a => n_Address (mk a) ∈ pool ∧ n_Address (mk a) ∉ addresses bs
    | inr _ => pool ⊆ list_to_set (addresses bs)
    end) →
  (∀ s, ∃ a s', any s = (Some (inl a), s') ∧ bans s' = bans s ∧ n_Address (mk a) ∈ pool) →
  picks pool sel.
Proof.
  intros Hsel Htry Hany. split.
  - intros s bs mandatory Hs Hfresh. rewrite (Hsel _ _ _ Hs). unfold mbind, M_bind.
    destruct (Htry bs s) as ([a|e] & s1 & -> & Hs1 & Hr); [|done]. destruct Hr as [Hp Hb].
    destruct (Add_eq (mk a) s1 bs mandatory) as (s2 & E2 & Hs2); [congruence|].
    simpl. rewrite E2. by eexists _, s2.
  - intros s bs Hs Hover. rewrite (Hsel _ _ _ Hs). unfold mbind, M_bind.
    destruct (Htry bs s) as ([a|e] & s1 & -> & Hs1 & Hr).
    + exfalso. destruct Hr as [Hp []]. by apply Hover, elem_of_list_to_set in Hp.
    + exists e, s1. split; [done|congruence].
  - intros s bs Hs Hover. rewrite (Hsel _ _ _ Hs). unfold mbind, M_bind.
    destruct (Htry bs s) as ([a|e] & s1 & -> & Hs1 & Hr).
    + exfalso. destruct Hr as [Hp []]. by apply Hover, elem_of_list_to_set in Hp.
    + destruct (Hany s1) as (a & s2 & E2 & Hs2 & Ha). simpl. rewrite E2.
      destruct (Add_eq (mk a) s2 bs false) as (s3 & E3 & Hs3); [congruence|].
      simpl. rewrite E3. by eexists _, s3.
Qed.

Definition ip_pool (serviceName : string) : gset string :=
  list_to_set (bytes_str <$> split comma (str_bytes serviceName)).

Lemma elem_of_ip_pool a name : a ∈ split comma (str_bytes name) → bytes_str a ∈ ip_pool name.
Proof. intros Ha. unfold ip_pool. rewrite elem_of_list_to_set. by apply list_elem_of_fmap_2. Qed.

Lemma ip_picks name : name ≠ "" → picks (ip_pool name) (ip_Select true name).
Proof.
  intros Hn. set (addrs := split comma (str_bytes name)).
  apply (select_picks (λ a, new_node name (bytes_str a)) _ _ (ip_chooseUnbanned (length addrs) addrs)
    (a ← ip_chooseOne (str_bytes name); mret (inl a))).
  - intros s bs mandatory Hs. unfold ip_Select, FromCtx. rewrite decide_False by done.
    simpl. by rewrite gets_bind, Hs.
  - intros bs s. destruct (ip_chooseUnbanned_eq (length addrs) addrs bs s) as (r & s' & E & Hs' & Hr);
      [done|].
    exists r, s'. split_and!; [done..|]. destruct r as [a|e]; simpl.
    + destruct Hr. split; [by apply elem_of_ip_pool|done].
    + intros x. unfold ip_pool. rewrite !elem_of_list_to_set.
      intros (a & -> & Ha)%list_elem_of_fmap_1. by apply Hr.
  - intros s. destruct (ip_chooseOne_eq (str_bytes name) s) as (a & s' & E & Ha & Hs').
    exists a, s'. unfold mbind, M_bind. rewrite E. split_and!; [done..|by apply elem_of_ip_pool].
Qed.

Lemma random_picks nodes :
  nodes ≠ [] → picks (list_to_set (addresses nodes)) (random_Select true nodes).
Proof.
  intros Hn. assert (∀ n, n ∈ nodes → n_Address n ∈@{gset string} list_to_set (addresses nodes)) as Hin.
  { intros n Ha. rewrite elem_of_list_to_set. by apply list_elem_of_fmap_2. }
  apply (select_picks id _ _ (random_chooseUnbanned nodes) (random_chooseOne nodes)).
  - intros s bs mandatory Hs. unfold random_Select, FromCtx.
    simpl. by rewrite gets_bind, Hs.
  - intros bs s. destruct (random_chooseUnbanned_eq nodes bs s Hn) as (r & s' & E & Hs' & Hr).
    exists r, s'. split_and!; [done..|]. destruct r as [a|e]; simpl.
    + destruct Hr. by split; [apply Hin|].
    + intros x. rewrite !elem_of_list_to_set. intros (a & -> & Ha)%list_elem_of_fmap_1. by apply Hr.
  - intros s. destruct (random_chooseOne_eq nodes s Hn) as (a & s' & E & Ha & Hs').
    exists a, s'. split_and!; [done..|by apply Hin].
Qed.

(** C25. A request that is retried reaches every backend before any backend twice.  On a context with
    no banned nodes yet, successive calls of [Select] - of the ip selector on a list of addresses, or
    of the random load balancer on a list of nodes - give pairwise different addresses until all
    addresses of the list are used; further calls fail when the bans are mandatory, and otherwise
    return some address of the list. *)
Theorem retries_distinct name nodes :
  name ≠ "" → nodes ≠ [] →
  exhausts (ip_pool name) (ip_Select true name) ∧
  exhausts (list_to_set (addresses nodes)) (random_Select true nodes).
Proof.
  intros Hname Hnodes. split; apply picks_exhausts; auto using ip_picks, random_picks.
Qed.

(** The outcome of a call reaches the circuit breaker that the node was selected with: when
    [Select] of the selector of services returns a node, [Report] on that node reports to the circuit
    breaker of the options. *)
Theorem report_reaches_breaker (d : Defaults CB W)
    (report : CB → Node CB → Z → option go_err → M W (option error)) name opt s s' node cost err :
  trpc_Select d name opt s = (Some (inl node), s') →
  ∃ cb, CircuitBreaker (apply_options opt (default_options d)) = Some cb ∧
    trpc_Report report node cost err = report cb node cost err.
Proof.
  unfold trpc_Select. fold (default_options d). generalize (apply_options opt (default_options d)).
  intros opts. case_decide; [done|]. unfold mbind, M_bind.
  repeat (break_goal; try done). intros [= <- <-]. eexists; split; [done|].
  unfold trpc_Report, with_breaker. simpl. by rewrite lookup_insert_eq.
Qed.
End naming_lemmas.

(** ** A concrete state: the context of the request, and a random number generator that counts. *)
Module naming_example.
Definition St : Type := option (list (Node nat) * bool) * nat.

#[global] Instance state : NamingState nat St := {
  bans := fst;
  set_bans l s := ((λ '(_, mandatory), (l, mandatory)) <$> s.1, s.2);
  Intn n s := (s.2 mod n, (s.1, S s.2))
}.

#[global] Instance state_ok : NamingOk nat St.
Proof.
  split; simpl; [done| |done]. intros n s Hn. apply Nat.mod_upper_bound. lia.
Qed.

Definition backends : list (Node nat) := [new_node "app" "a"; new_node "app" "b"; new_node "app" "a"].

Definition nameserver : Defaults nat St :=
  MkDefaults (Some IPDiscovery_List) (Some NoopServiceRouter_Filter) (Some Random_Select) (Some 7).

Definition start : St := (Some ([], true), 5).

Definition answered (r : option (list (Node nat + error)) * St) : option (list (string + error)) :=
  map (λ r, match r with inl n => inl (n_Address n) | inr e => inr e end) <$> r.1.

(** Three calls on a pool of two addresses, one of them given twice. *)
Example ip_three_calls :
  answered (selects 3 (ip_Select true "a:1,b:2,a:1") start) =
  Some [inl "a:1"; inl "b:2"; inr (Plain "no available targets")].
Proof. vm_compute. reflexivity. Qed.

Example random_three_calls :
  answered (selects 3 (random_Select true backends) (Some ([], false), 1)) =
  Some [inl "b"; inl "a"; inl "b"].
Proof. vm_compute. reflexivity. Qed.

Lemma retries_distinct_witness :
  exhausts (ip_pool "a:1,b:2,a:1") (ip_Select true "a:1,b:2,a:1" : M St _) ∧
  exhausts (list_to_set (addresses backends)) (random_Select true backends : M St _).
Proof. apply (retries_distinct "a:1,b:2,a:1" backends); done. Defined.

Definition selected : Node nat := with_breaker 7 (new_node "a:1" "a:1").

Lemma select_default :
  ∃ s', trpc_Select nameserver "a:1" [sel_WithContext] start = (Some (inl selected), s').
Proof. eexists. vm_compute. reflexivity. Qed.

Lemma report_reaches_breaker_witness :
  ∃ cb, CircuitBreaker (apply_options [sel_WithContext] (default_options nameserver)) = Some cb ∧
    trpc_Report (W:=St) (λ cb _ _ _, mret (Some (Plain (if (cb =? 7)%nat then "seven" else "")))) selected 1 None =
    mret (Some (Plain (if (cb =? 7)%nat then "seven" else ""))).
Proof.
  destruct select_default as [s' E]. exact (report_reaches_breaker nameserver
    (λ cb _ _ _, mret (Some (Plain (if (cb =? 7)%nat then "seven" else ""))))
    "a:1" [sel_WithContext] start s' selected 1 None E).
Defined.
End naming_example.
