(* ===== verification/ClientTransport.v ===== *)
(** The client transport (transport/client_transport.go, transport/client_transport_tcp.go,
    transport/client_transport_udp.go) with its options (transport/client_roundtrip_options.go).

    A computation takes the message of the call and the world, in which the connections, the pools
    and the clock are.  Connections and pools are behind the class [Net]: their operations are those
    that the transport calls. *)

From S2P Require Import Prelude GoStrings Pb Errs Frame Msg Service.

Definition ErrClientNoResponse : go_err := Shared 4.

(** The error of a context that is done. *)
Inductive CtxErr := Canceled | DeadlineExceeded.

#[global] Instance CtxErr_eq_dec : EqDecision CtxErr.
Proof. solve_decision. Defined.

Definition ctx_text (e : CtxErr) : string :=
  match e with Canceled => "context canceled" | DeadlineExceeded => "context deadline exceeded" end.

(** ** Options of a round trip *)

Record PreWarmOptions := MkPreWarm { ConnsPerNode : Z; pw_Timeout : Z }.

(** [P] and [MP] are the pools, [FB] the framer builders. *)
Record RoundTripOptions (P MP FB : Type) := MkRoundTripOptions {
  Address : string;
  Password : string;
  rt_Network : string;
  LocalAddr : string;
  DialTimeout : Z;
  Pool : option P;
  ReqType : Z;
  FramerBuilder : option FB;
  ConnectionMode : bool;
  DisableConnectionPool : bool;
  rt_EnableMultiplexed : bool;
  Multiplexed : option MP;
  rt_Msg : bool;
  rt_Protocol : string;
  PreWarm : option PreWarmOptions;
  CACertFile : string;
  TLSCertFile : string;
  TLSKeyFile : string;
  TLSCertProvider : string;
  TLSServerName : string
}.
Arguments MkRoundTripOptions {P MP FB}.
Arguments Address {P MP FB}.
Arguments Password {P MP FB}.
Arguments rt_Network {P MP FB}.
Arguments LocalAddr {P MP FB}.
Arguments DialTimeout {P MP FB}.
Arguments Pool {P MP FB}.
Arguments ReqType {P MP FB}.
Arguments FramerBuilder {P MP FB}.
Arguments ConnectionMode {P MP FB}.
Arguments DisableConnectionPool {P MP FB}.
Arguments rt_EnableMultiplexed {P MP FB}.
Arguments Multiplexed {P MP FB}.
Arguments rt_Msg {P MP FB}.
Arguments rt_Protocol {P MP FB}.
Arguments PreWarm {P MP FB}.
Arguments CACertFile {P MP FB}.
Arguments TLSCertFile {P MP FB}.
Arguments TLSKeyFile {P MP FB}.
Arguments TLSCertProvider {P MP FB}.
Arguments TLSServerName {P MP FB}.

#[global] Instance eta_RoundTripOptions {P MP FB} : Eta (RoundTripOptions P MP FB) := λ o,
  MkRoundTripOptions (Address o) (Password o) (rt_Network o) (LocalAddr o) (DialTimeout o) (Pool o)
    (ReqType o) (FramerBuilder o) (ConnectionMode o) (DisableConnectionPool o)
    (rt_EnableMultiplexed o) (Multiplexed o) (rt_Msg o) (rt_Protocol o) (PreWarm o) (CACertFile o)
    (TLSCertFile o) (TLSKeyFile o) (TLSCertProvider o) (TLSServerName o).

Section options.
Context {P MP FB : Type}.

Definition RoundTripOption : Type := RoundTripOptions P MP FB → RoundTripOptions P MP FB.

Definition WithDialAddress (s : string) : RoundTripOption := λ o, o <| Address := s |>.
Definition WithDialPassword (s : string) : RoundTripOption := λ o, o <| Password := s |>.
Definition WithDialNetwork (s : string) : RoundTripOption := λ o, o <| rt_Network := s |>.
Definition WithDialPool (p : option P) : RoundTripOption := λ o, o <| Pool := p |>.
Definition WithClientFramerBuilder (b : FB) : RoundTripOption := λ o, o <| FramerBuilder := Some b |>.
Definition WithReqType (t : Z) : RoundTripOption := λ o, o <| ReqType := t |>.
Definition WithConnectionMode (m : bool) : RoundTripOption := λ o, o <| ConnectionMode := m |>.
Definition WithDialTLS (certFile keyFile caFile serverName : string) : RoundTripOption := λ o,
  o <| TLSCertFile := certFile |> <| TLSKeyFile := keyFile |> <| CACertFile := caFile |>
    <| TLSServerName := serverName |>.
Definition WithCertProvider (s : string) : RoundTripOption := λ o, o <| TLSCertProvider := s |>.
Definition WithDisableConnectionPool : RoundTripOption := λ o, o <| DisableConnectionPool := true |>.
Definition rt_WithMultiplexed (enable : bool) : RoundTripOption := λ o,
  o <| rt_EnableMultiplexed := enable |>.
Definition rt_WithMultiplexedPool (p : option MP) : RoundTripOption := λ o,
  o <| rt_EnableMultiplexed := true |> <| Multiplexed := p |>.
Definition WithMsg : RoundTripOption := λ o, o <| rt_Msg := true |>.
Definition rt_WithLocalAddr (s : string) : RoundTripOption := λ o, o <| LocalAddr := s |>.
Definition rt_WithDialTimeout (d : Z) : RoundTripOption := λ o, o <| DialTimeout := d |>.
Definition rt_WithProtocol (s : string) : RoundTripOption := λ o, o <| rt_Protocol := s |>.
Definition rt_WithPreWarm (p : PreWarmOptions) : RoundTripOption := λ o, o <| PreWarm := Some p |>.

Definition zero_RoundTripOptions : RoundTripOptions P MP FB :=
  MkRoundTripOptions "" "" "" "" 0 None 0 None false false false None false "" None "" "" "" "" "".

Definition apply_round_trip (os : list RoundTripOption) (o : RoundTripOptions P MP FB)
    : RoundTripOptions P MP FB := foldl (λ o f, f o) o os.
End options.
Arguments RoundTripOption : clear implicits.

(** ** The network *)

(** connpool.DialOptions *)
Record DialOptions := MkDialOptions {
  do_Network : string;
  do_Address : string;
  do_LocalAddr : string;
  do_Timeout : Z;
  do_CACertFile : string;
  do_TLSCertFile : string;
  do_TLSKeyFile : string;
  do_TLSCertProvider : string;
  do_TLSServerName : string
}.

(** connpool.GetOptions; the context is there whether it has a deadline or not. *)
Record GetOptions (FB : Type) := MkGetOptions {
  go_FramerBuilder : FB;
  go_Ctx : CallContext;
  go_CACertFile : string;
  go_TLSCertFile : string;
  go_TLSKeyFile : string;
  go_TLSCertProvider : string;
  go_TLSServerName : string;
  go_LocalAddr : string;
  go_DialTimeout : Z;
  go_Protocol : string
}.
Arguments MkGetOptions {FB}.

(** multiplexed.GetOptions *)
Record MuxGetOptions (FB : Type) := MkMuxGetOptions {
  mg_FP : FB;
  mg_VID : Z;
  mg_CACertFile : string;
  mg_TLSCertFile : string;
  mg_TLSKeyFile : string;
  mg_TLSCertProvider : string;
  mg_TLSServerName : string;
  mg_LocalAddr : string
}.
Arguments MkMuxGetOptions {FB}.

(** What the transport uses of contexts, connections and pools.  [net_Error] is the assertion to
    [net.Error], with its [Timeout].  [SendError] is the channel of a keep-order caller in the context;
    without one it does nothing. *)
Class Net (W C P MP FB : Type) := {
  ctx_Err : CallContext → W → option CtxErr;
  net_now : W → Z;
  errors_Is : error → CtxErr → bool;
  net_Error : error → option bool;
  DefaultConnectionPool : option P;
  DefaultMultiplexedPool : option MP;
  connpool_Dial : DialOptions → M W (C + error);
  pool_Get : P → string → string → GetOptions FB → M W (C + error);
  GetMuxConn : MP → CallContext → string → string → MuxGetOptions FB → M W (C + go_err);
  is_FrameParser : FB → bool;
  conn_SetDeadline : C → Z → M W (option error);
  conn_RemoteAddr : C → W → option Addr;
  conn_LocalAddr : C → W → option Addr;
  conn_Write : C → bytes → M W (nat * option error);
  conn_Close : C → W → W;
  is_Framer : C → bool;
  conn_ReadFrame : C → M W (bytes + error);
  builder_ReadFrame : FB → C → M W (bytes + error);
  mux_Write : C → bytes → M W (option error);
  mux_Read : C → M W (bytes + error);
  SendError : option error → W → W;
  ResolveUDPAddr : string → string → M W (Addr + error);
  DialUDP : string → string → option Addr → M W (C + error);
  is_PacketConn : C → bool;
  ListenPacket : string → string → M W (C + error);
  udp_Write : C → bytes → M W (nat * option error);
  udp_WriteTo : C → bytes → Addr → M W (nat * option error);
  udp_ReadFrom : C → M W (bytes + error);
  packet_ReadFrame : FB → Reader → result bytes * Reader
}.

(** Return early on an error, as the code does after a call. *)
Definition or_return {S A B E} (m : M S (A + E)) (k : A → M S (B + E)) : M S (B + E) :=
  r ← m; match r with inl a => k a | inr e => mret (inr e) end.
Notation "x ←! m ; k" := (or_return m (λ x, k))
  (at level 20, m at level 100, k at level 200, right associativity) : go_scope.

Definition is_none {A} (o : option A) : bool := match o with None => true | Some _ => false end.

Section transport.
Context {W C P MP FB : Type} `{!PbEnum} `{!Net W C P MP FB}.

Abbreviation MW := (M (msg * W)).
Abbreviation rt_options := (RoundTripOptions P MP FB).

Definition on_world {A} (m : M W A) : MW A := λ s, let '(r, w) := m s.2 in (r, (s.1, w)).
Definition upd_call_msg (f : msg → msg) : MW () := modify (λ s, (f s.1, s.2)).
Definition close (conn : C) (s : msg * W) : msg * W := (s.1, conn_Close conn s.2).

Definition fail {A} (code : Z) (text : string) : MW (A + go_err) :=
  mret (inr (Own (NewFrameError code text))).

(** An error of the network as an error of the transport. *)
Definition wrap {A} (code : Z) (text : string) (m : M W (A + error)) : MW (A + go_err) :=
  r ← on_world m;
  match r with inl a => mret (inl a) | inr e => fail code (text +:+ Error e) end.

(** The tests of the context that the code repeats: canceled, timed out, or go on. *)
Definition check_ctx {A} (ctx : CallContext) (canceled timeout : string) (k : MW (A + go_err))
    : MW (A + go_err) :=
  e ← gets (λ s, ctx_Err ctx s.2);
  match e with
  | Some Canceled => fail RetClientCanceled (canceled +:+ ctx_text Canceled)
  | Some DeadlineExceeded => fail RetClientTimeout (timeout +:+ ctx_text DeadlineExceeded)
  | None => k
  end.

(** ** TCP *)

Definition finishDialTCP (ctx : CallContext) (conn : C) : MW (C + go_err) :=
  e ← match deadline ctx with Some d => on_world (conn_SetDeadline conn d) | None => mret None end;
  match e with
  | Some e =>
    _ ← modify (close conn);
    fail RetClientConnectFail ("tcp client transport set deadline: " +:+ Error e)
  | None =>
    r ← check_ctx ctx "client canceled after tcp dial: " "client timeout after tcp dial: "
          (mret (inl conn));
    match r with
    | inl conn => mret (inl conn)
    | inr e => _ ← modify (close conn); mret (inr e)
    end
  end.

(** The timeout of a connection that is dialed for one call. *)
Definition short_timeout (opts : rt_options) (timeout : Z) : Z :=
  if (0 <? DialTimeout opts)%Z && (DialTimeout opts <? timeout)%Z then DialTimeout opts else timeout.

Definition dialTCP (ctx : CallContext) (opts : rt_options) : MW (C + go_err) :=
  check_ctx ctx "client canceled before tcp dial: " "client timeout before tcp dial: " (
  now ← gets (λ s, net_now s.2);
  let timeout := match deadline ctx with Some d => (d - now)%Z | None => 0%Z end in
  if DisableConnectionPool opts then
    conn ←! wrap RetClientConnectFail "tcp client transport dial: "
      (connpool_Dial (MkDialOptions (rt_Network opts) (Address opts) (LocalAddr opts)
         (short_timeout opts timeout) (CACertFile opts) (TLSCertFile opts) (TLSKeyFile opts)
         (TLSCertProvider opts) (TLSServerName opts)));
    finishDialTCP ctx conn
  else
    match Pool opts, FramerBuilder opts with
    | Some pool, Some fb =>
      conn ←! wrap RetClientConnectFail "tcp client transport connection pool: "
        (pool_Get pool (rt_Network opts) (Address opts)
           (MkGetOptions fb ctx (CACertFile opts) (TLSCertFile opts) (TLSKeyFile opts)
              (TLSCertProvider opts) (TLSServerName opts) (LocalAddr opts) (DialTimeout opts)
              (rt_Protocol opts)));
      finishDialTCP ctx conn
    | _, _ => panic
    end).

(** The loop of [tcpWriteFrame] on the bytes that are left; a round without progress would go on
    for ever. *)
Fixpoint write_loop (fuel : nat) (conn : C) (reqData : bytes) : MW (() + go_err) :=
  match reqData, fuel with
  | [], _ => mret (inl ())
  | _, O => panic
  | _, S fuel =>
    '(num, err) ← on_world (conn_Write conn reqData);
    match err with
    | Some e =>
      if bool_decide (net_Error e = Some true)
      then fail RetClientTimeout ("tcp client transport Write: " +:+ Error e)
      else fail RetClientNetErr ("tcp client transport Write: " +:+ Error e)
    | None => write_loop fuel conn (drop num reqData)
    end
  end.

Definition tcpWriteFrame (conn : C) (reqData : bytes) : MW (() + go_err) :=
  write_loop (length reqData) conn reqData.

Definition SendOnly : Z := TRPC_ONEWAY_CALL.

Definition tcpReadFrame (conn : C) (opts : rt_options) : MW (bytes + go_err) :=
  if (ReqType opts =? SendOnly)%Z then mret (inr ErrClientNoResponse) else
  if negb (DisableConnectionPool opts) && negb (is_Framer conn)
  then fail RetClientConnectFail "tcp client transport: framer not implemented" else
  match FramerBuilder opts with
  | None => panic
  | Some fb =>
    r ← on_world (if DisableConnectionPool opts then builder_ReadFrame fb conn else conn_ReadFrame conn);
    match r with
    | inl rspData => mret (inl rspData)
    | inr e =>
      if bool_decide (net_Error e = Some true)
      then fail RetClientTimeout ("tcp client transport ReadFrame: " +:+ Error e)
      else fail RetClientReadFrameErr ("tcp client transport ReadFrame: " +:+ Error e)
    end
  end.

(** The two statements on the message after a dial. *)
Definition set_addrs (conn : C) : MW () := λ '(m, w),
  (Some (), (WithLocalAddr (WithRemoteAddr m (conn_RemoteAddr conn w)) (conn_LocalAddr conn w), w)).

Definition tcpRoundTrip (ctx : CallContext) (reqData : bytes) (opts : rt_options)
    : MW (bytes + go_err) :=
  if is_none (Pool opts)
  then fail RetClientConnectFail "tcp client transport: connection pool empty" else
  if is_none (FramerBuilder opts)
  then fail RetClientConnectFail "tcp client transport: framer builder empty" else
  conn ←! dialTCP ctx opts;
  deferred (
    _ ← set_addrs conn;
    check_ctx ctx "tcp client transport canceled before Write: "
      "tcp client transport timeout before Write: " (
    _ ←! tcpWriteFrame conn reqData;
    tcpReadFrame conn opts)) (close conn).

(** ** UDP *)

Definition Connected : bool := false.

(** The address of the peer, and the connection. *)
Definition dialUDP (ctx : CallContext) (opts : rt_options) : MW (C * Addr + go_err) :=
  addr ←! wrap RetClientNetErr "udp client transport ResolveUDPAddr: "
    (ResolveUDPAddr (rt_Network opts) (Address opts));
  conn ←! (if Bool.eqb (ConnectionMode opts) Connected then
      localAddr ←! (if decide (LocalAddr opts = "") then mret (inl None) else
        a ←! wrap RetClientNetErr "udp client transport LocalAddr ResolveUDPAddr: "
          (ResolveUDPAddr (rt_Network opts) (LocalAddr opts));
        mret (inl (Some a)));
      conn ←! wrap RetClientConnectFail "dial udp fail: "
        (DialUDP (rt_Network opts) (Address opts) localAddr);
      if is_PacketConn conn then mret (inl conn)
      else fail RetClientConnectFail "udp conn not implement net.PacketConn"
    else
      wrap RetClientNetErr "udp client transport Dial: "
        (ListenPacket (rt_Network opts)
           (if decide (LocalAddr opts = "") then ":" else LocalAddr opts)));
  _ ← match deadline ctx with Some d => on_world (conn_SetDeadline conn d) | None => mret None end;
  mret (inl (conn, addr)).

Definition udpWriteFrame (conn : C) (reqData : bytes) (addr : Addr) (opts : rt_options)
    : MW (() + go_err) :=
  '(num, err) ← on_world (if Bool.eqb (ConnectionMode opts) Connected
                          then udp_Write conn reqData else udp_WriteTo conn reqData addr);
  match err with
  | Some e =>
    if bool_decide (net_Error e = Some true)
    then fail RetClientTimeout ("udp client transport WriteTo: " +:+ Error e)
    else fail RetClientNetErr ("udp client transport WriteTo: " +:+ Error e)
  | None =>
    if (num =? length reqData)%nat then mret (inl ())
    else fail RetClientNetErr "udp client transport WriteTo: num mismatch"
  end.

(** A packet is a reader that ends with it (internal/packetbuffer/packetbuffer.go). *)
Definition packet_reader (r : bytes + error) : Reader :=
  match r with inl packet => MkReader packet EOF | inr e => MkReader [] e end.

Definition udpReadFrame (ctx : CallContext) (conn : C) (opts : rt_options) : MW (bytes + go_err) :=
  if (ReqType opts =? SendOnly)%Z then mret (inr ErrClientNoResponse) else
  done ← gets (λ s, ctx_Err ctx s.2);
  match done with
  | Some e => fail RetClientTimeout ("udp client transport select after Write: " +:+ ctx_text e)
  | None =>
    match FramerBuilder opts with
    | None => panic
    | Some fb =>
      packet ← on_world (udp_ReadFrom conn);
      match packet_ReadFrame fb (packet_reader packet) with
      | (Ok req, rest) =>
        if (zlen (pending rest) =? 0)%Z then mret (inl req)
        else fail RetClientReadFrameErr ("udp client transport ReadFrame: " +:+
               "packet data is not drained, the remaining " +:+ pretty (length (pending rest)) +:+
               " will be dropped")
      | (Err e, _) =>
        match net_Error e with
        | Some true => fail RetClientTimeout ("udp client transport ReadFrame: " +:+ Error e)
        | Some false => fail RetClientNetErr ("udp client transport ReadFrom: " +:+ Error e)
        | None => fail RetClientReadFrameErr ("udp client transport ReadFrame: " +:+ Error e)
        end
      | (Panic, _) => panic
      end
    end
  end.

Definition udpRoundTrip (ctx : CallContext) (reqData : bytes) (opts : rt_options)
    : MW (bytes + go_err) :=
  if is_none (FramerBuilder opts)
  then fail RetClientConnectFail "udp client transport: framer builder empty" else
  conn ←! dialUDP ctx opts;
  let '(conn, addr) := conn in
  deferred (
    _ ← upd_call_msg (λ m, WithRemoteAddr m (Some addr));
    _ ← (λ '(m, w), (Some (), (WithLocalAddr m (conn_LocalAddr conn w), w)));
    check_ctx ctx "udp client transport canceled before Write: "
      "udp client transport timeout before Write: " (
    _ ←! udpWriteFrame conn reqData addr opts;
    udpReadFrame ctx conn opts)) (close conn).

(** ** Multiplexed connections *)

Definition mux_read_err {A} (e : error) : MW (A + go_err) :=
  let text := "tcp client multiplexed transport ReadFrame: " +:+ Error e in
  if errors_Is e Canceled then fail RetClientCanceled text else
  if errors_Is e DeadlineExceeded then fail RetClientTimeout text else
  fail RetClientNetErr text.

(** A nil message is a nil dereference. *)
Definition multiplexed (ctx : CallContext) (req : bytes) (opts : rt_options) : MW (bytes + go_err) :=
  match FramerBuilder opts with
  | None => fail RetClientConnectFail "tcp client transport: framer builder empty"
  | Some fb =>
    if negb (rt_Msg opts) then panic else
    m ← gets fst;
    if negb (is_FrameParser fb)
    then fail RetClientConnectFail "frame builder does not implement multiplexed.FrameParser" else
    match Multiplexed opts with
    | None => panic
    | Some pool =>
      conn ←! on_world (GetMuxConn pool ctx (rt_Network opts) (Address opts)
        (MkMuxGetOptions fb (msg_RequestID m) (CACertFile opts) (TLSCertFile opts) (TLSKeyFile opts)
           (TLSCertProvider opts) (TLSServerName opts) (LocalAddr opts)));
      deferred (
        _ ← (λ '(m, w), (Some (), (WithRemoteAddr m (conn_RemoteAddr conn w), w)));
        err ← on_world (mux_Write conn req);
        _ ← modify (λ s, (s.1, SendError err s.2));
        match err with
        | Some e => fail RetClientNetErr ("tcp client multiplexed transport Write: " +:+ Error e)
        | None =>
          if (ReqType opts =? SendOnly)%Z then mret (inr ErrClientNoResponse) else
          r ← on_world (mux_Read conn);
          match r with inl buf => mret (inl buf) | inr e => mux_read_err e end
        end) (close conn)
    end
  end.

(** ** [RoundTrip] *)

Definition TCP : list string := ["tcp"; "tcp4"; "tcp6"].
Definition UDP : list string := ["udp"; "udp4"; "udp6"].
Definition UNIX : string := "unix".

Definition default_RoundTripOptions : rt_options :=
  zero_RoundTripOptions <| Pool := DefaultConnectionPool |> <| Multiplexed := DefaultMultiplexedPool |>.

Definition RoundTrip (ctx : CallContext) (req : bytes) (roundTripOpts : list (RoundTripOption P MP FB))
    : MW (bytes + go_err) :=
  let opts := apply_round_trip roundTripOpts default_RoundTripOptions in
  if rt_EnableMultiplexed opts then multiplexed ctx req opts else
  if bool_decide (rt_Network opts ∈ TCP ++ [UNIX]) then tcpRoundTrip ctx req opts else
  if bool_decide (rt_Network opts ∈ UDP) then udpRoundTrip ctx req opts else
  fail RetClientConnectFail ("client transport: network " +:+ rt_Network opts +:+ " not support").
End transport.

(** ** The connection of a call and what is written to it

    [open] counts the connections that are handed out and not closed, [sent] is what has been written
    to connections; the laws say how the operations of the network change them. *)

Section effects.
Context {S : Type} (open : S → Z) (sent : S → bytes).

(** Whatever the state, [m] opens [d] connections and writes [l], with [Q] for its result. *)
Definition effect {A} (m : M S A) (Q : option A → Z → bytes → Prop) : Prop :=
  ∀ s, ∃ d l, open (m s).2 = (open s + d)%Z ∧ sent (m s).2 = sent s ++ l ∧ Q (m s).1 d l.

Definition quiet {A} (m : M S A) : Prop := effect m (λ _ d l, d = 0%Z ∧ l = []).

Definition opens {A E} (m : M S (A + E)) : Prop := effect m (λ r d l, l = [] ∧
  d = match r with Some (inl _) => 1 | _ => 0 end%Z).

(** A write of [p]; without an error it makes progress. *)
Definition writes (p : bytes) (m : M S (nat * option error)) : Prop := effect m (λ r d l, d = 0%Z ∧
  match r with
  | Some (n, None) => l = take n p ∧ (p ≠ [] → 0 < n)
  | _ => l `prefix_of` p
  end).

Lemma effect_mono {A} (m : M S A) Q R :
  effect m Q → (∀ r d l, Q r d l → R r d l) → effect m R.
Proof. intros Hm HQ s. destruct (Hm s) as (d & l & ? & ? & ?). exists d, l. auto. Qed.

Lemma effect_pure {A} (m : M S A) Q :
  (∀ s, (m s).2 = s ∧ Q (m s).1 0%Z []) → effect m Q.
Proof.
  intros Hm s. destruct (Hm s) as [-> HQ]. exists 0%Z, []. rewrite app_nil_r. by rewrite Z.add_0_r.
Qed.

Lemma effect_ret {A} (x : A) Q : Q (Some x) 0%Z [] → effect (mret x) Q.
Proof. intros HQ. by apply effect_pure. Qed.

Lemma effect_gets {A B} (f : S → A) (k : A → M S B) Q :
  (∀ a, effect (k a) Q) → effect (gets f ≫= k) Q.
Proof. intros Hk s. apply (Hk (f s) s). Qed.

Lemma effect_bind {A B} (m : M S A) (k : A → M S B) Q R :
  effect m Q → (∀ d l, Q None d l → R None d l) →
  (∀ a d l, Q (Some a) d l → effect (k a) (λ r d' l', R r (d + d')%Z (l ++ l'))) →
  effect (m ≫= k) R.
Proof.
  intros Hm Hp Hk s. destruct (Hm s) as (d & l & E1 & E2 & HQ). unfold mbind, M_bind.
  destruct (m s) as [[a|] s'] eqn:E; simpl in *; [|exists d, l; auto].
  destruct (Hk a d l HQ s') as (d' & l' & E3 & E4 & HR). exists (d + d')%Z, (l ++ l').
  rewrite E3, E4, E1, E2, app_assoc. split; [lia|done].
Qed.

Lemma quiet_bind {A B} (m : M S A) (k : A → M S B) R :
  quiet m → R None 0%Z [] → (∀ a, effect (k a) R) → effect (m ≫= k) R.
Proof.
  intros Hm Hp Hk. eapply effect_bind; [exact Hm|by intros ? ? [-> ->]|].
  intros a d l [-> ->]. eapply effect_mono; [apply Hk|done].
Qed.

Lemma or_return_bind {A B E} (m : M S (A + E)) (k : A → M S (B + E)) Q R :
  effect m Q → (∀ d l, Q None d l → R None d l) →
  (∀ e d l, Q (Some (inr e)) d l → R (Some (inr e)) d l) →
  (∀ a d l, Q (Some (inl a)) d l → effect (k a) (λ r d' l', R r (d + d')%Z (l ++ l'))) →
  effect (or_return m k) R.
Proof.
  intros Hm Hp He Hk. unfold or_return. eapply effect_bind; [exact Hm|done|].
  intros [a|e] d l HQ; [by apply Hk|]. apply effect_ret. rewrite Z.add_0_r, app_nil_r. auto.
Qed.

Lemma effect_deferred {A} (m : M S A) (f : S → S) (x : Z) Q :
  (∀ s, open (f s) = (open s + x)%Z ∧ sent (f s) = sent s) →
  effect m (λ r d l, Q r (d + x)%Z l) → effect (deferred m f) Q.
Proof.
  intros Hf Hm s. destruct (Hm s) as (d & l & E1 & E2 & HQ). unfold deferred.
  destruct (m s) as [r s']. simpl in *. destruct (Hf s') as [-> ->].
  exists (d + x)%Z, l. rewrite E1. split; [lia|done].
Qed.
End effects.

Class NetLaws (W C P MP FB : Type) `{!Net W C P MP FB} := {
  open : W → Z;
  sent : W → bytes;
  Dial_opens o : opens open sent (connpool_Dial o);
  Get_opens p n a o : opens open sent (pool_Get p n a o);
  Mux_opens p c n a o : effect open sent (GetMuxConn p c n a o) (λ r d l, l = [] ∧
    d = (match r with Some (inl _) => 1 | _ => 0 end)%Z ∧ r ≠ Some (inr ErrClientNoResponse));
  UDP_opens n a l : opens open sent (DialUDP n a l);
  Listen_opens n a : opens open sent (ListenPacket n a);
  UDP_packets c : is_PacketConn c = true;
  Close_closes c w : open (conn_Close c w) = (open w - 1)%Z ∧ sent (conn_Close c w) = sent w;
  SetDeadline_quiet c d : effect open sent (conn_SetDeadline c d) (λ r d l, d = 0%Z ∧ l = [] ∧ r ≠ None);
  Write_writes c p : writes open sent p (conn_Write c p);
  Read_quiet c : quiet open sent (conn_ReadFrame c);
  Build_quiet fb c : quiet open sent (builder_ReadFrame fb c);
  Mux_writes c p : effect open sent (mux_Write c p) (λ r d l, d = 0%Z ∧ l `prefix_of` p ∧
    (r = Some None → l = p));
  Mux_quiet c : quiet open sent (mux_Read c);
  Error_quiet e w : open (SendError e w) = open w ∧ sent (SendError e w) = sent w;
  Resolve_quiet n a : quiet open sent (ResolveUDPAddr n a);
  udp_writes c p : writes open sent p (udp_Write c p);
  udp_WriteTo_writes c p a : writes open sent p (udp_WriteTo c p a);
  udp_quiet c : quiet open sent (udp_ReadFrom c)
}.

Section transport_lemmas.
Context {W C P MP FB : Type} `{!PbEnum} `{!Net W C P MP FB} `{!NetLaws W C P MP FB}.
Abbreviation spec := (effect (S:=msg * W) (λ s, open s.2) (λ s, sent s.2)).
Implicit Types (opts : RoundTripOptions P MP FB) (conn : C) (req : bytes).

Lemma spec_on_world {A} (m : M W A) Q : effect open sent m Q → spec (on_world m) Q.
Proof.
  intros Hm s. destruct (Hm s.2) as (d & l & E1 & E2 & HQ). unfold on_world.
  destruct (m s.2) as [r w]. by exists d, l.
Qed.

Lemma spec_fail {A} code text Q :
  Q (Some (inr (Own (NewFrameError code text)))) 0%Z [] → spec (fail (A:=A) code text) Q.
Proof. apply effect_ret. Qed.

(** An error that the transport makes up. *)
Definition own {A} (r : option (A + go_err)) : Prop :=
  match r with Some (inr e) => ∃ e', e = Own e' | _ => False end.

Lemma spec_wrap {A} code text (m : M W (A + error)) x :
  effect open sent m (λ r d l, l = [] ∧ d = match r with Some (inl _) => x | _ => 0%Z end) →
  spec (wrap code text m) (λ r d l, l = [] ∧
    match r with
    | Some (inl _) => d = x
    | Some (inr e) => d = 0%Z ∧ own r
    | None => d = 0%Z
    end).
Proof.
  intros Hm. unfold wrap. eapply effect_bind; [by apply spec_on_world, Hm|by intros ? ? [-> ->]|].
  intros [a|e] d l [-> ->]; [|apply spec_fail; simpl; eauto].
  apply effect_ret. simpl. split; [done|lia].
Qed.

Lemma spec_check_ctx {A} ctx c t (k : M (msg * W) (A + go_err)) Q :
  spec k Q → (∀ e, Q (Some (inr (Own e))) 0%Z []) → spec (check_ctx ctx c t k) Q.
Proof.
  intros Hk HQ. unfold check_ctx. apply effect_gets. intros [[]|]; [by apply spec_fail..|done].
Qed.

Lemma spec_close {A} conn (k : () → M (msg * W) A) Q :
  spec (k ()) (λ r d l, Q r (d - 1)%Z l) → spec (modify (close conn) ≫= k) Q.
Proof.
  intros Hk s. destruct (Close_closes conn s.2) as [E1 E2]. destruct (Hk (close conn s)) as (d & l & D1 & D2 & HQ).
  exists (d - 1)%Z, l. unfold mbind, M_bind, modify. rewrite D1, D2. simpl. rewrite E1, E2.
  split; [lia|done].
Qed.

Lemma spec_deferred {A} conn (m : M (msg * W) A) Q :
  spec m (λ r d l, Q r (d - 1)%Z l) → spec (deferred m (close conn)) Q.
Proof.
  intros Hm. apply (effect_deferred _ _ _ _ (-1)%Z); [|done].
  intros s. destruct (Close_closes conn s.2) as [E1 E2]. simpl. rewrite E1, E2. split; [lia|done].
Qed.

(** What every way of a round trip does: its connection is closed, what it has written is a prefix of
    the request, and all of it if the call has an answer or needs none. *)
Definition round_trip {A} (req : bytes) (r : option (A + go_err)) (d : Z) (l : bytes) : Prop :=
  d = 0%Z ∧ l `prefix_of` req ∧
  match r with
  | Some (inl _) => l = req
  | Some (inr e) => e = ErrClientNoResponse → l = req
  | None => True
  end.

Lemma round_trip_own {A} req (r : option (A + go_err)) : own r → round_trip req r 0 [].
Proof.
  intros Hr. split; [done|]. split; [apply prefix_nil|]. destruct r as [[]|]; [done| |done].
  by destruct Hr as [e ->].
Qed.

Lemma finishDialTCP_spec ctx conn : spec (finishDialTCP ctx conn) (λ r d l, l = [] ∧
  match r with Some (inl _) => d = 0%Z | Some (inr _) => d = (-1)%Z ∧ own r | None => False end).
Proof.
  unfold finishDialTCP.
  apply (effect_bind _ _ _ _ (λ r d l, d = 0%Z ∧ l = [] ∧ r ≠ None)); [|by intros ? ? (? & ? & ?)|].
  { destruct (deadline ctx); [apply spec_on_world, SetDeadline_quiet|by apply effect_ret]. }
  intros [e|] d l (-> & -> & _).
  - apply spec_close, spec_fail. simpl. eauto.
  - apply (effect_bind _ _ _ _ (λ r d l, d = 0%Z ∧ l = [] ∧
      match r with Some (inl _) => True | Some (inr _) => own r | None => False end)).
    + apply spec_check_ctx; [by apply effect_ret|]. simpl. eauto.
    + by intros ? ? (? & ? & ?).
    + intros [c|e] d l (-> & -> & Hr); [by apply effect_ret|]. apply spec_close, effect_ret. done.
Qed.

Lemma dialTCP_spec ctx opts : spec (dialTCP ctx opts) (λ r d l, l = [] ∧
  match r with Some (inl _) => d = 1%Z | Some (inr _) => d = 0%Z ∧ own r | None => d = 0%Z end).
Proof.
  unfold dialTCP. apply spec_check_ctx; [|simpl; eauto]. apply effect_gets. intros now.
  assert (∀ code text (m : M W (C + error)), opens open sent m →
    spec (conn ←! wrap code text m; finishDialTCP ctx conn) (λ r d l, l = [] ∧
      match r with Some (inl _) => d = 1%Z | Some (inr _) => d = 0%Z ∧ own r | None => d = 0%Z end)) as Hd.
  { intros code text m Hm. eapply or_return_bind; [apply spec_wrap, Hm|done|done|].
    intros conn d l [-> ->]. eapply effect_mono; [apply finishDialTCP_spec|].
    intros [[c|e]|] d l [-> Hr]; simpl; [by subst d|by destruct Hr as [-> ?]|done]. }
  case_match; [apply Hd, Dial_opens|].
  destruct (Pool opts), (FramerBuilder opts); [apply Hd, Get_opens|by apply effect_pure..].
Qed.

Lemma write_loop_spec fuel conn p : length p ≤ fuel →
  spec (write_loop fuel conn p) (λ r d l, d = 0%Z ∧ l `prefix_of` p ∧
    match r with Some (inl _) => l = p | Some (inr _) => own r | None => True end).
Proof.
  revert p. induction fuel as [|fuel IH]; intros [|b p] Hf; simpl in Hf; try lia; cbn [write_loop].
  1-2: by apply effect_ret.
  set (q := b :: p) in *. eapply effect_bind; [apply spec_on_world, Write_writes|by intros ? ? [-> ?]|].
  intros [n [e|]] d l [-> Hl].
  - case_bool_decide; apply spec_fail; rewrite app_nil_r; simpl; eauto.
  - destruct Hl as [-> Hn]. eapply effect_mono; [apply IH|].
    { rewrite length_drop. simpl. specialize (Hn ltac:(done)). lia. }
    intros r d l (-> & Hl & Hr). split; [done|]. split.
    + rewrite <- (take_drop n q) at 2. by apply prefix_app.
    + destruct r as [[]|]; [|done..]. by rewrite Hr, take_drop.
Qed.

Lemma tcpReadFrame_spec conn opts : spec (tcpReadFrame conn opts) (λ _ d l, d = 0%Z ∧ l = []).
Proof.
  unfold tcpReadFrame. case_match; [by apply effect_ret|]. case_match; [by apply spec_fail|].
  destruct (FramerBuilder opts); [|by apply effect_pure].
  apply quiet_bind; [apply spec_on_world; case_match; [apply Build_quiet|apply Read_quiet]|done|].
  intros [|e]; [by apply effect_ret|]. by case_bool_decide; apply spec_fail.
Qed.

(** A step that changes the message only. *)
Lemma spec_msg {A} (m : M (msg * W) A) :
  (∀ s, (m s).2.2 = s.2) → quiet (λ s, open s.2) (λ s, sent s.2) m.
Proof. intros Hm s. exists 0%Z, []. rewrite Hm, app_nil_r, Z.add_0_r. done. Qed.

Lemma set_addrs_spec conn : quiet (λ s, open s.2) (λ s, sent s.2) (set_addrs conn).
Proof. apply spec_msg. by intros []. Qed.

(** The connection that [m] gives is used by [k], which closes it. *)
Lemma round_trip_dial {A} req (m : M (msg * W) (A + go_err)) k :
  spec m (λ r d l, l = [] ∧
    match r with Some (inl _) => d = 1%Z | Some (inr _) => d = 0%Z ∧ r ≠ Some (inr ErrClientNoResponse)
               | None => d = 0%Z end) →
  (∀ a, spec (k a) (λ r d l, round_trip (A:=bytes) req r (d + 1)%Z l)) →
  spec (or_return m k) (round_trip req).
Proof.
  intros Hm Hk. eapply or_return_bind; [exact Hm|..].
  - intros d l [-> ->]. split; [done|]. split; [apply prefix_nil|done].
  - intros e d l (-> & -> & He). split; [done|]. split; [apply prefix_nil|congruence].
  - intros a d l [-> ->]. eapply effect_mono; [apply Hk|].
    intros r d l. by rewrite (Z.add_comm 1).
Qed.

Lemma round_trip_write {A B} req (m : M (msg * W) (A + go_err)) (k : A → M (msg * W) (B + go_err)) :
  spec m (λ r d l, d = 0%Z ∧ l `prefix_of` req ∧
    match r with Some (inl _) => l = req | Some (inr _) => own r | None => True end) →
  (∀ a, spec (k a) (λ _ d l, d = 0%Z ∧ l = [])) → spec (or_return m k) (round_trip req).
Proof.
  intros Hm Hk. eapply or_return_bind; [exact Hm|..].
  - intros d l (-> & Hl & _). done.
  - intros e d l (-> & Hl & [e' Hr]). split; [done|]. split; [done|]. by simplify_eq.
  - intros a d l (-> & _ & ->). eapply effect_mono; [apply Hk|]. intros r d l [-> ->].
    rewrite app_nil_r. split; [done|]. split; [done|]. by destruct r as [[]|].
Qed.

Lemma own_other {A} (r : option (A + go_err)) : own r → r ≠ Some (inr ErrClientNoResponse).
Proof. destruct r as [[]|]; [done| |done]. by intros [e ->]. Qed.

Lemma spec_closing {A} conn req (m : M (msg * W) (A + go_err)) :
  spec m (round_trip req) →
  spec (deferred m (close conn)) (λ r d l, round_trip req r (d + 1)%Z l).
Proof.
  intros Hm. apply spec_deferred. eapply effect_mono; [exact Hm|].
  intros r d l. by replace (d - 1 + 1)%Z with d by lia.
Qed.

Lemma spec_checked {A} ctx c t req (k : M (msg * W) (A + go_err)) :
  spec k (round_trip req) → spec (check_ctx ctx c t k) (round_trip req).
Proof.
  intros Hk. apply spec_check_ctx; [done|]. intros e. apply round_trip_own. simpl. eauto.
Qed.

Lemma spec_failed {A} code text req : spec (fail (A:=A) code text) (round_trip req).
Proof. apply spec_fail, round_trip_own. simpl. eauto. Qed.

Lemma tcpRoundTrip_spec ctx req opts : spec (tcpRoundTrip ctx req opts) (round_trip req).
Proof.
  unfold tcpRoundTrip. do 2 (case_match; [apply spec_failed|]).
  apply round_trip_dial.
  { eapply effect_mono; [apply dialTCP_spec|]. intros r d l [-> Hr]. split; [done|].
    destruct r as [[]|]; [done| |done]. destruct Hr. split; [done|by apply own_other]. }
  intros conn. apply spec_closing, quiet_bind; [apply set_addrs_spec|by split; [|split; [apply prefix_nil|]]|].
  intros _. apply spec_checked, round_trip_write; [by apply write_loop_spec|].
  intros _. apply tcpReadFrame_spec.
Qed.

(** Getting a value that is no connection. *)
Definition obtains {A} (x : Z) (r : option (A + go_err)) (d : Z) (l : bytes) : Prop :=
  l = [] ∧ match r with Some (inl _) => d = x | Some (inr _) => d = 0%Z ∧ own r | None => d = 0%Z end.

Lemma obtains_bind {A B} (m : M (msg * W) (A + go_err)) (k : A → M (msg * W) (B + go_err)) x :
  spec m (obtains 0) → (∀ a, spec (k a) (obtains x)) → spec (or_return m k) (obtains x).
Proof.
  intros Hm Hk. eapply or_return_bind; [exact Hm|done|done|].
  intros a d l [-> ->]. eapply effect_mono; [apply Hk|done].
Qed.

Lemma wrap_quiet {A} code text (m : M W (A + error)) :
  quiet open sent m → spec (wrap code text m) (obtains 0).
Proof.
  intros Hm. apply spec_wrap. eapply effect_mono; [exact Hm|]. intros [[]|] d l [-> ->]; done.
Qed.

Lemma dialUDP_spec ctx opts : spec (dialUDP ctx opts) (obtains 1).
Proof.
  unfold dialUDP. apply obtains_bind; [apply wrap_quiet, Resolve_quiet|]. intros addr.
  eapply (or_return_bind _ _ _ _ (obtains 1)); [|done|done|].
  - case_match; [|apply spec_wrap, Listen_opens].
    apply obtains_bind.
    { case_match; [by apply effect_ret|]. apply obtains_bind; [apply wrap_quiet, Resolve_quiet|].
      intros a. by apply effect_ret. }
    intros localAddr. eapply or_return_bind; [apply spec_wrap, UDP_opens|done|done|].
    intros c d l [-> ->]. rewrite UDP_packets. by apply effect_ret.
  - intros c d l [-> ->].
    apply (effect_bind _ _ _ _ (λ r d l, d = 0%Z ∧ l = [] ∧ r ≠ None)); [|by intros ? ? (? & ? & ?)|].
    { destruct (deadline ctx); [apply spec_on_world, SetDeadline_quiet|by apply effect_ret]. }
    intros e d l (-> & -> & _). by apply effect_ret.
Qed.

Lemma udpWriteFrame_spec conn req addr opts :
  spec (udpWriteFrame conn req addr opts) (λ r d l, d = 0%Z ∧ l `prefix_of` req ∧
    match r with Some (inl _) => l = req | Some (inr _) => own r | None => True end).
Proof.
  unfold udpWriteFrame.
  apply (effect_bind _ _ _ _ (λ r d l, d = 0%Z ∧
    match r with Some (n, None) => l = take n req ∧ (req ≠ [] → 0 < n) | _ => l `prefix_of` req end)).
  - apply spec_on_world. case_match; [apply udp_writes|apply udp_WriteTo_writes].
  - by intros d l [-> ?].
  - intros [n [e|]] d l [-> Hl].
    + case_bool_decide; apply spec_fail; rewrite app_nil_r; simpl; eauto.
    + destruct Hl as [-> _]. destruct (Nat.eqb_spec n (length req)) as [->|].
      * apply effect_ret. rewrite app_nil_r, firstn_all. done.
      * apply spec_fail. rewrite app_nil_r. simpl. split_and!; [done|apply prefix_take|eauto].
Qed.

Lemma udpReadFrame_spec ctx conn opts :
  spec (udpReadFrame ctx conn opts) (λ _ d l, d = 0%Z ∧ l = []).
Proof.
  unfold udpReadFrame. case_match; [by apply effect_ret|]. apply effect_gets. intros [e|].
  { by apply spec_fail. }
  destruct (FramerBuilder opts) as [fb|]; [|by apply effect_pure].
  apply quiet_bind; [apply spec_on_world, udp_quiet|done|]. intros packet.
  destruct (packet_ReadFrame fb (packet_reader packet)) as [[f|e|] rest]; [| |by apply effect_pure].
  - case_match; [by apply effect_ret|by apply spec_fail].
  - destruct (net_Error e) as [[]|]; by apply spec_fail.
Qed.

Lemma multiplexed_spec ctx req opts : spec (multiplexed ctx req opts) (round_trip req).
Proof.
  unfold multiplexed. destruct (FramerBuilder opts) as [fb|]; [|apply spec_failed].
  assert (∀ A, spec (panic (A:=A + go_err)) (round_trip req)) as Hpanic.
  { intros A. apply effect_pure. intros s. split; [done|]. split; [done|]. by split; [apply prefix_nil|]. }
  case_match; [apply Hpanic|]. apply effect_gets. intros m.
  case_match; [apply spec_failed|]. destruct (Multiplexed opts) as [pool|]; [|apply Hpanic].
  apply round_trip_dial.
  { eapply effect_mono; [apply spec_on_world, Mux_opens|]. intros [[c|e]|] d l (-> & -> & Hr); [done| |done].
    simpl. split; [done|]. split; [done|]. congruence. }
  intros conn. apply spec_closing, quiet_bind; [by apply spec_msg; intros []|by split; [|split; [apply prefix_nil|]]|].
  intros _. eapply effect_bind; [apply spec_on_world, Mux_writes|by intros d l (-> & ? & _)|].
  intros err d l (-> & Hl & Herr). apply quiet_bind.
  { intros s. exists 0%Z, []. destruct (Error_quiet err s.2) as [E1 E2].
    rewrite app_nil_r, Z.add_0_r. simpl. by rewrite E1, E2. }
  { rewrite app_nil_r. done. }
  intros _. destruct err as [e|].
  { apply spec_fail. rewrite app_nil_r. split; [done|]. split; [done|]. simpl. discriminate. }
  rewrite (Herr eq_refl) in *. case_match.
  { apply effect_ret. by rewrite app_nil_r. }
  apply quiet_bind; [apply spec_on_world, Mux_quiet|by rewrite app_nil_r|].
  intros [b|e]; [by apply effect_ret; rewrite app_nil_r|].
  unfold mux_read_err. repeat case_match; apply spec_fail; rewrite app_nil_r; done.
Qed.

Lemma udpRoundTrip_spec ctx req opts : spec (udpRoundTrip ctx req opts) (round_trip req).
Proof.
  unfold udpRoundTrip. case_match; [apply spec_failed|]. apply round_trip_dial.
  { eapply effect_mono; [apply dialUDP_spec|]. intros r d l [-> Hr]. split; [done|].
    destruct r as [[]|]; [done| |done]. destruct Hr. split; [done|by apply own_other]. }
  intros [conn addr]. apply spec_closing.
  do 2 (apply quiet_bind; [by apply spec_msg; intros []|by split; [|split; [apply prefix_nil|]]|intros _]).
  apply spec_checked, round_trip_write; [apply udpWriteFrame_spec|].
  intros _. apply udpReadFrame_spec.
Qed.

(** C26. A call of the client transport closes the connection that it got exactly once and opens no
    other, on every path - refusals, dial errors, timeouts, partial writes, panics of what it calls -
    whatever the options.  What it writes is a prefix of the request, and it is the whole request
    whenever the call returns a response or is a one-way call that was sent. *)
Theorem RoundTrip_complete ctx req roundTripOpts (m : msg) (w : W) :
  let '(r, (_, w')) := RoundTrip ctx req roundTripOpts (m, w) in
  open w' = open w ∧
  ∃ l, sent w' = sent w ++ l ∧ l `prefix_of` req ∧
    match r with
    | Some (inl _) => l = req
    | Some (inr e) => e = ErrClientNoResponse → l = req
    | None => True
    end.
Proof.
  assert (spec (RoundTrip ctx req roundTripOpts) (round_trip req)) as Hs.
  { unfold RoundTrip. repeat case_match;
      auto using multiplexed_spec, tcpRoundTrip_spec, udpRoundTrip_spec, spec_failed. }
  destruct (Hs (m, w)) as (d & l & E1 & E2 & Hd & Hl & Hr).
  destruct (RoundTrip ctx req roundTripOpts (m, w)) as [r [m' w']]. simpl in *.
  split; [lia|]. eauto.
Qed.
End transport_lemmas.

Section transport_facts.
Context {W C P MP FB : Type} `{!PbEnum} `{!Net W C P MP FB}.
Implicit Types (opts : RoundTripOptions P MP FB).

(** The write loop ends: it never runs out of rounds when writes make progress. *)
Lemma tcpWriteFrame_total (conn : C) (req : bytes) (s : msg * W) :
  (∀ p w, ∃ n e w', conn_Write conn p w = (Some (n, e), w') ∧ (e = None → p ≠ [] → 0 < n)) →
  is_Some (tcpWriteFrame conn req s).1.
Proof.
  intros Hw. unfold tcpWriteFrame. enough (∀ fuel p s, length p ≤ fuel →
    is_Some (write_loop fuel conn p s).1) as He by (by apply He). clear req s. intros fuel.
  induction fuel as [|fuel IH]; intros [|b p] s Hf; simpl in Hf; try lia; [done..|].
  cbn [write_loop]. set (q := b :: p) in *. unfold mbind, M_bind, on_world.
  destruct (Hw q s.2) as (n & e & w' & -> & Hn). destruct e as [e|].
  - case_bool_decide; done.
  - apply IH. rewrite length_drop. simpl. specialize (Hn eq_refl ltac:(done)). lia.
Qed.

(** Without a deadline of the call the dial timeout of the options is not used. *)
Lemma short_timeout_no_deadline opts : short_timeout opts 0 = 0%Z.
Proof.
  unfold short_timeout. destruct (Z.ltb_spec 0 (DialTimeout opts)); [|done].
  destruct (Z.ltb_spec (DialTimeout opts) 0); [lia|done].
Qed.

(** A call over UDP that is canceled while it is sent is reported as a timeout. *)
Lemma udp_canceled_is_timeout ctx (conn : C) opts (s : msg * W) :
  ctx_Err ctx s.2 = Some Canceled → ReqType opts ≠ SendOnly →
  udpReadFrame ctx conn opts s =
  (Some (inr (Own (NewFrameError RetClientTimeout
    ("udp client transport select after Write: " +:+ ctx_text Canceled)))), s).
Proof.
  intros Hc Hr. unfold udpReadFrame, gets, mbind, M_bind.
  rewrite (proj2 (Z.eqb_neq _ _) Hr), Hc. done.
Qed.
End transport_facts.

(** ** A concrete network: connections that take three bytes at a time and answer with a fixed frame *)
Module TransportExamples.
Import Sample.

Record World := MkWorld { opened : Z; out : bytes }.

Definition ok {A} (a : A) : M World (A + error) := mret (inl a).
Definition hand_out : M World (() + error) := λ w, (Some (inl ()), MkWorld (opened w + 1) (out w)).
Definition put (k : nat) (p : bytes) : M World (nat * option error) := λ w,
  (Some (k, None), MkWorld (opened w) (out w ++ take k p)).

Definition answer : bytes := str_bytes "answer".

#[global] Instance net : Net World () () () () := {
  ctx_Err _ _ := None;
  net_now _ := 0%Z;
  errors_Is _ _ := false;
  net_Error _ := None;
  DefaultConnectionPool := Some ();
  DefaultMultiplexedPool := Some ();
  connpool_Dial _ := hand_out;
  pool_Get _ _ _ _ := hand_out;
  GetMuxConn _ _ _ _ _ := λ w, (Some (inl ()), MkWorld (opened w + 1) (out w));
  is_FrameParser _ := true;
  conn_SetDeadline _ _ := mret None;
  conn_RemoteAddr _ _ := None;
  conn_LocalAddr _ _ := None;
  conn_Write _ := put 3;
  conn_Close _ w := MkWorld (opened w - 1) (out w);
  is_Framer _ := true;
  conn_ReadFrame _ := ok answer;
  builder_ReadFrame _ _ := ok answer;
  mux_Write _ p := λ w, (Some None, MkWorld (opened w) (out w ++ p));
  mux_Read _ := ok answer;
  SendError _ w := w;
  ResolveUDPAddr _ _ := ok (MkAddr "udp" "a");
  DialUDP _ _ _ := hand_out;
  is_PacketConn _ := true;
  ListenPacket _ _ := hand_out;
  udp_Write _ p := put (length p) p;
  udp_WriteTo _ p _ := put (length p) p;
  udp_ReadFrom _ := ok answer;
  packet_ReadFrame _ r := (Ok (pending r), MkReader [] EOF)
}.

Lemma ok_quiet {A} (a : A) : quiet opened out (ok a).
Proof. by apply effect_pure. Qed.

Lemma hand_out_opens : opens opened out hand_out.
Proof. intros w. exists 1%Z, []. by rewrite app_nil_r. Qed.

Lemma put_writes k p : 0 < k → writes opened out p (put k p).
Proof. intros Hk w. exists 0%Z, (take k p). simpl. rewrite Z.add_0_r. done. Qed.

#[global] Instance laws : NetLaws World () () () ().
Proof.
  refine {| open := opened; sent := out |};
    try (intros; apply hand_out_opens || apply ok_quiet); try done.
  - intros. intros w. exists 1%Z, []. by rewrite app_nil_r.
  - intros. by apply effect_ret.
  - intros. apply put_writes. lia.
  - intros c p w. exists 0%Z, p. simpl. by rewrite Z.add_0_r.
  - intros c p w. exists 0%Z, p. simpl. rewrite Z.add_0_r, firstn_all. split_and!; try done.
    destruct p; [done|simpl; lia].
  - intros c p a w. exists 0%Z, p. simpl. rewrite Z.add_0_r, firstn_all. split_and!; try done.
    destruct p; [done|simpl; lia].
Defined.

Definition options : list (RoundTripOption () () ()) :=
  [WithDialNetwork "tcp"; WithDialAddress "a:1"; WithClientFramerBuilder ()].
Definition request : bytes := str_bytes "a request".
Definition start : World := MkWorld 2 [].

Example answered :
  RoundTrip background request options (zero_msg, start) =
  (Some (inl answer), (zero_msg, MkWorld 2 request)).
Proof. vm_compute. reflexivity. Qed.

Lemma RoundTrip_complete_witness :
  ∃ r m w, RoundTrip background request options (zero_msg, start) = (r, (m, w)) ∧
    opened w = 2%Z ∧ ∃ l, out w = l ∧ l `prefix_of` request ∧ (r = Some (inl answer) → l = request).
Proof.
  pose proof (RoundTrip_complete background request options zero_msg start) as H.
  destruct (RoundTrip background request options (zero_msg, start)) as [r [m w]].
  destruct H as [H1 (l & H2 & H3 & H4)]. exists r, m, w. split; [done|]. split; [exact H1|].
  exists l. split; [exact H2|]. split; [done|]. intros ->. exact H4.
Defined.
End TransportExamples.
