(* ===== verification/ClientOptions.v ===== *)
(** Options of clients (client/options.go) and the configuration of backends (client/config.go).

    The slices of the options are lists here: the last section shows what the code has to do for that,
    on an explicit heap of arrays, and where it does not.  Stream transports and flow controllers are
    named by tags, user filters by values of a type [F] and stream filters by values of [SF]. *)

From S2P Require Import Prelude GoStrings Pb Errs Frame Msg Service Naming ClientTransport.

(** The selector filter of package client, or a filter of a user. *)
Inductive client_filter (F : Type) := SelectorFilter | UserFilter (f : F).
Arguments SelectorFilter {F}.
Arguments UserFilter {F}.

(** [fixTimeout] is the identity or [mayConvert2FullLinkTimeout]. *)
Inductive fix_timeout := FixNone | FixFullLink.

Section types.
Context (CB W F SF T P MP FB : Type).

Record OverloadController := MkController {
  Acquire : string → M W (T + go_err);
  OnResponse : T → option go_err → M W ()
}.

Definition ClientTransport : Type :=
  CallContext → bytes → list (RoundTripOption P MP FB) → M (msg * W) (bytes + go_err).

(** Controllers that do nothing are not told apart from a nil controller, as in [overloadctrl.IsNoop];
    [opt_Node] says whether there is a pointer for the selected node. *)
Record Options := MkOptions {
  ServiceName : string;
  CallerServiceName : string;
  CalleeMethod : string;
  Timeout : Z;
  Target : string;
  endpoint : string;
  OverloadCtrl : option OverloadController;
  Network : string;
  Protocol : string;
  CallType : Z;
  CallOptions : list (RoundTripOption P MP FB);
  Transport : option ClientTransport;
  EnableMultiplexed : bool;
  StreamTransport : option string;
  SelectOptions : list (SelOption CB W);
  opt_Selector : option (Selector CB W);
  DisableServiceRouter : bool;
  shouldErrReportToSelector : option error → bool;
  CurrentSerializationType : Z;
  CurrentCompressType : Z;
  SerializationType : Z;
  CompressType : Z;
  Codec : option (ServerCodec W);
  opt_MetaData : gmap string bytes;
  ClientStreamQueueSize : Z;
  Filters : list (client_filter F);
  FilterNames : list string;
  DisableFilter : bool;
  selectorFilterPosFixed : bool;
  ReqHead : iface;
  RspHead : iface;
  opt_Node : bool;
  DisabledFlowControl : bool;
  MaxWindowSize : Z;
  SControl : option string;
  RControl : option string;
  StreamFilters : list SF;
  EnableStreamSelectInFilter : bool;
  opt_fixTimeout : fix_timeout;
  opt_attachment : option (option Reader * option Reader)
}.
End types.
Arguments MkController {W T}.
Arguments Acquire {W T}.
Arguments OnResponse {W T}.
Arguments MkOptions {CB W F SF T P MP FB}.
Arguments ServiceName {CB W F SF T P MP FB}.
Arguments CallerServiceName {CB W F SF T P MP FB}.
Arguments CalleeMethod {CB W F SF T P MP FB}.
Arguments Timeout {CB W F SF T P MP FB}.
Arguments Target {CB W F SF T P MP FB}.
Arguments endpoint {CB W F SF T P MP FB}.
Arguments OverloadCtrl {CB W F SF T P MP FB}.
Arguments Network {CB W F SF T P MP FB}.
Arguments Protocol {CB W F SF T P MP FB}.
Arguments CallType {CB W F SF T P MP FB}.
Arguments CallOptions {CB W F SF T P MP FB}.
Arguments Transport {CB W F SF T P MP FB}.
Arguments EnableMultiplexed {CB W F SF T P MP FB}.
Arguments StreamTransport {CB W F SF T P MP FB}.
Arguments SelectOptions {CB W F SF T P MP FB}.
Arguments opt_Selector {CB W F SF T P MP FB}.
Arguments DisableServiceRouter {CB W F SF T P MP FB}.
Arguments shouldErrReportToSelector {CB W F SF T P MP FB}.
Arguments CurrentSerializationType {CB W F SF T P MP FB}.
Arguments CurrentCompressType {CB W F SF T P MP FB}.
Arguments SerializationType {CB W F SF T P MP FB}.
Arguments CompressType {CB W F SF T P MP FB}.
Arguments Codec {CB W F SF T P MP FB}.
Arguments opt_MetaData {CB W F SF T P MP FB}.
Arguments ClientStreamQueueSize {CB W F SF T P MP FB}.
Arguments Filters {CB W F SF T P MP FB}.
Arguments FilterNames {CB W F SF T P MP FB}.
Arguments DisableFilter {CB W F SF T P MP FB}.
Arguments selectorFilterPosFixed {CB W F SF T P MP FB}.
Arguments ReqHead {CB W F SF T P MP FB}.
Arguments RspHead {CB W F SF T P MP FB}.
Arguments opt_Node {CB W F SF T P MP FB}.
Arguments DisabledFlowControl {CB W F SF T P MP FB}.
Arguments MaxWindowSize {CB W F SF T P MP FB}.
Arguments SControl {CB W F SF T P MP FB}.
Arguments RControl {CB W F SF T P MP FB}.
Arguments StreamFilters {CB W F SF T P MP FB}.
Arguments EnableStreamSelectInFilter {CB W F SF T P MP FB}.
Arguments opt_fixTimeout {CB W F SF T P MP FB}.
Arguments opt_attachment {CB W F SF T P MP FB}.

#[global] Instance eta_Options {CB W F SF T P MP FB} : Eta (Options CB W F SF T P MP FB) := λ o,
  MkOptions (ServiceName o) (CallerServiceName o) (CalleeMethod o) (Timeout o) (Target o) (endpoint o)
    (OverloadCtrl o) (Network o) (Protocol o) (CallType o) (CallOptions o) (Transport o)
    (EnableMultiplexed o) (StreamTransport o) (SelectOptions o) (opt_Selector o)
    (DisableServiceRouter o) (shouldErrReportToSelector o) (CurrentSerializationType o)
    (CurrentCompressType o) (SerializationType o) (CompressType o) (Codec o) (opt_MetaData o)
    (ClientStreamQueueSize o) (Filters o) (FilterNames o) (DisableFilter o)
    (selectorFilterPosFixed o) (ReqHead o) (RspHead o) (opt_Node o) (DisabledFlowControl o)
    (MaxWindowSize o) (SControl o) (RControl o) (StreamFilters o) (EnableStreamSelectInFilter o)
    (opt_fixTimeout o) (opt_attachment o).

(** ** The registries of plugins *)

Class Plugins (CB W F SF T P MP FB : Type) := {
  GetClientCodec : string → option (ServerCodec W);
  GetFramerBuilder : string → option FB;
  GetClientTransport : string → option (ClientTransport W P MP FB);
  GetClientStreamTransport : string → option string;
  DefaultClientTransport : option (ClientTransport W P MP FB);
  tnet_DefaultClientTransport : option (ClientTransport W P MP FB);
  discovery_Get : string → option (string → list part_option → M W (list (Naming.Node CB) + error));
  servicerouter_Get : string → option (string → list (Naming.Node CB) → list part_option →
                                       M W (list (Naming.Node CB) + error));
  loadbalance_Get : string → option (string → list (Naming.Node CB) → list part_option →
                                     M W (Naming.Node CB + error));
  circuitbreaker_Get : string → option CB;
  selector_Get : string → option (Selector CB W);
  DefaultSelector : option (Selector CB W);
  filter_GetClient : string → option F;
  GetStreamFilter : string → option SF
}.

Section options.
Context {CB W F SF T P MP FB : Type} `{!PbEnum} `{!Plugins CB W F SF T P MP FB}.
Abbreviation options_t := (Options CB W F SF T P MP FB).

Definition Option : Type := options_t → options_t.

Definition add_select (s : SelOption CB W) : Option := λ o, o <| SelectOptions := SelectOptions o ++ [s] |>.
Definition add_call (c : RoundTripOption P MP FB) : Option := λ o, o <| CallOptions := CallOptions o ++ [c] |>.

Definition WithNamespace (s : string) : Option := add_select (sel_WithNamespace s).
Definition WithClientStreamQueueSize (size : Z) : Option := λ o, o <| ClientStreamQueueSize := size |>.
Definition WithServiceName (s : string) : Option := λ o, o <| ServiceName := s |> <| endpoint := s |>.
Definition WithCallerServiceName (s : string) : Option := λ o,
  add_select (sel_WithSourceServiceName s) (o <| CallerServiceName := s |>).
Definition WithCallerNamespace (s : string) : Option := add_select (sel_WithSourceNamespace s).
Definition WithDisableFilter : Option := λ o, o <| DisableFilter := true |>.
Definition WithDisableServiceRouter : Option := λ o,
  add_select sel_WithDisableServiceRouter (o <| DisableServiceRouter := true |>).
Definition WithEnvKey (s : string) : Option := add_select (sel_WithEnvKey s).
Definition WithCallerEnvName (s : string) : Option := add_select (sel_WithSourceEnvName s).
Definition WithCallerSetName (s : string) : Option := add_select (sel_WithSourceSetName s).
Definition WithCalleeSetName (s : string) : Option := add_select (sel_WithDestinationSetName s).
Definition WithCalleeEnvName (s : string) : Option := add_select (sel_WithDestinationEnvName s).
Definition WithCalleeMethod (s : string) : Option := λ o, o <| CalleeMethod := s |>.
Definition WithCallerMetadata (k v : string) : Option := add_select (sel_WithSourceMetadata k v).
Definition WithCalleeMetadata (k v : string) : Option := add_select (sel_WithDestinationMetadata k v).
Definition WithBalancerName (name : string) : Option := λ o,
  add_select (sel_WithLoadBalanceType name) (add_select (sel_WithLoadBalancer (loadbalance_Get name)) o).
Definition WithDiscoveryName (name : string) : Option := add_select (sel_WithDiscovery (discovery_Get name)).
Definition WithServiceRouterName (name : string) : Option :=
  add_select (sel_WithServiceRouter (servicerouter_Get name)).
Definition WithCircuitBreakerName (name : string) : Option :=
  add_select (sel_WithCircuitBreaker (circuitbreaker_Get name)).
Definition WithKey (s : string) : Option := add_select (sel_WithKey s).
Definition WithReplicas (r : Z) : Option := add_select (sel_WithReplicas r).
Definition WithTarget (t : string) : Option := λ o, o <| Target := t |> <| endpoint := "" |>.
Definition WithNetwork (s : string) : Option := λ o,
  if decide (s = "") then o else add_call (WithDialNetwork s) (o <| Network := s |>).
Definition WithPassword (s : string) : Option := λ o,
  if decide (s = "") then o else add_call (WithDialPassword s) o.
Definition WithPool (p : option P) : Option := add_call (WithDialPool p).
Definition WithMultiplexedPool (p : option MP) : Option := λ o,
  add_call (rt_WithMultiplexedPool p) (o <| EnableMultiplexed := true |>).
Definition WithOverloadCtrl (oc : option (OverloadController W T)) : Option := λ o, o <| OverloadCtrl := oc |>.
Definition WithTimeout (t : Z) : Option := λ o, o <| Timeout := t |>.
Definition WithCurrentSerializationType (t : Z) : Option := λ o, o <| CurrentSerializationType := t |>.
Definition WithSerializationType (t : Z) : Option := λ o, o <| SerializationType := t |>.
Definition WithCurrentCompressType (t : Z) : Option := λ o, o <| CurrentCompressType := t |>.
Definition WithCompressType (t : Z) : Option := λ o, o <| CompressType := t |>.
Definition WithTransport (t : option (ClientTransport W P MP FB)) : Option := λ o,
  match t with Some _ => o <| Transport := t |> | None => o end.

Definition WithProtocol (s : string) : Option := λ o,
  if decide (s = "") then o else
  let o := o <| Protocol := s |> <| Codec := GetClientCodec s |> in
  let o := match GetFramerBuilder s with
           | Some b => add_call (rt_WithProtocol s) (add_call (WithClientFramerBuilder b) o)
           | None => o
           end in
  match GetClientTransport s with Some t => o <| Transport := Some t |> | None => o end.

Definition WithConnectionMode (m : bool) : Option := add_call (ClientTransport.WithConnectionMode m).
Definition WithSendOnly : Option := λ o,
  add_call (WithReqType SendOnly) (o <| CallType := SendOnly |>).
Definition WithFilter (f : client_filter F) : Option := λ o,
  o <| Filters := Filters o ++ [f] |> <| FilterNames := FilterNames o ++ ["client.WithFilter"] |>.
Definition WithNamedFilter (name : string) (f : client_filter F) : Option := λ o,
  o <| FilterNames := FilterNames o ++ [name] |> <| Filters := Filters o ++ [f] |>.
Definition WithFilters (fs : list (client_filter F)) : Option := λ o, foldl (λ o f, WithFilter f o) o fs.
Definition WithStreamFilters (sfs : list SF) : Option := λ o, o <| StreamFilters := StreamFilters o ++ sfs |>.
Definition WithStreamFilter (sf : SF) : Option := λ o, o <| StreamFilters := StreamFilters o ++ [sf] |>.
Definition WithEnableStreamSelectInFilter (enable : bool) : Option := λ o,
  o <| EnableStreamSelectInFilter := enable |>.
Definition WithReqHead (h : iface) : Option := λ o, o <| ReqHead := h |>.
Definition WithRspHead (h : iface) : Option := λ o, o <| RspHead := h |>.
Definition WithAttachment (a : option Reader * option Reader) : Option := λ o, o <| opt_attachment := Some a |>.
Definition WithMetaData (key : string) (val : bytes) : Option := λ o,
  o <| opt_MetaData := <[key := val]> (opt_MetaData o) |>.
Definition WithSelectorNode : Option := λ o, o <| opt_Node := true |>.
Definition WithTLS (certFile keyFile caFile serverName : string) : Option := λ o,
  if decide (caFile = "") then o else add_call (WithDialTLS certFile keyFile caFile serverName) o.
Definition WithCertProvider (name : string) : Option := add_call (ClientTransport.WithCertProvider name).
Definition WithDisableConnectionPool : Option := add_call ClientTransport.WithDisableConnectionPool.
Definition WithMultiplexed (enable : bool) : Option := λ o, o <| EnableMultiplexed := enable |>.
Definition WithLocalAddr (s : string) : Option := add_call (rt_WithLocalAddr s).
Definition WithDialTimeout (d : Z) : Option := add_call (rt_WithDialTimeout d).
Definition WithStreamTransport (st : option string) : Option := λ o, o <| StreamTransport := st |>.
Definition WithMaxWindowSize (s : Z) : Option := λ o, o <| MaxWindowSize := s |>.
Definition WithDisableStreamFlowControl : Option := λ o, o <| DisabledFlowControl := true |>.
Definition WithSendControl (sc : option string) : Option := λ o, o <| SControl := sc |>.
Definition WithRecvControl (rc : option string) : Option := λ o, o <| RControl := rc |>.
Definition WithShouldErrReportToSelector (f : option error → bool) : Option := λ o,
  o <| shouldErrReportToSelector := f |>.
Definition WithPreWarm (p : PreWarmOptions) : Option := add_call (rt_WithPreWarm p).

Definition apply_opts (opt : list Option) (o : options_t) : options_t := foldl (λ o f, f o) o opt.

(** [&Options{}], of which only data is read. *)
Definition zero_Options : options_t :=
  MkOptions "" "" "" 0 "" "" None "" "" 0 [] None false None [] None false (λ _, false) 0 0 0 0 None ∅ 0
    [] [] false false INil INil false false 0 None None [] false FixNone None.

Definition NewOptions : options_t :=
  zero_Options <| Transport := DefaultClientTransport |> <| opt_Selector := DefaultSelector |>
    <| SerializationType := (-1)%Z |> <| CurrentSerializationType := (-1)%Z |>
    <| CurrentCompressType := (-1)%Z |>.

(** The address of a backend: [selector://endpoint]. *)
Definition scheme_end : bytes := str_bytes "://".

Fixpoint find_scheme (s : bytes) : option nat :=
  if bool_decide (take (length scheme_end) s = scheme_end) then Some 0 else
  match s with [] => None | _ :: s => S <$> find_scheme s end.

Definition parseTarget (o : options_t) : options_t * option error :=
  if decide (Target o = "") then (o, None) else
  let t := str_bytes (Target o) in
  match find_scheme t with
  | None => (o, Some (Plain ("client: target " +:+ Target o +:+
                  " scheme invalid, format must be selector://endpoint")))
  | Some index =>
    let name := bytes_str (take index t) in
    let o := o <| opt_Selector := selector_Get name |> in
    match opt_Selector o with
    | None => (o, Some (Plain ("client: selector " +:+ name +:+ " not exist")))
    | Some _ =>
      let o := o <| endpoint := bytes_str (drop (index + length scheme_end) t) |> in
      if decide (endpoint o = "")
      then (o, Some (Plain ("client: target " +:+ Target o +:+
                  " endpoint empty, format must be selector://endpoint")))
      else (o, None)
    end
  end.

Definition LoadNodeConfig (node : Naming.Node CB) (o : options_t) : options_t :=
  let o := add_call (WithDialAddress (n_Address node)) o in
  let o := if decide (n_Network node = "") then o
           else add_call (WithDialNetwork (n_Network node)) (o <| Network := n_Network node |>) in
  if decide (n_Protocol node = "") then o else WithProtocol (n_Protocol node) o.
End options.
Arguments Option : clear implicits.

(** ** The configuration of backends (client/config.go) *)

Record PreWarmConfig := MkPreWarmConfig { cfg_ConnsPerNode : option Z; cfg_pw_Timeout : option Z }.

(** [cfg_CalleeMetadata] is the map in the order in which the loop visits it. *)
Record BackendConfig (W T : Type) := MkBackendConfig {
  cfg_Callee : string;
  cfg_ServiceName : string;
  cfg_EnvName : string;
  cfg_SetName : string;
  cfg_DisableServiceRouter : bool;
  cfg_Namespace : string;
  cfg_CalleeMetadata : list (string * string);
  cfg_Target : string;
  cfg_Password : string;
  cfg_OverloadCtrl : option (OverloadController W T);
  cfg_Discovery : string;
  cfg_ServiceRouter : string;
  cfg_Loadbalance : string;
  cfg_Circuitbreaker : string;
  cfg_Network : string;
  cfg_Timeout : Z;
  cfg_Protocol : string;
  cfg_Transport : string;
  cfg_Serialization : option Z;
  cfg_Compression : Z;
  cfg_TLSKey : string;
  cfg_TLSCert : string;
  cfg_TLSCertProvider : string;
  cfg_CACert : string;
  cfg_TLSServerName : string;
  cfg_Filter : list string;
  cfg_StreamFilter : list string;
  cfg_ReportAnyErrToSelector : bool;
  cfg_PreWarm : PreWarmConfig
}.
Arguments MkBackendConfig {W T}.
Arguments cfg_Callee {W T}.
Arguments cfg_ServiceName {W T}.
Arguments cfg_EnvName {W T}.
Arguments cfg_SetName {W T}.
Arguments cfg_DisableServiceRouter {W T}.
Arguments cfg_Namespace {W T}.
Arguments cfg_CalleeMetadata {W T}.
Arguments cfg_Target {W T}.
Arguments cfg_Password {W T}.
Arguments cfg_OverloadCtrl {W T}.
Arguments cfg_Discovery {W T}.
Arguments cfg_ServiceRouter {W T}.
Arguments cfg_Loadbalance {W T}.
Arguments cfg_Circuitbreaker {W T}.
Arguments cfg_Network {W T}.
Arguments cfg_Timeout {W T}.
Arguments cfg_Protocol {W T}.
Arguments cfg_Transport {W T}.
Arguments cfg_Serialization {W T}.
Arguments cfg_Compression {W T}.
Arguments cfg_TLSKey {W T}.
Arguments cfg_TLSCert {W T}.
Arguments cfg_TLSCertProvider {W T}.
Arguments cfg_CACert {W T}.
Arguments cfg_TLSServerName {W T}.
Arguments cfg_Filter {W T}.
Arguments cfg_StreamFilter {W T}.
Arguments cfg_ReportAnyErrToSelector {W T}.
Arguments cfg_PreWarm {W T}.

#[global] Instance eta_BackendConfig {W T} : Eta (BackendConfig W T) := λ c,
  MkBackendConfig (cfg_Callee c) (cfg_ServiceName c) (cfg_EnvName c) (cfg_SetName c) (cfg_DisableServiceRouter c)
    (cfg_Namespace c) (cfg_CalleeMetadata c) (cfg_Target c) (cfg_Password c) (cfg_OverloadCtrl c)
    (cfg_Discovery c) (cfg_ServiceRouter c) (cfg_Loadbalance c) (cfg_Circuitbreaker c)
    (cfg_Network c) (cfg_Timeout c) (cfg_Protocol c) (cfg_Transport c) (cfg_Serialization c)
    (cfg_Compression c) (cfg_TLSKey c) (cfg_TLSCert c) (cfg_TLSCertProvider c) (cfg_CACert c)
    (cfg_TLSServerName c) (cfg_Filter c) (cfg_StreamFilter c) (cfg_ReportAnyErrToSelector c)
    (cfg_PreWarm c).

Definition DefaultSelectorFilterName : string := "selector".

Section config.
Context {CB W F SF T P MP FB : Type} `{!PbEnum} `{!Plugins CB W F SF T P MP FB}.
Abbreviation options_t := (Options CB W F SF T P MP FB).

(** A registered component, or the error of the configuration. *)
Definition configured {A} (name kind : string) (get : string → option A) (with_ : option A → SelOption CB W)
    (o : options_t) : options_t * option error :=
  if decide (name = "") then (o, None) else
  match get name with
  | None => (o, Some (Plain ("client config: " +:+ kind +:+ " " +:+ name +:+ " no registered")))
  | Some a => (add_select (with_ (Some a)) o, None)
  end.

Definition if_set (s : string) (f : Option CB W F SF T P MP FB) : Option CB W F SF T P MP FB := λ o,
  if decide (s = "") then o else f o.

Definition setNamingOptions (cfg : BackendConfig W T) (o : options_t) : options_t * option error :=
  let o := if_set (cfg_ServiceName cfg) (λ o, o <| ServiceName := cfg_ServiceName cfg |>) o in
  let o := if_set (cfg_Namespace cfg) (add_select (sel_WithNamespace (cfg_Namespace cfg))) o in
  let o := if_set (cfg_EnvName cfg) (add_select (sel_WithDestinationEnvName (cfg_EnvName cfg))) o in
  let o := if_set (cfg_SetName cfg) (add_select (sel_WithDestinationSetName (cfg_SetName cfg))) o in
  let o := if cfg_DisableServiceRouter cfg
           then add_select sel_WithDisableServiceRouter o <| DisableServiceRouter := true |> else o in
  let o := if cfg_ReportAnyErrToSelector cfg
           then o <| shouldErrReportToSelector := λ _, true |> else o in
  let o := foldl (λ o '(key, val), add_select (sel_WithDestinationMetadata key val) o) o
             (cfg_CalleeMetadata cfg) in
  if decide (cfg_Target cfg ≠ "") then parseTarget (o <| Target := cfg_Target cfg |>) else
  match configured (cfg_Discovery cfg) "discovery" discovery_Get sel_WithDiscovery o with
  | (o, Some e) => (o, Some e)
  | (o, None) =>
    match configured (cfg_ServiceRouter cfg) "servicerouter" servicerouter_Get sel_WithServiceRouter o with
    | (o, Some e) => (o, Some e)
    | (o, None) =>
      match configured (cfg_Loadbalance cfg) "balancer" loadbalance_Get sel_WithLoadBalancer o with
      | (o, Some e) => (o, Some e)
      | (o, None) =>
        configured (cfg_Circuitbreaker cfg) "circuitbreaker" circuitbreaker_Get sel_WithCircuitBreaker o
      end
    end
  end.

Definition setPreWarm (cfg : BackendConfig W T) (o : options_t) : options_t :=
  match cfg_ConnsPerNode (cfg_PreWarm cfg) with
  | None => o
  | Some n => add_call (rt_WithPreWarm (MkPreWarm n (default 0%Z (cfg_pw_Timeout (cfg_PreWarm cfg))))) o
  end.

(** On Linux a transport that nobody has chosen is the one of tnet for the trpc protocol over TCP. *)
Definition check_tnet (o : options_t) : bool :=
  bool_decide (Network o ∈ TCP) && bool_decide (Protocol o = "trpc").

Definition attemptSwitchingTransport (o : options_t) : option (ClientTransport W P MP FB) :=
  match Transport o with
  | None => if check_tnet o then tnet_DefaultClientTransport else DefaultClientTransport
  | t => t
  end.

Fixpoint add_filters (names : list string) (o : options_t) : options_t + error :=
  match names with
  | [] => inl o
  | name :: names =>
    match filter_GetClient name with
    | Some f => add_filters names (WithNamedFilter name (UserFilter f) o)
    | None =>
      if decide (name = DefaultSelectorFilterName) then
        add_filters names (WithNamedFilter name SelectorFilter (o <| selectorFilterPosFixed := true |>))
      else inr (Plain ("client config: filter " +:+ name +:+ " no registered, do not configure"))
    end
  end.

Fixpoint add_stream_filters (names : list string) (o : options_t) : options_t + error :=
  match names with
  | [] => inl o
  | name :: names =>
    match GetStreamFilter name with
    | Some f => add_stream_filters names (WithStreamFilter f o)
    | None => inr (Plain ("client config: stream filter " +:+ name +:+ " no registered, do not configure"))
    end
  end.

Definition genOptions (cfg : BackendConfig W T) : options_t + error :=
  match setNamingOptions cfg NewOptions with
  | (_, Some e) => inr e
  | (o, None) =>
    let o := o <| OverloadCtrl := cfg_OverloadCtrl cfg |> in
    let o := if (0 <? cfg_Timeout cfg)%Z
             then o <| Timeout := i64 (cfg_Timeout cfg * 1000000) |> else o in
    let o := match cfg_Serialization cfg with Some t => o <| SerializationType := t |> | None => o end in
    let o := if IsValidCompressType (cfg_Compression cfg) &&
                negb (cfg_Compression cfg =? CompressTypeNoop)%Z
             then o <| CompressType := cfg_Compression cfg |> else o in
    let o := o <| Transport := None |> in
    let o := WithTransport (GetClientTransport (cfg_Transport cfg)) o in
    let o := WithStreamTransport (GetClientStreamTransport (cfg_Transport cfg)) o in
    let o := WithNetwork (cfg_Network cfg) (WithProtocol (cfg_Protocol cfg) o) in
    let o := o <| Transport := attemptSwitchingTransport o |> in
    let o := WithPassword (cfg_Password cfg) o in
    let o := WithTLS (cfg_TLSCert cfg) (cfg_TLSKey cfg) (cfg_CACert cfg) (cfg_TLSServerName cfg) o in
    let o := if_set (cfg_TLSCertProvider cfg) (WithCertProvider (cfg_TLSCertProvider cfg)) o in
    let o := setPreWarm cfg o in
    if bool_decide (cfg_Protocol cfg ≠ "") && is_none (Codec o)
    then inr (Plain ("codec " +:+ cfg_Protocol cfg +:+ " not exists"))
    else match add_filters (cfg_Filter cfg) o with
         | inr e => inr e
         | inl o => add_stream_filters (cfg_StreamFilter cfg) o
         end
  end.

(** ** The options of a callee *)

Record optionsWithFallback := MkWithFallback {
  fallback : options_t;
  serviceNames : gmap string options_t
}.

Definition defaultBackendConf : BackendConfig W T :=
  MkBackendConfig "" "" "" "" false "" [] "" "" None "" "" "" "" "tcp" 0 "trpc" "" None 0 "" "" "" "" ""
    [] [] false (MkPreWarmConfig None None).

Definition getDefaultOptions : options_t :=
  match genOptions defaultBackendConf with inl o => o | inr _ => NewOptions end.

Abbreviation registry := (gmap string optionsWithFallback).

Definition getOptions (options : registry) (callee : string) : options_t :=
  match options !! callee with
  | Some opts => fallback opts
  | None => match options !! "*" with Some opts => fallback opts | None => getDefaultOptions end
  end.

Definition getOptionsByCalleeAndServiceName (options : registry) (callee serviceName : string) : options_t :=
  match options !! callee with
  | None => getOptions options callee
  | Some serviceOptions =>
    match serviceNames serviceOptions !! serviceName with
    | None => getOptions options callee
    | Some opts => opts
    end
  end.

Definition getOptionsByCalleeAndUserOptions (options : registry) (callee : string)
    (opt : list (Option CB W F SF T P MP FB)) : options_t :=
  let inputOpts := apply_opts opt zero_Options in
  if decide (ServiceName inputOpts = "") then getOptions options callee
  else getOptionsByCalleeAndServiceName options callee (ServiceName inputOpts).

(** [RegisterConfig]: the new registry, unless a configuration is wrong; [conf] is the map in the order
    of the loop. *)
Fixpoint RegisterConfig_loop (conf : list (string * BackendConfig W T)) (opts : registry)
    : registry + error :=
  match conf with
  | [] => inl opts
  | (key, cfg) :: conf =>
    match genOptions cfg with
    | inr e => inr e
    | inl o =>
      RegisterConfig_loop conf (<[key := MkWithFallback o {[cfg_ServiceName cfg := o]}]> opts)
    end
  end.

Definition RegisterConfig (conf : list (string * BackendConfig W T)) (options : registry)
    : registry * option error :=
  match RegisterConfig_loop conf ∅ with inl opts => (opts, None) | inr e => (options, Some e) end.
End config.

(** ** Slices of options

    Every call works on a shallow copy of the registered options ([clone]) and appends to their
    slices.  Here a slice is its array on a heap, with length and capacity, as in the language;
    [grow] is the capacity of the array that [append] makes.  The elements of the fields have different
    types, so that every field has a heap of its own. *)

Record slice := MkSlice { arr : nat; len : nat; cap : nat }.

#[global] Instance slice_eq_dec : EqDecision slice.
Proof. solve_decision. Defined.

(** The fields of [Options] that are slices. *)
Inductive slice_field := SCallOptions | SSelectOptions | SFilters | SFilterNames | SStreamFilters.

#[global] Instance slice_field_eq_dec : EqDecision slice_field.
Proof. solve_decision. Defined.

Section slices.
Context {A : Type} (zero : A) (grow : nat → nat).
Implicit Types (h : list (list A)) (s : slice) (x : A).

Definition values h s : list A := take (len s) (default [] (h !! arr s)).

Definition append h s x : list (list A) * slice :=
  if len s <? cap s then (alter (<[len s := x]>) (arr s) h, MkSlice (arr s) (len s + 1) (cap s))
  else (h ++ [values h s ++ x :: replicate (grow (cap s) - (len s + 1)) zero],
        MkSlice (length h) (len s + 1) (grow (cap s))).

(** [rebuildSliceCapacity], on one slice. *)
Definition rebuild_slice h s : list (list A) * slice :=
  if (len s =? cap s)%nat then (h, s) else (h ++ [values h s], MkSlice (length h) (len s) (len s)).

(** Calls that each have a copy of one slice of the options append to it, in any order: an event is
    the call and what it appends. *)
Definition slice_step (st : list (list A) * list slice) (ev : nat * A) : list (list A) * list slice :=
  let '(h, ss) := st in
  match ss !! ev.1 with
  | None => st
  | Some s => let '(h, s) := append h s ev.2 in (h, <[ev.1 := s]> ss)
  end.

(** Every call with a list of its own. *)
Definition list_step (ls : list (list A)) (ev : nat * A) : list (list A) :=
  alter (λ l, l ++ [ev.2]) ev.1 ls.

Definition valid h s : Prop := ∃ a, h !! arr s = Some a ∧ length a = cap s ∧ len s ≤ cap s.

(** A call still has the slice of the options, or an array that no one else has. *)
Definition apart (base : slice) (ss : list slice) : Prop :=
  ∀ i s, ss !! i = Some s → s = base ∨
    arr s ≠ arr base ∧ ∀ j s', ss !! j = Some s' → arr s' = arr s → j = i.

Record separate (base : slice) (b : list A) (st : list (list A) * list slice) (ls : list (list A)) : Prop := {
  sep_base : values st.1 base = b;
  sep_full : valid st.1 base ∧ len base = cap base;
  sep_valid : Forall (valid st.1) st.2;
  sep_values : values st.1 <$> st.2 = ls;
  sep_apart : apart base st.2
}.

Lemma valid_lt h s : valid h s → arr s < length h.
Proof. intros (a & Ha & _). by eapply lookup_lt_Some. Qed.

Lemma values_app h h' s : valid h s → values (h ++ h') s = values h s.
Proof. intros Hv. unfold values. by rewrite lookup_app_l by by apply valid_lt. Qed.

Lemma valid_app h h' s : valid h s → valid (h ++ h') s.
Proof. intros (a & Ha & ?). exists a. by rewrite lookup_app_l by by eapply lookup_lt_Some. Qed.

Lemma values_alter h s f i : arr s ≠ i → values (alter f i h) s = values h s.
Proof. intros Hi. unfold values. by rewrite list_lookup_alter_ne. Qed.

Lemma valid_alter h s i k x : valid h s → valid (alter (<[k := x]>) i h) s.
Proof.
  intros (a & Ha & ?). destruct (decide (i = arr s)) as [->|].
  - exists (<[k := x]> a). rewrite list_lookup_alter_eq, Ha, length_insert. done.
  - exists a. by rewrite list_lookup_alter_ne.
Qed.

Lemma length_values h s : valid h s → length (values h s) = len s.
Proof. intros (a & Ha & ? & ?). unfold values. rewrite Ha. simpl. rewrite length_take. lia. Qed.

Context (grow_lt : ∀ n, n < grow n).

Lemma append_new h s x h' s' :
  append h s x = (h', s') → valid h s → values h' s' = values h s ++ [x] ∧ valid h' s'.
Proof.
  unfold append. intros E Hv. pose proof (length_values h s Hv) as Hl.
  destruct (Nat.ltb_spec (len s) (cap s)); injection E as <- <-; simpl.
  - destruct (Hv) as (a & Ha & Hc & Hle). unfold values. simpl. rewrite list_lookup_alter_eq, Ha. simpl. split.
    + rewrite Nat.add_1_r, (take_S_r _ _ x) by (apply list_lookup_insert_eq; lia).
      by rewrite take_insert_ge by lia.
    + exists (<[len s := x]> a). simpl. rewrite list_lookup_alter_eq, Ha, length_insert.
      split; [done|]. split; [done|lia].
  - assert (len s < grow (cap s)) as Hg.
    { destruct Hv as (a & _ & _ & Hle). specialize (grow_lt (cap s)). lia. }
    split.
    + unfold values at 1. simpl. rewrite lookup_app_r, Nat.sub_diag by done. simpl.
      rewrite <- Hl, (cons_middle x), app_assoc. apply take_app_length'. rewrite length_app. simpl. lia.
    + eexists. simpl. rewrite lookup_app_r, Nat.sub_diag by done. split; [done|].
      rewrite length_app. simpl. rewrite length_replicate. lia.
Qed.

(** [append] leaves a slice alone whose array it does not write to. *)
Lemma append_other h s x h' s' s2 :
  append h s x = (h', s') → valid h s2 → (arr s2 = arr s → cap s ≤ len s) →
  values h' s2 = values h s2 ∧ valid h' s2.
Proof.
  unfold append. intros E Hv Ho. destruct (Nat.ltb_spec (len s) (cap s)); injection E as <- <-.
  - split; [|by apply valid_alter]. apply values_alter. intros Ha. specialize (Ho Ha). lia.
  - split; [by apply values_app|by apply valid_app].
Qed.

Lemma append_arr h s x h' s' :
  append h s x = (h', s') → arr s' = arr s ∧ len s < cap s ∨ arr s' = length h.
Proof.
  unfold append. intros E. destruct (Nat.ltb_spec (len s) (cap s)); injection E as <- <-; auto.
Qed.

Lemma step_separate base b st ls ev :
  separate base b st ls → separate base b (slice_step st ev) (list_step ls ev).
Proof.
  destruct st as [h ss], ev as [i x]. intros [Hb [Hbv Hbf] Hv Hl Ha]. simpl in *. unfold list_step. simpl.
  destruct (ss !! i) as [s|] eqn:Ei.
  2:{ split; try done. rewrite <- Hl. apply list_eq. intros j.
      destruct (decide (i = j)) as [->|]; [|by rewrite list_lookup_alter_ne].
      by rewrite list_lookup_alter_eq, !list_lookup_fmap; simpl; rewrite Ei. }
  destruct (append h s x) as [h' s'] eqn:E.
  assert (valid h s) as Hs by by eapply (Forall_lookup_1 _ _ _ _ Hv).
  destruct (append_new _ _ _ _ _ E Hs) as [Hval Hs'].
  assert (arr base = arr s → cap s ≤ len s) as Hbase.
  { intros Hbs. destruct (Ha i s Ei) as [->|[Hne _]]; [lia|congruence]. }
  assert (∀ j s2, ss !! j = Some s2 → j ≠ i → arr s2 = arr s → cap s ≤ len s) as Hother.
  { intros j s2 Hj Hji Hjs. destruct (Ha i s Ei) as [->|[_ Hne]]; [lia|]. by destruct Hji; eauto. }
  destruct (append_other _ _ _ _ _ base E Hbv Hbase) as [Hb' Hbv'].
  assert (∀ j s2, ss !! j = Some s2 → j ≠ i → values h' s2 = values h s2 ∧ valid h' s2) as Hkeep.
  { intros j s2 Hj Hji. eapply append_other; [exact E| |by eapply Hother].
    by eapply (Forall_lookup_1 _ _ _ _ Hv). }
  split; simpl; [congruence|done| | |].
  - apply Forall_lookup_2. intros j s2 [(-> & -> & _)|[Hji Hj]]%list_lookup_insert_Some; [done|].
    by eapply Hkeep.
  - rewrite <- Hl. apply list_eq. intros j. rewrite list_lookup_fmap.
    destruct (decide (i = j)) as [<-|Hji].
    + rewrite list_lookup_insert_eq, list_lookup_alter_eq, list_lookup_fmap, Ei by by eapply lookup_lt_Some.
      simpl. by rewrite Hval.
    + rewrite list_lookup_insert_ne, list_lookup_alter_ne, list_lookup_fmap by done.
      destruct (ss !! j) as [s2|] eqn:Ej; simpl; [|done]. f_equal. by apply (Hkeep j).
  - intros j s2 Hj. apply list_lookup_insert_Some in Hj as [(-> & -> & _)|[Hji Hj]].
    + right. destruct (append_arr _ _ _ _ _ E) as [[Harr Hlt]|Harr]; rewrite Harr.
      * destruct (Ha j s Ei) as [->|[Hne Huniq]]; [lia|]. split; [done|].
        intros k s3 [(-> & _ & _)|[Hki Hk]]%list_lookup_insert_Some; [done|eauto].
      * split; [pose proof (valid_lt _ _ Hbv); lia|].
        intros k s3 [(-> & _ & _)|[Hki Hk]]%list_lookup_insert_Some Hk3; [done|].
        pose proof (valid_lt h s3 (Forall_lookup_1 _ _ _ _ Hv Hk)). lia.
    + destruct (Ha j s2 Hj) as [->|[Hne Huniq]]; [by left|]. right. split; [done|].
      intros k s3 [(-> & -> & _)|[Hki Hk]]%list_lookup_insert_Some Hk3; [|eauto].
      exfalso. destruct (append_arr _ _ _ _ _ E) as [[Harr Hlt]|Harr].
      * apply Hji. eapply Huniq; [exact Ei|congruence].
      * pose proof (valid_lt h s2 (Forall_lookup_1 _ _ _ _ Hv Hj)). lia.
Qed.

Lemma rebuild_full h s h' s' :
  rebuild_slice h s = (h', s') → valid h s →
  values h' s' = values h s ∧ valid h' s' ∧ len s' = cap s'.
Proof.
  unfold rebuild_slice. intros E Hv. destruct (Nat.eqb_spec (len s) (cap s)); injection E as <- <-.
  { done. }
  pose proof (length_values h s Hv) as Hl. unfold values at 1. simpl.
  rewrite lookup_app_r, Nat.sub_diag by done. simpl. rewrite <- Hl, firstn_all. split; [done|].
  split; [|done]. exists (values h s). simpl. by rewrite lookup_app_r, Nat.sub_diag by done.
Qed.

(** Copies of one slice that was rebuilt. *)
Lemma slices_separate h s calls evs :
  valid h s →
  let '(h1, base) := rebuild_slice h s in
  let '(h2, ss) := foldl slice_step (h1, replicate calls base) evs in
  values h2 <$> ss = foldl list_step (replicate calls (values h s)) evs ∧ values h2 base = values h s.
Proof.
  intros Hv. destruct (rebuild_slice h s) as [h1 base] eqn:E.
  destruct (rebuild_full _ _ _ _ E Hv) as (Hb & Hbv & Hf).
  assert (separate base (values h s) (h1, replicate calls base) (replicate calls (values h s))) as Hsep.
  { split; simpl; [done|done|by apply Forall_replicate| |].
    - by rewrite fmap_replicate, Hb.
    - intros i x [-> _]%lookup_replicate. by left. }
  revert Hsep. generalize (h1, replicate calls base), (replicate calls (values h s)).
  induction evs as [|ev evs IH]; intros st ls Hsep; simpl; [|by apply IH, step_separate].
  destruct st as [h2 ss]. by destruct Hsep.
Qed.

(** *** The fields of the options that are slices *)

Definition heaps : Type := slice_field → list (list A).
Definition slices : Type := slice_field → slice.

Definition set_at {B} (f : slice_field) (b : B) (g : slice_field → B) : slice_field → B :=
  λ f', if decide (f' = f) then b else g f'.

(** [clone] copies the struct, so that the slices are those of the original. *)
Definition clone (o : slices) : slices := o.

Definition rebuild_field (st : heaps * slices) (f : slice_field) : heaps * slices :=
  let '(h, s) := rebuild_slice (st.1 f) (st.2 f) in (set_at f h st.1, set_at f s st.2).

(** [Options.rebuildSliceCapacity] *)
Definition rebuildSliceCapacity (st : heaps * slices) : heaps * slices :=
  foldl rebuild_field st [SCallOptions; SSelectOptions; SFilters; SFilterNames].

(** The call [i] appends [x] to the field [f] of its options. *)
Definition options_step (st : heaps * list slices) (ev : nat * slice_field * A) : heaps * list slices :=
  let '(i, f, x) := ev in
  match st.2 !! i with
  | None => st
  | Some o => let '(h, s) := append (st.1 f) (o f) x in (set_at f h st.1, <[i := set_at f s o]> st.2)
  end.

(** What calls append to a field. *)
Definition events_of (f : slice_field) (evs : list (nat * slice_field * A)) : list (nat * A) :=
  omap (λ '(i, f', x), if decide (f' = f) then Some (i, x) else None) evs.

Definition at_field (f : slice_field) (st : heaps * list slices) : list (list A) * list slice :=
  (st.1 f, (λ o : slices, o f) <$> st.2).

Lemma set_at_eq {B} f (b : B) g : set_at f b g f = b.
Proof. unfold set_at. by rewrite decide_True. Qed.
Lemma set_at_ne {B} f f' (b : B) g : f' ≠ f → set_at f b g f' = g f'.
Proof. intros. unfold set_at. by rewrite decide_False. Qed.

(** On one field a run is a run on one slice. *)
Lemma options_step_field f st i f' x :
  at_field f (options_step st (i, f', x)) =
  if decide (f' = f) then slice_step (at_field f st) (i, x) else at_field f st.
Proof.
  destruct st as [hs os]. unfold options_step, slice_step, at_field. simpl. rewrite list_lookup_fmap.
  destruct (os !! i) as [o|] eqn:Ho; simpl; [|by destruct (decide (f' = f))].
  destruct (append (hs f') (o f') x) as [h s] eqn:E. destruct (decide (f' = f)) as [Hf|Hf].
  - subst f'. rewrite E. simpl. by rewrite set_at_eq, list_fmap_insert, set_at_eq.
  - simpl. rewrite set_at_ne, list_fmap_insert, set_at_ne by done. f_equal.
    apply list_insert_id. rewrite list_lookup_fmap. exact (f_equal (fmap (λ o : slices, o f)) Ho).
Qed.

Lemma options_run_field f st evs :
  at_field f (foldl options_step st evs) = foldl slice_step (at_field f st) (events_of f evs).
Proof.
  revert st. induction evs as [|[[i f'] x] evs IH]; intros st; [done|].
  cbn [foldl]. rewrite IH, options_step_field. unfold events_of. cbn [omap list_omap].
  by destruct (decide (f' = f)).
Qed.

(** The options of concurrent calls do not mix, but for the stream filters.  After
    [rebuildSliceCapacity] of the registered options, any number of calls that clone them and append to
    the slices of their clones, in any order, each see in the call options, the selector options, the filters
    and their names the registered elements followed by their own, as if every call had a list of its
    own; the registered ones stay as they are. *)
Theorem calls_separate (hs : heaps) (o : slices) (calls : nat) (evs : list (nat * slice_field * A)) :
  (∀ f, valid (hs f) (o f)) →
  let '(hs1, base) := rebuildSliceCapacity (hs, o) in
  let '(hs2, os) := foldl options_step (hs1, replicate calls (clone base)) evs in
  ∀ f, f ∈ [SCallOptions; SSelectOptions; SFilters; SFilterNames] →
    ((λ o : slices, values (hs2 f) (o f)) <$> os) = foldl list_step (replicate calls (values (hs f) (o f))) (events_of f evs) ∧
    values (hs2 f) (base f) = values (hs f) (o f).
Proof.
  intros Hv. destruct (rebuildSliceCapacity (hs, o)) as [hs1 base] eqn:E.
  destruct (foldl options_step _ evs) as [hs2 os] eqn:Er. intros f Hf.
  assert (rebuild_slice (hs f) (o f) = (hs1 f, base f)) as Ef.
  { unfold rebuildSliceCapacity in E. simpl in E. unfold rebuild_field in E.
    repeat match type of E with context [rebuild_slice ?h ?s] =>
      let h' := fresh "h" in let s' := fresh "s" in let E' := fresh "E" in
      destruct (rebuild_slice h s) as [h' s'] eqn:E'; simpl in E', E end.
    injection E as <- <-. rewrite !elem_of_cons in Hf. destruct_or?; subst; try done; [..|by apply elem_of_nil in Hf]. }
  pose proof (slices_separate (hs f) (o f) calls (events_of f evs) (Hv f)) as Hs. rewrite Ef in Hs.
  pose proof (options_run_field f (hs1, replicate calls (clone base)) evs) as Hrun. rewrite Er in Hrun.
  unfold at_field in Hrun. simpl in Hrun. rewrite fmap_replicate in Hrun. unfold clone in Hrun. rewrite <- Hrun in Hs.
  by rewrite <- list_fmap_compose in Hs.
Qed.
End slices.

(** The stream filters are not rebuilt: after three configured filters their array has room for one
    more, and of two streams with a filter of their own the first one has the filter of the second. *)
Module SliceExamples.
Definition double (n : nat) : nat := match n with O => 1 | _ => 2 * n end.

Lemma double_lt n : n < double n.
Proof. unfold double. destruct n; lia. Qed.

Definition nil_slice : slice := MkSlice 0 0 0.

Definition configured3 : list (list nat) * slice :=
  foldl (λ '(h, s) x, append 0 double h s x) ([[]], nil_slice) [1; 2; 3].

(** Options with three elements in every field. *)
Definition configured : heaps * slices := (λ _, configured3.1, λ _, configured3.2).

(** Two calls with a clone of the options append to the field [f] of theirs. *)
Definition two_calls (f : slice_field) : list (list nat) :=
  let '(hs, base) := rebuildSliceCapacity configured in
  let '(hs, os) := foldl (options_step 0 double) (hs, replicate 2 (clone base)) [(0, f, 10); (1, f, 20)] in
  (λ o, values (hs f) (o f)) <$> os.

Lemma stream_filters_shared : two_calls SStreamFilters = [[1; 2; 3; 20]; [1; 2; 3; 20]].
Proof. reflexivity. Qed.

Example filters_separate : two_calls SFilters = [[1; 2; 3; 10]; [1; 2; 3; 20]].
Proof. reflexivity. Qed.

Lemma configured3_valid : valid configured3.1 configured3.2.
Proof. exists [1; 2; 3; 0]. vm_compute. split; [done|]. split; [done|lia]. Qed.

Lemma calls_separate_witness :
  let '(hs1, base) := rebuildSliceCapacity configured in
  let '(hs2, os) := foldl (options_step 0 double) (hs1, replicate 2 (clone base))
    [(0, SFilters, 10); (1, SFilters, 20)] in
  ∀ f, f ∈ [SCallOptions; SSelectOptions; SFilters; SFilterNames] →
    ((λ o : slices, values (hs2 f) (o f)) <$> os) =
      foldl list_step (replicate 2 (values configured3.1 configured3.2))
        (events_of f [(0, SFilters, 10); (1, SFilters, 20)]) ∧
    values (hs2 f) (base f) = values configured3.1 configured3.2.
Proof. apply (calls_separate 0 double double_lt configured.1 configured.2). intros f. exact configured3_valid. Defined.
End SliceExamples.
