(* ===== verification/Client.v ===== *)
(** A call of a client (client/client.go, client/full_link_timeout.go, filter/filter.go), from
    [Invoke] through filters and selector to codec and transport and back.

    A computation takes the environment of one call: its message, the world of selector, codec and
    transport, the shared errors as in Service.v, the options that the context points to - a store,
    as [selectorFilter] makes a copy of them when the context says that they are immutable - and the
    node that the caller asked for.  The context carries one message.  A response body is the value
    that the code fills through a pointer: functions take it and give it back.  The readings of the
    clock between the steps of [Invoke] before its filters are one reading. *)

From S2P Require Import Prelude GoStrings Pb Errs Frame Msg UnaryCodec Service Naming ClientTransport ClientOptions.

(** A context of a call: deadline, the address of its options, and whether they are immutable. *)
Record ClientContext := MkClientContext {
  cc_ctx : CallContext;
  cc_options : option nat;
  cc_immutable : bool
}.

#[global] Instance eta_ClientContext : Eta ClientContext := λ c,
  MkClientContext (cc_ctx c) (cc_options c) (cc_immutable c).

(** The environment of a call. *)
Record CallEnv (CB W F SF T P MP FB : Type) := MkCallEnv {
  c_heap : gmap positive error;
  c_msg : msg;
  c_world : W;
  store : list (Options CB W F SF T P MP FB);
  selected : option (Naming.Node CB)
}.
Arguments MkCallEnv {CB W F SF T P MP FB}.
Arguments c_heap {CB W F SF T P MP FB}.
Arguments c_msg {CB W F SF T P MP FB}.
Arguments c_world {CB W F SF T P MP FB}.
Arguments store {CB W F SF T P MP FB}.
Arguments selected {CB W F SF T P MP FB}.

#[global] Instance eta_CallEnv {CB W F SF T P MP FB} : Eta (CallEnv CB W F SF T P MP FB) := λ e,
  MkCallEnv (c_heap e) (c_msg e) (c_world e) (store e) (selected e).

(** What the client uses of the language, of the clock and of the registries of package codec.
    [is_ip_port] is [net.SplitHostPort] and [net.ParseIP]; [Resolve] gives the address for a network,
    and for a nil pointer, which is not a nil interface, the address that its methods give. *)
Class ClientRuntime (CB W Req Rsp : Type) := {
  c_now : W → Z;
  c_Err : CallContext → W → option CtxErr;
  is_ip_port : string → bool;
  Resolve : string → string → Addr;
  cost_text : Z → string;
  node_text : Naming.Node CB → string;
  c_compressors : gmap Z Compressor;
  c_serializers : gmap Z (Serializer Rsp Req)
}.

Section client.
Context {CB W F SF T P MP FB Req Rsp : Type} `{!PbEnum} `{!Plugins CB W F SF T P MP FB}
        `{!ClientRuntime CB W Req Rsp}.

Abbreviation options_t := (Options CB W F SF T P MP FB).
Abbreviation env_t := (CallEnv CB W F SF T P MP FB).
Abbreviation MC := (M env_t).

(** The response body that is given back, and the error. *)
Definition outcome : Type := option Rsp * option go_err.
Definition ClientHandleFunc : Type := ClientContext → option Req → option Rsp → MC outcome.
Definition ClientFilter : Type := ClientContext → option Req → option Rsp → ClientHandleFunc → MC outcome.

Definition on_msg (f : msg → msg) : MC () := modify (λ e, e <| c_msg := f (c_msg e) |>).
Definition in_world {A} (m : M W A) : MC A := λ e,
  let '(r, w) := m (c_world e) in (r, e <| c_world := w |>).
Definition in_call {A} (m : M (msg * W) A) : MC A := λ e,
  let '(r, (m, w)) := m (c_msg e, c_world e) in (r, e <| c_msg := m |> <| c_world := w |>).

(** ** Options of a context *)

Definition alloc (o : options_t) : MC nat := λ e,
  (Some (length (store e)), e <| store := store e ++ [o] |>).
Definition upd_opts (a : nat) (f : options_t → options_t) : MC () :=
  modify (λ e, e <| store := alter f a (store e) |>).
Definition read_opts (a : nat) : MC options_t := λ e, (store e !! a, e).

(** The address of the options: of new ones when the context has none. *)
Definition OptionsFromContext (ctx : ClientContext) : MC nat :=
  match cc_options ctx with Some a => mret a | None => alloc NewOptions end.

Definition contextWithOptions (ctx : ClientContext) (a : nat) : ClientContext :=
  ctx <| cc_options := Some a |>.
Definition WithOptionsImmutable (ctx : ClientContext) : ClientContext := ctx <| cc_immutable := true |>.

(** ** Errors *)

Definition frame_error {A} (code : Z) (text : string) : MC (A + go_err) :=
  mret (inr (Own (NewFrameError code text))).

Definition with_msg (text : string) (e : error) : error :=
  match e with
  | Status t c _ d => Status t c text d
  | StatusOf t c _ d cause => StatusOf t c text d cause
  | e => e
  end.

(** Write through the [*errs.Error] that the error is. *)
Definition set_error (f : error → error) (err : go_err) : MC go_err :=
  match err with
  | Own e => mret (Own (f e))
  | Shared l => _ ← modify (λ e, e <| c_heap := alter f l (c_heap e) |>); mret err
  end.

Definition mayConvert2FullLinkTimeout (err : option go_err) : MC (option go_err) :=
  match err with
  | None => mret None
  | Some err =>
    h ← gets c_heap;
    match deref h err with
    | NilStatus => panic
    | e =>
      if IsTimeout e ErrorTypeFramework
      then err ← set_error (with_code RetClientFullLinkTimeout) err; mret (Some err)
      else mret (Some err)
    end
  end.

Definition fixTimeout (f : fix_timeout) (err : option go_err) : MC (option go_err) :=
  match f with FixNone => mret err | FixFullLink => mayConvert2FullLinkTimeout err end.

(** ** Bodies *)

Definition current (valid : Z → bool) (of_options of_msg : Z) : Z :=
  if valid of_options then of_options else of_msg.

(** The error of a stage of a call. *)
Definition stage {A} (code : Z) (text : string) (r : result A) : MC (A + go_err) :=
  match r with
  | Ok a => mret (inl a)
  | Err e => frame_error code (text +:+ Error e)
  | Panic => panic
  end.

Definition serializeAndCompress (reqBody : option Req) (o : options_t) : MC (bytes + go_err) :=
  m ← gets c_msg;
  let serializationType := current IsValidSerializationType (CurrentSerializationType o)
                             (msg_SerializationType m) in
  reqBodyBuf ←! stage RetClientEncodeFail "client codec Marshal: "
    (if IsValidSerializationType serializationType
     then Marshal c_serializers serializationType reqBody else Ok []);
  let compressType := current IsValidCompressType (CurrentCompressType o) (msg_CompressType m) in
  stage RetClientEncodeFail "client codec Compress: "
    (if IsValidCompressType compressType && negb (compressType =? CompressTypeNoop)%Z
     then Compress c_compressors compressType reqBodyBuf else Ok reqBodyBuf).

Definition call_codec (f : W → msg → bytes → result bytes * msg * W) (buf : bytes) : MC (result bytes) := λ e,
  let '(r, m, w) := f (c_world e) (c_msg e) buf in
  (Some r, e <| c_msg := m |> <| c_world := w |>).

Definition prepareRequestBuf (codec : ServerCodec W) (reqBody : option Req) (o : options_t)
    : MC (bytes + go_err) :=
  reqBodyBuf ←! serializeAndCompress reqBody o;
  r ← call_codec (codec_Encode codec) reqBodyBuf;
  stage RetClientEncodeFail "client codec Encode: " r.

(** [codec.Unmarshal] into a body that may be nil. *)
Definition unmarshal (serializationType : Z) (input : bytes) (body : option Rsp) : option Rsp * result () :=
  match body with
  | None => (None, Ok ())
  | Some body =>
    let '(body, r) := Unmarshal c_serializers serializationType input body in (Some body, r)
  end.

Definition processResponseBuf (rspBody : option Rsp) (rspBodyBuf : bytes) (o : options_t) : MC outcome :=
  m ← gets c_msg;
  match msg_ClientRspErr m with
  | Some e => mret (rspBody, Some (Own e))
  | None =>
    if (zlen rspBodyBuf =? 0)%Z then mret (rspBody, None) else
    let compressType := current IsValidCompressType (CurrentCompressType o) (msg_CompressType m) in
    r ← stage RetClientDecodeFail "client codec Decompress: "
      (if IsValidCompressType compressType && negb (compressType =? CompressTypeNoop)%Z
       then Decompress c_compressors compressType rspBodyBuf else Ok rspBodyBuf);
    match r with
    | inr e => mret (rspBody, Some e)
    | inl rspBodyBuf =>
      let serializationType := current IsValidSerializationType (CurrentSerializationType o)
                                 (msg_SerializationType m) in
      let '(rspBody, r) := if IsValidSerializationType serializationType
                           then unmarshal serializationType rspBodyBuf rspBody else (rspBody, Ok ()) in
      r ← stage RetClientDecodeFail "client codec Unmarshal: " r;
      mret (rspBody, match r with inl _ => None | inr e => Some e end)
    end
  end.

(** ** The call of the backend *)

(** What [callFunc] does with the outcome of [RoundTrip]. *)
Definition receive (codec : ServerCodec W) (o : options_t) (rspBody : option Rsp) (r : bytes + go_err)
    : MC outcome :=
  match r with
  | inr e => mret (rspBody, if decide (e = ErrClientNoResponse) then None else Some e)
  | inl rspBuf =>
    r ← call_codec (codec_Decode codec) rspBuf;
    r ← stage RetClientDecodeFail "client codec Decode: " r;
    match r with
    | inr e => mret (rspBody, Some e)
    | inl rspBodyBuf => processResponseBuf rspBody rspBodyBuf o
    end
  end.

(** The body of [callFunc] after its deferred functions are set up. *)
Definition call_backend (a : nat) (o : options_t) (ctx : ClientContext) (reqBody : option Req)
    (rspBody : option Rsp) : MC outcome :=
  match Codec o with
  | None => mret (rspBody, Some (Own (NewFrameError RetClientEncodeFail "client: codec empty")))
  | Some codec =>
    r ← prepareRequestBuf codec reqBody o;
    match r with
    | inr e => mret (rspBody, Some e)
    | inl reqBuf =>
      _ ← (if EnableMultiplexed o
           then upd_opts a (λ o, add_call (rt_WithMultiplexed true) (add_call WithMsg o)) else mret ());
      o ← read_opts a;
      match Transport o with
      | None => panic
      | Some t =>
        r ← in_call (t (cc_ctx ctx) reqBuf (CallOptions o));
        receive codec o rspBody r
      end
    end
  end.

(** The deferred functions: first [fixTimeout], then the response to overload control, also when
    the body or [fixTimeout] panics. *)
Definition with_deferred (f : fix_timeout) (respond : MC ()) (body : MC outcome) : MC outcome := λ e,
  let '(r, e) := body e in
  let '(r, e) :=
    match r with
    | None => (None, e)
    | Some (rsp, err) => let '(err, e) := fixTimeout f err e in ((rsp,.) <$> err, e)
    end in
  let '(u, e) := respond e in
  (_ ← u; r, e).

(** The deferred [token.OnResponse] is a closure over the [err] that the result of [Acquire] declares
    in the inner block, which is nil there: it is not the [err] that the function returns. *)
Definition callFunc : ClientHandleFunc := λ ctx reqBody rspBody,
  a ← OptionsFromContext ctx;
  o ← read_opts a;
  m ← gets c_msg;
  match OverloadCtrl o, msg_RemoteAddr m with
  | Some oc, Some addr =>
    r ← in_world (Acquire oc (AddrString addr));
    match r with
    | inr err => mret (rspBody, Some err)
    | inl token =>
      with_deferred (opt_fixTimeout o) (in_world (OnResponse oc token None))
        (call_backend a o ctx reqBody rspBody)
    end
  | _, _ => with_deferred (opt_fixTimeout o) (mret ()) (call_backend a o ctx reqBody rspBody)
  end.

(** ** The selector filter *)

Definition getNode (a : nat) : MC (Naming.Node CB + go_err) :=
  o ← read_opts a;
  match opt_Selector o with
  | None => panic
  | Some s =>
    r ← in_world (Select s (endpoint o) (SelectOptions o));
    match r with
    | inr e => frame_error RetClientRouteErr ("client Select: " +:+ Error e)
    | inl node =>
      if decide (n_Address node = "")
      then frame_error RetClientRouteErr ("client Select: node address empty:" +:+ node_text node)
      else mret (inl node)
    end
  end.

Definition ensureMsgCalleeInfo (a : nat) : MC () :=
  o ← read_opts a;
  let so := apply_options (SelectOptions o) zero_SelOptions in
  if decide (sel_DestinationSetName so = "") then mret ()
  else on_msg (λ m, Msg.WithCalleeSetName m (sel_DestinationSetName so)).

Definition findFirstNonEmpty (ss : list string) : string :=
  default "" (head (filter (λ s, s ≠ "") ss)).

Definition ensureMsgRemoteAddr (network address : string)
    (parseAddr : option (string → string → option Addr)) (m : msg) : msg :=
  match msg_RemoteAddr m with
  | Some _ => m
  | None =>
    match parseAddr with
    | Some parse => WithRemoteAddr m (parse network address)
    | None =>
      if bool_decide (network ∈ TCP ++ UDP) && negb (is_ip_port address) then m
      else if bool_decide (network ∈ TCP ++ UDP ++ [UNIX])
           then WithRemoteAddr m (Some (Resolve network address))
           else WithRemoteAddr m (Some (Resolve "tcp4" address))
    end
  end.

(** What the message gets from the node. *)
Definition node_to_msg (node : Naming.Node CB) (o : options_t) (m : msg) : msg :=
  let m := Msg.WithCalleeSetName (WithCalleeContainerName m (n_ContainerName node)) (n_SetName node) in
  let m := if decide (msg_EnvTransfer m = "") then WithEnvTransfer m (n_EnvKey node) else m in
  if DisableServiceRouter o then WithEnvTransfer m "" else m.

Definition selectNode (ctx : ClientContext) (a : nat) : MC (Naming.Node CB + go_err) :=
  _ ← upd_opts a (add_select sel_WithContext);
  r ← getNode a;
  match r with
  | inr e => _ ← ensureMsgCalleeInfo a; mret (inr e)
  | inl node =>
    _ ← upd_opts a (LoadNodeConfig node);
    o ← read_opts a;
    _ ← on_msg (node_to_msg node o);
    e ← gets (λ e, c_Err (cc_ctx ctx) (c_world e));
    match e with
    | Some Canceled =>
      frame_error RetClientCanceled ("selector canceled after Select: " +:+ ctx_text Canceled)
    | Some DeadlineExceeded =>
      frame_error RetClientTimeout ("selector timeout after Select: " +:+ ctx_text DeadlineExceeded)
    | None => mret (inl node)
    end
  end.

(** The errors of a call that count against its node. *)
Definition network_failure (e : error) : bool :=
  match e with
  | Status t c _ _ | StatusOf t c _ _ _ =>
    (t =? ErrorTypeFramework)%Z &&
    ((c =? RetClientConnectFail)%Z || (c =? RetClientTimeout)%Z || (c =? RetClientNetErr)%Z)
  | _ => false
  end.

Definition err_text (e : error) : string :=
  match e with Status _ _ m _ | StatusOf _ _ m _ _ => m | _ => "" end.

(** What is reported about the node, and the error that the caller gets. *)
Definition report (a : nat) (node : Naming.Node CB) (cost : Z) (err : option go_err)
    : MC (option go_err) :=
  o ← read_opts a;
  h ← gets c_heap;
  match opt_Selector o with
  | None => panic
  | Some s =>
    match deref h <$> err with
    | Some NilStatus => panic
    | e =>
      '(err, reported) ← match err, e with
        | Some err, Some e =>
          if network_failure e then
            err ← set_error (with_msg (err_text e +:+ ", cost:" +:+ cost_text cost)) err;
            mret (Some err, Some err)
          else mret (Some err, if shouldErrReportToSelector o (Some e) then Some err else None)
        | _, _ => mret (None, None)
        end;
      _ ← in_world (Report s node cost reported);
      mret err
    end
  end.

(** [onceNode.set] *)
Definition set_node (node : Naming.Node CB) (address : string) (cost : Z) (o : options_t) (e : env_t) : env_t :=
  if opt_Node o && is_none (selected e)
  then e <| selected := Some (node <| n_Address := address |> <| n_CostTime := cost |>) |>
  else e.

Definition selectorFilter : ClientFilter := λ ctx req rsp next,
  a ← OptionsFromContext ctx;
  '(ctx, a) ← (if cc_immutable ctx then
      o ← read_opts a; a ← alloc o; mret (contextWithOptions ctx a, a)
    else mret (ctx, a));
  r ← selectNode ctx a;
  match r with
  | inr err =>
    f ← match cc_options ctx with
        | Some a => o ← read_opts a; mret (opt_fixTimeout o)
        | None => mret FixNone
        end;
    err ← fixTimeout f (Some err);
    mret (rsp, err)
  | inl node =>
    o ← read_opts a;
    _ ← on_msg (ensureMsgRemoteAddr (findFirstNonEmpty [n_Network node; Network o]) (n_Address node)
                  (n_ParseAddr node));
    begin ← gets (λ e, c_now (c_world e));
    '(rsp, err) ← next ctx req rsp;
    cost ← gets (λ e, (c_now (c_world e) - begin)%Z);
    err ← report a node cost err;
    m ← gets c_msg;
    _ ← modify (set_node node (match msg_RemoteAddr m with
                               | Some addr => AddrString addr
                               | None => n_Address node
                               end) cost o);
    mret (rsp, err)
  end.

(** ** Filter chains and [Invoke] *)

(** [run_user] runs a filter of a user. *)
Context (run_user : F → ClientFilter).

Definition run_filter (f : client_filter F) : ClientFilter :=
  match f with SelectorFilter => selectorFilter | UserFilter f => run_user f end.

(** [ClientChain.Filter]: the loop from the last filter to the first; spans are left out. *)
Fixpoint Filter_loop (reversed : list (client_filter F)) (nextF : ClientHandleFunc) : ClientHandleFunc :=
  match reversed with
  | [] => nextF
  | curFilter :: reversed =>
    Filter_loop reversed (λ ctx req rsp, run_filter curFilter ctx req rsp nextF)
  end.

Definition Filter (c : list (client_filter F)) (ctx : ClientContext) (req : option Req)
    (rsp : option Rsp) (next : ClientHandleFunc) : MC outcome := Filter_loop (rev c) next ctx req rsp.

Definition getServiceInfoOptions (m : msg) : list (SelOption CB W) :=
  if decide (msg_Namespace m = "") then [] else
  [sel_WithSourceNamespace (msg_Namespace m); sel_WithSourceServiceName (msg_CallerServiceName m);
   sel_WithSourceEnvName (msg_EnvName m); sel_WithEnvTransfer (msg_EnvTransfer m);
   sel_WithSourceSetName (msg_SetName m)].

(** The options of a call; [options] are the registered ones. *)
Definition client_getOptions (options : gmap string optionsWithFallback) (m : msg)
    (opt : list (Option CB W F SF T P MP FB)) : options_t + go_err :=
  let opts := getOptionsByCalleeAndUserOptions options (msg_CalleeServiceName m) opt in
  let opts := foldl (λ o s, add_select s o) opts (getServiceInfoOptions m) in
  match parseTarget (apply_opts opt opts) with
  | (_, Some e) => inr (Own (NewFrameError RetClientRouteErr (Error e)))
  | (opts, None) => inl opts
  end.

Definition setAttachment (m : msg) (attm : option Reader * option Reader) : msg :=
  WithCommonMeta m (<[ClientAttachmentKey := IAttachment attm.1 attm.2]> (msg_CommonMeta m)).

Definition getMetaData (m : msg) (o : options_t) : MetaData := opt_MetaData o ∪ msg_ClientMetaData m.

(** The message and the options after [updateMsg]. *)
Definition updateMsg (m : msg) (o : options_t) : msg * options_t :=
  let m := if decide (ServiceName o = "") then m else WithCalleeServiceName m (ServiceName o) in
  let o := if decide (endpoint o = "") then o <| endpoint := msg_CalleeServiceName m |> else o in
  let m := if decide (CalleeMethod o = "") then m else Msg.WithCalleeMethod m (CalleeMethod o) in
  let m := if decide (opt_MetaData o = ∅) then m else WithClientMetaData m (getMetaData m o) in
  let m := if decide (CallerServiceName o = "") then m
           else Msg.WithCallerServiceName m (CallerServiceName o) in
  let m := if IsValidSerializationType (SerializationType o)
           then Msg.WithSerializationType m (SerializationType o) else m in
  let m := if IsValidCompressType (CompressType o) && negb (CompressType o =? CompressTypeNoop)%Z
           then Msg.WithCompressType m (CompressType o) else m in
  let m := match ReqHead o with INil => m | h => WithClientReqHead m h end in
  let m := match RspHead o with INil => m | h => WithClientRspHead m h end in
  let m := WithCallType m (CallType o) in
  let m := match opt_attachment o with Some attm => setAttachment m attm | None => m end in
  (m, o).

(** The chain, and the options with it. *)
Definition fixFilters (o : options_t) : list (client_filter F) * options_t :=
  if DisableFilter o || (length (Filters o) =? 0)%nat then
    ([SelectorFilter], o <| FilterNames := FilterNames o ++ [DefaultSelectorFilterName] |>)
  else
    let o := if selectorFilterPosFixed o then o
             else o <| Filters := Filters o ++ [SelectorFilter] |>
                    <| FilterNames := FilterNames o ++ [DefaultSelectorFilterName] |> in
    (Filters o, o).

(** The context of the call has the earlier deadline of the caller's and the timeout. *)
Definition call_ctx (now : Z) (ctx : CallContext) (timeout : Z) : CallContext :=
  if (0 <? timeout)%Z then Service.WithTimeout now ctx timeout else ctx.

(** Whether a timeout of the call is one of the whole link. *)
Definition full_link (now : Z) (ctx : CallContext) (timeout : Z) : bool :=
  match deadline ctx with
  | Some fullLinkDeadline => (timeout <=? 0)%Z || (fullLinkDeadline - now <? timeout)%Z
  | None => false
  end.

Definition Invoke (options : gmap string optionsWithFallback) (ctx : CallContext) (reqBody : option Req)
    (rspBody : option Rsp) (opt : list (Option CB W F SF T P MP FB)) : MC outcome :=
  m ← gets c_msg;
  match client_getOptions options m opt with
  | inr err => mret (rspBody, Some err)
  | inl opts =>
    let '(m, opts) := updateMsg m opts in
    _ ← on_msg (λ _, m);
    now ← gets (λ e, c_now (c_world e));
    let call := call_ctx now ctx (Timeout opts) in
    _ ← match deadline call with
        | Some d => on_msg (λ m, WithRequestTimeout m (d - now))
        | None => mret ()
        end;
    let opts := if full_link now ctx (Timeout opts) then opts <| opt_fixTimeout := FixFullLink |> else opts in
    let '(filters, opts) := fixFilters opts in
    a ← alloc opts;
    Filter filters (MkClientContext call (Some a) false) reqBody rspBody callFunc
  end.

(** ** Lemmas *)

Lemma ret_bind {A B} (x : A) (k : A → MC B) e : (mret x ≫= k) e = k x e.
Proof. done. Qed.
Lemma modify_bind {B} f (k : () → MC B) e : (modify f ≫= k) e = k () (f e).
Proof. done. Qed.
Lemma on_msg_bind {B} f (k : () → MC B) e : (on_msg f ≫= k) e = k () (e <| c_msg := f (c_msg e) |>).
Proof. done. Qed.
Lemma alloc_bind {B} o (k : nat → MC B) e :
  (alloc o ≫= k) e = k (length (store e)) (e <| store := store e ++ [o] |>).
Proof. done. Qed.
Lemma upd_bind {B} a f (k : () → MC B) e :
  (upd_opts a f ≫= k) e = k () (e <| store := alter f a (store e) |>).
Proof. done. Qed.
Lemma read_bind {B} a o (k : options_t → MC B) e :
  store e !! a = Some o → (read_opts a ≫= k) e = k o e.
Proof. intros Ho. unfold mbind, M_bind, read_opts. by rewrite Ho. Qed.
Lemma bind_eq {A B} (m : MC A) (k : A → MC B) x e e' :
  m e = (Some x, e') → (m ≫= k) e = k x e'.
Proof. intros Hm. unfold mbind, M_bind. by rewrite Hm. Qed.
Lemma bind_cong {A B} (m m' : MC A) (k : A → MC B) e e' : m e = m' e' → (m ≫= k) e = (m' ≫= k) e'.
Proof. intros Hm. unfold mbind, M_bind. by rewrite Hm. Qed.
Lemma or_return_eq {A B E} (m : MC (A + E)) (k : A → MC (B + E)) x e e' :
  m e = (Some (inl x), e') → (or_return m k) e = k x e'.
Proof. intros Hm. unfold or_return. by rewrite (bind_eq _ _ _ _ _ Hm). Qed.

(** ** Calls without filters of users *)

(** The options of the call when the chain starts. *)
Definition call_options (ctx : CallContext) (opts : options_t) (e : env_t) : options_t :=
  let opts := (updateMsg (c_msg e) opts).2 in
  (fixFilters (if full_link (c_now (c_world e)) ctx (Timeout opts)
               then opts <| opt_fixTimeout := FixFullLink |> else opts)).2.

(** The environment when the chain starts: message and options are ready. *)
Definition prepared (ctx : CallContext) (opts : options_t) (e : env_t) : env_t :=
  let m := (updateMsg (c_msg e) opts).1 in
  let now := c_now (c_world e) in
  let m := match deadline (call_ctx now ctx (Timeout opts)) with
           | Some d => WithRequestTimeout m (d - now)
           | None => m
           end in
  e <| c_msg := m |> <| store := store e ++ [call_options ctx opts e] |>.

Definition the_ctx (ctx : CallContext) (opts : options_t) (e : env_t) : ClientContext :=
  MkClientContext (call_ctx (c_now (c_world e)) ctx (Timeout opts)) (Some (length (store e))) false.

Definition no_filters (o : options_t) : bool := DisableFilter o || (length (Filters o) =? 0)%nat.

Lemma updateMsg_opts m o : (updateMsg m o).2 = o ∨ (updateMsg m o).2 = o <| endpoint := endpoint (updateMsg m o).2 |>.
Proof. unfold updateMsg. simpl. case_decide; [right|left]; done. Qed.

Lemma Invoke_plain options ctx req rsp opt e opts :
  client_getOptions options (c_msg e) opt = inl opts → no_filters opts = true →
  Invoke options ctx req rsp opt e =
  selectorFilter (the_ctx ctx opts e) req rsp callFunc (prepared ctx opts e).
Proof.
  intros Ho Hf. unfold Invoke. rewrite gets_bind, Ho.
  unfold prepared, call_options, the_ctx. pose proof (updateMsg_opts (c_msg e) opts) as Hu.
  destruct (updateMsg (c_msg e) opts) as [m o] eqn:E. simpl in Hu.
  assert (Timeout o = Timeout opts ∧ no_filters o = true) as [Ht Hf'] by by destruct Hu as [->| ->].
  rewrite on_msg_bind, gets_bind. cbn [fst snd]. rewrite Ht. simpl. unfold no_filters in Hf'.
  assert (∀ o1, DisableFilter o1 = DisableFilter o → Filters o1 = Filters o →
    fixFilters o1 = ([SelectorFilter], (fixFilters o1).2)) as Hfix.
  { intros o1 H1 H2. unfold fixFilters. by rewrite H1, H2, Hf'. }
  destruct (deadline (call_ctx (c_now (c_world e)) ctx (Timeout opts))) as [d|] eqn:Ed;
    [rewrite on_msg_bind|rewrite ret_bind]; simpl;
    rewrite Hfix by (by case_match); rewrite alloc_bind; done.
Qed.

(** A field that the way from the registered options to the chain does not change. *)
Lemma call_options_field {A} (f : options_t → A) ctx opts e :
  (∀ o v, f (o <| endpoint := v |>) = f o) → (∀ o v, f (o <| opt_fixTimeout := v |>) = f o) →
  (∀ o v, f (o <| Filters := v |>) = f o) → (∀ o v, f (o <| FilterNames := v |>) = f o) →
  f (call_options ctx opts e) = f opts.
Proof.
  intros H1 H2 H3 H4. unfold call_options.
  assert (f (updateMsg (c_msg e) opts).2 = f opts) as Hu.
  { by destruct (updateMsg_opts (c_msg e) opts) as [->| ->]. }
  rewrite <- Hu. unfold fixFilters. repeat case_match; simpl; by rewrite ?H4, ?H3, ?H2.
Qed.

Lemma call_options_fix ctx opts e :
  opt_fixTimeout opts = FixNone →
  opt_fixTimeout (call_options ctx opts e) =
  if full_link (c_now (c_world e)) ctx (Timeout opts) then FixFullLink else FixNone.
Proof.
  intros Hf. unfold call_options.
  assert (Timeout (updateMsg (c_msg e) opts).2 = Timeout opts ∧
          opt_fixTimeout (updateMsg (c_msg e) opts).2 = FixNone) as [-> Hf'].
  { by destruct (updateMsg_opts (c_msg e) opts) as [->| ->]. }
  unfold fixFilters. by repeat case_match.
Qed.

(** The message and the options that the call has once a node is selected. *)
Definition routed_opts (node : Naming.Node CB) (o : options_t) : options_t :=
  LoadNodeConfig node (add_select sel_WithContext o).
Definition routed_msg (node : Naming.Node CB) (o : options_t) (m : msg) : msg :=
  ensureMsgRemoteAddr (findFirstNonEmpty [n_Network node; Network o]) (n_Address node) (n_ParseAddr node)
    (node_to_msg node o m).

(** The selector of the options gives a node for the call. *)
Record selects (ctx : ClientContext) (o : options_t) (w : W) (s : Selector CB W) (node : Naming.Node CB)
    (w1 : W) : Prop := {
  selects_by : opt_Selector o = Some s;
  selects_node : Select s (endpoint o) (SelectOptions o ++ [sel_WithContext]) w = (Some (inl node), w1);
  selects_address : n_Address node ≠ "";
  selects_time : c_Err (cc_ctx ctx) w1 = None
}.

(** [LoadNodeConfig] only touches what it loads. *)
Lemma LoadNodeConfig_field {A} (f : options_t → A) node o :
  (∀ o v, f (o <| CallOptions := v |>) = f o) → (∀ o v, f (o <| Network := v |>) = f o) →
  (∀ o v, f (o <| Protocol := v |>) = f o) → (∀ o v, f (o <| Codec := v |>) = f o) →
  (∀ o v, f (o <| Transport := v |>) = f o) → f (LoadNodeConfig node o) = f o.
Proof.
  intros H1 H2 H3 H4 H5. unfold LoadNodeConfig, WithProtocol, add_call.
  repeat case_decide; repeat case_match; by rewrite ?H5, ?H1, ?H4, ?H3, ?H1, ?H2, ?H1.
Qed.

Lemma routed_field {A} (f : options_t → A) node o :
  (∀ o v, f (o <| CallOptions := v |>) = f o) → (∀ o v, f (o <| Network := v |>) = f o) →
  (∀ o v, f (o <| Protocol := v |>) = f o) → (∀ o v, f (o <| Codec := v |>) = f o) →
  (∀ o v, f (o <| Transport := v |>) = f o) → (∀ o v, f (o <| SelectOptions := v |>) = f o) →
  f (routed_opts node o) = f o.
Proof.
  intros. unfold routed_opts, add_select. rewrite LoadNodeConfig_field by done. done.
Qed.

(** The environment in which the next filter runs. *)
Definition routed (a : nat) (node : Naming.Node CB) (o : options_t) (w1 : W) (e : env_t) : env_t :=
  e <| c_world := w1 |> <| store := <[a := routed_opts node o]> (store e) |>
    <| c_msg := routed_msg node (routed_opts node o) (c_msg e) |>.

Lemma alter_twice {A} (f g : A → A) a (l : list A) x :
  l !! a = Some x → alter g a (alter f a l) = <[a := g (f x)]> l.
Proof.
  intros Hx. apply list_eq. intros i. destruct (decide (i = a)) as [->|].
  - rewrite !list_lookup_alter_eq, Hx, list_lookup_insert_eq by by eapply lookup_lt_Some. done.
  - by rewrite !list_lookup_alter_ne, list_lookup_insert_ne by done.
Qed.

Lemma selectNode_ok ctx a o s node w1 e :
  store e !! a = Some o → selects ctx o (c_world e) s node w1 →
  selectNode ctx a e = (Some (inl node), e <| c_world := w1 |>
    <| store := <[a := routed_opts node o]> (store e) |>
    <| c_msg := node_to_msg node (routed_opts node o) (c_msg e) |>).
Proof.
  intros Ho [Hs Hsel Ha Ht]. unfold selectNode. rewrite upd_bind.
  set (e1 := e <| store := alter (add_select sel_WithContext) a (store e) |>).
  assert (store e1 !! a = Some (add_select sel_WithContext o)) as Ho1.
  { simpl. by rewrite list_lookup_alter_eq, Ho. }
  assert (getNode a e1 = (Some (inl node), e1 <| c_world := w1 |>)) as Hg.
  { unfold getNode. rewrite (read_bind _ _ _ _ Ho1). simpl. rewrite Hs.
    unfold mbind, M_bind, in_world. simpl. rewrite Hsel. by rewrite decide_False. }
  rewrite (bind_eq _ _ _ _ _ Hg), upd_bind.
  set (e2 := _ <| store := _ |>).
  assert (store e2 !! a = Some (routed_opts node o)) as Ho2.
  { simpl. by rewrite list_lookup_alter_eq, list_lookup_alter_eq, Ho. }
  rewrite (read_bind _ _ _ _ Ho2), on_msg_bind, gets_bind. simpl. rewrite Ht.
  unfold e2, e1, routed_opts. destruct e. simpl in *. by rewrite (alter_twice _ _ _ _ o).
Qed.

(** What the selector filter does after the rest of the call. *)
Definition after_call (a : nat) (node : Naming.Node CB) (o : options_t) (begin : Z) (r : outcome) : MC outcome :=
  let '(rsp, err) := r in
  cost ← gets (λ e, (c_now (c_world e) - begin)%Z);
  err ← report a node cost err;
  m ← gets c_msg;
  _ ← modify (set_node node (match msg_RemoteAddr m with
                             | Some addr => AddrString addr
                             | None => n_Address node
                             end) cost o);
  mret (rsp, err).

Lemma selectorFilter_ok ctx a o s node w1 e req rsp next :
  cc_options ctx = Some a → cc_immutable ctx = false →
  store e !! a = Some o → selects ctx o (c_world e) s node w1 →
  selectorFilter ctx req rsp next e =
  (r ← next ctx req rsp; after_call a node (routed_opts node o) (c_now w1) r) (routed a node o w1 e).
Proof.
  intros Hc Hi Ho Hs. unfold selectorFilter, OptionsFromContext. rewrite Hc, ret_bind, Hi, ret_bind.
  rewrite (bind_eq _ _ _ _ _ (selectNode_ok _ _ _ _ _ _ _ Ho Hs)).
  rewrite (read_bind _ (routed_opts node o)).
  2:{ simpl. apply list_lookup_insert_eq. by eapply lookup_lt_Some. }
  rewrite on_msg_bind, gets_bind. done.
Qed.

(** [callFunc] without overload control. *)
Lemma callFunc_plain ctx a o e req rsp :
  cc_options ctx = Some a → store e !! a = Some o → OverloadCtrl o = None →
  callFunc ctx req rsp e =
  with_deferred (opt_fixTimeout o) (mret ()) (call_backend a o ctx req rsp) e.
Proof.
  intros Hc Ho Hn. unfold callFunc, OptionsFromContext. rewrite Hc, ret_bind, (read_bind _ _ _ _ Ho), gets_bind.
  by rewrite Hn.
Qed.

Lemma with_deferred_ok f body e rsp e' :
  body e = (Some (rsp, None), e') → with_deferred f (mret ()) body e = (Some (rsp, None), e').
Proof. intros Hb. unfold with_deferred. rewrite Hb. by destruct f. Qed.

(** The options with which the transport is called. *)
Definition call_opts (o : options_t) : options_t :=
  if EnableMultiplexed o then add_call (rt_WithMultiplexed true) (add_call WithMsg o) else o.

Definition called (a : nat) (o : options_t) (e : env_t) : env_t :=
  e <| store := if EnableMultiplexed o then <[a := call_opts o]> (store e) else store e |>.

Lemma call_backend_sent a o codec t ctx req rsp buf e e1 :
  Codec o = Some codec → Transport o = Some t →
  prepareRequestBuf codec req o e = (Some (inl buf), e1) → store e1 !! a = Some o →
  call_backend a o ctx req rsp e =
  (r ← in_call (t (cc_ctx ctx) buf (CallOptions (call_opts o))); receive codec (call_opts o) rsp r)
    (called a o e1).
Proof.
  intros Hc Ht Hp Ho. unfold call_backend, called, call_opts. rewrite Hc, (bind_eq _ _ _ _ _ Hp).
  destruct (EnableMultiplexed o).
  - rewrite upd_bind, (read_bind _ (add_call (rt_WithMultiplexed true) (add_call WithMsg o))).
    2:{ simpl. by rewrite list_lookup_alter_eq, Ho. }
    simpl. rewrite Ht. f_equal. destruct e1. simpl in *. f_equal.
    apply list_eq. intros i. destruct (decide (i = a)) as [->|].
    + rewrite list_lookup_alter_eq, Ho, list_lookup_insert_eq by by eapply lookup_lt_Some. done.
    + by rewrite list_lookup_alter_ne, list_lookup_insert_ne by done.
  - rewrite ret_bind, (read_bind _ o), Ht by done. by destruct e1.
Qed.

Lemma stage_eq {A} code text (r : result A) e : ∃ x, stage code text r e = (x, e).
Proof. destruct r; by eexists. Qed.

Lemma serializeAndCompress_env req o e r e' : serializeAndCompress req o e = (r, e') → e' = e.
Proof.
  unfold serializeAndCompress. rewrite gets_bind. unfold or_return, mbind, M_bind.
  destruct (stage_eq RetClientEncodeFail "client codec Marshal: " (if IsValidSerializationType
    (current IsValidSerializationType (CurrentSerializationType o) (msg_SerializationType (c_msg e)))
    then Marshal c_serializers
      (current IsValidSerializationType (CurrentSerializationType o) (msg_SerializationType (c_msg e))) req
    else Ok []) e) as [[[b|err]|] ->]; [|by intros [= <- <-]..].
  match goal with |- stage ?c ?t ?r e = _ → _ => destruct (stage_eq c t r e) as [x ->] end.
  by intros [= <- <-].
Qed.

Lemma prepareRequestBuf_env codec req o e r e' :
  prepareRequestBuf codec req o e = (r, e') →
  store e' = store e ∧ c_heap e' = c_heap e ∧ selected e' = selected e.
Proof.
  unfold prepareRequestBuf, or_return. unfold mbind at 1, M_bind at 1.
  destruct (serializeAndCompress req o e) as [r1 e1] eqn:E1. apply serializeAndCompress_env in E1 as ->.
  destruct r1 as [[b|err]|]; [|by intros [= <- <-]..].
  unfold mbind, M_bind, call_codec, stage, frame_error.
  destruct (codec_Encode codec (c_world e) (c_msg e) b) as [[r2 m2] w2].
  destruct r2; intros [= <- <-]; done.
Qed.

(** A call that gets as far as the transport: what it selects, how it encodes. *)
Record goes_out (options : gmap string optionsWithFallback) (ctx : CallContext) (req : option Req)
    (opt : list (Option CB W F SF T P MP FB)) (e : env_t) (opts : options_t) (s : Selector CB W)
    (node : Naming.Node CB) (w1 : W) (codec : ServerCodec W) (t : ClientTransport W P MP FB)
    (buf : bytes) (e2 : env_t) : Prop := {
  out_options : client_getOptions options (c_msg e) opt = inl opts;
  out_filters : no_filters opts = true;
  out_overload : OverloadCtrl opts = None;
  out_fix : opt_fixTimeout opts = FixNone;
  out_selects : selects (the_ctx ctx opts e) (call_options ctx opts e) (c_world e) s node w1;
  out_codec : Codec (routed_opts node (call_options ctx opts e)) = Some codec;
  out_transport : Transport (routed_opts node (call_options ctx opts e)) = Some t;
  out_request : prepareRequestBuf codec req (routed_opts node (call_options ctx opts e))
    (routed (length (store e)) node (call_options ctx opts e) w1 (prepared ctx opts e)) = (Some (inl buf), e2)
}.

(** The body of [callFunc] from the transport on, in the environment [e2] that it has then. *)
Definition call_body (a : nat) (o : options_t) (ctx' : CallContext) (t : ClientTransport W P MP FB)
    (codec : ServerCodec W) (buf : bytes) (rsp : option Rsp) (e2 : env_t) : MC outcome := λ _,
  (r ← in_call (t ctx' buf (CallOptions (call_opts o))); receive codec (call_opts o) rsp r) (called a o e2).

(** The rest of such a call. *)
Lemma Invoke_sent options ctx req rsp opt e opts s node w1 codec t buf e2 :
  goes_out options ctx req opt e opts s node w1 codec t buf e2 →
  let a := length (store e) in
  let o := routed_opts node (call_options ctx opts e) in
  Invoke options ctx req rsp opt e =
  (r ← with_deferred (if full_link (c_now (c_world e)) ctx (Timeout opts) then FixFullLink else FixNone)
         (mret ()) (call_body a o (call_ctx (c_now (c_world e)) ctx (Timeout opts)) t codec buf rsp e2);
   after_call a node o (c_now w1) r) e2.
Proof.
  intros [Ho Hf Hov Hfix Hs Hc Ht Hp] a o.
  assert (store (prepared ctx opts e) !! a = Some (call_options ctx opts e)) as Ha.
  { simpl. apply list_lookup_middle. done. }
  rewrite (Invoke_plain _ _ _ _ _ _ _ Ho Hf), 
    (selectorFilter_ok (the_ctx ctx opts e) a _ s node w1 (prepared ctx opts e) req rsp callFunc
       eq_refl eq_refl Ha Hs).
  fold o a. set (e1 := routed a node _ w1 _).
  destruct (prepareRequestBuf_env _ _ _ _ _ _ Hp) as (Hst & _ & _).
  assert (store e1 !! a = Some o) as Ha1.
  { unfold e1. simpl. apply list_lookup_insert_eq. rewrite length_app. simpl. unfold a. lia. }
  apply bind_cong. rewrite (callFunc_plain _ a o) by (done || (unfold o; rewrite routed_field by done; by rewrite call_options_field)).
  assert (opt_fixTimeout o = if full_link (c_now (c_world e)) ctx (Timeout opts) then FixFullLink else FixNone) as ->.
  { unfold o. rewrite routed_field by done. by apply call_options_fix. }
  unfold with_deferred. rewrite (call_backend_sent a o codec t _ _ _ buf e1 e2);
    [done|exact Hc|exact Ht|exact Hp|rewrite Hst; exact Ha1].
Qed.

(** What becomes of an error of the transport: its code, when the deadline of the caller was the
    earlier one, and its text, when the node is to blame. *)
Definition full_link_error (fl : bool) (err : error) : error :=
  if fl && IsTimeout err ErrorTypeFramework then with_code RetClientFullLinkTimeout err else err.
Definition costed (cost : Z) (err : error) : error :=
  if network_failure err then with_msg (err_text err +:+ ", cost:" +:+ cost_text cost) err else err.

Lemma full_link_not_nil fl err : err ≠ NilStatus → full_link_error fl err ≠ NilStatus.
Proof. unfold full_link_error. by destruct fl, err; simpl; repeat case_match. Qed.

Lemma fixTimeout_own (fl : bool) err e :
  err ≠ NilStatus →
  fixTimeout (if fl then FixFullLink else FixNone) (Some (Own err)) e =
  (Some (Some (Own (full_link_error fl err))), e).
Proof.
  intros Hn. unfold full_link_error. destruct fl; [|done]. simpl. unfold gets, mbind, M_bind. simpl.
  by destruct err; simpl; repeat case_match.
Qed.

Lemma set_node_env node addr cost o e :
  c_world (set_node node addr cost o e) = c_world e ∧ c_heap (set_node node addr cost o e) = c_heap e.
Proof. unfold set_node. by destruct (opt_Node o && is_none (selected e)). Qed.

Lemma with_deferred_own (fl : bool) body e rsp err e' :
  err ≠ NilStatus → body e = (Some (rsp, Some (Own err)), e') →
  with_deferred (if fl then FixFullLink else FixNone) (mret ()) body e =
  (Some (rsp, Some (Own (full_link_error fl err))), e').
Proof. intros Hn Hb. unfold with_deferred. by rewrite Hb, fixTimeout_own by done. Qed.

Lemma report_own a node cost o s err e r w :
  err ≠ NilStatus → store e !! a = Some o → opt_Selector o = Some s →
  let reported := if network_failure err then Some (Own (costed cost err))
                  else if shouldErrReportToSelector o (Some err) then Some (Own err) else None in
  Report s node cost reported (c_world e) = (Some r, w) →
  report a node cost (Some (Own err)) e = (Some (Some (Own (costed cost err))), e <| c_world := w |>).
Proof.
  intros Hn Ho Hs reported Hr. unfold report. rewrite (read_bind _ _ _ _ Ho), gets_bind, Hs.
  change (deref (c_heap e) <$> Some (Own err)) with (Some err). cbv iota beta.
  unfold costed, reported in *. destruct (network_failure err) eqn:Ef; rewrite ?Ef in Hr.
  - destruct err; try done; rewrite Ef; unfold mbind, M_bind, in_world; unfold costed in Hr; rewrite Ef in Hr; simpl in Hr |- *; by rewrite Hr.
  - destruct err; try done; rewrite ?Ef; unfold mbind, M_bind, in_world; simpl in Hr |- *; try rewrite Ef; simpl; by rewrite Hr.
Qed.

(** The environment after [RoundTrip]. *)
Definition returned (a : nat) (o : options_t) (m : msg) (w : W) (e : env_t) : env_t :=
  called a o e <| c_msg := m |> <| c_world := w |>.

Lemma returned_opts a o m w e :
  store e !! a = Some o → store (returned a o m w e) !! a = Some (call_opts o).
Proof.
  intros Ha. unfold returned, called, call_opts. simpl. destruct (EnableMultiplexed o); [|done].
  apply list_lookup_insert_eq. by eapply lookup_lt_Some.
Qed.

Lemma call_opts_field {A} (f : options_t → A) o :
  (∀ o v, f (o <| CallOptions := v |>) = f o) → f (call_opts o) = f o.
Proof. intros H1. unfold call_opts, add_call. destruct (EnableMultiplexed o); by rewrite ?H1. Qed.

(** The body of the call, once the transport has returned. *)
Lemma call_returned a o ctx' (t : ClientTransport W P MP FB) codec buf rsp r m3 w3 (e2 : env_t) :
  t ctx' buf (CallOptions (call_opts o)) (c_msg e2, c_world e2) = (Some r, (m3, w3)) →
  call_body a o ctx' t codec buf rsp e2 e2 = receive codec (call_opts o) rsp r (returned a o m3 w3 e2).
Proof.
  intros Ht. apply bind_eq. unfold in_call.
  change (c_msg (called a o e2), c_world (called a o e2)) with (c_msg e2, c_world e2). by rewrite Ht.
Qed.

(** The options of a call that goes out, in the environment of the transport. *)
Lemma goes_out_store options ctx req opt e opts s node w1 codec t buf e2 :
  goes_out options ctx req opt e opts s node w1 codec t buf e2 →
  store e2 !! length (store e) = Some (routed_opts node (call_options ctx opts e)) ∧
  c_heap e2 = c_heap e ∧ selected e2 = selected e ∧
  opt_Selector (call_opts (routed_opts node (call_options ctx opts e))) = Some s.
Proof.
  intros [Ho Hf Hov Hfix [Hs Hsel Haddr Htime] Hc Htr Hp].
  destruct (prepareRequestBuf_env _ _ _ _ _ _ Hp) as (Hst & Hh & Hse).
  split; [|split; [exact Hh|split; [exact Hse|]]].
  - rewrite Hst. simpl. apply list_lookup_insert_eq. rewrite length_app. simpl. lia.
  - rewrite (call_opts_field opt_Selector) by done. by rewrite (routed_field opt_Selector) by done.
Qed.

(** C4. A failed call: an error that the transport makes reaches the caller, with its code changed to a full-link timeout exactly if it is a timeout of the framework and the deadline of the caller
    was earlier than the timeout of the call; the selector is told about the node exactly once, and
    the error counts against the node, with the duration added to its text, exactly if it is still a
    connect failure, timeout or network error then - or if the options say so. *)
Theorem Invoke_failed options ctx req rsp opt e opts s node w1 codec t buf e2 err m3 w3 r4 w4 :
  goes_out options ctx req opt e opts s node w1 codec t buf e2 → err ≠ NilStatus →
  let a := length (store e) in
  let o := routed_opts node (call_options ctx opts e) in
  let ctx' := call_ctx (c_now (c_world e)) ctx (Timeout opts) in
  t ctx' buf (CallOptions (call_opts o)) (c_msg e2, c_world e2) = (Some (inr (Own err)), (m3, w3)) →
  let err1 := full_link_error (full_link (c_now (c_world e)) ctx (Timeout opts)) err in
  let cost := (c_now w3 - c_now w1)%Z in
  Report s node cost (if network_failure err1 then Some (Own (costed cost err1))
                      else if shouldErrReportToSelector opts (Some err1) then Some (Own err1) else None)
    w3 = (Some r4, w4) →
  ∃ e4, Invoke options ctx req rsp opt e = (Some (rsp, Some (Own (costed cost err1))), e4) ∧
    c_world e4 = w4 ∧ c_heap e4 = c_heap e.
Proof.
  intros Hg Hn a o ctx' Ht err1 cost Hr. set (fl := full_link _ _ _) in *.
  pose proof (full_link_not_nil fl err Hn) as Hn1.
  rewrite (Invoke_sent _ _ _ rsp _ _ _ _ _ _ _ _ _ _ Hg). fold a o fl.
  destruct (goes_out_store _ _ _ _ _ _ _ _ _ _ _ _ _ Hg) as (Ha & Hh & _ & Hs). fold a o in Ha, Hs.
  set (e3 := returned a o m3 w3 e2).
  pose proof (with_deferred_own fl (call_body a o ctx' t codec buf rsp e2) e2 rsp err e3 Hn (call_returned a o ctx' t codec buf rsp _ m3 w3 e2 Ht)) as Hb.
  rewrite (bind_eq _ _ _ _ _ Hb). unfold after_call. rewrite gets_bind.
  rewrite (bind_eq _ _ _ _ _ (report_own a node cost (call_opts o) s err1 e3 r4 w4 Hn1
    (returned_opts _ _ _ _ _ Ha) Hs ltac:(
    simpl; rewrite (call_opts_field shouldErrReportToSelector) by done; unfold o;
    rewrite (routed_field shouldErrReportToSelector), (call_options_field shouldErrReportToSelector) by done; exact Hr))).
  rewrite gets_bind, modify_bind. eexists. split; [reflexivity|].
  match goal with |- c_world (set_node ?n ?ad ?c ?o ?e) = _ ∧ _ =>
    destruct (set_node_env n ad c o e) as [-> ->] end.
  split; [reflexivity|exact Hh].
Qed.

(** A call that succeeds: the node is reported without an error. *)
Lemma Invoke_answered options ctx req rsp rsp' opt e opts s node w1 codec t buf e2 r m3 w3 e4 r5 w5 :
  goes_out options ctx req opt e opts s node w1 codec t buf e2 →
  let a := length (store e) in
  let o := routed_opts node (call_options ctx opts e) in
  let ctx' := call_ctx (c_now (c_world e)) ctx (Timeout opts) in
  t ctx' buf (CallOptions (call_opts o)) (c_msg e2, c_world e2) = (Some r, (m3, w3)) →
  receive codec (call_opts o) rsp r (returned a o m3 w3 e2) = (Some (rsp', None), e4) →
  store e4 = store (returned a o m3 w3 e2) →
  Report s node (c_now (c_world e4) - c_now w1) None (c_world e4) = (Some r5, w5) →
  ∃ e5, Invoke options ctx req rsp opt e = (Some (rsp', None), e5) ∧ c_world e5 = w5 ∧ c_msg e5 = c_msg e4.
Proof.
  intros Hg a o ctx' Ht Hr Hst Hrep.
  rewrite (Invoke_sent _ _ _ rsp _ _ _ _ _ _ _ _ _ _ Hg). fold a o.
  destruct (goes_out_store _ _ _ _ _ _ _ _ _ _ _ _ _ Hg) as (Ha & Hh & _ & Hs). fold a o in Ha, Hs.
  rewrite (bind_eq _ _ _ _ _ (with_deferred_ok _ (call_body a o ctx' t codec buf rsp e2) _ _ _ (eq_trans (call_returned a o ctx' t codec buf rsp _ m3 w3 e2 Ht) Hr))).
  unfold after_call. rewrite gets_bind.
  assert (report a node (c_now (c_world e4) - c_now w1) None e4 = (Some None, e4 <| c_world := w5 |>)) as Hre.
  { unfold report. rewrite (read_bind _ (call_opts o)) by (rewrite Hst; by apply returned_opts).
    rewrite gets_bind, Hs. cbn [fmap option_fmap option_map]. rewrite ret_bind.
    unfold mbind, M_bind, in_world. by rewrite Hrep. }
  rewrite (bind_eq _ _ _ _ _ Hre), gets_bind, modify_bind. eexists. split; [reflexivity|].
  unfold set_node. by match goal with |- context [if ?b then _ else _] => destruct b end.
Qed.
End client.

(** ** A concrete client

    A world with two backends, of which only the second one answers; it logs the addresses that overload
    control is asked about, those that are dialed, and the reports to the selector. *)
Module ClientExamples.
Import Sample.

Record World := MkWorld {
  turn : nat;
  acquired : list string;
  dialed : list string;
  reports : list (string * option go_err)
}.

#[global] Instance eta_World : Eta World := λ w, MkWorld (turn w) (acquired w) (dialed w) (reports w).

Definition log_report (node : Naming.Node nat) (err : option go_err) (w : World) : World :=
  w <| reports := reports w ++ [(n_Address node, err)] |>.

(** The backends in turn. *)
Definition in_turn : Selector nat World := MkSelector
  (λ name _ w, (Some (inl (new_node name (if turn w =? 0 then "1.1.1.1:1" else "2.2.2.2:2"))),
                w <| turn := S (turn w) |>))
  (λ node _ err w, (Some None, log_report node err w)).

Definition timeout_error : error := NewFrameError RetClientTimeout "no answer".

Definition transport : ClientTransport World () () () := λ _ buf os '(m, w),
  let address := Address (apply_round_trip os zero_RoundTripOptions) in
  (Some (if decide (address = "2.2.2.2:2") then inl buf else inr (Own timeout_error)),
   (m, w <| dialed := dialed w ++ [address] |>)).

Definition identity : ServerCodec World := MkCodec (λ w m b, (Ok b, m, w)) (λ w m b, (Ok b, m, w)).

#[global] Instance plugins : Plugins nat World () () () () () () := {
  GetClientCodec _ := Some identity;
  GetFramerBuilder _ := None;
  GetClientTransport _ := None;
  GetClientStreamTransport _ := None;
  DefaultClientTransport := Some transport;
  tnet_DefaultClientTransport := Some transport;
  discovery_Get _ := None;
  servicerouter_Get _ := None;
  loadbalance_Get _ := None;
  circuitbreaker_Get _ := None;
  selector_Get _ := None;
  DefaultSelector := Some in_turn;
  filter_GetClient _ := None;
  GetStreamFilter _ := None
}.

Definition raw : Serializer bytes bytes := MkSerializer (λ b _, (b, Ok ())) Ok.

#[global] Instance runtime : ClientRuntime nat World bytes bytes := {
  c_now _ := 0%Z;
  c_Err _ _ := None;
  is_ip_port _ := true;
  Resolve := MkAddr;
  cost_text _ := "0s";
  node_text _ := "node";
  c_compressors := ∅;
  c_serializers := {[0%Z := raw]}
}.

(** A filter that calls the rest of the chain again after an error. *)
Definition retry (_ : ()) : ClientFilter (CB:=nat) (W:=World) (F:=()) (SF:=()) (T:=()) (P:=()) (MP:=())
    (FB:=()) (Req:=bytes) (Rsp:=bytes) := λ ctx req rsp next,
  '(rsp, err) ← next ctx req rsp;
  match err with None => mret (rsp, None) | Some _ => next ctx req rsp end.

(** Overload control that logs what it is asked about. *)
Definition logging : OverloadController World () := MkController
  (λ addr w, (Some (inl ()), w <| acquired := acquired w ++ [addr] |>))
  (λ _ err w, (Some (), w <| acquired := acquired w ++ [if err then "failed" else "answered"] |>)).

Definition empty : World := MkWorld 0 [] [] [].
Definition env0 : CallEnv nat World () () () () () () := MkCallEnv ∅ zero_msg empty [] None.

Definition request : bytes := str_bytes "ping".

Definition with_retry : list (Option nat World () () () () () ()) :=
  [WithServiceName "app"; WithSerializationType 0; WithOverloadCtrl (Some logging); WithFilter (UserFilter ())].

Definition retried := Invoke retry ∅ background (Some request) (Some []) with_retry env0.

(** The retry reaches the second backend, but overload control is asked about the first one again, since
    the message keeps the address of the first attempt, and it is told that both were answered, though
    the first one timed out. *)
Lemma retry_asks_first_node :
  retried.1 = Some (Some request, None) ∧
  dialed (c_world retried.2) = ["1.1.1.1:1"; "2.2.2.2:2"] ∧
  acquired (c_world retried.2) = ["1.1.1.1:1"; "answered"; "1.1.1.1:1"; "answered"].
Proof. vm_compute. done. Qed.

(** A call without filters that times out, with a deadline of the caller that is the earlier one. *)
Definition plain : list (Option nat World () () () () () ()) := [WithServiceName "app"; WithTimeout 100].
Definition hurry : CallContext := MkContext (Some 50%Z).

Definition opts1 : Options nat World () () () () () () :=
  match client_getOptions ∅ zero_msg plain with inl o => o | inr _ => zero_Options end.
Definition start1 := call_options hurry opts1 env0.
Definition node1 : Naming.Node nat := new_node "app" "1.1.1.1:1".
Definition world1 : World := empty <| turn := 1 |>.
Definition sent1 : CallEnv nat World () () () () () () :=
  (prepareRequestBuf (Req:=bytes) (Rsp:=bytes) identity (Some request) (routed_opts node1 start1)
     (routed 0 node1 start1 world1 (prepared hurry opts1 env0))).2.

Lemma goes_out1 :
  goes_out (Req:=bytes) (Rsp:=bytes) ∅ hurry (Some request) plain env0 opts1 in_turn node1 world1 identity
    transport request sent1.
Proof.
  split; try (vm_compute; reflexivity). split; vm_compute; (reflexivity || discriminate).
Qed.

Lemma Invoke_failed_witness :
  ∃ e4, Invoke retry ∅ hurry (Some request) (Some ([] : bytes)) plain env0 =
    (Some (Some [], Some (Own (NewFrameError RetClientFullLinkTimeout "no answer"))), e4) ∧
    c_world e4 = log_report node1 None (world1 <| dialed := ["1.1.1.1:1"] |>) ∧ c_heap e4 = ∅.
Proof.
  destruct (Invoke_failed retry ∅ hurry (Some request) (Some []) plain env0 opts1 in_turn node1 world1
    identity transport request sent1 timeout_error (c_msg sent1) (world1 <| dialed := ["1.1.1.1:1"] |>) None
    (log_report node1 None (world1 <| dialed := ["1.1.1.1:1"] |>)) goes_out1) as (e4 & E & H1 & H2);
    [discriminate|vm_compute; reflexivity|vm_compute; reflexivity|].
  exists e4. split; [|exact (conj H1 H2)]. etransitivity; [exact E|]. vm_compute. reflexivity.
Defined.
End ClientExamples.
