(* ===== verification/ClientRpc.v ===== *)
(** A call of the client to a service, from end to end: [Invoke] of client/client.go with filters,
    selector and codec, a transport, and the server of Rpc.v - its transport, codec, service, filters and
    handler - and back to the body that the caller gets. *)

From S2P Require Import Prelude GoStrings Pb Errs Frame Msg StreamCodec UnaryCodec Service Rpc Naming.
From S2P Require Import ClientTransport ClientOptions Client.

(** ** Decoding a response does not look at the addresses of the message *)

Section moved.
Context `{!PbEnum} `{!Message TrpcStreamInitMeta} `{!Message TrpcStreamCloseMeta}
        `{!Message TrpcStreamFeedBackMeta} `{!Message RequestProtocol}
        `{!Message ResponseProtocol}.
Variable leftover : bytes → ResponseProtocol.

(** The message at other addresses. *)
Definition moved (l r : option Addr) (m : msg) : msg := m <| localAddr := l |> <| remoteAddr := r |>.

Lemma updateMsg_client_moved l r m h rsp attm :
  updateMsg_client (moved l r m) h rsp attm =
  let '(e, m) := updateMsg_client m h rsp attm in (e, moved l r m).
Proof.
  unfold updateMsg_client. destruct m.
  unfold moved, WithFrameHead, WithCompressType, WithSerializationType, WithClientMetaData, WithClientRspErr, loadOrStoreDefaultRequestProtocol, WithRequestID, SetClientResponseAttachment, WithClientReqHead, WithCommonMeta, msg_ClientReqHead, msg_CommonMeta, msg_ClientMetaData. simpl.
  destruct (decide (rsp_TransInfo rsp = ∅)), (rsp_Ret rsp =? 0)%Z, (rsp_FuncRet rsp =? 0)%Z; simpl;
    destruct clientReqHead; simpl; try done;
    repeat match goal with |- context [(?a =? ?b)%Z] => destruct (a =? b)%Z; simpl end; try done;
    by destruct (commonMeta !! ClientAttachmentKey) as [[]|].
Qed.

Lemma WithFrameHead_moved l r m v : WithFrameHead (moved l r m) v = moved l r (WithFrameHead m v).
Proof. by destruct m. Qed.

Lemma ClientStreamDecode_moved l r m buf :
  ClientStreamDecode (moved l r m) buf =
  let '(res, m) := ClientStreamDecode m buf in (res, moved l r m).
Proof.
  unfold ClientStreamDecode, streamHead, decodeInitFrame_client, decodeDataFrame_client, decodeCloseFrame_client,
    decodeFeedbackFrame_client, withPayload, updateClientStreamCloseMeta. destruct m.
  unfold moved, msg_FrameHead, WithStreamID, WithStreamFrame, WithClientRspErr, WithClientMetaData, WithClientRspHead,
    WithCompressType, WithSerializationType, msg_ClientRspHead, msg_ClientMetaData. simpl.
  (repeat (break_goal; simplify_eq/=; try done)).
Qed.

Lemma ClientDecode_unary_moved l r m h buf :
  ClientDecode_unary leftover (moved l r m) h buf =
  let '(res, m) := ClientDecode_unary leftover m h buf in (res, moved l r m).
Proof.
  unfold ClientDecode_unary.
  assert (∀ m v, WithClientRspHead (moved l r m) v = moved l r (WithClientRspHead m v)) as Hrsp by by intros [].
  assert (loadOrStoreResponseHead (moved l r m) =
    let '(res, m) := loadOrStoreResponseHead m in (res, moved l r m)) as ->.
  { unfold loadOrStoreResponseHead. change (msg_ClientRspHead (moved l r m)) with (msg_ClientRspHead m).
    rewrite Hrsp. by destruct (msg_ClientRspHead m). }
  destruct (HeaderLen h =? 0)%Z; [done|]. destruct (_ <? _)%Z; [done|].
  destruct (loadOrStoreResponseHead m) as [[rsp| |] m1]; [|done..].
  destruct (Prelude.slice _ _ _) as [header|]; [|done].
  destruct (Pb.unmarshal header) as [rsp'|]; rewrite Hrsp; [|done].
  destruct (negb _); [done|]. destruct (slice_from _ _) as [attm|]; [|done].
  rewrite updateMsg_client_moved. by destruct (updateMsg_client _ _ _ _) as [[]].
Qed.

(** Decoding a response does not look at the addresses. *)
Lemma ClientDecode_moved l r m buf :
  ClientDecode leftover (moved l r m) buf =
  let '(res, m) := ClientDecode leftover m buf in (res, moved l r m).
Proof.
  unfold ClientDecode. destruct (_ <? _)%Z; [done|]. destruct (extract buf) as [h| |]; [|done..].
  rewrite WithFrameHead_moved. destruct (negb _); [done|].
  destruct (negb _); [apply ClientStreamDecode_moved|apply ClientDecode_unary_moved].
Qed.
End moved.

(** ** The call *)

Section client_rpc.
Context `{!PbEnum} `{!Message TrpcStreamInitMeta} `{!Message TrpcStreamCloseMeta}
        `{!Message TrpcStreamFeedBackMeta} `{!Message RequestProtocol}
        `{!Message ResponseProtocol}.
Context `{!PbEnumOk} `{!MessageOk RequestProtocol} `{!MessageOk ResponseProtocol}.
Context {W Q B T St : Type} `{!Runtime (InitMetas * W) Q B}.
Context {CB Wc F SF Tc P MP FB Req Rsp : Type} `{!Plugins CB Wc F SF Tc P MP FB}
        `{!ClientRuntime CB Wc Req Rsp}.
Variable maxFrameSize : Z.
Variable procName : string.
Variable leftover : bytes → ResponseProtocol.
Variable run_user : F → ClientFilter (CB:=CB) (W:=Wc) (F:=F) (SF:=SF) (T:=Tc) (P:=P) (MP:=MP) (FB:=FB)
  (Req:=Req) (Rsp:=Rsp).

Abbreviation service_t := (@service (InitMetas * W) Q B T St).
Abbreviation conn_t := (@tcpconn (InitMetas * W) Q).
Abbreviation state_t := (@SvcState (InitMetas * W) Q T).
Abbreviation options_t := (Options CB Wc F SF Tc P MP FB).
Abbreviation call_env := (CallEnv CB Wc F SF Tc P MP FB).

(** The world of the client has the server at the other end, and the counter of the request ids of
    the codec. *)
Variable server : Wc → state_t.
Variable counter : Wc → Z.
Variable set_counter : Z → Wc → Wc.
Hypothesis server_set_counter : ∀ n w, server (set_counter n w) = server w.

(** The client codec of the trpc protocol as a codec of the client. *)
Definition trpc_client_codec (caller : string) : ServerCodec Wc := MkCodec
  (λ w m buf, let '(r, m) := ClientDecode leftover m buf in (r, m, w))
  (λ w m body, let '(r, m, n) := ClientEncode maxFrameSize procName caller (counter w) m body in
               (r, m, set_counter n w)).

(** The transport writes requests to the connection [conn] of the service when they are for
    [address], and returns what the service writes; it may set the addresses of the message. *)
Definition reaches (t : ClientTransport Wc P MP FB) (address : string) (s : service_t) (conn : conn_t) : Prop :=
  ∀ ctx buf os m w rspbuf,
    (∀ d, Address (apply_round_trip os d) = address) →
    (handleSyncWithErr conn s buf None (server w)).1 = Some (Written rspbuf) →
    ∃ l r w', t ctx buf os (m, w) = (Some (inl rspbuf), (moved l r m, w')).

(** The value of the caller for the body of a response with the formats of the message [m] of the
    server. *)
Definition response_value (o : options_t) (m : msg) (rspbody : bytes) (rsp : option Rsp) : option (option Rsp) :=
  if (zlen rspbody =? 0)%Z then Some rsp else
  let comp := current IsValidCompressType (CurrentCompressType o) (u32 (msg_CompressType m)) in
  let ser := current IsValidSerializationType (CurrentSerializationType o) (u32 (msg_SerializationType m)) in
  match (if IsValidCompressType comp && negb (comp =? CompressTypeNoop)%Z
         then Decompress c_compressors comp rspbody else Ok rspbody) with
  | Ok b => match (if IsValidSerializationType ser then unmarshal ser b rsp else (rsp, Ok ())) with
            | (rsp, Ok _) => Some rsp
            | _ => None
            end
  | _ => None
  end.

(** Every call dials the node that was selected for it, whatever the options said before. *)
Lemma dials_node node (o : options_t) d :
  Address (apply_round_trip (CallOptions (call_opts (routed_opts node o))) d) = n_Address node.
Proof.
  assert (∀ (os : list (RoundTripOption P MP FB)) c d,
    apply_round_trip (os ++ [c]) d = c (apply_round_trip os d)) as Hsnoc.
  { intros os c d'. unfold apply_round_trip. by rewrite foldl_app. }
  assert (Address (apply_round_trip (CallOptions (routed_opts node o)) d) = n_Address node) as Ha.
  { unfold routed_opts, LoadNodeConfig, ClientOptions.WithProtocol, add_call.
    repeat (case_decide || case_match); simpl; by rewrite !Hsnoc. }
  unfold call_opts, add_call. destruct (EnableMultiplexed _); simpl; [by rewrite !Hsnoc|done].
Qed.

Lemma request_encoded caller req (o : options_t) (e e2 : call_env) buf :
  prepareRequestBuf (trpc_client_codec caller) req o e = (Some (inl buf), e2) →
  ∃ body n, serializeAndCompress req o e = (Some (inl body), e) ∧
    ClientEncode maxFrameSize procName caller (counter (c_world e)) (c_msg e) body = (Ok buf, c_msg e2, n) ∧
    c_world e2 = set_counter n (c_world e).
Proof.
  unfold prepareRequestBuf, or_return. unfold mbind at 1, M_bind at 1.
  destruct (serializeAndCompress req o e) as [r1 e1] eqn:E1.
  pose proof (serializeAndCompress_env _ _ _ _ _ E1) as ->.
  destruct r1 as [[body|err]|]; [|done..]. unfold mbind, M_bind, Client.call_codec. simpl.
  destruct (ClientEncode _ _ _ _ _ _) as [[r m] n] eqn:E2. destruct r; simpl; [|done..].
  intros [= <- <-]. exists body, n. done.
Qed.

(** What the client makes of the response. *)
Lemma response_read (o : options_t) m rspbody rsp rsp' (e : call_env) :
  msg_ClientRspErr (c_msg e) = None → msg_SerializationType (c_msg e) = u32 (msg_SerializationType m) →
  msg_CompressType (c_msg e) = u32 (msg_CompressType m) →
  response_value o m rspbody rsp = Some rsp' →
  processResponseBuf rsp rspbody o e = (Some (rsp', None), e).
Proof.
  intros He Hs Hc. unfold response_value, processResponseBuf. rewrite gets_bind, He, Hs, Hc.
  destruct (zlen rspbody =? 0)%Z; [by intros [= ->]|].
  destruct (if IsValidCompressType _ && _ then _ else _) as [b| |]; [|done..].
  simpl stage. rewrite ret_bind.
  destruct (if IsValidSerializationType _ then _ else _) as [rsp1 [[]| |]]; [|done..].
  intros [= ->]. done.
Qed.

(** C1. A call through the client is a call of the method.  If the client finds its options and a node,
    and its codec encodes the request, the service decodes it, its handler runs on the value that the
    request stands for, and when filters and method return a response that can be encoded, [Invoke]
    returns without an error and the caller's body is the value of that response. *)
Theorem Invoke_remote (s : service_t) (conn : conn_t) options ctx req rsp opt (e : call_env) opts sel node w1
    caller t buf e2 (q0 : Q) (impl : ServerHandleFunc (InitMetas * W) Q B) :
  marshal zero_req = inl [] → marshal zero_rsp = inl [] →
  goes_out options ctx req opt e opts sel node w1 (trpc_client_codec caller) t buf e2 →
  reaches t (n_Address node) s conn →
  (∀ cost w, is_Some (Report sel node cost None w).1) →
  let o := routed_opts node (call_options ctx opts e) in
  let c := c_msg (routed (length (store e)) node (call_options ctx opts e) w1 (prepared ctx opts e)) in
  isUnary (loadOrStoreDefaultUnaryFrameHead c).1 = true →
  msg_ClientReqHead c = INil → msg_ClientRspHead c = INil → msg_ClientRspErr c = None →
  u32 (counter w1 + 1) ≠ 0%Z → serves maxFrameSize s c →
  find_handler s (msg_ClientRPCName c) = Some (stub q0 impl) →
  let st := server w1 in
  let es := request_env maxFrameSize s conn buf st in
  ∃ body, serializeAndCompress (CB:=CB) (Rsp:=Rsp) req o
      (routed (length (store e)) node (call_options ctx opts e) w1 (prepared ctx opts e)) =
    (Some (inl body), routed (length (store e)) node (call_options ctx opts e) w1 (prepared ctx opts e)) ∧
  ∀ q brsp es2 rspbody rsp', request_value s (emsg es) body q0 = Some q →
    Service.Filter (request_chain s es) (request_ctx s background es) q impl es = (Some (brsp, None), es2) →
    keeps es es2 → msg_CallType (emsg es2) ≠ TRPC_ONEWAY_CALL →
    response_body s (emsg es2) brsp = Ok rspbody → fits maxFrameSize (emsg es2) rspbody →
    response_value (call_opts o) (emsg es2) rspbody rsp = Some rsp' →
    ∃ e5, Invoke run_user options ctx req rsp opt e = (Some (rsp', None), e5).
Proof.
  intros Hz Hz2 Hg Hreach Hrep o c Hun Hq Hr Herr Hid Hserves Hf st es.
  destruct (request_encoded _ _ _ _ _ _ (out_request _ _ _ _ _ _ _ _ _ _ _ _ _ Hg)) as (body & n & Hbody & Henc & Hw).
  exists body. split; [exact Hbody|]. intros q brsp es2 rspbody rsp' Hv Hfil Hk Hcall Hb Hfit Hval.
  assert (calls maxFrameSize procName caller (counter w1) c (c_msg e2) body buf) as Hcalls.
  { split; [done..|]. exists n. exact Henc. }
  destruct (call_arrives maxFrameSize procName s conn st _ _ _ _ _ _ Hz Hcalls Hserves)
    as (_ & req' & _ & _ & _ & _ & Herr' & _).
  destruct (call_returns maxFrameSize procName leftover s conn st _ _ _ _ _ _ q0 impl Hz Hz2 Hcalls Hserves Hf)
    as [_ Hret].
  specialize (Hret q brsp es2 Hv Hfil Hk). rewrite (proj2 (Z.eqb_neq _ _) Hcall) in Hret.
  destruct (Hret rspbody Hb Hfit) as (rspbuf & c'' & Hwr & Hdec & Hgot).
  destruct (Hreach (call_ctx (c_now (c_world e)) ctx (Timeout opts)) buf (CallOptions (call_opts o))
    (c_msg e2) (c_world e2) rspbuf) as (l & r & w' & Ht).
  { intros d. apply dials_node. }
  { rewrite Hw, server_set_counter. exact Hwr. }
  set (e3 := returned (length (store e)) o (moved l r (c_msg e2)) w' e2).
  set (e4 := e3 <| c_msg := moved l r c'' |>).
  assert (receive (trpc_client_codec caller) (call_opts o) rsp (inl rspbuf) e3 = (Some (rsp', None), e4)) as Hrec.
  { unfold receive, Client.call_codec, mbind, M_bind. simpl. rewrite ClientDecode_moved, Hdec. simpl.
    apply (response_read _ (emsg es2)); [|destruct Hgot as [_ G1 G2 _ _]; done..|done].
    destruct Hgot as [G _ _ _ _]. simpl in G. exact (eq_trans G (eq_trans Herr' Herr)). }
  destruct (Hrep (c_now (c_world e4) - c_now w1)%Z (c_world e4)) as [r5 Hr5].
  destruct (Report sel node (c_now (c_world e4) - c_now w1) None (c_world e4)) as [r5' w5] eqn:Er5.
  simpl in Hr5. subst r5'.
  destruct (Invoke_answered run_user _ _ _ _ _ _ _ _ _ _ _ _ _ _ _ _ _ _ _ _ _ Hg Ht Hrec eq_refl Er5)
    as (e5 & HI & _). eauto.
Qed.
End client_rpc.

(** ** The service of the example in Rpc.v, called by a client *)
Module ClientRpcExamples.
Import Sample RpcExamples.
#[local] Existing Instances RpcExamples.runtime req_msg req_msg_ok rsp_msg rsp_msg_ok init_msg close_msg
  feedback_msg.

Record World := MkWorld { sv : @SvcState (InitMetas * unit) bytes unit; ctr : Z }.

Definition set_ctr (n : Z) (w : World) : World := MkWorld (sv w) n.

Definition address : string := "9.9.9.9:9".

Definition wire : ClientTransport World () () () := λ _ buf os '(m, w),
  let '(r, st) := handleSyncWithErr conn server buf None (sv w) in
  (Some (match r with
         | Some (Written rspbuf) => inl rspbuf
         | _ => inr (Own (NewFrameError RetClientReadFrameErr "closed"))
         end),
   (moved (Some (MkAddr "tcp" "l")) (Some (MkAddr "tcp" "r")) m, MkWorld st (ctr w))).

Lemma wire_reaches : reaches sv wire address server conn.
Proof.
  intros ctx buf os m w rspbuf _ Hr. unfold wire.
  destruct (handleSyncWithErr conn server buf None (sv w)) as [r st]. simpl in Hr. subst r. eauto.
Qed.

Definition one_node : Selector nat World :=
  MkSelector (λ name _, mret (inl (new_node name address))) (λ _ _ _, mret None).

Definition codec : ServerCodec World := trpc_client_codec limit "p" no_leftover ctr set_ctr "".

#[global] Instance plugins : Plugins nat World () () () () () () := {
  GetClientCodec _ := Some codec;
  GetFramerBuilder _ := None;
  GetClientTransport _ := None;
  GetClientStreamTransport _ := None;
  DefaultClientTransport := Some wire;
  tnet_DefaultClientTransport := Some wire;
  discovery_Get _ := None;
  servicerouter_Get _ := None;
  loadbalance_Get _ := None;
  circuitbreaker_Get _ := None;
  selector_Get _ := None;
  DefaultSelector := Some one_node;
  filter_GetClient _ := None;
  GetStreamFilter _ := None
}.

#[global] Instance client_runtime : ClientRuntime nat World bytes bytes := {
  c_now _ := 0%Z;
  c_Err _ _ := None;
  is_ip_port _ := true;
  Resolve := MkAddr;
  cost_text _ := "0s";
  node_text _ := "node";
  c_compressors := ∅;
  c_serializers := {[0%Z := MkSerializer (λ b _, (b, Ok ())) Ok]}
}.

Definition no_filter (_ : ()) : ClientFilter (CB:=nat) (W:=World) (F:=()) (SF:=()) (T:=()) (P:=()) (MP:=())
    (FB:=()) (Req:=bytes) (Rsp:=bytes) := λ ctx req rsp next, next ctx req rsp.

Definition call_msg : msg :=
  zero_msg <| callerServiceName := "trpc.a.b.c" |> <| clientRPCName := "/trpc.d.e.f/M" |>.
Definition call_env0 : CallEnv nat World () () () () () () :=
  MkCallEnv ∅ call_msg (MkWorld st0 0) [] None.
Definition call_opt : list (Option nat World () () () () () ()) :=
  [WithServiceName "trpc.d.e.f"; ClientOptions.WithTimeout 5000000].

Definition ping : option bytes := Some (str_bytes "ab").

(** The whole of it runs. *)
Example invoked :
  (Invoke no_filter ∅ background ping (Some []) call_opt call_env0).1 = Some (Some (str_bytes "abab"), None).
Proof. vm_compute. reflexivity. Qed.

Definition opts0 : Options nat World () () () () () () :=
  match client_getOptions ∅ call_msg call_opt with inl o => o | inr _ => zero_Options end.
Definition options0 := call_options background opts0 call_env0.
Definition node0 : Naming.Node nat := new_node "trpc.d.e.f" address.
Definition w0 : World := MkWorld st0 0.
Definition env0 := routed (length (store call_env0)) node0 (call_options background opts0 call_env0) w0
  (prepared background opts0 call_env0).
Definition request0 : bytes := Eval vm_compute in
  match (prepareRequestBuf (Req:=bytes) (Rsp:=bytes) codec ping
    (routed_opts node0 (call_options background opts0 call_env0)) env0).1 with Some (inl b) => b | _ => [] end.

Lemma opts0_eq : client_getOptions ∅ call_msg call_opt = inl opts0.
Proof.
  unfold opts0. assert (match client_getOptions ∅ call_msg call_opt with inl _ => true | inr _ => false end = true)
    as H by go_eval. by destruct (client_getOptions ∅ call_msg call_opt).
Qed.

Lemma request0_encoded : ∃ e2,
  prepareRequestBuf (Req:=bytes) (Rsp:=bytes) codec ping
    (routed_opts node0 (call_options background opts0 call_env0)) 
    (routed (length (store call_env0)) node0 (call_options background opts0 call_env0) w0
       (prepared background opts0 call_env0)) = (Some (inl request0), e2).
Proof.
  assert (∀ (p : option (bytes + go_err) * CallEnv nat World () () () () () ()), p.1 = Some (inl request0) →
    ∃ e2, p = (Some (inl request0), e2)) as H by (intros [] ?; simplify_eq/=; eauto).
  apply H. go_eval.
Qed.

Lemma goes_out0 : ∃ e2,
  goes_out (Req:=bytes) (Rsp:=bytes) ∅ background ping call_opt call_env0 opts0 one_node node0 w0 codec
    wire request0 e2.
Proof.
  destruct request0_encoded as [e2 He]. exists e2.
  split; [exact opts0_eq|go_eval|go_eval|go_eval| |reflexivity|reflexivity|exact He].
  split; vm_compute; (reflexivity || discriminate).
Qed.

(** The body that goes out. *)
Lemma body0 : (serializeAndCompress (CB:=nat) (Rsp:=bytes) ping
    (routed_opts node0 (call_options background opts0 call_env0)) env0).1 = Some (inl (str_bytes "ab")).
Proof. go_eval. Qed.

Lemma Invoke_remote_witness :
  ∃ e5, Invoke no_filter ∅ background ping (Some []) call_opt call_env0 = (Some (Some (str_bytes "abab"), None), e5).
Proof.
  destruct goes_out0 as [e2 Hout].
  destruct (Invoke_remote limit "p" no_leftover no_filter sv ctr set_ctr (λ _ _, eq_refl) server conn ∅
    background ping (Some []) call_opt call_env0 opts0 one_node node0 w0 "" wire request0 e2 [] twice)
    as (body & Hbody & H); [go_eval|go_eval|exact Hout|exact wire_reaches|by eexists|
      go_eval|go_eval|go_eval|go_eval|discriminate|split; reflexivity|reflexivity|].
  pose proof (eq_trans (eq_sym body0) (f_equal fst Hbody)) as Hb.
  assert (str_bytes "ab" = body) as <- by by injection Hb. clear Hb Hbody.
  apply (H (str_bytes "ab") (Some (str_bytes "abab")) (request_env limit server conn request0 st0)
    (str_bytes "abab") (Some (str_bytes "abab")));
    [go_eval|go_eval|split; go_eval|vm_compute; discriminate|go_eval| |go_eval].
  exists (str_bytes "P"). split; [go_eval|]. split; [go_eval|]. split; [|go_eval]. vm_compute. discriminate.
Defined.
End ClientRpcExamples.
