(* ===== verification/StreamServer.v ===== *)
(** Streams at the server (stream/server.go, with stream/config.go and server/stream_filter.go): the
    dispatcher that hands the frames of all connections to the streams, the API of a stream that its
    handler calls, and the goroutine of the handler.

    The dispatcher is the world of a service of Service.v.  The state is shared: a pointer to a
    [serverStream] is an index of the heap [streams].  A handler is user code: a state of type [H], and
    [act] says what it does next, so that it may run for ever.  What may block is split into steps. *)

From S2P Require Import Prelude GoStrings FlowControl Pb Errs Frame Msg StreamCodec Service.

(** ** Data (stream/config.go) *)

Definition noSuchAddr : string := "no such addr".
Definition noSuchStreamID : string := "no such stream ID".
Definition streamClosed : string := "stream is already closed".
Definition unknownFrameType : string := "unknown frame type".
Definition frameHeadNotInMsg : string := "frameHead is not contained in msg".
Definition streamFrameInvalid : string := "stream frame assert failed".

Definition maxInitWindowSize : Z := 2 ^ 32 - 1.
Definition defaultInitWindowSize : Z := 65535.

Record response := MkResponse { resp_data : bytes; resp_err : option error }.

Definition getWindowSize (s : Z) : Z :=
  if (s <=? defaultInitWindowSize)%Z then defaultInitWindowSize
  else if (maxInitWindowSize <=? s)%Z then maxInitWindowSize
  else s.

(** [io.EOF] *)
Definition EOF_error : error := Plain "EOF".

(** ** Handlers *)

(** What a handler does next: return, [SendMsg], or [RecvMsg] into a value; it goes on with the
    result. *)
Inductive action (Q B H : Type) : Type :=
| Return (err : option error)
| Send (m : option B) (k : option error → H)
| Recv (m : Q) (k : Q → option error → H).
Arguments Return {Q B H}.
Arguments Send {Q B H}.
Arguments Recv {Q B H}.

Class Handlers (Q B H : Type) := act : H → action Q B H.

(** The goroutine of a stream: not started, running the handler, in [GetWindow] with the message to
    send, about to run its deferred calls, or ended. *)
Inductive goroutine (H : Type) : Type :=
| NotStarted
| Running (h : H)
| Sending (newMsg : msg) (reqBodyBuffer : bytes) (k : option error → H)
| Exiting
| Ended.
Arguments NotStarted {H}.
Arguments Running {H}.
Arguments Sending {H}.
Arguments Exiting {H}.
Arguments Ended {H}.

(** [recvQueue] is the queue of Queue.v, whose [Get] takes the values in order and gives up only
    when [done] is closed and the queue is empty. *)
Record serverStream (H : Type) := MkServerStream {
  ss_msg : msg;
  ss_streamID : Z;
  recvQueue : list response;
  done_closed : bool;
  ss_err : option error;
  rControl : option receiveControl;
  sControl : option sendControl;
  routine : goroutine H
}.
Arguments MkServerStream {H}.
Arguments ss_msg {H}.
Arguments ss_streamID {H}.
Arguments recvQueue {H}.
Arguments done_closed {H}.
Arguments ss_err {H}.
Arguments rControl {H}.
Arguments sControl {H}.
Arguments routine {H}.

#[global] Instance eta_serverStream {H} : Eta (serverStream H) := λ s,
  MkServerStream (ss_msg s) (ss_streamID s) (recvQueue s) (done_closed s) (ss_err s) (rControl s)
    (sControl s) (routine s).

(** [transport.ServerStreamTransport]: [Send] with the message of its context. *)
Record StreamOptions (W H : Type) := MkStreamOptions {
  so_CurrentSerializationType : Z;
  so_CurrentCompressType : Z;
  MaxWindowSize : Z;
  so_Codec : ServerCodec W;
  StreamTransport_Send : W → msg → bytes → option error * W;
  StreamFilters : list (option StreamServerInfo → H → H)
}.
Arguments MkStreamOptions {W H}.
Arguments so_CurrentSerializationType {W H}.
Arguments so_CurrentCompressType {W H}.
Arguments MaxWindowSize {W H}.
Arguments so_Codec {W H}.
Arguments StreamTransport_Send {W H}.
Arguments StreamFilters {W H}.

(** The dispatcher: the streams ever created, the table of address key and stream id, and the world of
    codec and transport. *)
Record streamDispatcher (W H : Type) := MkDispatcher {
  streams : list (serverStream H);
  addrToServerStream : gmap string (gmap Z nat);
  sd_world : W
}.
Arguments MkDispatcher {W H}.
Arguments streams {W H}.
Arguments addrToServerStream {W H}.
Arguments sd_world {W H}.

#[global] Instance eta_streamDispatcher {W H} : Eta (streamDispatcher W H) := λ d,
  MkDispatcher (streams d) (addrToServerStream d) (sd_world d).

Section server.
Context {W Q B H : Type} `{PbEnum} `{!Handlers Q B H} `{!Runtime (streamDispatcher W H) Q B}.
Variable opts : StreamOptions W H.

Abbreviation disp := (streamDispatcher W H).
Abbreviation stream_t := (serverStream H).

(** ** The table *)

Definition storeServerStream (d : disp) (addr : string) (streamID : Z) (ss : nat) : disp :=
  match addrToServerStream d !! addr with
  | None => d <| addrToServerStream := <[addr := {[streamID := ss]}]> (addrToServerStream d) |>
  | Some addrToStreamID =>
    d <| addrToServerStream :=
           <[addr := <[streamID := ss]> addrToStreamID]> (addrToServerStream d) |>
  end.

Definition deleteServerStream (d : disp) (addr : string) (streamID : Z) : disp :=
  match addrToServerStream d !! addr with
  | None => d
  | Some addrToStreamID =>
    let addrToStreamID := delete streamID addrToStreamID in
    d <| addrToServerStream :=
           if decide (addrToStreamID = ∅) then delete addr (addrToServerStream d)
           else <[addr := addrToStreamID]> (addrToServerStream d) |>
  end.

Definition loadServerStream (d : disp) (addr : string) (streamID : Z) : nat + error :=
  match addrToServerStream d !! addr with
  | None => inr (NewFrameError RetServerSystemErr noSuchAddr)
  | Some addrToStream =>
    match addrToStream !! streamID with
    | None => inr (NewFrameError RetServerSystemErr noSuchStreamID)
    | Some ss => inl ss
    end
  end.

(** ** Writing to streams *)

(** An assignment through the pointer [l]. *)
Definition upd (l : nat) (f : stream_t → stream_t) (d : disp) : disp :=
  d <| streams := alter f l (streams d) |>.

Definition newFrameHead (t id : Z) : FrameHead :=
  MkFrameHead (u8 TRPC_STREAM_FRAME) (u8 t) 0 0 id 0 0.

(** [WithCloneContextAndMessage] of the context of a stream; a message of the pool is as new. *)
Definition clone (m : msg) : msg := WithCloneContextAndMessage (Some m) zero_msg.

(** [opts.Codec.Encode]; its message is the one of the context that [Send] gets. *)
Definition Encode (m : msg) (body : bytes) : M disp ((bytes * msg) + error) := λ d,
  let '(r, m, w) := codec_Encode (so_Codec opts) (sd_world d) m body in
  let d := d <| sd_world := w |> in
  match r with Ok buf => (Some (inl (buf, m)), d) | Err e => (Some (inr e), d) | Panic => (None, d) end.

Definition transport_Send (m : msg) (buf : bytes) : M disp (option error) := λ d,
  let '(r, w) := StreamTransport_Send opts (sd_world d) m buf in
  (Some r, d <| sd_world := w |>).

Definition encode_and_send (m : msg) : M disp (option error) :=
  r ← Encode m [];
  match r with
  | inr e => mret (Some e)
  | inl (buf, m) => transport_Send m buf
  end.

(** ** The API of a stream *)

Definition serializationAndCompressType (m : msg) : Z * Z :=
  (if IsValidSerializationType (so_CurrentSerializationType opts)
   then so_CurrentSerializationType opts else msg_SerializationType m,
   if IsValidCompressType (so_CurrentCompressType opts)
   then so_CurrentCompressType opts else msg_CompressType m).

(** [SendMsg] up to [GetWindow]: an error, or the message and the body to send. *)
Definition SendMsg_body (s : stream_t) (m : option B) : M disp ((msg * bytes) + option error) :=
  match ss_err s with
  | Some err => mret (inr (WrapFrameError (Some err) (Code (Some err)) "stream sending error"))
  | None =>
    let msg := ss_msg s in
    let newMsg := clone msg in
    let newMsg := WithLocalAddr newMsg (msg_LocalAddr msg) in
    let newMsg := WithRemoteAddr newMsg (msg_RemoteAddr msg) in
    let newMsg := WithCompressType newMsg (msg_CompressType msg) in
    let newMsg := WithStreamID newMsg (ss_streamID s) in
    let newMsg := WithFrameHead newMsg
      (IFrameHead (newFrameHead TRPC_STREAM_FRAME_DATA (ss_streamID s))) in
    let '(serializationType, compressType) := serializationAndCompressType newMsg in
    r ← of_result (if IsValidSerializationType serializationType
                   then Marshal serializers serializationType m else Ok []);
    match r with
    | inr e => mret (inr (Some (NewFrameError RetServerEncodeFail
                                  ("server codec Marshal: " +:+ Error e))))
    | inl reqBodyBuffer =>
      r ← of_result (if IsValidCompressType compressType && negb (compressType =? CompressTypeNoop)%Z
                     then Compress compressors compressType reqBodyBuffer else Ok reqBodyBuffer);
      match r with
      | inr e => mret (inr (Some (NewFrameError RetServerEncodeFail
                                    ("server codec Compress: " +:+ Error e))))
      | inl reqBodyBuffer => mret (inl (newMsg, reqBodyBuffer))
      end
    end
  end.

(** [GetWindow] in the state in which it returns; [None] if it blocks. *)
Definition GetWindow (s : sendControl) (done : bool) (w : Z) : option (sendControl + error) :=
  if available s then Some (inl (take_window s w))
  else if done then Some (inr (Plain streamClosed))
  else None.

(** The rest of [SendMsg]. *)
Definition SendMsg_send (newMsg : msg) (reqBodyBuffer : bytes) : M disp (option error) :=
  r ← Encode newMsg reqBodyBuffer;
  match r with
  | inr e => mret (Some (NewFrameError RetServerEncodeFail ("server codec Encode: " +:+ Error e)))
  | inl (reqBuffer, newMsg) => transport_Send newMsg reqBuffer
  end.

(** The feedback frame of the increment [w]. *)
Definition feedback (s : stream_t) (w : Z) : M disp (option error) :=
  let oldMsg := ss_msg s in
  let m := clone oldMsg in
  let m := WithLocalAddr m (msg_LocalAddr oldMsg) in
  let m := WithRemoteAddr m (msg_RemoteAddr oldMsg) in
  let m := WithStreamID m (ss_streamID s) in
  let m := WithFrameHead m (IFrameHead (newFrameHead TRPC_STREAM_FRAME_FEEDBACK (ss_streamID s))) in
  let m := WithStreamFrame m (IFeedback (MkFeedback w)) in
  encode_and_send m.

Definition decompressAndUnmarshal (s : stream_t) (data : bytes) (m : Q) : M disp (Q * option error) :=
  let '(serializationType, compressType) := serializationAndCompressType (ss_msg s) in
  r ← of_result (if IsValidCompressType compressType && negb (compressType =? CompressTypeNoop)%Z
                 then Decompress compressors compressType data else Ok data);
  match r with
  | inr e => mret (m, Some (NewFrameError RetClientDecodeFail
                              ("server codec Decompress: " +:+ Error e)))
  | inl data =>
    if IsValidSerializationType serializationType then
      let '(m, r) := Unmarshal serializers serializationType data m in
      r ← of_result r;
      mret (m, match r with
               | inr e => Some (NewFrameError RetClientDecodeFail
                                  ("server codec Unmarshal: " +:+ Error e))
               | inl _ => None
               end)
    else mret (m, None)
  end.

(** [recvQueue.Get]; [None] if it blocks. *)
Definition recvQueue_Get (s : stream_t) : option (option response * stream_t) :=
  match recvQueue s with
  | resp :: rest => Some (Some resp, s <| recvQueue := rest |>)
  | [] => if done_closed s then Some (None, s) else None
  end.

(** The receiver's flow control: [OnRecv], whose feedback function is that of the stream. *)
Definition consumed (l : nat) (s : stream_t) (data : bytes) : M disp (option error) :=
  match rControl s with
  | None => mret None
  | Some r =>
    let '(r, increment) := OnRecv r (u32 (zlen data)) in
    _ ← modify (upd l (λ s, s <| rControl := Some r |>));
    match increment with Some w => feedback s w | None => mret None end
  end.

(** [RecvMsg] from the result of [Get] on. *)
Definition RecvMsg_got (l : nat) (s : stream_t) (resp : option response) (m : Q)
    : M disp (Q * option error) :=
  match resp with
  | None =>
    mret (m, match ss_err s with
             | Some err => Some err
             | None => Some (NewFrameError RetServerSystemErr streamClosed)
             end)
  | Some (MkResponse data (Some err)) => mret (m, Some err)
  | Some (MkResponse data None) =>
    err ← consumed l s data;
    match err with
    | Some err => mret (m, Some err)
    | None => decompressAndUnmarshal s data m
    end
  end.

Definition CloseSend (s : stream_t) (closeType ret : Z) (message : string) : M disp (option error) :=
  let oldMsg := ss_msg s in
  let m := clone oldMsg in
  let m := WithLocalAddr m (msg_LocalAddr oldMsg) in
  let m := WithRemoteAddr m (msg_RemoteAddr oldMsg) in
  let m := WithFrameHead m (IFrameHead (newFrameHead TRPC_STREAM_FRAME_CLOSE (ss_streamID s))) in
  let m := WithStreamFrame m (IClose (zero_close <| close_CloseType := closeType |>
             <| close_Ret := ret |> <| close_Msg := str_bytes message |>)) in
  encode_and_send m.

(** ** The goroutine of a stream *)

(** [StreamFilterChain.Filter]: the handler that runs in the end. *)
Fixpoint StreamFilter_loop (reversed : list (option StreamServerInfo → H → H))
    (info : option StreamServerInfo) (handler : H) : H :=
  match reversed with
  | [] => handler
  | curFilter :: reversed => StreamFilter_loop reversed info (curFilter info handler)
  end.

Definition StreamFilter (c : list (option StreamServerInfo → H → H)) (info : option StreamServerInfo)
    (handler : H) : H := StreamFilter_loop (rev c) info handler.

(** [startStreamHandler] once the handler has returned [err]: the close frame that it sends.
    [errors.As] may find a nil [*errs.Error], whose fields cannot be read. *)
Definition close_stream (s : stream_t) (err : option error) : M disp (option error) :=
  match err with
  | None => CloseSend s (i32 TRPC_STREAM_CLOSE) 0 ""
  | Some e =>
    match As e with
    | Some (Status _ code x _) | Some (StatusOf _ code x _ _) =>
      CloseSend s (i32 TRPC_STREAM_RESET) (i32 code) x
    | Some _ => panic
    | None => CloseSend s (i32 TRPC_STREAM_RESET) 0 (Error e)
    end
  end.

Definition finish (l : nat) (s : stream_t) (err : option error) : M disp () :=
  err ← close_stream s err;
  modify (upd l (λ s, match err with Some e => s <| ss_err := Some e |> | None => s end
                        <| routine := Exiting |>)).

(** The deferred calls; [addr] is the key that [handleInit] computed. *)
Definition exit (l : nat) (s : stream_t) : M disp () :=
  addr ← of_result (AddrToKey (msg_LocalAddr (ss_msg s)) (msg_RemoteAddr (ss_msg s)));
  match addr with
  | inr _ => panic
  | inl addr =>
    modify (λ d, upd l (λ s, s <| done_closed := true |> <| routine := Ended |>)
                     (deleteServerStream d addr (ss_streamID s)))
  end.

(** One step of the goroutine of the stream [l]; [None] if it blocks or has nothing to do. *)
Definition routine_step (l : nat) (s : stream_t) : option (M disp ()) :=
  let goto g := modify (upd l (λ s, s <| routine := g |>)) in
  match routine s with
  | NotStarted | Ended => None
  | Exiting => Some (exit l s)
  | Running h =>
    match act h with
    | Return err => Some (finish l s err)
    | Send m k =>
      Some (r ← SendMsg_body s m;
            match r with
            | inr err => goto (Running (k err))
            | inl (newMsg, body) => goto (Sending newMsg body k)
            end)
    | Recv m k =>
      match recvQueue_Get s with
      | None => None
      | Some (resp, s') =>
        Some (_ ← modify (upd l (λ _, s'));
              '(m, err) ← RecvMsg_got l s' resp m;
              goto (Running (k m err)))
      end
    end
  | Sending newMsg body k =>
    let send := err ← SendMsg_send newMsg body; goto (Running (k err)) in
    match sControl s with
    | None => Some send
    | Some c =>
      match GetWindow c (done_closed s) (u32 (zlen body)) with
      | None => None
      | Some (inl c) => Some (_ ← modify (upd l (λ s, s <| sControl := Some c |>)); send)
      | Some (inr e) => Some (goto (Running (k (Some e))))
      end
    end
  end.

(** ** The dispatcher *)

Abbreviation env_t := (Env disp Q).
Abbreviation rsp_t := (option B * option go_err)%type.

Definition on_disp {A} (m : M disp A) : M env_t A := λ e,
  let '(r, d) := m (world e) in (r, e <| world := d |>).

Definition key_of (m : msg) : M env_t string :=
  r ← of_result (AddrToKey (msg_LocalAddr m) (msg_RemoteAddr m));
  match r with inl k => mret k | inr _ => panic end.

Definition no_response : rsp_t := (None, Some ErrServerNoResponse).
Definition fails (e : error) : rsp_t := (None, Some (Own e)).

(** [done] is not closed; the receive control is set in [handleInit]. *)
Definition newServerStream (m : msg) (streamID : Z) : stream_t :=
  MkServerStream m streamID [] false None None None NotStarted.

Definition setSendControl (s : stream_t) (m : msg) : stream_t * (Z + error) :=
  match msg_StreamFrame m with
  | IInit initMeta =>
    let w := init_InitWindowSize initMeta in
    if (w =? 0)%Z then (s <| rControl := None |> <| sControl := None |>, inl w)
    else (s <| sControl := Some (newSendControl w) |>, inl w)
  | _ => (s, inr (Plain streamFrameInvalid))
  end.

(** The message of the INIT response. *)
Definition init_response (m : msg) (streamID cw w : Z) : msg :=
  let newMsg := clone m in
  let newMsg := WithLocalAddr newMsg (msg_LocalAddr m) in
  let newMsg := WithRemoteAddr newMsg (msg_RemoteAddr m) in
  let newMsg := WithStreamID newMsg streamID in
  let newMsg := WithFrameHead newMsg (IFrameHead (newFrameHead TRPC_STREAM_FRAME_INIT streamID)) in
  WithStreamFrame newMsg (IInit (zero_init <| init_ResponseMeta := Some zero_initrsp |>
    <| init_InitWindowSize := if (cw =? 0)%Z then 0%Z else w |>)).

(** [handleInit] with its copy of the message; a goroutine that calls a nil handler crashes. *)
Definition init_stream (sh : option H) (si : option StreamServerInfo) (m : msg) : M env_t rsp_t :=
  let streamID := msg_StreamID m in
  let w := getWindowSize (MaxWindowSize opts) in
  let ss := newServerStream m streamID <| rControl := Some (newReceiveControl w) |> in
  addr ← key_of m;
  l ← gets (λ e, length (streams (world e)));
  _ ← on_disp (modify (λ d, storeServerStream (d <| streams := streams d ++ [ss] |>) addr streamID l));
  let '(ss, r) := setSendControl ss m in
  _ ← on_disp (modify (upd l (λ _, ss)));
  match r with
  | inr e => mret (fails e)
  | inl cw =>
    err ← on_disp (encode_and_send (init_response m streamID cw w));
    match err with
    | Some e => mret (fails e)
    | None =>
      match sh with
      | None => panic
      | Some sh =>
        let h := StreamFilter (StreamFilters opts) si sh in
        _ ← on_disp (modify (upd l (λ s, s <| routine := Running h |>)));
        mret no_response
      end
    end
  end.

Definition handleInit (sh : option H) (si : option StreamServerInfo) : M env_t rsp_t :=
  oldMsg ← gets emsg;
  init_stream sh si (CopyMsg zero_msg oldMsg).

Definition recvQueue_Put (l : nat) (resp : response) : M env_t () :=
  on_disp (modify (upd l (λ s, s <| recvQueue := recvQueue s ++ [resp] |>))).

Definition load (m : msg) : M env_t (nat + error) :=
  addr ← key_of m;
  gets (λ e, loadServerStream (world e) addr (msg_StreamID m)).

Definition handleData (m : msg) (req : bytes) : M env_t rsp_t :=
  r ← load m;
  match r with
  | inr e => mret (fails e)
  | inl l => _ ← recvQueue_Put l (MkResponse req None); mret no_response
  end.

(** What a CLOSE frame puts into the queue: an [*errs.Error] becomes an [error]. *)
Definition close_response (m : msg) : response :=
  MkResponse [] (match ServerRspErr m with Some e => Some e | None => Some EOF_error end).

Definition handleClose (m : msg) : M env_t rsp_t :=
  r ← load m;
  match r with
  | inr _ => mret no_response
  | inl l => _ ← recvQueue_Put l (close_response m); mret no_response
  end.

(** The loop of [handleError] visits each stream of the connection; the streams are different, so their
    order does not matter. *)
Definition fail_stream (err : option error) (s : stream_t) : stream_t :=
  s <| ss_err := err |> <| done_closed := true |>.

Definition fail_streams (err : option error) (t : gmap Z nat) (d : disp) : disp :=
  map_fold (λ _ l d, upd l (fail_stream err) d) d t.

Definition handleError (m : msg) : M env_t rsp_t :=
  addr ← key_of m;
  d ← gets world;
  match addrToServerStream d !! addr with
  | None => mret (fails (NewFrameError RetServerSystemErr noSuchAddr))
  | Some t =>
    let d := fail_streams (ServerRspErr m) t d in
    _ ← on_disp (modify (λ _,
          d <| addrToServerStream := delete addr (addrToServerStream d) |>));
    mret no_response
  end.

Definition UpdateWindow (c : sendControl) (increment : Z) : sendControl :=
  let '(c, wake) := add_window c increment in if wake then signal c else c.

Definition handleFeedback (m : msg) : M env_t rsp_t :=
  r ← load m;
  match r with
  | inr e => mret (fails e)
  | inl l =>
    match msg_StreamFrame m with
    | IFeedback fb =>
      _ ← on_disp (modify (upd l (λ s,
            s <| sControl := (λ c, UpdateWindow c (feedback_WindowSizeIncrement fb)) <$> sControl s |>)));
      mret no_response
    | _ => mret (fails (Plain streamFrameInvalid))
    end
  end.

Definition handleByStreamFrameType (t : Z) (sh : option H) (si : option StreamServerInfo) (req : bytes)
    : M env_t rsp_t :=
  m ← gets emsg;
  if (t =? TRPC_STREAM_FRAME_INIT)%Z then handleInit sh si
  else if (t =? TRPC_STREAM_FRAME_DATA)%Z then handleData m req
  else if (t =? TRPC_STREAM_FRAME_CLOSE)%Z then handleClose m
  else if (t =? TRPC_STREAM_FRAME_FEEDBACK)%Z then handleFeedback m
  else mret (fails (NewFrameError RetServerSystemErr unknownFrameType)).

Definition StreamHandleFunc (sh : option H) (si : option StreamServerInfo) (req : option bytes)
    : M env_t rsp_t :=
  m ← gets emsg;
  match msg_FrameHead m with
  | IFrameHead h =>
    _ ← upd_msg (λ m, WithFrameHead m INil);
    handleByStreamFrameType (StreamFrameType h) sh si (default [] req)
  | _ =>
    match ServerRspErr m with
    | Some _ => handleError m
    | None => mret (fails (NewFrameError RetServerSystemErr frameHeadNotInMsg))
    end
  end.

(** [Init] fails only for a transport without streams. *)
Definition stream_handle : @StreamHandle disp Q B H := MkStreamHandle (λ _, StreamHandleFunc) None.

(** A codec of the world [W] as the codec of a service whose world is the dispatcher. *)
Definition dispatcher_codec (c : ServerCodec W) : ServerCodec disp := MkCodec
  (λ d m buf, let '(r, m, w) := codec_Decode c (sd_world d) m buf in (r, m, d <| sd_world := w |>))
  (λ d m buf, let '(r, m, w) := codec_Encode c (sd_world d) m buf in (r, m, d <| sd_world := w |>)).
End server.

(** ** The table as a map of streams *)

Section table.
Context {W H : Type}.
Abbreviation disp := (streamDispatcher W H).

(** The stream registered for a connection and an id. *)
Definition at_key (d : disp) (a : string) (id : Z) : option nat :=
  addrToServerStream d !! a ≫= (.!! id).

(** A connection with no streams has no table. *)
Definition tables_nonempty (d : disp) : Prop := ∀ a t, addrToServerStream d !! a = Some t → t ≠ ∅.

Lemma at_key_store d a id l a' id' :
  at_key (storeServerStream d a id l) a' id' =
  if decide (a' = a ∧ id' = id) then Some l else at_key d a' id'.
Proof.
  unfold at_key, storeServerStream. destruct (addrToServerStream d !! a) as [t|] eqn:E; simpl.
  all: destruct (decide (a' = a)) as [->|Ha];
    [rewrite lookup_insert_eq; simpl
    |rewrite lookup_insert_ne by done; rewrite decide_False by naive_solver; done].
  all: rewrite ?E; simpl; destruct (decide (id' = id)) as [->|Hi].
  all: try (rewrite lookup_insert_eq, decide_True by done; done).
  all: try (rewrite lookup_singleton_eq, decide_True by done; done).
  - by rewrite lookup_insert_ne, decide_False by naive_solver.
  - by rewrite lookup_singleton_ne, decide_False by naive_solver.
Qed.

Lemma at_key_delete d a id a' id' :
  at_key (deleteServerStream d a id) a' id' =
  if decide (a' = a ∧ id' = id) then None else at_key d a' id'.
Proof.
  unfold at_key, deleteServerStream. destruct (addrToServerStream d !! a) as [t|] eqn:E; simpl; cycle 1.
  { case_decide as Hd; [|done]. destruct Hd as [-> _]. by rewrite E. }
  assert (Hl : ∀ j, delete id t !! j = if decide (j = id) then None else t !! j).
  { intros j. destruct (decide (j = id)) as [->|]; [apply lookup_delete_eq|by apply lookup_delete_ne]. }
  destruct (decide (a' = a)) as [->|Ha]; [rewrite E|rewrite (decide_False (P := a' = a ∧ _)) by naive_solver].
  - case_decide as He; [rewrite lookup_delete_eq|rewrite lookup_insert_eq]; simpl.
    + specialize (Hl id'). rewrite He, lookup_empty in Hl. repeat case_decide; naive_solver.
    + rewrite Hl. repeat case_decide; naive_solver.
  - case_decide; [by rewrite lookup_delete_ne|by rewrite lookup_insert_ne].
Qed.

Lemma at_key_load `{PbEnum} (d : disp) a id l : loadServerStream d a id = inl l ↔ at_key d a id = Some l.
Proof.
  unfold at_key, loadServerStream. destruct (addrToServerStream d !! a) as [t|]; simpl; [|done].
  destruct (t !! id); naive_solver.
Qed.

Lemma store_nonempty d a id l : tables_nonempty d → tables_nonempty (storeServerStream d a id l).
Proof.
  intros Hn a' t. unfold storeServerStream. destruct (addrToServerStream d !! a) eqn:E; simpl;
    (destruct (decide (a' = a)) as [->|];
     [rewrite lookup_insert_eq; intros [= <-]|rewrite lookup_insert_ne by done; apply Hn]).
  - apply insert_non_empty.
  - apply map_non_empty_singleton.
Qed.

Lemma delete_nonempty d a id : tables_nonempty d → tables_nonempty (deleteServerStream d a id).
Proof.
  intros Hn a' t. unfold deleteServerStream. destruct (addrToServerStream d !! a) eqn:E; simpl; [|apply Hn].
  case_decide as He; (destruct (decide (a' = a)) as [->|]).
  - by rewrite lookup_delete_eq.
  - rewrite lookup_delete_ne by done. apply Hn.
  - rewrite lookup_insert_eq. by intros [= <-].
  - rewrite lookup_insert_ne by done. apply Hn.
Qed.
End table.

(** ** What the operations do to the streams *)

Section effects.
Context {W Q B H : Type} `{PbEnum} `{!Handlers Q B H} `{!Runtime (streamDispatcher W H) Q B}.
Variable opts : StreamOptions W H.
Abbreviation disp := (streamDispatcher W H).
Abbreviation stream_t := (serverStream H).
Abbreviation env_t := (Env disp Q).

Definition same_streams (d d' : disp) : Prop :=
  streams d' = streams d ∧ addrToServerStream d' = addrToServerStream d.

(** A computation that only touches the world of codec and transport. *)
Definition quiet {A} (m : M disp A) : Prop := ∀ d, same_streams d (m d).2.

Lemma quiet_ret {A} (x : A) : quiet (mret x).
Proof. done. Qed.

Lemma quiet_of_result {A} (r : result A) : quiet (of_result r).
Proof. by destruct r. Qed.

Lemma quiet_panic {A} : quiet (A := A) panic.
Proof. done. Qed.

Lemma quiet_seq {A C} (m : M disp A) (k : A → M disp C) :
  quiet m → (∀ x, quiet (k x)) → quiet (x ← m; k x).
Proof.
  intros Hm Hk d. unfold mbind, M_bind. specialize (Hm d). destruct (m d) as [[x|] d1]; [|done].
  destruct Hm as [H1 H2], (Hk x d1) as [H3 H4]. simpl in *. split; congruence.
Qed.

Lemma quiet_Encode m body : quiet (Encode opts m body).
Proof.
  intros d. unfold Encode. destruct (codec_Encode _ _ _ _) as [[[] ?] ?]; done.
Qed.

Lemma quiet_transport_Send m buf : quiet (transport_Send opts m buf).
Proof. intros d. unfold transport_Send. by destruct (StreamTransport_Send _ _ _ _). Qed.

#[local] Hint Resolve quiet_ret quiet_of_result quiet_panic quiet_Encode quiet_transport_Send : quiet.

Ltac solve_quiet := repeat first
  [ progress auto with quiet
  | apply quiet_seq; [|intros ?]
  | match goal with |- quiet (match ?x with _ => _ end) => destruct x end ].

Lemma quiet_encode_and_send m : quiet (encode_and_send opts m).
Proof. unfold encode_and_send. solve_quiet. Qed.
#[local] Hint Resolve quiet_encode_and_send : quiet.

Lemma quiet_SendMsg_body s m : quiet (SendMsg_body opts (B := B) s m).
Proof. unfold SendMsg_body. solve_quiet. Qed.

Lemma quiet_SendMsg_send m body : quiet (SendMsg_send opts m body).
Proof. unfold SendMsg_send. solve_quiet. Qed.

Lemma quiet_feedback s w : quiet (feedback opts s w).
Proof. unfold feedback. solve_quiet. Qed.

Lemma quiet_decompressAndUnmarshal s data (m : Q) : quiet (decompressAndUnmarshal opts s data m).
Proof. unfold decompressAndUnmarshal. solve_quiet. Qed.

Lemma quiet_close_stream s err : quiet (close_stream opts s err).
Proof. unfold close_stream, CloseSend. solve_quiet. Qed.

(** *** The goroutine of a stream *)

(** What a step of the stream's goroutine takes from its queue. *)
Definition takes (s : stream_t) : list response :=
  match routine s with
  | Running h => match act h with Recv _ _ => take 1 (recvQueue s) | _ => [] end
  | _ => []
  end.

(** The part of a stream that its goroutine and the frames leave alone. *)
Definition same_peer (s s' : stream_t) : Prop :=
  ss_msg s' = ss_msg s ∧ ss_streamID s' = ss_streamID s.

Definition ended (s : stream_t) : Prop := routine s = Ended.

(** Writing [s'] to the stream [l] and nothing else; [s'] is a later state of [s]. *)
Record writes (l : nat) (s s' : stream_t) (d d' : disp) : Prop := {
  writes_streams : streams d' = <[l := s']> (streams d);
  writes_peer : same_peer s s';
  writes_queue : recvQueue s = takes s ++ recvQueue s';
  writes_done : done_closed s' = done_closed s ∨ (ended s' ∧ done_closed s' = true);
  writes_err : ss_err s ≠ None → ss_err s' ≠ None
}.

Lemma streams_upd l f (d : disp) s :
  streams d !! l = Some s → streams (upd l f d) = <[l := f s]> (streams d).
Proof. intros Hl. simpl. by apply alter_insert. Qed.

(** A quiet computation and then an assignment to the stream. *)
Lemma quiet_then_upd {A} (m : M disp A) (k : A → stream_t → stream_t) l d u d' s :
  quiet m → streams d !! l = Some s →
  (x ← m; modify (upd l (k x))) d = (Some u, d') →
  ∃ x, streams d' = <[l := k x s]> (streams d) ∧ addrToServerStream d' = addrToServerStream d.
Proof.
  intros Hq Hl. unfold mbind, M_bind, modify. specialize (Hq d).
  destruct (m d) as [[x|] d1]; [|done]. intros [= _ <-]. destruct Hq as [H1 H2]. simpl in H1, H2.
  exists x. rewrite streams_upd with (s := s) by by rewrite H1. by rewrite H1.
Qed.

(** The stream [l], which was [s0], has at most new flow control. *)
Definition flows (l : nat) (s0 : stream_t) (d d' : disp) : Prop :=
  addrToServerStream d' = addrToServerStream d ∧
  (streams d' = streams d ∨ ∃ c, streams d' = <[l := s0 <| rControl := c |>]> (streams d)).

Lemma flows_quiet {A} l s0 d d1 (m : M disp A) : quiet m → flows l s0 d d1 → flows l s0 d (m d1).2.
Proof.
  intros Hq [H1 H2]. destruct (Hq d1) as [E1 E2]. unfold flows. rewrite E1, E2. by split.
Qed.

Lemma consumed_effect l s data d s0 :
  streams d !! l = Some s0 → flows l s0 d (consumed opts l s data d).2.
Proof.
  intros Hl. unfold consumed. destruct (rControl s) as [rc|]; [|by split; [|left]].
  destruct (OnRecv rc _) as [rc' inc]. unfold mbind, M_bind, modify at 1. cbv zeta beta iota.
  apply flows_quiet.
  - destruct inc; [apply quiet_feedback|apply quiet_ret].
  - split; [done|]. right. exists (Some rc'). by apply streams_upd.
Qed.

Lemma RecvMsg_got_effect l s resp (q : Q) d s0 :
  streams d !! l = Some s0 → flows l s0 d (RecvMsg_got opts l s resp q d).2.
Proof.
  intros Hl. unfold RecvMsg_got. destruct resp as [[data [err|]]|]; try by split; [|left].
  unfold mbind, M_bind. pose proof (consumed_effect l s data d s0 Hl) as Hf.
  destruct (consumed opts l s data d) as [[[e|]|] d1]; try done.
  by apply flows_quiet; [apply quiet_decompressAndUnmarshal|].
Qed.

(** A step of the goroutine of [l] is a write to [l]; only the deferred calls touch the table. *)
Lemma routine_step_effect l s (m : M disp ()) d u d' :
  streams d !! l = Some s → routine_step opts l s = Some m → m d = (Some u, d') →
  ∃ s', writes l s s' d d' ∧
    ((addrToServerStream d' = addrToServerStream d ∧ ¬ ended s ∧ ¬ ended s') ∨
     (ended s' ∧ done_closed s' = true ∧ ¬ ended s ∧ ∃ a, peer (ss_msg s) = Ok a ∧
      addrToServerStream d' = addrToServerStream (deleteServerStream d a (ss_streamID s)))).
Proof.
  intros Hl Hstep Hm. unfold routine_step in Hstep. unfold ended in *.
  destruct (routine s) as [|h|newMsg body k| |] eqn:Hr; try done.
  - destruct (act h) as [err|b k|q k] eqn:Ha.
    + injection Hstep as <-. unfold finish in Hm.
      destruct (quiet_then_upd _ _ _ _ _ _ _ (quiet_close_stream s err) Hl Hm) as (x & H1 & H2).
      eexists. split; [split; [exact H1|..]|left; split; [exact H2|]]; unfold takes; rewrite ?Hr, ?Ha;
        destruct x; split_and?; simpl; try done; try (by left); congruence.
    + injection Hstep as <-. unfold mbind at 1, M_bind at 1 in Hm.
      pose proof (quiet_SendMsg_body s b d) as Hq.
      destruct (SendMsg_body opts s b d) as [[[[newMsg body]|err]|] d1]; [..|done];
        destruct Hq as [E1 E2]; simpl in E1, E2; injection Hm as _ <-;
        (eexists; split; [split; [rewrite streams_upd with (s := s) by (by rewrite E1); by rewrite E1|..]
                         |left; split; [exact E2|]]);
        unfold takes; rewrite ?Hr, ?Ha; split_and?; simpl; try done; try (by left); congruence.
    + unfold recvQueue_Get in Hstep. destruct (match recvQueue s with [] => _ | _ => _ end)
        as [[resp s1]|] eqn:Hg; [|done]. injection Hstep as <-.
      assert (recvQueue s = take 1 (recvQueue s) ++ recvQueue s1 ∧ s1 = s <| recvQueue := recvQueue s1 |>)
        as [Hq Hs1].
      { destruct (recvQueue s) as [|x rest] eqn:Hqs; [destruct (done_closed s); simplify_eq|simplify_eq].
        - rewrite Hqs. split; [done|]. rewrite <- Hqs. by destruct s1.
        - by destruct s. }
      unfold mbind, M_bind, modify at 1 in Hm. cbv zeta beta in Hm.
      set (d1 := upd l (λ _, s1) d) in *.
      assert (streams d1 = <[l := s1]> (streams d)) as Hd1 by by apply (streams_upd l (λ _, s1) d s).
      change (addrToServerStream d) with (addrToServerStream d1). clearbody d1.
      assert (streams d1 !! l = Some s1) as Hl1.
      { rewrite Hd1, list_lookup_insert_eq; [done|]. by eapply lookup_lt_Some. }
      destruct (RecvMsg_got_effect l s1 resp q d1 s1 Hl1) as [E2 E1].
      destruct (RecvMsg_got opts l s1 resp q d1) as [[[q' err]|] d2]; [|done]. simpl in E1, E2.
      injection Hm as _ <-.
      assert (∃ c, streams d2 = <[l := s1 <| rControl := c |>]> (streams d)) as [c Hc].
      { destruct E1 as [->|[c ->]]; rewrite Hd1.
        - exists (rControl s1). by destruct s1.
        - exists c. by rewrite list_insert_insert_eq. }
      exists (s1 <| rControl := c |> <| routine := Running (k q' err) |>).
      split; [split|left; split; [exact E2|]].
      * rewrite streams_upd with (s := s1 <| rControl := c |>), Hc, list_insert_insert_eq; [done|].
        rewrite Hc, list_lookup_insert_eq; [done|]. by eapply lookup_lt_Some.
      * rewrite Hs1. by split.
      * unfold takes. by rewrite Hr, Ha.
      * left. by rewrite Hs1.
      * by rewrite Hs1.
      * done.
  - assert (∀ d0 s0, streams d0 !! l = Some s0 →
      (err ← SendMsg_send opts newMsg body; modify (upd l (λ s, s <| routine := Running (k err) |>))) d0 =
        (Some u, d') → ∃ err, streams d' = <[l := s0 <| routine := Running (k err) |>]> (streams d0) ∧
        addrToServerStream d' = addrToServerStream d0) as Hsend.
    { intros d0 s0 Hl0 Hm0. exact (quiet_then_upd _ _ _ _ _ _ _ (quiet_SendMsg_send _ _) Hl0 Hm0). }
    destruct (sControl s) as [c|].
    + destruct (GetWindow _ _ _) as [[c'|e]|]; [..|done]; injection Hstep as <-.
      * unfold mbind at 1, M_bind at 1, modify at 1 in Hm.
        destruct (Hsend (upd l (λ s, s <| sControl := Some c' |>) d) (s <| sControl := Some c' |>))
          as (err & H1 & H2); [|exact Hm|].
        { rewrite streams_upd with (s := s) by done. apply list_lookup_insert_eq. by eapply lookup_lt_Some. }
        rewrite streams_upd with (s := s), list_insert_insert_eq in H1 by done.
        eexists; split; [split; [exact H1|..]|left; split; [exact H2|]];
          unfold takes; rewrite ?Hr; split_and?; simpl; try done; try (by left); congruence.
      * injection Hm as _ <-. eexists; split; [split; [by apply streams_upd|..]|left; split; [done|]];
          unfold takes; rewrite ?Hr; split_and?; simpl; try done; try (by left); congruence.
    + injection Hstep as <-. destruct (Hsend d s Hl Hm) as (err & H1 & H2).
      eexists; split; [split; [exact H1|..]|left; split; [exact H2|]];
        unfold takes; rewrite ?Hr; split_and?; simpl; try done; try (by left); congruence.
  - injection Hstep as <-. unfold exit, mbind, M_bind in Hm. fold (peer (ss_msg s)) in Hm.
    destruct (peer (ss_msg s)) as [a|e|] eqn:Hp; simpl in Hm; [|done..]. injection Hm as _ <-.
    assert (streams (deleteServerStream d a (ss_streamID s)) = streams d) as Hd.
    { unfold deleteServerStream. by destruct (_ !! a). }
    eexists. split; [split|right; split_and!].
    + rewrite streams_upd with (s := s) by by rewrite Hd. by rewrite Hd.
    + by split.
    + unfold takes. by rewrite Hr.
    + by right.
    + done.
    + done.
    + done.
    + done.
    + exists a. split; [done|]. done.
Qed.
End effects.

(** ** What a frame does to the streams *)

Section frames.
Context {W Q B H : Type} `{PbEnum} `{!Handlers Q B H} `{!Runtime (streamDispatcher W H) Q B}.
Variable opts : StreamOptions W H.
Abbreviation disp := (streamDispatcher W H).
Abbreviation stream_t := (serverStream H).
Abbreviation env_t := (Env disp Q).

Definition frame_type (m : msg) : option Z :=
  match msg_FrameHead m with IFrameHead h => Some (StreamFrameType h) | _ => None end.

(** The connection and the id that an INIT frame opens. *)
Definition opens (m : msg) : option (string * Z) :=
  match frame_type m, peer m with
  | Some t, Ok a => if (t =? TRPC_STREAM_FRAME_INIT)%Z then Some (a, msg_StreamID m) else None
  | _, _ => None
  end.

(** What a DATA or CLOSE frame has for the stream of its connection and id. *)
Definition entry : Type := string * Z * response.

Definition frame_entry (m : msg) (req : bytes) : option entry :=
  match frame_type m, peer m with
  | Some t, Ok a =>
    if (t =? TRPC_STREAM_FRAME_INIT)%Z then None
    else if (t =? TRPC_STREAM_FRAME_DATA)%Z then Some (a, msg_StreamID m, MkResponse req None)
    else if (t =? TRPC_STREAM_FRAME_CLOSE)%Z then Some (a, msg_StreamID m, close_response m)
    else None
  | _, _ => None
  end.

Definition put (resp : response) (s : stream_t) : stream_t := s <| recvQueue := recvQueue s ++ [resp] |>.

Inductive frame_effect (m : msg) (req : bytes) (d d' : disp) : Prop :=
| effect_none : frame_entry m req = None → opens m = None → same_streams d d' →
    frame_effect m req d d'
| effect_put a id resp : frame_entry m req = Some (a, id, resp) → opens m = None →
    addrToServerStream d' = addrToServerStream d →
    streams d' = match at_key d a id with
                 | Some l => alter (put resp) l (streams d)
                 | None => streams d
                 end →
    frame_effect m req d d'
| effect_init a ss : frame_entry m req = None → opens m = Some (a, msg_StreamID m) →
    peer (ss_msg ss) = Ok a → ss_streamID ss = msg_StreamID m →
    recvQueue ss = [] → done_closed ss = false → ¬ ended ss →
    streams d' = streams d ++ [ss] →
    addrToServerStream d' =
      addrToServerStream (storeServerStream d a (msg_StreamID m) (length (streams d))) →
    frame_effect m req d d'
| effect_feedback l f : frame_entry m req = None → opens m = None →
    addrToServerStream d' = addrToServerStream d →
    streams d' = alter (λ s, s <| sControl := f (sControl s) |>) l (streams d) →
    frame_effect m req d d'
| effect_error a t : frame_entry m req = None → opens m = None → peer m = Ok a →
    ServerRspErr m ≠ None → frame_type m = None → addrToServerStream d !! a = Some t →
    streams d' = streams (fail_streams (ServerRspErr m) t d) →
    addrToServerStream d' = delete a (addrToServerStream d) →
    frame_effect m req d d'.

Lemma key_of_eq m (e : env_t) : key_of m e = match peer m with Ok a => (Some a, e) | _ => (None, e) end.
Proof.
  unfold key_of, peer. by destruct (AddrToKey _ _).
Qed.

Lemma alter_snoc {A} (f : A → A) (k : list A) x : alter f (length k) (k ++ [x]) = k ++ [f x].
Proof. induction k as [|y k IH]; [done|]. simpl. f_equal. exact IH. Qed.

Lemma peer_CopyMsg m m0 : peer (CopyMsg m0 m) = peer m ∧ msg_StreamID (CopyMsg m0 m) = msg_StreamID m.
Proof. destruct (CopyMsg_copies m0 m) as [-> _]. by split. Qed.

Lemma table_store (d d2 : disp) a id l :
  addrToServerStream d = addrToServerStream d2 →
  addrToServerStream (storeServerStream d a id l) = addrToServerStream (storeServerStream d2 a id l).
Proof. intros E. unfold storeServerStream. rewrite E. by destruct (_ !! a). Qed.

Lemma setSendControl_keeps (s : stream_t) m : 
  ∃ r c, (setSendControl s m).1 = s <| rControl := r |> <| sControl := c |>.
Proof.
  unfold setSendControl. destruct (msg_StreamFrame m); try (exists (rControl s), (sControl s); by destruct s).
  case_match; [by exists None, None|]. exists (rControl s), (Some (newSendControl (init_InitWindowSize m0))).
  by destruct s.
Qed.

(** [handleInit] adds a stream, also when it fails. *)
Lemma init_stream_effect sh si m (e : env_t) (r : option B * option go_err) e' a :
  init_stream opts sh si m e = (Some r, e') → peer m = Ok a →
  ∃ ss, peer (ss_msg ss) = Ok a ∧ ss_streamID ss = msg_StreamID m ∧ recvQueue ss = [] ∧
    done_closed ss = false ∧ ¬ ended ss ∧ streams (world e') = streams (world e) ++ [ss] ∧
    addrToServerStream (world e') = addrToServerStream (storeServerStream (world e) a
      (msg_StreamID m) (length (streams (world e)))).
Proof.
  intros He Hp. unfold init_stream in He. cbv zeta in He.
  unfold mbind at 1, M_bind at 1 in He. rewrite key_of_eq, Hp in He.
  unfold mbind at 1, M_bind at 1, gets at 1 in He.
  set (ss := newServerStream m _ <| rControl := _ |>) in *. set (l := length _) in *.
  unfold mbind at 1, M_bind at 1, on_disp at 1, modify at 1 in He.
  destruct (setSendControl_keeps ss m) as (rc & sc & Hss).
  destruct (setSendControl ss m) as [ss1 r1]. simpl in Hss.
  unfold mbind at 1, M_bind at 1, on_disp at 1, modify at 1 in He.
  match type of He with _ ?e1 = _ => set (E := e1) in * end.
  assert (streams (world E) = streams (world e) ++ [ss1] ∧ addrToServerStream (world E) =
    addrToServerStream (storeServerStream (world e) a (msg_StreamID m) l)) as [HE1 HE2].
  { unfold E. simpl. split; [|by apply table_store].
    unfold storeServerStream. simpl. destruct (_ !! a); apply alter_snoc. }
  clearbody E. destruct r1 as [cw|er]; cycle 1.
  { injection He as _ <-. exists ss1. rewrite Hss. split_and!; try done; by rewrite HE1, Hss. }
  unfold mbind at 1, M_bind at 1, on_disp at 1 in He.
  pose proof (quiet_encode_and_send opts (init_response m (msg_StreamID m) cw
    (getWindowSize (MaxWindowSize opts))) (world E)) as [Q1 Q2].
  destruct (encode_and_send _ _ (world E)) as [[[er|]|] d2]; simpl in Q1, Q2; [..|done].
  - injection He as _ <-. exists ss1. simpl. rewrite Q1, Q2, HE1, HE2, Hss. by split_and!.
  - destruct sh as [sh|]; [|done]. injection He as _ <-. simpl. rewrite Q1, Q2, HE1, HE2. unfold l.
    eexists. split_and!; [..|apply alter_snoc|done]; by rewrite Hss.
Qed.

Lemma load_eq m (e : env_t) a : peer m = Ok a →
  load m e = (Some (loadServerStream (world e) a (msg_StreamID m)), e).
Proof. intros Hp. unfold load, mbind, M_bind. by rewrite key_of_eq, Hp. Qed.

Lemma load_cases m a (d : disp) :
  (∃ l, loadServerStream d a (msg_StreamID m) = inl l ∧ at_key d a (msg_StreamID m) = Some l) ∨
  (∃ e, loadServerStream d a (msg_StreamID m) = inr e ∧ at_key d a (msg_StreamID m) = None).
Proof.
  destruct (loadServerStream d a (msg_StreamID m)) as [l|e] eqn:E.
  - left. exists l. split; [done|]. by apply at_key_load.
  - right. exists e. split; [done|]. destruct (at_key _ _ _) as [l|] eqn:E2; [|done].
    apply at_key_load in E2. congruence.
Qed.

Lemma fail_streams_eq err (t : gmap Z nat) (d : disp) :
  addrToServerStream (fail_streams err t d) = addrToServerStream d ∧
  sd_world (fail_streams err t d) = sd_world d ∧
  ∀ l, ((∃ id, t !! id = Some l) →
          streams (fail_streams err t d) !! l = fail_stream err <$> streams d !! l) ∧
       ((¬ ∃ id, t !! id = Some l) → streams (fail_streams err t d) !! l = streams d !! l).
Proof.
  unfold fail_streams. apply (map_fold_weak_ind (λ d' t, addrToServerStream d' = addrToServerStream d ∧
    sd_world d' = sd_world d ∧
    ∀ l, ((∃ id, t !! id = Some l) → streams d' !! l = fail_stream err <$> streams d !! l) ∧
         ((¬ ∃ id, t !! id = Some l) → streams d' !! l = streams d !! l))).
  - split_and!; [done..|]. intros l. split; [|done]. intros [id Hid]. by rewrite lookup_empty in Hid.
  - intros id l0 t0 d' Hid (IH1 & IH2 & IH). split_and!; [done..|]. intros l. simpl.
    destruct (decide (l = l0)) as [->|Hl].
    + split; [|intros Hn; destruct Hn; exists id; by rewrite lookup_insert_eq]. intros _.
      rewrite list_lookup_alter_eq. destruct (IH l0) as [H1 H2].
      destruct (decide (map_Exists (λ _ l, l = l0) t0)) as [(id' & l' & Hx & ->)|Hx].
      * rewrite H1 by eauto. by destruct (streams d !! l0).
      * rewrite H2; [done|]. intros [id' Hi]. apply Hx. by exists id', l0.
    + rewrite list_lookup_alter_ne by done. destruct (IH l) as [H1 H2]. split.
      * intros [id' Hi]. apply H1. exists id'. destruct (decide (id' = id)) as [->|];
          [rewrite lookup_insert_eq in Hi; congruence|by rewrite lookup_insert_ne in Hi].
      * intros Hn. apply H2. intros [id' Hi]. apply Hn. exists id'.
        rewrite lookup_insert_ne; [done|]. intros <-. congruence.
Qed.

(** [m] is the message with which the frame came, and that of [e1] has lost the frame head. *)
Record headless (m : msg) (e1 : env_t) : Prop := {
  headless_peer : peer (emsg e1) = peer m;
  headless_id : msg_StreamID (emsg e1) = msg_StreamID m;
  headless_close : close_response (emsg e1) = close_response m
}.

#[local] Opaque init_stream CopyMsg.

Lemma handleInit_eq sh si (e : env_t) :
  handleInit opts (B := B) sh si e = init_stream opts sh si (CopyMsg zero_msg (emsg e)) e.
Proof. reflexivity. Qed.

#[local] Transparent init_stream.

Lemma init_handled sh si m (e1 : env_t) (r : option B * option go_err) e' :
  headless m e1 → handleInit opts sh si e1 = (Some r, e') →
  ∃ a ss, peer m = Ok a ∧ peer (ss_msg ss) = Ok a ∧ ss_streamID ss = msg_StreamID m ∧
    recvQueue ss = [] ∧ done_closed ss = false ∧ ¬ ended ss ∧
    streams (world e') = streams (world e1) ++ [ss] ∧
    addrToServerStream (world e') = addrToServerStream (storeServerStream (world e1) a
      (msg_StreamID m) (length (streams (world e1)))).
Proof.
  intros [Hp1 Hid _] He. destruct (peer_CopyMsg (emsg e1) zero_msg) as [Hp2 Hid2].
  rewrite handleInit_eq in He. set (m2 := CopyMsg zero_msg (emsg e1)) in *. clearbody m2.
  assert (∃ a, peer m2 = Ok a) as [a Ha].
  { unfold init_stream, mbind, M_bind in He. rewrite key_of_eq in He.
    destruct (peer m2) as [a| |]; [by exists a|done..]. }
  destruct (init_stream_effect _ _ _ _ _ _ _ He Ha) as (ss & Hss).
  exists a, ss. rewrite Hid2, Hid in Hss. split; [congruence|]. exact Hss.
Qed.

#[local] Transparent CopyMsg.

Lemma data_handled m req (e1 : env_t) (r : option B * option go_err) e' :
  headless m e1 → handleData (emsg e1) req e1 = (Some r, e') →
  ∃ a, peer m = Ok a ∧ addrToServerStream (world e') = addrToServerStream (world e1) ∧
    streams (world e') = match at_key (world e1) a (msg_StreamID m) with
      | Some l => alter (put (MkResponse req None)) l (streams (world e1))
      | None => streams (world e1)
      end.
Proof.
  intros [Hp1 Hid _] He. unfold handleData in He. unfold mbind at 1, M_bind at 1 in He.
  destruct (peer m) as [a|er|] eqn:Hp; [|unfold load, mbind at 1, M_bind at 1 in He;
    rewrite key_of_eq, Hp1 in He; discriminate He..].
  rewrite (load_eq _ _ a Hp1), Hid in He. exists a. split; [done|].
  destruct (load_cases m a (world e1)) as [(l & E1 & E2)|(er & E1 & E2)];
    rewrite E1 in He; injection He as _ <-; by rewrite E2.
Qed.

Lemma close_handled m (e1 : env_t) (r : option B * option go_err) e' :
  headless m e1 → handleClose (emsg e1) e1 = (Some r, e') →
  ∃ a, peer m = Ok a ∧ addrToServerStream (world e') = addrToServerStream (world e1) ∧
    streams (world e') = match at_key (world e1) a (msg_StreamID m) with
      | Some l => alter (put (close_response m)) l (streams (world e1))
      | None => streams (world e1)
      end.
Proof.
  intros [Hp1 Hid Hc] He. unfold handleClose in He. unfold mbind at 1, M_bind at 1 in He.
  destruct (peer m) as [a|er|] eqn:Hp; [|unfold load, mbind at 1, M_bind at 1 in He;
    rewrite key_of_eq, Hp1 in He; discriminate He..].
  rewrite (load_eq _ _ a Hp1), Hid in He. exists a. split; [done|].
  destruct (load_cases m a (world e1)) as [(l & E1 & E2)|(er & E1 & E2)];
    rewrite E1 in He; rewrite E2; [rewrite Hc in He|]; injection He as _ <-; done.
Qed.

Lemma feedback_handled (e1 : env_t) (r : option B * option go_err) e' :
  handleFeedback (emsg e1) e1 = (Some r, e') →
  same_streams (world e1) (world e') ∨
  addrToServerStream (world e') = addrToServerStream (world e1) ∧
  ∃ l f, streams (world e') = alter (λ s, s <| sControl := f (sControl s) |>) l (streams (world e1)).
Proof.
  intros He. unfold handleFeedback in He. unfold mbind at 1, M_bind at 1 in He.
  destruct (peer (emsg e1)) as [a|er|] eqn:Hp; [|unfold load, mbind at 1, M_bind at 1 in He;
    rewrite key_of_eq, Hp in He; discriminate He..].
  rewrite (load_eq _ _ a Hp) in He.
  destruct (loadServerStream _ _ _) as [l|er]; [|injection He as _ <-; by left].
  destruct (msg_StreamFrame (emsg e1)) as [| | | | | |fb| |]; try (injection He as _ <-; by left).
  injection He as _ <-. right. split; [done|].
  exists l, (fmap (λ c, UpdateWindow c (feedback_WindowSizeIncrement fb))). done.
Qed.

Lemma frame_handled sh si req m t (e1 : env_t) (r : option B * option go_err) e' :
  frame_type m = Some t → headless m e1 →
  handleByStreamFrameType opts t sh si req e1 = (Some r, e') →
  frame_effect m req (world e1) (world e').
Proof.
  intros Hft Hh He. unfold handleByStreamFrameType, mbind, M_bind, gets in He.
  assert (∀ a, peer m = Ok a → opens m = (if (t =? TRPC_STREAM_FRAME_INIT)%Z
    then Some (a, msg_StreamID m) else None) ∧ frame_entry m req =
    if (t =? TRPC_STREAM_FRAME_INIT)%Z then None
    else if (t =? TRPC_STREAM_FRAME_DATA)%Z then Some (a, msg_StreamID m, MkResponse req None)
    else if (t =? TRPC_STREAM_FRAME_CLOSE)%Z then Some (a, msg_StreamID m, close_response m)
    else None) as Hfe.
  { intros a Hp. unfold opens, frame_entry. by rewrite Hft, Hp. }
  assert ((∀ a, peer m ≠ Ok a) → opens m = None ∧ frame_entry m req = None) as Hno.
  { intros Hp. unfold opens, frame_entry. rewrite Hft. destruct (peer m) as [a| |]; [by destruct (Hp a)|done..]. }
  destruct (t =? TRPC_STREAM_FRAME_INIT)%Z.
  { destruct (init_handled _ _ _ _ _ _ Hh He) as (a & ss & Hp & Hss). destruct (Hfe a Hp) as [Ho Hf].
    destruct_and! Hss. by apply (effect_init _ _ _ _ a ss). }
  destruct (t =? TRPC_STREAM_FRAME_DATA)%Z.
  { destruct (data_handled _ _ _ _ _ Hh He) as (a & Hp & H1 & H2). destruct (Hfe a Hp) as [Ho Hf].
    by apply (effect_put _ _ _ _ a (msg_StreamID m) (MkResponse req None)). }
  destruct (t =? TRPC_STREAM_FRAME_CLOSE)%Z.
  { destruct (close_handled _ _ _ _ Hh He) as (a & Hp & H1 & H2). destruct (Hfe a Hp) as [Ho Hf].
    by apply (effect_put _ _ _ _ a (msg_StreamID m) (close_response m)). }
  assert (opens m = None ∧ frame_entry m req = None) as [Ho Hf].
  { destruct (peer m) as [a| |] eqn:Hp; [by apply (Hfe a)|by apply Hno..]. }
  destruct (t =? TRPC_STREAM_FRAME_FEEDBACK)%Z.
  - destruct (feedback_handled _ _ _ He) as [?|(H1 & l & f & H2)]; [by apply effect_none|].
    by apply (effect_feedback _ _ _ _ l f).
  - injection He as _ <-. by apply effect_none.
Qed.

Lemma handleError_effect m req (e : env_t) (r : option B * option go_err) e' :
  frame_type m = None → frame_entry m req = None → opens m = None → ServerRspErr m ≠ None →
  handleError m e = (Some r, e') → frame_effect m req (world e) (world e').
Proof.
  intros Hft Hfe Hop Her He. unfold handleError in He.
  unfold mbind at 1, M_bind at 1 in He. rewrite key_of_eq in He.
  destruct (peer m) as [a|er|] eqn:Hp; [|done..].
  unfold mbind at 1, M_bind at 1, gets at 1 in He.
  destruct (addrToServerStream (world e) !! a) as [t|] eqn:Ht.
  - injection He as _ <-. apply (effect_error _ _ _ _ a t); try done. simpl.
    by destruct (fail_streams_eq (ServerRspErr m) t (world e)) as [-> _].
  - injection He as _ <-. by apply effect_none.
Qed.

Lemma StreamHandleFunc_effect sh si req (e : env_t) (r : option B * option go_err) e' :
  StreamHandleFunc opts sh si req e = (Some r, e') →
  frame_effect (emsg e) (default [] req) (world e) (world e').
Proof.
  intros He. unfold StreamHandleFunc in He. unfold mbind at 1, M_bind at 1, gets at 1 in He.
  set (m := emsg e) in *. destruct (frame_type m) as [t|] eqn:Ht; unfold frame_type in Ht.
  - destruct (msg_FrameHead m) as [|h| | | | | | |] eqn:Hh; try done. injection Ht as <-.
    assert (frame_type m = Some (StreamFrameType h)) as Hft by (unfold frame_type; by rewrite Hh).
    unfold mbind at 1, M_bind at 1, upd_msg, modify at 1 in He.
    set (e1 := e <| emsg := _ |>) in *.
    assert (world e1 = world e ∧ headless m e1) as [Hw Hhl] by done. clearbody e1.
    rewrite <- Hw. exact (frame_handled _ _ _ _ _ _ _ _ Hft Hhl He).
  - assert (frame_type m = None) as Hft.
    { unfold frame_type. by destruct (msg_FrameHead m). }
    assert (frame_entry m (default [] req) = None ∧ opens m = None) as [Hfe Hop]
      by (unfold frame_entry, opens; by rewrite Hft).
    destruct (ServerRspErr m) as [er|] eqn:Her; cycle 1.
    { destruct (msg_FrameHead m); try done; injection He as _ <-; by apply effect_none. }
    assert (handleError m e = (Some r, e')) as He2 by (by destruct (msg_FrameHead m)).
    exact (handleError_effect _ _ _ _ _ Hft Hfe Hop ltac:(congruence) He2).
Qed.
End frames.

(** ** Runs *)

Section runs.
Context {W Q B H : Type} `{PbEnum} `{!Handlers Q B H} `{!Runtime (streamDispatcher W H) Q B}.
Variable opts : StreamOptions W H.
Abbreviation disp := (streamDispatcher W H).
Abbreviation stream_t := (serverStream H).
Abbreviation env_t := (Env disp Q).

(** A run with its history: the DATA and CLOSE frames that came, and for each stream how many of them
    came before it and what its handler has taken from the queue. *)
Record config := MkConfig {
  dispatcher : disp;
  arrived : list entry;
  history : list (nat * list response)
}.

Definition init (w : W) : config := MkConfig (MkDispatcher [] ∅ w) [] [].

(** The history of the streams that a frame adds. *)
Definition newborn (c : config) (d' : disp) : list (nat * list response) :=
  replicate (length (streams d') - length (streams (dispatcher c))) (length (arrived c), []).

(** A frame or a connection error, whatever the message and the rest of its environment hold, or a
    step of the goroutine of a stream. [P] restricts the frames. *)
Inductive step (P : disp → msg → Prop) : config → config → Prop :=
| step_frame c sh si req (e : env_t) (r : option B * option go_err) e' :
    world e = dispatcher c → P (dispatcher c) (emsg e) →
    StreamHandleFunc opts sh si req e = (Some r, e') →
    step P c (MkConfig (world e') (arrived c ++ option_list (frame_entry (emsg e) (default [] req)))
                (history c ++ newborn c (world e')))
| step_routine c l s m u d' :
    streams (dispatcher c) !! l = Some s → routine_step opts l s = Some m →
    m (dispatcher c) = (Some u, d') →
    step P c (MkConfig d' (arrived c) (alter (λ '(b, t), (b, t ++ takes s)) l (history c))).

Definition any : disp → msg → Prop := λ _ _, True.

(** An INIT frame opens a stream that no goroutine works on. *)
Definition unused (d : disp) (m : msg) : Prop :=
  ∀ a id l s, opens m = Some (a, id) → streams d !! l = Some s → peer (ss_msg s) = Ok a →
    ss_streamID s = id → ended s.

Lemma step_any P c c' : step P c c' → step any c c'.
Proof. destruct 1; [by eapply step_frame|by eapply step_routine]. Qed.

Lemma steps_any P c c' : rtc (step P) c c' → rtc (step any) c c'.
Proof. induction 1; [done|]. eapply rtc_l; eauto using step_any. Qed.

(** The frames for the stream [id] of the connection [a]. *)
Definition frames_of (a : string) (id : Z) (l : list entry) : list response :=
  omap (λ '(a', id', resp), if decide (a' = a ∧ id' = id) then Some resp else None) l.

Lemma frames_of_app a id l k : frames_of a id (l ++ k) = frames_of a id l ++ frames_of a id k.
Proof. apply omap_app. Qed.

(** What the stream [s] with the history [b] and [t] has got are the first frames for it since it was
    opened, and all of them while it is in the table. *)
Definition fifo (d : disp) (log : list entry) (l : nat) (s : stream_t) (b : nat) (t : list response) : Prop :=
  ∃ a, peer (ss_msg s) = Ok a ∧ b ≤ length log ∧
    t ++ recvQueue s `prefix_of` frames_of a (ss_streamID s) (drop b log) ∧
    (at_key d a (ss_streamID s) = Some l →
     t ++ recvQueue s = frames_of a (ss_streamID s) (drop b log)).

Definition entry_ok (d : disp) : Prop := ∀ a id l, at_key d a id = Some l →
  ∃ s, streams d !! l = Some s ∧ peer (ss_msg s) = Ok a ∧ ss_streamID s = id.

Record inv (c : config) : Prop := {
  inv_len : length (history c) = length (streams (dispatcher c));
  inv_entry : entry_ok (dispatcher c);
  inv_nonempty : tables_nonempty (dispatcher c);
  inv_fifo : ∀ l s b t, streams (dispatcher c) !! l = Some s → history c !! l = Some (b, t) →
    fifo (dispatcher c) (arrived c) l s b t
}.

(** A write that keeps connection, id and what was got keeps the order. *)
Lemma fifo_keeps d d' log l s s' b t t' :
  same_peer s s' → t ++ recvQueue s = t' ++ recvQueue s' →
  (∀ a, at_key d' a (ss_streamID s) = Some l → at_key d a (ss_streamID s) = Some l) →
  fifo d log l s b t → fifo d' log l s' b t'.
Proof.
  intros [E1 E2] Hq Hk (a & Hp & Hb & Hpre & Heq). exists a. rewrite E1, E2, <- Hq.
  split_and!; try done. intros Ha. apply Heq. by apply Hk.
Qed.

(** More frames: the stream gets the one for it if it is in the table. *)
Lemma fifo_arrives d d' log x l s s' b t :
  same_peer s s' →
  (∀ a, at_key d' a (ss_streamID s) = Some l → at_key d a (ss_streamID s) = Some l) →
  (∀ a, peer (ss_msg s) = Ok a → recvQueue s' = recvQueue s ++
     (if decide (at_key d a (ss_streamID s) = Some l) then frames_of a (ss_streamID s) x else [])) →
  (∀ a, peer (ss_msg s) = Ok a → at_key d a (ss_streamID s) ≠ Some l → at_key d' a (ss_streamID s) ≠ Some l) →
  fifo d log l s b t → fifo d' (log ++ x) l s' b t.
Proof.
  intros [E1 E2] Hk Hq Hn (a & Hp & Hb & Hpre & Heq). exists a. rewrite E1, E2, (Hq a Hp).
  rewrite length_app, drop_app_le, frames_of_app by done. split_and!; [done|lia|..].
  - case_decide as Hd; [rewrite app_assoc, (Heq Hd); done|].
    rewrite app_nil_r. etrans; [exact Hpre|]. by apply prefix_app_r.
  - intros Ha. case_decide as Hd; [by rewrite app_assoc, (Heq Hd)|]. by destruct (Hn a Hp).
Qed.

Lemma at_key_same (d d' : disp) : addrToServerStream d' = addrToServerStream d →
  ∀ a id, at_key d' a id = at_key d a id.
Proof. unfold at_key. by intros ->. Qed.

Lemma entry_ok_keeps (d d' : disp) :
  (∀ a id l, at_key d' a id = Some l → at_key d a id = Some l) →
  (∀ l s, streams d !! l = Some s → ∃ s', streams d' !! l = Some s' ∧ same_peer s s') →
  entry_ok d → entry_ok d'.
Proof.
  intros Hk Hs He a id l Ha. destruct (He a id l (Hk _ _ _ Ha)) as (s & Hl & Hp & Hi).
  destruct (Hs l s Hl) as (s' & Hl' & E1 & E2). exists s'. rewrite E1, E2. done.
Qed.

Lemma tables_same (d d' : disp) : addrToServerStream d' = addrToServerStream d →
  tables_nonempty d → tables_nonempty d'.
Proof. unfold tables_nonempty. by intros ->. Qed.

Lemma routine_inv c l s m u d' :
  streams (dispatcher c) !! l = Some s → routine_step opts l s = Some m →
  m (dispatcher c) = (Some u, d') → inv c →
  inv (MkConfig d' (arrived c) (alter (λ '(b, t), (b, t ++ takes s)) l (history c))).
Proof.
  intros Hl Hstep Hm [Hlen He Hne Hf].
  destruct (routine_step_effect _ _ _ _ _ _ _ Hl Hstep Hm) as (s' & [Hs Hsp Hq _ _] & Ht).
  assert (Hk : ∀ a id l0, at_key d' a id = Some l0 → at_key (dispatcher c) a id = Some l0).
  { intros a id l0. destruct Ht as [[Ht _]|(_ & _ & _ & a0 & _ & Ht)]; rewrite (at_key_same _ _ Ht); [done|].
    rewrite at_key_delete. by case_decide. }
  split; simpl.
  - by rewrite length_alter, Hs, length_insert.
  - eapply entry_ok_keeps; [exact Hk| |exact He]. intros l0 s0 Hl0. rewrite Hs.
    destruct (decide (l0 = l)) as [->|]; [rewrite list_lookup_insert_eq by by eapply lookup_lt_Some|
      rewrite list_lookup_insert_ne by done; exists s0; by split_and!].
    simplify_eq. by exists s'.
  - destruct Ht as [[Ht _]|(_ & _ & _ & a0 & _ & Ht)]; eapply tables_same; try exact Ht; try done.
    by apply delete_nonempty.
  - intros l0 s0 b t. rewrite Hs. destruct (decide (l0 = l)) as [->|Hne0].
    + rewrite list_lookup_insert_eq, list_lookup_alter_eq by (by eapply lookup_lt_Some).
      intros [= <-] Hh. destruct (history c !! l) as [[b0 t0]|] eqn:Hh0; [|done].
      injection Hh as <- <-. eapply fifo_keeps; [exact Hsp| |by intros; eapply Hk|by apply Hf].
      by rewrite Hq, app_assoc.
    + rewrite list_lookup_insert_ne, list_lookup_alter_ne by done. intros Hl0 Hh.
      eapply fifo_keeps; [by split|done|by intros; eapply Hk|by apply Hf].
Qed.

Lemma newborn_nil c (d' : disp) : length (streams d') = length (streams (dispatcher c)) → newborn c d' = [].
Proof. intros E. unfold newborn. by rewrite E, Nat.sub_diag. Qed.

(** A frame that brings no stream anything. *)
Lemma inv_keeps c (d' : disp) :
  length (streams d') = length (streams (dispatcher c)) →
  (∀ l s', streams d' !! l = Some s' → ∃ s, streams (dispatcher c) !! l = Some s ∧
     same_peer s s' ∧ recvQueue s' = recvQueue s) →
  (∀ a id l, at_key d' a id = Some l → at_key (dispatcher c) a id = Some l) →
  tables_nonempty d' → inv c → inv (MkConfig d' (arrived c) (history c)).
Proof.
  intros Hlen' Hs Hk Hn [Hlen He Hne Hf]. split; simpl; [congruence| |done|].
  - eapply entry_ok_keeps; [exact Hk| |exact He]. intros l s Hl.
    destruct (lookup_lt_is_Some_2 (streams d') l) as [s' Hl']; [rewrite Hlen'; by eapply lookup_lt_Some|].
    destruct (Hs l s' Hl') as (s0 & Hl0 & Hsp & _). simplify_eq. by exists s'.
  - intros l s' b t Hl' Hh. destruct (Hs l s' Hl') as (s & Hl & Hsp & Hq).
    eapply fifo_keeps; [exact Hsp|by rewrite Hq|by intros; eapply Hk|by apply Hf].
Qed.

Lemma owner (d : disp) a id l s a' :
  entry_ok d → at_key d a id = Some l → streams d !! l = Some s → peer (ss_msg s) = Ok a' →
  a' = a ∧ ss_streamID s = id.
Proof.
  intros He Hk Hl Hp. destruct (He _ _ _ Hk) as (s0 & Hl0 & Hp0 & Hi0).
  rewrite Hl in Hl0. injection Hl0 as <-. split; congruence.
Qed.

Lemma put_inv m req c (d' : disp) a id resp :
  frame_entry m req = Some (a, id, resp) →
  addrToServerStream d' = addrToServerStream (dispatcher c) →
  streams d' = match at_key (dispatcher c) a id with
               | Some l => alter (put resp) l (streams (dispatcher c))
               | None => streams (dispatcher c)
               end →
  inv c → inv (MkConfig d' (arrived c ++ [(a, id, resp)]) (history c)).
Proof.
  intros Hfe Ht Hs [Hlen He Hne Hf]. set (d := dispatcher c) in *.
  pose proof (at_key_same _ _ Ht) as Hk.
  assert (∀ l s', streams d' !! l = Some s' → ∃ s, streams d !! l = Some s ∧ same_peer s s' ∧
    recvQueue s' = recvQueue s ++ if decide (at_key d a id = Some l) then [resp] else []) as Hs'.
  { intros l s' Hl. rewrite Hs in Hl. destruct (at_key d a id) as [l0|]; cycle 1.
    { exists s'. rewrite decide_False, app_nil_r by done. done. }
    destruct (decide (l = l0)) as [->|].
    - rewrite list_lookup_alter_eq in Hl. destruct (streams d !! l0) as [s|]; [|done]. simplify_eq/=.
      exists s. by rewrite decide_True.
    - rewrite list_lookup_alter_ne in Hl by done. exists s'.
      rewrite decide_False, app_nil_r by congruence. done. }
  split; simpl.
  - rewrite Hlen, Hs. destruct (at_key d a id); [by rewrite length_alter|done].
  - intros a' id' l Ha. rewrite Hk in Ha. destruct (He _ _ _ Ha) as (s & Hl & Hp & Hi).
    destruct (lookup_lt_is_Some_2 (streams d') l) as [s' Hl'].
    { rewrite Hs. destruct (at_key d a id); rewrite ?length_alter; by eapply lookup_lt_Some. }
    destruct (Hs' l s' Hl') as (s0 & Hl0 & [E1 E2] & _). simplify_eq. exists s'. by rewrite E1, E2.
  - by eapply tables_same.
  - intros l s' b t Hl' Hh. destruct (Hs' l s' Hl') as (s & Hl & Hsp & Hq).
    eapply (fifo_arrives d); [exact Hsp|by intros ?; rewrite Hk| |by intros ? _; rewrite Hk|by apply Hf].
    intros a' Hp. rewrite Hq. f_equal. simpl.
    destruct (decide (at_key d a' (ss_streamID s) = Some l)) as [Hat|Hat].
    + case_decide as Hkey; [|rewrite decide_False; [done|intros [-> ->]; done]].
      destruct (owner _ _ _ _ _ _ He Hkey Hl Hp) as [-> ->]. by rewrite decide_True.
    + rewrite decide_False; [done|]. intros Hkey. apply Hat.
      destruct (owner _ _ _ _ _ _ He Hkey Hl Hp) as [<- <-]. done.
Qed.

Lemma stored_inv c (d' : disp) a id (ss : stream_t) :
  peer (ss_msg ss) = Ok a → ss_streamID ss = id → recvQueue ss = [] →
  streams d' = streams (dispatcher c) ++ [ss] →
  addrToServerStream d' =
    addrToServerStream (storeServerStream (dispatcher c) a id (length (streams (dispatcher c)))) →
  inv c → inv (MkConfig d' (arrived c) (history c ++ newborn c d')).
Proof.
  intros Hp Hid Hq Hs Ht [Hlen He Hne Hf]. set (d := dispatcher c) in *.
  assert (newborn c d' = [(length (arrived c), [])]) as ->.
  { unfold newborn. rewrite Hs, length_app. fold d. simpl. by replace (_ + 1 - _) with 1 by lia. }
  assert (Hk : ∀ a' id', at_key d' a' id' =
    if decide (a' = a ∧ id' = id) then Some (length (streams d)) else at_key d a' id').
  { intros. rewrite (at_key_same _ _ Ht). apply at_key_store. }
  split; simpl.
  - rewrite Hs, !length_app. fold d in Hlen. simpl. lia.
  - intros a' id' l. rewrite Hk. case_decide as Hd; [destruct Hd as [-> ->]; intros [= <-]|].
    + exists ss. by rewrite Hs, lookup_app_r, Nat.sub_diag.
    + intros Ha. destruct (He _ _ _ Ha) as (s & Hl & ?). exists s. rewrite Hs.
      by rewrite lookup_app_l by by eapply lookup_lt_Some.
  - eapply tables_same; [exact Ht|]. by apply store_nonempty.
  - intros l s b t Hl Hh. rewrite Hs in Hl. destruct (decide (l = length (streams d))) as [->|Hne0].
    + rewrite lookup_app_r, Nat.sub_diag in Hl by done. injection Hl as <-.
      rewrite lookup_app_r, Hlen, Nat.sub_diag in Hh by (fold d in Hlen; lia). injection Hh as <- <-.
      exists a. by rewrite Hq, drop_ge.
    + assert (l < length (streams d)) as Hlt.
      { apply lookup_lt_Some in Hl. rewrite length_app in Hl. simpl in Hl. lia. }
      rewrite lookup_app_l in Hl by done. rewrite lookup_app_l in Hh by (fold d in Hlen; lia).
      eapply fifo_keeps; [by split|done| |by apply Hf]. intros a'. rewrite Hk. case_decide; [|done].
      by intros [= <-].
Qed.

Lemma frame_inv m req c (d' : disp) :
  frame_effect m req (dispatcher c) d' → inv c →
  inv (MkConfig d' (arrived c ++ option_list (frame_entry m req)) (history c ++ newborn c d')).
Proof.
  intros He Hi. destruct He as [Hfe _ [Hs Ht]|a id resp Hfe _ Ht Hs|a ss Hfe _ Hp Hid Hq _ _ Hs Ht
    |l f Hfe _ Ht Hs|a t Hfe _ _ _ _ Hat Hs Ht]; rewrite Hfe; simpl; rewrite ?app_nil_r.
  - rewrite newborn_nil, app_nil_r by by rewrite Hs. apply inv_keeps; [by rewrite Hs| | | |done].
    + intros l s' Hl. rewrite Hs in Hl. by exists s'.
    + intros a id l. by rewrite (at_key_same _ _ Ht).
    + eapply tables_same; [exact Ht|apply Hi].
  - rewrite newborn_nil, app_nil_r by (rewrite Hs; destruct (at_key _ _ _); by rewrite ?length_alter).
    by eapply put_inv.
  - by eapply stored_inv.
  - rewrite newborn_nil, app_nil_r by by rewrite Hs, length_alter.
    apply inv_keeps; [by rewrite Hs, length_alter| | | |done].
    + intros l0 s' Hl. rewrite Hs in Hl. destruct (decide (l0 = l)) as [->|];
        [rewrite list_lookup_alter_eq in Hl|rewrite list_lookup_alter_ne in Hl by done; by exists s'].
      destruct (streams _ !! l) as [s|]; [|done]. simplify_eq/=. by exists s.
    + intros a id l0. by rewrite (at_key_same _ _ Ht).
    + eapply tables_same; [exact Ht|apply Hi].
  - destruct (fail_streams_eq (ServerRspErr m) t (dispatcher c)) as (_ & _ & Hfs).
    assert (∀ l s', streams d' !! l = Some s' → ∃ s, streams (dispatcher c) !! l = Some s ∧
      same_peer s s' ∧ recvQueue s' = recvQueue s) as Hs'.
    { intros l s' Hl. rewrite Hs in Hl. destruct (Hfs l) as [H1 H2].
      destruct (decide (map_Exists (λ _ l', l' = l) t)) as [(id & l' & Hx & ->)|Hx].
      - rewrite H1 in Hl by eauto. destruct (streams _ !! l) as [s|]; [|done]. simplify_eq/=. by exists s.
      - rewrite H2 in Hl by (intros [id Hid]; apply Hx; by exists id, l). by exists s'. }
    assert (length (streams d') = length (streams (dispatcher c))) as Hlen.
    { rewrite Hs. unfold fail_streams. apply (map_fold_weak_ind (λ d0 _, length (streams d0) = _)); [done|].
      intros ? ? ? ? _ <-. simpl. by rewrite length_alter. }
    rewrite newborn_nil, app_nil_r by done. apply inv_keeps; try done.
    + intros a' id' l. unfold at_key. rewrite Ht. destruct (decide (a' = a)) as [->|];
        [by rewrite lookup_delete_eq|by rewrite lookup_delete_ne].
    + intros a' t'. rewrite Ht. destruct (decide (a' = a)) as [->|];
        [by rewrite lookup_delete_eq|rewrite lookup_delete_ne by done; apply Hi].
Qed.

Lemma step_inv P c c' : step P c c' → inv c → inv c'.
Proof.
  destruct 1 as [c sh si req e r e' Hw _ He|c l s m u d' Hl Hst Hm].
  - apply frame_inv. rewrite <- Hw. by eapply StreamHandleFunc_effect.
  - by eapply routine_inv.
Qed.

Lemma server_inv_init w : inv (init w).
Proof.
  split; simpl; [done|intros ? ? ? Ha|intros ? ? Ht|done].
  - unfold at_key in Ha. simpl in Ha. by rewrite lookup_empty in Ha.
  - simpl in Ht. by rewrite lookup_empty in Ht.
Qed.

Lemma server_reach_inv P w c : rtc (step P) (init w) c → inv c.
Proof.
  intros Hr. pose proof (server_inv_init w) as Hi. revert Hi. induction Hr; eauto using step_inv.
Qed.

(** C5. Streams do not mix: whatever frames come on whatever connections, and however the handlers
    run, what a stream's handler has taken from its queue and what is still there are, in order, the
    first DATA and CLOSE frames that came on its connection with its id since it was opened - and
    every one of them while it is in the dispatcher's table. *)
Theorem streams_fifo (w : W) (c : config) (l : nat) (s : stream_t) (b : nat) (t : list response) :
  rtc (step any) (init w) c →
  streams (dispatcher c) !! l = Some s → history c !! l = Some (b, t) →
  ∃ a, peer (ss_msg s) = Ok a ∧
    t ++ recvQueue s `prefix_of` frames_of a (ss_streamID s) (drop b (arrived c)) ∧
    (at_key (dispatcher c) a (ss_streamID s) = Some l →
     t ++ recvQueue s = frames_of a (ss_streamID s) (drop b (arrived c))).
Proof.
  intros Hr Hl Hh. destruct (inv_fifo _ (server_reach_inv _ _ _ Hr) _ _ _ _ Hl Hh) as (a & ? & _ & ? & ?).
  by exists a.
Qed.

(** *** Connection errors *)

Lemma ended_dec (s : stream_t) : ended s ∨ ¬ ended s.
Proof. unfold ended. destruct (routine s); by (left + right). Qed.

(** While ids are not reused: a stream whose goroutine has not ended is in the table, or it has been
    failed with its connection. *)
Record awake (d : disp) : Prop := {
  awake_alone : ∀ l1 l2 s1 s2, streams d !! l1 = Some s1 → streams d !! l2 = Some s2 →
    ¬ ended s1 → ¬ ended s2 → peer (ss_msg s1) = peer (ss_msg s2) →
    ss_streamID s1 = ss_streamID s2 → l1 = l2;
  awake_known : ∀ l s a, streams d !! l = Some s → ¬ ended s → peer (ss_msg s) = Ok a →
    at_key d a (ss_streamID s) = Some l ∨ (done_closed s = true ∧ ss_err s ≠ None)
}.

(** Steps that only change streams in place. *)
Lemma awake_keeps (d d' : disp) :
  (∀ l s', streams d' !! l = Some s' → ¬ ended s' → ∃ s, streams d !! l = Some s ∧ same_peer s s' ∧
     ¬ ended s ∧ (done_closed s = true → done_closed s' = true) ∧ (ss_err s ≠ None → ss_err s' ≠ None) ∧
     (∀ a, peer (ss_msg s) = Ok a → at_key d a (ss_streamID s) = Some l →
        at_key d' a (ss_streamID s) = Some l ∨ (done_closed s' = true ∧ ss_err s' ≠ None))) →
  awake d → awake d'.
Proof.
  intros Hs [Ha Hk]. split.
  - intros l1 l2 s1 s2 H1 H2 N1 N2 Hp Hi.
    destruct (Hs _ _ H1 N1) as (t1 & G1 & [P1 I1] & M1 & _), (Hs _ _ H2 N2) as (t2 & G2 & [P2 I2] & M2 & _).
    apply (Ha l1 l2 t1 t2); congruence.
  - intros l s' a Hl Hn Hp. destruct (Hs _ _ Hl Hn) as (s & G & [P1 I1] & M1 & Hd & He & Hat).
    rewrite P1 in Hp. rewrite I1. destruct (Hk _ _ _ G M1 Hp) as [Hx|[Hx Hy]]; auto.
Qed.

Lemma routine_awake l s m u (d d' : disp) :
  streams d !! l = Some s → routine_step opts l s = Some m → m d = (Some u, d') → awake d → awake d'.
Proof.
  intros Hl Hstep Hm Hi.
  destruct (routine_step_effect _ _ _ _ _ _ _ Hl Hstep Hm) as (s' & [Hs Hsp _ Hdone Herr] & Ht).
  apply (awake_keeps d); [|done]. intros l0 s0 Hl0 Hn. rewrite Hs in Hl0.
  destruct (decide (l0 = l)) as [->|Hne].
  - rewrite list_lookup_insert_eq in Hl0 by by eapply lookup_lt_Some. injection Hl0 as <-.
    destruct Ht as [(Ht & N1 & N2)|(N2 & _)]; [|done]. exists s. split_and!; try done.
    + destruct Hdone as [->|[? ?]]; done.
    + intros a _ Ha. left. by rewrite (at_key_same _ _ Ht).
  - rewrite list_lookup_insert_ne in Hl0 by done. exists s0. split_and!; try done.
    intros a Hp Ha. left. destruct Ht as [(Ht & _)|(_ & _ & N & a0 & Hp0 & Ht)];
      rewrite (at_key_same _ _ Ht); [done|]. rewrite at_key_delete, decide_False; [done|].
    intros [-> E]. apply Hne. eapply (awake_alone d); eauto. congruence.
Qed.

Lemma frame_awake m req (d d' : disp) :
  frame_effect m req d d' → entry_ok d → unused d m → awake d → awake d'.
Proof.
  intros He Hok Hun Hi. destruct He as [_ _ [Hs Ht]|a id resp _ _ Ht Hs|a ss _ Ho Hp Hid _ Hd Hn Hs Ht
    |l f _ _ Ht Hs|a t _ _ Hp Her _ Hat Hs Ht].
  - apply (awake_keeps d); [|done]. intros l s' Hl Hn. rewrite Hs in Hl. exists s'. split_and!; try done.
    intros a _ Ha. left. by rewrite (at_key_same _ _ Ht).
  - apply (awake_keeps d); [|done]. intros l s' Hl Hn.
    assert (∃ s, streams d !! l = Some s ∧ (s' = s ∨ s' = put resp s)) as (s & Hl' & Hss).
    { rewrite Hs in Hl. destruct (at_key d a id) as [l0|]; [|by eauto].
      destruct (decide (l = l0)) as [->|]; [rewrite list_lookup_alter_eq in Hl|
        rewrite list_lookup_alter_ne in Hl by done; by eauto].
      destruct (streams d !! l0) as [s|]; [|done]. simplify_eq/=. eauto. }
    exists s. destruct Hss as [->| ->]; split_and!; try done; intros a' _ Ha; left;
      by rewrite (at_key_same _ _ Ht).
  - assert (Hk : ∀ a' id', at_key d' a' id' =
      if decide (a' = a ∧ id' = msg_StreamID m) then Some (length (streams d)) else at_key d a' id').
    { intros. rewrite (at_key_same _ _ Ht). apply at_key_store. }
    assert (∀ l s, streams d' !! l = Some s → (l < length (streams d) ∧ streams d !! l = Some s) ∨
      (l = length (streams d) ∧ s = ss)) as Hcases.
    { intros l s Hl. rewrite Hs in Hl. apply lookup_app_Some in Hl as [Hl|[Hge Hl]].
      - left. split; [by eapply lookup_lt_Some|done].
      - right. destruct (l - length (streams d)) as [|n] eqn:E; [|done]. simplify_eq/=. split; [lia|done]. }
    split.
    + intros l1 l2 s1 s2 H1 H2 N1 N2 Hpp Hii.
      destruct (Hcases _ _ H1) as [[L1 G1]|[-> ->]], (Hcases _ _ H2) as [[L2 G2]|[-> ->]]; [..|done].
      * by eapply (awake_alone d).
      * destruct N1. eapply Hun; [exact Ho|exact G1|congruence|congruence].
      * destruct N2. eapply Hun; [exact Ho|exact G2|congruence|congruence].
    + intros l s a' Hl Hns Hps. rewrite Hk. destruct (Hcases _ _ Hl) as [[L G]|[-> ->]].
      * rewrite decide_False; [by eapply (awake_known d)|]. intros [-> E].
        apply Hns. eapply Hun; [exact Ho|exact G|done|done].
      * left. rewrite decide_True; [done|]. split; [congruence|done].
  - apply (awake_keeps d); [|done]. intros l0 s' Hl Hn. rewrite Hs in Hl.
    assert (∃ s, streams d !! l0 = Some s ∧ same_peer s s' ∧ routine s' = routine s ∧
      done_closed s' = done_closed s ∧ ss_err s' = ss_err s) as (s & Hl' & Hsp & Hr & Hd & He).
    { destruct (decide (l0 = l)) as [->|]; [rewrite list_lookup_alter_eq in Hl|
        rewrite list_lookup_alter_ne in Hl by done; by exists s'].
      destruct (streams d !! l) as [s|]; [|done]. simplify_eq/=. by exists s. }
    exists s. unfold ended in *. rewrite Hd, He, <- Hr. split_and!; try done.
    intros a _ Ha. left. by rewrite (at_key_same _ _ Ht).
  - destruct (fail_streams_eq (ServerRspErr m) t d) as (_ & _ & Hfs).
    apply (awake_keeps d); [|done]. intros l s' Hl Hn. rewrite Hs in Hl. destruct (Hfs l) as [H1 H2].
    destruct (decide (map_Exists (λ _ l', l' = l) t)) as [(id & l' & Hx & ->)|Hx].
    + rewrite H1 in Hl by eauto. destruct (streams d !! l) as [s|] eqn:Hl'; [|done]. simplify_eq/=.
      exists s. split_and!; try done. intros a' _ _. by right.
    + rewrite H2 in Hl by (intros [id Hid]; apply Hx; by exists id, l). exists s'. split_and!; try done.
      intros a' Hp' Ha. left. unfold at_key in *. rewrite Ht. destruct (decide (a' = a)) as [->|];
        [|by rewrite lookup_delete_ne].
      rewrite Hat in Ha. simpl in Ha. destruct Hx. by exists (ss_streamID s'), l.
Qed.

Lemma reach_awake w c : rtc (step unused) (init w) c → awake (dispatcher c).
Proof.
  intros Hr. cut (inv c ∧ awake (dispatcher c)); [by intros [_ ?]|].
  assert (inv (init w) ∧ awake (dispatcher (init w))) as Hi.
  { split; [apply server_inv_init|]. by split. }
  revert Hi. induction Hr as [|c1 c2 c3 Hs _ IH]; [done|]. intros [Hi Ha]. apply IH.
  split; [by eapply step_inv|]. destruct Hs as [c sh si req e r e' Hw Hun He|c l s m u d' Hl Hst Hm].
  - apply StreamHandleFunc_effect in He. rewrite Hw in He. eapply frame_awake; [exact He|apply Hi|done..].
  - simpl. by eapply routine_awake.
Qed.

(** The goroutine of the stream waits. *)
Definition blocked (l : nat) (s : stream_t) : Prop :=
  routine s ≠ NotStarted ∧ ¬ ended s ∧ routine_step opts (Q := Q) (B := B) l s = None.

Lemma done_not_blocked l s : done_closed s = true → ¬ blocked l s.
Proof.
  intros Hd (Hn & He & Hr). unfold routine_step, ended in *. destruct (routine s); try done.
  - destruct (act h); try done. unfold recvQueue_Get in Hr. rewrite Hd in Hr. by destruct (recvQueue s).
  - destruct (sControl s) as [c|]; [|done]. unfold GetWindow in Hr. rewrite Hd in Hr.
    by destruct (available c).
Qed.

(** A failed stream stays so. *)
Definition failed (s : stream_t) : Prop := ended s ∨ (done_closed s = true ∧ ss_err s ≠ None).

Lemma step_failed P c c' l s : step P c c' → inv c →
  streams (dispatcher c) !! l = Some s → failed s →
  ∃ s', streams (dispatcher c') !! l = Some s' ∧ failed s'.
Proof.
  intros Hst Hi Hl Hf. destruct Hst as [c sh si req e r e' Hw _ He|c l0 s0 m u d' Hl0 Hst Hm]; simpl.
  - apply StreamHandleFunc_effect in He. rewrite Hw in He. set (d := dispatcher c) in *.
    destruct He as [_ _ [Hs Ht]|a id resp _ _ Ht Hs|a ss _ _ _ _ _ _ _ Hs Ht|l0 f _ _ Ht Hs|a t _ _ Hp Her _ Hat Hs Ht];
      rewrite Hs.
    + by exists s.
    + destruct (at_key _ a id) as [l0|]; [|by exists s]. destruct (decide (l = l0)) as [->|].
      * rewrite list_lookup_alter_eq, Hl. by exists (put resp s).
      * rewrite list_lookup_alter_ne by done. by exists s.
    + exists s. by rewrite lookup_app_l by by eapply lookup_lt_Some.
    + destruct (decide (l = l0)) as [->|].
      * rewrite list_lookup_alter_eq, Hl. by eexists.
      * rewrite list_lookup_alter_ne by done. by exists s.
    + destruct (fail_streams_eq (ServerRspErr (emsg e)) t d) as (_ & _ & Hfs).
      destruct (Hfs l) as [H1 H2]. destruct (decide (map_Exists (λ _ l', l' = l) t)) as [(id & l' & Hx & ->)|Hx].
      * rewrite H1, Hl by eauto. eexists. split; [done|]. by right.
      * rewrite H2; [by exists s|]. intros [id Hid]; apply Hx; by exists id, l.
  - destruct (routine_step_effect _ _ _ _ _ _ _ Hl0 Hst Hm) as (s' & [Hs _ _ Hdone Herr] & Ht). rewrite Hs.
    destruct (decide (l = l0)) as [->|]; [|rewrite list_lookup_insert_ne by done; by exists s].
    simplify_eq. exists s'. rewrite list_lookup_insert_eq by by eapply lookup_lt_Some. split; [done|].
    destruct Hf as [Hf|[Hd He]]; [destruct Ht as [(_ & N & _)|(_ & _ & N & _)]; done|].
    right. split; [destruct Hdone as [->|[? ?]]; done|auto].
Qed.

Lemma steps_failed P c c' l s : rtc (step P) c c' → inv c →
  streams (dispatcher c) !! l = Some s → failed s →
  ∃ s', streams (dispatcher c') !! l = Some s' ∧ failed s'.
Proof.
  intros Hr. revert s. induction Hr as [c|c1 c2 c3 Hs _ IH]; intros s Hi Hl Hf; [by exists s|].
  destruct (step_failed _ _ _ _ _ Hs Hi Hl Hf) as (s2 & Hl2 & Hf2).
  eapply IH; eauto using step_inv.
Qed.

(** C6. A broken connection wakes all of its handlers up: if clients do not open a stream under an id
    that is still in use, then after [handleError] - whatever happens later - the goroutine of a
    stream of the connection never waits for data or for the window again, and until it ends
    [SendMsg] fails at once. *)
Theorem connection_error_wakes (w : W) (c : config) (e : env_t) (err : option B * option go_err)
    (e' : env_t) (a : string) (l : nat) (s : stream_t) (c' : config) :
  rtc (step unused) (init w) c → world e = dispatcher c →
  frame_type (emsg e) = None → ServerRspErr (emsg e) ≠ None → peer (emsg e) = Ok a →
  StreamHandleFunc opts None None None e = (Some err, e') →
  streams (world e') !! l = Some s → peer (ss_msg s) = Ok a →
  rtc (step any) (MkConfig (world e') (arrived c) (history c)) c' →
  ∃ s', streams (dispatcher c') !! l = Some s' ∧ ¬ blocked l s' ∧
    (ended s' ∨ ∀ m d, ∃ e, SendMsg_body opts (B := B) s' m d = (Some (inr (Some e)), d)).
Proof.
  intros Hr Hw Ht Her Hp He Hl Hps Hr'. pose proof (server_reach_inv _ _ _ (steps_any _ _ _ Hr)) as Hi.
  pose proof (reach_awake _ _ Hr) as Ha.
  pose proof (StreamHandleFunc_effect _ _ _ _ _ _ _ He) as Hf.
  assert (frame_entry (emsg e) [] = None ∧ opens (emsg e) = None) as [Hfe Ho].
  { unfold frame_entry, opens. by rewrite Ht. }
  assert (awake (world e')) as Ha'.
  { eapply frame_awake; [exact Hf|rewrite Hw; apply Hi| |by rewrite Hw].
    intros a0 id l0 s0. by rewrite Ho. }
  assert (inv (MkConfig (world e') (arrived c) (history c))) as Hi'.
  { rewrite Hw in Hf. pose proof (frame_inv _ _ _ _ Hf Hi) as Hi'. simpl in Hi'.
    rewrite Hfe, newborn_nil in Hi'; [by rewrite !app_nil_r in Hi'|].
    pose proof (inv_len _ Hi') as Hlen. pose proof (inv_len _ Hi) as Hlen0. simpl in Hlen.
    destruct Hf as [_ _ [Hs _]|? ? ? _ _ _ Hs|? ? _ Ho' _ _ _ _ _ _ _|? ? _ _ _ Hs|? ? _ _ _ _ _ _ Hs _];
      rewrite ?Hs; try done.
    - destruct (at_key _ _ _); by rewrite ?length_alter.
    - by rewrite Ho in Ho'.
    - by rewrite length_alter.
    - unfold fail_streams. apply (map_fold_weak_ind (λ d0 _, length (streams d0) = _)); [done|].
      intros ? ? ? ? _ <-. simpl. by rewrite length_alter. }
  assert (at_key (world e') a (ss_streamID s) = None) as Hno.
  { unfold StreamHandleFunc, mbind, M_bind, gets in He. simpl in He.
    assert (handleError (B := B) (emsg e) e = (Some err, e')) as Hh.
    { unfold frame_type in Ht. destruct (msg_FrameHead (emsg e)); try done;
        destruct (ServerRspErr (emsg e)); done. }
    unfold handleError, mbind, M_bind, gets in Hh. rewrite key_of_eq, Hp in Hh.
    unfold at_key. destruct (addrToServerStream (world e) !! a) as [t|] eqn:Hta; injection Hh as _ <-.
    - simpl. destruct (fail_streams_eq (ServerRspErr (emsg e)) t (world e)) as [-> _].
      by rewrite lookup_delete_eq.
    - by rewrite Hta. }
  assert (failed s) as Hfs.
  { destruct (ended_dec s) as [?|Hn]; [by left|]. right.
    destruct (awake_known _ Ha' _ _ _ Hl Hn Hps) as [Hx|Hx]; [congruence|done]. }
  destruct (steps_failed _ _ _ _ _ Hr' Hi' Hl Hfs) as (s' & Hl' & Hf'). exists s'.
  split; [done|]. destruct Hf' as [Hn|[Hd Hne]].
  - split; [|by left]. by intros (_ & ? & _).
  - split; [by apply done_not_blocked|]. right. intros m d. unfold SendMsg_body.
    destruct (ss_err s') as [e0|]; [|done]. by eexists.
Qed.
End runs.

(** ** What goes wrong

    [handleInit] puts the stream into the table before it knows whether the stream can be set up, and a
    failure leaves it there without a goroutine that would take it out. *)


Module StreamServerExamples.
Import Sample.

(** A handler that sends back what it receives, until it receives an error. *)
Inductive echo := Wait | Back (q : bytes) | Stop.

#[local] Instance echo_handlers : Handlers bytes bytes echo := λ h,
  match h with
  | Wait => Recv [] (λ q err, match err with None => Back q | Some _ => Stop end)
  | Back q => Send (Some q) (λ err, match err with None => Wait | Some _ => Stop end)
  | Stop => Return None
  end.

#[local] Instance runtime : Runtime (streamDispatcher (list bytes) echo) bytes bytes := {|
  is_pointer := λ _, true;
  is_nil := λ _, false;
  AssignableTo := λ _ _, true;
  type_name := λ _, "*[]uint8";
  now := λ _, 0%Z;
  compressors := ∅;
  serializers := {[0%Z := MkSerializer (λ b _, (b, Ok ())) Ok]}
|}.

(** A codec without a head, and a transport that keeps what it is given. *)
Definition sopts : StreamOptions (list bytes) echo :=
  MkStreamOptions (-1) (-1) 0
    (MkCodec (λ w m b, (Ok b, m, w)) (λ w m b, (Ok b, m, w)))
    (λ w m b, (None, w ++ [b])) [].

Definition host : option Addr := Some (MkAddr "tcp" "h").
Definition frame (t : Z) (f : iface) : msg :=
  zero_msg <| frameHead := IFrameHead (newFrameHead t 100) |> <| streamID := 100%Z |>
    <| localAddr := host |> <| remoteAddr := host |> <| streamFrame := f |>.
Definition INIT : msg := frame 1 (IInit (zero_init <| init_InitWindowSize := 65535%Z |>)).
Definition DATA : msg := frame 2 INil.
Definition broken : msg :=
  zero_msg <| localAddr := host |> <| remoteAddr := host |>
    <| serverRspErr := Some (NewFrameError 141 "connection reset") |>.

Definition arrives (m : msg) (req : bytes) (d : streamDispatcher (list bytes) echo) :=
  (StreamHandleFunc sopts (B := bytes) (Some Wait) None (Some req) (MkEnv (Q := bytes) ∅ m d None)).2.

Definition d0 : streamDispatcher (list bytes) echo := MkDispatcher [] ∅ [].
Definition d1 := world (arrives INIT [] d0).
Definition d2 := world (arrives DATA (str_bytes "ab") d1).
Definition runs_on (l : nat) (d : streamDispatcher (list bytes) echo) :=
  match streams d !! l with
  | Some s => match routine_step sopts l s with Some m => (m d).2 | None => d end
  | None => d
  end.
Definition d3 := runs_on 0 d2.

(** The stream that was opened first. *)
Definition first (d : streamDispatcher (list bytes) echo) : serverStream echo :=
  default (newServerStream INIT 0) (streams d !! 0).

Definition got : response := MkResponse (str_bytes "ab") None.
Definition c0 := init (H := echo) ([] : list bytes).
Definition c1 := MkConfig d1 [] [(0, [])].
Definition c2 := MkConfig d2 [("tcp_h_h", 100%Z, got)] [(0, [])].
Definition c3 := MkConfig d3 [("tcp_h_h", 100%Z, got)] [(0, [got])].

Abbreviation step_any := (step (Q := bytes) (B := bytes) sopts any).

Lemma frame_step (P : streamDispatcher (list bytes) echo → msg → Prop) (c : config) m req r c' :
  P (dispatcher c) m →
  StreamHandleFunc sopts (B := bytes) (Some Wait) None (Some req) (MkEnv (Q := bytes) ∅ m (dispatcher c) None) =
    (Some r, arrives m req (dispatcher c)) →
  c' = MkConfig (world (arrives m req (dispatcher c))) (arrived c ++ option_list (frame_entry m req))
         (history c ++ newborn c (world (arrives m req (dispatcher c)))) →
  step (Q := bytes) (B := bytes) sopts P c c'.
Proof. intros HP He ->. by apply (step_frame sopts P c (Some Wait) None (Some req) (MkEnv ∅ m (dispatcher c) None) r (arrives m req (dispatcher c))). Defined.

Ltac go_eval := vm_compute; reflexivity.

Lemma run1 (P : streamDispatcher (list bytes) echo → msg → Prop) :
  P d0 INIT → step (Q := bytes) (B := bytes) sopts P c0 c1.
Proof. intros HP. apply (frame_step P c0 INIT [] no_response); [exact HP|go_eval|go_eval]. Defined.

Lemma run2 : step_any c1 c2.
Proof. apply (frame_step any c1 DATA (str_bytes "ab") no_response); [exact I|go_eval|go_eval]. Defined.

Lemma run_step (P : streamDispatcher (list bytes) echo → msg → Prop) (c : config) l s c' :
  streams (dispatcher c) !! l = Some s →
  (routine_step sopts (Q := bytes) (B := bytes) l s ≫= λ m, (m (dispatcher c)).1) = Some () →
  c' = MkConfig (runs_on l (dispatcher c)) (arrived c)
         (alter (λ '(b, t), (b, t ++ takes (Q := bytes) (B := bytes) s)) l (history c)) →
  step (Q := bytes) (B := bytes) sopts P c c'.
Proof.
  intros Hl Hm ->. unfold runs_on. rewrite Hl.
  destruct (routine_step sopts l s) as [m|] eqn:E; [|done]. simpl in Hm.
  destruct (m (dispatcher c)) as [u d'] eqn:Ed. simpl in Hm. subst u.
  by eapply step_routine.
Defined.

Lemma run3 : step_any c2 c3.
Proof.
  apply (run_step any c2 0 (first d2)); go_eval.
Defined.

(** A stream has got a message. *)
Lemma streams_fifo_witness :
  let s := first d3 in
  [got] ++ recvQueue s = frames_of "tcp_h_h" (ss_streamID s) (drop 0 (arrived c3)).
Proof.
  assert (rtc step_any c0 c3) as Hr.
  { eapply rtc_l; [exact (run1 any I)|]. eapply rtc_l; [exact run2|]. apply rtc_once. exact run3. }
  destruct (streams_fifo sopts [] c3 0 (first d3) 0 [got] Hr
    ltac:(go_eval) ltac:(go_eval)) as (a & Hp & _ & Heq).
  assert (a = "tcp_h_h") as -> by (vm_compute in Hp; congruence). apply Heq. go_eval.
Defined.

(** Its handler waits for the next one when the connection breaks. *)
Definition e_broken : Env (streamDispatcher (list bytes) echo) bytes := MkEnv ∅ broken d1 None.
Definition d_broken : streamDispatcher (list bytes) echo :=
  world (StreamHandleFunc sopts (B := bytes) None None None e_broken).2.
Definition e_after : Env (streamDispatcher (list bytes) echo) bytes := MkEnv ∅ broken d_broken None.
Definition c_after : config := MkConfig (world e_after) (arrived c1) (history c1).

Lemma connection_error_wakes_witness :
  (∃ s, streams d1 !! 0 = Some s ∧ blocked sopts (Q := bytes) (B := bytes) 0 s) ∧
  ∃ s, streams (dispatcher c_after) !! 0 = Some s ∧ ¬ blocked sopts (Q := bytes) (B := bytes) 0 s.
Proof.
  split.
  - exists (first d1). split; [go_eval|]. split_and!; [vm_compute; discriminate..|go_eval].
  - assert (rtc (step (Q := bytes) (B := bytes) sopts unused) c0 c1) as Hr.
    { apply rtc_once, run1. intros a id l s _ Hl. discriminate Hl. }
    assert (StreamHandleFunc sopts None None None e_broken =
      (Some (no_response (B := bytes)), e_after)) as He by go_eval.
    assert (world e_broken = dispatcher c1) as Hw by go_eval.
    assert (frame_type (emsg e_broken) = None) as Ht by go_eval.
    assert (ServerRspErr (emsg e_broken) ≠ None) as Her by discriminate.
    assert (peer (emsg e_broken) = Ok "tcp_h_h") as Hp by go_eval.
    assert (streams (world e_after) !! 0 = Some (first d_broken)) as Hl by go_eval.
    assert (peer (ss_msg (first d_broken)) = Ok "tcp_h_h") as Hps by go_eval.
    destruct (connection_error_wakes sopts [] c1 e_broken no_response e_after "tcp_h_h" 0
      (first d_broken) c_after Hr Hw Ht Her Hp He Hl Hps
      (rtc_refl _ _)) as (s & Hs & Hb & _).
    exists s. split; [exact Hs|exact Hb].
Defined.

(** A second INIT frame with the same id takes the place of the first stream in the table: nothing
    wakes the handler of the first stream up when the connection breaks. *)
Definition d_twice := world (arrives INIT [] d1).
Definition c_twice := MkConfig d_twice [] [(0, []); (0, [])].

Lemma duplicate_init_blocks :
  rtc step_any c0 c_twice ∧
  ∃ s, streams (world (StreamHandleFunc sopts (B := bytes) None None None (MkEnv (Q := bytes) ∅ broken d_twice None)).2)
         !! 0 = Some s ∧ blocked sopts (Q := bytes) (B := bytes) 0 s.
Proof.
  split.
  - eapply rtc_l; [exact (run1 any I)|]. apply rtc_once.
    apply (frame_step any c1 INIT [] no_response); [exact I|go_eval|go_eval].
  - exists (first d_twice). split; [go_eval|]. split_and!; [vm_compute; discriminate..|go_eval].
Qed.

(** If the INIT response cannot be sent, the stream stays in the table without a goroutine. *)
Definition no_transport : StreamOptions (list bytes) echo :=
  MkStreamOptions (-1) (-1) 0 (so_Codec sopts) (λ w m b, (Some (Plain "broken pipe"), w)) [].

Lemma handleInit_leaks :
  let r := handleInit no_transport (B := bytes) (Some Wait) None (MkEnv (Q := bytes) ∅ INIT d0 None) in
  r.1 = Some (fails (Plain "broken pipe")) ∧ at_key (world r.2) "tcp_h_h" 100 = Some 0 ∧
  routine <$> (streams (world r.2) !! 0) = Some NotStarted.
Proof. cbv zeta. split_and!; vm_compute; reflexivity. Qed.
End StreamServerExamples.
