(* ===== verification/StreamClient.v ===== *)
(** Streams at the client (stream/client.go, client/stream.go): opening a stream, its API, and the
    goroutines that dispatch the frames it receives and that wait for the end of its context.

    A stream keeps the environment of Client.v, with the message of its context; an operation runs on
    a clone of that message.  What the transport gives to [Recv] is an argument, so that it may come at
    any time.  User code is a state of type [H], as for the handlers of StreamServer.v; any number of
    goroutines use a stream.  A step of a goroutine runs from one place where it can block, or where another
    goroutine of the stream must be seen, to the next; so a feedback is sent within the step of [recv].
    Flow controls that the options bring and stream filters of users are left out: a stream makes its own
    controls. *)

From S2P Require Import Prelude GoStrings FlowControl Pb Errs Frame Msg StreamCodec UnaryCodec Service Naming.
From S2P Require Import ClientTransport ClientOptions Client ClientRpc StreamServer.

Definition frameHeadInvalid : string := "frameHead is invalid".

(** [transport.ClientStreamTransport], but for [Recv]; the message is that of the context. *)
Record ClientStreamTransport (W P MP FB : Type) := MkStreamTransport {
  st_Init : W → msg → list (RoundTripOption P MP FB) → option go_err * msg * W;
  st_Send : W → msg → bytes → option go_err * W;
  st_Close : W → msg → W
}.
Arguments MkStreamTransport {W P MP FB}.
Arguments st_Init {W P MP FB}.
Arguments st_Send {W P MP FB}.
Arguments st_Close {W P MP FB}.

(** What the user does next: return, [SendMsg], [RecvMsg] into a value, or [CloseSend]. *)
Inductive user_action (Req Rsp H : Type) :=
| UReturn
| USend (m : option Req) (k : option go_err → H)
| URecv (m : option Rsp) (k : option Rsp → option go_err → H)
| UCloseSend (k : option go_err → H).
Arguments UReturn {Req Rsp H}.
Arguments USend {Req Rsp H}.
Arguments URecv {Req Rsp H}.
Arguments UCloseSend {Req Rsp H}.

Class Users (Req Rsp H : Type) := user_act : H → user_action Req Rsp H.

(** A goroutine of the user: running, in [GetWindow] with the message to send, in the second [recv] of
    [RecvMsg], and ended. *)
Inductive user (Req Rsp H : Type) :=
| URunning (h : H)
| UGetWindow (newMsg : msg) (body : bytes) (k : option go_err → H)
| UAgain (m : option Rsp) (k : option Rsp → option go_err → H)
| UEnded.
Arguments URunning {Req Rsp H}.
Arguments UGetWindow {Req Rsp H}.
Arguments UAgain {Req Rsp H}.
Arguments UEnded {Req Rsp H}.

(** What the dispatcher puts into the queue. *)
Record received_msg := MkReceived { r_data : bytes; r_err : option go_err }.

(** The dispatch goroutine: not started, in its loop, before [Close] and before [close] in its
    deferred function, ended; and that of [monitorContextCancellation]. *)
Inductive dispatching := DNone | DLoop | DDeferred | DClosing | DEnded.
Inductive monitoring := MNone | MSelect | MClosing | MEnded.

(** [recvQueue] is the queue of Queue.v; its done channel is that of the context, which has ended when
    [ctx_err] is set.  [closed] is the flag and the channel [closeCh] that [close] sets and closes. *)
Record clientStream (E O : Type) := MkClientStream {
  cs_env : E;
  cs_opts : O;
  cs_method : string;
  cs_streamID : Z;
  ServerStreams : bool;
  cs_queue : list received_msg;
  ctx_err : option CtxErr;
  cs_closed : bool;
  cs_RControl : option receiveControl;
  cs_SControl : option sendControl;
  cs_dispatch : dispatching;
  cs_monitor : monitoring
}.
Arguments MkClientStream {E O}.
Arguments cs_env {E O}.
Arguments cs_opts {E O}.
Arguments cs_method {E O}.
Arguments cs_streamID {E O}.
Arguments ServerStreams {E O}.
Arguments cs_queue {E O}.
Arguments ctx_err {E O}.
Arguments cs_closed {E O}.
Arguments cs_RControl {E O}.
Arguments cs_SControl {E O}.
Arguments cs_dispatch {E O}.
Arguments cs_monitor {E O}.
#[global] Instance eta_clientStream {E O} : Eta (clientStream E O) := λ s,
  MkClientStream (cs_env s) (cs_opts s) (cs_method s) (cs_streamID s) (ServerStreams s) (cs_queue s)
    (ctx_err s) (cs_closed s) (cs_RControl s) (cs_SControl s) (cs_dispatch s) (cs_monitor s).

Section stream_client.
Context {CB W F SF T P MP FB Req Rsp : Type} `{!PbEnum} `{!Plugins CB W F SF T P MP FB}
        `{!ClientRuntime CB W Req Rsp}.
Variable st : ClientStreamTransport W P MP FB.

Abbreviation options_t := (Options CB W F SF T P MP FB).
Abbreviation env_t := (CallEnv CB W F SF T P MP FB).
Abbreviation MC := (M env_t).
Abbreviation stream_t := (clientStream env_t options_t).
Abbreviation MS := (M stream_t).

(** ** The stream of package client (client/stream.go) *)

Definition Close_transport : MC () := m ← gets c_msg; in_world (λ w, (Some (), st_Close st w m)).

(** The deferred function of [Send] and [Recv]: an error closes the transport of the stream. *)
Definition close_on_error {A} (r : A + go_err) : MC (A + go_err) :=
  match r with inr e => _ ← Close_transport; mret (inr e) | inl x => mret (inl x) end.

(** [Send] up to the flow control of the sender, and from there on. *)
Definition Send_body (o : options_t) (m : option Req) : MC (bytes + go_err) :=
  r ← serializeAndCompress (Rsp:=Rsp) m o; close_on_error r.

Definition Send_encoded (o : options_t) (reqBodyBuf : bytes) : MC (option go_err) :=
  match Codec o with
  | None => panic
  | Some codec =>
    r ← call_codec (codec_Encode codec) reqBodyBuf;
    r ← stage RetClientEncodeFail "client codec Encode: " r;
    r ← match r with
        | inr e => mret (Some e)
        | inl reqBuf => m ← gets c_msg; in_world (λ w, let '(r, w) := st_Send st w m reqBuf in (Some r, w))
        end;
    match r with
    | Some e => _ ← Close_transport; mret (Some e)
    | None => mret None
    end
  end.

(** [Send] without a message. *)
Definition Send_nil (o : options_t) : MC (option go_err) :=
  r ← Send_body o None;
  match r with inr e => mret (Some e) | inl body => Send_encoded o body end.

(** [Recv] of what the transport gives. *)
Definition stream_Recv (o : options_t) (r : bytes + go_err) : MC (bytes + go_err) :=
  match r with
  | inr e => close_on_error (inr e)
  | inl rspBuf =>
    match Codec o with
    | None => panic
    | Some codec =>
      r ← call_codec (codec_Decode codec) rspBuf;
      r ← stage RetClientDecodeFail "client codec Decode: " r;
      match r with
      | inr e => close_on_error (inr e)
      | inl rspBodyBuf =>
        m ← gets c_msg;
        match msg_ClientRspErr m with
        | Some e => close_on_error (inr (Own e))
        | None =>
          let compressType := current IsValidCompressType (CurrentCompressType o) (msg_CompressType m) in
          if (0 <? zlen rspBodyBuf)%Z && (IsValidCompressType compressType && negb (compressType =? CompressTypeNoop)%Z)
          then r ← stage RetClientDecodeFail "client codec Decompress: "
                     (Decompress c_compressors compressType rspBodyBuf);
               close_on_error r
          else mret (inl rspBodyBuf)
        end
      end
    end
  end.

(** What the stream takes from its node. *)
Definition stream_node (node : Naming.Node CB) (a : nat) : MC () :=
  o ← read_opts a;
  _ ← on_msg (ensureMsgRemoteAddr (findFirstNonEmpty [n_Network node; Network o])
                (n_Address node) (n_ParseAddr node));
  modify (set_node node (n_Address node) (-1) o).

(** [Init]: the address of the options of the stream. *)
Definition stream_Init (streamSelectorFilter : SF) (options : gmap string optionsWithFallback) (ctx : ClientContext)
    (opt : list (Option CB W F SF T P MP FB)) : MC (nat + go_err) :=
  m ← gets c_msg;
  match client_getOptions options m opt with
  | inr e => mret (inr e)
  | inl opts =>
    let '(m, opts) := updateMsg m opts in
    _ ← on_msg (λ _, m);
    a ← alloc opts;
    r ← (if EnableStreamSelectInFilter opts
         then _ ← upd_opts a (λ o : options_t, o <| ClientOptions.StreamFilters := ClientOptions.StreamFilters o ++ [streamSelectorFilter] |>); mret (inl ())
         else
           node ← selectNode ctx a;
           match node with
           | inr e => mret (inr e)
           | inl node =>
             _ ← stream_node node a;
             mret (inl ())
           end);
    match r with
    | inr e => mret (inr e)
    | inl _ =>
      o ← read_opts a;
      match Codec o with
      | None => frame_error RetClientEncodeFail "client: codec empty"
      | Some _ => _ ← upd_opts a (add_call WithMsg); mret (inl a)
      end
    end
  end.

(** [Invoke] *)
Definition stream_Invoke (o : options_t) : MC (option go_err) :=
  in_call (λ '(m, w), let '(r, m, w) := st_Init st w m (CallOptions o) in (Some r, (m, w))).

(** ** A client stream (stream/client.go) *)

(** A computation on the message of the stream's context. *)
Definition on_context {A} (k : MC A) : MS A := λ s,
  let '(r, e) := k (cs_env s) in (r, s <| cs_env := e |>).

(** A computation on a clone of it. *)
Definition on_clone {A} (m : msg) (k : MC A) : MS A := λ s,
  let '(r, e) := k (cs_env s <| c_msg := m |>) in
  (r, s <| cs_env := e <| c_msg := c_msg (cs_env s) |> |>).

Definition context_msg (s : stream_t) : msg := c_msg (cs_env s).

(** A clone with the head of a frame of type [t]. *)
Definition frame_msg (s : stream_t) (t : Z) : msg :=
  WithStreamID (WithFrameHead (clone (context_msg s)) (IFrameHead (newFrameHead t (cs_streamID s)))) (cs_streamID s).

Definition data_msg (s : stream_t) : msg :=
  Msg.WithCompressType (WithClientRPCName (frame_msg s TRPC_STREAM_FRAME_DATA) (cs_method s))
    (msg_CompressType (context_msg s)).

Definition send_nil (m : msg) : MS (option go_err) :=
  o ← gets cs_opts; on_clone m (Send_nil o).

Definition feedback (i : Z) : MS (option go_err) := λ s,
  send_nil (WithStreamFrame (WithClientRPCName (frame_msg s TRPC_STREAM_FRAME_FEEDBACK) (cs_method s))
              (IFeedback (MkFeedback i))) s.

Definition CloseSend : MS (option go_err) := λ s,
  send_nil (WithStreamFrame (frame_msg s TRPC_STREAM_FRAME_CLOSE)
              (IClose (zero_close <| close_CloseType := i32 TRPC_STREAM_CLOSE |> <| close_Ret := 0%Z |>))) s.

Definition recvFlowCtl (n : Z) : MS (option go_err) :=
  s ← gets (λ s, s);
  match cs_RControl s with
  | None => mret None
  | Some r =>
    if cs_closed s then mret None else
    let '(r, increment) := OnRecv r (u32 n) in
    _ ← modify (λ s, s <| cs_RControl := Some r |>);
    err ← match increment with Some w => feedback w | None => mret None end;
    closed ← gets cs_closed;
    mret (if (closed : bool) then None else err)
  end.

Definition dealContextDone (e : CtxErr) : option go_err :=
  match e with
  | Canceled => Some (Own (NewFrameError RetClientCanceled
      ("tcp client stream canceled before recv: " +:+ ctx_text Canceled)))
  | DeadlineExceeded => Some (Own (NewFrameError RetClientTimeout
      ("tcp client stream canceled timeout before recv: " +:+ ctx_text DeadlineExceeded)))
  end.

(** [recvQueue.Get]; [None] if it blocks. *)
Definition queue_Get (s : stream_t) : option ((received_msg + CtxErr) * stream_t) :=
  match cs_queue s with
  | resp :: rest => Some (inl resp, s <| cs_queue := rest |>)
  | [] => match ctx_err s with Some e => Some (inr e, s) | None => None end
  end.

(** [recv] from the result of [Get] on. *)
Definition recv_got (resp : received_msg + CtxErr) (m : option Rsp) : MS (option Rsp * option go_err) :=
  match resp with
  | inr e => mret (m, dealContextDone e)
  | inl (MkReceived _ (Some err)) => mret (m, Some err)
  | inl (MkReceived data None) =>
    err ← recvFlowCtl (zlen data);
    match err with
    | Some err => mret (m, Some err)
    | None =>
      s ← gets (λ s, s);
      let serializationType := current IsValidSerializationType (CurrentSerializationType (cs_opts s))
                                 (msg_SerializationType (context_msg s)) in
      let '(m, r) := unmarshal (Req:=Req) serializationType data m in
      r ← on_context (stage RetClientDecodeFail "client codec Unmarshal: " r);
      mret (m, match r with inl _ => None | inr e => Some e end)
    end
  end.

(** ** The goroutines of a stream *)

Definition close (s : stream_t) : stream_t := s <| cs_closed := true |>.

Definition set_dispatch (d : dispatching) : MS () := modify (λ s, s <| cs_dispatch := d |>).
Definition set_monitor (m : monitoring) : MS () := modify (λ s, s <| cs_monitor := m |>).
Definition queue_Put (r : received_msg) : MS () := modify (λ s, s <| cs_queue := cs_queue s ++ [r] |>).

(** [handleFrame] with its message; the result says whether the loop ends. *)
Definition handleFrame (m : msg) (respData : bytes) (frameHead : FrameHead) : MS bool :=
  let t := StreamFrameType frameHead in
  if (t =? TRPC_STREAM_FRAME_DATA)%Z then _ ← queue_Put (MkReceived respData None); mret false
  else if (t =? TRPC_STREAM_FRAME_CLOSE)%Z then
    let err := match msg_ClientRspErr m with Some e => e | None => EOF_error end in
    _ ← queue_Put (MkReceived [] (Some (Own err))); mret true
  else if (t =? TRPC_STREAM_FRAME_FEEDBACK)%Z then
    _ ← match msg_StreamFrame m with
        | IFeedback f => modify (λ s, s <| cs_SControl := (λ c, UpdateWindow c (feedback_WindowSizeIncrement f)) <$> cs_SControl s |>)
        | _ => mret ()
        end;
    mret false
  else mret false.

(** [WrapFrameError] of an error that may be shared. *)
Definition wrap (h : gmap positive error) (e : go_err) : option go_err :=
  Own <$> WrapFrameError (Some (deref h e)) RetClientStreamReadEnd streamClosed.

(** One round of the loop of [dispatch], when the transport gives [r]. *)
Definition dispatch_round (r : bytes + go_err) : MS () :=
  s ← gets (λ s, s);
  let m := WithStreamID (Msg.WithCompressType (clone (context_msg s)) (msg_CompressType (context_msg s))) (cs_streamID s) in
  '(r, m) ← on_clone m (r ← stream_Recv (cs_opts s) r; m ← gets c_msg; mret (r, m));
  h ← gets (λ s, c_heap (cs_env s));
  ended ← match r with
          | inr e => _ ← queue_Put (MkReceived [] (wrap h e)); mret true
          | inl respData =>
            match msg_FrameHead m with
            | IFrameHead frameHead => handleFrame m respData frameHead
            | _ => _ ← queue_Put (MkReceived [] (Some (Own (Plain frameHeadInvalid)))); mret true
            end
          end;
  if (ended : bool) then set_dispatch DDeferred else mret ().

(** The deferred function of [dispatch]: first [Close] of the transport, then [close]. *)
Definition dispatch_end (s : stream_t) : option (MS ()) :=
  match cs_dispatch s with
  | DDeferred => Some (_ ← on_context Close_transport; set_dispatch DClosing)
  | DClosing => Some (_ ← modify close; set_dispatch DEnded)
  | _ => None
  end.

(** A step of [monitorContextCancellation]; [None] if it blocks.  If the context has ended and [closeCh] is
    closed, the choice is [ctx_first]. *)
Definition monitor_step (ctx_first : bool) (s : stream_t) : option (MS ()) :=
  match cs_monitor s with
  | MSelect =>
    let ended := bool_decide (is_Some (ctx_err s)) in
    if ended && (ctx_first || negb (cs_closed s))
    then Some (_ ← on_context Close_transport; set_monitor MClosing)
    else if cs_closed s then Some (set_monitor MEnded) else None
  | MClosing => Some (_ ← modify close; set_monitor MEnded)
  | _ => None
  end.

(** ** Opening a stream *)

(** [newStream] up to [prepare]; [opts] are the options that [Init] made, in the environment [e]. *)
Definition new_clientStream (e : env_t) (opts : options_t) (method : string) (id : Z) (server_streams : bool)
    : stream_t :=
  MkClientStream e opts method id server_streams [] None false None None DNone MNone.

(** The message of the context before [Init]. *)
Definition prepare_msg (method : string) (id : Z) (m : msg) : msg := WithStreamID (WithClientRPCName m method) id.

Definition window_size (s : stream_t) : Z :=
  if ClientOptions.DisabledFlowControl (cs_opts s) then 0%Z else getWindowSize (ClientOptions.MaxWindowSize (cs_opts s)).

Definition init_msg (s : stream_t) : msg :=
  let m := clone (context_msg s) in
  let m := if decide (msg_ClientMetaData (context_msg s) = ∅) then m
           else WithClientMetaData m (Clone (msg_ClientMetaData (context_msg s))) in
  let m := WithFrameHead m (IFrameHead (newFrameHead TRPC_STREAM_FRAME_INIT (cs_streamID s))) in
  let m := WithStreamID (WithClientRPCName m (cs_method s)) (cs_streamID s) in
  let m := Msg.WithCompressType m (msg_CompressType (context_msg s)) in
  WithStreamFrame m (IInit (zero_init <| init_RequestMeta := Some zero_initreq |>
                                      <| init_InitWindowSize := window_size s |>)).

(** [invoke] up to its [Recv]: the error, or the message of [newCtx]. *)
Definition invoke_send : MS (msg + go_err) :=
  o ← gets cs_opts;
  err ← on_context (stream_Invoke o);
  match err with
  | Some e => mret (inr e)
  | None =>
    s ← gets (λ s, s);
    _ ← modify (λ s, s <| cs_RControl := Some (newReceiveControl (window_size s)) |>);
    '(err, m) ← on_clone (init_msg s) (err ← Send_nil (cs_opts s); m ← gets c_msg; mret (err, m));
    match err with
    | Some e => mret (inr e)
    | None => _ ← set_monitor MSelect; mret (inl m)
    end
  end.

Definition configSendControl (w : Z) (s : stream_t) : stream_t :=
  if (w =? 0)%Z then s <| cs_RControl := None |> <| cs_SControl := None |>
  else s <| cs_SControl := Some (newSendControl w) |>.

(** [streamSelectorFilter] up to the call of what follows it. *)
Definition select_in_filter (ctx : ClientContext) (a : nat) : MC (option go_err) :=
  r ← selectNode ctx a;
  match r with
  | inr e => mret (Some e)
  | inl node => _ ← stream_node node a; mret None
  end.

(** [streamClient.streamID] counts up from 99. *)
Definition next_streamID (streamID : Z) : Z := u32 (streamID + 1).

(** [newStream] up to the [Recv] of [invoke]: the error, or the stream and the message of [newCtx].
    Stream filters of users are left out; that of the selector runs when the options ask for it. *)
Definition newStream_send (streamSelectorFilter : SF) (options : gmap string optionsWithFallback)
    (ctx : ClientContext) (method : string) (id : Z) (server_streams : bool)
    (opt : list (Option CB W F SF T P MP FB)) (e : env_t) : option (stream_t * msg + go_err) :=
  let prepare :=
    _ ← on_msg (prepare_msg method id);
    r ← stream_Init streamSelectorFilter options ctx opt;
    match r with
    | inr err => mret (inr err)
    | inl a =>
      o ← read_opts a;
      err ← (if EnableStreamSelectInFilter o then select_in_filter (contextWithOptions ctx a) a else mret None);
      o ← read_opts a;
      mret (match err with Some err => inr err | None => inl o end)
    end in
  match prepare e with
  | (None, _) => None
  | (Some (inr err), _) => Some (inr err)
  | (Some (inl o), e) =>
    match invoke_send (new_clientStream e o method id server_streams) with
    | (None, _) => None
    | (Some (inr err), _) => Some (inr err)
    | (Some (inl m), s) => Some (inl (s, m))
    end
  end.

(** The dynamic type of what a message holds, as [%T] prints it. *)
Definition type_text (i : iface) : string :=
  match i with
  | INil => "<nil>"
  | IFrameHead _ => "*trpc.FrameHead"
  | IReq _ => "*trpc.RequestProtocol"
  | IRsp _ => "*trpc.ResponseProtocol"
  | IInit _ => "*trpc.TrpcStreamInitMeta"
  | IClose _ => "*trpc.TrpcStreamCloseMeta"
  | IFeedback _ => "*trpc.TrpcStreamFeedBackMeta"
  | IAttachment _ _ => "*attachment.Attachment"
  | IOther tag => tag
  end.

Definition unexpected_frame (s : stream_t) (i : iface) : string :=
  "client stream (method = " +:+ cs_method s +:+ ", streamID = " +:+ pretty (cs_streamID s) +:+
  ") recv unexpected frame type: " +:+ type_text i +:+ ", expected: " +:+ type_text (IInit zero_init).

(** The rest of [invoke], with what its [Recv] gets. *)
Definition invoke_recv (newMsg : msg) (r : bytes + go_err) : MS (option go_err) :=
  s ← gets (λ s, s);
  '(r, m) ← on_clone newMsg (r ← stream_Recv (cs_opts s) r; m ← gets c_msg; mret (r, m));
  match r with
  | inr e => mret (Some e)
  | inl _ =>
    match msg_StreamFrame m with
    | IInit i => _ ← modify (configSendControl (init_InitWindowSize i));
                 _ ← set_dispatch DLoop;
                 mret None
    | i => mret (Some (Own (Plain (unexpected_frame s i))))
    end
  end.

(** ** The goroutines of the user *)

Context {HU : Type} `{!Users Req Rsp HU}.
Abbreviation user_t := (user Req Rsp HU).

(** One step of a goroutine of the user: what it becomes; [None] if it blocks or has ended. *)
Definition user_step (s : stream_t) (u : user_t) : option (MS user_t) :=
  match u with
  | UEnded => None
  | URunning h =>
    match user_act h with
    | UReturn => Some (mret UEnded)
    | UCloseSend k => Some (err ← CloseSend; mret (URunning (k err)))
    | USend m k =>
      Some (r ← on_clone (data_msg s) (r ← Send_body (cs_opts s) m; m ← gets c_msg; mret (r, m));
            match r with
            | (inr e, _) => mret (URunning (k (Some e)))
            | (inl body, newMsg) =>
              if bool_decide (is_Some m) && bool_decide (is_Some (cs_SControl s)) then mret (UGetWindow newMsg body k)
              else err ← on_clone newMsg (Send_encoded (cs_opts s) body); mret (URunning (k err))
            end)
    | URecv m k =>
      match queue_Get s with
      | None => None
      | Some (resp, s') =>
        Some (_ ← modify (λ _, s');
              '(m, err) ← recv_got resp m;
              mret (match err with
                    | Some e => URunning (k m (Some e))
                    | None => if ServerStreams s then URunning (k m None) else UAgain m k
                    end))
      end
    end
  | UGetWindow newMsg body k =>
    match cs_SControl s with
    | None => None
    | Some c =>
      match GetWindow c (cs_closed s || bool_decide (is_Some (ctx_err s))) (u32 (zlen body)) with
      | None => None
      | Some (inl c) =>
        Some (_ ← modify (λ s, s <| cs_SControl := Some c |>);
              err ← on_clone newMsg (Send_encoded (cs_opts s) body); mret (URunning (k err)))
      | Some (inr e) => Some (_ ← on_clone newMsg Close_transport; mret (URunning (k (Some (Own e)))))
      end
    end
  | UAgain m k =>
    match queue_Get s with
    | None => None
    | Some (resp, s') =>
      Some (_ ← modify (λ _, s');
            '(m, err) ← recv_got resp m;
            mret (URunning (k m
              match err with
              | None => Some (Own (NewFrameError RetClientStreamReadEnd
                          "client streaming protocol violation: get <nil>, want <EOF>"))
              | Some (Own e) => if decide (e = EOF_error) then None else Some (Own e)
              | Some e => Some e
              end)))
    end
  end.

(** ** A stream, the frames that come to it, and a goroutine of the user *)

(** The state in which the code of the user returns. *)
Definition returned (u : user_t) : option HU :=
  match u with
  | URunning h => match user_act h with UReturn => Some h | _ => None end
  | _ => None
  end.

Abbreviation sys := (stream_t * list bytes * user_t)%type.

(** The frames come in their order, at any time; the context does not end. *)
Inductive sys_step : sys → sys → Prop :=
| step_dispatch s f fs u s' : cs_dispatch s = DLoop → dispatch_round (inl f) s = (Some (), s') →
    sys_step (s, f :: fs, u) (s', fs, u)
| step_end s fs u k s' : dispatch_end s = Some k → k s = (Some (), s') → sys_step (s, fs, u) (s', fs, u)
| step_monitor b s fs u k s' : monitor_step b s = Some k → k s = (Some (), s') → sys_step (s, fs, u) (s', fs, u)
| step_user s fs u k u' s' : returned u = None → user_step s u = Some k → k s = (Some u', s') →
    sys_step (s, fs, u) (s', fs, u').
End stream_client.

(** ** Lemmas on the steps *)

Section delivery.
Context `{!PbEnum} `{!PbEnumOk} `{!Message TrpcStreamInitMeta} `{!Message TrpcStreamCloseMeta}
        `{!Message TrpcStreamFeedBackMeta} `{!Message RequestProtocol} `{!Message ResponseProtocol}
        `{!MessageOk TrpcStreamCloseMeta} `{!MessageOk TrpcStreamFeedBackMeta}.
Context {CB W F SF T P MP FB Req Rsp : Type} `{!Plugins CB W F SF T P MP FB} `{!ClientRuntime CB W Req Rsp}.
Variable maxFrameSize : Z.
Variable procName : string.
Variable leftover : bytes → ResponseProtocol.
Variable counter : W → Z.
Variable set_counter : Z → W → W.
Variable caller : string.
Variable st : ClientStreamTransport W P MP FB.

Abbreviation options_t := (Options CB W F SF T P MP FB).
Abbreviation env_t := (CallEnv CB W F SF T P MP FB).
Abbreviation stream_t := (clientStream env_t options_t).

(** The options of the stream, and the message of its context. *)
Variable o : options_t.
Variable m0 : msg.
Hypothesis o_codec : Codec o = Some (trpc_client_codec maxFrameSize procName leftover counter set_counter caller).

(** *** Decoding the frames of the server *)

(** The frame [f] that the server makes of the message [m] with the body [b], on the stream type [t]. *)
Definition server_frame (t : Z) (m : msg) (b f : bytes) : Prop :=
  ∃ h s, streamHead m = Some h ∧ FrameHead_wf h ∧ StreamFrameType h = t ∧
    (ServerStreamEncode maxFrameSize s m b).1.1 = Ok f.

(** What the server sends on a stream after its INIT frame. *)
Inductive server_msg := SData (b : bytes) | SFeedback (fb : TrpcStreamFeedBackMeta) | SClose (c : TrpcStreamCloseMeta).

Inductive is_frame : server_msg → bytes → Prop :=
| data_is_frame m b f : server_frame TRPC_STREAM_FRAME_DATA m b f → ServerRspErr m = None → is_frame (SData b) f
| feedback_is_frame m fb f : server_frame TRPC_STREAM_FRAME_FEEDBACK m [] f → msg_StreamFrame m = IFeedback fb →
    is_frame (SFeedback fb) f
| close_is_frame m c f : server_frame TRPC_STREAM_FRAME_CLOSE m [] f → msg_StreamFrame m = IClose c →
    is_frame (SClose (setStreamCloseMetaData m c)) f.

Lemma ClientDecode_stream h p f m :
  isStream h = true → FrameHead_wf h → frameWrite maxFrameSize h p = Ok f →
  let h' := h <| TotalLen := zlen f |> <| HeaderLen := 0%Z |> in
  ClientDecode leftover m f = ClientStreamDecode (WithFrameHead m (IFrameHead h')) f ∧
  streamHead (WithFrameHead m (IFrameHead h')) = Some h' ∧ payload f = Ok p.
Proof.
  intros Hs Hwf Hw h'. pose proof (frameWrite_payload _ _ _ _ Hwf Hw) as [Hp Hx].
  unfold frameWrite in Hw. destruct (frame_head_parts _ _ _ _ _ Hwf Hw) as (Hlen & H16 & _ & Hid & Hle & _).
  assert (FrameType h' = TRPC_STREAM_FRAME) as Ht.
  { unfold isStream in Hs. bool_to_prop. done. }
  split; [|split; [|done]].
  - unfold ClientDecode. rewrite (proj2 (Z.ltb_ge _ _)) by (unfold frameHeadLen; lia). rewrite Hx. fold h'.
    rewrite Ht, (proj2 (Z.eqb_neq TRPC_STREAM_FRAME _)) by (apply not_eq_sym, unary_not_stream).
    assert (TotalLen h' = zlen f) as -> by done. by rewrite Hid, Z.eqb_refl.
  - unfold streamHead, isStream. simpl. unfold isStream in Hs. by rewrite Hs.
Qed.

(** The message after a frame of the stream type [t]: no error, and the formats it had. *)
Definition decoded (m m' : msg) (t : Z) : Prop :=
  (∃ h, msg_FrameHead m' = IFrameHead h ∧ StreamFrameType h = t) ∧ msg_CompressType m' = msg_CompressType m.

Lemma data_decoded m b f m1 :
  server_frame TRPC_STREAM_FRAME_DATA m b f → ServerRspErr m = None →
  ∃ m', ClientDecode leftover m1 f = (Ok b, m') ∧ decoded m1 m' TRPC_STREAM_FRAME_DATA ∧
    msg_ClientRspErr m' = msg_ClientRspErr m1.
Proof.
  intros (h & s & Hh & Hwf & Ht & He) Hn. pose proof frame_types_distinct as (Hd & _).
  unfold ServerStreamEncode in He. rewrite Hh, Ht, Hd, Z.eqb_refl in He.
  unfold encodeDataFrame_server in He. rewrite Hn in He. simpl in He.
  destruct (ClientDecode_stream h b f m1) as (-> & Hs & Hp); [by apply streamHead_Some in Hh as []|done..|].
  unfold ClientStreamDecode. rewrite Hs. simpl. rewrite Ht, Hd, Z.eqb_refl. unfold decodeDataFrame_client. rewrite Hp.
  eexists. split; [done|]. split; [|by destruct m1]. split; [by eexists|by destruct m1].
Qed.
Lemma feedback_type_distinct :
  (TRPC_STREAM_FRAME_FEEDBACK =? TRPC_STREAM_FRAME_INIT)%Z = false ∧
  (TRPC_STREAM_FRAME_FEEDBACK =? TRPC_STREAM_FRAME_DATA)%Z = false ∧
  (TRPC_STREAM_FRAME_FEEDBACK =? TRPC_STREAM_FRAME_CLOSE)%Z = false.
Proof.
  pose proof stream_frames_nodup as Hn. rewrite !NoDup_cons in Hn. rewrite !Z.eqb_neq. set_solver.
Qed.

Lemma ClientDecode_payload {M} `{Message M} `{!MessageOk M} h (x : M) f m :
  isStream h = true → FrameHead_wf h → marshalWrite maxFrameSize h x = Ok f →
  let m1 := WithFrameHead m (IFrameHead (h <| TotalLen := zlen f |> <| HeaderLen := 0%Z |>)) in
  ClientDecode leftover m f = ClientStreamDecode m1 f ∧
  streamHead m1 = Some (h <| TotalLen := zlen f |> <| HeaderLen := 0%Z |>) ∧ unmarshalPayload f = Ok x.
Proof.
  intros Hs Hwf Hw m1. pose proof (proj1 (marshalWrite_payload _ _ _ _ Hwf Hw)) as Hu.
  unfold marshalWrite in Hw. destruct (marshal x) as [p|]; simpl in Hw; [|done].
  destruct (ClientDecode_stream h p f m Hs Hwf Hw) as (Hd1 & Hd2 & _). done.
Qed.

Lemma feedback_decoded m fb f m1 :
  server_frame TRPC_STREAM_FRAME_FEEDBACK m [] f → msg_StreamFrame m = IFeedback fb →
  ∃ m', ClientDecode leftover m1 f = (Ok [], m') ∧ decoded m1 m' TRPC_STREAM_FRAME_FEEDBACK ∧
    msg_ClientRspErr m' = msg_ClientRspErr m1 ∧ msg_StreamFrame m' = IFeedback fb.
Proof.
  intros (h & s & Hh & Hwf & Ht & He) Hf. pose proof feedback_type_distinct as (D1 & D2 & D3).
  unfold ServerStreamEncode in He. rewrite Hh, Ht, D1, D2, D3, Z.eqb_refl in He. simpl in He.
  unfold encodeFeedbackFrame in He. rewrite Hf in He.
  destruct (ClientDecode_payload h fb f m1) as (-> & Hs & Hp); [by apply streamHead_Some in Hh as []|done..|].
  unfold ClientStreamDecode. rewrite Hs. simpl. rewrite Ht, D1, D2, D3, Z.eqb_refl.
  unfold decodeFeedbackFrame_client, withPayload. rewrite Hp.
  eexists. split; [done|]. split; [|by destruct m1]. split; [by eexists|by destruct m1].
Qed.

(** The error of the message after a CLOSE frame. *)
Definition close_rsp_err (c : TrpcStreamCloseMeta) (e : option error) : option error :=
  if isReset c then Some (resetError c)
  else if negb (close_FuncRet c =? 0)%Z then Some (New (close_FuncRet c) (bytes_str (close_Msg c))) else e.

Lemma close_decoded m c f m1 :
  server_frame TRPC_STREAM_FRAME_CLOSE m [] f → msg_StreamFrame m = IClose c →
  let c := setStreamCloseMetaData m c in
  ∃ m', ClientDecode leftover m1 f = (Ok [], m') ∧ decoded m1 m' TRPC_STREAM_FRAME_CLOSE ∧
    msg_ClientRspErr m' = close_rsp_err c (msg_ClientRspErr m1).
Proof.
  intros (h & s & Hh & Hwf & Ht & He) Hf c'. pose proof frame_types_distinct as (_ & D1 & D2).
  unfold ServerStreamEncode in He. rewrite Hh, Ht, D1, D2, Z.eqb_refl in He.
  unfold encodeCloseFrame_server in He. rewrite Hf in He. destruct (deleteInitMeta _ _); [|done..].
  simpl in He. fold c' in He.
  destruct (ClientDecode_payload h c' f m1) as (-> & Hs & Hp); [by apply streamHead_Some in Hh as []|done..|].
  unfold ClientStreamDecode. rewrite Hs. simpl. rewrite Ht, D1, D2, Z.eqb_refl.
  unfold decodeCloseFrame_client, withPayload. rewrite Hp. fold c'. clearbody c'.
  eexists. split; [done|]. unfold close_rsp_err, decoded, updateClientStreamCloseMeta.
  split; [split|]; [eexists; split|..]; by repeat case_match; destruct m1.
Qed.
(** *** Rounds of the dispatcher *)

Definition body_of (b : bytes) : result bytes :=
  let c := current IsValidCompressType (CurrentCompressType o) (msg_CompressType m0) in
  if (0 <? zlen b)%Z && (IsValidCompressType c && negb (c =? CompressTypeNoop)%Z)
  then Decompress c_compressors c b else Ok b.

(** A stream with the options and the message. *)
Definition of_stream (s : stream_t) : Prop := cs_opts s = o ∧ context_msg s = m0.

Definition at_world (w : W) (s : stream_t) : stream_t := s <| cs_env := cs_env s <| c_world := w |> |>.

Definition put (r : received_msg) (s : stream_t) : stream_t := s <| cs_queue := cs_queue s ++ [r] |>.

Definition round_msg (id : Z) : msg :=
  WithStreamID (Msg.WithCompressType (clone m0) (msg_CompressType m0)) id.

Lemma stream_Recv_body (e : env_t) f b d m' :
  ClientDecode leftover (c_msg e) f = (Ok b, m') → msg_ClientRspErr m' = None →
  msg_CompressType m' = msg_CompressType m0 → body_of b = Ok d →
  stream_Recv st o (inl f) e = (Some (inl d), e <| c_msg := m' |>).
Proof.
  intros Hd He Hc Hb. unfold stream_Recv. rewrite o_codec. unfold mbind, M_bind, call_codec. simpl.
  rewrite Hd. simpl. rewrite He, Hc. unfold body_of in Hb. destruct (_ && _).
  - rewrite Hb. by destruct e.
  - injection Hb as ->. by destruct e.
Qed.
(** What a round reads on its clone of the message. *)
Definition round_Recv (r : bytes + go_err) : M env_t ((bytes + go_err) * msg) :=
  r ← stream_Recv st o r; m ← gets c_msg; mret (r, m).

Lemma round_body s f b d m' t :
  ClientDecode leftover (round_msg (cs_streamID s)) f = (Ok b, m') →
  decoded (round_msg (cs_streamID s)) m' t → msg_ClientRspErr m' = None → body_of b = Ok d →
  on_clone (round_msg (cs_streamID s)) (round_Recv (inl f)) s = (Some (inl d, m'), s).
Proof.
  intros Hd [_ Hc] He Hb. unfold on_clone, round_Recv, mbind, M_bind.
  rewrite (stream_Recv_body _ _ b d m') by done. simpl. destruct s as [[] ?]. done.
Qed.

Lemma dispatch_body s f b d m' t :
  of_stream s → ClientDecode leftover (round_msg (cs_streamID s)) f = (Ok b, m') →
  decoded (round_msg (cs_streamID s)) m' t → msg_ClientRspErr m' = None → body_of b = Ok d →
  ∃ h, StreamFrameType h = t ∧ dispatch_round st (inl f) s =
    (ended ← handleFrame m' d h; if (ended : bool) then set_dispatch DDeferred else mret ()) s.
Proof.
  intros [Ho Hm] Hd Hdec He Hb. destruct (Hdec) as [(h & Hh & Ht) _]. exists h. split; [done|].
  unfold dispatch_round. rewrite gets_bind, Hm, Ho.
  pose proof (round_body _ _ _ _ _ _ Hd Hdec He Hb) as Hr.
  unfold mbind at 1, M_bind at 1. unfold round_msg, round_Recv in Hr. rewrite Hr.
  rewrite gets_bind, Hh. done.
Qed.

(** What the queue gets of a message of the server, and how a round changes the stream else. *)
Definition round_put (x : server_msg) : list received_msg :=
  match x with
  | SData b => match body_of b with Ok d => [MkReceived d None] | _ => [] end
  | SFeedback _ => []
  | SClose c => [MkReceived [] (match close_rsp_err c None with
                                | Some e => wrap ∅ (Own e)
                                | None => Some (Own EOF_error)
                                end)]
  end.
Lemma round_msg_err id : msg_ClientRspErr (round_msg id) = None.
Proof. by destruct m0. Qed.

Definition is_close (x : server_msg) : bool := match x with SClose _ => true | _ => false end.

(** The stream after a round. *)
Definition rounded (x : server_msg) (w : W) (c : option sendControl) (s : stream_t) : stream_t :=
  at_world w s <| cs_queue := cs_queue s ++ round_put x |> <| cs_SControl := c |>
    <| cs_dispatch := if is_close x then DDeferred else cs_dispatch s |>.

Lemma rounded_same x s : round_put x = [] → is_close x = false →
  rounded x (c_world (cs_env s)) (cs_SControl s) s = s.
Proof. intros Hp Hc. unfold rounded. rewrite Hp, Hc, app_nil_r. by destruct s as [[] ?]. Qed.

Lemma dispatch_data s b d f :
  of_stream s → is_frame (SData b) f → body_of b = Ok d →
  dispatch_round st (inl f) s = (Some (), rounded (SData b) (c_world (cs_env s)) (cs_SControl s) s).
Proof.
  intros Hs Hf Hb. inversion Hf; subst.
  destruct (data_decoded m b f (round_msg (cs_streamID s))) as (m' & Hd & Hdec & He); [done..|].
  rewrite round_msg_err in He.
  destruct (dispatch_body s f b d m' _ Hs Hd Hdec He Hb) as (h & Ht & ->).
  unfold handleFrame, rounded, round_put. rewrite Ht, Z.eqb_refl, Hb. by destruct s as [[] ?].
Qed.

Lemma dispatch_feedback s fb f :
  of_stream s → is_frame (SFeedback fb) f →
  ∃ c, dispatch_round st (inl f) s = (Some (), rounded (SFeedback fb) (c_world (cs_env s)) c s).
Proof.
  intros Hs Hf. inversion Hf; subst. pose proof feedback_type_distinct as (_ & D2 & D3).
  destruct (feedback_decoded m fb f (round_msg (cs_streamID s))) as (m' & Hd & Hdec & He & Hfb); [done..|].
  rewrite round_msg_err in He.
  destruct (dispatch_body s f [] [] m' _ Hs Hd Hdec He eq_refl) as (h & Ht & ->).
  unfold handleFrame, rounded. rewrite Ht, D2, D3, Z.eqb_refl, Hfb. simpl. rewrite app_nil_r.
  exists ((λ c, UpdateWindow c (feedback_WindowSizeIncrement fb)) <$> cs_SControl s). by destruct s as [[] ?].
Qed.

Lemma dispatch_close s c f :
  of_stream s → is_frame (SClose c) f →
  ∃ w, dispatch_round st (inl f) s = (Some (), rounded (SClose c) w (cs_SControl s) s).
Proof.
  intros Hs Hf. inversion Hf as [| |m c0 ? Hsf Hc0]; subst. pose proof frame_types_distinct as (_ & _ & D2).
  destruct (close_decoded m c0 f (round_msg (cs_streamID s))) as (m' & Hd & Hdec & He); [done..|].
  rewrite round_msg_err in He. set (c := setStreamCloseMetaData m c0) in *.
  unfold rounded, round_put. destruct (close_rsp_err c None) as [e|] eqn:Hce.
  - destruct Hs as [Ho Hm]. unfold dispatch_round. rewrite gets_bind, Hm, Ho.
    unfold mbind at 1, M_bind at 1, on_clone at 1. fold (round_msg (cs_streamID s)).
    unfold stream_Recv. rewrite o_codec. unfold mbind at 1 2 3 4 5 6, M_bind at 1 2 3 4 5 6, call_codec. simpl. rewrite Hd. simpl. rewrite He. simpl.
    exists (st_Close st (c_world (cs_env s)) m'). by destruct s as [[] ?].
  - destruct (dispatch_body s f [] [] m' _ Hs Hd Hdec He eq_refl) as (h & Ht & ->).
    unfold handleFrame. rewrite Ht, D2, Z.eqb_refl, He. exists (c_world (cs_env s)). by destruct s as [[] ?].
Qed.

Lemma dispatch_sent s x f :
  of_stream s → is_frame x f → (∀ b, x = SData b → ∃ d, body_of b = Ok d) →
  ∃ w c, dispatch_round st (inl f) s = (Some (), rounded x w c s).
Proof.
  intros Hs Hf Hb. destruct x as [b|fb|c].
  - destruct (Hb b eq_refl) as [d Hd]. do 2 eexists. by eapply dispatch_data.
  - destruct (dispatch_feedback s fb f Hs Hf) as [c ?]. eauto.
  - destruct (dispatch_close s c f Hs Hf) as [w ?]. eauto.
Qed.
(** *** What the receiver does *)

Lemma serializeAndCompress_nil (e : env_t) :
  serializeAndCompress (Rsp:=Rsp) (Req:=Req) None o e = (Some (inl []), e).
Proof.
  unfold serializeAndCompress, or_return. rewrite gets_bind. unfold mbind, M_bind.
  destruct (IsValidSerializationType _); simpl;
    (destruct (IsValidCompressType _ && negb _); [unfold Compress; simpl; by destruct (_ =? _)%Z|done]).
Qed.

Definition feedback_msg (s : stream_t) (i : Z) : msg :=
  WithStreamFrame (WithClientRPCName (frame_msg s TRPC_STREAM_FRAME_FEEDBACK) (cs_method s)) (IFeedback (MkFeedback i)).

Lemma feedback_encodes s i w : ∃ r, r ≠ Panic ∧
  codec_Encode (trpc_client_codec maxFrameSize procName leftover counter set_counter caller) w (feedback_msg s i) [] =
    (r, feedback_msg s i, set_counter (counter w) w).
Proof.
  pose proof feedback_type_distinct as (D1 & D2 & D3).
  pose proof stream_frames_u8 as Hu. rewrite !Forall_cons in Hu. destruct Hu as (_ & _ & Hu & _).
  set (h := newFrameHead TRPC_STREAM_FRAME_FEEDBACK (cs_streamID s)).
  assert (msg_FrameHead (feedback_msg s i) = IFrameHead h) as Hh.
  { unfold feedback_msg. destruct (WithClientRPCName_eq (frame_msg s TRPC_STREAM_FRAME_FEEDBACK) (cs_method s))
      as [? ->]. done. }
  assert (isStream h = true) as Hs.
  { unfold isStream, h, newFrameHead. simpl. unfold u8. rewrite Z.mod_small by apply stream_u8. apply Z.eqb_refl. }
  assert (StreamFrameType h = TRPC_STREAM_FRAME_FEEDBACK) as Ht.
  { unfold h, newFrameHead. simpl. unfold u8. by rewrite Z.mod_small by apply Hu. }
  exists (encodeFeedbackFrame maxFrameSize h (feedback_msg s i)). split.
  - unfold encodeFeedbackFrame. simpl. unfold marshalWrite. destruct (marshal _); simpl; [|done].
    apply construct_not_Panic.
  - simpl. unfold ClientEncode, loadOrStoreDefaultUnaryFrameHead. rewrite Hh, Hs.
    unfold ClientStreamEncode, streamHead. by rewrite Hh, Hs, Ht, D1, D2, D3, Z.eqb_refl.
Qed.

(** A feedback frame is sent or an error; only the world changes. *)
Lemma feedback_total s i : of_stream s → ∃ err w, feedback st i s = (Some err, at_world w s).
Proof.
  intros [Ho Hm]. unfold feedback, send_nil. rewrite gets_bind, Ho. fold (feedback_msg s i).
  unfold on_clone, Send_nil, Send_body, mbind, M_bind.
  rewrite serializeAndCompress_nil. unfold close_on_error at 1, mret at 1, M_ret at 1. 
  unfold Send_encoded, mbind, M_bind. rewrite o_codec. unfold call_codec.
  destruct (feedback_encodes s i (c_world (cs_env s))) as (r & Hr & He).
  set (c := trpc_client_codec _ _ _ _ _ _) in *. cbn -[codec_Encode feedback_msg]. rewrite He.
  destruct r as [b|e|]; [|..|done]; cbn -[feedback_msg].
  - unfold in_world. cbn -[feedback_msg]. destruct (st_Send st _ _ _) as [[e|] w] eqn:Hs; cbn -[feedback_msg].
    + exists (Some e), (st_Close st w (feedback_msg s i)). by destruct s as [[] ?].
    + exists None, w. by destruct s as [[] ?].
  - exists (Some (Own (NewFrameError RetClientEncodeFail ("client codec Encode: " +:+ Error e)))),
      (st_Close st (set_counter (counter (c_world (cs_env s))) (c_world (cs_env s))) (feedback_msg s i)).
    by destruct s as [[] ?].
Qed.
(** An error that a feedback gives on the open stream: of the codec, or of the transport. *)
Definition feedback_error (e : go_err) : Prop :=
  ∃ s i s', of_stream s ∧ cs_closed s = false ∧ feedback st i s = (Some (Some e), s').

Definition set_RControl (r : option receiveControl) (s : stream_t) : stream_t := s <| cs_RControl := r |>.

Lemma recvFlowCtl_total s n : of_stream s →
  ∃ err w rc, recvFlowCtl st n s = (Some err, set_RControl rc (at_world w s)) ∧
    (cs_RControl s = None → err = None ∧ rc = None) ∧ (∀ e, err = Some e → feedback_error e).
Proof.
  intros Hs. unfold recvFlowCtl. rewrite gets_bind.
  destruct (cs_RControl s) as [r|] eqn:Hr.
  2:{ exists None, (c_world (cs_env s)), None. split_and!; [|done..]. destruct s as [[] ?]; simpl in *. by subst. }
  destruct (cs_closed s) eqn:Hc.
  { exists None, (c_world (cs_env s)), (Some r). split_and!; [|done..]. destruct s as [[] ?]; simpl in *. by subst. }
  destruct (OnRecv r (u32 n)) as [r' [i|]]; unfold mbind, M_bind, modify; cbn -[feedback].
  2:{ exists None, (c_world (cs_env s)), (Some r'). split_and!; [|done..]. destruct s as [[] ?]. simpl in *. by subst. }
  destruct (feedback_total (set_RControl (Some r') s) i) as (err & w & Hf); [done|].
  exists err, w, (Some r'). split_and!; [|done|].
  - unfold set_RControl in Hf. rewrite Hf. cbn. rewrite Hc. by destruct s as [[] ?].
  - intros e ->. by exists (set_RControl (Some r') s), i, (at_world w (set_RControl (Some r') s)).
Qed.

(** The body that a caller gives, and what it holds for the data [d]. *)
Variable rsp0 : Rsp.

Definition unmarshalled (d : bytes) : option Rsp * result () :=
  unmarshal (Req:=Req) (current IsValidSerializationType (CurrentSerializationType o) (msg_SerializationType m0))
    d (Some rsp0).
Definition value (r : received_msg) : option Rsp := (unmarshalled (r_data r)).1.

Lemma recv_got_total s d : of_stream s → (unmarshalled d).2 = Ok () →
  ∃ m err w rc, recv_got (Req:=Req) st (inl (MkReceived d None)) (Some rsp0) s =
      (Some (m, err), set_RControl rc (at_world w s)) ∧
    (err = None → m = value (MkReceived d None)) ∧ (cs_RControl s = None → err = None ∧ rc = None) ∧
    (∀ e, err = Some e → feedback_error e).
Proof.
  intros Hs Hu. unfold recv_got. destruct (recvFlowCtl_total s (zlen d) Hs) as (err & w & rc & Hf & Hn & He).
  unfold mbind at 1, M_bind at 1. rewrite Hf. destruct err as [e|].
  - exists (Some rsp0), (Some e), w, rc. split_and!; [done|done|intros H'; by destruct (Hn H')|exact He].
  - destruct Hs as [Ho Hm]. rewrite gets_bind.
    change (cs_opts (set_RControl rc (at_world w s))) with (cs_opts s). rewrite Ho.
    change (context_msg (set_RControl rc (at_world w s))) with (context_msg s). rewrite Hm.
    unfold value. fold (unmarshalled d). destruct (unmarshalled d) as [m r] eqn:Hum. simpl in Hu. subst r.
    exists m, None, w, rc. split_and!; [by destruct s as [[] ?]| |done..].
    intros _. change (m = (unmarshalled d).1). by rewrite Hum.
Qed.
(** *** A user who reads to the end *)

(** What it got, and the error it got in the end. *)
Definition reading : Type := list (option Rsp) * option go_err.

#[local] Instance reader : Users Req Rsp reading := λ '(got, err),
  match err with
  | Some _ => UReturn
  | None => URecv (Some rsp0) (λ m err, match err with Some e => (got, Some e) | None => (got ++ [m], None) end)
  end.

Abbreviation reader_t := (user Req Rsp reading).
Abbreviation delivery := (stream_t * list bytes * reader_t)%type.

(** The messages of the server that end with CLOSE, whose data decompress and unmarshal. *)
Definition good (x : server_msg) : Prop :=
  match x with
  | SData b => ∃ d, body_of b = Ok d ∧ (unmarshalled d).2 = Ok ()
  | SFeedback _ => True
  | SClose _ => False
  end.

Definition puts (l : list server_msg) : list received_msg := mjoin (round_put <$> l).

(** What the reader did with the messages [log]; an error of the flow control may stop it. *)
Inductive reads (flow : bool) (log : list received_msg) : reader_t → Prop :=
| reads_on : Forall (λ r, r_err r = None) log → reads flow log (URunning (value <$> log, None))
| reads_end log' e : log = log' ++ [MkReceived [] (Some e)] → reads flow log (URunning (value <$> log', Some e))
| reads_fails log' d e : flow = true → feedback_error e → log = log' ++ [MkReceived d None] →
    reads flow log (URunning (value <$> log', Some e)).

Definition dispatched (s : stream_t) (pend : list server_msg) : Prop :=
  match cs_dispatch s with
  | DLoop => pend ≠ []
  | DNone => False
  | _ => pend = []
  end.

Record delivering (flow : bool) (all : list server_msg) (x : delivery) : Prop := {
  del_stream : of_stream x.1.1 ∧ ctx_err x.1.1 = None ∧ ServerStreams x.1.1 = true;
  del_flow : flow = false → cs_RControl x.1.1 = None;
  del_log : ∃ past pend log, all = past ++ pend ∧ Forall2 is_frame pend x.1.2 ∧ dispatched x.1.1 pend ∧
    log ++ cs_queue x.1.1 = puts past ∧ reads flow log x.2
}.

Lemma puts_app l k : puts (l ++ k) = puts l ++ puts k.
Proof. unfold puts. by rewrite fmap_app, join_app. Qed.

Definition sent_all (all : list server_msg) : Prop := ∃ pre c, all = pre ++ [SClose c] ∧ Forall good pre.

(** The next message of all is data or feedback, or the CLOSE at the end. *)
Lemma sent_next all past x pend : sent_all all → all = past ++ x :: pend →
  (good x ∧ pend ≠ []) ∨ (∃ c, x = SClose c ∧ pend = []).
Proof.
  intros (pre & c & -> & Hg) Hp. destruct pend as [|y pend] using rev_ind.
  - apply app_inj_tail in Hp as [_ <-]. eauto.
  - left. rewrite (cons_middle x), !app_assoc in Hp. apply app_inj_tail in Hp as [-> _].
    rewrite !Forall_app, Forall_singleton in Hg. split; [apply Hg|]. by destruct pend.
Qed.
(** What is in the queue: good data, or an error. *)
Definition queued (r : received_msg) : Prop :=
  (∃ d, r = MkReceived d None ∧ (unmarshalled d).2 = Ok ()) ∨ ∃ e, r = MkReceived [] (Some e).

Lemma good_items pre : Forall good pre → Forall (λ r, queued r ∧ r_err r = None) (puts pre).
Proof.
  induction 1 as [|[b|fb|c] pre Hx _ IH]; [constructor| |exact IH|done].
  destruct Hx as (d & Hd & Hu). change (puts (SData b :: pre)) with (round_put (SData b) ++ puts pre).
  simpl. rewrite Hd. constructor; [|exact IH]. split; [left; eauto|done].
Qed.

(** The error at the end. *)
Definition end_error (c : TrpcStreamCloseMeta) : go_err :=
  match close_rsp_err c None with
  | Some e => Own (StatusOf ErrorTypeFramework (i32 RetClientStreamReadEnd) streamClosed "trpc" e)
  | None => Own EOF_error
  end.

Lemma puts_close c : puts [SClose c] = [MkReceived [] (Some (end_error c))].
Proof. unfold puts, end_error. simpl. by destruct (close_rsp_err c None). Qed.

Lemma puts_items all past pend : sent_all all → all = past ++ pend → Forall queued (puts past).
Proof.
  intros (pre & c & -> & Hg) Hp. apply good_items in Hg.
  assert (Forall queued (puts (pre ++ [SClose c]))) as H'.
  { rewrite puts_app, puts_close, Forall_app, Forall_singleton. split; [|right; eauto].
    eapply Forall_impl; [exact Hg|]. by intros ? []. }
  rewrite Hp, puts_app, Forall_app in H'. apply H'.
Qed.

Definition dispatch_weight (d : dispatching) : nat :=
  match d with DLoop => 3 | DDeferred => 2 | DClosing => 1 | _ => 0 end.
Definition monitor_weight (m : monitoring) : nat :=
  match m with MSelect => 2 | MClosing => 1 | _ => 0 end.
Definition weight (x : delivery) : nat :=
  2 * length x.1.2 + length (cs_queue x.1.1) + dispatch_weight (cs_dispatch x.1.1) + monitor_weight (cs_monitor x.1.1).

Lemma round_put_length x : length (round_put x) ≤ 1.
Proof. destruct x as [b| |]; simpl; [destruct (body_of b); simpl; lia|lia..]. Qed.

Lemma delivering_dispatch flow all s f fs u :
  sent_all all → delivering flow all (s, f :: fs, u) → cs_dispatch s = DLoop →
  ∃ s', dispatch_round st (inl f) s = (Some (), s') ∧ delivering flow all (s', fs, u) ∧
    weight (s', fs, u) < weight (s, f :: fs, u).
Proof.
  intros Hall [(Hs & Hc & Hss) Hfl (past & pend & log & Hp & Hf & _ & Hl & Hr)] Hloop. simpl in *.
  inversion Hf as [|x ? pend' ? Hx Hf']; subst pend fs.
  pose proof (sent_next _ _ _ _ Hall Hp) as Hn.
  destruct (dispatch_sent s x f Hs Hx) as (w & c & Hd).
  { intros b ->. destruct Hn as [[(d & ? & _) _]|(c & ? & _)]; [eauto|done]. }
  exists (rounded x w c s). split; [done|]. split.
  - split; [done..|]. exists (past ++ [x]), pend', log. split_and!; [by rewrite <- app_assoc|done| | |done].
    + unfold dispatched. destruct Hn as [[Hg Hne]|(c' & -> & ->)]; [|done].
      simpl. by destruct x; rewrite ?Hloop.
    + simpl. rewrite app_assoc, Hl, puts_app. unfold puts at 3. simpl. by rewrite app_nil_r.
  - unfold weight. simpl. rewrite length_app, Hloop. pose proof (round_put_length x).
    destruct (is_close x); simpl; lia.
Qed.

Lemma delivering_end flow all s fs u k s' :
  delivering flow all (s, fs, u) → dispatch_end st s = Some k → k s = (Some (), s') →
  delivering flow all (s', fs, u) ∧ weight (s', fs, u) < weight (s, fs, u).
Proof.
  intros [(Hs & Hc & Hss) Hfl (past & pend & log & Hp & Hf & Hd & Hl & Hr)] Hk Hks. simpl in *.
  unfold dispatch_end in Hk. unfold dispatched in Hd. unfold weight.
  destruct (cs_dispatch s) eqn:Hdis; try done; injection Hk as <-; injection Hks as <-; subst pend;
    (split; [split; [done..|]; by exists past, [], log|simpl; rewrite Hdis; simpl; lia]).
Qed.

Lemma delivering_monitor flow all b s fs u k s' :
  delivering flow all (s, fs, u) → monitor_step st b s = Some k → k s = (Some (), s') →
  delivering flow all (s', fs, u) ∧ weight (s', fs, u) < weight (s, fs, u).
Proof.
  intros [(Hs & Hc & Hss) Hfl (past & pend & log & Hp & Hf & Hd & Hl & Hr)] Hk Hks. simpl in *.
  unfold monitor_step in Hk. rewrite Hc in Hk. simpl in Hk. unfold dispatched in Hd. unfold weight.
  destruct (cs_monitor s) eqn:Hmon; [done| | |done]; [destruct (cs_closed s); [|done]|];
    injection Hk as <-; injection Hks as <-; (split; [split; [done..|]; by exists past, pend, log|simpl; rewrite Hmon; simpl; lia]).
Qed.
Lemma reads_unreturned flow log u : reads flow log u → returned u = None →
  u = URunning (value <$> log, None) ∧ Forall (λ r, r_err r = None) log.
Proof. intros [] Hr; by simpl in Hr. Qed.

(** The step of the reader when there is something for it. *)
Lemma delivering_user flow all s fs u r rest :
  sent_all all → delivering flow all (s, fs, u) → returned u = None → cs_queue s = r :: rest →
  ∃ k u' s', user_step st s u = Some k ∧ k s = (Some u', s') ∧ delivering flow all (s', fs, u') ∧
    weight (s', fs, u') < weight (s, fs, u).
Proof.
  intros Hall [(Hs & Hc & Hss) Hfl (past & pend & log & Hp & Hf & Hd & Hl & Hr)] Hun Hq. simpl in *.
  destruct (reads_unreturned _ _ _ Hr Hun) as [-> Hlog].
  pose proof (puts_items _ _ _ Hall Hp) as Hit. rewrite <- Hl, Hq, Forall_app, Forall_cons in Hit.
  destruct Hit as (_ & Hit & _). set (s1 := s <| cs_queue := rest |>).
  eexists. unfold user_step, user_act, reader, queue_Get. rewrite Hq, Hss.
  destruct Hit as [(d & -> & Hu)|[e ->]].
  - destruct (recv_got_total s1 d Hs Hu) as (m & err & w & rc & Hg & Hm & Hn & He).
    exists (URunning (match err with Some e => (value <$> log, Some e) | None => ((value <$> log) ++ [m], None) end)),
      (set_RControl rc (at_world w s1)).
    split; [done|]. split; [|split].
    + unfold mbind, M_bind, modify. fold s1. rewrite Hg. by destruct err.
    + split; [done|intros Hff; simpl; apply Hn, (Hfl Hff)|].
      exists past, pend, (log ++ [MkReceived d None]). split_and!; [done..| |].
      * simpl. by rewrite <- app_assoc, <- Hl, Hq.
      * destruct err as [e|].
        -- eapply (reads_fails _ _ log d); [|by apply He|done]. destruct flow; [done|]. by destruct (Hn (Hfl eq_refl)).
        -- rewrite (Hm eq_refl). replace ((value <$> log) ++ [value (MkReceived d None)])
             with (value <$> (log ++ [MkReceived d None])) by by rewrite fmap_app.
           apply reads_on. rewrite Forall_app, Forall_singleton. done.
    + unfold weight. simpl. rewrite Hq. simpl. lia.
  - exists (URunning (value <$> log, Some e)), s1. split; [done|]. split; [done|]. split.
    + split; [done..|]. exists past, pend, (log ++ [MkReceived [] (Some e)]).
      split_and!; [done..| |by eapply reads_end]. simpl. by rewrite <- app_assoc, <- Hl, Hq.
    + unfold weight. simpl. rewrite Hq. simpl. lia.
Qed.

Lemma delivering_step flow all x y :
  sent_all all → delivering flow all x → sys_step st x y → delivering flow all y ∧ weight y < weight x.
Proof.
  intros Hall Hx Hst. inversion Hst as [s f fs u s' Hd Hr|s fs u k s' Hk Hks|b s fs u k s' Hk Hks|s fs u k u' s' Hun Hk Hks];
    subst.
  - destruct (delivering_dispatch _ _ _ _ _ _ Hall Hx Hd) as (s2 & Hr2 & ?). rewrite Hr in Hr2. by simplify_eq.
  - by eapply delivering_end.
  - by eapply delivering_monitor.
  - destruct (cs_queue s) as [|r rest] eqn:Hq.
    + destruct Hx as [(_ & Hc & _) _ (past & pend & log & _ & _ & _ & _ & Hr)]. simpl in *.
      destruct (reads_unreturned _ _ _ Hr Hun) as [-> _].
      unfold user_step, user_act, reader, queue_Get in Hk. by rewrite Hq, Hc in Hk.
    + destruct (delivering_user _ _ _ _ _ _ _ Hall Hx Hun Hq) as (k2 & u2 & s2 & Hk2 & Hks2 & ?).
      rewrite Hk in Hk2. simplify_eq. rewrite Hks in Hks2. by simplify_eq.
Qed.

(** A reader that has not returned is not stuck. *)
Lemma delivering_progress flow all x :
  sent_all all → delivering flow all x → returned x.2 = None → ∃ y, sys_step st x y.
Proof.
  destruct x as [[s fs] u]. intros Hall Hx Hun. simpl in Hun. destruct (cs_queue s) as [|r rest] eqn:Hq.
  - pose proof Hx as [_ _ (past & pend & log & Hp & Hf & Hd & Hl & Hr)]. simpl in *. unfold dispatched in Hd.
    destruct (cs_dispatch s) eqn:Hdis; [done| | | |].
    + destruct Hf as [|x f pend fs]; [done|].
      destruct (delivering_dispatch _ _ _ _ _ _ Hall Hx Hdis) as (s' & Hs' & _).
      eexists. by eapply step_dispatch.
    + eexists. eapply step_end; [unfold dispatch_end; by rewrite Hdis|done].
    + eexists. eapply step_end; [unfold dispatch_end; by rewrite Hdis|done].
    + destruct (reads_unreturned _ _ _ Hr Hun) as [_ Hlog]. destruct Hall as (pre & c & -> & _). subst pend.
      rewrite Hq, !app_nil_r in *. subst past. rewrite puts_app, puts_close in Hl. subst log.
      apply Forall_app in Hlog as [_ Hlog]. by apply Forall_cons in Hlog as [? _].
  - destruct (delivering_user _ _ _ _ _ _ _ Hall Hx Hun Hq) as (k & u' & s' & Hk & Hks & _).
    eexists. by eapply step_user.
Qed.
(** A stream that was opened: its dispatcher runs, and nothing was received yet. *)
Record opened (s : stream_t) : Prop := {
  opened_stream : of_stream s;
  opened_context : ctx_err s = None;
  opened_desc : ServerStreams s = true;
  opened_queue : cs_queue s = [];
  opened_dispatch : cs_dispatch s = DLoop
}.

(** The values that the data of the server hold. *)
Definition values (l : list server_msg) : list (option Rsp) :=
  x ← l;
  match x with
  | SData b => match body_of b with Ok d => [(unmarshalled d).1] | _ => [] end
  | _ => []
  end.

Lemma values_puts l : Forall good l → value <$> puts l = values l.
Proof.
  induction 1 as [|[b|fb|c] l Hx _ IH]; [done| |exact IH|done].
  destruct Hx as (d & Hd & _). change (puts (SData b :: l)) with (round_put (SData b) ++ puts l).
  change (values (SData b :: l)) with
    (match body_of b with Ok d => [(unmarshalled d).1] | _ => [] end ++ values l).
  simpl. by rewrite Hd, fmap_app, IH.
Qed.

Lemma opened_delivering s fs pre c :
  Forall2 is_frame (pre ++ [SClose c]) fs → opened s →
  delivering (bool_decide (is_Some (cs_RControl s))) (pre ++ [SClose c]) (s, fs, URunning ([], None)).
Proof.
  intros Hf [Hs Hc Hss Hq Hd]. split; simpl; [done| |].
  - intros Hn. apply bool_decide_eq_false in Hn. by apply eq_None_not_Some.
  - exists [], (pre ++ [SClose c]), []. split_and!; [done|done| |by rewrite Hq|by apply (reads_on _ [])].
    unfold dispatched. rewrite Hd. by destruct pre.
Qed.

(** An entry of the queue with an error is the last one. *)
Lemma error_last (ps l1 l2 : list received_msg) x z :
  Forall (λ r, r_err r = None) ps → r_err x ≠ None → l1 ++ x :: l2 = ps ++ [z] → l1 = ps ∧ x = z ∧ l2 = [].
Proof.
  intros Hps Hx E. destruct l2 as [|y l2 _] using rev_ind.
  - apply app_inj_tail in E as [-> ->]. done.
  - exfalso. rewrite app_comm_cons, app_assoc in E. apply app_inj_tail in E as [E _].
    rewrite <- E, Forall_app, Forall_cons in Hps. by destruct Hps as (_ & ? & _).
Qed.

(** What the reader has when it returns. *)
Lemma delivering_returned flow pre c x got e :
  Forall good pre → delivering flow (pre ++ [SClose c]) x → returned x.2 = Some (got, e) →
  (got = values pre ∧ e = Some (end_error c)) ∨
  (flow = true ∧ (∃ err, e = Some err ∧ feedback_error err) ∧ ∃ rest, rest ≠ [] ∧ values pre = got ++ rest).
Proof.
  intros Hg [_ _ (past & pend & log & Hp & _ & _ & Hl & Hr)] Hu.
  assert (log ++ cs_queue x.1.1 ++ puts pend = puts pre ++ [MkReceived [] (Some (end_error c))]) as E.
  { by rewrite app_assoc, Hl, <- puts_app, <- Hp, puts_app, puts_close. }
  assert (Forall (λ r, r_err r = None) (puts pre)) as Hn.
  { eapply Forall_impl; [by apply good_items|]. by intros ? []. }
  destruct Hr as [_|log' e' ->|log' d e' -> He ->]; simpl in Hu; [done|..]; simplify_eq.
  - left. rewrite <- app_assoc in E. simpl in E. apply error_last in E as (-> & E & _); [|done|done].
    simplify_eq. by rewrite values_puts.
  - right. split; [done|]. split; [by eexists|]. rewrite <- app_assoc in E. simpl in E.
    rewrite <- (values_puts pre Hg). destruct (cs_queue x.1.1 ++ puts pend) as [|y l _] using rev_ind.
    { apply app_inj_tail in E as [_ E]. by simplify_eq. }
    rewrite app_comm_cons, app_assoc in E. apply app_inj_tail in E as [<- _]. rewrite fmap_app.
    eexists. split; [|done]. done.
Qed.

(** No goroutine panics in its next step. *)
Definition panics (x : delivery) : Prop :=
  (∃ s f fs u, x = (s, f :: fs, u) ∧ cs_dispatch s = DLoop ∧ (dispatch_round st (inl f) s).1 = None) ∨
  ∃ k, user_step st x.1.1 x.2 = Some k ∧ (k x.1.1).1 = None.

Lemma delivering_total flow all x : sent_all all → delivering flow all x → ¬ panics x.
Proof.
  intros Hall Hx [(s & f & fs & u & -> & Hd & Hr)|(k & Hk & Hr)].
  - destruct (delivering_dispatch _ _ _ _ _ _ Hall Hx Hd) as (s' & E & _). by rewrite E in Hr.
  - destruct x as [[s fs] u]. simpl in *. destruct (returned u) as [h|] eqn:Hu.
    + destruct u as [h'| | |]; simpl in Hu; try done. destruct (user_act h') eqn:Ha; try done.
      unfold user_step in Hk. rewrite Ha in Hk. by simplify_eq.
    + destruct (cs_queue s) as [|r rest] eqn:Hq.
      * destruct Hx as [(_ & Hc & _) _ (past & pend & log & _ & _ & _ & _ & Hrd)]. simpl in *.
        destruct (reads_unreturned _ _ _ Hrd Hu) as [-> _].
        unfold user_step, user_act, reader, queue_Get in Hk. by rewrite Hq, Hc in Hk.
      * destruct (delivering_user _ _ _ _ _ _ _ Hall Hx Hu Hq) as (k2 & u2 & s2 & Hk2 & Hks2 & _).
        rewrite Hk in Hk2. simplify_eq. by rewrite Hks2 in Hr.
Qed.

Lemma delivering_run flow all x y n :
  sent_all all → delivering flow all x → nsteps (sys_step st) n x y →
  delivering flow all y ∧ n + weight y ≤ weight x.
Proof.
  intros Hall Hx Hr. induction Hr as [x|n x y z Hs _ IH]; [split; [done|lia]|].
  destruct (delivering_step _ _ _ _ Hall Hx Hs) as [Hy Hw]. destruct (IH Hy) as [Hz Hle]. split; [done|lia].
Qed.

(** C7. A stream delivers.  For a stream that was opened with the codec of the repository and whose user may get
    any number of messages, on which the server sends feedback and data that decompress and unmarshal, and then
    closes or resets it, and a user who calls [RecvMsg] until it fails, while the context does not end:
    however the frames arrive and the goroutines interleave, and whatever the transport answers, no
    goroutine panics; every run ends, after at most two steps per frame and five more; it does not end before
    the user has returned; and the user has got the values of all data in their order and then the end of the
    stream, io.EOF or the error of the server.  Only if the flow control is on and a feedback fails while
    the stream is open, the user gets the error of this feedback earlier, after a part of the values. *)
Theorem stream_delivers (pre : list server_msg) (c : TrpcStreamCloseMeta) (fs : list bytes) (s : stream_t) :
  Forall good pre → Forall2 is_frame (pre ++ [SClose c]) fs → opened s →
  (∀ n y, nsteps (sys_step st) n (s, fs, URunning ([], None)) y → n ≤ 2 * length fs + 5) ∧
  ∀ y, rtc (sys_step st) (s, fs, URunning ([], None)) y →
    ¬ panics y ∧
    (returned y.2 = None → ∃ z, sys_step st y z) ∧
    ∀ got e, returned y.2 = Some (got, e) →
      (got = values pre ∧ e = Some (end_error c)) ∨
      (is_Some (cs_RControl s) ∧ (∃ err, e = Some err ∧ feedback_error err) ∧
       ∃ rest, rest ≠ [] ∧ values pre = got ++ rest).
Proof.
  intros Hg Hf Ho. pose proof (opened_delivering _ _ _ _ Hf Ho) as Hx.
  assert (sent_all (pre ++ [SClose c])) as Hall by (by exists pre, c). split.
  - intros n y Hr. destruct (delivering_run _ _ _ _ _ Hall Hx Hr) as [_ Hle]. destruct Ho as [_ _ _ Hq Hd].
    unfold weight in Hle at 2. simpl in Hle. rewrite Hq, Hd in Hle. simpl in Hle.
    assert (monitor_weight (cs_monitor s) ≤ 2) by (destruct (cs_monitor s); simpl; lia). lia.
  - intros y Hr. apply rtc_nsteps in Hr as [n Hr]. destruct (delivering_run _ _ _ _ _ Hall Hx Hr) as [Hy _].
    split_and!; [by eapply delivering_total|by eapply delivering_progress|]. intros got e Hret.
    destruct (delivering_returned _ _ _ _ _ _ Hg Hy Hret) as [?|(Hfl & ? & ?)]; [by left|right].
    split; [|done]. by apply bool_decide_eq_true in Hfl.
Qed.
End delivery.

(** ** Opening, and what the end of the context does *)

Section context_end.
Context `{!PbEnum}.
Context {CB W F SF T P MP FB Req Rsp HU : Type} `{!Plugins CB W F SF T P MP FB} `{!ClientRuntime CB W Req Rsp}
        `{!Users Req Rsp HU}.
Variable st : ClientStreamTransport W P MP FB.
Abbreviation stream_t := (clientStream (CallEnv CB W F SF T P MP FB) (Options CB W F SF T P MP FB)).

Lemma bind_inv {S A B} (m : M S A) (k : A → M S B) s r s' :
  (x ← m; k x) s = (Some r, s') → ∃ x s1, m s = (Some x, s1) ∧ k x s1 = (Some r, s').
Proof. unfold mbind, M_bind. destruct (m s) as [[x|] s1]; [by eauto|done]. Qed.

Lemma ret_inv {S A} (x r : A) (s s' : S) : (mret x : M S A) s = (Some r, s') → x = r ∧ s = s'.
Proof. by intros [= -> ->]. Qed.

(** What opening leaves alone. *)
Lemma on_clone_keeps {A} (m : msg) (k : M (CallEnv CB W F SF T P MP FB) A) (s s' : stream_t) (r : option A) :
  on_clone m k s = (r, s') → ∃ e, s' = s <| cs_env := e |> ∧ c_msg e = context_msg s.
Proof. unfold on_clone. destruct (k _) as [r' e]. intros [= <- <-]. by eexists. Qed.

Lemma invoke_send_keeps (s s' : stream_t) r :
  invoke_send (Req:=Req) (Rsp:=Rsp) st s = (Some r, s') → cs_dispatch s = DNone → cs_closed s = false →
  cs_opts s' = cs_opts s ∧ cs_queue s' = cs_queue s ∧ ctx_err s' = ctx_err s ∧ ServerStreams s' = ServerStreams s ∧
  cs_dispatch s' = DNone ∧ cs_closed s' = false ∧ ∀ m, r = inl m → cs_monitor s' = MSelect.
Proof.
  unfold invoke_send. rewrite gets_bind. intros Hi Hd Hc. apply bind_inv in Hi as (x & s1 & H1 & Hi).
  assert (∃ e, s1 = s <| cs_env := e |>) as [e1 ->].
  { unfold on_context in H1. destruct (stream_Invoke st _ _) as [r' e]. simplify_eq. by eexists. }
  destruct x as [e|]; [by apply ret_inv in Hi as [<- <-]|]. rewrite gets_bind in Hi.
  apply bind_inv in Hi as ([] & s2 & H2 & Hi). unfold modify in H2. simplify_eq.
  apply bind_inv in Hi as ([err m] & s3 & H3 & Hi). apply on_clone_keeps in H3 as (e2 & -> & _).
  destruct err as [e|]; [by apply ret_inv in Hi as [<- <-]|].
  apply bind_inv in Hi as ([] & s4 & H4 & Hi). apply ret_inv in Hi as [<- <-].
  unfold set_monitor, modify in H4. by simplify_eq/=.
Qed.

(** A stream that [newStream] opened. *)
Lemma newStream_opens ssf options ctx method id opt e (s s' : stream_t) m r :
  newStream_send (Req:=Req) (Rsp:=Rsp) st ssf options ctx method id true opt e = Some (inl (s, m)) →
  invoke_recv st m r s = (Some None, s') → opened (cs_opts s') (context_msg s') s'.
Proof.
  unfold newStream_send. intros Ho. cbv zeta in Ho.
  match type of Ho with match ?x with _ => _ end = _ => destruct x as [[[o|err]|] e1]; [|by simplify_eq..] end.
  destruct (invoke_send st _) as [[[m'|err]|] s1] eqn:E; [|by simplify_eq..]. injection Ho as -> ->.
  apply invoke_send_keeps in E as (E1 & E2 & E3 & E4 & _); [|done..].
  unfold invoke_recv. rewrite gets_bind. intros Hi. apply bind_inv in Hi as ([x m1] & s2 & H2 & Hi).
  apply on_clone_keeps in H2 as (e2 & -> & _). destruct x as [x|]; [|by apply ret_inv in Hi as [? _]].
  destruct (msg_StreamFrame m1); try by apply ret_inv in Hi as [? _].
  apply bind_inv in Hi as ([] & s3 & H3 & Hi). unfold modify in H3. simplify_eq.
  apply bind_inv in Hi as ([] & s4 & H4 & Hi). apply ret_inv in Hi as [_ <-].
  unfold set_dispatch, modify in H4. simplify_eq/=.
  unfold configSendControl. by split; [split| | | |]; destruct (_ =? 0)%Z.
Qed.

(** If [invoke] fails at its [Recv], the goroutine that waits for the end of the context stays, though the
    caller has no stream: it waits until the context ends. *)
Lemma invoke_failed_leaks (s s1 s2 : stream_t) m r err b :
  invoke_send (Req:=Req) (Rsp:=Rsp) st s = (Some (inl m), s1) → cs_dispatch s = DNone → cs_closed s = false →
  ctx_err s = None → invoke_recv st m r s1 = (Some (Some err), s2) →
  cs_monitor s2 = MSelect ∧ cs_dispatch s2 = DNone ∧ monitor_step st b s2 = None.
Proof.
  intros E Hd Hc Hctx Hr. apply invoke_send_keeps in E as (_ & _ & E3 & _ & E5 & E6 & E7); [|done..].
  unfold invoke_recv in Hr. rewrite gets_bind in Hr. apply bind_inv in Hr as ([x m1] & s3 & H3 & Hr).
  apply on_clone_keeps in H3 as (e2 & -> & _).
  assert (s2 = s1 <| cs_env := e2 |>) as ->.
  { destruct x; [|by apply ret_inv in Hr as [_ <-]].
    destruct (msg_StreamFrame m1); try by apply ret_inv in Hr as [_ <-].
    apply bind_inv in Hr as ([] & s4 & _ & Hr). apply bind_inv in Hr as ([] & s5 & _ & Hr). by apply ret_inv in Hr as [? _]. }
  unfold monitor_step. simpl. rewrite (E7 m eq_refl), E3, Hctx, E6. done.
Qed.

(** Once the context has ended, or the stream is closed while a send waits for the window, no goroutine of the
    user waits any more. *)
Lemma context_end_wakes (s : stream_t) (u : user Req Rsp HU) :
  is_Some (ctx_err s) → u ≠ UEnded → (∀ m b k, u = UGetWindow m b k → is_Some (cs_SControl s)) →
  is_Some (user_step st s u).
Proof.
  intros [e He] Hu Hw. destruct u as [h|m b k|m k|]; simpl; [| | |done].
  - destruct (user_act h); try by eexists. unfold queue_Get. rewrite He. by destruct (cs_queue s); eexists.
  - destruct (Hw _ _ _ eq_refl) as [c ->]. rewrite He.
    rewrite (bool_decide_eq_true_2 (is_Some (Some e))) by done. rewrite orb_true_r.
    unfold GetWindow. by repeat case_match; simplify_eq; eexists.
  - unfold queue_Get. rewrite He. by destruct (cs_queue s); eexists.
Qed.

(** But a reader that goes on after the end of a stream whose context does not end waits for ever: the queue is
    empty, and the dispatcher has ended. *)
Lemma read_after_end_blocks (s : stream_t) (h : HU) m k fs :
  user_act h = URecv m k → cs_queue s = [] → ctx_err s = None → cs_dispatch s = DEnded → cs_monitor s = MEnded →
  ∀ z, ¬ sys_step st (s, fs, URunning h) z.
Proof.
  intros Ha Hq Hc Hd Hm z Hst.
  inversion Hst as [s' f fs' u s2 Hd' Hr|s' fs' u j s2 Hk Hks|b s' fs' u j s2 Hk Hks|s' fs' u j u' s2 Hun Hk Hks]; subst.
  - congruence.
  - unfold dispatch_end in Hk. by rewrite Hd in Hk.
  - unfold monitor_step in Hk. by rewrite Hm in Hk.
  - unfold user_step, queue_Get in Hk. by rewrite Ha, Hq, Hc in Hk.
Qed.
End context_end.

(** ** Examples *)
Module StreamClientExamples.
Import Sample.

Ltac go_eval := vm_compute; reflexivity.

Definition close_meta : TrpcStreamCloseMeta := MkClose 0 0 [] 0 ∅ 0.
Definition window_report : TrpcStreamFeedBackMeta := MkFeedback 2.

#[local] Instance req_msg : Message RequestProtocol := table [].
#[local] Instance rsp_msg : Message ResponseProtocol := table [].
(** The server answers INIT with a window of 8 bytes. *)
#[local] Instance init_meta_msg : Message TrpcStreamInitMeta := {
  marshal _ := inl (str_bytes "I"); unmarshal _ := inl (zero_init <| init_InitWindowSize := 8%Z |>)
}.
#[local] Instance close_msg : Message TrpcStreamCloseMeta := table [(close_meta, str_bytes "C")].
#[local] Instance close_msg_ok : MessageOk TrpcStreamCloseMeta.
Proof. apply table_ok. apply (bool_decide_unpack _). vm_compute. done. Defined.
#[local] Instance feedback_meta_msg : Message TrpcStreamFeedBackMeta := table [(window_report, str_bytes "F")].
#[local] Instance feedback_msg_ok : MessageOk TrpcStreamFeedBackMeta.
Proof. apply table_ok. apply (bool_decide_unpack _). vm_compute. done. Defined.

(** The world: the counter of request ids, and whether the transport of the stream was closed; then it refuses
    to send. *)
Definition World : Type := Z * bool.
Definition limit : Z := 100.
Definition no_leftover : bytes → ResponseProtocol := λ _, zero_rsp.
Definition set_ctr (n : Z) (w : World) : World := (n, w.2).

Definition refused : go_err := Own (NewFrameError RetServerSystemErr "Connection is Closed").
Definition transport : ClientStreamTransport World () () () := MkStreamTransport
  (λ w m _, (None, m, w)) (λ (w : World) _ _, (if w.2 then Some refused else None, w)) (λ (w : World) _, (w.1, true)).

Definition codec : ServerCodec World := trpc_client_codec limit "p" no_leftover fst set_ctr "".

#[local] Instance plugins : Plugins nat World () () () () () () := {
  GetClientCodec _ := Some codec;
  GetFramerBuilder _ := None;
  GetClientTransport _ := None;
  GetClientStreamTransport _ := None;
  DefaultClientTransport := None;
  tnet_DefaultClientTransport := None;
  discovery_Get _ := None;
  servicerouter_Get _ := None;
  loadbalance_Get _ := None;
  circuitbreaker_Get _ := None;
  selector_Get _ := None;
  DefaultSelector := Some (MkSelector (λ name _, mret (inl (new_node name "9.9.9.9:9"))) (λ _ _ _, mret None));
  filter_GetClient _ := None;
  GetStreamFilter _ := None
}.

#[local] Instance client_runtime : ClientRuntime nat World bytes bytes := {
  c_now _ := 0%Z;
  c_Err _ _ := None;
  is_ip_port _ := true;
  Resolve := MkAddr;
  cost_text _ := "0s";
  node_text _ := "node";
  c_compressors := ∅;
  c_serializers := {[0%Z := MkSerializer (λ b _, (b, Ok ())) Ok]}
}.

Definition o : Options nat World () () () () () () := zero_Options <| Codec := Some codec |>.
Definition m0 : msg := zero_msg <| clientRPCName := "/trpc.d.e.f/S" |>.

(** A stream that was opened, without flow control or with a window of 4 bytes. *)
Definition stream0 (r : option receiveControl) : clientStream (CallEnv nat World () () () () () ()) _ :=
  MkClientStream (MkCallEnv ∅ m0 (0, false)%Z [] None) o "/trpc.d.e.f/S" 100 true [] None false r None DLoop MSelect.

(** The server sends data and closes. *)
Definition addr0 : option Addr := Some (MkAddr "tcp" "h:1").
Definition server0 (t : Z) : msg :=
  WithFrameHead (zero_msg <| localAddr := addr0 |> <| remoteAddr := addr0 |>) (IFrameHead (MkFrameHead 1 t 0 0 100 1 0)).
Definition data_frame : bytes := frame_of (MkFrameHead 1 2 0 0 100 1 0) [] (str_bytes "ab") [].
Definition close_frame : bytes := frame_of (MkFrameHead 1 4 0 0 100 1 0) [] (str_bytes "C") [].

Definition sent : list server_msg := [SData (str_bytes "ab")].

Lemma frames_sent : Forall2 (is_frame limit) (sent ++ [SClose close_meta]) [data_frame; close_frame].
Proof.
  constructor; [|constructor; [|constructor]].
  - apply (data_is_frame limit (server0 2)); [|reflexivity].
    exists (MkFrameHead 1 2 0 0 100 1 0), ∅. split; [reflexivity|]. split; [|split; go_eval].
    unfold FrameHead_wf, is_u8, is_u16, is_u32. simpl. lia.
  - apply (close_is_frame limit (WithStreamFrame (server0 4) (IClose close_meta)) close_meta); [|reflexivity].
    exists (MkFrameHead 1 4 0 0 100 1 0), ∅. split; [reflexivity|]. split; [|split; go_eval].
    unfold FrameHead_wf, is_u8, is_u16, is_u32. simpl. lia.
Qed.

Lemma sent_good : Forall (good o m0 ([] : bytes)) sent.
Proof. constructor; [|constructor]. exists (str_bytes "ab"). split; go_eval. Qed.

Lemma stream0_opened r : opened o m0 (stream0 r).
Proof. split; try reflexivity. split; reflexivity. Qed.

#[local] Instance reader0 : Users bytes bytes reading := reader ([] : bytes).

Abbreviation delivery0 := (clientStream (CallEnv nat World () () () () () ()) (Options nat World () () () () () ()) *
  list bytes * user bytes bytes (@reading bytes))%type.

Definition x0 (r : option receiveControl) : delivery0 := (stream0 r, [data_frame; close_frame], URunning ([], None)).

Lemma stream_delivers_witness :
  (∀ n y, nsteps (sys_step transport) n (x0 None) y → n ≤ 9) ∧ ∃ z, sys_step transport (x0 None) z.
Proof.
  destruct (stream_delivers limit "p" no_leftover fst set_ctr "" transport o m0 eq_refl ([] : bytes) sent close_meta
    [data_frame; close_frame] (stream0 None) sent_good frames_sent (stream0_opened None)) as [H1 H2].
  split; [exact H1|]. apply (H2 _ (rtc_refl _ _)). reflexivity.
Defined.

(** A run by the choice of the goroutine that makes each step. *)
Inductive turn := Dispatch | End | User.

Definition take_turn (i : turn) (x : delivery0) : option delivery0 :=
  let '(s, fs, u) := x in
  match i, fs with
  | Dispatch, f :: fs =>
    match cs_dispatch s with
    | DLoop => match dispatch_round transport (inl f) s with (Some _, s) => Some (s, fs, u) | _ => None end
    | _ => None
    end
  | Dispatch, [] => None
  | End, _ => k ← dispatch_end transport s; match k s with (Some _, s) => Some (s, fs, u) | _ => None end
  | User, _ =>
    k ← user_step transport s u;
    match returned u with
    | None => match k s with (Some u, s) => Some (s, fs, u) | _ => None end
    | Some _ => None
    end
  end.

Definition takes (l : list turn) (x : delivery0) : option delivery0 := foldl (λ r i, r ≫= take_turn i) (Some x) l.

Lemma take_turn_step i x y : take_turn i x = Some y → sys_step transport x y.
Proof.
  destruct x as [[s fs] u]. destruct i; simpl.
  - destruct fs as [|f fs]; [done|]. destruct (cs_dispatch s) eqn:Hd; [done| |done..].
    destruct (dispatch_round transport (inl f) s) as [[[]|] s'] eqn:E; [|done]. intros [= <-]. by eapply step_dispatch.
  - destruct (dispatch_end transport s) as [k|] eqn:E; [|done]. simpl.
    destruct (k s) as [[[]|] s'] eqn:Ek; [|done]. intros [= <-]. by eapply step_end.
  - destruct (user_step transport s u) as [k|] eqn:E; [|done]. simpl. destruct (returned u) eqn:Hr; [done|].
    destruct (k s) as [[u'|] s'] eqn:Ek; [|done]. intros [= <-]. by eapply step_user.
Qed.

Lemma takes_steps l x y : takes l x = Some y → rtc (sys_step transport) x y.
Proof.
  unfold takes. revert x y. induction l as [|i l IH] using rev_ind; intros x y H; simpl in H; [simplify_eq; apply rtc_refl|].
  rewrite foldl_app in H. simpl in H. destruct (foldl _ _ l) as [z|] eqn:E; [|done]. simpl in H.
  eapply rtc_r; [by apply IH|by eapply take_turn_step].
Qed.

(** The user gets the data and the end of the stream. *)
Example delivered :
  (y ← takes [Dispatch; User; Dispatch; End; User] (x0 None); returned y.2) =
  Some ([Some (str_bytes "ab")], Some (Own EOF_error)).
Proof. go_eval. Qed.

(** With flow control on and the same frames: the dispatcher closes the transport before it sets [closed]; a
    user who reads in between reports the data it took, the transport refuses, and the user gets the error of
    the transport in place of data and end, which have both arrived. *)
Lemma feedback_refused :
  ∃ y, rtc (sys_step transport) (x0 (Some (newReceiveControl 4))) y ∧ returned y.2 = Some ([], Some refused).
Proof.
  assert ((y ← takes [Dispatch; Dispatch; End; User] (x0 (Some (newReceiveControl 4))); returned y.2) =
    Some ([], Some refused)) as H by go_eval.
  destruct (takes _ _) as [y|] eqn:E; [|done]. exists y. split; [by apply (takes_steps _ _ _ E)|exact H].
Qed.
(** A stream is opened with the windows of both sides. *)
Definition init_frame : bytes := frame_of (MkFrameHead 1 1 0 0 100 1 0) [] (str_bytes "I") [].

Example newStream_runs :
  match newStream_send (Req:=bytes) (Rsp:=bytes) transport () ∅ (MkClientContext background None false) "/trpc.d.e.f/S" (next_streamID 99) true
          [ClientOptions.WithServiceName "trpc.d.e.f"] (MkCallEnv ∅ m0 (0, false)%Z [] None) with
  | Some (inl (s, m)) =>
    let '(r, s) := invoke_recv transport m (inl init_frame) s in
    r = Some None ∧ cs_dispatch s = DLoop ∧ cs_streamID s = 100%Z ∧ msg_ClientRPCName (context_msg s) = "/trpc.d.e.f/S" ∧
    cs_RControl s = Some (newReceiveControl 65535) ∧ cs_SControl s = Some (newSendControl 8)
  | _ => False
  end.
Proof. vm_compute. done. Qed.
End StreamClientExamples.
