(* ===== verification/Plugin.v ===== *)
(** Plugin registration and the set-up of the configured plugins in the order of their
    dependencies (plugin/plugin.go, plugin/setup.go).

    What a factory does is code outside the framework: a [Factory] holds the outcome of
    each method, with [None] for an optional interface it does not implement.  Go visits a
    map in an arbitrary order, so the configuration is any list of its entries. *)

From S2P Require Import Prelude Errs.

(** [Setup] returns [None] when it does not come back within [SetupTimeout]. *)
Record Factory := MkFactory {
  Type_ : string;
  Setup : string → option (option error);
  DependsOn : option (list string);
  FlexDependsOn : option (list string);
  OnFinish : option (string → option error);
  Close : option (option error)
}.

(** ** The registry (plugin.go) *)

Abbreviation registry := (gmap string (gmap string Factory)).

Definition Register (plugins : registry) (name : string) (f : Factory) : registry :=
  <[Type_ f := <[name := f]> (default ∅ (plugins !! Type_ f))]> plugins.

Definition Get (plugins : registry) (typ name : string) : option Factory :=
  m ← plugins !! typ; m !! name.

(** ** One plugin (setup.go) *)

Record pluginInfo := MkPlugin { factory : Factory; typ : string; name : string }.

Definition key (p : pluginInfo) : string := typ p +:+ "-" +:+ name p.

Definition errSelfDependence : error := Plain "plugin not allowed to depend on itself".
Definition errNotExists (name : string) : error :=
  Plain ("depends plugin " +:+ name +:+ " not exists").
Definition errCycle : error := Plain "cycle depends, not plugin is setup".

Abbreviation status := (gmap string bool).

Fixpoint checkDependence (p : pluginInfo) (st : status) (dependences : list string)
    (flexible : bool) : result bool :=
  match dependences with
  | [] => Ok false
  | name :: dependences =>
    if decide (name = key p) then Err errSelfDependence
    else match st !! name with
      | None => if flexible then checkDependence p st dependences flexible
                else Err (errNotExists name)
      | Some false => Ok true
      | Some true => checkDependence p st dependences flexible
      end
  end.

Definition hasDependence (p : pluginInfo) (st : status) : result bool :=
  do hasDeps <- match DependsOn (factory p) with
                | Some deps => checkDependence p st deps false
                | None => Ok false
                end;
  if hasDeps then Ok true
  else match FlexDependsOn (factory p) with
    | Some deps => checkDependence p st deps true
    | None => Ok false
    end.

(** The method [setup]: the error it returns. *)
Definition setup (p : pluginInfo) : option error :=
  match Setup (factory p) (name p) with
  | None => Some (Plain ("setup plugin " +:+ key p +:+ " timeout"))
  | Some None => None
  | Some (Some err) => Some (Plain ("setup plugin " +:+ key p +:+ " error: " +:+ Error err))
  end.

(** ** Loading *)

Definition errNotRegistered (typ name : string) : error :=
  Plain ("plugin " +:+ typ +:+ ":" +:+ name +:+ " no registered or imported, do not configure").

(** The queue is a channel of capacity [MaxPluginSize]. *)
Fixpoint loadPlugins (reg : registry) (MaxPluginSize : nat) (c : list (string * string))
    (plugins : list pluginInfo) (st : status) : result (list pluginInfo * status) :=
  match c with
  | [] => Ok (plugins, st)
  | (typ, name) :: c =>
    match Get reg typ name with
    | None => Err (errNotRegistered typ name)
    | Some factory =>
      let p := MkPlugin factory typ name in
      if decide (length plugins < MaxPluginSize)
      then loadPlugins reg MaxPluginSize c (plugins ++ [p]) (<[key p := false]> st)
      else Err (Plain ("plugin number exceed max limit:" +:+ pretty (length plugins)))
    end
  end.

(** ** Setting up *)

(** The local state of [setupPlugins]; [started] are the plugins whose [Setup] was called. *)
Record state := MkState {
  plugins : list pluginInfo;
  st : status;
  result_ : list pluginInfo;
  closes : list (option error);
  started : list pluginInfo
}.

(** The inner loop, which takes [n] plugins off the queue.  [None] is that the receive from
    the queue blocks for ever; otherwise the error, if any, and the state. *)
Fixpoint pass (n : nat) (s : state) : option (option error * state) :=
  match n with
  | O => Some (None, s)
  | S n =>
    match plugins s with
    | [] => None
    | p :: ps =>
      match hasDependence p (st s) with
      | Ok true => pass n (MkState (ps ++ [p]) (st s) (result_ s) (closes s) (started s))
      | Ok false =>
        let started := started s ++ [p] in
        match setup p with
        | Some err => Some (Some err, MkState ps (st s) (result_ s) (closes s) started)
        | None =>
          let closes := match Close (factory p) with
                        | Some close => closes s ++ [close]
                        | None => closes s
                        end in
          pass n (MkState ps (<[key p := true]> (st s)) (result_ s ++ [p]) closes started)
        end
      | Err err => Some (Some err, MkState ps (st s) (result_ s) (closes s) (started s))
      | Panic => None
      end
    end
  end.

(** The outer loop; [fuel] bounds the number of passes. *)
Fixpoint setup_loop (fuel : nat) (s : state) : option (option error * state) :=
  let num := length (plugins s) in
  if decide (num = 0) then Some (None, s) else
  match fuel with
  | O => None
  | S fuel =>
    match pass num s with
    | None => None
    | Some (Some err, s) => Some (Some err, s)
    | Some (None, s) =>
      if decide (length (plugins s) = num) then Some (Some errCycle, s)
      else setup_loop fuel s
    end
  end.

Definition setupPlugins (plugins : list pluginInfo) (st : status) : option (option error * state) :=
  setup_loop (length plugins) (MkState plugins st [] [] []).

(** The method [onFinish] of the configuration: it stops at the first error. *)
Fixpoint onFinish (plugins : list pluginInfo) : option error :=
  match plugins with
  | [] => None
  | p :: plugins =>
    match OnFinish (factory p) with
    | None => onFinish plugins
    | Some f => match f (name p) with
                | Some err => Some err
                | None => onFinish plugins
                end
    end
  end.

(** The function that [SetupClosables] returns: the closers that are called, in the order of
    the calls, and the error. *)
Fixpoint close_loop (closes : list (option error)) : list (option error) * option error :=
  match closes with
  | [] => ([], None)
  | c :: closes =>
    match c with
    | Some err => ([c], Some err)
    | None => let '(called, err) := close_loop closes in (c :: called, err)
    end
  end.

Definition close (closes : list (option error)) : list (option error) * option error :=
  close_loop (rev closes).

(** [SetupClosables]: the closers of the returned function, or the error. *)
Definition SetupClosables (reg : registry) (MaxPluginSize : nat) (c : list (string * string))
    : option (result (list (option error))) :=
  match loadPlugins reg MaxPluginSize c [] ∅ with
  | Err e => Some (Err e)
  | Panic => Some Panic
  | Ok (plugins, st) =>
    match setupPlugins plugins st with
    | None => None
    | Some (Some err, _) => Some (Err err)
    | Some (None, s) =>
      match onFinish (result_ s) with
      | Some err => Some (Err err)
      | None => Some (Ok (closes s))
      end
    end
  end.

(** ** Dependencies *)

Definition keys (l : list pluginInfo) : list string := key <$> l.

Definition strong (p : pluginInfo) : list string := default [] (DependsOn (factory p)).
Definition flex (p : pluginInfo) : list string := default [] (FlexDependsOn (factory p)).

(** The dependencies that count: the strong ones, and the weak ones that are configured. *)
Definition required (configured : list string) (p : pluginInfo) (d : string) : Prop :=
  d ∈ strong p ∨ (d ∈ flex p ∧ d ∈ configured).

(** Every plugin comes after all its dependencies. *)
Definition ordered (configured : list string) (l : list pluginInfo) : Prop :=
  ∀ i p d, l !! i = Some p → required configured p d → d ∈ keys (take i l).

(** A rank of the keys that every dependency lowers: there is no cycle. *)
Definition acyclic (all : list pluginInfo) : Prop :=
  ∃ rank : string → nat, ∀ p d, p ∈ all → required (keys all) p d → rank d < rank (key p).

(** The status of the configured plugins while [done] are set up. *)
Definition status_of (all done : list pluginInfo) (st : status) : Prop :=
  ∀ k, st !! k = if decide (k ∈ keys all) then Some (bool_decide (k ∈ keys done)) else None.

Lemma checkDependence_cases p st deps flexible :
  match checkDependence p st deps flexible with
  | Ok false => ∀ d, d ∈ deps → st !! d = Some true ∨ (flexible = true ∧ st !! d = None)
  | Ok true => ∃ d, d ∈ deps ∧ st !! d = Some false
  | Err _ => key p ∈ deps ∨ (flexible = false ∧ ∃ d, d ∈ deps ∧ st !! d = None)
  | Panic => False
  end.
Proof.
  induction deps as [|d deps IH]; simpl; [by intros d ?%elem_of_nil|].
  case_decide as Hd; [subst; left; apply list_elem_of_here|].
  destruct (st !! d) as [[]|] eqn:E; [|exists d; split; [apply list_elem_of_here|done]|].
  - destruct (checkDependence _ _ _ _) as [[]| |]; set_solver.
  - destruct flexible; [destruct (checkDependence _ _ _ _) as [[]| |]; set_solver|].
    right. split; [done|]. exists d. split; [apply list_elem_of_here|done].
Qed.

Lemma hasDependence_cases all done p st :
  status_of all done st →
  match hasDependence p st with
  | Ok false => ∀ d, required (keys all) p d → d ∈ keys done
  | Ok true => ∃ d, required (keys all) p d ∧ d ∈ keys all ∧ d ∉ keys done
  | Err _ => key p ∈ strong p ∨ key p ∈ flex p ∨ ∃ d, d ∈ strong p ∧ d ∉ keys all
  | Panic => False
  end.
Proof.
  intros Hst.
  assert (∀ d, st !! d = Some true → d ∈ keys done) as Htrue.
  { intros d. rewrite Hst. case_decide; [|done]. intros [= ?%bool_decide_eq_true]. done. }
  assert (∀ d, st !! d = Some false → d ∈ keys all ∧ d ∉ keys done) as Hfalse.
  { intros d. rewrite Hst. case_decide; [|done]. intros [= ?%bool_decide_eq_false]. done. }
  assert (∀ d, st !! d = None → d ∉ keys all) as Hnone.
  { intros d. rewrite Hst. by case_decide. }
  unfold hasDependence, required, strong, flex.
  pose proof (checkDependence_cases p st (default [] (DependsOn (factory p))) false) as H1.
  pose proof (checkDependence_cases p st (default [] (FlexDependsOn (factory p))) true) as H2.
  destruct (DependsOn (factory p)) as [deps|], (FlexDependsOn (factory p)) as [fdeps|]; simpl in *;
    repeat match goal with
    | |- context [checkDependence ?a ?b ?c ?d] => destruct (checkDependence a b c d) as [[]| |]; simpl
    end; try naive_solver.
Qed.

(** ** The loops *)

(** The state between two plugins, when no error has occurred. *)
Record inv (all : list pluginInfo) (s : state) : Prop := {
  inv_perm : plugins s ++ result_ s ≡ₚ all;
  inv_st : status_of all (result_ s) (st s);
  inv_ord : ordered (keys all) (result_ s);
  inv_started : started s = result_ s;
  inv_closes : closes s = omap (λ p, Close (factory p)) (result_ s)
}.

(** What holds after an error too. *)
Definition safe (all : list pluginInfo) (s : state) : Prop :=
  ordered (keys all) (started s) ∧ started s ⊆+ all.

(** What makes setting up fail, other than a cycle. *)
Definition defect (all : list pluginInfo) : Prop :=
  ∃ p, p ∈ all ∧ (key p ∈ strong p ∨ key p ∈ flex p ∨ (∃ d, d ∈ strong p ∧ d ∉ keys all) ∨
                  setup p ≠ None).

(** A plugin that waits for a configured plugin that is not set up. *)
Definition waits (all done : list pluginInfo) (p : pluginInfo) : Prop :=
  ∃ d, required (keys all) p d ∧ d ∈ keys all ∧ d ∉ keys done.

Lemma ordered_snoc c l p :
  ordered c l → (∀ d, required c p d → d ∈ keys l) → ordered c (l ++ [p]).
Proof.
  intros Hl Hp i q d Hi Hd. apply lookup_app_Some in Hi as [Hi|[Hle Hi]].
  - rewrite take_app_le by (apply lookup_lt_Some in Hi; lia). by eapply Hl.
  - apply list_lookup_singleton_Some in Hi as [Hi <-].
    rewrite take_app_ge, Hi by lia. simpl. rewrite app_nil_r. by apply Hp.
Qed.

Lemma status_of_snoc all done p st :
  p ∈ all → status_of all done st → status_of all (done ++ [p]) (<[key p := true]> st).
Proof.
  intros Hp Hst k. unfold status_of, keys in *. rewrite fmap_app. destruct (decide (k = key p)) as [->|Hne].
  - rewrite lookup_insert_eq, decide_True by (by apply list_elem_of_fmap_2).
    rewrite bool_decide_true; [done|]. set_solver.
  - rewrite lookup_insert_ne by done. rewrite Hst. case_decide; [|done]. do 2 f_equal.
    apply bool_decide_ext. set_solver.
Qed.

Lemma inv_safe all s : inv all s → safe all s.
Proof.
  intros [Hp _ Ho Hs _]. split; [by rewrite Hs|]. rewrite Hs, <- Hp. by apply submseteq_inserts_l.
Qed.

Lemma inv_in all p ps s : inv all s → plugins s = p :: ps → p ∈ all.
Proof. intros H E. rewrite <- (inv_perm _ _ H), E. simpl. apply list_elem_of_here. Qed.

(** A plugin without missing dependencies is set up. *)
Lemma inv_setup all p ps s :
  inv all s → plugins s = p :: ps → (∀ d, required (keys all) p d → d ∈ keys (result_ s)) →
  safe all (MkState ps (st s) (result_ s) (closes s) (started s ++ [p])) ∧
  inv all (MkState ps (<[key p := true]> (st s)) (result_ s ++ [p])
             (match Close (factory p) with Some c => closes s ++ [c] | None => closes s end)
             (started s ++ [p])).
Proof.
  intros H E Hd. pose proof (inv_in _ _ _ _ H E) as Hin. destruct H as [Hp Hst Ho Hs Hc].
  rewrite E in Hp. assert (ps ++ result_ s ++ [p] ≡ₚ all) as Hp'.
  { rewrite <- Hp. simpl. rewrite app_assoc. by rewrite <- Permutation_cons_append. }
  split.
  - split; simpl; rewrite Hs; [by apply ordered_snoc|]. rewrite <- Hp'. by apply submseteq_inserts_l.
  - constructor; simpl.
    + done.
    + by apply status_of_snoc.
    + by apply ordered_snoc.
    + by rewrite Hs.
    + rewrite omap_app. simpl. rewrite Hc. by destruct (Close _); rewrite ?app_nil_r.
Qed.

(** One pass over the queue. *)
Lemma pass_spec all n s :
  inv all s → n ≤ length (plugins s) →
  ∃ err s', pass n s = Some (err, s') ∧
  match err with
  | Some _ => safe all s' ∧ defect all
  | None =>
    inv all s' ∧ length (plugins s') ≤ length (plugins s) ∧
    (length (plugins s') = length (plugins s) →
     plugins s' ≡ₚ plugins s ∧ result_ s' = result_ s ∧
     Forall (waits all (result_ s)) (take n (plugins s)))
  end.
Proof.
  revert s. induction n as [|n IH]; intros s H Hn.
  { exists None, s. split; [done|]. split_and!; [done|done|]. intros _. by split_and!. }
  simpl. destruct (plugins s) as [|p ps] eqn:E; [simpl in Hn; lia|].
  pose proof (inv_in _ _ _ _ H E) as Hin.
  pose proof (hasDependence_cases all (result_ s) p (st s) (inv_st _ _ H)) as Hdep.
  destruct (hasDependence p (st s)) as [[]|e|]; [| | |done].
  - destruct (IH (MkState (ps ++ [p]) (st s) (result_ s) (closes s) (started s)))
      as (err & s' & -> & Hs').
    { destruct H as [Hp Hst Ho Hs Hc]. constructor; simpl; [|done..]. rewrite <- Hp, E.
      f_equiv. symmetry. apply Permutation_cons_append. }
    { simpl in *. rewrite length_app. simpl. lia. }
    exists err, s'. split; [done|]. destruct err; [done|]. simpl in *.
    rewrite length_app in Hs'. simpl in Hs'. destruct Hs' as (Hi & Hle & Heq).
    split_and!; [done|lia|]. intros Hlen. destruct Heq as (Hperm & Hres & Hw); [lia|].
    rewrite Hperm, Hres. split_and!; [symmetry; apply Permutation_cons_append|done|].
    constructor; [done|]. rewrite take_app_le in Hw by (simpl in *; lia). done.
  - destruct (inv_setup _ _ _ _ H E Hdep) as [Hsafe Hinv].
    destruct (setup p) as [err|] eqn:Es.
    + eexists _, _. split; [done|]. split; [done|]. exists p. split; [done|].
      do 3 right. by rewrite Es.
    + destruct (IH _ Hinv) as (err & s' & -> & Hs'); [simpl in *; lia|].
      exists err, s'. split; [done|]. destruct err; [done|]. simpl in *.
      destruct Hs' as (Hi & Hle & _). split_and!; [done|lia|]. lia.
  - eexists _, _. split; [done|]. split.
    + destruct (inv_safe _ _ H). done.
    + exists p. split; [done|]. tauto.
Qed.

(** When every plugin of the queue waits, there is a cycle: a plugin of least rank does not. *)
Lemma waits_cycle all l done :
  l ≠ [] → l ++ done ≡ₚ all → Forall (waits all done) l → ¬ acyclic all.
Proof.
  intros Hne Hp Hw [rank Hr].
  assert (∀ n p, p ∈ l → rank (key p) < n → False) as Hmin.
  { induction n as [|n IH]; intros p Hin Hlt; [lia|].
    rewrite Forall_forall in Hw. destruct (Hw p Hin) as (d & Hreq & Hd & Hnd).
    assert (p ∈ all) as Hpa by (rewrite <- Hp; set_solver).
    pose proof (Hr p d Hpa Hreq). unfold keys in Hd, Hnd.
    rewrite <- Hp, fmap_app in Hd. apply elem_of_app in Hd as [Hd|Hd]; [|done].
    apply list_elem_of_fmap in Hd as (q & -> & Hq). apply (IH q Hq). lia. }
  destruct l as [|p l]; [done|]. eapply Hmin; [apply list_elem_of_here|]. constructor.
Qed.

Lemma setup_loop_spec all fuel s :
  inv all s → length (plugins s) ≤ fuel →
  ∃ err s', setup_loop fuel s = Some (err, s') ∧ safe all s' ∧
  match err with
  | Some e => defect all ∨ (e = errCycle ∧ ¬ acyclic all)
  | None => inv all s' ∧ plugins s' = []
  end.
Proof.
  revert s. induction fuel as [|fuel IH]; intros s H Hf.
  - destruct (plugins s) eqn:E; [|simpl in Hf; lia]. simpl. rewrite E. simpl.
    eexists _, _. split; [done|]. split; [by apply inv_safe|done].
  - cbn [setup_loop]. case_decide as H0.
    + eexists _, _. split; [done|]. split; [by apply inv_safe|]. split; [done|by apply nil_length_inv].
    + destruct (pass_spec all (length (plugins s)) s H) as (err & s1 & -> & Hs1); [done|].
      destruct err as [e|].
      * destruct Hs1 as [Hsafe Hdef]. eexists _, _. split; [done|]. split; [done|by left].
      * destruct Hs1 as (Hi & Hle & Heq). case_decide as Hlen; [|apply IH; [done|lia]].
        eexists _, _. split; [done|]. split; [by apply inv_safe|]. right. split; [done|].
        destruct (Heq Hlen) as (Hperm & Hres & Hw). rewrite take_ge in Hw by lia.
        apply (waits_cycle all (plugins s) (result_ s)); [by intros E; rewrite E in H0| |done].
        apply (inv_perm _ _ H).
Qed.

(** ** From the configuration *)

(** The plugins of the configured entries. *)
Definition infos (reg : registry) (c : list (string * string)) : list pluginInfo :=
  omap (λ e, (λ f, MkPlugin f e.1 e.2) <$> Get reg e.1 e.2) c.

Lemma status_of_load all p st :
  status_of all [] st → status_of (all ++ [p]) [] (<[key p := false]> st).
Proof.
  intros Hst k. unfold status_of, keys in *. rewrite fmap_app.
  destruct (decide (k = key p)) as [->|Hne].
  - rewrite lookup_insert_eq, decide_True by set_solver. by rewrite bool_decide_false by set_solver.
  - rewrite lookup_insert_ne, Hst by done.
    destruct (decide (k ∈ key <$> all)); [rewrite decide_True by set_solver|
      rewrite decide_False by set_solver]; done.
Qed.

Lemma loadPlugins_spec reg max c pre st :
  status_of pre [] st →
  match loadPlugins reg max c pre st with
  | Ok (all, st') => all = pre ++ infos reg c ∧ status_of all [] st'
  | Err _ => (∃ e, e ∈ c ∧ Get reg e.1 e.2 = None) ∨ max < length pre + length c
  | Panic => False
  end.
Proof.
  revert pre st. induction c as [|[t n] c IH]; intros pre st Hst; simpl; [by rewrite app_nil_r|].
  destruct (Get reg t n) as [f|] eqn:E; simpl.
  - case_decide; [|right; lia].
    specialize (IH _ _ (status_of_load pre (MkPlugin f t n) st Hst)).
    destruct (loadPlugins _ _ _ _ _) as [[all st']|e|]; [| |done].
    + by rewrite <- app_assoc in IH.
    + rewrite length_app in IH. simpl in IH. destruct IH as [(e' & ? & ?)|?]; [|right; lia].
      left. exists e'. split; [by apply list_elem_of_further|done].
  - left. exists (t, n). split; [apply list_elem_of_here|done].
Qed.

Lemma setupPlugins_spec reg max c all st :
  loadPlugins reg max c [] ∅ = Ok (all, st) →
  all = infos reg c ∧
  ∃ err s', setupPlugins all st = Some (err, s') ∧ safe all s' ∧
  match err with
  | Some e => defect all ∨ (e = errCycle ∧ ¬ acyclic all)
  | None => inv all s' ∧ plugins s' = []
  end.
Proof.
  intros E. pose proof (loadPlugins_spec reg max c [] ∅) as H. rewrite E in H.
  destruct H as [-> Hst]; [intros k; by rewrite lookup_empty|]. split; [done|].
  apply setup_loop_spec; [|done]. constructor; simpl; [by rewrite app_nil_r|done| |done|done].
  by intros i q d Hi.
Qed.

(** C31. The set-up of the plugins always comes to an end and never starts a plugin before the
    plugins it depends on: whatever the order in which the configuration is visited, and
    also when it fails half-way, every started plugin comes after all its strong dependencies
    and after its weak dependencies that are configured.  When it succeeds, every configured
    plugin was set up exactly once; it fails only when a plugin depends on itself or on one
    that is not configured, its [Setup] fails, or there is a cycle of dependencies. *)
Theorem setupPlugins_ordered (reg : registry) (max : nat) (c : list (string * string))
    (all : list pluginInfo) (st : status) :
  loadPlugins reg max c [] ∅ = Ok (all, st) →
  ∃ err s, setupPlugins all st = Some (err, s) ∧
    ordered (keys all) (started s) ∧ started s ⊆+ all ∧
    match err with
    | None => started s ≡ₚ all ∧ result_ s = started s
    | Some e => defect all ∨ (e = errCycle ∧ ¬ acyclic all)
    end.
Proof.
  intros E. destruct (setupPlugins_spec _ _ _ _ _ E) as (_ & err & s & -> & [Ho Hsub] & Herr).
  exists err, s. split_and!; [done..|]. destruct err; [done|]. destruct Herr as [[Hp _ _ Hs _] E0].
  rewrite E0 in Hp. by rewrite Hs.
Qed.

Lemma onFinish_None l :
  (∀ p f, p ∈ l → OnFinish (factory p) = Some f → f (name p) = None) → onFinish l = None.
Proof.
  induction l as [|p l IH]; intros H; [done|]. simpl.
  assert (onFinish l = None) as Hl.
  { apply IH. intros q f Hq. apply H. by apply list_elem_of_further. }
  destruct (OnFinish (factory p)) as [f|] eqn:E; [|done].
  by rewrite (H p f (list_elem_of_here _ _) E).
Qed.

Lemma close_loop_all l : Forall (λ c, c = None) l → close_loop l = (l, None).
Proof. induction 1 as [|c l -> Hl IH]; simpl; [done|]. by rewrite IH. Qed.

(** C32. A sound configuration is set up completely: when every entry is registered, they are
    not too many, no plugin depends on itself or on a plugin that is not configured, the
    dependencies have no cycle and no factory reports an error, [SetupClosables] succeeds; its
    result closes the plugins in the reverse of an order that respects the dependencies. *)
Theorem SetupClosables_complete (reg : registry) (max : nat) (c : list (string * string)) :
  (∀ e, e ∈ c → Get reg e.1 e.2 ≠ None) → length c ≤ max →
  ¬ defect (infos reg c) → acyclic (infos reg c) →
  (∀ p f, p ∈ infos reg c → OnFinish (factory p) = Some f → f (name p) = None) →
  (∀ p e, p ∈ infos reg c → Close (factory p) = Some e → e = None) →
  ∃ l closers, SetupClosables reg max c = Some (Ok closers) ∧
    l ≡ₚ infos reg c ∧ ordered (keys (infos reg c)) l ∧
    closers = omap (λ p, Close (factory p)) l ∧ close closers = (rev closers, None).
Proof.
  intros Hreg Hmax Hdef Hac Hfin Hclose. unfold SetupClosables.
  pose proof (loadPlugins_spec reg max c [] ∅) as Hload.
  destruct (loadPlugins reg max c [] ∅) as [[all st]|e|] eqn:E.
  - destruct (setupPlugins_spec _ _ _ _ _ E) as (-> & err & s & -> & Hsafe & Herr).
    destruct err as [e|]; [by destruct Herr as [|[_ ?]]|].
    destruct Herr as [[Hp _ Ho _ Hc] E0]. rewrite E0 in Hp. simpl in Hp.
    rewrite onFinish_None by (intros p f Hin; apply Hfin; by rewrite <- Hp).
    exists (result_ s), (closes s). split_and!; [done..|].
    unfold close. apply close_loop_all. rewrite Hc. apply Forall_rev, Forall_forall.
    intros x Hx. apply list_elem_of_omap in Hx as (p & Hp' & Hx). eapply Hclose; [|done].
    by rewrite <- Hp.
  - destruct Hload as [(e' & Hin & Hn)|Hlt]; [intros k; by rewrite lookup_empty| |simpl in Hlt; lia].
    by edestruct Hreg.
  - destruct Hload. intros k. by rewrite lookup_empty.
Qed.

(** ** A concrete configuration *)

Module PluginExamples.

Definition plain (typ : string) (deps flex : list string) : Factory :=
  MkFactory typ (λ _, Some None) (Some deps) (Some flex) None (Some None).

Definition reg : registry :=
  Register (Register (Register ∅ "polaris" (plain "selector" ["log-default"] ["metrics-m"]))
    "default" (plain "log" [] [])) "m" (plain "metrics" ["log-default"] []).

(** The selector is visited first and has to wait for both others. *)
Definition conf : list (string * string) :=
  [("selector", "polaris"); ("metrics", "m"); ("log", "default")].

Example setup_order :
  SetupClosables reg 1000 conf = Some (Ok [None; None; None]) ∧
  ∃ s st, loadPlugins reg 1000 conf [] ∅ = Ok (infos reg conf, st) ∧
    setupPlugins (infos reg conf) st = Some (None, s) ∧
    keys (started s) = ["log-default"; "metrics-m"; "selector-polaris"].
Proof. split; [by vm_compute|]. eexists _, _. split; [by vm_compute|]. split; by vm_compute. Qed.

Lemma setupPlugins_ordered_witness :
  ∃ st err s, setupPlugins (infos reg conf) st = Some (err, s) ∧
    ordered (keys (infos reg conf)) (started s) ∧ started s ⊆+ infos reg conf ∧
    match err with
    | None => started s ≡ₚ infos reg conf ∧ result_ s = started s
    | Some e => defect (infos reg conf) ∨ (e = errCycle ∧ ¬ acyclic (infos reg conf))
    end.
Proof.
  eexists. apply (setupPlugins_ordered reg 1000 conf). vm_compute. reflexivity.
Defined.

Lemma in_conf p :
  p ∈ infos reg conf →
  (p = MkPlugin (plain "selector" ["log-default"] ["metrics-m"]) "selector" "polaris" ∨
   p = MkPlugin (plain "metrics" ["log-default"] []) "metrics" "m" ∨
   p = MkPlugin (plain "log" [] []) "log" "default").
Proof. vm_compute infos. rewrite !elem_of_cons, elem_of_nil. tauto. Qed.

Definition rank (k : string) : nat :=
  if decide (k = "log-default") then 0 else if decide (k = "metrics-m") then 1 else 2.

Lemma conf_acyclic : acyclic (infos reg conf).
Proof.
  exists rank. intros p d Hp Hd.
  apply in_conf in Hp as [-> | [-> | ->]]; unfold required, strong, flex in Hd;
    simpl in Hd;    rewrite ?elem_of_cons, ?elem_of_nil in Hd; destruct Hd as [Hd|[Hd _]];
    repeat match goal with H : _ ∨ _ |- _ => destruct H end; subst; try done; vm_compute; lia.
Qed.

Lemma conf_sound : ¬ defect (infos reg conf).
Proof.
  intros (p & Hp & Hd).
  assert (∀ d, d ∈ ["log-default"] → d ∈ keys (infos reg conf)) as Hin.
  { intros d. rewrite elem_of_cons, elem_of_nil. intros [-> |[]]. vm_compute.
    do 2 apply list_elem_of_further. apply list_elem_of_here. }
  set (ks := keys (infos reg conf)) in *. clearbody ks.
  apply in_conf in Hp as [-> | [-> | ->]]; unfold strong, flex in Hd; cbn in Hd;
    rewrite ?elem_of_cons, ?elem_of_nil in Hd;
    destruct Hd as [Hd|[Hd|[(d & Hd & Hn)|Hd]]];
    repeat match goal with H : _ ∨ _ |- _ => destruct H end; try done;
    first [by apply Hn, Hin | by apply elem_of_nil in Hd].
Qed.

Lemma SetupClosables_complete_witness :
  ∃ l closers, SetupClosables reg 1000 conf = Some (Ok closers) ∧
    l ≡ₚ infos reg conf ∧ ordered (keys (infos reg conf)) l ∧
    closers = omap (λ p, Close (factory p)) l ∧ close closers = (rev closers, None).
Proof.
  apply SetupClosables_complete.
  - apply Forall_forall. repeat constructor; vm_compute; discriminate.
  - simpl. lia.
  - exact conf_sound.
  - exact conf_acyclic.
  - intros p f [-> | [-> | ->]]%in_conf; discriminate.
  - intros p e [-> | [-> | ->]]%in_conf; simpl; congruence.
Defined.

End PluginExamples.
