(* ===== verification/ConnPool.v ===== *)
(** The connection pool of one address (pool/connpool/connection_pool.go).

    The idle connections form a doubly linked list of [PoolConn] objects; the objects live
    in a store and are named by their addresses.  Any number of goroutines get, use and
    return connections, add idle ones, check the idle ones, and close the pool; a step of a
    goroutine is a critical section of the pool's mutex or one operation outside of it.
    What the environment decides (whether dialing or a check succeeds, what a user does
    with a connection, the clock, the address of a new object) is the [choice] of the step. *)

From S2P Require Import Prelude.

Abbreviation id := nat (only parsing).

(** [open] is the state of the underlying [net.Conn]; the framer is left out. *)
Record PoolConn := MkConn {
  t : Z;
  created : Z;
  next : option id;
  prev : option id;
  closed : bool;
  forceClose : bool;
  inPool : bool;
  open : bool
}.

#[global] Instance eta_PoolConn : Eta PoolConn := λ c,
  MkConn (t c) (created c) (next c) (prev c) (closed c) (forceClose c) (inPool c) (open c).

Abbreviation store := (gmap nat PoolConn).

(** [pc.f = v] through a pointer; [None] is the panic of a nil pointer. *)
Definition deref (h : store) (pc : option id) : option PoolConn := c ← pc; h !! c.
Definition modify (h : store) (pc : option id) (f : PoolConn → PoolConn) : option store :=
  c ← pc; x ← h !! c; Some (<[c := f x]> h).

(** ** The list of idle connections *)

Record connList := MkList { count : Z; head : option id; tail : option id }.

Definition pushHead (h : store) (l : connList) (pc : id) : option (store * connList) :=
  h ← modify h (Some pc) (λ c, c <| inPool := true |> <| next := head l |> <| prev := None |>);
  if (count l =? 0)%Z then Some (h, MkList (count l + 1) (Some pc) (Some pc))
  else h ← modify h (head l) (λ c, c <| prev := Some pc |>);
       Some (h, MkList (count l + 1) (Some pc) (tail l)).

(** The end of [popHead] and [popTail]: the node is cut loose. *)
Definition cut (h : store) (pc : option id) : option store :=
  modify h pc (λ c, c <| next := None |> <| prev := None |> <| inPool := false |>).

Definition popHead (h : store) (l : connList) : option (store * connList) :=
  let pc := head l in
  let n := (count l - 1)%Z in
  if (n =? 0)%Z then h ← cut h pc; Some (h, MkList n None None)
  else
    x ← deref h pc;
    h ← modify h (next x) (λ c, c <| prev := None |>);
    h ← cut h pc;
    Some (h, MkList n (next x) (tail l)).

Definition pushTail (h : store) (l : connList) (pc : id) : option (store * connList) :=
  h ← modify h (Some pc) (λ c, c <| inPool := true |> <| next := None |> <| prev := tail l |>);
  if (count l =? 0)%Z then Some (h, MkList (count l + 1) (Some pc) (Some pc))
  else h ← modify h (tail l) (λ c, c <| next := Some pc |>);
       Some (h, MkList (count l + 1) (head l) (Some pc)).

Definition popTail (h : store) (l : connList) : option (store * connList) :=
  let pc := tail l in
  let n := (count l - 1)%Z in
  if (n =? 0)%Z then h ← cut h pc; Some (h, MkList n None None)
  else
    x ← deref h pc;
    h ← modify h (prev x) (λ c, c <| next := None |>);
    h ← cut h pc;
    Some (h, MkList n (head l) (prev x)).

(** ** The pool *)

Record ConnectionPool := MkPool {
  MinIdle : Z;
  MaxIdle : Z;
  MaxActive : Z;
  Wait : bool;
  forceClosed : bool;
  PushIdleConnToTail : bool;
  onClose : bool;
  poolIdleTimeout : Z;
  pclosed : bool;
  token : Z;
  idleSize : Z;
  idle : connList;
  used : Z;
  lastGetTime : Z
}.

#[global] Instance eta_Pool : Eta ConnectionPool := λ p,
  MkPool (MinIdle p) (MaxIdle p) (MaxActive p) (Wait p) (forceClosed p) (PushIdleConnToTail p)
    (onClose p) (poolIdleTimeout p) (pclosed p) (token p) (idleSize p) (idle p) (used p)
    (lastGetTime p).

(** A new pool: no connection, no token taken. *)
Definition newPool (MinIdle MaxIdle MaxActive : Z) (Wait forceClosed PushIdleConnToTail onClose : bool)
    (poolIdleTimeout : Z) : ConnectionPool :=
  MkPool MinIdle MaxIdle MaxActive Wait forceClosed PushIdleConnToTail onClose poolIdleTimeout
    false 0 0 (MkList 0 None None) 0 0.

Definition newPoolConn (p : ConnectionPool) (now : Z) : PoolConn :=
  MkConn 0 now None None false (forceClosed p) false true.

(** [pc.Conn.Close(); pc.closed = true]. *)
Definition close_conn (h : store) (pc : id) : option store :=
  modify h (Some pc) (λ c, c <| open := false |> <| closed := true |>).

(** The non-blocking half of [getToken]: [None] when the channel is full. *)
Definition getToken (p : ConnectionPool) : option ConnectionPool :=
  if (MaxActive p <=? 0)%Z then Some p
  else if (token p <? MaxActive p)%Z then Some (p <| token := (token p + 1)%Z |>)
  else None.

(** [freeToken]: [None] when the receive blocks. *)
Definition freeToken (p : ConnectionPool) : option ConnectionPool :=
  if (MaxActive p <=? 0)%Z then Some p
  else if (0 <? token p)%Z then Some (p <| token := (token p - 1)%Z |>)
  else None.

(** One turn of the loop of [getIdleConn] under the lock: the connection to check. *)
Definition getIdleConn_pop (h : store) (p : ConnectionPool)
    : option (store * ConnectionPool * option id) :=
  match head (idle p) with
  | None => Some (h, p, None)
  | Some c =>
    '(h, l) ← popHead h (idle p);
    Some (h, p <| idle := l |> <| idleSize := (idleSize p - 1)%Z |>, Some c)
  end.

(** Push at the end that the pool is configured for. *)
Definition push (h : store) (p : ConnectionPool) (pc : id) : option (store * ConnectionPool) :=
  '(h, l) ← (if PushIdleConnToTail p then pushTail else pushHead) h (idle p) pc;
  Some (h, p <| idle := l |>).

(** The critical section of [addIdleConn] after dialing. *)
Definition addIdleConn_push (h : store) (p : ConnectionPool) (pc : id) (now : Z)
    : option (store * ConnectionPool) :=
  if pclosed p then h ← close_conn h pc; Some (h, p)
  else h ← modify h (Some pc) (λ c, c <| t := now |>); push h p pc.

(** The critical section of [put]: the connection to close, if any. *)
Definition put_locked (h : store) (p : ConnectionPool) (pc : id) (forceClose : bool) (now : Z)
    : option (store * ConnectionPool * option id) :=
  if negb (pclosed p) && negb forceClose then
    h ← modify h (Some pc) (λ c, c <| t := now |>);
    '(h, p) ← push h p pc;
    if (MaxIdle p <=? idleSize p)%Z then
      let victim := tail (idle p) in
      '(h, l) ← popTail h (idle p);
      Some (h, p <| idle := l |>, victim)
    else Some (h, p <| idleSize := (idleSize p + 1)%Z |>, None)
  else Some (h, p, Some pc).

(** The loop of [checkHealthOnce] up to the next check, under the lock: the connection to
    check and the number of turns left. *)
Definition checkHealth_pop (h : store) (p : ConnectionPool) (n : nat)
    : option (store * ConnectionPool * option (id * nat)) :=
  match n, head (idle p) with
  | S n, Some c =>
    '(h, l) ← popHead h (idle p);
    Some (h, p <| idle := l |> <| idleSize := (idleSize p - 1)%Z |>, Some (c, n))
  | _, _ => Some (h, p, None)
  end.

(** [checkPoolIdleTimeout]: whether the pool is closed for being idle. *)
Definition checkPoolIdleTimeout (p : ConnectionPool) (now : Z) : bool :=
  negb (lastGetTime p =? 0)%Z && negb (poolIdleTimeout p =? 0)%Z &&
  ((poolIdleTimeout p <? now - lastGetTime p)%Z && onClose p && (used p =? 0)%Z).

(** The critical section of [keepMinIdles]: the number of connections to add. *)
Definition keepMinIdles_locked (p : ConnectionPool) : ConnectionPool * nat :=
  let count := (MinIdle p - idleSize p)%Z in
  if (0 <? count)%Z then (p <| idleSize := (idleSize p + count)%Z |>, Z.to_nat count) else (p, 0).

(** The critical section of [Close]: the first connection of the detached list. *)
Definition Close_locked (p : ConnectionPool) : ConnectionPool * option id :=
  if pclosed p then (p, None)
  else (p <| pclosed := true |> <| idle := MkList 0 None None |> <| idleSize := 0%Z |>,
        head (idle p)).

(** The addresses on the list, [n] at most, that starts at a node. *)
Fixpoint follow (h : store) (n : nat) (c : option id) : list id :=
  match n, c with
  | S n, Some c => c :: follow h n (x ← h !! c; next x)
  | _, _ => []
  end.

(** ** Goroutines *)

(** Where a goroutine is.  [Get] .. [PutUsed] are the life of one [Get]: waiting for a token,
    looking for an idle connection, dialing, using the connection, putting it back; [Failed]
    is a [Get] that ended in the error of [getNewConn].  [Add] .. [AddFail] is one goroutine of
    [keepMinIdles], [Sleep] .. [Min] the check routine.  The list of [Walk] is the rest of
    the detached list that [Close] closes; only proofs look at it. *)
Inductive thread : Type :=
| Get | GetUsed | GetIdle | GetCheck (pc : id) | GetNew | GetDial | GetFail | Failed
| Use (pc : id) | Put (pc : id) (force : bool) | PutClose (pc : id) | PutToken | PutUsed | Done
| Add | AddDial | AddPush (pc : id) | AddFail
| Sleep | Health | HealthCheck (pc : id) (n : nat) | HealthNext (n : nat) | Timeout | Min
| KeepMin (again : bool)
| CloseStart (routine : bool) | Walk (pc : option id) (rest : list id).

(** The decisions of the environment that a step depends on: whether dialing, the check or the
    use of the connection succeeds, the clock in milliseconds, the address of a new object. *)
Record choice := MkChoice { ok : bool; now : Z; fresh : id }.

(** The outcome of a step: the goroutine cannot go on, it panics, or the new state, where the
    goroutine is now, and the goroutines it started. *)
Inductive outcome : Type :=
| Blocked
| Panics
| Next (h : store) (p : ConnectionPool) (th : thread) (started : list thread).

Definition or_panic {A} (o : option A) (k : A → outcome) : outcome :=
  match o with Some a => k a | None => Panics end.

(** The loop of the health check goes on until the next check. *)
Definition health_loop (h : store) (p : ConnectionPool) (n : nat) : outcome :=
  or_panic (checkHealth_pop h p n) (λ '(h, p, r),
    Next h p (match r with Some (c, n) => HealthCheck c n | None => Timeout end) []).

Definition tstep (ch : choice) (h : store) (p : ConnectionPool) (th : thread) : outcome :=
  let go th := Next h p th [] in
  let dial (th : id → thread) (fail : thread) : outcome :=
    if ok ch then
      match h !! fresh ch with
      | Some _ => Blocked
      | None => Next (<[fresh ch := newPoolConn p (now ch)]> h) p (th (fresh ch)) []
      end
    else go fail in
  match th with
  | Get =>
    match getToken p with
    | Some p => Next h p GetUsed []
    | None => if Wait p && ok ch then Blocked else go Done
    end
  | GetUsed =>
    Next h (p <| lastGetTime := now ch |> <| used := (used p + 1)%Z |>) GetIdle []
  | GetIdle =>
    or_panic (getIdleConn_pop h p) (λ '(h, p, r),
      Next h p (match r with Some c => GetCheck c | None => GetNew end) [])
  | GetCheck pc =>
    if ok ch then go (Use pc)
    else or_panic (close_conn h pc) (λ h, Next h p GetIdle [])
  | GetNew => if pclosed p then go GetFail else go GetDial
  | GetDial => dial Use GetFail
  | GetFail => match freeToken p with Some p => Next h p Failed [] | None => Blocked end
  | Use pc =>
    or_panic (h !! pc) (λ c,
      if ok ch then if closed c || inPool c then go (Use pc) else go (Put pc (forceClose c))
      else go (Put pc true))
  | Put pc force =>
    or_panic (h !! pc) (λ c,
      if closed c then go Done
      else or_panic (put_locked h p pc force (now ch)) (λ '(h, p, r),
        Next h p (match r with Some c => PutClose c | None => PutToken end) []))
  | PutClose pc => or_panic (close_conn h pc) (λ h, Next h p PutToken [])
  | PutToken => match freeToken p with Some p => Next h p PutUsed [] | None => Blocked end
  | PutUsed => Next h (p <| used := (used p - 1)%Z |>) Done []
  | Add => if pclosed p then go AddFail else go AddDial
  | AddDial => dial AddPush AddFail
  | AddPush pc => or_panic (addIdleConn_push h p pc (now ch)) (λ '(h, p), Next h p Done [])
  | AddFail => Next h (p <| idleSize := (idleSize p - 1)%Z |>) Done []
  | Sleep => if pclosed p then go Done else go Health
  | Health => health_loop h p (Z.to_nat (count (idle p)))
  | HealthCheck pc n =>
    if ok ch then
      or_panic (pushTail h (idle p) pc) (λ '(h, l),
        health_loop h (p <| idleSize := (idleSize p + 1)%Z |> <| idle := l |>) n)
    else or_panic (close_conn h pc) (λ h, Next h p (HealthNext n) [])
  | HealthNext n => health_loop h p n
  | Timeout => if checkPoolIdleTimeout p (now ch) then go (CloseStart true) else go Min
  | Min => if (MinIdle p <=? 0)%Z then go Sleep else go (KeepMin true)
  | KeepMin again =>
    let '(p, n) := keepMinIdles_locked p in
    Next h p (if again then Sleep else Done) (replicate n Add)
  | CloseStart _ =>
    let '(p', c) := Close_locked p in
    Next h p' (Walk c (follow h (Z.to_nat (count (idle p))) c)) []
  | Walk None _ => go Done
  | Walk (Some pc) rest =>
    or_panic (close_conn h pc) (λ h,
      or_panic (h !! pc) (λ c, Next h p (Walk (next c) (drop 1 rest)) []))
  | Failed | Done => Blocked
  end.

Record config := MkConfig { conns : store; cpool : ConnectionPool; threads : list thread }.

(** Any goroutine makes the next step. *)
Inductive cstep : config → config → Prop :=
| cstep_step ch h p l1 th l2 h' p' th' started :
    tstep ch h p th = Next h' p' th' started →
    cstep (MkConfig h p (l1 ++ th :: l2)) (MkConfig h' p' (l1 ++ th' :: l2 ++ started)).

(** ** The linked list implements a list *)

#[local] Arguments cut : simpl never.
#[local] Arguments modify : simpl never.

(** [l] is the list of the addresses [ids]. *)
Record repr (h : store) (l : connList) (ids : list id) : Prop := {
  repr_count : count l = zlen ids;
  repr_head : head l = ids !! 0;
  repr_tail : tail l = last ids;
  repr_nodup : NoDup ids;
  repr_node : ∀ i c, ids !! i = Some c →
    ∃ x, h !! c = Some x ∧ next x = ids !! S i ∧
         prev x = match i with O => None | S j => ids !! j end ∧ inPool x = true
}.

(** A change of the store that only touches links and time stamps, and only of [ids]. *)
Definition frame (h h' : store) (ids : list id) : Prop :=
  ∀ c, match h !! c, h' !! c with
       | Some x, Some x' => closed x' = closed x ∧ open x' = open x ∧ forceClose x' = forceClose x ∧
                            (c ∉ ids → x' = x)
       | None, None => True
       | _, _ => False
       end.

Lemma frame_refl h ids : frame h h ids.
Proof. intros c. by destruct (h !! c). Qed.

Lemma frame_trans h1 h2 h3 ids : frame h1 h2 ids → frame h2 h3 ids → frame h1 h3 ids.
Proof.
  intros H1 H2 c. specialize (H1 c). specialize (H2 c).
  destruct (h1 !! c), (h2 !! c), (h3 !! c); try done. naive_solver congruence.
Qed.

Lemma frame_weaken h h' ids ids' : frame h h' ids → ids ⊆ ids' → frame h h' ids'.
Proof. intros H Hs c. specialize (H c). destruct (h !! c), (h' !! c); naive_solver. Qed.

Lemma frame_modify h c x f ids :
  h !! c = Some x → c ∈ ids →
  (closed (f x) = closed x ∧ open (f x) = open x ∧ forceClose (f x) = forceClose x) →
  modify h (Some c) f = Some (<[c := f x]> h) ∧ frame h (<[c := f x]> h) ids.
Proof.
  intros Hx Hc (Hf1 & Hf2 & Hf3). split; [unfold modify; simpl; by rewrite Hx|].
  intros d. destruct (decide (d = c)) as [->|Hne].
  - rewrite Hx, lookup_insert_eq. naive_solver.
  - rewrite lookup_insert_ne by done. by destruct (h !! d).
Qed.

Lemma last_cons_ne {A} (x y : A) l : last (x :: y :: l) = last (y :: l).
Proof. done. Qed.

Lemma pushHead_repr h l ids pc x :
  repr h l ids → pc ∉ ids → h !! pc = Some x →
  ∃ h' l', pushHead h l pc = Some (h', l') ∧ repr h' l' (pc :: ids) ∧ frame h h' (pc :: ids).
Proof.
  intros [Hc Hh Ht Hnd Hnode] Hpc Hx. unfold pushHead.
  set (f := λ c : PoolConn, c <| inPool := true |> <| next := head l |> <| prev := None |>).
  destruct (frame_modify h pc x f (pc :: ids)) as [-> Hf1]; [done|set_solver|done|]. simpl.
  destruct ids as [|c0 ids].
  - rewrite Hc. simpl. eexists _, _. split; [done|]. split; [|done]. constructor; try done.
    + by apply NoDup_singleton.
    + intros [|i] c Hi; [|done]. simplify_eq/=. rewrite lookup_insert_eq. eexists. split; [done|].
      subst f. simpl. by rewrite Hh.
  - destruct (Hnode 0 c0 eq_refl) as (x0 & Hx0 & Hn0 & Hp0 & Hin0). simpl in Hn0, Hp0.
    assert (pc ≠ c0) as Hne by set_solver.
    rewrite (proj2 (Z.eqb_neq _ _)) by (rewrite Hc; unfold zlen; simpl; lia).
    rewrite Hh. simpl lookup.
    destruct (frame_modify (<[pc := f x]> h) c0 x0 (λ c, c <| prev := Some pc |>) (pc :: c0 :: ids))
      as [-> Hf2]; [by rewrite lookup_insert_ne|set_solver|done|].
    simpl. eexists _, _. split; [done|]. split; [|by eapply frame_trans].
    constructor; simpl.
    + rewrite Hc. unfold zlen. simpl. lia.
    + done.
    + by rewrite Ht.
    + by apply NoDup_cons.
    + intros [|[|i]] c Hi; simplify_eq/=.
      * rewrite lookup_insert_ne, lookup_insert_eq by done. eexists. split; [done|]. by rewrite <- Hh.
      * rewrite lookup_insert_eq. eexists. split; [done|]. simpl. done.
      * destruct (Hnode (S i) c Hi) as (y & Hy & Hny & Hpy & Hiy).
        assert (c ≠ pc) by (intros ->; apply Hpc, list_elem_of_further; by eapply list_elem_of_lookup_2).
        assert (c ≠ c0).
        { intros ->. apply NoDup_cons in Hnd as [Hnd _]. apply Hnd. by eapply list_elem_of_lookup_2. }
        rewrite !lookup_insert_ne by done. by exists y.
Qed.

Lemma nodup_lookup_ne {A} (ids : list A) i j c d :
  NoDup ids → ids !! i = Some c → ids !! j = Some d → i ≠ j → c ≠ d.
Proof. intros Hnd Hi Hj Hne ->. by apply Hne, (NoDup_lookup ids i j d). Qed.

Definition loose (h : store) (c : id) : Prop :=
  ∃ x, h !! c = Some x ∧ inPool x = false.

Lemma cut_frame h c x ids :
  h !! c = Some x → c ∈ ids →
  ∃ h', cut h (Some c) = Some h' ∧ frame h h' ids ∧ loose h' c ∧ ∀ d, d ≠ c → h' !! d = h !! d.
Proof.
  intros Hx Hc. unfold cut.
  destruct (frame_modify h c x (λ c, c <| next := None |> <| prev := None |> <| inPool := false |>)
              ids) as [-> Hf]; [done|done|done|].
  eexists. split_and!; [done|done| |].
  - eexists. rewrite lookup_insert_eq. done.
  - intros d Hd. by rewrite lookup_insert_ne.
Qed.

Lemma popHead_repr h l c ids :
  repr h l (c :: ids) →
  ∃ h' l', popHead h l = Some (h', l') ∧ repr h' l' ids ∧ frame h h' (c :: ids) ∧ loose h' c.
Proof.
  intros [Hc Hh Ht Hnd Hnode]. unfold popHead. simpl in Hh. rewrite Hh.
  destruct (Hnode 0 c eq_refl) as (x & Hx & Hnx & _). pose proof Hnd as [Hcn Hnd']%NoDup_cons.
  destruct ids as [|c1 ids].
  - rewrite Hc. simpl. destruct (cut_frame h c x [c] Hx) as (h' & -> & Hf & Hl & _); [set_solver|].
    eexists _, _. split_and!; [done| |done..]. by constructor; try done; apply NoDup_nil_2.
  - rewrite (proj2 (Z.eqb_neq _ _)) by (rewrite Hc; unfold zlen; simpl; lia).
    unfold deref. simpl. rewrite Hx. simpl. simpl in Hnx. rewrite Hnx.
    destruct (Hnode 1 c1 eq_refl) as (x1 & Hx1 & Hn1 & _ & Hi1).
    destruct (frame_modify h c1 x1 (λ c, c <| prev := None |>) (c :: c1 :: ids)) as [-> Hf1];
      [done|set_solver|done|].
    assert (c ≠ c1) as Hne by set_solver. simpl.
    destruct (cut_frame (<[c1:=x1 <| prev := None |>]> h) c x (c :: c1 :: ids))
      as (h' & -> & Hf2 & Hl & Ho); [by rewrite lookup_insert_ne|set_solver|].
    simpl. eexists _, _. split_and!; [done| |by eapply frame_trans|done].
    constructor; simpl; try done.
    + rewrite Hc. unfold zlen. simpl. lia.
    + intros i d Hi.
      assert (d ≠ c) by (intros ->; apply Hcn; by eapply list_elem_of_lookup_2).
      rewrite Ho by done. destruct (Hnode (S i) d Hi) as (y & Hy & Hny & Hpy & Hiy).
      destruct i as [|i]; simplify_eq/=.
      * rewrite lookup_insert_eq. by eexists.
      * assert (d ≠ c1) by (eapply (nodup_lookup_ne (c1 :: ids) (S i) 0); done).
        rewrite lookup_insert_ne by done. by exists y.
Qed.

Lemma last_lookup' {A} (l : list A) : last l = l !! (length l - 1).
Proof. rewrite last_lookup. f_equal. lia. Qed.

Lemma pushTail_repr h l ids pc x :
  repr h l ids → pc ∉ ids → h !! pc = Some x →
  ∃ h' l', pushTail h l pc = Some (h', l') ∧ repr h' l' (ids ++ [pc]) ∧ frame h h' (ids ++ [pc]).
Proof.
  intros [Hc Hh Ht Hnd Hnode] Hpc Hx. unfold pushTail.
  set (f := λ c : PoolConn, c <| inPool := true |> <| next := None |> <| prev := tail l |>).
  destruct (frame_modify h pc x f (ids ++ [pc])) as [-> Hf1]; [done|set_solver|done|]. simpl.
  destruct ids as [|c0 ids _] using rev_ind.
  - rewrite Hc. simpl. eexists _, _. split; [done|]. split; [|done]. constructor; try done.
    + by apply NoDup_singleton.
    + intros [|i] c Hi; [|done]. simplify_eq/=. rewrite lookup_insert_eq. eexists. split; [done|].
      subst f. simpl. by rewrite Ht.
  - assert ((ids ++ [c0]) !! length ids = Some c0) as Hlast by apply list_lookup_middle, eq_refl.
    destruct (Hnode _ c0 Hlast) as (x0 & Hx0 & Hn0 & Hp0 & Hin0).
    assert (pc ≠ c0) as Hne by set_solver.
    rewrite (proj2 (Z.eqb_neq _ _)) by (rewrite Hc; unfold zlen; rewrite length_app; simpl; lia).
    rewrite Ht, last_snoc.
    destruct (frame_modify (<[pc := f x]> h) c0 x0 (λ c, c <| next := Some pc |>) ((ids ++ [c0]) ++ [pc]))
      as [-> Hf2]; [by rewrite lookup_insert_ne|set_solver|done|].
    simpl. eexists _, _. split; [done|]. split; [|by eapply frame_trans].
    constructor; simpl.
    + rewrite Hc, !zlen_app. done.
    + rewrite Hh. by destruct ids.
    + by rewrite last_snoc.
    + apply NoDup_app. split_and!; [done| |apply NoDup_singleton]. set_solver.
    + intros i c Hi. apply lookup_app_Some in Hi as [Hi|[Hle Hi]].
      * destruct (Hnode i c Hi) as (y & Hy & Hny & Hpy & Hiy).
        assert (c ≠ pc) by (intros ->; apply Hpc; by eapply list_elem_of_lookup_2).
        assert (match i with 0 => None | S j => ((ids ++ [c0]) ++ [pc]) !! j end = prev y) as Hpy'.
        { rewrite Hpy. destruct i as [|j]; [done|]. apply lookup_app_l.
          apply lookup_lt_Some in Hi. lia. }
        destruct (decide (i = length ids)) as [->|Hi'].
        -- rewrite Hlast in Hi. simplify_eq. rewrite lookup_insert_eq. eexists. split; [done|].
           simpl. split_and!; [|done|done]. symmetry. apply list_lookup_middle.
           rewrite length_app. simpl. lia.
        -- assert (c ≠ c0) by (by eapply (nodup_lookup_ne _ i (length ids))).
           rewrite !lookup_insert_ne by done. exists y. split_and!; [done| |done|done].
           rewrite Hny. symmetry. apply lookup_app_l. apply lookup_lt_Some in Hi.
           rewrite length_app in *. simpl in *. lia.
      * apply list_lookup_singleton_Some in Hi as [Hi <-]. rewrite length_app in Hi, Hle.
        simpl in Hi, Hle. assert (i = S (length ids)) as -> by lia.
        rewrite lookup_insert_ne, lookup_insert_eq by done. eexists. split; [done|].
        subst f. simpl. split_and!; [|rewrite Ht, last_snoc|done].
        -- symmetry. apply lookup_ge_None. rewrite !length_app. simpl. lia.
        -- by rewrite lookup_app_l by (rewrite length_app; simpl; lia).
Qed.

Lemma popTail_repr h l c ids :
  repr h l (ids ++ [c]) →
  ∃ h' l', popTail h l = Some (h', l') ∧ repr h' l' ids ∧ frame h h' (ids ++ [c]) ∧ loose h' c ∧
           tail l = Some c.
Proof.
  intros [Hc Hh Ht Hnd Hnode]. unfold popTail. rewrite last_snoc in Ht. rewrite Ht.
  assert ((ids ++ [c]) !! length ids = Some c) as Hlast by apply list_lookup_middle, eq_refl.
  destruct (Hnode _ c Hlast) as (x & Hx & _ & Hpx & _).
  apply NoDup_app in Hnd as (Hnd & Hdis & _).
  assert (c ∉ ids) as Hcn by (intros H; apply (Hdis _ H); set_solver).
  destruct ids as [|c1 ids _] using rev_ind.
  - rewrite Hc. simpl. destruct (cut_frame h c x [c] Hx) as (h' & -> & Hf & Hl & _); [set_solver|].
    eexists _, _. split_and!; [done| |done..]. by constructor; try done; apply NoDup_nil_2.
  - rewrite (proj2 (Z.eqb_neq _ _)) by (rewrite Hc; unfold zlen; rewrite !length_app; simpl; lia).
    unfold deref. simpl. rewrite Hx. simpl. rewrite length_app, Nat.add_comm in Hpx. simpl in Hpx.
    assert (((ids ++ [c1]) ++ [c]) !! length ids = Some c1) as Hl1.
    { rewrite <- app_assoc. by apply list_lookup_middle. }
    rewrite Hpx, Hl1. destruct (Hnode _ c1 Hl1) as (x1 & Hx1 & Hn1 & Hp1 & Hi1).
    destruct (frame_modify h c1 x1 (λ c, c <| next := None |>) ((ids ++ [c1]) ++ [c])) as [-> Hf1];
      [done|set_solver|done|].
    assert (c ≠ c1) as Hne by set_solver. simpl.
    destruct (cut_frame (<[c1:=x1 <| next := None |>]> h) c x ((ids ++ [c1]) ++ [c]))
      as (h' & -> & Hf2 & Hl & Ho); [by rewrite lookup_insert_ne|set_solver|].
    simpl. eexists _, _. split_and!; [done| |by eapply frame_trans|done..].
    constructor; simpl.
    + rewrite Hc, !zlen_app. unfold zlen. simpl. lia.
    + rewrite Hh. by destruct ids.
    + by rewrite last_snoc.
    + done.
    + intros i d Hi. assert (d ≠ c) by (intros ->; apply Hcn; by eapply list_elem_of_lookup_2).
      rewrite Ho by done. pose proof (lookup_lt_Some _ _ _ Hi) as Hlt.
      destruct (Hnode i d) as (y & Hy & Hny & Hpy & Hiy); [by apply lookup_app_l_Some|].
      assert (match i with 0 => None | S j => (ids ++ [c1]) !! j end = prev y) as Hpy'.
      { rewrite Hpy. destruct i as [|j]; [done|]. symmetry. apply lookup_app_l. lia. }
      destruct (decide (i = length ids)) as [->|Hi'].
      * rewrite list_lookup_middle in Hi by done. simplify_eq. rewrite lookup_insert_eq.
        eexists. split; [done|]. simpl. split_and!; [|done|done].
        symmetry. apply lookup_ge_None. rewrite length_app. simpl. lia.
      * assert (d ≠ c1).
        { eapply (nodup_lookup_ne (ids ++ [c1]) i (length ids)); [done|done| |done].
          by apply list_lookup_middle. }
        rewrite lookup_insert_ne by done. exists y. split_and!; [done| |done|done].
        rewrite Hny. apply lookup_app_l. rewrite length_app in *. simpl in *. lia.
Qed.

(** ** The invariant of the pool *)

(** The connections a goroutine holds. *)
Definition owned (th : thread) : list id :=
  match th with
  | GetCheck c | Use c | Put c _ | PutClose c | AddPush c | HealthCheck c _ => [c]
  | Walk _ rest => rest
  | _ => []
  end.

Definition live (h : store) (c : id) : Prop :=
  ∃ x, h !! c = Some x ∧ closed x = false ∧ open x = true.

Definition thread_ok (h : store) (th : thread) : Prop :=
  match th with
  | Walk pc rest =>
    pc = rest !! 0 ∧ ∀ i c, rest !! i = Some c → ∃ x, h !! c = Some x ∧ next x = rest !! S i
  | th => ∀ c, c ∈ owned th → loose h c
  end.

(** A [Get] that holds a token; one that is counted in [used]. *)
Definition has_token (th : thread) : Z :=
  match th with
  | GetUsed | GetIdle | GetCheck _ | GetNew | GetDial | GetFail | Use _ | Put _ _ | PutClose _
  | PutToken => 1
  | _ => 0
  end.
Definition is_used (th : thread) : Z :=
  match th with
  | GetIdle | GetCheck _ | GetNew | GetDial | GetFail | Failed | Use _ | Put _ _ | PutClose _
  | PutToken | PutUsed => 1
  | _ => 0
  end.
(** A connection that [keepMinIdles] has counted and that is not yet on the list. *)
Definition pending (th : thread) : Z :=
  match th with Add | AddDial | AddPush _ | AddFail => 1 | _ => 0 end.
Definition checking (th : thread) : Z := match th with HealthCheck _ _ => 1 | _ => 0 end.
Definition routine (th : thread) : Z :=
  match th with
  | Sleep | Health | HealthCheck _ _ | HealthNext _ | Timeout | Min | KeepMin true
  | CloseStart true => 1
  | _ => 0
  end.

Fixpoint total (f : thread → Z) (l : list thread) : Z :=
  match l with [] => 0 | th :: l => f th + total f l end.

Lemma total_app f l k : total f (l ++ k) = (total f l + total f k)%Z.
Proof. induction l; simpl; lia. Qed.

Lemma total_nonneg f l : (∀ th, 0 ≤ f th)%Z → (0 ≤ total f l)%Z.
Proof. intros H. induction l as [|th l IH]; simpl; [lia|]. specialize (H th). lia. Qed.

Lemma total_Add f n : total f (replicate n Add) = (Z.of_nat n * f Add)%Z.
Proof. induction n; simpl; lia. Qed.

(** The largest number of connections [put] and [keepMinIdles] keep. *)
Definition keeps (p : ConnectionPool) : Z := Z.max 0 (Z.max (MinIdle p) (MaxIdle p)).

Record counts (p : ConnectionPool) (l : list thread) : Prop := {
  counts_token : (0 < MaxActive p)%Z → token p = total has_token l ∧ (token p ≤ MaxActive p)%Z;
  counts_used : used p = total is_used l;
  counts_idle : pclosed p = false →
    (idleSize p = count (idle p) + total pending l)%Z ∧
    (idleSize p + total checking l ≤ keeps p + total routine l)%Z
}.

Record inv (c : config) (ids : list id) : Prop := {
  inv_repr : repr (conns c) (idle (cpool c)) ids;
  inv_excl : NoDup (ids ++ (threads c ≫= owned));
  inv_live : ∀ x, x ∈ ids ++ (threads c ≫= owned) → live (conns c) x;
  inv_threads : Forall (thread_ok (conns c)) (threads c);
  inv_counts : counts (cpool c) (threads c)
}.

(** What a step does to the counters, in terms of its own goroutine only. *)
Record counted (p p' : ConnectionPool) (th th' : thread) (started : list thread) : Prop := {
  counted_config : MaxActive p' = MaxActive p ∧ MaxIdle p' = MaxIdle p ∧ MinIdle p' = MinIdle p;
  counted_token : (0 < MaxActive p)%Z →
    (token p' - token p = has_token th' - has_token th + total has_token started)%Z ∧
    (token p' ≤ MaxActive p ∨ token p' ≤ token p)%Z;
  counted_used : (used p' - used p = is_used th' - is_used th + total is_used started)%Z;
  counted_idle : pclosed p' = false →
    pclosed p = false ∧
    (idleSize p' - idleSize p = count (idle p') - count (idle p) + pending th' - pending th
                               + total pending started)%Z ∧
    ((idleSize p' - idleSize p ≤ checking th - checking th' ∧ routine th' = routine th) ∨
     (idleSize p' ≤ keeps p ∧ checking th' ≤ routine th' ∧ checking th ≤ routine th
      ∧ routine th' = routine th))%Z ∧
    (0 = total checking started ∧ 0 = total routine started)%Z
}.

Lemma counts_step p p' l1 th l2 th' started :
  counts p (l1 ++ th :: l2) → counted p p' th th' started →
  counts p' (l1 ++ th' :: l2 ++ started).
Proof.
  intros [Ht Hu Hi] [(E1 & E2 & E3) Ht' Hu' Hi'].
  assert (∀ l, total checking l ≤ total routine l)%Z as Hcr.
  { intros l. induction l as [|[] l IH]; simpl; try destruct routine0; try destruct again; simpl; lia. }
  constructor; rewrite ?E1.
  - intros H. specialize (Ht H). specialize (Ht' H).
    rewrite !total_app in *. simpl in *. rewrite total_app. lia.
  - rewrite !total_app in *. simpl in *. rewrite total_app. lia.
  - intros Hc. destruct (Hi' Hc) as (Hc' & Hs & Hb & Hst). destruct (Hi Hc') as [Hs0 Hb0].
    unfold keeps in *. rewrite E2, E3.
    pose proof (Hcr l1). pose proof (Hcr l2).
    rewrite !total_app in *. simpl in *. rewrite !total_app. lia.
Qed.

Lemma NoDup_sub {A} (l k : list A) : l ⊆+ k → NoDup k → NoDup l.
Proof. intros [k' ->]%submseteq_Permutation Hk. by apply NoDup_app in Hk as [? _]. Qed.

(** The store outside of what the step touches, and the connections it may hold after it:
    those it or the list held before, and new ones. *)
Lemma inv_step h p l1 th l2 ids h' p' th' started ids' new :
  inv (MkConfig h p (l1 ++ th :: l2)) ids →
  repr h' (idle p') ids' →
  ids' ++ owned th' ⊆+ new ++ ids ++ owned th →
  NoDup new → (∀ c, c ∈ new → h !! c = None) →
  (∀ c x, h !! c = Some x → c ∉ ids ++ owned th → h' !! c = Some x) →
  (∀ c, c ∈ ids' ++ owned th' → live h' c) →
  thread_ok h' th' → (∃ n, started = replicate n Add) →
  counted p p' th th' started →
  inv (MkConfig h' p' (l1 ++ th' :: l2 ++ started)) ids'.
Proof.
  intros [_ Hex Hlive Hth Hcnt] Hrepr Hsub Hnew Hfresh Hstore Hlive' Hok (n & ->) Hcounted.
  cbn [conns cpool threads] in *. rewrite bind_app, bind_cons in Hex, Hlive.
  assert (replicate n Add ≫= owned = []) as Hadd by (clear; induction n; done).
  set (o1 := l1 ≫= owned) in *. set (o2 := l2 ≫= owned) in *.
  assert (∀ c, c ∈ o1 ++ o2 → c ∉ ids ++ owned th) as Hdis.
  { intros c Hc Hc'. assert (o1 ++ o2 ++ ids ++ owned th ≡ₚ ids ++ o1 ++ owned th ++ o2) as Hperm
      by solve_Permutation. rewrite <- Hperm, app_assoc in Hex.
    apply NoDup_app in Hex as (_ & Hex & _). by apply (Hex c). }
  assert (∀ c, c ∈ o1 ++ o2 → live h c) as Hlive2.
  { intros c Hc. apply Hlive. set_solver. }
  assert (∀ c, c ∈ o1 ++ o2 → live h' c) as Hlive3.
  { intros c Hc. destruct (Hlive2 c Hc) as (x & Hx & ?). exists x. split; [|done].
    apply Hstore; [done|by apply Hdis]. }
  constructor; cbn [conns cpool threads].
  - done.
  - rewrite bind_app, bind_cons, bind_app, Hadd, app_nil_r. fold o1 o2.
    assert (ids' ++ o1 ++ owned th' ++ o2 ⊆+ new ++ ids ++ o1 ++ owned th ++ o2) as Hs.
    { transitivity ((ids' ++ owned th') ++ o1 ++ o2); [solve_submseteq|].
      transitivity ((new ++ ids ++ owned th) ++ o1 ++ o2); [|solve_submseteq].
      by apply submseteq_skips_r. }
    eapply NoDup_sub; [exact Hs|]. apply NoDup_app. split_and!; [done| |done].
    intros c Hc Hc'. apply Hlive in Hc' as (x & Hx & _). by rewrite Hfresh in Hx.
  - rewrite bind_app, bind_cons, bind_app, Hadd, app_nil_r. fold o1 o2.
    intros c Hc. rewrite !elem_of_app in Hc.
    destruct (decide (c ∈ ids' ++ owned th')); [by apply Hlive'|]. apply Hlive3. set_solver.
  - assert (∀ l, (l ≫= owned) ⊆ o1 ++ o2 → Forall (thread_ok h) l → Forall (thread_ok h') l) as Hoth.
    { intros l Hl H. rewrite Forall_forall in *. intros t' Ht'. specialize (H t' Ht').
      assert (∀ c x, c ∈ owned t' → h !! c = Some x → h' !! c = Some x) as Hsame.
      { intros c x Hc Hx. apply Hstore; [done|]. apply Hdis, Hl. apply list_elem_of_bind. eauto. }
      destruct t'; simpl in *; try (intros d Hd; destruct (H d Hd) as (x & Hx & ?);
        exists x; split; [by apply Hsame|done]).
      destruct H as [-> H]. split; [done|]. intros i c Hi.
      destruct (H i c Hi) as (x & Hx & ?). exists x. split; [|done].
      apply Hsame; [by eapply list_elem_of_lookup_2|done]. }
    apply Forall_app in Hth as [H1 H2]. apply Forall_cons in H2 as [_ H2].
    apply Forall_app. split; [apply Hoth; [set_solver|done]|]. constructor; [done|].
    apply Forall_app. split; [apply Hoth; [set_solver|done]|].
    apply Forall_forall. intros x Hx. apply elem_of_replicate in Hx as [-> _]. by intros c Hc%elem_of_nil.
  - by eapply counts_step.
Qed.

(** ** Every step keeps the invariant *)

Lemma inv_here h p l1 th l2 ids :
  inv (MkConfig h p (l1 ++ th :: l2)) ids →
  repr h (idle p) ids ∧ NoDup (ids ++ owned th) ∧ (∀ c, c ∈ ids ++ owned th → live h c) ∧
  thread_ok h th ∧ counts p (l1 ++ th :: l2).
Proof.
  intros [Hr Hex Hl Ht Hc]. cbn [conns cpool threads] in *. rewrite bind_app, bind_cons in *.
  split_and!; [done| | | |done].
  - eapply NoDup_sub; [|exact Hex]. solve_submseteq.
  - intros c Hin. apply Hl. set_solver.
  - apply Forall_app in Ht as [_ Ht]. by apply Forall_cons in Ht as [? _].
Qed.

Lemma frame_live h h' ids c : frame h h' ids → live h c → live h' c.
Proof.
  intros Hf (x & Hx & Hc & Ho). specialize (Hf c). rewrite Hx in Hf. unfold live.
  destruct (h' !! c) as [x'|]; [|done]. exists x'. naive_solver congruence.
Qed.

Lemma frame_other h h' ids c x : frame h h' ids → c ∉ ids → h !! c = Some x → h' !! c = Some x.
Proof.
  intros Hf Hc Hx. specialize (Hf c). rewrite Hx in Hf.
  destruct (h' !! c) as [x'|]; [|done]. naive_solver congruence.
Qed.

Lemma repr_ext h h' l ids :
  (∀ c x, c ∈ ids → h !! c = Some x →
     ∃ x', h' !! c = Some x' ∧ next x' = next x ∧ prev x' = prev x ∧ inPool x' = inPool x) →
  repr h l ids → repr h' l ids.
Proof.
  intros Hs [Hc Hh Ht Hnd Hn]. constructor; [done..|]. intros i c Hi.
  destruct (Hn i c Hi) as (x & Hx & Hnx & Hpx & Hix).
  destruct (Hs c x) as (x' & Hx' & ? & ? & ?); [by eapply list_elem_of_lookup_2|done|].
  exists x'. split_and!; congruence.
Qed.

Lemma repr_insert h l ids c x : repr h l ids → c ∉ ids → repr (<[c := x]> h) l ids.
Proof.
  intros Hr Hc. eapply repr_ext; [|done]. intros d y Hd Hy. exists y.
  rewrite lookup_insert_ne; [done|]. by intros ->.
Qed.

Lemma repr_count_nonneg h l ids : repr h l ids → (0 ≤ count l)%Z.
Proof. intros Hr. rewrite (repr_count _ _ _ Hr). apply zlen_nonneg. Qed.

(** Closing a connection that is not on the list. *)
Lemma close_conn_ok h c :
  live h c →
  ∃ x, close_conn h c = Some (<[c := x]> h) ∧
       ∃ y, h !! c = Some y ∧ next x = next y ∧ prev x = prev y ∧ inPool x = inPool y.
Proof.
  intros (y & Hy & _). unfold close_conn, modify. simpl. rewrite Hy. simpl.
  eexists. split; [done|]. by exists y.
Qed.

(** A step that changes neither the store nor the list. *)
Lemma inv_quiet h p l1 th l2 ids p' th' n :
  inv (MkConfig h p (l1 ++ th :: l2)) ids → idle p' = idle p →
  owned th' ⊆+ owned th → thread_ok h th' → counted p p' th th' (replicate n Add) →
  inv (MkConfig h p' (l1 ++ th' :: l2 ++ replicate n Add)) ids.
Proof.
  intros Hinv Hidle Ho Hok Hcnt. destruct (inv_here _ _ _ _ _ _ Hinv) as (Hr & _ & Hl & _ & _).
  eapply (inv_step h p l1 th l2 ids h p' th' _ ids []); try done.
  - by rewrite Hidle.
  - simpl. by apply submseteq_skips_l.
  - apply NoDup_nil_2.
  - by intros c Hc%elem_of_nil.
  - intros c Hc. apply Hl. apply elem_of_app in Hc as [Hc|Hc]; apply elem_of_app; [by left|right].
    by eapply elem_of_submseteq.
  - eauto.
Qed.

(** A step that closes the connection [c], which its goroutine holds. *)
Lemma inv_close h p l1 th l2 ids c h' p' th' :
  inv (MkConfig h p (l1 ++ th :: l2)) ids → close_conn h c = Some h' → idle p' = idle p →
  c :: owned th' ⊆+ owned th → thread_ok h' th' → counted p p' th th' [] →
  inv (MkConfig h' p' (l1 ++ th' :: l2 ++ [])) ids.
Proof.
  intros Hinv Hclose Hidle Ho Hok Hcnt.
  destruct (inv_here _ _ _ _ _ _ Hinv) as (Hr & Hnd & Hl & _ & _).
  assert (c ∈ owned th) as Hc by (eapply elem_of_submseteq; [apply list_elem_of_here|done]).
  destruct (close_conn_ok h c) as (x & E & _); [apply Hl; set_solver|].
  rewrite E in Hclose. simplify_eq.
  assert (NoDup (ids ++ c :: owned th')) as Hnd'.
  { eapply NoDup_sub; [|exact Hnd]. by apply submseteq_skips_l. }
  assert (∀ d, d ∈ ids ++ owned th' → d ≠ c) as Hne.
  { intros d Hd ->. rewrite <- Permutation_middle in Hnd'. by apply NoDup_cons in Hnd' as [? _]. }
  eapply (inv_step h p l1 th l2 ids _ p' th' _ ids []); try done.
  - rewrite Hidle. apply repr_insert; [done|]. intros Hi. apply (Hne c); [set_solver|done].
  - simpl. apply submseteq_skips_l. etransitivity; [|exact Ho]. by apply submseteq_cons.
  - apply NoDup_nil_2.
  - by intros d Hd%elem_of_nil.
  - intros d y Hy Hd. rewrite lookup_insert_ne; [done|]. intros ->. apply Hd. set_solver.
  - intros d Hd. destruct (Hl d) as (y & Hy & ?).
    { apply elem_of_app in Hd as [Hd|Hd]; apply elem_of_app; [by left|right].
      eapply elem_of_submseteq; [|exact Ho]. by apply list_elem_of_further. }
    exists y. rewrite lookup_insert_ne; [done|]. intros E'. by apply (Hne d).
  - by exists 0.
Qed.

(** A step that takes the first connection off the list. *)
Lemma pop_ok h p ids :
  repr h (idle p) ids →
  match head (idle p) with
  | None => ids = []
  | Some c => ∃ h' l' ids', popHead h (idle p) = Some (h', l') ∧ ids = c :: ids' ∧
                repr h' l' ids' ∧ frame h h' ids ∧ loose h' c
  end.
Proof.
  intros Hr. rewrite (repr_head _ _ _ Hr). destruct ids as [|c ids]; [done|]. simpl.
  destruct (popHead_repr _ _ _ _ Hr) as (h' & l' & ? & ? & ? & ?). by exists h', l', ids.
Qed.

Lemma inv_pop h p l1 th l2 ids c h' l' ids' th' p' :
  inv (MkConfig h p (l1 ++ th :: l2)) ids → ids = c :: ids' →
  repr h' l' ids' → frame h h' ids → loose h' c → idle p' = l' →
  owned th = [] → owned th' = [c] → thread_ok h' th' → counted p p' th th' [] →
  inv (MkConfig h' p' (l1 ++ th' :: l2 ++ [])) ids'.
Proof.
  intros Hinv Hids Hr' Hf Hlo Hidle Ho Ho' Hok Hcnt.
  destruct (inv_here _ _ _ _ _ _ Hinv) as (Hr & Hnd & Hl & _ & _).
  eapply (inv_step h p l1 th l2 ids _ p' th' _ ids' []); try done.
  - by rewrite Hidle.
  - rewrite Ho, Ho', Hids. solve_submseteq.
  - apply NoDup_nil_2.
  - by intros d Hd%elem_of_nil.
  - intros d y Hy Hd. eapply frame_other; [done| |done]. rewrite Ho, app_nil_r in Hd. done.
  - intros d Hd. eapply frame_live; [done|]. apply Hl. rewrite Ho' in Hd. set_solver.
  - by exists 0.
Qed.

(** Pushing a connection that a goroutine holds. *)
Lemma push_ok h p ids c x :
  repr h (idle p) ids → c ∉ ids → h !! c = Some x →
  ∃ h' l' ids', push h p c = Some (h', p <| idle := l' |>) ∧ ids' ≡ₚ c :: ids ∧
    repr h' l' ids' ∧ frame h h' (c :: ids).
Proof.
  intros Hr Hc Hx. unfold push. destruct (PushIdleConnToTail p).
  - destruct (pushTail_repr h (idle p) ids c x) as (h' & l' & -> & ? & Hf); [done..|].
    exists h', l', (ids ++ [c]). split_and!; [done| |done|].
    + symmetry. apply Permutation_cons_append.
    + eapply frame_weaken; [done|]. set_solver.
  - destruct (pushHead_repr h (idle p) ids c x) as (h' & l' & -> & ? & Hf); [done..|].
    by exists h', l', (c :: ids).
Qed.

Lemma repr_perm_count h h' l l' ids ids' :
  repr h l ids → repr h' l' ids' → count l' = (count l + (zlen ids' - zlen ids))%Z.
Proof. intros Hr Hr'. rewrite (repr_count _ _ _ Hr), (repr_count _ _ _ Hr'). lia. Qed.

Ltac solve_counted :=
  constructor; simpl; [by split_and!|intros; split; lia|lia|];
  let H := fresh in intros H; split_and!; [done|lia|(left; lia) || (right; unfold keeps; lia)|lia|lia].

Ltac solve_thread_ok := simpl; let c := fresh in let H := fresh in intros c H; by apply elem_of_nil in H.

(** A new connection. *)
Lemma inv_dial h p l1 th l2 ids c now th' :
  inv (MkConfig h p (l1 ++ th :: l2)) ids → h !! c = None →
  owned th = [] → owned th' = [c] →
  (∀ h', loose h' c → thread_ok h' th') → counted p p th th' [] →
  inv (MkConfig (<[c := newPoolConn p now]> h) p (l1 ++ th' :: l2 ++ [])) ids.
Proof.
  intros Hinv Hc Ho Ho' Hok Hcnt. destruct (inv_here _ _ _ _ _ _ Hinv) as (Hr & Hnd & Hl & _ & _).
  assert (∀ d, d ∈ ids → d ≠ c) as Hne.
  { intros d Hd ->. destruct (Hl c) as (x & Hx & _); [set_solver|]. congruence. }
  eapply (inv_step h p l1 th l2 ids _ p th' _ ids [c]); try done.
  - apply repr_insert; [done|]. intros Hi. by apply (Hne c).
  - rewrite Ho, Ho', app_nil_r. solve_submseteq.
  - apply NoDup_singleton.
  - by intros d ->%list_elem_of_singleton.
  - intros d x Hx _. rewrite lookup_insert_ne; [done|congruence].
  - intros d Hd. rewrite Ho' in Hd. apply elem_of_app in Hd as [Hd|Hd].
    + destruct (Hl d) as (x & Hx & ?); [set_solver|]. exists x. split; [|done].
      rewrite lookup_insert_ne; [done|congruence].
    + apply list_elem_of_singleton in Hd as ->. eexists. rewrite lookup_insert_eq. done.
  - apply Hok. eexists. rewrite lookup_insert_eq. done.
  - by exists 0.
Qed.

(** Storing the time in a connection that a goroutine holds. *)
Lemma set_time h pc x now :
  h !! pc = Some x →
  modify h (Some pc) (λ c, c <| t := now |>) = Some (<[pc := x <| t := now |>]> h) ∧
  ∀ ids, pc ∈ ids → frame h (<[pc := x <| t := now |>]> h) ids.
Proof.
  intros Hx. split; [unfold modify; simpl; by rewrite Hx|]. intros ids Hin.
  by destruct (frame_modify h pc x (λ c, c <| t := now |>) ids).
Qed.

(** A connection that a goroutine holds goes to the list. *)
Lemma timed_push_ok h p ids c now :
  repr h (idle p) ids → c ∉ ids → live h c →
  ∃ h0 h' l' ids', modify h (Some c) (λ c, c <| t := now |>) = Some h0 ∧
    push h0 p c = Some (h', p <| idle := l' |>) ∧ ids' ≡ₚ c :: ids ∧ repr h' l' ids' ∧
    frame h h' (c :: ids).
Proof.
  intros Hr Hc (x & Hx & _). destruct (set_time h c x now Hx) as [-> Hf0].
  edestruct (push_ok (<[c := x <| t := now |>]> h) p ids c) as (h' & l' & ids' & E & Hp & Hr' & Hf);
    [by apply repr_insert|done|by rewrite lookup_insert_eq|].
  exists (<[c := x <| t := now |>]> h), h', l', ids'. split_and!; [done..|].
  eapply frame_trans; [apply Hf0; set_solver|done].
Qed.

(** The list after a push by a goroutine that gives its connection up. *)
Lemma inv_pushed h p l1 th l2 ids c h' l' ids' p' th' :
  inv (MkConfig h p (l1 ++ th :: l2)) ids → owned th = [c] → owned th' = [] →
  ids' ≡ₚ c :: ids → repr h' l' ids' → frame h h' (c :: ids) → idle p' = l' →
  thread_ok h' th' → counted p p' th th' [] →
  inv (MkConfig h' p' (l1 ++ th' :: l2 ++ [])) ids'.
Proof.
  intros Hinv Ho Ho' Hp Hr' Hf Hidle Hok Hcnt.
  destruct (inv_here _ _ _ _ _ _ Hinv) as (Hr & Hnd & Hl & _ & _).
  eapply (inv_step h p l1 th l2 ids _ p' th' _ ids' []); try done.
  - by rewrite Hidle.
  - rewrite Ho, Ho', Hp, app_nil_r. solve_submseteq.
  - apply NoDup_nil_2.
  - by intros d Hd%elem_of_nil.
  - intros d y Hy Hd. rewrite Ho in Hd. eapply frame_other; [done| |done]. set_solver.
  - intros d Hd. eapply frame_live; [done|]. apply Hl. rewrite Ho.
    rewrite Ho', app_nil_r, Hp in Hd. set_solver.
  - by exists 0.
Qed.

(** What a step has to show. *)
Definition step_ok (l1 l2 : list thread) (o : outcome) : Prop :=
  match o with
  | Panics => False
  | Blocked => True
  | Next h' p' th' st => ∃ ids', inv (MkConfig h' p' (l1 ++ th' :: l2 ++ st)) ids'
  end.

Lemma put_step ch h p l1 l2 ids pc force :
  inv (MkConfig h p (l1 ++ Put pc force :: l2)) ids →
  step_ok l1 l2 (tstep ch h p (Put pc force)).
Proof.
  intros Hinv. destruct (inv_here _ _ _ _ _ _ Hinv) as (Hr & Hnd & Hl & Hok & Hcnt).
  destruct (Hl pc) as (x & Hx & Hxc & Hxo); [set_solver|]. simpl. rewrite Hx. simpl. rewrite Hxc.
  unfold put_locked. destruct (negb (pclosed p) && negb force) eqn:Eopen.
  - apply andb_true_iff in Eopen as [Ec%negb_true_iff _].
    assert (pc ∉ ids) as Hpc.
    { apply NoDup_app in Hnd as (_ & Hnd & _). intros Hin. by apply (Hnd pc Hin), list_elem_of_here. }
    destruct (timed_push_ok h p ids pc (now ch)) as (h0 & h' & l' & ids' & -> & E & Hp & Hr' & Hf);
      [done|done|by exists x|]. simpl. rewrite E. simpl.
    pose proof (repr_perm_count _ _ _ _ _ _ Hr Hr') as Hcount.
    apply Permutation_length in Hp as Hlen. unfold zlen in Hcount. rewrite Hlen in Hcount. simpl in Hcount.
    destruct (MaxIdle p <=? idleSize p)%Z eqn:Emax.
    + destruct ids' as [|v ids' _] using rev_ind; [by apply Permutation_length in Hp|].
      destruct (popTail_repr h' l' v ids' Hr') as (h2 & l2' & -> & Hr2 & Hf2 & Hlo & Ht).
      rewrite Ht. simpl. exists ids'.
      assert (ids' ++ [v] ≡ₚ ids ++ [pc]) as Hp2.
      { rewrite Hp. apply Permutation_cons_append. }
      assert (frame h h2 (pc :: ids)) as Hf3.
      { eapply frame_trans; [done|]. eapply frame_weaken; [done|]. rewrite Hp. done. }
      pose proof (repr_perm_count _ _ _ _ _ _ Hr' Hr2) as Hcount2. unfold zlen in Hcount2.
      rewrite length_app in Hcount2. simpl in Hcount2.
      eapply (inv_step h p l1 _ l2 ids _ _ _ _ ids' []); try done.
      * simpl. rewrite Hp2. done.
      * apply NoDup_nil_2.
      * by intros d Hd%elem_of_nil.
      * intros d y Hy Hd. eapply frame_other; [done| |done]. set_solver.
      * intros d Hd. eapply frame_live; [done|]. apply Hl. simpl in Hd. rewrite Hp2 in Hd. done.
      * by intros d ->%list_elem_of_singleton.
      * by exists 0.
      * solve_counted.
    + exists ids'. eapply inv_pushed; try done; [solve_thread_ok|].
      bool_to_prop. solve_counted.
  - exists ids. eapply (inv_quiet _ _ _ _ _ _ _ _ 0); [done|done|done|done|].
    solve_counted.
Qed.

Lemma health_loop_ok h p l1 th l2 ids n :
  inv (MkConfig h p (l1 ++ th :: l2)) ids → owned th = [] → routine th = 1%Z →
  has_token th = 0%Z → is_used th = 0%Z → pending th = 0%Z → checking th = 0%Z →
  step_ok l1 l2 (health_loop h p n).
Proof.
  intros Hinv Ho Hro Htok Hu Hpe Hch. destruct (inv_here _ _ _ _ _ _ Hinv) as (Hr & _).
  unfold health_loop, checkHealth_pop.
  assert (step_ok l1 l2 (Next h p Timeout [])) as Hstay.
  { exists ids. eapply (inv_quiet _ _ _ th _ _ _ _ 0); [done|done|rewrite Ho; done|solve_thread_ok|].
    constructor; rewrite ?Hro, ?Htok, ?Hu, ?Hpe, ?Hch; simpl; [done|lia|lia|].
    intros Hc. split_and!; [done|lia|left; lia|lia|lia]. }
  destruct n as [|n]; [done|]. pose proof (pop_ok h p ids Hr) as Hpop.
  destruct (head (idle p)) as [c|]; [|done].
  destruct Hpop as (h' & l' & ids' & -> & Hids & Hr' & Hf & Hlo). simpl.
  exists ids'. pose proof (repr_perm_count _ _ _ _ _ _ Hr Hr') as Hcount.
  rewrite Hids in Hcount. unfold zlen in Hcount. simpl in Hcount.
  eapply inv_pop; try done; [by intros d ->%list_elem_of_singleton|].
  constructor; rewrite ?Hro, ?Htok, ?Hu, ?Hpe, ?Hch; simpl; [done|lia|lia|].
  intros Hc. split_and!; [done|lia|left; lia|lia|lia].
Qed.

(** The last part of the health check of one connection: it goes back to the list and the loop
    goes on under the same lock. *)
Lemma health_push ch h p l1 l2 ids pc n :
  inv (MkConfig h p (l1 ++ HealthCheck pc n :: l2)) ids →
  ok ch = true → step_ok l1 l2 (tstep ch h p (HealthCheck pc n)).
Proof.
  intros Hinv Hok. destruct (inv_here _ _ _ _ _ _ Hinv) as (Hr & Hnd & Hl & _ & _).
  simpl. rewrite Hok. destruct (Hl pc) as (x & Hx & _); [set_solver|].
  assert (pc ∉ ids) as Hpc.
  { apply NoDup_app in Hnd as (_ & Hnd & _). intros Hin. by apply (Hnd pc Hin), list_elem_of_here. }
  destruct (pushTail_repr h (idle p) ids pc x Hr Hpc Hx) as (h' & l' & -> & Hr' & Hf). simpl.
  pose proof (repr_perm_count _ _ _ _ _ _ Hr Hr') as Hcount.
  rewrite zlen_app in Hcount. unfold zlen in Hcount. simpl in Hcount.
  eapply (health_loop_ok _ _ l1 (HealthNext n) l2 (ids ++ [pc])); try done.
  rewrite <- (app_nil_r l2).
  eapply inv_pushed; try done.
  - symmetry. apply Permutation_cons_append.
  - eapply frame_weaken; [done|]. set_solver.
  - solve_thread_ok.
  - solve_counted.
Qed.

Lemma keepMin_ok h p l1 l2 ids again :
  inv (MkConfig h p (l1 ++ KeepMin again :: l2)) ids →
  step_ok l1 l2 (tstep (MkChoice true 0 0) h p (KeepMin again)).
Proof.
  intros Hinv. simpl. unfold keepMinIdles_locked. destruct (0 <? _)%Z eqn:E; bool_to_prop.
  - exists ids. eapply (inv_quiet _ _ _ _ _ _ _ _ (Z.to_nat (MinIdle p - idleSize p))); [done|done| | |].
    + by destruct again.
    + destruct again; solve_thread_ok.
    + constructor; rewrite ?total_Add; simpl; [done|destruct again; simpl; lia|destruct again; simpl; lia|].
      intros Hc. unfold keeps. split_and!; [done|destruct again; simpl; lia| |lia|lia].
      right. destruct again; simpl; lia.
  - exists ids. eapply (inv_quiet _ _ _ _ _ _ _ _ 0); [done|done| | |].
    + by destruct again.
    + destruct again; solve_thread_ok.
    + destruct again; solve_counted.
Qed.

Lemma follow_repr h l ids :
  repr h l ids → follow h (Z.to_nat (count l)) (head l) = ids.
Proof.
  intros [Hc Hh _ _ Hn]. rewrite Hc, Hh. unfold zlen. rewrite Nat2Z.id. clear Hc Hh.
  assert (∀ k, k ≤ length ids → follow h (length ids - k) (ids !! k) = drop k ids) as H.
  { intros k Hk. remember (length ids - k) as n eqn:En. revert k Hk En.
    induction n as [|n IH]; intros k Hk En; simpl.
    - by rewrite drop_ge by lia.
    - destruct (ids !! k) as [c|] eqn:E; [|apply lookup_ge_None in E; lia].
      destruct (Hn k c E) as (x & Hx & Hnx & _). rewrite Hx. simpl. rewrite Hnx.
      rewrite (drop_S ids c k E). f_equal. apply IH; lia. }
  specialize (H 0 (Nat.le_0_l _)). rewrite Nat.sub_0_r in H. by rewrite H, drop_0.
Qed.

(** [Close] detaches the whole list. *)
Lemma close_ok h p l1 l2 ids again :
  inv (MkConfig h p (l1 ++ CloseStart again :: l2)) ids →
  step_ok l1 l2 (tstep (MkChoice true 0 0) h p (CloseStart again)).
Proof.
  intros Hinv. destruct (inv_here _ _ _ _ _ _ Hinv) as (Hr & Hnd & Hl & _ & Hcnt).
  simpl. unfold Close_locked. destruct (pclosed p) eqn:Ec.
  - exists ids. eapply (inv_quiet _ _ _ _ _ _ _ _ 0); [done|done| | |].
    + by destruct (Z.to_nat (count (idle p))).
    + simpl. destruct (Z.to_nat (count (idle p))); simpl; split; done.
    + constructor; simpl; [by split_and!|intros; split; lia|lia|congruence].
  - exists []. rewrite (follow_repr h (idle p) ids Hr).
    eapply (inv_step h p l1 _ l2 ids h _ _ _ [] []); try done.
    + constructor; try done. apply NoDup_nil_2.
    + simpl. by rewrite app_nil_r.
    + apply NoDup_nil_2.
    + by intros d Hd%elem_of_nil.
    + intros d Hd. apply Hl. set_solver.
    + simpl. split; [apply (repr_head _ _ _ Hr)|]. intros i c Hi.
      destruct (repr_node _ _ _ Hr i c Hi) as (x & ? & ? & _). by exists x.
    + by exists 0.
    + constructor; simpl; [by split_and!|intros; split; lia|lia|congruence].
Qed.

Lemma walk_ok ch h p l1 l2 ids pc rest :
  inv (MkConfig h p (l1 ++ Walk pc rest :: l2)) ids →
  step_ok l1 l2 (tstep ch h p (Walk pc rest)).
Proof.
  intros Hinv. destruct (inv_here _ _ _ _ _ _ Hinv) as (Hr & Hnd & Hl & [Hpc Hn] & _).
  destruct rest as [|c rest]; simpl in Hpc; subst pc.
  - exists ids. eapply (inv_quiet _ _ _ _ _ _ _ _ 0); [done|done|done|solve_thread_ok|solve_counted].
  - simpl in *. destruct (Hn 0 c eq_refl) as (x & Hx & Hnx). simpl in Hnx.
    destruct (close_conn_ok h c) as (y & E & z & Hz & Hny & _); [apply Hl; set_solver|].
    rewrite E. simpl. rewrite lookup_insert_eq. simpl. simplify_eq. rewrite drop_0.
    exists ids. eapply inv_close; try done.
    + simpl. split; [congruence|]. intros i d Hi.
      destruct (Hn (S i) d Hi) as (w & Hw & Hnw). exists w. split; [|done].
      rewrite lookup_insert_ne; [done|]. intros ->.
      apply NoDup_app in Hnd as (_ & _ & Hnd). apply NoDup_cons in Hnd as [Hnd _].
      apply Hnd. by eapply list_elem_of_lookup_2.
    + solve_counted.
Qed.

Lemma getToken_ok p p' :
  getToken p = Some p' → counted p p' Get GetUsed [] ∧ idle p' = idle p.
Proof.
  unfold getToken. destruct (MaxActive p <=? 0)%Z eqn:E; [|destruct (token p <? MaxActive p)%Z eqn:E2];
    intros H; simplify_eq; bool_to_prop; (split; [solve_counted|done]).
Qed.

Lemma freeToken_ok p p' th th' :
  freeToken p = Some p' → has_token th = 1%Z → has_token th' = 0%Z → is_used th' = is_used th →
  pending th' = pending th → checking th' = checking th → routine th' = routine th →
  counted p p' th th' [] ∧ idle p' = idle p.
Proof.
  unfold freeToken. destruct (MaxActive p <=? 0)%Z eqn:E; [|destruct (0 <? token p)%Z eqn:E2];
    intros H H1 H2 H3 H4 H5 H6; simplify_eq; bool_to_prop; (split; [|done]);
    (constructor; rewrite ?H1, ?H2, ?H3, ?H4, ?H5, ?H6; simpl; [done|lia|lia|]; intros Hc;
     split_and!; [done|lia|left; lia|lia|lia]).
Qed.

Ltac quiet := eexists; eapply (inv_quiet _ _ _ _ _ _ _ _ 0); [eassumption|done|done|solve_thread_ok|solve_counted].

Lemma get_step ch h p l1 th l2 ids :
  th = Get ∨ th = GetIdle ∨ th = GetDial ∨ th = GetFail ∨ th = PutToken →
  inv (MkConfig h p (l1 ++ th :: l2)) ids → step_ok l1 l2 (tstep ch h p th).
Proof.
  intros Hth Hinv. destruct (inv_here _ _ _ _ _ _ Hinv) as (Hr & _).
  destruct Hth as [-> |[-> |[-> |[-> | ->]]]]; simpl.
  - destruct (getToken p) as [p'|] eqn:E; [|case_match; [done|quiet]].
    apply getToken_ok in E as [? ?]. exists ids.
    eapply (inv_quiet _ _ _ _ _ _ _ _ 0); [done|done|done|solve_thread_ok|done].
  - unfold getIdleConn_pop. pose proof (pop_ok h p ids Hr) as Hpop.
    destruct (head (idle p)) as [c|]; simpl; [|quiet].
    destruct Hpop as (h' & l' & ids' & -> & Hids & Hr' & Hf & Hlo). simpl. exists ids'.
    pose proof (repr_perm_count _ _ _ _ _ _ Hr Hr') as Hcount.
    rewrite Hids in Hcount. unfold zlen in Hcount. simpl in Hcount.
    eapply inv_pop; try done; [by intros d ->%list_elem_of_singleton|solve_counted].
  - destruct (ok ch); [|quiet]. destruct (h !! fresh ch) eqn:E; [done|]. exists ids.
    eapply inv_dial; try done; [by intros h' Hl d ->%list_elem_of_singleton|solve_counted].
  - destruct (freeToken p) as [p'|] eqn:E; [|done].
    destruct (freeToken_ok p p' GetFail Failed E) as [? ?]; [done..|]. exists ids.
    eapply (inv_quiet _ _ _ _ _ _ _ _ 0); [done|done|done|solve_thread_ok|done].
  - destruct (freeToken p) as [p'|] eqn:E; [|done].
    destruct (freeToken_ok p p' PutToken PutUsed E) as [? ?]; [done..|]. exists ids.
    eapply (inv_quiet _ _ _ _ _ _ _ _ 0); [done|done|done|solve_thread_ok|done].
Qed.

(** A goroutine that gives up a connection it holds by closing it. *)
Lemma closing_step h p l1 th l2 ids pc th' :
  inv (MkConfig h p (l1 ++ th :: l2)) ids → owned th = [pc] → owned th' = [] →
  (∀ h, thread_ok h th') → counted p p th th' [] →
  step_ok l1 l2 (or_panic (close_conn h pc) (λ h, Next h p th' [])).
Proof.
  intros Hinv Ho Ho' Hok Hcnt. destruct (inv_here _ _ _ _ _ _ Hinv) as (_ & _ & Hl & _).
  destruct (close_conn_ok h pc) as (x & E & _); [apply Hl; rewrite Ho; set_solver|].
  rewrite E. exists ids. eapply inv_close; try done. by rewrite Ho, Ho'.
Qed.

Lemma add_push_step ch h p l1 l2 ids pc :
  inv (MkConfig h p (l1 ++ AddPush pc :: l2)) ids → step_ok l1 l2 (tstep ch h p (AddPush pc)).
Proof.
  intros Hinv. destruct (inv_here _ _ _ _ _ _ Hinv) as (Hr & Hnd & Hl & _ & _).
  simpl. unfold addIdleConn_push. destruct (pclosed p) eqn:Ec.
  - destruct (close_conn_ok h pc) as (x & E & _); [apply Hl; set_solver|]. rewrite E. simpl.
    exists ids. eapply inv_close; try done; [solve_thread_ok|].
    constructor; simpl; [done|lia|lia|congruence].
  - assert (pc ∉ ids) as Hpc.
    { apply NoDup_app in Hnd as (_ & Hnd & _). intros Hin. by apply (Hnd pc Hin), list_elem_of_here. }
    destruct (timed_push_ok h p ids pc (now ch)) as (h0 & h' & l' & ids' & -> & E & Hp & Hr' & Hf);
      [done|done|apply Hl; set_solver|]. simpl. rewrite E. simpl.
    pose proof (repr_perm_count _ _ _ _ _ _ Hr Hr') as Hcount.
    apply Permutation_length in Hp as Hlen. unfold zlen in Hcount. rewrite Hlen in Hcount. simpl in Hcount.
    exists ids'. eapply inv_pushed; try done; [solve_thread_ok|solve_counted].
Qed.

(** No step panics, and every step keeps the invariant. *)
Lemma tstep_ok ch h p l1 th l2 ids :
  inv (MkConfig h p (l1 ++ th :: l2)) ids → step_ok l1 l2 (tstep ch h p th).
Proof.
  intros Hinv. destruct (inv_here _ _ _ _ _ _ Hinv) as (Hr & Hnd & Hl & Hok & Hcnt).
  destruct th; try (apply (get_step ch h p l1 _ l2 ids); tauto); simpl.
  - quiet.
  - destruct (ok ch); [|eapply closing_step; try done; [by intros ? ? ?%elem_of_nil|solve_counted]].
    exists ids. eapply (inv_quiet _ _ _ _ _ _ _ _ 0); [done|done|done|done|solve_counted].
  - destruct (pclosed p); quiet.
  - done.
  - destruct (Hl pc) as (x & Hx & Hxc & _); [set_solver|]. rewrite Hx. simpl. rewrite Hxc.
    assert (∀ th', owned th' = [pc] → thread_ok h th' → counted p p (Use pc) th' [] →
      ∃ ids', inv (MkConfig h p (l1 ++ th' :: l2 ++ [])) ids') as Hgo.
    { intros th' Ho Hok' Hc. exists ids.
      eapply (inv_quiet _ _ _ _ _ _ _ _ 0); [done|done|by rewrite Ho|done|done]. }
    destruct (ok ch); [destruct (inPool x)|]; (apply Hgo; [done|done|solve_counted]).
  - by apply (put_step ch h p l1 l2 ids pc force).
  - eapply closing_step; try done; [by intros ? ? ?%elem_of_nil|solve_counted].
  - quiet.
  - done.
  - destruct (pclosed p); quiet.
  - destruct (ok ch); [|quiet]. destruct (h !! fresh ch) eqn:E; [done|]. exists ids.
    eapply inv_dial; try done; [by intros h' Hlo d ->%list_elem_of_singleton|solve_counted].
  - by apply (add_push_step ch h p l1 l2 ids pc).
  - quiet.
  - destruct (pclosed p) eqn:Ec; [|quiet]. exists ids.
    eapply (inv_quiet _ _ _ _ _ _ _ _ 0); [done|done|done|solve_thread_ok|].
    constructor; simpl; [done|lia|lia|congruence].
  - by eapply health_loop_ok.
  - destruct (ok ch) eqn:Eok.
    + pose proof (health_push ch h p l1 l2 ids pc n Hinv Eok) as H. simpl in H. by rewrite Eok in H.
    + eapply closing_step; try done; [by intros ? ? ?%elem_of_nil|solve_counted].
  - by eapply health_loop_ok.
  - destruct (checkPoolIdleTimeout p (now ch)); quiet.
  - destruct (MinIdle p <=? 0)%Z; quiet.
  - by apply (keepMin_ok h p l1 l2 ids again).
  - by apply (close_ok h p l1 l2 ids routine0).
  - by apply (walk_ok ch h p l1 l2 ids pc rest).
Qed.

(** ** Reachable states *)

(** The goroutines a program starts: users, the check routine, the first [keepMinIdles], and
    callers of [Close]. *)
Definition starting (th : thread) : Prop :=
  th = Get ∨ th = Sleep ∨ th = KeepMin false ∨ th = CloseStart false.

(** The states that a new pool and any number of goroutines come to. *)
Definition reachable (p : ConnectionPool) (c : config) : Prop :=
  ∃ l, Forall starting l ∧ rtc cstep (MkConfig ∅ p l) c.

(** A pool as [NewConnectionPool] builds it. *)
Definition is_new (p : ConnectionPool) : Prop :=
  p = newPool (MinIdle p) (MaxIdle p) (MaxActive p) (Wait p) (forceClosed p)
        (PushIdleConnToTail p) (onClose p) (poolIdleTimeout p).

Lemma starting_none l :
  Forall starting l →
  l ≫= owned = [] ∧ total has_token l = 0%Z ∧ total is_used l = 0%Z ∧ total pending l = 0%Z ∧
  total checking l = 0%Z.
Proof.
  induction 1 as [|th l Hth _ (IH1 & IH2 & IH3 & IH4 & IH5)]; [done|].
  destruct Hth as [-> |[-> |[-> | ->]]]; simpl; by rewrite ?IH2, ?IH3, ?IH4, ?IH5.
Qed.

Lemma inv_init p l : is_new p → Forall starting l → inv (MkConfig ∅ p l) [].
Proof.
  intros Hp Hl. destruct (starting_none l Hl) as (Ho & Ht & Hu & Hpe & Hch).
  constructor; cbn [conns cpool threads].
  - rewrite Hp. constructor; try done. apply NoDup_nil_2.
  - rewrite Ho. apply NoDup_nil_2.
  - rewrite Ho. by intros x Hx%elem_of_nil.
  - eapply Forall_impl; [done|]. intros th [-> |[-> |[-> | ->]]]; solve_thread_ok.
  - rewrite Hp. constructor; simpl; rewrite ?Ht, ?Hu, ?Hpe, ?Hch; [lia|done|].
    intros _. unfold keeps. simpl.
    assert (0 ≤ total routine l)%Z.
    { apply total_nonneg. intros []; simpl; try lia; [by destruct again|by destruct routine0]. }
    lia.
Qed.

Lemma pool_step_inv c c' ids : cstep c c' → inv c ids → ∃ ids', inv c' ids'.
Proof.
  intros [ch h p l1 th l2 h' p' th' st E] Hinv.
  pose proof (tstep_ok ch h p l1 th l2 ids Hinv) as H. by rewrite E in H.
Qed.

Lemma reachable_inv p c : is_new p → reachable p c → ∃ ids, inv c ids.
Proof.
  intros Hp (l & Hl & Hs). assert (∃ ids, inv (MkConfig ∅ p l) ids) as Hi.
  { exists []. by apply inv_init. }
  clear Hl. revert Hi. induction Hs as [c|c1 c2 c3 Hs Hss IH]; [done|].
  intros [ids Hi]. apply IH. by eapply pool_step_inv.
Qed.

Lemma owned_lookup l i th c : l !! i = Some th → c ∈ owned th → c ∈ l ≫= owned.
Proof. intros Hi Hc. apply list_elem_of_bind. exists th. split; [done|by eapply list_elem_of_lookup_2]. Qed.

Lemma lookup_split {A} (l : list A) i x :
  l !! i = Some x → l = take i l ++ x :: drop (S i) l.
Proof. intros H. by rewrite take_drop_middle. Qed.

(** C13. Connections are never shared: whatever the interleaving of users, health checks, idle
    timeouts and [Close], no two goroutines hold the same connection at the same time, none
    holds a connection that is on the idle list, every connection that is held or idle is
    open, the idle list stays a well-formed doubly linked list, and no step panics. *)
Theorem ConnPool_exclusive (p : ConnectionPool) (c : config) :
  is_new p → reachable p c →
  ∃ ids, repr (conns c) (idle (cpool c)) ids ∧
    (∀ i j th th' x, threads c !! i = Some th → threads c !! j = Some th' → i ≠ j →
       x ∈ owned th → x ∉ owned th') ∧
    (∀ i th x, threads c !! i = Some th → x ∈ owned th → x ∉ ids ∧ live (conns c) x) ∧
    (∀ x, x ∈ ids → live (conns c) x) ∧
    (∀ ch i th, threads c !! i = Some th → tstep ch (conns c) (cpool c) th ≠ Panics).
Proof.
  intros Hp Hc. destruct (reachable_inv _ _ Hp Hc) as [ids Hi]. exists ids.
  pose proof Hi as [Hr Hex Hl _ _]. split_and!; [done| | | |].
  - intros i j th th' x Hth Hth' Hne Hx Hx'.
    destruct (decide (i < j)) as [Hij|Hij]; [|assert (j < i) as Hji by lia].
    + rewrite (lookup_split _ _ _ Hth), bind_app, bind_cons in Hex.
      assert (drop (S i) (threads c) !! (j - S i) = Some th') as Hj.
      { rewrite lookup_drop. rewrite <- Hth'. f_equal. lia. }
      pose proof (owned_lookup _ _ _ _ Hj Hx'). rewrite app_assoc in Hex.
      apply NoDup_app in Hex as (_ & _ & Hex). apply NoDup_app in Hex as (_ & Hex & _). by apply (Hex x).
    + rewrite (lookup_split _ _ _ Hth'), bind_app, bind_cons in Hex.
      assert (drop (S j) (threads c) !! (i - S j) = Some th) as Hj.
      { rewrite lookup_drop. rewrite <- Hth. f_equal. lia. }
      pose proof (owned_lookup _ _ _ _ Hj Hx). rewrite app_assoc in Hex.
      apply NoDup_app in Hex as (_ & _ & Hex). apply NoDup_app in Hex as (_ & Hex & _). by apply (Hex x).
  - intros i th x Hth Hx. pose proof (owned_lookup _ _ _ _ Hth Hx) as Hin. split.
    + apply NoDup_app in Hex as (_ & Hex & _). intros Hx'. by apply (Hex x).
    + apply Hl. set_solver.
  - intros x Hx. apply Hl. set_solver.
  - intros ch i th Hth E. destruct c as [h pp l]. simpl in *.
    rewrite (lookup_split _ _ _ Hth) in Hi. pose proof (tstep_ok ch h pp _ th _ ids Hi) as H.
    by rewrite E in H.
Qed.

Lemma total_lookup f l i th : (∀ th, 0 ≤ f th)%Z → l !! i = Some th → (f th ≤ total f l)%Z.
Proof.
  intros Hf Hi. rewrite (lookup_split _ _ _ Hi), total_app. simpl.
  pose proof (total_nonneg f (take i l) Hf). pose proof (total_nonneg f (drop (S i) l) Hf). lia.
Qed.

Lemma has_token_nonneg th : (0 ≤ has_token th)%Z.
Proof. destruct th; simpl; lia. Qed.

Lemma is_used_nonneg th : (0 ≤ is_used th)%Z.
Proof. destruct th; simpl; lia. Qed.

(** The number of connections in the hands of users. *)
Definition in_use (l : list thread) : Z := total (λ th, if th is Use _ then 1 else 0)%Z l.

Lemma in_use_token l : (in_use l ≤ total has_token l)%Z.
Proof. unfold in_use. induction l as [|[] l IH]; simpl; lia. Qed.


(** [used] counts every [Get] that failed for ever: it is the number of [Get]s whose
    connection is not yet returned plus the number of those that ended in an error of
    [getNewConn].  So after one failed dial [checkPoolIdleTimeout] never holds again and the
    pool is never closed for being idle. *)
Theorem ConnPool_used (p : ConnectionPool) (c : config) :
  is_new p → reachable p c →
  used (cpool c) = total is_used (threads c) ∧
  (Failed ∈ threads c → ∀ now, checkPoolIdleTimeout (cpool c) now = false).
Proof.
  intros Hp Hc. destruct (reachable_inv _ _ Hp Hc) as [ids [_ _ _ _ [_ Hu _]]]. split; [done|].
  intros [i Hi]%list_elem_of_lookup now.
  pose proof (total_lookup is_used _ _ _ is_used_nonneg Hi) as H. simpl in H.
  unfold checkPoolIdleTimeout. rewrite (proj2 (Z.eqb_neq (used _) 0)) by lia.
  by rewrite !andb_false_r.
Qed.

(** ** Concrete runs *)

(** The step of the [i]-th goroutine. *)
Definition sched1 (c : config) (s : nat * choice) : config :=
  match threads c !! s.1 with
  | None => c
  | Some th =>
    match tstep s.2 (conns c) (cpool c) th with
    | Next h p th' started =>
      MkConfig h p (take s.1 (threads c) ++ th' :: drop (S s.1) (threads c) ++ started)
    | _ => c
    end
  end.

Lemma pool_sched_reach ss c : rtc cstep c (foldl sched1 c ss).
Proof.
  revert c. induction ss as [|[i ch] ss IH]; intros c; [done|]. simpl.
  transitivity (sched1 c (i, ch)); [|apply IH]. unfold sched1. simpl.
  destruct (threads c !! i) as [th|] eqn:E; [|done].
  destruct (tstep ch (conns c) (cpool c) th) as [| |h p th' st] eqn:Es; [done..|].
  apply rtc_once. destruct c as [hh pp l]. simpl in *.
  rewrite (lookup_split _ _ _ E) at 1. by apply cstep_step with ch.
Qed.

Module ConnPoolExamples.

Definition p0 : ConnectionPool := newPool 0 1 1 false false false true 1000.

Definition go (i : nat) : nat * choice := (i, MkChoice true 1 7).
Definition fails (i : nat) : nat * choice := (i, MkChoice false 1 7).

(** Two users and the check routine; the first user has a connection, the second none. *)
Definition users : list thread := [Get; Get; Sleep; CloseStart false].
Definition busy : config :=
  foldl sched1 (MkConfig ∅ p0 users) (map go [0; 0; 0; 0; 0; 1]).

Lemma users_starting : Forall starting users.
Proof. unfold users, starting. rewrite !Forall_cons, Forall_nil. tauto. Qed.

Lemma using_reachable : reachable p0 busy.
Proof. exists users. split; [apply users_starting|apply pool_sched_reach]. Qed.

Lemma ConnPool_exclusive_witness :
  ∃ ids, repr (conns busy) (idle (cpool busy)) ids ∧
    (∀ i j th th' x, threads busy !! i = Some th → threads busy !! j = Some th' → i ≠ j →
       x ∈ owned th → x ∉ owned th') ∧
    (∀ i th x, threads busy !! i = Some th → x ∈ owned th → x ∉ ids ∧ live (conns busy) x) ∧
    (∀ x, x ∈ ids → live (conns busy) x) ∧
    (∀ ch i th, threads busy !! i = Some th → tstep ch (conns busy) (cpool busy) th ≠ Panics).
Proof. apply (ConnPool_exclusive p0 busy); [reflexivity|exact using_reachable]. Defined.


(** The first user's dial fails. *)
Definition failed : config :=
  foldl sched1 (MkConfig ∅ p0 users) [go 0; go 0; go 0; go 0; fails 0; go 0].

Lemma ConnPool_used_witness :
  threads failed = [Failed; Get; Sleep; CloseStart false] ∧
  checkPoolIdleTimeout (cpool failed) 1000000 = false.
Proof.
  split; [vm_compute; reflexivity|].
  apply (ConnPool_used p0 failed); [reflexivity| |].
  - exists users. split; [apply users_starting|apply pool_sched_reach].
  - apply list_elem_of_here.
Defined.

(** The pool is closed while the check routine has taken the idle connection off the list: the
    routine puts it back into the closed pool, and nobody closes it. *)
Definition leaked : config :=
  foldl sched1 (MkConfig ∅ p0 users)
    (map go [0; 0; 0; 0; 0; 0; 0; 0; 0; 2; 2; 3; 3; 2; 2; 2; 2]).

Lemma close_leak :
  reachable p0 leaked ∧ threads leaked = [Done; Get; Done; Done] ∧
  pclosed (cpool leaked) = true ∧ head (idle (cpool leaked)) = Some 7 ∧ live (conns leaked) 7.
Proof.
  split; [exists users; split; [apply users_starting|apply pool_sched_reach]|].
  vm_compute. split_and!; [done..|]. eexists. split_and!; reflexivity.
Qed.

(** With [MaxIdle] zero a returned connection is closed at once. *)
Example MaxIdle_zero :
  let c := foldl sched1 (MkConfig ∅ (newPool 0 0 0 false false false true 0) [Get])
             (map go [0; 0; 0; 0; 0; 0; 0; 0; 0]) in
  count (idle (cpool c)) = 0%Z ∧ (open <$> conns c !! 7) = Some false.
Proof. vm_compute. done. Qed.

End ConnPoolExamples.
