(* ===== verification/Multiplexed.v ===== *)
(** Connection multiplexing on stream connections (pool/multiplexed/multiplexed.go): the
    virtual connections of one node, the demultiplexing of the frames that are read, closing,
    reconnecting and the removal of idle connections.

    Objects are named by their index in the list of all objects ever created.  An operation
    is one critical section of the mutex of its object; dialing and the clock are arguments.
    Times are in nanoseconds.  Packet connections (UDP), writing and the error texts of
    the pool are left out. *)

From S2P Require Import Prelude.

Definition millisecond : Z := 1000000.
Definition initialBackoff : Z := 5 * millisecond.
Definition maxBackoff : Z := 50 * millisecond.
Definition maxReconnectCount : Z := 10.
Definition reconnectCountResetInterval : Z := 5 * millisecond * (1 + 10) * 10.

Definition ErrDupRequestID : error := Plain "duplicated Request ID".

(** [ctx_done] is that the context of the virtual connection is cancelled; [taken] are the
    packets that [Read] has returned. *)
Record VirtualConnection := MkVC {
  id : Z;
  vconn : nat;
  recvQueue : list bytes;
  taken : list bytes;
  ctx_done : bool;
  vclosed : bool;
  verr : option error
}.

(** [lastReconnectTime] is [None] for the zero time; [destroying] is that [doClose] or
    [doRemove] has asked for [destroy], and [gone] that [destroy] was called. *)
Record Connection := MkConn {
  cerr : option error;
  enableIdleRemove : bool;
  maxVirConns : Z;
  reconnectCount : Z;
  lastReconnectTime : option Z;
  virConns : gmap Z nat;
  isIdle : bool;
  closed : bool;
  destroying : bool;
  gone : bool
}.

#[global] Instance eta_VC : Eta VirtualConnection := λ v,
  MkVC (id v) (vconn v) (recvQueue v) (taken v) (ctx_done v) (vclosed v) (verr v).
#[global] Instance eta_Conn : Eta Connection := λ c,
  MkConn (cerr c) (enableIdleRemove c) (maxVirConns c) (reconnectCount c) (lastReconnectTime c)
    (virConns c) (isIdle c) (closed c) (destroying c) (gone c).

Record PoolOptions := MkOptions {
  connectNumberPerHost : Z;
  maxIdleConnsPerHost : Z;
  maxVirConnsPerConn : Z
}.

(** [Connections] and the objects it leads to; [live] is its list [conns]. *)
Record Connections := MkConnections {
  opts : PoolOptions;
  live : list nat;
  currentIdle : Z;
  roundRobinIndex : Z;
  expelled : bool;
  all : list Connection;
  vcs : list VirtualConnection
}.

#[global] Instance eta_Connections : Eta Connections := λ s,
  MkConnections (opts s) (live s) (currentIdle s) (roundRobinIndex s) (expelled s) (all s) (vcs s).

(** ** Idle connections *)

Definition maxIdle (s : Connections) : Z := maxIdleConnsPerHost (opts s).

Definition addIdle (s : Connections) : Connections :=
  if (0 <? maxIdle s)%Z then s <| currentIdle := (currentIdle s + 1)%Z |> else s.
Definition subIdle (s : Connections) : Connections :=
  if (0 <? maxIdle s)%Z then s <| currentIdle := (currentIdle s - 1)%Z |> else s.

Definition set_conn (s : Connections) (c : nat) (f : Connection → Connection) : Connections :=
  s <| all := alter f c (all s) |>.
Definition set_vc (s : Connections) (a : nat) (f : VirtualConnection → VirtualConnection) : Connections :=
  s <| vcs := alter f a (vcs s) |>.

(** [newConn]; the goroutine that connects is started. *)
Definition freshConn (o : PoolOptions) : Connection :=
  MkConn None ((0 <? maxIdleConnsPerHost o)%Z && (0 <? maxVirConnsPerConn o)%Z)
    (maxVirConnsPerConn o) 0 None ∅ true false false false.

Definition newConn (s : Connections) : Connections * nat :=
  let c := length (all s) in
  (addIdle (s <| live := live s ++ [c] |> <| all := all s ++ [freshConn (opts s)] |>), c).

(** [New], [newConcreteConnections] and [initialize]. *)
Definition New (connectNumberPerHost maxIdleConnsPerHost maxVirConnsPerConn : Z) : PoolOptions :=
  MkOptions connectNumberPerHost
    (if negb (maxIdleConnsPerHost =? 0)%Z && (maxIdleConnsPerHost <? connectNumberPerHost)%Z
     then connectNumberPerHost else maxIdleConnsPerHost) maxVirConnsPerConn.

Definition newConcreteConnections (o : PoolOptions) : Connections :=
  Nat.iter (Z.to_nat (connectNumberPerHost o)) (λ s, fst (newConn s))
    (MkConnections o [] 0 0 false [] []).

(** ** Getting a virtual connection *)

Definition canGetVirConn (c : Connection) : bool :=
  (maxVirConns c =? 0)%Z || (Z.of_nat (size (virConns c)) <? maxVirConns c)%Z.

(** [pickSingleConcrete]; the connection is [None] when the connections were expelled.  The
    index is used without a bounds check in the code, and so is [!!].  For a [connectNumberPerHost] of 0,
    where the code divides by zero, the remainder is that of [Z.modulo]. *)
Definition pickSingleConcrete (s : Connections) : Connections * option nat :=
  if expelled s then (s, None)
  else if (maxVirConnsPerConn (opts s) =? 0)%Z then
    let i := ((roundRobinIndex s + 1) mod connectNumberPerHost (opts s))%Z in
    if (zlen (live s) <=? i)%Z then
      let '(s, c) := newConn (s <| roundRobinIndex := zlen (live s) |>) in (s, Some c)
    else (s <| roundRobinIndex := i |>, live s !! Z.to_nat i)
  else
    match list_find (λ c, canGetVirConn <$> all s !! c = Some true) (live s) with
    | Some (_, c) => (s, Some c)
    | None => let '(s, c) := newConn s in (s, Some c)
    end.

(** [cancel]: the error that is stored first stays. *)
Definition cancel (err : option error) (v : VirtualConnection) : VirtualConnection :=
  v <| verr := match verr v with Some e => Some e | None => err end |> <| ctx_done := true |>.

Definition newVirConn (s : Connections) (c : nat) (virConnID : Z) : Connections :=
  match all s !! c with
  | None => s
  | Some conn =>
    let a := length (vcs s) in
    let vc := MkVC virConnID c [] [] false false None in
    let vc := if closed conn then cancel (cerr conn) vc else vc in
    let s := match virConns conn !! virConnID with
             | Some prevConn => set_vc s prevConn (cancel (Some ErrDupRequestID))
             | None => s
             end in
    let s := s <| vcs := vcs s ++ [vc] |> in
    let s := set_conn s c (λ conn, conn <| virConns := <[virConnID := a]> (virConns conn) |>) in
    if isIdle conn then subIdle (set_conn s c (λ conn, conn <| isIdle := false |>)) else s
  end.

(** ** Reading *)

(** The body of the loop of [reading] for a frame.  The lookup and the [Put] are one step: in between, only
    the virtual connection can be closed or replaced, which does not touch its queue. *)
Definition deliver (s : Connections) (c : nat) (vid : Z) (buf : bytes) : Connections :=
  match all s !! c with
  | None => s
  | Some conn =>
    match virConns conn !! vid with
    | None => s
    | Some a => set_vc s a (λ v, v <| recvQueue := recvQueue v ++ [buf] |>)
    end
  end.

(** [Read] of a queue that is not empty. *)
Definition read (s : Connections) (a : nat) : Connections :=
  set_vc s a (λ v, match recvQueue v with
                   | [] => v
                   | buf :: q => v <| recvQueue := q |> <| taken := taken v ++ [buf] |>
                   end).

(** ** Reconnecting *)

(** [doReconnectBackoff] at the time [cur]: whether to go on, and how long it sleeps. *)
Definition doReconnectBackoff (c : Connection) (cur : Z) : bool * Z * Connection :=
  let count := match lastReconnectTime c with
               | Some t => if (t + reconnectCountResetInterval <? cur)%Z then 0%Z else reconnectCount c
               | None => reconnectCount c
               end in
  let count := (count + 1)%Z in
  let c := c <| reconnectCount := count |> <| lastReconnectTime := Some cur |> in
  if (maxReconnectCount <? count)%Z then (false, 0%Z, c)
  else (true, Z.min (count * initialBackoff) maxBackoff, c).

(** The loop of [reconnect] from the time [now]; [dials] tells whether each attempt succeeds and
    how long it takes.  [None] is that the loop has not ended after these attempts. *)
Fixpoint reconnect (c : Connection) (now : Z) (dials : list (bool * Z)) : option (bool * Connection) :=
  match dials with
  | [] => None
  | (ok, d) :: dials =>
    let now := (now + d)%Z in
    if ok then Some (true, c)
    else
      let '(go, sleep, c) := doReconnectBackoff c now in
      if go then reconnect c (now + sleep)%Z dials else Some (false, c)
  end.

(** ** Closing *)

(** [cancel] of all the virtual connections of a connection. *)
Definition cancel_all (err : option error) (conn : Connection) (l : list VirtualConnection)
    : list VirtualConnection :=
  foldr (λ a l, alter (cancel err) a l) l (map_to_list (virConns conn)).*2.

(** [doClose] at the time [now]; [None] is that reconnecting does not end.  When it reconnects,
    the connection is idle again. *)
Definition doClose (s : Connections) (c : nat) (lastErr : error) (reconn : bool) (now : Z)
    (dials : list (bool * Z)) : option Connections :=
  match all s !! c with
  | None => Some s
  | Some conn =>
    if closed conn then Some s
    else
      let s := s <| vcs := cancel_all (Some lastErr) conn (vcs s) |> in
      let conn := conn <| closed := true |> <| cerr := Some lastErr |> <| virConns := ∅ |> in
      let destroyed conn := set_conn s c (λ _, conn <| destroying := true |>) in
      if reconn then
        let '(go, sleep, conn) := doReconnectBackoff conn now in
        if go then
          '(success, conn) ← reconnect conn (now + sleep)%Z dials;
          if success : bool then
            let s := if isIdle conn then s else addIdle s in
            Some (set_conn s c (λ _, conn <| isIdle := true |> <| cerr := None |> <| closed := false |>))
          else Some (destroyed conn)
        else Some (destroyed conn)
      else Some (destroyed conn)
  end.

(** [destroy]: [expel] takes the connection out of the list. *)
Definition expel (s : Connections) (c : nat) : Connections :=
  match all s !! c with
  | None => s
  | Some conn =>
    if destroying conn then
      let s := subIdle s in
      let s := set_conn s c (λ conn, conn <| destroying := false |> <| gone := true |>) in
      let s := s <| live := filter (λ x, x ≠ c) (live s) |> in
      if expelled s || (0 <? zlen (live s))%Z then s else s <| expelled := true |>
    else s
  end.

(** [idleRemove] of a connection without the removed virtual connection. *)
Definition idleRemove (s : Connections) (c : nat) : Connections :=
  match all s !! c with
  | None => s
  | Some conn =>
    if negb (size (virConns conn) =? 0) then s
    else if closed conn then s
    else
      let s := if isIdle conn then s else addIdle (set_conn s c (λ conn, conn <| isIdle := true |>)) in
      if (maxIdle s <? currentIdle s)%Z
      then set_conn s c (λ conn, conn <| closed := true |> <| destroying := true |>)
      else s
  end.

(** [doRemove] *)
Definition doRemove (s : Connections) (c : nat) (virConnID : Z) : Connections :=
  let s := set_conn s c (λ conn, conn <| virConns := delete virConnID (virConns conn) |>) in
  match all s !! c with
  | Some conn => if enableIdleRemove conn then idleRemove s c else s
  | None => s
  end.

(** [Close] of a virtual connection. *)
Definition Close (s : Connections) (a : nat) : Connections :=
  match vcs s !! a with
  | None => s
  | Some v =>
    if vclosed v then s
    else doRemove (set_vc s a (λ v, v <| vclosed := true |>)) (vconn v) (id v)
  end.

(** ** Interleavings *)

(** What happens to the connections, in any order: a request picks a connection, registers a
    virtual connection on one it has picked, its context ends, it reads, it closes; a frame
    arrives on a connection; reading or writing fails; a destroyed connection is expelled. *)
Inductive event : Type :=
| Pick
| NewVirConn (c : nat) (virConnID : Z)
| CtxDone (a : nat)
| Read (a : nat)
| CloseVC (a : nat)
| Frame (c : nat) (vid : Z) (buf : bytes)
| CloseConn (c : nat) (lastErr : error) (reconn : bool) (now : Z) (dials : list (bool * Z))
| Destroy (c : nat).

(** A [CloseConn] whose reconnection does not end holds the mutex for ever; it is left out of
    the interleavings and treated on its own. *)
Definition step (s : Connections) (e : event) : Connections :=
  match e with
  | Pick => fst (pickSingleConcrete s)
  | NewVirConn c virConnID => newVirConn s c virConnID
  | CtxDone a => set_vc s a (λ v, v <| ctx_done := true |>)
  | Read a => read s a
  | CloseVC a => Close s a
  | Frame c vid buf => deliver s c vid buf
  | CloseConn c lastErr reconn now dials => default s (doClose s c lastErr reconn now dials)
  | Destroy c => expel s c
  end.

Definition run (s : Connections) (es : list event) : Connections := foldl step s es.

(** ** Reconnecting comes to an end only when dialing is quick *)

(** The connection has begun to count its attempts at the time [t0]. *)
Definition counting (c : Connection) (n : Z) (t0 : Z) : Prop :=
  reconnectCount c = n ∧ lastReconnectTime c = Some t0.

Lemma backoff_counting c n t0 cur go sleep c' :
  counting c n t0 → (cur ≤ t0 + reconnectCountResetInterval)%Z →
  doReconnectBackoff c cur = (go, sleep, c') →
  counting c' (n + 1) cur ∧ go = (n + 1 <=? maxReconnectCount)%Z ∧ (sleep ≤ maxBackoff)%Z.
Proof.
  intros [Hn Ht] Hcur. unfold doReconnectBackoff. rewrite Ht, Hn.
  rewrite (proj2 (Z.ltb_ge (t0 + reconnectCountResetInterval) cur)) by lia.
  destruct (maxReconnectCount <? n + 1)%Z eqn:E; bool_to_prop; intros H; simplify_eq.
  - split_and!; [done|by rewrite (proj2 (Z.leb_gt _ _)) by lia|done].
  - split_and!; [done|by rewrite (proj2 (Z.leb_le _ _)) by lia|apply Z.le_min_r].
Qed.

Lemma reconnect_quick c n t0 now dials :
  counting c n t0 → (n ≤ maxReconnectCount)%Z → (now ≤ t0 + maxBackoff)%Z →
  Forall (λ x, x.2 ≤ reconnectCountResetInterval - maxBackoff)%Z dials →
  (maxReconnectCount - n < zlen dials)%Z →
  reconnect c now dials ≠ None.
Proof.
  revert c n t0 now. induction dials as [|[ok d] dials IH]; intros c n t0 now Hc Hn Hnow Hd Hlen.
  - unfold zlen in Hlen. simpl in Hlen. lia.
  - apply Forall_cons in Hd as [Hd Hds]. simpl in Hd |- *. destruct ok; [done|].
    destruct (doReconnectBackoff c (now + d)) as [[go sleep] c'] eqn:E.
    apply (backoff_counting c n t0) in E as (Hc' & -> & Hs); [|done|lia].
    destruct (n + 1 <=? maxReconnectCount)%Z eqn:Ego; [|done]. bool_to_prop.
    apply (IH c' (n + 1)%Z (now + d)%Z); [done|lia|lia|done|].
    unfold zlen in *. simpl in Hlen. lia.
Qed.

Lemma reconnect_slow c t0 now dials :
  lastReconnectTime c = Some t0 → (t0 ≤ now)%Z →
  Forall (λ x, x.1 = false ∧ reconnectCountResetInterval < x.2)%Z dials →
  reconnect c now dials = None.
Proof.
  revert c t0 now. induction dials as [|[ok d] dials IH]; intros c t0 now Hc Hnow Hd; [done|].
  apply Forall_cons in Hd as [[Hok Hlt] Hd]. simpl in Hok, Hlt. subst ok. simpl.
  unfold doReconnectBackoff. rewrite Hc.
  rewrite (proj2 (Z.ltb_lt (t0 + reconnectCountResetInterval) (now + d))) by lia.
  eapply IH; [done| |done]. unfold initialBackoff, maxBackoff, millisecond. lia.
Qed.

(** ** What an operation changes *)

(** The connection and the id of every virtual connection. *)
Definition keys (s : Connections) : list (nat * Z) := (λ v, (vconn v, id v)) <$> vcs s.

(** The virtual connection that is registered under an id. *)
Definition reg (s : Connections) (c : nat) (v : Z) : option nat :=
  conn ← all s !! c; virConns conn !! v.

(** The packets that came in for a virtual connection. *)
Definition inbox (v : VirtualConnection) : list bytes := taken v ++ recvQueue v.

(** Virtual connections that differ in their state of cancellation at most, and only more so. *)
Definition only_cancelled (v v' : VirtualConnection) : Prop :=
  vconn v' = vconn v ∧ id v' = id v ∧ inbox v' = inbox v ∧ vclosed v' = vclosed v ∧
  (ctx_done v = true → ctx_done v' = true).

#[local] Instance only_cancelled_refl : Reflexive only_cancelled.
Proof. intros v. by split_and!. Qed.
#[local] Instance only_cancelled_trans : Transitive only_cancelled.
Proof. intros v1 v2 v3 (?&?&?&?&?) (?&?&?&?&?). split_and!; try congruence. auto. Qed.

Lemma cancel_cancelled err v : only_cancelled v (cancel err v).
Proof. by split_and!. Qed.

Lemma alter_spec {A} (f : A → A) (R : A → A → Prop) c l :
  (∀ x, R x x) → (∀ x, R x (f x)) → Forall2 R l (alter f c l).
Proof.
  intros Hr Hf. revert c. induction l as [|x l IH]; intros [|c]; simpl; [done|done|..].
  - constructor; [done|]. clear IH. induction l; by constructor.
  - constructor; [done|apply IH].
Qed.

Lemma cancel_all_cancelled err conn l : Forall2 only_cancelled l (cancel_all err conn l).
Proof.
  unfold cancel_all. induction (map_to_list (virConns conn)).*2 as [|a as_ IH]; simpl.
  - done.
  - etrans; [exact IH|]. apply alter_spec; [done|apply cancel_cancelled].
Qed.

Lemma cancel_all_done err conn l v a vc' :
  virConns conn !! v = Some a → cancel_all err conn l !! a = Some vc' → ctx_done vc' = true.
Proof.
  intros Hv. assert (a ∈ (map_to_list (virConns conn)).*2) as Hin.
  { apply list_elem_of_fmap. exists (v, a). split; [done|]. by apply elem_of_map_to_list. }
  unfold cancel_all. revert vc'. induction (map_to_list (virConns conn)).*2 as [|b bs IH];
    [by apply elem_of_nil in Hin|].
  intros vc'. simpl. destruct (decide (a = b)) as [->|Hne].
  - rewrite list_lookup_alter_eq. by intros (x & _ & ->)%fmap_Some.
  - rewrite list_lookup_alter_ne by done. apply IH. set_solver.
Qed.

Lemma Forall2_keys l l' :
  Forall2 only_cancelled l l' →
  (λ v, (vconn v, id v)) <$> l' = (λ v, (vconn v, id v)) <$> l.
Proof. induction 1 as [|v v' l l' (E1 & E2 & _) _ IH]; [done|]. by rewrite !fmap_cons, E1, E2, IH. Qed.

(** A new concrete connection. *)
Lemma newConn_spec s :
  let s' := fst (newConn s) in
  all s' = all s ++ [freshConn (opts s)] ∧ vcs s' = vcs s ∧ live s' = live s ++ [length (all s)] ∧
  opts s' = opts s ∧ (0 < maxIdle s → currentIdle s' = currentIdle s + 1)%Z.
Proof.
  unfold newConn, addIdle. simpl. change (maxIdle (_ <| all := _ |>)) with (maxIdle s).
  destruct (0 <? maxIdle s)%Z eqn:E; bool_to_prop; split_and!; try done; simpl; lia.
Qed.

(** What [Pick] does: nothing but perhaps a new connection. *)
Lemma pick_spec s :
  let s' := fst (pickSingleConcrete s) in
  (all s' = all s ∧ vcs s' = vcs s ∧ live s' = live s ∧ currentIdle s' = currentIdle s ∧
   opts s' = opts s) ∨
  ∃ s0, s' = fst (newConn s0) ∧ all s0 = all s ∧ vcs s0 = vcs s ∧ live s0 = live s ∧
        currentIdle s0 = currentIdle s ∧ opts s0 = opts s.
Proof.
  unfold pickSingleConcrete. destruct (expelled s); [by left|].
  destruct (maxVirConnsPerConn (opts s) =? 0)%Z.
  - destruct (zlen (live s) <=? _)%Z; [|by left]. right.
    exists (s <| roundRobinIndex := zlen (live s) |>). by destruct (newConn _).
  - destruct (list_find _ _) as [[i c]|]; [by left|]. right. exists s. by destruct (newConn s).
Qed.

(** What reconnecting leaves of a connection. *)
Definition same_links (c c' : Connection) : Prop :=
  virConns c' = virConns c ∧ gone c' = gone c ∧ closed c' = closed c ∧ isIdle c' = isIdle c ∧
  destroying c' = destroying c.

Lemma backoff_links c now : same_links c (doReconnectBackoff c now).2.
Proof. unfold doReconnectBackoff. by destruct (maxReconnectCount <? _)%Z. Qed.

Lemma reconnect_links c now dials ok c' :
  reconnect c now dials = Some (ok, c') → same_links c c'.
Proof.
  revert c now. induction dials as [|[ok' d] dials IH]; intros c now; simpl; [done|].
  destruct ok'; [by intros [= <- <-]|].
  pose proof (backoff_links c (now + d)) as (E1 & E2 & E3 & E4 & E5).
  destruct (doReconnectBackoff c (now + d)) as [[go sl] c1]. simpl in *.
  destruct go; [|by intros [= <- <-]]. intros (F1 & F2 & F3 & F4 & F5)%IH.
  split_and!; congruence.
Qed.

(** Closing a connection: it keeps nothing registered, and everything that was registered is
    cancelled. *)
Definition closed_by (s : Connections) (c : nat) (e : error) (conn : Connection) (s' : Connections)
    : Prop :=
  ∃ conn', all s' = <[c := conn']> (all s) ∧ virConns conn' = ∅ ∧
    vcs s' = cancel_all (Some e) conn (vcs s) ∧ live s' = live s ∧ opts s' = opts s ∧
    gone conn' = gone conn ∧
    ((closed conn' = true ∧ destroying conn' = true ∧ isIdle conn' = isIdle conn ∧
      currentIdle s' = currentIdle s) ∨
     (closed conn' = false ∧ destroying conn' = destroying conn ∧ isIdle conn' = true ∧
      ((0 < maxIdle s)%Z →
       currentIdle s' = (currentIdle s + if isIdle conn then 0 else 1)%Z))).

Lemma closed_for_good s c e conn conn1 :
  all s !! c = Some conn → virConns conn1 = ∅ → gone conn1 = gone conn → closed conn1 = true →
  isIdle conn1 = isIdle conn →
  closed_by s c e conn (set_conn (s <| vcs := cancel_all (Some e) conn (vcs s) |>) c
                          (λ _, conn1 <| destroying := true |>)).
Proof.
  intros Hc H1 H2 H3 H4. exists (conn1 <| destroying := true |>). simpl.
  rewrite (alter_insert _ _ _ _ Hc). split_and!; try done. by left.
Qed.

Lemma reconnected s c e conn conn1 :
  all s !! c = Some conn → virConns conn1 = ∅ → gone conn1 = gone conn →
  isIdle conn1 = isIdle conn → destroying conn1 = destroying conn →
  let s1 := s <| vcs := cancel_all (Some e) conn (vcs s) |> in
  closed_by s c e conn (set_conn (if isIdle conn1 then s1 else addIdle s1) c
    (λ _, conn1 <| isIdle := true |> <| cerr := None |> <| closed := false |>)).
Proof.
  intros Hc H1 H2 H3 H4. exists (conn1 <| isIdle := true |> <| cerr := None |> <| closed := false |>).
  rewrite H3. unfold addIdle, set_conn. simpl. change (maxIdle (s <| vcs := _ |>)) with (maxIdle s).
  destruct (isIdle conn), (0 <? maxIdle s)%Z eqn:E; simpl; rewrite (alter_insert _ _ _ _ Hc);
    bool_to_prop; split_and!; try done; right; split_and!; try done; lia.
Qed.

Lemma doClose_spec s c e r now dials s' :
  doClose s c e r now dials = Some s' →
  s' = s ∨ ∃ conn, all s !! c = Some conn ∧ closed conn = false ∧ closed_by s c e conn s'.
Proof.
  unfold doClose. destruct (all s !! c) as [conn|] eqn:Ec; [|intros [= <-]; by left].
  destruct (closed conn) eqn:Ecl; [intros [= <-]; by left|]. intros H. right. exists conn.
  split_and!; [done..|].
  set (conn0 := conn <| closed := true |> <| cerr := Some e |> <| virConns := ∅ |>) in *.
  destruct r; [|injection H as <-; by apply closed_for_good].
  pose proof (backoff_links conn0 now) as (B1 & B2 & B3 & B4 & B5).
  destruct (doReconnectBackoff conn0 now) as [[go sl] conn1]. simpl in B1, B2, B3, B4, B5.
  destruct go; [|injection H as <-; by apply closed_for_good].
  destruct (reconnect conn1 (now + sl) dials) as [[ok conn2]|] eqn:Er; [|done]. simpl in H.
  apply reconnect_links in Er as (R1 & R2 & R3 & R4 & R5).
  destruct ok; injection H as <-; [apply reconnected|apply closed_for_good]; congruence || done.
Qed.

Definition b2z (b : bool) : Z := if b then 1 else 0.

Lemma not_idle_eta c : isIdle c = false → c <| isIdle := false |> = c.
Proof. destruct c. simpl. by intros ->. Qed.

Lemma newVirConn_spec s c v conn :
  all s !! c = Some conn →
  let s' := newVirConn s c v in
  ∃ l' vc' conn',
    vcs s' = l' ++ [vc'] ∧ Forall2 only_cancelled (vcs s) l' ∧
    vconn vc' = c ∧ id vc' = v ∧ inbox vc' = [] ∧ vclosed vc' = false ∧
    (closed conn = true → ctx_done vc' = true) ∧
    all s' = <[c := conn']> (all s) ∧ virConns conn' = <[v := length (vcs s)]> (virConns conn) ∧
    isIdle conn' = false ∧ closed conn' = closed conn ∧ gone conn' = gone conn ∧
    destroying conn' = destroying conn ∧ live s' = live s ∧ opts s' = opts s ∧
    ((0 < maxIdle s)%Z → currentIdle s' = (currentIdle s - b2z (isIdle conn))%Z).
Proof.
  intros Hc. unfold newVirConn. rewrite Hc.
  set (vc := MkVC v c [] [] false false None).
  set (vc' := if closed conn then cancel (cerr conn) vc else vc).
  set (s1 := match virConns conn !! v with Some prevConn => _ | None => s end).
  assert (Forall2 only_cancelled (vcs s) (vcs s1)) as Hs1.
  { unfold s1. destruct (virConns conn !! v); [|done]. simpl.
    apply alter_spec; [done|apply cancel_cancelled]. }
  assert (all s1 = all s ∧ live s1 = live s ∧ opts s1 = opts s ∧ currentIdle s1 = currentIdle s)
    as (Ha & Hl & Ho & Hi) by (unfold s1; by destruct (virConns conn !! v)).
  set (conn1 := conn <| virConns := <[v := length (vcs s)]> (virConns conn) |>).
  exists (vcs s1), vc', (conn1 <| isIdle := false |>).
  assert (vconn vc' = c ∧ id vc' = v ∧ inbox vc' = [] ∧ vclosed vc' = false ∧
          (closed conn = true → ctx_done vc' = true)) as (?&?&?&?&?).
  { unfold vc'. by destruct (closed conn). }
  assert (alter (λ conn, conn <| virConns := <[v:=length (vcs s)]> (virConns conn) |>) c (all s1)
          = <[c := conn1]> (all s)) as E.
  { rewrite Ha. by rewrite (alter_insert _ _ _ _ Hc). }
  assert (alter (λ conn, conn <| isIdle := false |>) c (<[c := conn1]> (all s)) =
          <[c := conn1 <| isIdle := false |>]> (all s)) as E2.
  { erewrite alter_insert; [by rewrite list_insert_insert_eq|].
    apply list_lookup_insert_eq. by eapply lookup_lt_Some. }
  destruct (isIdle conn) eqn:Ei.
  - unfold subIdle, set_conn. simpl. rewrite E, E2.
    match goal with |- context [(0 <? maxIdle ?x)%Z] =>
      replace (maxIdle x) with (maxIdle s) by (unfold maxIdle; simpl; by rewrite Ho) end.
    destruct (0 <? maxIdle s)%Z eqn:Em; simpl; bool_to_prop; split_and!; try done; simpl; lia.
  - unfold set_conn. simpl. rewrite E. split_and!; try done.
    + by rewrite not_idle_eta.
    + intros _. rewrite Hi. simpl. lia.
Qed.

(** What [idleRemove] may do to a connection that nobody uses. *)
Definition idled (m : Z) (conn conn' : Connection) (idle idle' : Z) : Prop :=
  virConns conn' = virConns conn ∧ gone conn' = gone conn ∧
  ((isIdle conn' = isIdle conn ∧ closed conn' = closed conn ∧ destroying conn' = destroying conn ∧
    idle' = idle) ∨
   (virConns conn = ∅ ∧ closed conn = false ∧ isIdle conn' = true ∧
    (0 < m → idle' = idle + 1 - b2z (isIdle conn))%Z ∧
    ((closed conn' = false ∧ destroying conn' = destroying conn) ∨
     (closed conn' = true ∧ destroying conn' = true)))).

Lemma idleRemove_spec s c conn :
  all s !! c = Some conn →
  let s' := idleRemove s c in
  vcs s' = vcs s ∧ live s' = live s ∧ opts s' = opts s ∧
  ∃ conn', all s' = <[c := conn']> (all s) ∧ idled (maxIdle s) conn conn' (currentIdle s) (currentIdle s').
Proof.
  intros Hc. unfold idleRemove. rewrite Hc.
  assert (∀ s', s' = s → vcs s' = vcs s ∧ live s' = live s ∧ opts s' = opts s ∧
    ∃ conn', all s' = <[c := conn']> (all s) ∧ idled (maxIdle s) conn conn' (currentIdle s) (currentIdle s')) as Hsame.
  { intros s' ->. split_and!; [done..|]. exists conn. rewrite list_insert_id by done.
    split; [done|]. split_and!; [done..|]. by left. }
  destruct (size (virConns conn) =? 0) eqn:Es; [|by apply Hsame].
  destruct (closed conn) eqn:Ecl; [by apply Hsame|]. simpl. bool_to_prop.
  apply map_size_empty_inv in Es.
  set (s1 := if isIdle conn then s else addIdle (set_conn s c (λ conn, conn <| isIdle := true |>))).
  set (conn1 := conn <| isIdle := true |>).
  assert (vcs s1 = vcs s ∧ live s1 = live s ∧ opts s1 = opts s ∧ all s1 = <[c := conn1]> (all s) ∧
          (0 < maxIdle s → currentIdle s1 = currentIdle s + 1 - b2z (isIdle conn))%Z) as (E1 & E2 & E3 & E4 & E5).
  { unfold s1, conn1. destruct (isIdle conn) eqn:Ei.
    - split_and!; [done..| |simpl; lia]. rewrite list_insert_id; [done|].
      rewrite Hc. f_equal. destruct conn. simpl in Ei. by subst.
    - unfold addIdle, set_conn. simpl. change (maxIdle (s <| all := _ |>)) with (maxIdle s).
      destruct (0 <? maxIdle s)%Z eqn:Em; simpl; rewrite (alter_insert _ _ _ _ Hc); bool_to_prop;
        split_and!; try done; lia. }
  destruct (maxIdle s1 <? currentIdle s1)%Z.
  - unfold set_conn. simpl. split_and!; [done..|].
    exists (conn1 <| closed := true |> <| destroying := true |>). rewrite E4.
    erewrite alter_insert; [|apply list_lookup_insert_eq; by eapply lookup_lt_Some].
    rewrite list_insert_insert_eq. split; [done|]. split_and!; [done..|]. right. split_and!; try done.
    by right.
  - split_and!; [done..|]. exists conn1. split; [done|]. split_and!; [done..|]. right.
    split_and!; try done. by left.
Qed.

(** [Close] of a virtual connection that is not closed: its id is unregistered, whoever has it. *)
Lemma Close_spec s a vc :
  vcs s !! a = Some vc → vclosed vc = false →
  let s' := Close s a in
  vcs s' = alter (λ v, v <| vclosed := true |>) a (vcs s) ∧ live s' = live s ∧ opts s' = opts s ∧
  match all s !! vconn vc with
  | None => all s' = all s ∧ currentIdle s' = currentIdle s
  | Some conn => ∃ conn', all s' = <[vconn vc := conn']> (all s) ∧
      idled (maxIdle s) (conn <| virConns := delete (id vc) (virConns conn) |>) conn' (currentIdle s) (currentIdle s')
  end.
Proof.
  intros Ha Hcl. unfold Close. rewrite Ha, Hcl. unfold doRemove.
  set (s0 := set_conn (set_vc s a (λ v, v <| vclosed := true |>)) (vconn vc)
               (λ conn, conn <| virConns := delete (id vc) (virConns conn) |>)).
  destruct (all s !! vconn vc) as [conn|] eqn:Ec.
  - set (conn1 := conn <| virConns := delete (id vc) (virConns conn) |>).
    assert (all s0 = <[vconn vc := conn1]> (all s)) as E.
    { unfold s0. simpl. by rewrite (alter_insert _ _ _ _ Ec). }
    assert (all s0 !! vconn vc = Some conn1) as Ec1.
    { rewrite E. apply list_lookup_insert_eq. by eapply lookup_lt_Some. }
    rewrite Ec1. destruct (enableIdleRemove conn1).
    + destruct (idleRemove_spec s0 (vconn vc) conn1 Ec1) as (-> & -> & -> & conn' & -> & Hi).
      split_and!; [done..|]. exists conn'. split; [|done]. by rewrite E, list_insert_insert_eq.
    + split_and!; [done..|]. exists conn1. split; [done|]. split_and!; [done..|]. by left.
  - assert (all s0 = all s) as E.
    { unfold s0. simpl. apply list_eq. intros i. destruct (decide (vconn vc = i)) as [<-|Hne].
      - by rewrite list_lookup_alter_eq, Ec.
      - by rewrite list_lookup_alter_ne. }
    rewrite E, Ec. by split_and!.
Qed.

Lemma expel_spec s c :
  expel s c = s ∨
  ∃ conn, all s !! c = Some conn ∧ destroying conn = true ∧
    all (expel s c) = <[c := conn <| destroying := false |> <| gone := true |>]> (all s) ∧
    vcs (expel s c) = vcs s ∧ live (expel s c) = filter (λ x, x ≠ c) (live s) ∧
    opts (expel s c) = opts s ∧
    ((0 < maxIdle s)%Z → currentIdle (expel s c) = (currentIdle s - 1)%Z).
Proof.
  unfold expel. destruct (all s !! c) as [conn|] eqn:Ec; [|by left].
  destruct (destroying conn) eqn:Ed; [|by left]. right. exists conn. split_and!; [done..| | | | |];
    unfold subIdle; destruct (0 <? maxIdle s)%Z eqn:Em; simpl;
    match goal with |- context [if ?b then _ else _] => destruct b end; simpl; try done;
    bool_to_prop; try (intros; lia); by rewrite (alter_insert _ _ _ _ Ec).
Qed.

(** ** Waiting requests are woken *)

(** What happens to a virtual connection: it stays the same object, and it is not revived. *)
Definition ages (v v' : VirtualConnection) : Prop :=
  vconn v' = vconn v ∧ id v' = id v ∧
  (vclosed v = true → vclosed v' = true) ∧ (ctx_done v = true → ctx_done v' = true).

Lemma cancelled_ages l l' : Forall2 only_cancelled l l' → Forall2 ages l l'.
Proof. intros H. eapply Forall2_impl; [done|]. intros x y (?&?&?&?&?). split_and!; auto; congruence. Qed.

Lemma ages_refl l : Forall2 ages l l.
Proof. induction l; constructor; by try split_and!. Qed.

(** The virtual connections after an event: the old ones, and a new one. *)
Lemma step_vcs s e :
  ∃ l' new, vcs (step s e) = l' ++ new ∧ Forall2 ages (vcs s) l' ∧
    match e with
    | NewVirConn c v => match all s !! c with
        | Some conn => ∃ vc, new = [vc] ∧ vconn vc = c ∧ id vc = v ∧ inbox vc = [] ∧
                             vclosed vc = false ∧ (closed conn = true → ctx_done vc = true)
        | None => new = []
        end
    | _ => new = []
    end.
Proof.
  assert (∀ l', vcs (step s e) = l' → Forall2 ages (vcs s) l' →
    match e with NewVirConn c v => all s !! c = None | _ => True end →
    ∃ l' new, vcs (step s e) = l' ++ new ∧ Forall2 ages (vcs s) l' ∧
    match e with
    | NewVirConn c v => match all s !! c with
        | Some conn => ∃ vc, new = [vc] ∧ vconn vc = c ∧ id vc = v ∧ inbox vc = [] ∧
                             vclosed vc = false ∧ (closed conn = true → ctx_done vc = true)
        | None => new = []
        end
    | _ => new = []
    end) as Hold.
  { intros l' Hl Ha He. exists l', []. rewrite app_nil_r. split_and!; [done..|].
    destruct e; try done. by rewrite He. }
  assert (∀ f a, (∀ x, ages x (f x)) → Forall2 ages (vcs s) (alter f a (vcs s))) as Halter.
  { intros f a Hf. apply alter_spec; [|done]. by intros x; split_and!. }
  destruct e as [|c v|a|a|a|c v buf|c e r now dials|c]; simpl.
  - eapply Hold; [done| |done]. simpl. destruct (pick_spec s) as [(_ & -> & _)|(s0 & -> & _ & E & _)].
    + apply ages_refl.
    + destruct (newConn_spec s0) as (_ & -> & _). rewrite E. apply ages_refl.
  - destruct (all s !! c) as [conn|] eqn:Ec.
    + destruct (newVirConn_spec s c v conn Ec) as (l' & vc' & conn' & E & Hl & ? & ? & ? & ? & ? & _).
      exists l', [vc']. split_and!; [done|by apply cancelled_ages|]. by exists vc'.
    + exists (vcs s), []. unfold newVirConn. rewrite Ec, app_nil_r. split_and!; [done|apply ages_refl|done].
  - eapply Hold; [done| |done]. simpl. apply Halter. by intros x; split_and!.
  - eapply Hold; [done| |done]. simpl. apply Halter. intros x. by destruct (recvQueue x).
  - eapply Hold; [done| |done]. simpl. destruct (vcs s !! a) as [vc|] eqn:Ea.
    + destruct (vclosed vc) eqn:Ecl; [unfold Close; rewrite Ea, Ecl; apply ages_refl|].
      destruct (Close_spec s a vc Ea Ecl) as (-> & _). apply Halter. by intros x; split_and!.
    + unfold Close. rewrite Ea. apply ages_refl.
  - eapply Hold; [done| |done]. simpl. unfold deliver. destruct (all s !! c) as [conn|]; [|apply ages_refl].
    destruct (virConns conn !! v); [|apply ages_refl]. apply Halter. by intros x; split_and!.
  - eapply Hold; [done| |done]. simpl. destruct (doClose s c e r now dials) as [s'|] eqn:E; [|apply ages_refl].
    simpl. apply doClose_spec in E as [-> |(conn & _ & _ & conn' & _ & _ & -> & _)]; [apply ages_refl|].
    apply cancelled_ages, cancel_all_cancelled.
  - eapply Hold; [done| |done]. simpl. destruct (expel_spec s c) as [-> |(conn & _ & _ & _ & -> & _)];
      apply ages_refl.
Qed.

(** The connections after an event. *)
Lemma step_conns s e :
  match e with
  | Pick => all (step s e) = all s ∨ all (step s e) = all s ++ [freshConn (opts s)]
  | NewVirConn c v =>
    match all s !! c with
    | None => all (step s e) = all s
    | Some conn => ∃ conn', all (step s e) = <[c := conn']> (all s) ∧
        virConns conn' = <[v := length (vcs s)]> (virConns conn) ∧ closed conn' = closed conn
    end
  | CloseVC a =>
    all (step s e) = all s ∨
    ∃ vc conn conn' i i', vcs s !! a = Some vc ∧ vclosed vc = false ∧ all s !! vconn vc = Some conn ∧
      all (step s e) = <[vconn vc := conn']> (all s) ∧
      idled (maxIdle s) (conn <| virConns := delete (id vc) (virConns conn) |>) conn' i i'
  | CloseConn c err _ _ _ =>
    step s e = s ∨
    ∃ conn conn', all s !! c = Some conn ∧ all (step s e) = <[c := conn']> (all s) ∧
      virConns conn' = ∅ ∧ vcs (step s e) = cancel_all (Some err) conn (vcs s)
  | Destroy c =>
    all (step s e) = all s ∨
    ∃ conn conn', all s !! c = Some conn ∧ all (step s e) = <[c := conn']> (all s) ∧
      virConns conn' = virConns conn ∧ closed conn' = closed conn
  | _ => all (step s e) = all s
  end.
Proof.
  destruct e as [|c v|a|a|a|c v buf|c e r now dials|c]; simpl; try done.
  - destruct (pick_spec s) as [(-> & _)|(s0 & -> & E & _ & _ & _ & Eo)]; [by left|right].
    destruct (newConn_spec s0) as (-> & _). by rewrite E, Eo.
  - destruct (all s !! c) as [conn|] eqn:Ec; [|unfold newVirConn; by rewrite Ec].
    destruct (newVirConn_spec s c v conn Ec) as (l' & vc' & conn' & ?&?&?&?&?&?&?&?&?&?&?&_).
    by exists conn'.
  - destruct (vcs s !! a) as [vc|] eqn:Ea; [|left; unfold Close; by rewrite Ea].
    destruct (vclosed vc) eqn:Ecl; [left; unfold Close; by rewrite Ea, Ecl|].
    destruct (Close_spec s a vc Ea Ecl) as (_ & _ & _ & H).
    destruct (all s !! vconn vc) as [conn|] eqn:Ec; [right|by left; destruct H].
    destruct H as (conn' & ? & ?). by exists vc, conn, conn', (currentIdle s), (currentIdle (Close s a)).
  - unfold deliver. destruct (all s !! c) as [conn|]; [|done]. by destruct (virConns conn !! v).
  - destruct (doClose s c e r now dials) as [s'|] eqn:E; [|by left]. simpl.
    apply doClose_spec in E as [-> |(conn & ? & ? & conn' & ? & ? & ? & _)]; [by left|right].
    by exists conn, conn'.
  - destruct (expel_spec s c) as [-> |(conn & ? & ? & ? & _)]; [by left|right].
    eexists conn, _. by split_and!.
Qed.

(** What is registered leads to a virtual connection of that connection and id. *)
Definition linked (s : Connections) : Prop :=
  ∀ c v a, reg s c v = Some a → keys s !! a = Some (c, v).

(** A virtual connection that waits: not closed by its user and its context not done. *)
Definition waiting (v : VirtualConnection) : Prop := ctx_done v = false ∧ vclosed v = false.

Definition registered (s : Connections) (a : nat) (vc : VirtualConnection) : Prop :=
  ∃ conn, all s !! vconn vc = Some conn ∧ closed conn = false ∧ virConns conn !! id vc = Some a.

Definition awake (s : Connections) : Prop :=
  ∀ a vc, vcs s !! a = Some vc → waiting vc → registered s a vc.

Lemma ages_keys l l' :
  Forall2 ages l l' → (λ v, (vconn v, id v)) <$> l' = (λ v, (vconn v, id v)) <$> l.
Proof. induction 1 as [|v v' l l' (E1 & E2 & _) _ IH]; [done|]. by rewrite !fmap_cons, E1, E2, IH. Qed.

Lemma step_keys s e :
  keys (step s e) = keys s ++
    match e with NewVirConn c v => if decide (is_Some (all s !! c)) then [(c, v)] else [] | _ => [] end.
Proof.
  destruct (step_vcs s e) as (l' & new & E & Hl & Hnew). unfold keys. rewrite E, fmap_app.
  rewrite (ages_keys _ _ Hl). f_equal. destruct e; try (by rewrite Hnew). 
  destruct (all s !! c) as [conn|] eqn:Ec; [|by subst].
  destruct Hnew as (vc & -> & <- & <- & _). done.
Qed.

Lemma keys_lookup s a vc : vcs s !! a = Some vc → keys s !! a = Some (vconn vc, id vc).
Proof. intros H. unfold keys. by rewrite list_lookup_fmap, H. Qed.

Lemma keys_inv s a c v :
  keys s !! a = Some (c, v) → ∃ vc, vcs s !! a = Some vc ∧ vconn vc = c ∧ id vc = v.
Proof. unfold keys. rewrite list_lookup_fmap. intros (vc & ? & [= -> ->])%fmap_Some. by exists vc. Qed.

Lemma reg_insert s l c conn conn' d v :
  all s !! c = Some conn → l = <[c := conn']> (all s) →
  (x ← l !! d; virConns x !! v) = if decide (d = c) then virConns conn' !! v else reg s d v.
Proof.
  intros Hc ->. case_decide as Hd; [subst d|].
  - by rewrite list_lookup_insert_eq by (by eapply lookup_lt_Some).
  - by rewrite list_lookup_insert_ne.
Qed.

(** Registrations are only removed, except for the new virtual connection. *)
Lemma step_reg s e c v :
  reg (step s e) c v = reg s c v ∨ reg (step s e) c v = None ∨
  (e = NewVirConn c v ∧ is_Some (all s !! c) ∧ reg (step s e) c v = Some (length (vcs s))).
Proof.
  pose proof (step_conns s e) as H. unfold reg.
  assert (all (step s e) = all s →
    (x ← all (step s e) !! c; virConns x !! v) = (x ← all s !! c; virConns x !! v)) as Hsame.
  { by intros ->. }
  destruct e as [|c' v'|a|a|a|c' v' buf|c' e r now dials|c']; try (by left; apply Hsame).
  - destruct H as [H|H]; [by left; apply Hsame|]. rewrite H.
    destruct (decide (c < length (all s))); [by left; rewrite lookup_app_l|].
    right. left. rewrite lookup_app_r by lia. by destruct (c - length (all s)) as [|[]].
  - destruct (all s !! c') as [conn|] eqn:Ec; [|by left; apply Hsame].
    destruct H as (conn' & E & Hv & _). rewrite (reg_insert s _ c' conn conn') by done.
    case_decide as Hd; [subst|by left]. rewrite Hv, Ec. simpl.
    destruct (decide (v = v')) as [->|Hne].
    + right. right. rewrite lookup_insert_eq. split_and!; [done|by eexists|done].
    + left. by rewrite lookup_insert_ne.
  - destruct H as [H|(vc & conn & conn' & i & i' & _ & _ & Hc & E & (Hv & _))]; [by left; apply Hsame|].
    rewrite (reg_insert s _ (vconn vc) conn conn') by done.
    case_decide as Hd; [subst|by left]. rewrite Hv, Hc. simpl.
    destruct (decide (v = id vc)) as [->|Hne]; [right; left; by rewrite lookup_delete_eq|left].
    by rewrite lookup_delete_ne.
  - destruct H as [-> |(conn & conn' & Hc & E & Hv & _)]; [by left|].
    rewrite (reg_insert s _ c' conn conn') by done.
    case_decide as Hd; [subst|by left]. right. left. by rewrite Hv, lookup_empty.
  - destruct H as [H|(conn & conn' & Hc & E & Hv & _)]; [by left; apply Hsame|].
    rewrite (reg_insert s _ c' conn conn') by done.
    case_decide as Hd; [subst|by left]. left. by rewrite Hv, Hc.
Qed.

Lemma linked_step s e : linked s → linked (step s e).
Proof.
  intros H c v a Hr. rewrite step_keys.
  destruct (step_reg s e c v) as [E|[E|(-> & Hc & E)]]; rewrite E in Hr; [|done|].
  - by apply lookup_app_l_Some, H.
  - injection Hr as <-. rewrite decide_True by done. unfold keys.
    rewrite lookup_app_r by (by rewrite length_fmap). by rewrite length_fmap, Nat.sub_diag.
Qed.

Lemma ages_lookup l l' a vc' :
  Forall2 ages l l' → l' !! a = Some vc' → waiting vc' →
  ∃ vc, l !! a = Some vc ∧ waiting vc ∧ vconn vc = vconn vc' ∧ id vc = id vc'.
Proof.
  intros Hl Ha [Hc Hd]. destruct (Forall2_lookup_r _ _ _ _ _ Hl Ha) as (vc & Hvc & (? & ? & Hcl & Hct)).
  exists vc. split_and!; [done| |done|done]. split.
  - destruct (ctx_done vc) eqn:E; [|done]. rewrite Hct in Hc by done. done.
  - destruct (vclosed vc) eqn:E; [|done]. rewrite Hcl in Hd by done. done.
Qed.

Lemma registered_same s s' a vc : all s' = all s → registered s a vc → registered s' a vc.
Proof. intros E (conn & ?). exists conn. by rewrite E. Qed.

(** A change of one connection: it matters if it is the connection of the registration. *)
Lemma registered_insert s s' a vc d conn0 conn' :
  all s !! d = Some conn0 → all s' = <[d := conn']> (all s) → registered s a vc →
  (d = vconn vc → closed conn0 = false → virConns conn0 !! id vc = Some a →
   closed conn' = false ∧ virConns conn' !! id vc = Some a) →
  registered s' a vc.
Proof.
  intros Hd Es (conn & Hc & Hcl & Hreg) Hok. destruct (decide (d = vconn vc)) as [->|Hne].
  - simplify_eq. destruct Hok; [done..|]. exists conn'. rewrite Es.
    split_and!; [|done|done]. apply list_lookup_insert_eq. by eapply lookup_lt_Some.
  - exists conn. by rewrite Es, list_lookup_insert_ne.
Qed.

(** Closing another virtual connection takes no registration away if ids are distinct. *)
Lemma registered_close s a b vc vb conn0 conn' i i' :
  NoDup (keys s) → vcs s !! a = Some vc → vcs s !! b = Some vb → a ≠ b → registered s a vc →
  all s !! vconn vb = Some conn0 → all (Close s b) = <[vconn vb := conn']> (all s) →
  idled (maxIdle s) (conn0 <| virConns := delete (id vb) (virConns conn0) |>) conn' i i' →
  registered (Close s b) a vc.
Proof.
  intros Hnd Ha Hb Hab Hr Hc Es (Hv & _ & Hcase). simpl in *.
  eapply registered_insert; [done..|]. intros Hd Hcl Hreg.
  assert (id vb ≠ id vc) as Hne.
  { intros Heq. apply Hab. eapply NoDup_lookup; [exact Hnd|by apply keys_lookup|].
    rewrite (keys_lookup _ _ _ Hb). congruence. }
  assert (virConns conn' !! id vc = Some a) as Hreg'.
  { by rewrite Hv, lookup_delete_ne. }
  split; [|done]. destruct Hcase as [(_ & -> & _)|(Hemp & _)]; [done|].
  by rewrite Hv, Hemp, lookup_empty in Hreg'.
Qed.

(** Waiting virtual connections that existed before stay registered. *)
Lemma registered_step s e a vc l' new vc' :
  NoDup (keys (step s e)) → vcs s !! a = Some vc → registered s a vc →
  vcs (step s e) = l' ++ new → l' !! a = Some vc' → waiting vc' →
  registered (step s e) a vc.
Proof.
  intros Hnd Hvc Hr E Ha Hw. pose proof (step_conns s e) as Hconns. rewrite step_keys in Hnd.
  assert (vcs (step s e) !! a = Some vc') as Ha' by (rewrite E; by apply lookup_app_l_Some).
  destruct e as [|c v|b|b|b|c v buf|c e r now dials|c]; try (by eapply registered_same).
  - destruct Hconns as [Es|Es]; [by eapply registered_same|]. destruct Hr as (conn & ? & ?).
    exists conn. split; [|done]. rewrite Es. by apply lookup_app_l_Some.
  - destruct (all s !! c) as [conn0|] eqn:Ec; [|by eapply registered_same].
    destruct Hconns as (conn' & Es & Hv & Hcl'). eapply registered_insert; [done..|].
    intros -> Hcl Hreg. split; [congruence|]. rewrite Hv, lookup_insert_ne; [done|]. intros ->.
    rewrite decide_True in Hnd by (by eexists). apply NoDup_app in Hnd as (_ & Hnd & _).
    apply (Hnd (vconn vc, id vc)); [|set_solver]. eapply list_elem_of_lookup_2, keys_lookup, Hvc.
  - destruct Hconns as [Es|(vb & conn0 & conn' & i & i' & Hb & Hbc & Ec & Es & Hidl)];
      [by eapply registered_same|]. rewrite app_nil_r in Hnd.
    eapply registered_close; try done. intros ->. simpl in Ha'.
    destruct (Close_spec s b vb Hb Hbc) as (Ev & _). rewrite Ev, list_lookup_alter_eq, Hb in Ha'.
    simplify_eq/=. by destruct Hw.
  - destruct Hconns as [Es|(conn0 & conn' & Ec & Es & Hv & Hvcs)]; [by rewrite Es|].
    eapply registered_insert; [done..|]. intros -> _ Hreg. exfalso. rewrite Hvcs in Ha'.
    destruct Hw as [Hw _]. by rewrite (cancel_all_done _ _ _ _ _ _ Hreg Ha') in Hw.
  - destruct Hconns as [Es|(conn0 & conn' & Ec & Es & Hv & Hcl')]; [by eapply registered_same|].
    eapply registered_insert; [done..|]. intros _ ? ?. split; congruence.
Qed.

(** An event keeps the waiting virtual connections registered on open connections. *)
Lemma awake_step s e : awake s → NoDup (keys (step s e)) → awake (step s e).
Proof.
  intros Haw Hnd a vc' Ha Hw. pose proof (step_conns s e) as Hconns.
  destruct (step_vcs s e) as (l' & new & E & Hl & Hnew). rewrite E in Ha.
  apply lookup_app_Some in Ha as [Ha|[Hle Ha]].
  - destruct (ages_lookup _ _ _ _ Hl Ha Hw) as (vc & Hvc & Hw0 & Hcv & Hid).
    pose proof (registered_step s e a vc l' new vc' Hnd Hvc (Haw a vc Hvc Hw0) E Ha Hw) as H.
    unfold registered in *. by rewrite Hcv, Hid in H.
  - destruct e as [|c v|b|b|b|c v buf|c e r now dials|c]; try (by rewrite Hnew in Ha).
    destruct (all s !! c) as [conn|] eqn:Ec; [|by rewrite Hnew in Ha].
    destruct Hnew as (vc & -> & Hvc & Hvid & _ & _ & Hclo).
    apply list_lookup_singleton_Some in Ha as [Hlen <-].
    destruct Hconns as (conn' & Es & Hv & Hcl'). exists conn'.
    rewrite Es, Hvc. split; [apply list_lookup_insert_eq; by eapply lookup_lt_Some|].
    split.
    + rewrite Hcl'. destruct (closed conn) eqn:Ecl; [|done]. destruct Hw as [Hw _].
      by rewrite Hclo in Hw.
    + rewrite Hv, Hvid, lookup_insert_eq. f_equal. apply Forall2_length in Hl. lia.
Qed.

(** ** Packets *)

(** The packets that arrive on a connection for an id. *)
Definition frames (c : nat) (v : Z) (es : list event) : list bytes :=
  omap (λ e, match e with
             | Frame c' v' buf => if decide (c' = c ∧ v' = v) then Some buf else None
             | _ => None
             end) es.

Definition arrives (s : Connections) (a : nat) (e : event) : list bytes :=
  match e with
  | Frame c v buf => if decide (reg s c v = Some a) then [buf] else []
  | _ => []
  end.

Lemma inbox_lookup l l' a vc :
  Forall2 only_cancelled l l' → l !! a = Some vc → ∃ vc', l' !! a = Some vc' ∧ inbox vc' = inbox vc.
Proof.
  intros Hl Ha. destruct (Forall2_lookup_l _ _ _ _ _ Hl Ha) as (vc' & ? & (_ & _ & ? & _)). eauto.
Qed.

Lemma alter_inbox (f : VirtualConnection → VirtualConnection) (l : list VirtualConnection) (a b : nat) vc :
  (∀ x, inbox (f x) = inbox x) → l !! a = Some vc →
  ∃ vc', alter f b l !! a = Some vc' ∧ inbox vc' = inbox vc.
Proof.
  intros Hf Ha. destruct (decide (b = a)) as [->|Hne].
  - rewrite list_lookup_alter_eq, Ha. eexists. split; [done|apply Hf].
  - rewrite list_lookup_alter_ne by done. eauto.
Qed.

(** An event brings a packet exactly to the virtual connection registered for it. *)
Lemma step_inbox s e a vc :
  vcs s !! a = Some vc →
  ∃ vc', vcs (step s e) !! a = Some vc' ∧ inbox vc' = inbox vc ++ arrives s a e.
Proof.
  intros Ha. assert (vcs (step s e) = vcs s →
    ∃ vc', vcs (step s e) !! a = Some vc' ∧ inbox vc' = inbox vc) as Hsame by (intros ->; eauto).
  destruct e as [|c v|b|b|b|c v buf|c e r now dials|c]; simpl in *; rewrite ?app_nil_r.
  - apply Hsame. destruct (pick_spec s) as [(_ & -> & _)|(s0 & -> & _ & E & _)]; [done|].
    destruct (newConn_spec s0) as (_ & -> & _). done.
  - destruct (all s !! c) as [conn|] eqn:Ec; [|apply Hsame; unfold newVirConn; by rewrite Ec].
    destruct (newVirConn_spec s c v conn Ec) as (l' & vc' & conn' & -> & Hl & _).
    destruct (inbox_lookup _ _ _ _ Hl Ha) as (vc1 & ? & ?). exists vc1.
    split; [by apply lookup_app_l_Some|done].
  - by apply alter_inbox.
  - apply alter_inbox; [|done]. intros x. unfold inbox.
    destruct (recvQueue x) as [|buf q] eqn:Eq; [by rewrite Eq|]. simpl. by rewrite <- app_assoc.
  - destruct (vcs s !! b) as [vb|] eqn:Eb; [|apply Hsame; unfold Close; by rewrite Eb].
    destruct (vclosed vb) eqn:Ecl; [apply Hsame; unfold Close; by rewrite Eb, Ecl|].
    destruct (Close_spec s b vb Eb Ecl) as (-> & _). by apply alter_inbox.
  - unfold reg, deliver in *. destruct (all s !! c) as [conn|]; simpl; [|rewrite app_nil_r; by apply Hsame].
    destruct (virConns conn !! v) as [b|]; [|rewrite app_nil_r; by apply Hsame]. simpl.
    destruct (decide (Some b = Some a)) as [[= ->]|Hne].
    + rewrite list_lookup_alter_eq, Ha. eexists. split; [done|]. unfold inbox. simpl. by rewrite app_assoc.
    + rewrite list_lookup_alter_ne by congruence. exists vc. by rewrite app_nil_r.
  - destruct (doClose s c e r now dials) as [s'|] eqn:E; [|by apply Hsame]. simpl.
    apply doClose_spec in E as [-> |(conn & _ & _ & conn' & _ & _ & -> & _)]; [eauto|].
    eapply inbox_lookup; [apply cancel_all_cancelled|done].
  - apply Hsame. destruct (expel_spec s c) as [-> |(conn & _ & _ & _ & -> & _)]; done.
Qed.

Lemma linked_run s es : linked s → linked (run s es).
Proof. revert s. induction es as [|e es IH]; intros s H; [done|]. apply IH, linked_step, H. Qed.

Lemma key_stable s e a k : keys s !! a = Some k → keys (step s e) !! a = Some k.
Proof. intros H. rewrite step_keys. by apply lookup_app_l_Some. Qed.

(** A registration that is gone does not come back. *)
Lemma unregistered_step s e a c v :
  a < length (vcs s) → reg s c v ≠ Some a → reg (step s e) c v ≠ Some a.
Proof.
  intros Ha Hr. destruct (step_reg s e c v) as [-> |[-> |(_ & _ & ->)]]; [done|done|].
  intros [= E]. lia.
Qed.

Lemma run_inbox s es a vc c v :
  linked s → vcs s !! a = Some vc → keys s !! a = Some (c, v) →
  ∃ vc' got, vcs (run s es) !! a = Some vc' ∧ inbox vc' = inbox vc ++ got ∧
    got `prefix_of` frames c v es ∧ (reg (run s es) c v = Some a → got = frames c v es) ∧
    (reg s c v ≠ Some a → got = [] ∧ reg (run s es) c v ≠ Some a).
Proof.
  revert s vc. induction es as [|e es IH]; intros s vc Hlink Ha Hk.
  { exists vc, []. rewrite app_nil_r. by split_and!. }
  destruct (step_inbox s e a vc Ha) as (vc1 & Ha1 & Hin).
  destruct (IH (step s e) vc1) as (vc' & got & Hv & Hi & Hpre & Hreg & Hun);
    [by apply linked_step|done|by apply key_stable|].
  exists vc', (arrives s a e ++ got).
  assert (a < length (vcs s)) as Hlt by (by eapply lookup_lt_Some).
  assert (reg s c v ≠ Some a → arrives s a e = []) as Harr.
  { intros Hne. unfold arrives. destruct e; try done. case_decide as Hd; [|done].
    pose proof (Hlink _ _ _ Hd) as Hd'. rewrite Hk in Hd'. by simplify_eq. }
  split; [done|]. split; [by rewrite Hi, Hin, app_assoc|].
  destruct (decide (reg s c v = Some a)) as [Hr|Hr].
  - assert (frames c v (e :: es) = arrives s a e ++ frames c v es) as ->.
    { destruct e as [| | | | |c' v' buf| |]; try done. simpl.
      destruct (decide (c' = c ∧ v' = v)) as [[-> ->]|Hne]; [by rewrite decide_True|].
      rewrite decide_False; [done|]. intros Hd%Hlink. rewrite Hk in Hd. simplify_eq. by apply Hne. }
    split_and!; [by apply prefix_app|intros H; by rewrite (Hreg H)|done].
  - rewrite (Harr Hr). destruct (Hun (unregistered_step _ _ _ _ _ Hlt Hr)) as [-> Hno].
    split_and!; [apply prefix_nil|done|by split].
Qed.

Lemma key_run s es a k : keys s !! a = Some k → keys (run s es) !! a = Some k.
Proof. revert s. induction es as [|e es IH]; intros s H; [done|]. by apply IH, key_stable. Qed.

(** The connections of a new pool. *)
Lemma new_spec o :
  let s := newConcreteConnections o in
  opts s = o ∧ vcs s = [] ∧ all s = replicate (Z.to_nat (connectNumberPerHost o)) (freshConn o) ∧
  ((0 < maxIdleConnsPerHost o)%Z → currentIdle s = Z.of_nat (length (all s))).
Proof.
  unfold newConcreteConnections. induction (Z.to_nat _) as [|n IH]; [done|].
  set (s0 := Nat.iter n (λ s, fst (newConn s)) (MkConnections o [] 0 0 false [] [])) in *.
  destruct IH as (Ho & Hv & Ha & Hi). change (Nat.iter (S n) _ _) with (fst (newConn s0)).
  destruct (newConn_spec s0) as (Ea & Ev & _ & Eo & Ei). split_and!.
  - by rewrite Eo.
  - by rewrite Ev.
  - rewrite Ea, Ho, Ha. by rewrite <- replicate_S_end.
  - intros Hm. rewrite Ea, length_app, Ei, Hi; [simpl length; lia|done|].
    unfold maxIdle. by rewrite Ho.
Qed.

Lemma new_linked o : linked (newConcreteConnections o).
Proof.
  intros c v a. unfold reg. destruct (new_spec o) as (_ & _ & -> & _).
  destruct (replicate _ _ !! c) as [conn|] eqn:E; [|done].
  by apply lookup_replicate in E as [-> _].
Qed.

(** C15. Responses never cross.  Whatever else happens on the connections, the packets that a
    virtual connection receives are packets that arrived on its concrete connection with its
    own id after it was created, in the order of their arrival and without a gap; as long as it
    is registered it has received all of them. *)
Theorem mux_isolation (o : PoolOptions) (es0 es : list event) (c : nat) (v : Z) :
  let s0 := run (newConcreteConnections o) es0 in
  is_Some (all s0 !! c) →
  let a := length (vcs s0) in
  let s := run (step s0 (NewVirConn c v)) es in
  ∃ vc, vcs s !! a = Some vc ∧ vconn vc = c ∧ id vc = v ∧
    inbox vc `prefix_of` frames c v es ∧ (reg s c v = Some a → inbox vc = frames c v es).
Proof.
  intros s0 Hc a s.
  assert (linked s0) as Hlink by apply linked_run, new_linked.
  destruct Hc as [conn Hc].
  destruct (newVirConn_spec s0 c v conn Hc) as (l' & vc0 & conn' & E & Hl & Hvc & Hid & Hin & _).
  assert (vcs (step s0 (NewVirConn c v)) !! a = Some vc0) as Ha.
  { simpl. rewrite E. unfold a. rewrite (Forall2_length _ _ _ Hl).
    by apply list_lookup_middle. }
  assert (keys (step s0 (NewVirConn c v)) !! a = Some (c, v)) as Hk.
  { by rewrite (keys_lookup _ _ _ Ha), Hvc, Hid. }
  destruct (run_inbox _ es a vc0 c v (linked_step _ _ Hlink) Ha Hk)
    as (vc & got & Hv & Hi & Hpre & Hreg & _).
  exists vc. rewrite Hin in Hi. simpl in Hi. rewrite Hi.
  pose proof (key_run _ es a _ Hk) as Hks.
  rewrite (keys_lookup _ _ _ Hv) in Hks. by simplify_eq.
Qed.

Lemma keys_prefix_run s es : keys s `prefix_of` keys (run s es).
Proof.
  revert s. induction es as [|e es IH]; intros s; [done|].
  etrans; [|apply (IH (step s e))]. rewrite step_keys. by apply prefix_app_r.
Qed.

Lemma NoDup_prefix {A} (l l' : list A) : l `prefix_of` l' → NoDup l' → NoDup l.
Proof. intros [k ->]. by intros (? & _)%NoDup_app. Qed.

Lemma awake_run s es : awake s → NoDup (keys (run s es)) → awake (run s es).
Proof.
  revert s. induction es as [|e es IH]; intros s Haw Hnd; [done|].
  apply IH; [|done]. apply awake_step; [done|].
  eapply NoDup_prefix; [apply (keys_prefix_run _ es)|done].
Qed.

(** C16. No waiter is forgotten.  As long as no request id is used twice on a connection, a
    virtual connection that is neither closed nor cancelled is registered on an open connection,
    so the next packet with its id reaches it: nobody waits on a connection that has died. *)
Theorem mux_awake (o : PoolOptions) (es : list event) (a : nat) (vc : VirtualConnection)
    (buf : bytes) :
  let s := run (newConcreteConnections o) es in
  NoDup (keys s) → vcs s !! a = Some vc → waiting vc →
  registered s a vc ∧
  vcs (deliver s (vconn vc) (id vc) buf) !! a =
    Some (vc <| recvQueue := recvQueue vc ++ [buf] |>).
Proof.
  intros s Hnd Ha Hw. assert (registered s a vc) as Hr.
  { apply awake_run; [|done..]. intros b vb. by rewrite (proj1 (proj2 (new_spec o))). }
  split; [done|]. destruct Hr as (conn & Hc & _ & Hreg). unfold deliver. rewrite Hc, Hreg.
  simpl. by rewrite list_lookup_alter_eq, Ha.
Qed.

(** ** The count of idle connections *)

Definition idle_share (c : Connection) : Z := b2z (isIdle c) - b2z (gone c).
Definition idle_total (l : list Connection) : Z := foldr (λ c z, idle_share c + z)%Z 0%Z l.

Lemma idle_total_app l k : idle_total (l ++ k) = (idle_total l + idle_total k)%Z.
Proof. induction l as [|c l IH]; simpl; [done|]. rewrite IH. lia. Qed.

Lemma idle_total_insert l c conn conn' :
  l !! c = Some conn →
  idle_total (<[c := conn']> l) = (idle_total l - idle_share conn + idle_share conn')%Z.
Proof.
  revert c. induction l as [|x l IH]; intros [|c] H; simplify_eq/=; [lia|].
  rewrite (IH c) by done. lia.
Qed.

Definition quiet (c : Connection) : Prop :=
  (gone c = true → closed c = true) ∧ (destroying c = true → closed c = true ∧ gone c = false).

(** The counter is the number of idle connections less the number of connections that were
    expelled. *)
Definition counted (s : Connections) : Prop :=
  (0 < maxIdle s)%Z ∧ currentIdle s = idle_total (all s) ∧ Forall quiet (all s).

Lemma counted_insert s s' c conn conn' :
  counted s → all s !! c = Some conn → opts s' = opts s → all s' = <[c := conn']> (all s) →
  quiet conn' → currentIdle s' = (currentIdle s - idle_share conn + idle_share conn')%Z →
  counted s'.
Proof.
  intros (Hm & Hi & Hq) Hc Ho Ha Hq' Hi'. split_and!.
  - unfold maxIdle in *. by rewrite Ho.
  - rewrite Hi', Ha, (idle_total_insert _ _ conn) by done. lia.
  - rewrite Ha. by apply Forall_insert.
Qed.

Lemma counted_same s s' :
  counted s → opts s' = opts s → all s' = all s → currentIdle s' = currentIdle s → counted s'.
Proof. intros (Hm & Hi & Hq) Ho Ha Hi'. unfold counted, maxIdle in *. by rewrite Ho, Ha, Hi'. Qed.

Lemma counted_quiet s c conn : counted s → all s !! c = Some conn → quiet conn.
Proof. intros (_ & _ & Hq) Hc. by eapply Forall_lookup_1 in Hq. Qed.

Lemma counted_newConn s : counted s → counted (fst (newConn s)).
Proof.
  intros (Hm & Hi & Hq). destruct (newConn_spec s) as (Ea & _ & _ & Eo & Ei).
  split_and!; [unfold maxIdle in *; by rewrite Eo| |].
  - rewrite Ei, Ea, idle_total_app by done. unfold idle_total at 2, idle_share. simpl. lia.
  - rewrite Ea. apply Forall_app. by repeat constructor.
Qed.

Lemma counted_close s a : counted s → counted (Close s a).
Proof.
  intros H. destruct (vcs s !! a) as [vc|] eqn:Ea; [|unfold Close; by rewrite Ea].
  destruct (vclosed vc) eqn:Ecl; [unfold Close; by rewrite Ea, Ecl|].
  destruct (Close_spec s a vc Ea Ecl) as (_ & _ & Eo & Hs).
  destruct (all s !! vconn vc) as [conn|] eqn:Ec; [|destruct Hs; by eapply counted_same].
  destruct Hs as (conn' & Es & _ & Hg & Hcase). simpl in *. pose proof H as (Hm & _).
  destruct (counted_quiet _ _ _ H Ec) as [Q1 Q2].
  eapply counted_insert; [done..| |]; destruct Hcase as [(Ei & Ecl' & Ed & Ecur)|(_ & Hcl & Ei & Ecur & Hd)].
  - unfold quiet. by rewrite Hg, Ecl', Ed.
  - unfold quiet. rewrite Hg. destruct (gone conn) eqn:Egone; [by rewrite Q1 in Hcl|].
    destruct Hd as [[-> ->]|[-> ->]]; [|done]. split; [done|]. intros Hd. by destruct (Q2 Hd); congruence.
  - rewrite Ecur. unfold idle_share. rewrite Hg, Ei. lia.
  - rewrite Ecur by done. unfold idle_share. rewrite Hg, Ei. simpl. lia.
Qed.

Lemma counted_step s e : counted s → counted (step s e).
Proof.
  intros H. pose proof H as (Hm & Hi & Hq).
  destruct e as [|c v|a|a|a|c v buf|c e r now dials|c]; simpl.
  - destruct (pick_spec s) as [(? & _ & _ & ? & ?)|(s0 & -> & ? & _ & _ & ? & ?)];
      [by eapply counted_same|apply counted_newConn; by eapply counted_same].
  - destruct (all s !! c) as [conn|] eqn:Ec; [|unfold newVirConn; by rewrite Ec].
    destruct (newVirConn_spec s c v conn Ec)
      as (l' & vc' & conn' & _ & _ & _ & _ & _ & _ & _ & Es & _ & Ei & Ecl & Eg & Ed & _ & Eo & Ecur).
    eapply counted_insert; [done..| |].
    + unfold quiet. rewrite Ecl, Eg, Ed. apply (counted_quiet _ _ _ H Ec).
    + rewrite Ecur by done. unfold idle_share. rewrite Ei, Eg. simpl. lia.
  - by eapply counted_same.
  - by eapply counted_same.
  - by apply counted_close.
  - unfold deliver. destruct (all s !! c) as [conn|]; [|done].
    destruct (virConns conn !! v); [|done]. by eapply counted_same.
  - destruct (doClose s c e r now dials) as [s'|] eqn:E; [|done]. simpl.
    apply doClose_spec in E as [-> |(conn & Ec & Ecl & conn' & Es & _ & _ & _ & Eo & Eg & Hcase)]; [done|].
    destruct (counted_quiet _ _ _ H Ec) as [Q1 Q2].
    assert (gone conn = false) as Hg by (destruct (gone conn); [by rewrite Q1 in Ecl|done]).
    eapply counted_insert; [done..| |]; destruct Hcase as [(Hcl & Hd & Ei & Ecur)|(Hcl & Hd & Ei & Ecur)].
    + unfold quiet. by rewrite Eg, Hg.
    + unfold quiet. rewrite Eg, Hg, Hd. split; [done|]. intros [? _]%Q2. congruence.
    + rewrite Ecur. unfold idle_share. rewrite Eg, Ei. lia.
    + rewrite Ecur by done. unfold idle_share. rewrite Eg, Ei. destruct (isIdle conn); simpl; lia.
  - destruct (expel_spec s c) as [-> |(conn & Ec & Ed & Es & _ & _ & Eo & Ecur)]; [done|].
    destruct (counted_quiet _ _ _ H Ec) as [Q1 Q2]. destruct (Q2 Ed) as [Hcl Hg].
    eapply counted_insert; [done..| |].
    + by split.
    + rewrite Ecur by done. unfold idle_share. simpl. rewrite Hg. simpl. lia.
Qed.

Lemma counted_new o : (0 < maxIdleConnsPerHost o)%Z → counted (newConcreteConnections o).
Proof.
  intros Hm. destruct (new_spec o) as (Eo & _ & Ea & Ei). split_and!.
  - unfold maxIdle. by rewrite Eo.
  - rewrite Ei, Ea by done. clear. rewrite length_replicate.
    induction (Z.to_nat _) as [|n IH]; [done|].
    assert (idle_total (replicate (S n) (freshConn o)) = 1 + idle_total (replicate n (freshConn o)))%Z
      as -> by done. lia.
  - rewrite Ea. apply Forall_replicate. by split.
Qed.

(** With a limit on idle connections, the counter of idle connections is at any time the
    number of connections that are marked idle less the number of connections that were expelled;
    so it is exact as long as only idle connections are expelled, and falls below by one for
    every connection that is expelled while it is not idle. *)
Theorem mux_idle_count (o : PoolOptions) (es : list event) :
  (0 < maxIdleConnsPerHost o)%Z →
  let s := run (newConcreteConnections o) es in
  currentIdle s = (zlen (filter (λ c, isIdle c = true) (all s))
                   - zlen (filter (λ c, gone c = true) (all s)))%Z.
Proof.
  intros Hm s. assert (counted s) as (_ & -> & _).
  { assert (∀ s0, counted s0 → counted (run s0 es)) as Hrun.
    { induction es as [|e es IH]; intros s0 H0; [done|]. by apply IH, counted_step. }
    by apply Hrun, counted_new. }
  unfold zlen. induction (all s) as [|c l IH]; [done|]. simpl. rewrite IH, !filter_cons.
  unfold idle_share. destruct (isIdle c), (gone c); simpl; lia.
Qed.

(** ** Reconnecting *)

Lemma closing_counts conn now go sleep conn' :
  doReconnectBackoff conn now = (go, sleep, conn') →
  (0 ≤ reconnectCount conn)%Z →
  lastReconnectTime conn' = Some now ∧ counting conn' (reconnectCount conn') now ∧
  (1 ≤ reconnectCount conn')%Z ∧
  (go = true → reconnectCount conn' ≤ maxReconnectCount ∧ 0 ≤ sleep ≤ maxBackoff)%Z ∧
  (lastReconnectTime conn = None → reconnectCount conn = 0%Z → go = true).
Proof.
  unfold doReconnectBackoff. intros H Hn.
  set (n := match lastReconnectTime conn with Some _ => _ | None => _ end) in *.
  assert (0 ≤ n)%Z. { unfold n. destruct (lastReconnectTime conn); [destruct (_ <? _)%Z|]; lia. }
  assert (lastReconnectTime conn = None → n = reconnectCount conn) as Hnone by (unfold n; by intros ->).
  destruct (maxReconnectCount <? n + 1)%Z eqn:E; bool_to_prop; simplify_eq; simpl;
    split_and!; try done; try lia.
  - intros ->%Hnone. unfold maxReconnectCount in *. lia.
  - intros _. unfold initialBackoff, maxBackoff, millisecond. split; [done|]. lia.
Qed.

(** C37. Reconnecting comes to an end if every attempt to dial ends 50ms before the interval is
    over after which the attempts are counted anew, since there are ten attempts at most.  On the
    other hand, if every attempt takes longer than that interval and fails, the loop goes on
    after any number of attempts, and all this time it holds the mutex of the connection. *)
Theorem doClose_reconnects (s : Connections) (c : nat) (conn : Connection) (lastErr : error)
    (now : Z) (dials : list (bool * Z)) :
  all s !! c = Some conn → closed conn = false → (0 ≤ reconnectCount conn)%Z →
  (Forall (λ x, x.2 ≤ reconnectCountResetInterval - maxBackoff)%Z dials →
   (maxReconnectCount ≤ zlen dials)%Z → doClose s c lastErr true now dials ≠ None) ∧
  (reconnectCount conn = 0%Z → lastReconnectTime conn = None →
   Forall (λ x, x.1 = false ∧ reconnectCountResetInterval < x.2)%Z dials →
   doClose s c lastErr true now dials = None).
Proof.
  intros Hc Hcl Hn. unfold doClose. rewrite Hc, Hcl.
  set (conn0 := conn <| closed := true |> <| cerr := Some lastErr |> <| virConns := ∅ |>).
  destruct (doReconnectBackoff conn0 now) as [[go sleep] conn1] eqn:E.
  apply closing_counts in E as (Ht & Hcount & H1 & Hgo & Hfirst); [|done]. split.
  - intros Hd Hlen. destruct go; [|done]. destruct Hgo as [Hle Hs]; [done|].
    destruct (reconnect conn1 (now + sleep) dials) as [[[] conn2]|] eqn:Er; [done..|].
    exfalso. eapply reconnect_quick in Er; [done|exact Hcount|done|lia|done|lia].
  - intros Hz Hnone Hd. rewrite (Hfirst Hnone Hz). rewrite (Hfirst Hnone Hz) in Hgo.
    destruct Hgo as [_ Hs]; [done|].
    by rewrite (reconnect_slow conn1 now (now + sleep) dials Ht) by (done || lia).
Qed.

(** ** Examples *)

Module MultiplexedExamples.

(** Two connections per host, two of them may be idle. *)
Definition o : PoolOptions := New 2 2 4.
Definition hello : bytes := [Byte.x68; Byte.x69].
Definition bye : bytes := [Byte.x62; Byte.x79; Byte.x65].

Definition io_error : error := Plain "EOF".

(** Two requests share connection 0, and one request uses connection 1. *)
Definition shared : list event :=
  [NewVirConn 0 7; NewVirConn 0 8; NewVirConn 1 7; Frame 0 8 hello; Frame 1 7 bye].

Definition later : list event :=
  [Frame 0 8 bye; Frame 0 9 hello; Read 3; CloseVC 1; Frame 1 9 bye; Frame 0 9 bye].

Lemma mux_isolation_witness :
  let s0 := run (newConcreteConnections o) shared in
  let s := run (step s0 (NewVirConn 0 9)) later in
  ∃ vc, vcs s !! 3 = Some vc ∧ vconn vc = 0 ∧ id vc = 9%Z ∧ inbox vc = [hello; bye].
Proof.
  intros s0 s.
  destruct (mux_isolation o shared later 0 9) as (vc & Hv & Hc & Hi & _ & Hin).
  { exists (default (freshConn o) (all s0 !! 0)). by vm_compute. }
  exists vc. split_and!; [|exact Hc|exact Hi|].
  - assert (length (vcs s0) = 3) as <- by (by vm_compute). exact Hv.
  - rewrite Hin; by vm_compute.
Defined.

Lemma mux_awake_witness :
  let s := run (newConcreteConnections o) shared in
  ∃ vc, vcs s !! 0 = Some vc ∧ registered s 0 vc ∧
    vcs (deliver s 0 7 bye) !! 0 = Some (vc <| recvQueue := [bye] |>).
Proof.
  intros s.
  destruct (mux_awake o shared 0 (MkVC 7 0 [] [] false false None) bye) as [H1 H2].
  - apply (bool_decide_unpack _). by vm_compute.
  - by vm_compute.
  - by split.
  - exists (MkVC 7 0 [] [] false false None). split; [by vm_compute|]. split; [exact H1|exact H2].
Defined.

(** An id that is used twice: the request it displaces is cancelled, and when that request
    closes its virtual connection, the registration of the second request is removed, which
    then waits on an open connection that knows nothing of it. *)
Lemma duplicate_orphan :
  let s := run (newConcreteConnections o) [NewVirConn 0 7; NewVirConn 0 7; CloseVC 0] in
  (∃ vc, vcs s !! 1 = Some vc ∧ waiting vc ∧ ¬ registered s 1 vc) ∧
  (closed <$> all s !! 0) = Some false ∧ vcs (deliver s 0 7 hello) = vcs s.
Proof.
  split_and!; [|by vm_compute|by vm_compute].
  exists (MkVC 7 0 [] [] false false None). split; [by vm_compute|]. split; [by split|].
  intros (conn & Hc & _ & Hr). vm_compute in Hc. injection Hc as <-. by vm_compute in Hr.
Qed.

(** Both connections lose their peer while a request is waiting, and are expelled. *)
Definition failing : list event :=
  [NewVirConn 0 7; NewVirConn 1 8; CloseConn 0 io_error false 0 []; Destroy 0;
   CloseConn 1 io_error false 0 []; Destroy 1].

Lemma mux_idle_count_witness :
  let s := run (newConcreteConnections o) failing in
  live s = [] ∧ currentIdle s = (-2)%Z.
Proof.
  intros s. split; [by vm_compute|].
  assert (currentIdle s = (zlen (filter (λ c, isIdle c = true) (all s))
                           - zlen (filter (λ c, gone c = true) (all s)))%Z) as ->.
  { by apply (mux_idle_count o failing). }
  by vm_compute.
Defined.

(** A hundred dials that run into the timeout of one second. *)
Definition slow : list (bool * Z) := replicate 100 (false, 1000 * millisecond)%Z.

Lemma doClose_reconnects_witness :
  doClose (newConcreteConnections o) 0 io_error true 0 (replicate 10 (false, 1)%Z) ≠ None ∧
  doClose (newConcreteConnections o) 0 io_error true 0 slow = None.
Proof.
  assert (all (newConcreteConnections o) !! 0 = Some (freshConn o)) as Hc by reflexivity.
  assert (0 ≤ reconnectCount (freshConn o))%Z as Hn by done.
  split.
  - apply (proj1 (doClose_reconnects _ 0 _ io_error 0 (replicate 10 (false, 1)%Z) Hc eq_refl Hn)).
    + by apply Forall_replicate.
    + by vm_compute.
  - apply (proj2 (doClose_reconnects _ 0 _ io_error 0 slow Hc eq_refl Hn) eq_refl eq_refl).
    apply Forall_replicate. split; [reflexivity|by vm_compute].
Defined.

End MultiplexedExamples.
