(* ===== verification/KeepOrder.v ===== *)
(** Requests of one key in order (internal/keeporder/actor/actor.go, actors.go).

    Any number of goroutines add jobs, remove keys and stop all actors, while every actor has a
    goroutine that takes the jobs from its channel and runs them.  A step is a critical section of
    the lock of the map, an operation on a channel, or the start or end of a job.  A timer may fire
    at any time, and the select of an actor may prefer it to a job.  The configuration keeps the
    history of the jobs sent and of the jobs started, each with its key and its actor. *)

From S2P Require Import Prelude.
From stdpp Require Import strings.

Section keep_order.
Context {J : Type}.

(** ** An actor *)

Record Options := MkOptions { IdleGroupTimeout : Z; MaxElementCount : Z }.

Definition defaultIdleGroupTimeout : Z := 30000000000.
Definition defaultMaxElementCount : Z := 1024.

Definition fixDefault (o : Options) : Options :=
  MkOptions (if (IdleGroupTimeout o =? 0)%Z then defaultIdleGroupTimeout else IdleGroupTimeout o)
            (if (MaxElementCount o =? 0)%Z then defaultMaxElementCount else MaxElementCount o).

(** The goroutine of an actor: in its select, in a job, before its deferred cleanup, and gone. *)
Inductive phase := Selecting | Running (j : J) | Cleaning | Gone.

Record Actor := MkActor {
  key : string;
  jobs : list J;
  capacity : Z;
  once : bool;
  at_ : phase
}.
#[local] Instance eta_Actor : Eta Actor := λ a, MkActor (key a) (jobs a) (capacity a) (once a) (at_ a).

(** [NewActor] up to the start of the goroutine; [make] panics for a negative capacity. *)
Definition NewActor (k : string) (opts : option Options) : option Actor :=
  let opts := fixDefault (default (MkOptions 0 0) opts) in
  if (MaxElementCount opts <? 0)%Z then None else Some (MkActor k [] (MaxElementCount opts) false Selecting).

(** What the select of the goroutine finds on the channel: nothing, a job, or that it is closed. *)
Inductive received := Blocked | Job (j : J) (a : Actor) | Closed.

Definition receive (a : Actor) : received :=
  match jobs a with
  | j :: l => Job j (a <| jobs := l |> <| at_ := Running j |>)
  | [] => if once a then Closed else Blocked
  end.

(** [Actor.Add] sends on the channel: it blocks on a full one and panics on a closed one. *)
Inductive sent_ := Sent (a : Actor) | Full | SendPanic.

Definition Actor_Add (a : Actor) (fn : J) : sent_ :=
  if once a then SendPanic
  else if (zlen (jobs a) <? capacity a)%Z then Sent (a <| jobs := jobs a ++ [fn] |>) else Full.

(** [Actor.Stop] closes the channel once. *)
Definition Actor_Stop (a : Actor) : Actor := a <| once := true |>.

(** ** The actors *)

Record Actors := MkActors { actors : gmap string nat; heap : list Actor }.
#[local] Instance eta_Actors : Eta Actors := λ s, MkActors (actors s) (heap s).

Definition NewActors : Actors := MkActors ∅ [].

(** The two critical sections of [Actors.Add]: under the read lock, and under the lock with the
    second look. *)
Definition lookup_actor (k : string) (s : Actors) : option nat := actors s !! k.

Definition create_actor (k : string) (s : Actors) : option (nat * Actors) :=
  match actors s !! k with
  | Some a => Some (a, s)
  | None => a ← NewActor k None;
            Some (length (heap s), MkActors (<[k := length (heap s)]> (actors s)) (heap s ++ [a]))
  end.

(** The cleanup of an actor. *)
Definition cleanup (k : string) (s : Actors) : Actors := MkActors (delete k (actors s)) (heap s).

Definition upd (a : nat) (f : Actor → Actor) (s : Actors) : Actors := s <| heap := alter f a (heap s) |>.

(** A goroutine that uses the actors: [Add] before its first look, after it found nothing, and
    before the send; [Remove] before its look and before [Stop]; [Stop] before the read lock, and in
    its loop with the actors that are left. *)
Inductive goroutine :=
| AddStart (k : string) (fn : J) | AddMiss (k : string) (fn : J) | AddSend (a : nat) (fn : J)
| RemoveStart (k : string) | RemoveStop (a : nat)
| StopStart | StopLoop (l : list nat)
| Done | Panicked.

Record config := MkConfig {
  state : Actors;
  threads : list goroutine;
  sent : list (string * nat * J);
  started : list (string * nat * J)
}.
#[local] Instance eta_config : Eta config := λ c, MkConfig (state c) (threads c) (sent c) (started c).

Definition init : config := MkConfig NewActors [] [] [].

(** The read lock is held across the loop of [Stop]. *)
Definition read_locked (c : config) : Prop := ∃ i l, threads c !! i = Some (StopLoop l).

Definition goto (i : nat) (g : goroutine) (c : config) : config := c <| threads := <[i := g]> (threads c) |>.

(** One operation of a goroutine that uses the actors. *)
Inductive client_step (c : config) (i : nat) : config → Prop :=
| add_looks k fn :
    threads c !! i = Some (AddStart k fn) →
    client_step c i (goto i (match lookup_actor k (state c) with
                             | Some a => AddSend a fn | None => AddMiss k fn end) c)
| add_creates k fn a s :
    threads c !! i = Some (AddMiss k fn) → ¬ read_locked c → create_actor k (state c) = Some (a, s) →
    client_step c i (goto i (AddSend a fn) (c <| state := s |>))
| add_sends a fn x y :
    threads c !! i = Some (AddSend a fn) → heap (state c) !! a = Some x → Actor_Add x fn = Sent y →
    client_step c i (goto i Done (c <| state := upd a (λ _, y) (state c) |> <| sent := sent c ++ [(key x, a, fn)] |>))
| add_panics a fn x :
    threads c !! i = Some (AddSend a fn) → heap (state c) !! a = Some x → Actor_Add x fn = SendPanic →
    client_step c i (goto i Panicked c)
| remove_looks k :
    threads c !! i = Some (RemoveStart k) →
    client_step c i (goto i (match lookup_actor k (state c) with Some a => RemoveStop a | None => Done end) c)
| remove_stops a :
    threads c !! i = Some (RemoveStop a) →
    client_step c i (goto i Done (c <| state := upd a Actor_Stop (state c) |>))
| stop_locks l :
    threads c !! i = Some StopStart → l ≡ₚ (map_to_list (actors (state c))).*2 →
    client_step c i (goto i (StopLoop l) c)
| stop_stops a l :
    threads c !! i = Some (StopLoop (a :: l)) →
    client_step c i (goto i (StopLoop l) (c <| state := upd a Actor_Stop (state c) |>))
| stop_unlocks :
    threads c !! i = Some (StopLoop []) →
    client_step c i (goto i Done c).

(** One operation of the goroutine of an actor. *)
Inductive actor_step (c : config) (a : nat) (x : Actor) : config → Prop :=
| actor_takes j y :
    at_ x = Selecting → receive x = Job j y →
    actor_step c a x (c <| state := upd a (λ _, y) (state c) |> <| started := started c ++ [(key x, a, j)] |>)
| actor_ends j :
    at_ x = Running j →
    actor_step c a x (c <| state := upd a (λ x, x <| at_ := Selecting |>) (state c) |>)
| actor_closed :
    at_ x = Selecting → receive x = Closed →
    actor_step c a x (c <| state := upd a (λ x, x <| at_ := Cleaning |>) (state c) |>)
| actor_idle :
    at_ x = Selecting →
    actor_step c a x (c <| state := upd a (λ x, x <| at_ := Cleaning |>) (state c) |>)
| actor_cleans :
    at_ x = Cleaning → ¬ read_locked c →
    actor_step c a x (c <| state := cleanup (key x) (upd a (λ x, x <| at_ := Gone |>) (state c)) |>).

Inductive step (c : config) : config → Prop :=
| step_client i c' : client_step c i c' → step c c'
| step_actor a x c' : heap (state c) !! a = Some x → actor_step c a x c' → step c c'
| step_go g : (∃ k fn, g = AddStart k fn) ∨ (∃ k, g = RemoveStart k) ∨ g = StopStart →
    step c (c <| threads := threads c ++ [g] |>).

(** ** What is kept *)

Abbreviation history := (list (string * nat * J)).

(** The jobs of a key, of an actor in a history. *)
Definition of_key (k : string) (h : history) : history := filter (λ e, e.1.1 = k) h.
Definition of_actor (a : nat) (h : history) : history := filter (λ e, e.1.2 = a) h.

Lemma of_actor_snoc a b k j h :
  of_actor a (h ++ [(k, b, j)]) = of_actor a h ++ if decide (b = a) then [(k, b, j)] else [].
Proof. unfold of_actor. rewrite filter_app. f_equal. Qed.
Lemma of_key_snoc k k' b j h :
  of_key k (h ++ [(k', b, j)]) = of_key k h ++ if decide (k' = k) then [(k', b, j)] else [].
Proof. unfold of_key. rewrite filter_app. f_equal. Qed.

(** The events of an actor have its key. *)
Definition keyed (s : Actors) (h : history) : Prop :=
  Forall (λ e, key <$> heap s !! e.1.2 = Some e.1.1) h.

(** The actor [a] with key [k] began when the jobs [pre] of the key were sent, and has started its own
    jobs since. *)
Definition since (k : string) (a : nat) (sent started : history) : Prop :=
  ∃ pre post old, of_key k sent = pre ++ post ∧ of_key k started = old ++ of_actor a started ∧
    old `sublist_of` pre ∧ of_actor a (of_key k sent) = of_actor a post.

Record inv (s : Actors) (sent started : history) : Prop := {
  inv_map k a : actors s !! k = Some a → ∃ x, heap s !! a = Some x ∧ key x = k ∧ at_ x ≠ Gone;
  inv_live a x : heap s !! a = Some x → at_ x ≠ Gone →
    actors s !! key x = Some a ∧ since (key x) a sent started;
  inv_jobs a x : heap s !! a = Some x →
    of_actor a sent = of_actor a started ++ (pair (key x, a) <$> jobs x);
  inv_keyed : keyed s sent ∧ keyed s started;
  inv_order k : of_key k started `sublist_of` of_key k sent
}.

Lemma keyed_grows s s' h :
  (∀ a x, heap s !! a = Some x → ∃ x', heap s' !! a = Some x' ∧ key x' = key x) → keyed s h → keyed s' h.
Proof.
  intros Hg. unfold keyed. rewrite !Forall_forall. intros Hh e He. specialize (Hh e He).
  destruct (heap s !! e.1.2) as [x|] eqn:E; simplify_eq/=. destruct (Hg _ _ E) as (x' & -> & Hk).
  simpl. congruence.
Qed.

Lemma of_actor_key s a x h : heap s !! a = Some x → keyed s h → of_actor a (of_key (key x) h) = of_actor a h.
Proof.
  intros Hx. unfold keyed, of_actor, of_key. induction 1 as [|e h He Hh IH]; [done|].
  rewrite !filter_cons. destruct (decide (e.1.1 = key x)) as [Hk|Hk]; simpl in *.
  - rewrite filter_cons. case_decide; by rewrite IH.
  - rewrite IH. case_decide as Ha; [|done]. rewrite Ha, Hx in He. simplify_eq/=.
Qed.

Lemma of_actor_none s a h : heap s !! a = None → keyed s h → of_actor a h = [].
Proof.
  intros Hx. unfold keyed, of_actor. induction 1 as [|e h He Hh IH]; [done|].
  rewrite filter_cons, IH. case_decide as Ha; [|done]. by rewrite Ha, Hx in He.
Qed.

Lemma keyed_of_key s k h : keyed s h → keyed s (of_key k h).
Proof.
  unfold keyed. rewrite !Forall_forall. intros Hh e He. unfold of_key in He.
  apply list_elem_of_filter in He as [_ He]. by apply Hh.
Qed.

(** *** Changes of the actors *)

(** An update of one actor that keeps its key. *)
Lemma actor_lookup a f s b x :
  heap s !! b = Some x → heap (upd a f s) !! b = Some (if decide (a = b) then f x else x).
Proof. apply alter_lookup. Qed.

Lemma actor_lookup_inv a f s b y :
  heap (upd a f s) !! b = Some y → ∃ x, heap s !! b = Some x ∧ y = if decide (a = b) then f x else x.
Proof. apply alter_lookup_inv. Qed.

(** What a step of an actor or a client may do to an actor without a new event. *)
Record same (x y : Actor) : Prop := {
  same_key : key y = key x;
  same_jobs : jobs y = jobs x;
  same_gone : at_ x ≠ Gone → at_ y ≠ Gone;
  same_live : at_ y ≠ Gone → at_ x ≠ Gone
}.

Lemma upd_keyed a f s h :
  (∀ x, heap s !! a = Some x → key (f x) = key x) → keyed s h → keyed (upd a f s) h.
Proof.
  intros Hf. apply keyed_grows. intros b x Hb. exists (if decide (a = b) then f x else x).
  split; [by apply actor_lookup|]. case_decide; subst; eauto.
Qed.

Lemma upd_inv a f s h r :
  (∀ x, heap s !! a = Some x → same x (f x)) → inv s h r → inv (upd a f s) h r.
Proof.
  intros Hf [Hm Hl Hj [Hk1 Hk2] Ho].
  assert (∀ b x, heap s !! b = Some x → same x (if decide (a = b) then f x else x)) as Hs.
  { intros b x Hb. case_decide; subst; eauto. by split. }
  split.
  - intros k b Hb. destruct (Hm k b Hb) as (x & Hx & <- & Hg). eexists.
    split; [by apply actor_lookup|]. destruct (Hs _ _ Hx). auto.
  - intros b y Hy Hg. destruct (actor_lookup_inv _ _ _ _ _ Hy) as (x & Hx & ->).
    destruct (Hs _ _ Hx) as [H1 _ _ H4]. rewrite H1. eauto.
  - intros b y Hy. destruct (actor_lookup_inv _ _ _ _ _ Hy) as (x & Hx & ->).
    destruct (Hs _ _ Hx) as [-> -> _ _]. eauto.
  - split; apply upd_keyed; try done; intros x Hx; by destruct (Hf _ Hx).
  - done.
Qed.

(** A job is sent. *)
Lemma since_sent k a b k' j h r : since k a h r → since k a (h ++ [(k', b, j)]) r.
Proof.
  unfold since. intros (pre & post & old & H1 & H2 & H3 & H4). rewrite !of_key_snoc.
  set (l := if decide (k' = k) then _ else _). exists pre, (post ++ l), old.
  split_and!; [by rewrite H1, app_assoc|done|done|].
  unfold of_actor in *. rewrite !filter_app. by f_equal.
Qed.

Lemma sent_inv a x j s h r :
  heap s !! a = Some x → inv s h r →
  inv (upd a (λ _, x <| jobs := jobs x ++ [j] |>) s) (h ++ [(key x, a, j)]) r.
Proof.
  intros Hx [Hm Hl Hj [Hk1 Hk2] Ho]. split.
  - intros k b Hb. destruct (Hm k b Hb) as (y & Hy & <- & Hg). eexists.
    split; [by apply actor_lookup|]. case_decide; simplify_eq/=; done.
  - intros b y Hy Hg. destruct (actor_lookup_inv _ _ _ _ _ Hy) as (z & Hz & ->).
    assert (at_ z ≠ Gone) as Hgz by (case_decide; simplify_eq/=; done).
    assert (key (if decide (a = b) then x <| jobs := jobs x ++ [j] |> else z) = key z) as ->
      by (case_decide; simplify_eq/=; done).
    destruct (Hl _ _ Hz Hgz). split; [done|]. by apply since_sent.
  - intros b y Hy. destruct (actor_lookup_inv _ _ _ _ _ Hy) as (z & Hz & ->).
    rewrite of_actor_snoc, (Hj _ _ Hz).
    case_decide; simplify_eq/=; [by rewrite fmap_app, app_assoc|by rewrite app_nil_r].
  - assert (∀ y, heap s !! a = Some y → key (x <| jobs := jobs x ++ [j] |>) = key y) by (intros; by simplify_eq/=).
    split; [|by apply upd_keyed]. apply Forall_app. split; [by apply upd_keyed|].
    constructor; [|done]. cbn [fst snd]. rewrite (actor_lookup _ _ _ _ _ Hx). by rewrite decide_True.
  - intros k. rewrite of_key_snoc. by apply sublist_inserts_r.
Qed.

(** Live actors of one key are one actor. *)
Lemma live_unique s h r a b x y :
  inv s h r → heap s !! a = Some x → heap s !! b = Some y → at_ x ≠ Gone → at_ y ≠ Gone →
  key x = key y → a = b.
Proof.
  intros Hi Ha Hb Hx Hy Hk. destruct (inv_live _ _ _ Hi _ _ Ha Hx) as [H1 _].
  destruct (inv_live _ _ _ Hi _ _ Hb Hy) as [H2 _]. rewrite Hk in H1. congruence.
Qed.

(** A job is started. *)
Lemma since_started k a j l h r :
  since k a h r → of_actor a (of_key k h) = of_actor a r ++ ((k, a, j) :: l) →
  since k a h (r ++ [(k, a, j)]) ∧ of_key k (r ++ [(k, a, j)]) `sublist_of` of_key k h.
Proof.
  unfold since. intros (pre & post & old & H1 & H2 & H3 & H4) Hj.
  rewrite of_key_snoc, of_actor_snoc, !decide_True by done. rewrite H2. split.
  - exists pre, post, old. by rewrite <- app_assoc.
  - rewrite H1, <- app_assoc. apply sublist_app; [done|]. trans (of_actor a post); [|apply sublist_filter].
    rewrite <- H4, Hj. apply sublist_app; [done|]. apply sublist_skip, sublist_nil_l.
Qed.

Lemma started_inv a x j l s h r :
  heap s !! a = Some x → at_ x = Selecting → jobs x = j :: l → inv s h r →
  inv (upd a (λ _, x <| jobs := l |> <| at_ := Running j |>) s) h (r ++ [(key x, a, j)]).
Proof.
  intros Hx Hsel Hjobs Hi. pose proof Hi as [Hm Hl Hj [Hk1 Hk2] Ho].
  assert (at_ x ≠ Gone) as Hlx by congruence.
  destruct (since_started (key x) a j (pair (key x, a) <$> l) h r) as [Hs1 Hs2].
  { by apply Hl. } { rewrite (of_actor_key _ _ _ _ Hx) by done. by rewrite (Hj _ _ Hx), Hjobs. }
  split.
  - intros k b Hb. destruct (Hm k b Hb) as (y & Hy & <- & Hg). eexists.
    split; [by apply actor_lookup|]. case_decide; simplify_eq/=; done.
  - intros b y Hy Hg. destruct (actor_lookup_inv _ _ _ _ _ Hy) as (z & Hz & ->).
    case_decide; simplify_eq/=; [split; [by apply Hl|done]|].
    destruct (Hl _ _ Hz Hg) as [Hmz Hsz]. split; [done|]. unfold since in *.
    rewrite of_key_snoc, of_actor_snoc, !decide_False, !app_nil_r; [done|done|].
    intros Hk. by destruct (live_unique _ _ _ _ _ _ _ Hi Hx Hz Hlx Hg Hk).
  - intros b y Hy. destruct (actor_lookup_inv _ _ _ _ _ Hy) as (z & Hz & ->). rewrite (Hj _ _ Hz), of_actor_snoc.
    case_decide; simplify_eq/=; [by rewrite Hjobs, <- app_assoc|by rewrite app_nil_r].
  - assert (∀ y, heap s !! a = Some y → key (x <| jobs := l |> <| at_ := Running j |>) = key y)
      by (intros; by simplify_eq/=).
    split; [by apply upd_keyed|]. apply Forall_app. split; [by apply upd_keyed|].
    constructor; [|done]. cbn [fst snd]. rewrite (actor_lookup _ _ _ _ _ Hx). by rewrite decide_True.
  - intros k. destruct (decide (key x = k)) as [<-|Hne]; [done|].
    by rewrite of_key_snoc, decide_False, app_nil_r.
Qed.

(** An actor is created. *)
Lemma create_inv k a s s' h r : create_actor k s = Some (a, s') → inv s h r → inv s' h r.
Proof.
  unfold create_actor. destruct (actors s !! k) as [b|] eqn:Hk; [by intros [= <- <-]|].
  intros [= <- <-] [Hm Hl Hj [Hk1 Hk2] Ho]. cbn [actors heap].
  set (x := MkActor _ _ _ _ _).
  assert (∀ b y, heap s !! b = Some y → (heap s ++ [x]) !! b = Some y) as Hold.
  { intros b y Hb. by apply lookup_app_l_Some. }
  assert (heap s !! length (heap s) = None) as Hnone by (by apply lookup_ge_None).
  split; cbn [actors heap].
  - intros k' b. rewrite lookup_insert. case_decide as E; [intros [= <-]; subst k'|intros Hb].
    + exists x. by rewrite lookup_app_r, Nat.sub_diag by done.
    + destruct (Hm _ _ Hb) as (y & Hy & ?). eauto.
  - intros b y Hb Hg. apply lookup_app_Some in Hb as [Hb|[Hge Hb]].
    + destruct (Hl _ _ Hb Hg) as [Hmy Hs]. split; [|done]. rewrite lookup_insert_ne; [done|congruence].
    + apply list_lookup_singleton_Some in Hb as [Hb <-]. assert (b = length (heap s)) as -> by lia.
      split; [apply lookup_insert_eq|]. exists (of_key k h), [], (of_key k r).
      split_and!; [by rewrite app_nil_r|by rewrite (of_actor_none _ _ _ Hnone Hk2), app_nil_r|apply Ho|].
      apply of_actor_none with s; [done|]. by apply keyed_of_key.
  - intros b y Hb. apply lookup_app_Some in Hb as [Hb|[Hge Hb]]; [by apply Hj|].
    apply list_lookup_singleton_Some in Hb as [Hb <-]. assert (b = length (heap s)) as -> by lia.
    by rewrite !(of_actor_none _ _ _ Hnone).
  - split; (eapply keyed_grows; [|eassumption]); cbn [heap]; eauto.
  - done.
Qed.

(** An actor is gone. *)
Lemma cleanup_inv a x s h r :
  heap s !! a = Some x → at_ x ≠ Gone → inv s h r →
  inv (cleanup (key x) (upd a (λ x, x <| at_ := Gone |>) s)) h r.
Proof.
  intros Hx Hlx Hi. pose proof Hi as [Hm Hl Hj [Hk1 Hk2] Ho]. unfold cleanup. split; cbn [actors heap].
  - intros k b Hb. apply lookup_delete_Some in Hb as [Hne Hb]. destruct (Hm k b Hb) as (y & Hy & <- & Hg).
    eexists. split; [by apply actor_lookup|]. case_decide; simplify_eq/=; done.
  - intros b y Hy Hg. destruct (actor_lookup_inv _ _ _ _ _ Hy) as (z & Hz & ->).
    case_decide; simplify_eq/=. destruct (Hl _ _ Hz Hg). split; [|done]. rewrite lookup_delete_ne; [done|].
    intros Hk. by destruct (live_unique _ _ _ _ _ _ _ Hi Hx Hz Hlx Hg Hk).
  - intros b y Hy. destruct (actor_lookup_inv _ _ _ _ _ Hy) as (z & Hz & ->). rewrite (Hj _ _ Hz).
    by case_decide.
  - split; [change (keyed (upd a (λ x, x <| at_ := Gone |>) s) h)|change (keyed (upd a (λ x, x <| at_ := Gone |>) s) r)];
      by apply upd_keyed.
  - done.
Qed.

Lemma actors_step_inv c c' : step c c' → inv (state c) (sent c) (started c) → inv (state c') (sent c') (started c').
Proof.
  intros Hs Hi. destruct Hs as [i c' Hs|a x c' Hx Hs|g _]; [destruct Hs as [| |a fn x y ? Hx Ha| | | | | |]|destruct Hs as [j y Hsel Hr|j Hr|Hsel Hr|Hsel|Hcl]|];
    simpl; try done.
  - by eapply create_inv.
  - unfold Actor_Add in Ha. destruct (once x); [done|]. destruct (_ <? _)%Z; simplify_eq. by apply sent_inv.
  - apply upd_inv; [by split|done].
  - apply upd_inv; [by split|done].
  - unfold receive in Hr. destruct (jobs x) as [|j' l] eqn:E; [by destruct (once x)|]. simplify_eq.
    by apply started_inv.
  - apply upd_inv; [|done]. intros z Hz. simplify_eq. by split; simpl; rewrite ?Hr.
  - apply upd_inv; [|done]. intros z Hz. simplify_eq. by split; simpl; rewrite ?Hsel.
  - apply upd_inv; [|done]. intros z Hz. simplify_eq. by split; simpl; rewrite ?Hsel.
  - apply cleanup_inv; [done|congruence|done].
Qed.

Lemma actors_reachable_inv c : rtc step init c → inv (state c) (sent c) (started c).
Proof.
  intros Hr. assert (inv (state init) (sent init) (started init)) as Hi.
  { split; try done. split; apply Forall_nil_2. }
  revert Hi. induction Hr; eauto using actors_step_inv.
Qed.

(** *** What is left of an actor that is gone, and what a live one can do *)

Lemma gone_stays c c' a x :
  step c c' → heap (state c) !! a = Some x → at_ x = Gone →
  (∃ x', heap (state c') !! a = Some x' ∧ at_ x' = Gone) ∧ of_actor a (started c') = of_actor a (started c).
Proof.
  intros Hs Hx Hg.
  assert (∀ b f (s : Actors), heap s !! a = Some x → (a = b → at_ (f x) = Gone) →
    ∃ x', heap (upd b f s) !! a = Some x' ∧ at_ x' = Gone) as Hupd.
  { intros b f s Ha Hf. eexists. split; [by apply actor_lookup|]. case_decide; subst; auto. }
  destruct Hs as [i c' Hs|b y c' Hy Hs|g _];
    [destruct Hs as [|? ? ? ? ? ? Hc|? ? ? ? ? ? Ha| | | | | |]|destruct Hs|]; simpl; eauto.
  - split; [|done]. unfold create_actor in Hc. destruct (actors (state c) !! _); simplify_eq/=; [eauto|].
    exists x. by rewrite lookup_app_l by (by eapply lookup_lt_Some).
  - split; [|done]. apply Hupd; [done|]. intros ->. simplify_eq. unfold Actor_Add in Ha.
    destruct (once _); [done|]. by destruct (_ <? _)%Z; simplify_eq.
  - split; [by apply Hupd|done].
  - split; [by apply Hupd|done].
  - assert (a ≠ b) as Hne by congruence. split; [by apply Hupd|].
    by rewrite of_actor_snoc, decide_False, app_nil_r.
  - split; [|done]. apply Hupd; [done|]. congruence.
  - split; [|done]. apply Hupd; [done|]. congruence.
  - split; [|done]. apply Hupd; [done|]. congruence.
  - split; [|done]. apply Hupd; [done|]. congruence.
Qed.

Lemma gone_forever c c' a x :
  rtc step c c' → heap (state c) !! a = Some x → at_ x = Gone →
  of_actor a (started c') = of_actor a (started c).
Proof.
  intros Hr. revert x. induction Hr as [c|c c1 c' Hs Hr IH]; intros x Hx Hg; [done|].
  destruct (gone_stays _ _ _ _ Hs Hx Hg) as [(x' & Hx' & Hg') <-]. eauto.
Qed.

(** The goroutine of an actor can run all the jobs that wait. *)
Lemma drains c a x :
  heap (state c) !! a = Some x → at_ x = Selecting →
  ∃ c', rtc step c c' ∧ sent c' = sent c ∧
    of_actor a (started c') = of_actor a (started c) ++ (pair (key x, a) <$> jobs x).
Proof.
  intros Hx Hsel. remember (jobs x) as l eqn:Hl. revert c x Hl Hx Hsel. induction l as [|j l IH]; intros c x Hl Hx Hsel.
  { exists c. by rewrite app_nil_r. }
  set (y := x <| jobs := l |> <| at_ := Running j |>).
  set (c1 := c <| state := upd a (λ _, y) (state c) |> <| started := started c ++ [(key x, a, j)] |>).
  assert (step c c1) as H1.
  { apply (step_actor _ a x); [done|]. apply (actor_takes _ _ _ j y); [done|]. unfold receive. by rewrite <- Hl. }
  assert (heap (state c1) !! a = Some y) as Hy.
  { change (state c1) with (upd a (λ _, y) (state c)). rewrite (actor_lookup _ _ _ _ _ Hx). by rewrite decide_True. }
  set (c2 := c1 <| state := upd a (λ x, x <| at_ := Selecting |>) (state c1) |>).
  assert (step c1 c2) as H2 by (eapply (step_actor _ a y); [done|by eapply actor_ends]).
  assert (heap (state c2) !! a = Some (y <| at_ := Selecting |>)) as Hz.
  { change (state c2) with (upd a (λ x, x <| at_ := Selecting |>) (state c1)).
    rewrite (actor_lookup _ _ _ _ _ Hy). by rewrite decide_True. }
  destruct (IH c2 (y <| at_ := Selecting |>)) as (c' & Hr & Hs & Ho); [done|done|done|]. exists c'.
  split; [by eapply rtc_l, rtc_l|]. split; [by rewrite Hs|]. rewrite Ho. simpl.
  rewrite of_actor_snoc, decide_True by done. by rewrite <- app_assoc.
Qed.

(** C27. Keep order.  Under any interleaving of adds, removes, stops and timers: the jobs of a key start in
    the order in which they were sent; jobs of one key never run at the same time; an actor has
    started exactly the jobs that were sent to it before those that still wait, each once; and
    while its goroutine is in its loop, it can run all the jobs that wait. *)
Theorem jobs_in_order c :
  rtc step init c →
  (∀ k, of_key k (started c) `sublist_of` of_key k (sent c)) ∧
  (∀ a b x y i j, heap (state c) !! a = Some x → heap (state c) !! b = Some y → key x = key y →
     at_ x = Running i → at_ y = Running j → a = b) ∧
  (∀ a x, heap (state c) !! a = Some x →
     of_actor a (sent c) = of_actor a (started c) ++ (pair (key x, a) <$> jobs x) ∧
     (at_ x = Selecting → ∃ c', rtc step c c' ∧ sent c' = sent c ∧ of_actor a (started c') = of_actor a (sent c))).
Proof.
  intros Hr. pose proof (actors_reachable_inv _ Hr) as Hi. split_and!.
  - apply Hi.
  - intros a b x y i j Hx Hy Hk Hri Hrj. by eapply live_unique; eauto; congruence.
  - intros a x Hx. pose proof (inv_jobs _ _ _ Hi _ _ Hx) as Hj. split; [done|]. intros Hsel.
    destruct (drains c a x Hx Hsel) as (c' & H1 & H2 & H3). exists c'. by rewrite H3, Hj.
Qed.
End keep_order.

Arguments Actor J : clear implicits.
Arguments config J : clear implicits.

(** ** Two jobs of a key, a job that is lost, and a goroutine that panics *)
Module KeepOrderExamples.

Lemma arrived (c c' : config nat) : c = c' → rtc step c c'.
Proof. intros ->. apply rtc_refl. Qed.

Ltac unlocked :=
  let H := fresh in intros (i & l & H); do 5 (try (destruct i as [|i]; [discriminate H|])); by destruct i.
Ltac client i := eapply rtc_l; [eapply (step_client _ i)|].
Ltac actor := eapply rtc_l; [eapply (step_actor _ 0); [reflexivity|]|].
Ltac adds k fn := eapply rtc_l; [apply (step_go _ (AddStart k fn)); by eauto|].

(** Two goroutines add a job with the same key; the actor runs the first one. *)
Definition two : config nat :=
  MkConfig (MkActors {["k" := 0]} [MkActor "k" [2] 1024 false (Running 1)]) [Done; Done]
    [("k", 0, 1); ("k", 0, 2)] [("k", 0, 1)].

Lemma two_reachable : rtc step init two.
Proof.
  adds "k" 1. adds "k" 2.
  client 0; [by eapply add_looks|]. client 1; [by eapply add_looks|].
  client 0; [eapply add_creates; [reflexivity|unlocked|reflexivity]|].
  client 1; [eapply add_creates; [reflexivity|unlocked|reflexivity]|].
  client 0; [by eapply add_sends|]. client 1; [by eapply add_sends|].
  actor; [by eapply actor_takes|].
  apply arrived. vm_compute. reflexivity.
Qed.

(** A goroutine that found the actor before its timer fired sends to it when it is gone: the job
    waits in a channel that no goroutine receives from. *)
Definition lost : config nat :=
  MkConfig (MkActors ∅ [MkActor "k" [2] 1024 false Gone]) [Done; Done]
    [("k", 0, 1); ("k", 0, 2)] [("k", 0, 1)].

Lemma idle_loses_job : rtc step init lost ∧ ∀ c, rtc step lost c → of_actor 0 (started c) = [("k", 0, 1)].
Proof.
  split; [|intros c Hr; by rewrite (gone_forever _ _ 0 _ Hr eq_refl eq_refl)].
  adds "k" 1. adds "k" 2. client 0; [by eapply add_looks|].
  client 0; [eapply add_creates; [reflexivity|unlocked|reflexivity]|].
  client 0; [by eapply add_sends|]. actor; [by eapply actor_takes|]. actor; [by eapply actor_ends|].
  client 1; [by eapply add_looks|]. actor; [by eapply actor_idle|]. actor; [eapply actor_cleans; [done|unlocked]|].
  client 1; [by eapply add_sends|]. apply arrived. vm_compute. reflexivity.
Qed.

(** An add that found the actor before [Remove] closed its channel panics. *)
Lemma remove_panics : ∃ c : config nat, rtc step init c ∧ threads c !! 1 = Some Panicked.
Proof.
  eexists. split.
  - adds "k" 1. adds "k" 2. eapply rtc_l; [apply (step_go _ (RemoveStart "k")); by eauto|].
    client 0; [by eapply add_looks|].
    client 0; [eapply add_creates; [reflexivity|unlocked|reflexivity]|].
    client 1; [by eapply add_looks|]. client 2; [by eapply remove_looks|]. client 2; [by eapply remove_stops|].
    client 1; [by eapply add_panics|]. apply rtc_refl.
  - reflexivity.
Qed.

Lemma jobs_in_order_witness : of_key "k" (started two) `sublist_of` of_key "k" (sent two).
Proof. apply (jobs_in_order two two_reachable). Defined.
End KeepOrderExamples.
