(* ===== verification/HealthCheck.v ===== *)
(** The states of the services of a server (healthcheck/health_check.go, healthcheck/options.go).

    Every method runs under the lock, so that a history is a sequence of calls.  The callbacks of
    the watchers are named by numbers, and a call returns those that it called, with the status. *)

From S2P Require Import Prelude.
From stdpp Require Import strings.

(** A status is an int; there are three. *)
Definition Unknown : Z := 0.
Definition Serving : Z := 1.
Definition NotServing : Z := 2.

Record HealthCheck := MkHealthCheck {
  unregisteredServiceStatus : Z;
  serviceStatuses : gmap string Z;
  statusServices : gmap Z (gset string);
  serviceWatchers : gmap string (list nat)
}.
#[global] Instance eta_HealthCheck : Eta HealthCheck := λ hc,
  MkHealthCheck (unregisteredServiceStatus hc) (serviceStatuses hc) (statusServices hc) (serviceWatchers hc).

Definition Opt : Type := HealthCheck → HealthCheck.
Definition WithUnregisteredServiceStatus (status : Z) : Opt := λ hc, hc <| unregisteredServiceStatus := status |>.
Definition WithStatusWatchers (watchers : gmap string (list nat)) : Opt := λ hc, hc <| serviceWatchers := watchers |>.

Definition New (opts : list Opt) : HealthCheck :=
  foldl (λ hc opt, opt hc)
    (MkHealthCheck Unknown ∅ {[Unknown := ∅; Serving := ∅; NotServing := ∅]} ∅) opts.

(** A key of a Go map that is missing reads as the zero value; a store to the nil map that is read
    for a status that has no set panics, a delete from it does nothing. *)
Definition delete_service (status : Z) (name : string) (hc : HealthCheck) : HealthCheck :=
  hc <| statusServices := alter (λ s, s ∖ {[name]}) status (statusServices hc) |>.
Definition insert_service (status : Z) (name : string) (hc : HealthCheck) : option HealthCheck :=
  s ← statusServices hc !! status;
  Some (hc <| statusServices := <[status := {[name]} ∪ s]> (statusServices hc) |>).

(** The calls of the watchers of a service. *)
Definition notify (name : string) (status : Z) (hc : HealthCheck) : list (nat * Z) :=
  (λ w, (w, status)) <$> default [] (serviceWatchers hc !! name).

(** [None] is a panic; the other results are the error and the callbacks that were called. *)
Definition Register (name : string) (hc : HealthCheck) : option (bool * list (nat * Z) * HealthCheck) :=
  match serviceStatuses hc !! name with
  | Some _ => Some (false, [], hc)
  | None =>
    hc ← insert_service Unknown name (hc <| serviceStatuses := <[name := Unknown]> (serviceStatuses hc) |>);
    Some (true, notify name Unknown hc, hc)
  end.

(** The function that [Register] returns. *)
Definition update (name : string) (status : Z) (hc : HealthCheck) : option (list (nat * Z) * HealthCheck) :=
  let hc := delete_service (default Unknown (serviceStatuses hc !! name)) name hc in
  hc ← insert_service status name hc;
  let hc := hc <| serviceStatuses := <[name := status]> (serviceStatuses hc) |> in
  Some (notify name status hc, hc).

Definition Unregister (name : string) (hc : HealthCheck) : HealthCheck :=
  let hc := delete_service (default Unknown (serviceStatuses hc !! name)) name hc in
  hc <| serviceStatuses := delete name (serviceStatuses hc) |>.

Definition CheckService (name : string) (hc : HealthCheck) : Z :=
  default (unregisteredServiceStatus hc) (serviceStatuses hc !! name).

Definition CheckServer (hc : HealthCheck) : Z :=
  let services status := default ∅ (statusServices hc !! status) in
  if (size (services Serving) =? size (serviceStatuses hc))%nat then Serving
  else if negb (size (services Unknown) =? 0)%nat then Unknown
  else NotServing.

Definition Watch (serviceName : string) (onStatusChanged : nat) (hc : HealthCheck) : HealthCheck :=
  hc <| serviceWatchers := <[serviceName := default [] (serviceWatchers hc !! serviceName) ++ [onStatusChanged]]>
                             (serviceWatchers hc) |>.

(** ** Histories *)

Inductive call := CRegister (name : string) | CUpdate (name : string) (status : Z)
  | CUnregister (name : string) | CWatch (name : string) (w : nat).

Definition perform (hc : HealthCheck) (c : call) : option (list (nat * Z) * HealthCheck) :=
  match c with
  | CRegister name => '(_, l, hc) ← Register name hc; Some (l, hc)
  | CUpdate name status => update name status hc
  | CUnregister name => Some ([], Unregister name hc)
  | CWatch name w => Some ([], Watch name w hc)
  end.

Fixpoint performs (hc : HealthCheck) (cs : list call) : option (list (nat * Z) * HealthCheck) :=
  match cs with
  | [] => Some ([], hc)
  | c :: cs => '(l, hc) ← perform hc c; '(l', hc) ← performs hc cs; Some (l ++ l', hc)
  end.

(** ** What the calls mean: statuses by name, and watchers by name *)

Record spec := MkSpec { statuses : gmap string Z; watchers : gmap string (list nat) }.

Definition spec_perform (s : spec) (c : call) : list (nat * Z) * spec :=
  let told name status := (λ w, (w, status)) <$> default [] (watchers s !! name) in
  match c with
  | CRegister name =>
    match statuses s !! name with
    | Some _ => ([], s)
    | None => (told name Unknown, MkSpec (<[name := Unknown]> (statuses s)) (watchers s))
    end
  | CUpdate name status => (told name status, MkSpec (<[name := status]> (statuses s)) (watchers s))
  | CUnregister name => ([], MkSpec (delete name (statuses s)) (watchers s))
  | CWatch name w => ([], MkSpec (statuses s) (<[name := default [] (watchers s !! name) ++ [w]]> (watchers s)))
  end.

Fixpoint spec_performs (s : spec) (cs : list call) : list (nat * Z) * spec :=
  match cs with
  | [] => ([], s)
  | c :: cs => let '(l, s) := spec_perform s c in let '(l', s) := spec_performs s cs in (l ++ l', s)
  end.

(** The server serves if all services do; otherwise its state is unknown if that of a service is. *)
Definition server_status (m : gmap string Z) : Z :=
  if decide (map_Forall (λ _ st, st = Serving) m) then Serving
  else if decide (map_Forall (λ _ st, st ≠ Unknown) m) then NotServing
  else Unknown.

(** A status that a service can have. *)
Definition valid (st : Z) : Prop := st = Unknown ∨ st = Serving ∨ st = NotServing.
Definition valid_call (c : call) : Prop := match c with CUpdate _ st => valid st | _ => True end.

(** ** The index of the services by status *)

Definition having (st : Z) (m : gmap string Z) : gset string := dom (filter (λ p, p.2 = st) m).

(** The well-formed states: there is a set for each status, and it has the services with it. *)
Record wf (hc : HealthCheck) : Prop := {
  wf_valid : map_Forall (λ _ st, valid st) (serviceStatuses hc);
  wf_index st : valid st → statusServices hc !! st = Some (having st (serviceStatuses hc))
}.

Lemma elem_of_having st m n : n ∈ having st m ↔ m !! n = Some st.
Proof.
  unfold having. rewrite elem_of_dom. split.
  - intros [x H]. apply map_lookup_filter_Some in H as [H ?]. simpl in *. congruence.
  - intros H. exists st. by apply map_lookup_filter_Some.
Qed.

Lemma having_size st m : size (having st m) = size m ↔ map_Forall (λ _ st', st' = st) m.
Proof.
  unfold having. rewrite size_dom. split.
  - intros H n st' Hn. apply dec_stable. intros Hne.
    assert (filter (λ p, p.2 = st) m ⊂ m) as Hsub.
    { apply map_subset_alt. split; [apply map_filter_subseteq|]. exists n.
      split; [|by eauto]. rewrite map_lookup_filter_None. right. intros. by simplify_eq/=. }
    apply map_subset_size in Hsub. lia.
  - intros H. f_equal. apply map_filter_id. intros n st' Hn. by apply (H n).
Qed.

Lemma having_empty st m : size (having st m) = 0 ↔ map_Forall (λ _ st', st' ≠ st) m.
Proof.
  rewrite size_empty_iff, leibniz_equiv_iff. split.
  - intros H n st' Hn ->. apply elem_of_having in Hn. set_solver.
  - intros H. apply set_eq. intros n. rewrite elem_of_having. split; [|set_solver].
    intros Hn. by destruct (H n st Hn).
Qed.

Lemma having_insert st st' n m :
  having st (<[n := st']> m) = if decide (st = st') then {[n]} ∪ having st m else having st m ∖ {[n]}.
Proof.
  apply set_eq. intros k. destruct (decide (n = k)) as [<-|Hne].
  - rewrite elem_of_having, lookup_insert_eq. case_decide; set_solver.
  - rewrite elem_of_having, lookup_insert_ne by done. rewrite <- elem_of_having. case_decide; set_solver.
Qed.

Lemma having_delete st n m : having st (delete n m) = having st m ∖ {[n]}.
Proof. apply set_eq. intros k. set_unfold. rewrite !elem_of_having, lookup_delete_Some. naive_solver. Qed.

(** Deleting a name from the set of its status deletes it from all sets. *)
Lemma having_other st m n st' : m !! n = Some st' → st' ≠ st → having st m ∖ {[n]} = having st m.
Proof. intros Hn Hne. apply set_eq. intros k. set_unfold. rewrite !elem_of_having. naive_solver. Qed.

Lemma having_none st m n : m !! n = None → having st m ∖ {[n]} = having st m.
Proof. intros Hn. apply set_eq. intros k. set_unfold. rewrite !elem_of_having. naive_solver. Qed.

Lemma insert_wf status n hc :
  wf hc → valid status →
  ∃ hc', insert_service status n (delete_service (default Unknown (serviceStatuses hc !! n)) n hc) = Some hc' ∧
    serviceStatuses hc' = serviceStatuses hc ∧ serviceWatchers hc' = serviceWatchers hc ∧
    unregisteredServiceStatus hc' = unregisteredServiceStatus hc ∧
    ∀ st, valid st → statusServices hc' !! st = Some (having st (<[n := status]> (serviceStatuses hc))).
Proof.
  intros [Hv Hi] Hs. set (old := default Unknown (serviceStatuses hc !! n)).
  assert (∀ st, valid st → statusServices (delete_service old n hc) !! st =
    Some (having st (serviceStatuses hc) ∖ {[n]})) as Hdel.
  { intros st Hst. simpl. destruct (decide (old = st)) as [<-|Hne]; [by rewrite lookup_alter_eq, (Hi _ Hst)|].
    rewrite lookup_alter_ne, (Hi _ Hst) by done. f_equal. symmetry.
    destruct (serviceStatuses hc !! n) as [st'|] eqn:E; [by eapply having_other|by apply having_none]. }
  unfold insert_service. rewrite (Hdel _ Hs). eexists. split; [reflexivity|]. split_and!; try done.
  intros st Hst. cbn [statusServices]. simpl. rewrite having_insert. case_decide as E.
  - subst st. rewrite lookup_insert_eq. f_equal. apply set_eq. intros k. set_unfold.
    destruct (decide (k = n)); naive_solver.
  - rewrite lookup_insert_ne by congruence. by apply Hdel.
Qed.

(** A well-formed state and what it means. *)
Record means (u : Z) (hc : HealthCheck) (s : spec) : Prop := {
  means_wf : wf hc;
  means_statuses : serviceStatuses hc = statuses s;
  means_watchers : serviceWatchers hc = watchers s;
  means_default : unregisteredServiceStatus hc = u
}.

Lemma update_means u hc s n st :
  means u hc s → valid st →
  ∃ hc', update n st hc = Some (notify n st hc, hc') ∧
    means u hc' (MkSpec (<[n := st]> (statuses s)) (watchers s)).
Proof.
  intros [Hwf Hs Hw Hu] Hst. destruct (insert_wf st n hc Hwf Hst) as (hc' & E & H1 & H2 & H3 & H4).
  unfold update. rewrite E. simpl. eexists. split; [unfold notify; simpl; by rewrite H2|].
  split; simpl; try congruence. split; simpl; [|intros st' ?; rewrite H1; by apply H4].
  rewrite H1. apply map_Forall_insert_2; [done|]. by apply Hwf.
Qed.

Lemma register_means u hc s n :
  means u hc s → statuses s !! n = None →
  ∃ hc', Register n hc = Some (true, notify n Unknown hc, hc') ∧
    means u hc' (MkSpec (<[n := Unknown]> (statuses s)) (watchers s)).
Proof.
  intros [[Hv Hi] Hs Hw Hu] Hn. unfold Register. rewrite Hs, Hn. unfold insert_service. simpl.
  rewrite (Hi Unknown) by (by left). simpl. eexists. split; [reflexivity|]. split; simpl; try congruence.
  split; simpl.
  - apply map_Forall_insert_2; [by left|]. by rewrite <- Hs.
  - intros st Hst. rewrite having_insert, <- Hs. case_decide as E; [subst; by rewrite lookup_insert_eq|].
    rewrite lookup_insert_ne by congruence. rewrite having_none by congruence. by apply Hi.
Qed.

Lemma unregister_means u hc s n :
  means u hc s → means u (Unregister n hc) (MkSpec (delete n (statuses s)) (watchers s)).
Proof.
  intros [[Hv Hi] Hs Hw Hu]. split; simpl; try congruence. split; simpl.
  - by apply map_Forall_delete.
  - intros st Hst. rewrite having_delete. destruct (decide (default Unknown (serviceStatuses hc !! n) = st)) as [<-|Hne].
    { by rewrite lookup_alter_eq, (Hi _ Hst). }
    rewrite lookup_alter_ne, (Hi _ Hst) by done. f_equal. symmetry.
    destruct (serviceStatuses hc !! n) as [st'|] eqn:E; [by eapply having_other|by apply having_none].
Qed.

Lemma perform_means u hc s c :
  means u hc s → valid_call c →
  ∃ hc', perform hc c = Some ((spec_perform s c).1, hc') ∧ means u hc' (spec_perform s c).2.
Proof.
  intros Hm Hc. pose proof Hm as [Hwf Hs Hw Hu]. destruct c as [n|n st|n|n w]; simpl.
  - destruct (statuses s !! n) as [st|] eqn:E.
    + unfold Register. rewrite Hs, E. simpl. eauto.
    + destruct (register_means u hc s n Hm E) as (hc' & -> & ?). simpl. exists hc'. unfold notify. by rewrite Hw.
  - destruct (update_means u hc s n st Hm Hc) as (hc' & -> & ?). exists hc'. unfold notify. by rewrite Hw.
  - eexists. split; [done|]. by apply unregister_means.
  - eexists. split; [done|]. destruct Hwf as [Hv Hi]. split; simpl; [by split|done|by rewrite Hw|done].
Qed.

Lemma performs_means u hc s cs :
  means u hc s → Forall valid_call cs →
  ∃ hc', performs hc cs = Some ((spec_performs s cs).1, hc') ∧ means u hc' (spec_performs s cs).2.
Proof.
  intros Hm Hc. revert hc s Hm. induction Hc as [|c cs Hc _ IH]; intros hc s Hm; simpl; [by eauto|].
  destruct (perform_means u hc s c Hm Hc) as (hc1 & -> & Hm1). simpl.
  destruct (spec_perform s c) as [l s1]. destruct (IH _ _ Hm1) as (hc2 & E & Hm2). simpl in *. rewrite E. simpl.
  destruct (spec_performs s1 cs) as [l' s2]. eauto.
Qed.

Lemma CheckServer_means u hc s : means u hc s → CheckServer hc = server_status (statuses s).
Proof.
  intros [[_ Hi] Hs _ _]. unfold CheckServer, server_status.
  rewrite (Hi Serving), (Hi Unknown), Hs by (unfold valid; auto). simpl.
  destruct (Nat.eqb_spec (size (having Serving (statuses s))) (size (statuses s))) as [H|H]; rewrite having_size in H.
  - by rewrite decide_True.
  - rewrite decide_False by done.
    destruct (Nat.eqb_spec (size (having Unknown (statuses s))) 0) as [H'|H']; rewrite having_empty in H'; simpl.
    + by rewrite decide_True.
    + by rewrite decide_False.
Qed.

Lemma New_means u ws :
  means u (New [WithUnregisteredServiceStatus u; WithStatusWatchers ws]) (MkSpec ∅ ws).
Proof.
  split; [split|..]; try done. intros st [-> | [-> | ->]]; by vm_compute.
Qed.

(** C30. Health check.  Any sequence of calls, with updates to one of the three statuses, runs without a
    panic and calls exactly the watchers of a service, in order, for each registration and update;
    the status of a service is the last one that was set, or that for services that are not
    registered, and the server serves exactly if all services do, is unknown exactly if it does not serve
    and a service is unknown, although the code only counts the entries of an index. *)
Theorem HealthCheck_correct u ws cs :
  Forall valid_call cs →
  ∃ hc, performs (New [WithUnregisteredServiceStatus u; WithStatusWatchers ws]) cs =
      Some ((spec_performs (MkSpec ∅ ws) cs).1, hc) ∧
    let m := statuses (spec_performs (MkSpec ∅ ws) cs).2 in
    wf hc ∧ (∀ name, CheckService name hc = default u (m !! name)) ∧ CheckServer hc = server_status m.
Proof.
  intros Hc. destruct (performs_means u _ _ cs (New_means u ws) Hc) as (hc & E & Hm). exists hc.
  split; [done|]. split_and!; [apply Hm| |by eapply CheckServer_means].
  intros name. unfold CheckService. by destruct Hm as [_ -> _ ->].
Qed.

Module HealthCheckExamples.
(** An update after the service was unregistered registers it again. *)
Lemma update_registers_again :
  CheckService "a" (Unregister "a" (New [])) = Unknown ∧
  (λ p, serviceStatuses p.2) <$> performs (New []) [CRegister "a"; CUnregister "a"; CUpdate "a" Serving] =
    Some {["a" := Serving]}.
Proof. split; vm_compute; reflexivity. Qed.

(** A status that is not one of the three: the store to a nil map panics. *)
Lemma other_status_panics : performs (New []) [CRegister "a"; CUpdate "a" 3] = None.
Proof. vm_compute. reflexivity. Qed.

Definition calls : list call :=
  [CRegister "a"; CWatch "a" 7; CRegister "b"; CUpdate "a" Serving; CUpdate "b" NotServing].

Lemma HealthCheck_correct_witness :
  Forall valid_call calls ∧
  ∃ hc, performs (New [WithUnregisteredServiceStatus 0; WithStatusWatchers ∅]) calls = Some ([(7, 1%Z)], hc) ∧
    CheckServer hc = NotServing.
Proof.
  assert (Forall valid_call calls) as Hc by (repeat constructor; unfold valid_call, valid; auto).
  split; [exact Hc|]. destruct (HealthCheck_correct 0 ∅ calls Hc) as (hc & E & _ & _ & Hs).
  exists hc. split; [exact E|]. rewrite Hs. vm_compute. reflexivity.
Defined.
End HealthCheckExamples.
