(* ===== verification/Rpcz.v ===== *)
(** Tracing (rpcz/): the bounded store of spans, the spans and the pool that they are taken from.

    A span is an object on a heap that is reused: [newSpan] may take one from the pool, which is a
    [sync.Pool] - it gives any span that was put, or a new one.  A time is an integer, 0 is the
    zero time; the clock, the generator of ids and the choice of the pool are arguments. *)

From S2P Require Import Prelude.
From stdpp Require Import strings.

(** ** The circular array (rpcz/spanarray.go) *)

Section span_array.
Context {A : Type}.

(** The cells that were never written hold nil. *)
Record spanArray := MkArray { capacity : Z; length_ : Z; data : list (option A); head_ : Z; tail_ : Z }.
#[global] Instance eta_spanArray : Eta spanArray := λ a,
  MkArray (capacity a) (length_ a) (data a) (head_ a) (tail_ a).

(** [None] is the panic for a capacity of 0. *)
Definition newSpanArray (cap : Z) : option spanArray :=
  if (cap =? 0)%Z then None else Some (MkArray cap 0 (replicate (Z.to_nat cap) None) 0 0).

Definition nextIndex (a : spanArray) (index : Z) : Z := u32 (index + 1) mod capacity a.
Definition previousIndex (a : spanArray) (index : Z) : Z := u32 (u32 (index + capacity a) - 1) mod capacity a.
Definition full (a : spanArray) : bool := (capacity a <=? length_ a)%Z.

(** An index is always below the capacity; a nil cell is not read. *)
Definition front (a : spanArray) : option A := mjoin (data a !! Z.to_nat (head_ a)).

Definition dequeue_span (a : spanArray) : spanArray :=
  a <| head_ := nextIndex a (head_ a) |> <| length_ := u32 (length_ a - 1) |>.

Definition enqueue_span (a : spanArray) (value : A) : spanArray :=
  let a := if full a then dequeue_span a else a in
  a <| data := <[Z.to_nat (tail_ a) := Some value]> (data a) |>
    <| tail_ := nextIndex a (tail_ a) |> <| length_ := u32 (length_ a + 1) |>.

(** [doBackward] with the cells that it visits, as far as [f] wants. *)
Fixpoint doBackward_loop {S} (f : A → S → S * bool) (a : spanArray) (n : nat) (iter : Z) (s : S) : option S :=
  match n with
  | O => Some s
  | Datatypes.S n =>
    let iter := previousIndex a iter in
    v ← mjoin (data a !! Z.to_nat iter);
    let '(s, more) := f v s in
    if more then doBackward_loop f a n iter s else Some s
  end.
Definition doBackward {S} (f : A → S → S * bool) (a : spanArray) (s : S) : option S :=
  doBackward_loop f a (Z.to_nat (length_ a)) (tail_ a) s.

(** The array holds the list [l], oldest first. *)
Record holds (a : spanArray) (l : list A) : Prop := {
  holds_capacity : (0 < capacity a ≤ 2 ^ 31)%Z;
  holds_data : zlen (data a) = capacity a;
  holds_head : (0 ≤ head_ a < capacity a)%Z;
  holds_length : length_ a = zlen l;
  holds_fits : (zlen l ≤ capacity a)%Z;
  holds_tail : tail_ a = ((head_ a + zlen l) mod capacity a)%Z;
  holds_cells i x : l !! i = Some x →
    data a !! Z.to_nat ((head_ a + Z.of_nat i) mod capacity a) = Some (Some x)
}.

Lemma nextIndex_small a i :
  (0 < capacity a ≤ 2 ^ 31)%Z → (0 ≤ i < capacity a)%Z → nextIndex a i = ((i + 1) mod capacity a)%Z.
Proof. intros. unfold nextIndex. rewrite u32_small; [done|]. unfold is_u32. lia. Qed.

Lemma previousIndex_small a i :
  (0 < capacity a ≤ 2 ^ 31)%Z → (0 ≤ i < capacity a)%Z →
  previousIndex a i = ((i + capacity a - 1) mod capacity a)%Z.
Proof. intros. unfold previousIndex. rewrite !(u32_small (i + _)), u32_small; [done|..]; unfold is_u32; lia. Qed.

Lemma newSpanArray_holds cap : (0 < cap ≤ 2 ^ 31)%Z → ∃ a, newSpanArray cap = Some a ∧ holds a [].
Proof.
  intros H. unfold newSpanArray. destruct (Z.eqb_spec cap 0); [lia|]. eexists. split; [done|].
  split; simpl; try done; unfold zlen; simpl; rewrite ?length_replicate; lia.
Qed.

Lemma front_holds a x l : holds a (x :: l) → front a = Some x.
Proof.
  intros [Hc Hd Hh _ _ _ Hcell]. unfold front. pose proof (Hcell 0 x eq_refl) as H.
  rewrite Z.add_0_r, Z.mod_small in H by lia. by rewrite H.
Qed.

Lemma dequeue_holds a x l : holds a (x :: l) → holds (dequeue_span a) l.
Proof.
  intros [Hc Hd Hh Hl Hf Ht Hcell]. unfold zlen in *. simpl in *.
  unfold dequeue_span. rewrite nextIndex_small by lia. split; simpl; try done; unfold zlen in *.
  - apply Z.mod_pos_bound. lia.
  - rewrite u32_small; [lia|]. unfold is_u32. lia.
  - lia.
  - rewrite Ht. rewrite Zplus_mod_idemp_l. f_equal. lia.
  - intros i y Hi. rewrite Zplus_mod_idemp_l. rewrite <- (Hcell (S i) y Hi). f_equal. f_equal. f_equal. lia.
Qed.

(** Two cells of the window are different. *)
Lemma cell_inj a (h i j : Z) :
  (0 < a)%Z → (0 ≤ i < a)%Z → (0 ≤ j < a)%Z → ((h + i) mod a = (h + j) mod a)%Z → i = j.
Proof.
  intros Ha Hi Hj H. assert (((h + i) - (h + j)) mod a = 0)%Z as E.
  { rewrite Zminus_mod, H, Z.sub_diag. done. }
  replace (h + i - (h + j))%Z with (i - j)%Z in E by lia.
  apply Z.mod_divide in E as [k E]; [|lia]. destruct (Z.lt_trichotomy k 0) as [?|[->|?]]; [nia|lia|nia].
Qed.

Lemma enqueue_holds a l x : holds a l → (zlen l < capacity a)%Z → holds (enqueue_span a x) (l ++ [x]).
Proof.
  intros [Hc Hd Hh Hl Hf Ht Hcell] Hlt. pose proof (zlen_nonneg l).
  assert (0 ≤ tail_ a < capacity a)%Z as Hta by (rewrite Ht; apply Z.mod_pos_bound; lia).
  unfold enqueue_span, full. rewrite Hl. destruct (Z.leb_spec (capacity a) (zlen l)); [lia|].
  cbv zeta. rewrite nextIndex_small by lia.
  split; simpl; try done; rewrite ?zlen_app; change (zlen [x]) with 1%Z.
  - unfold zlen in *. by rewrite length_insert.
  - rewrite Hl, u32_small; [done|]. unfold is_u32. lia.
  - lia.
  - rewrite Ht, Zplus_mod_idemp_l. f_equal. lia.
  - intros i y Hi. rewrite Ht. apply lookup_app_Some in Hi as [Hi|[Hge Hi]].
    + rewrite list_lookup_insert_ne; [by apply Hcell|]. intros E. apply lookup_lt_Some in Hi.
      unfold zlen in *. apply Z2Nat.inj in E; [|apply Z.mod_pos_bound; lia..].
      apply cell_inj in E; lia.
    + apply list_lookup_singleton_Some in Hi as [Hi <-]. assert (Z.of_nat i = zlen l) as -> by (unfold zlen in *; lia).
      apply list_lookup_insert_eq. rewrite <- Ht. unfold zlen in *. lia.
Qed.

(** Backward is from the newest to the oldest. *)
Lemma doBackward_loop_holds {S} (f : A → S → S * bool) a l n s :
  holds a l → n ≤ length l →
  doBackward_loop f a n ((head_ a + Z.of_nat n) mod capacity a) s =
  Some ((fix go (l : list A) s := match l with
                                  | [] => s
                                  | v :: l => let '(s, more) := f v s in if more then go l s else s
                                  end) (reverse (take n l)) s).
Proof.
  intros H. pose proof H as [Hc Hd Hh Hl Hf Ht Hcell]. revert s. induction n as [|n IH]; intros s Hn; [done|].
  destruct (lookup_lt_is_Some_2 l n ltac:(lia)) as [x Hx].
  rewrite (take_S_r _ _ _ Hx), reverse_snoc. simpl doBackward_loop.
  assert (previousIndex a ((head_ a + Z.of_nat (Datatypes.S n)) mod capacity a) = ((head_ a + Z.of_nat n) mod capacity a)%Z) as ->.
  { rewrite previousIndex_small; [|lia|apply Z.mod_pos_bound; lia].
    replace ((head_ a + Z.of_nat (Datatypes.S n)) mod capacity a + capacity a - 1)%Z
      with ((head_ a + Z.of_nat (Datatypes.S n)) mod capacity a + (capacity a - 1))%Z by lia.
    rewrite Zplus_mod_idemp_l. replace (head_ a + Z.of_nat (Datatypes.S n) + (capacity a - 1))%Z
      with (head_ a + Z.of_nat n + 1 * capacity a)%Z by lia. by rewrite Z_mod_plus_full. }
  rewrite (Hcell _ _ Hx). simpl. destruct (f x s) as [s' []]; [|done]. by rewrite IH by lia.
Qed.
End span_array.
Arguments spanArray A : clear implicits.

(** ** Spans (rpcz/span.go), their store (rpcz/spanstore.go) and their recorder (rpcz/rpcz.go) *)

(** A span is recorded by the [RPCZ] or by its parent span. *)
Inductive recorder := ByRPCZ | BySpan (a : nat).

Section rpcz.
Context {V : Type}.

Record span := MkSpan {
  id : Z;
  name : string;
  parent : option recorder;
  startTime : Z;
  endTime : Z;
  childSpans : list nat;
  events : list (string * Z);
  attributes : list (string * V)
}.
#[global] Instance eta_span : Eta span := λ s,
  MkSpan (id s) (name s) (parent s) (startTime s) (endTime s) (childSpans s) (events s) (attributes s).

Definition zero_span : span := MkSpan 0 "" None 0 0 [] [] [].
Definition nilSpanID : Z := -1.

(** A span as it is given to a reader. *)
Inductive ReadOnlySpan := MkReadOnlySpan (id : Z) (name : string) (startTime endTime : Z)
  (childSpans : list ReadOnlySpan) (events : list (string * Z)) (attributes : list (string * V)).

Record spanStore := MkStore { idSpans : gmap Z nat; spans : spanArray nat }.
#[global] Instance eta_spanStore : Eta spanStore := λ s, MkStore (idSpans s) (spans s).

Record state := MkState {
  heap : list span;
  pool : list nat;
  store : spanStore;
  exports : list ReadOnlySpan
}.
#[global] Instance eta_state : Eta state := λ s, MkState (heap s) (pool s) (store s) (exports s).

(** [NewRPCZ]: the bound of the sampler stands for the fraction that it is computed from. *)
Record RPCZ := MkRPCZ {
  shouldRecord : state → nat → bool;
  spanIDUpperBound : Z;
  exporter : bool;
  enabled : bool
}.

Definition newSpanStore (cap : Z) : option spanStore := MkStore ∅ <$> newSpanArray cap.

Definition upd (a : nat) (f : span → span) (s : state) : state := s <| heap := alter f a (heap s) |>.

(** *** The methods of a span *)

(** The last value with a name. *)
Definition last_named {X} (n : string) (l : list (string * X)) : option X :=
  (λ p, p.2.2) <$> list_find (λ e, e.1 = n) (reverse l).

Definition AddEvent (a : nat) (n : string) (now : Z) : state → state :=
  upd a (λ s, s <| events := events s ++ [(n, now)] |>).
Definition Event (n : string) (s : span) : option Z := last_named n (events s).
Definition SetAttribute (a : nat) (n : string) (value : V) : state → state :=
  upd a (λ s, s <| attributes := attributes s ++ [(n, value)] |>).
Definition Attribute (n : string) (s : span) : option V := last_named n (attributes s).

(** The first child with the name. *)
Definition Child (n : string) (s : state) (a : nat) : option nat :=
  sp ← heap s !! a;
  (λ p, p.2) <$> list_find (λ c, name <$> heap s !! c = Some n) (childSpans sp).

(** One occurrence is taken out. *)
Fixpoint take_one (a : nat) (l : list nat) : option (list nat) :=
  match l with
  | [] => None
  | b :: l => if decide (a = b) then Some l else (b ::.) <$> take_one a l
  end.

(** [spanPool.Get] with the choice of the pool: a span that was put, or a new one. *)
Definition Get (choice : option nat) (s : state) : option (nat * state) :=
  match choice with
  | Some a => l ← take_one a (pool s); Some (a, s <| pool := l |>)
  | None => Some (length (heap s), s <| heap := heap s ++ [zero_span] |>)
  end.

Definition newSpan (choice : option nat) (n : string) (i : Z) (r : recorder) (now : Z) (s : state)
    : option (nat * state) :=
  '(a, s) ← Get choice s;
  Some (a, upd a (λ sp, sp <| id := i |> <| name := n |> <| parent := Some r |> <| startTime := now |>) s).

(** [span.NewChild] *)
Definition NewChild (p : nat) (choice : option nat) (n : string) (now : Z) (s : state) : option (nat * state) :=
  sp ← heap s !! p;
  '(a, s) ← newSpan choice n (id sp) (BySpan p) now s;
  Some (a, upd p (λ sp, sp <| childSpans := childSpans sp ++ [a] |>) s).

(** What [putSpanToPool] sets.  The children are forgotten after the loop over them, under the same
    lock; the loop ranges over the slice that was there before. *)
Definition reset (sp : span) : span := MkSpan nilSpanID "" None 0 0 [] [] [].

Fixpoint putSpanToPool (n : nat) (a : nat) (s : state) : option state :=
  match n with
  | O => None
  | S n =>
    sp ← heap s !! a;
    s ← foldl (λ (r : option state) c,
           s ← r;
           cs ← heap s !! c;
           if (endTime cs =? 0)%Z then Some s else putSpanToPool n c s)
         (Some (upd a reset s)) (childSpans sp);
    Some (s <| pool := a :: pool s |>)
  end.

(** Every call in the recursion resets a span that was ended: as many calls as spans are enough. *)
Definition put (a : nat) (s : state) : option state := putSpanToPool (S (length (heap s))) a s.

(** [span.record] *)
Definition record_child (p c : nat) (s : state) : option state :=
  sp ← heap s !! p;
  if decide (c ∈ childSpans sp) then Some s else put c s.

Fixpoint convertedToReadOnlySpan (n : nat) (s : state) (a : nat) : option ReadOnlySpan :=
  match n with
  | O => None
  | S n =>
    sp ← heap s !! a;
    cs ← mapM (convertedToReadOnlySpan n s) (childSpans sp);
    Some (MkReadOnlySpan (id sp) (name sp) (startTime sp) (endTime sp) cs (events sp) (attributes sp))
  end.
Definition convert (s : state) (a : nat) : option ReadOnlySpan := convertedToReadOnlySpan (length (heap s)) s a.

(** *** The store *)

Definition insert (a : nat) (s : state) : option state :=
  s ← (if full (spans (store s)) then
         expired ← front (spans (store s));
         sp ← heap s !! expired;
         put expired (s <| store := MkStore (delete (id sp) (idSpans (store s))) (dequeue_span (spans (store s))) |>)
       else Some s);
  sp ← heap s !! a;
  Some (s <| store := MkStore (<[id sp := a]> (idSpans (store s))) (enqueue_span (spans (store s)) a) |>).

Definition query (i : Z) (s : state) : option (option ReadOnlySpan) :=
  match idSpans (store s) !! i with
  | None => Some None
  | Some a => r ← convert s a; Some (Some r)
  end.

(** The spans that [batchQuery] converts. *)
Definition batch (num : Z) (s : state) : option (list nat) :=
  snd <$> doBackward (λ a '(num, l), if (num <=? 0)%Z then ((num, l), false) else (((num - 1)%Z, l ++ [a]), true))
    (spans (store s)) (num, []).
Definition batchQuery (num : Z) (s : state) : option (list ReadOnlySpan) := l ← batch num s; mapM (convert s) l.

(** *** The recorder *)

(** [RPCZ.record] *)
Definition record_root (z : RPCZ) (a : nat) (s : state) : option state :=
  if shouldRecord z s a then
    s ← (if exporter z then r ← convert s a; Some (s <| exports := exports s ++ [r] |>) else Some s);
    insert a s
  else Some s.

Definition record_ (z : RPCZ) (r : recorder) (a : nat) (s : state) : option state :=
  match r with ByRPCZ => record_root z a s | BySpan p => record_child p a s end.

Definition trySetEndTime (a : nat) (t : Z) (s : state) : option (bool * state) :=
  sp ← heap s !! a;
  if (endTime sp =? 0)%Z then Some (true, upd a (λ sp, sp <| endTime := t |>) s) else Some (false, s).

(** The second half of [span.End], after [trySetEndTime] answered true; the method of the nil recorder
    panics. *)
Definition End_record (z : RPCZ) (a : nat) (s : state) : option state :=
  sp ← heap s !! a;
  r ← parent sp;
  record_ z r a s.

(** [RPCZ.NewChild] with the id that the generator gives; no span if it is not sampled. *)
Definition shouldSample (z : RPCZ) (i : Z) : bool := (i <? spanIDUpperBound z)%Z.
Definition NewRoot (z : RPCZ) (choice : option nat) (n : string) (i now : Z) (s : state)
    : option (option nat * state) :=
  if negb (enabled z) then Some (None, s)
  else if negb (shouldSample z i) then Some (None, s)
  else '(a, s) ← newSpan choice n i ByRPCZ now s; Some (Some a, s).

(** ** Who refers to a span

    [open] are the spans that were given out and are not ended; [stored] are those in the store, oldest
    first; [busy] are spans that nothing refers to but the operation that runs. *)

Record clean (sp : span) : Prop := {
  clean_end : endTime sp = 0%Z;
  clean_children : childSpans sp = [];
  clean_events : events sp = [];
  clean_attributes : attributes sp = []
}.

Record owned (s : state) (open stored busy : list nat) : Prop := {
  o_pool : NoDup (pool s);
  o_clean a : a ∈ pool s → ∃ sp, heap s !! a = Some sp ∧ clean sp;
  o_open : NoDup open;
  o_open_in a : a ∈ open → a ∉ pool s ∧
    ∃ sp r, heap s !! a = Some sp ∧ endTime sp = 0%Z ∧ parent sp = Some r ∧
      match r with BySpan p => p < length (heap s) | ByRPCZ => True end;
  o_stored : NoDup stored;
  o_stored_in a : a ∈ stored → a ∉ pool s ∧ a ∉ busy ∧
    ∃ sp, heap s !! a = Some sp ∧ endTime sp ≠ 0%Z ∧ parent sp = Some ByRPCZ;
  o_children p sp : heap s !! p = Some sp → NoDup (childSpans sp);
  o_child p sp c : heap s !! p = Some sp → c ∈ childSpans sp →
    c ∉ pool s ∧ c ∉ busy ∧ ∃ csp, heap s !! c = Some csp ∧ parent csp = Some (BySpan p);
  o_busy : NoDup busy;
  o_busy_in a : a ∈ busy → a ∉ pool s ∧ a < length (heap s);
  o_rank : ∃ rank : nat → nat, ∀ p sp c, heap s !! p = Some sp → c ∈ childSpans sp → rank p < rank c
}.

(** The spans that are ended bound the depth of the recursion. *)
Definition ended (l : list span) : nat := length (filter (λ sp, endTime sp ≠ 0%Z) l).

Lemma ended_reset l a sp : l !! a = Some sp → endTime sp ≠ 0%Z → ended (alter reset a l) < ended l.
Proof.
  unfold ended. revert a. induction l as [|x l IH]; intros [|a] Hl Hn; simplify_eq/=.
  - rewrite !filter_cons. case_decide; [by simpl in *|]. case_decide; [simpl; lia|done].
  - specialize (IH _ Hl Hn). rewrite !filter_cons. case_decide; simpl; lia.
Qed.

Lemma ended_le l : ended l ≤ length l.
Proof. apply length_filter. Qed.

Lemma span_lookup a f s b x : heap s !! b = Some x → heap (upd a f s) !! b = Some (if decide (a = b) then f x else x).
Proof. apply alter_lookup. Qed.

Lemma span_lookup_inv a f s b y :
  heap (upd a f s) !! b = Some y → ∃ x, heap s !! b = Some x ∧ y = if decide (a = b) then f x else x.
Proof. apply alter_lookup_inv. Qed.

Lemma owned_less s open stored b busy : owned s open stored (b :: busy) → owned s open stored busy.
Proof.
  intros [H1 H2 H3 H4 H5 H6 H7 H8 H9 H10 H11]. split; try done.
  - intros a Ha. destruct (H6 a Ha) as (? & Hb & ?). split_and!; [done|set_solver|done].
  - intros p sp c Hp Hc. destruct (H8 p sp c Hp Hc) as (? & Hb & ?). split_and!; [done|set_solver|done].
  - by apply NoDup_cons in H9 as [_ ?].
  - intros a Ha. apply H10. set_solver.
Qed.

(** [putSpanToPool] forgets the children first. *)
Lemma owned_reset s open stored busy a sp :
  owned s open stored (a :: busy) → a ∉ open → heap s !! a = Some sp →
  owned (upd a reset s) open stored (childSpans sp ++ a :: busy).
Proof.
  intros [H1 H2 H3 H4 H5 H6 H7 H8 H9 H10 [rank H11]] Hao Hsp.
  assert (∀ b x, a ≠ b → heap s !! b = Some x → heap (upd a reset s) !! b = Some x) as Hother.
  { intros b x Hne Hb. rewrite (span_lookup _ _ _ _ _ Hb). by rewrite decide_False. }
  split; try done.
  - intros b Hb. destruct (H2 b Hb) as (x & Hx & ?). exists x. split; [|done]. apply Hother; [|done].
    intros ->. destruct (H10 b); set_solver.
  - intros b Hb. destruct (H4 b Hb) as (? & x & r & Hx & ? & ? & Hr). split; [done|]. exists x, r.
    split_and!; [apply Hother; [congruence|done]|done|done|]. simpl. by rewrite length_alter.
  - intros b Hb. destruct (H6 b Hb) as (? & Hnb & x & Hx & ? & Hp). split_and!; [done| |].
    + apply not_elem_of_app. split; [|done]. intros Hc.
      destruct (H8 a sp b Hsp Hc) as (_ & _ & y & Hy & Hpy). congruence.
    + exists x. split; [|done]. apply Hother; [set_solver|done].
  - intros p x Hx. destruct (span_lookup_inv _ _ _ _ _ Hx) as (y & Hy & ->).
    case_decide; [apply NoDup_nil_2|by eapply H7].
  - intros p x c Hx Hc. destruct (span_lookup_inv _ _ _ _ _ Hx) as (y & Hy & ->).
    case_decide as E; [by apply elem_of_nil in Hc|].
    destruct (H8 p y c Hy Hc) as (? & Hcb & z & Hz & Hpz). split_and!; [done| |].
    + apply not_elem_of_app. split; [|done]. intros Hc'.
      destruct (H8 a sp c Hsp Hc') as (_ & _ & y' & Hy' & Hpy). congruence.
    + exists z. split; [|done]. apply Hother; [set_solver|done].
  - apply NoDup_app. split_and!; [by eapply H7| |done]. intros c Hc Hcb. by destruct (H8 a sp c Hsp Hc) as (_ & ? & _).
  - intros b Hb. simpl. rewrite length_alter. apply elem_of_app in Hb as [Hb|Hb]; [|by apply H10].
    destruct (H8 a sp b Hsp Hb) as (? & _ & y & Hy & _). split; [done|]. by eapply lookup_lt_Some.
  - exists rank. intros p x c Hx Hc. destruct (span_lookup_inv _ _ _ _ _ Hx) as (y & Hy & ->).
    case_decide; [by apply elem_of_nil in Hc|by eapply H11].
Qed.

(** A span that nothing refers to goes into the pool. *)
Lemma owned_put s open stored busy a sp :
  owned s open stored (a :: busy) → a ∉ open → heap s !! a = Some sp → clean sp →
  owned (s <| pool := a :: pool s |>) open stored busy.
Proof.
  intros Ho Hao Hsp Hcl. pose proof (owned_less _ _ _ _ _ Ho) as [H1 H2 H3 H4 H5 H6 H7 H8 H9 H10 H11].
  destruct Ho as [_ _ _ _ _ G6 _ G8 G9 G10 _].
  assert (a ∉ pool s) as Hap by (by apply G10; left).
  split; simpl; try done.
  - by apply NoDup_cons.
  - intros b [->|Hb]%elem_of_cons; eauto.
  - intros b Hb. destruct (H4 b Hb) as (? & ?). split; [|done]. apply not_elem_of_cons. split; [congruence|done].
  - intros b Hb. destruct (H6 b Hb) as (? & ? & ?). destruct (G6 b Hb) as (_ & ? & _). split_and!; [set_solver|done|done].
  - intros p x c Hx Hc. destruct (H8 p x c Hx Hc) as (? & ? & ?). destruct (G8 p x c Hx Hc) as (_ & ? & _).
    split_and!; [set_solver|done|done].
  - intros b Hb. destruct (H10 b Hb). split; [|done]. apply NoDup_cons in G9 as [? _]. set_solver.
Qed.

(** What putting spans into the pool leaves alone. *)
Record kept (s s' : state) : Prop := {
  kept_length : length (heap s') = length (heap s);
  kept_pool : pool s ⊆ pool s';
  kept_ended : ended (heap s') ≤ ended (heap s);
  kept_store : store s' = store s;
  kept_exports : exports s' = exports s;
  kept_heap a : a ∉ pool s' → heap s' !! a = heap s !! a
}.

Lemma kept_trans s1 s2 s3 : kept s1 s2 → kept s2 s3 → kept s1 s3.
Proof.
  intros [] []. split; try congruence; [set_solver|lia|]. intros a Ha.
  rewrite kept_heap1 by done. apply kept_heap0. set_solver.
Qed.

Lemma put_ok n a s sp open stored busy :
  owned s open stored (a :: busy) → a ∉ open → heap s !! a = Some sp → endTime sp ≠ 0%Z → ended (heap s) < n →
  ∃ s', putSpanToPool n a s = Some s' ∧ owned s' open stored busy ∧ kept s s'.
Proof.
  revert a s sp busy. induction n as [|n IH]; intros a s sp busy Ho Hao Hsp Hend Hn; [lia|].
  simpl. rewrite Hsp. simpl.
  assert (∀ cs s1, owned s1 open stored (cs ++ a :: busy) → ended (heap s1) < n →
    ∃ s2, foldl (λ (r : option state) c,
             s ← r; cs ← heap s !! c; if (endTime cs =? 0)%Z then Some s else putSpanToPool n c s) (Some s1) cs = Some s2 ∧
      owned s2 open stored (a :: busy) ∧ kept s1 s2) as Hloop.
  { induction cs as [|c cs IHc]; intros s1 Ho1 Hn1; [by exists s1|]. simpl.
    destruct (o_busy_in _ _ _ _ Ho1 c) as [_ Hc]; [by left|]. destruct (lookup_lt_is_Some_2 _ _ Hc) as [csp Hcsp].
    rewrite Hcsp. simpl. destruct (Z.eqb_spec (endTime csp) 0) as [Hz|Hz].
    - apply IHc; [by eapply owned_less|done].
    - assert (c ∉ open) as Hco. { intros Hin. by destruct (o_open_in _ _ _ _ Ho1 c Hin) as (_ & ? & ? & ? & ? & _); simplify_eq. }
      destruct (IH c s1 csp (cs ++ a :: busy) Ho1 Hco Hcsp Hz Hn1) as (s2 & -> & Ho2 & Hk2).
      destruct (IHc s2 Ho2) as (s3 & -> & Ho3 & Hk3); [destruct Hk2; lia|].
      exists s3. split_and!; [done|done|by eapply kept_trans]. }
  pose proof (owned_reset _ _ _ _ _ _ Ho Hao Hsp) as Ho1.
  assert (ended (heap (upd a reset s)) < ended (heap s)) as Hlt by (by eapply ended_reset).
  destruct (Hloop _ _ Ho1 ltac:(lia)) as (s2 & -> & Ho2 & [K1 K2 K3 K4 K5 K6]).
  exists (s2 <| pool := a :: pool s2 |>). split; [done|].
  assert (a ∉ pool s2) as Hap by (by apply (o_busy_in _ _ _ _ Ho2); left).
  assert (heap s2 !! a = Some (reset sp)) as Ha.
  { rewrite K6 by done. rewrite (span_lookup _ _ _ _ _ Hsp). by rewrite decide_True. }
  split; [by eapply owned_put|]. split; simpl; try done.
  - rewrite K1. simpl. by rewrite length_alter.
  - simpl in K2. set_solver.
  - lia.
  - intros b Hb. apply not_elem_of_cons in Hb as [Hne Hb]. rewrite K6 by done. simpl.
    by rewrite list_lookup_alter_ne.
Qed.

Lemma put_owned a s sp open stored busy :
  owned s open stored (a :: busy) → a ∉ open → heap s !! a = Some sp → endTime sp ≠ 0%Z →
  ∃ s', put a s = Some s' ∧ owned s' open stored busy ∧ kept s s'.
Proof. intros. eapply put_ok; eauto. pose proof (ended_le (heap s)). lia. Qed.

(** *** A span is given out *)

Lemma take_one_spec a l l' : take_one a l = Some l' → NoDup l → a ∈ l ∧ NoDup l' ∧ ∀ b, b ∈ l' ↔ b ∈ l ∧ b ≠ a.
Proof.
  revert l'. induction l as [|b l IH]; intros l' H Hn; [done|]. simpl in H.
  apply NoDup_cons in Hn as [Hb Hn]. case_decide as E; [simplify_eq; split_and!; [by left|done|]|].
  - intros c. set_unfold. naive_solver.
  - destruct (take_one a l) as [k|] eqn:Ek; simplify_eq/=. destruct (IH _ eq_refl Hn) as (H1 & H2 & H3).
    split_and!; [by right|apply NoDup_cons; split; [rewrite H3; naive_solver|done]|].
    intros c. rewrite !elem_of_cons, H3. naive_solver.
Qed.

Lemma Get_owned choice s a s' open stored :
  owned s open stored [] → Get choice s = Some (a, s') →
  owned s' open stored [a] ∧ a ∉ open ∧ (∃ sp, heap s' !! a = Some sp ∧ clean sp) ∧ store s' = store s ∧
  (∀ b sp, heap s !! b = Some sp → heap s' !! b = Some sp) ∧ length (heap s) ≤ length (heap s').
Proof.
  intros Ho. pose proof Ho as [H1 H2 H3 H4 H5 H6 H7 H8 H9 H10 [rank H11]].
  destruct choice as [b|]; simpl.
  - destruct (take_one b (pool s)) as [l|] eqn:E; [|done]. intros [= <- <-]. simpl.
    destruct (take_one_spec _ _ _ E H1) as (Hb & Hl & Hin). destruct (H2 b Hb) as (sp & Hsp & Hcl).
    split_and!; [|intros Hbo; by destruct (H4 b Hbo)|by eauto|done|done|done].
    split; simpl; try done.
    + intros c [Hc _]%Hin. eauto.
    + intros c Hc. destruct (H4 c Hc) as [? ?]. split; [rewrite Hin; naive_solver|done].
    + intros c Hc. destruct (H6 c Hc) as (? & _ & ?). split_and!; [rewrite Hin; naive_solver| |done].
      apply not_elem_of_cons. split; [congruence|apply not_elem_of_nil].
    + intros p x c Hp Hc. destruct (H8 p x c Hp Hc) as (? & _ & ?). split_and!; [rewrite Hin; naive_solver| |done].
      apply not_elem_of_cons. split; [congruence|apply not_elem_of_nil].
    + apply NoDup_singleton.
    + intros c ->%list_elem_of_singleton. split; [rewrite Hin; naive_solver|by eapply lookup_lt_Some].
    + eauto.
  - intros [= <- <-]. simpl. set (a := length (heap s)).
    assert (∀ b sp, heap s !! b = Some sp → (heap s ++ [zero_span]) !! b = Some sp) as Hold.
    { intros b sp Hb. by apply lookup_app_l_Some. }
    assert (∀ b sp, (heap s ++ [zero_span]) !! b = Some sp → heap s !! b = Some sp ∨ (b = a ∧ sp = zero_span)) as Hinv.
    { intros b sp [Hb|[Hge Hb]]%lookup_app_Some; [by left|right].
      apply list_lookup_singleton_Some in Hb as [Hb <-]. split; [unfold a; lia|done]. }
    assert (∀ b sp, heap s !! b = Some sp → b ≠ a) as Hne.
    { intros b sp Hb ->. apply lookup_lt_Some in Hb. unfold a in Hb. lia. }
    split_and!; [|intros Hao; destruct (H4 a Hao) as (_ & ? & ? & Ha & _); by destruct (Hne _ _ Ha)| |done|done|rewrite length_app; lia].
    2:{ exists zero_span. split; [unfold a; by rewrite lookup_app_r, Nat.sub_diag|by split]. }
    split; simpl; try done.
    + intros b Hb. destruct (H2 b Hb) as (sp & ? & ?). eauto.
    + intros b Hb. destruct (H4 b Hb) as (? & sp & r & ? & ? & ? & Hr). split; [done|]. exists sp, r. split_and!; eauto.
      destruct r; [done|]. rewrite length_app. lia.
    + intros b Hb. destruct (H6 b Hb) as (? & _ & sp & Hsp & ?). split_and!; [done| |eauto].
      apply not_elem_of_cons. split; [by eapply Hne|apply not_elem_of_nil].
    + intros p sp [Hp|[_ ->]]%Hinv; [by eapply H7|apply NoDup_nil_2].
    + intros p sp c [Hp|[_ ->]]%Hinv Hc; [|by apply elem_of_nil in Hc].
      destruct (H8 p sp c Hp Hc) as (? & _ & csp & Hcs & ?). split_and!; [done| |eauto].
      apply not_elem_of_cons. split; [by eapply Hne|apply not_elem_of_nil].
    + apply NoDup_singleton.
    + intros b ->%list_elem_of_singleton. split; [|rewrite length_app; simpl; unfold a; lia].
      intros Hap. destruct (H2 a Hap) as (? & Ha & _). by destruct (Hne _ _ Ha).
    + exists rank. intros p sp c [Hp|[_ ->]]%Hinv Hc; [by eapply H11|by apply elem_of_nil in Hc].
Qed.

(** A change of a span that is in use. *)
Lemma upd_owned a f s sp open open' stored busy :
  owned s open stored busy → a ∉ pool s → heap s !! a = Some sp →
  parent (f sp) = parent sp → childSpans (f sp) = childSpans sp → NoDup open' →
  (∀ b, b ∈ open' → b ∈ open) → (a ∈ open' → endTime (f sp) = 0%Z) → (a ∈ stored → endTime (f sp) ≠ 0%Z) →
  owned (upd a f s) open' stored busy.
Proof.
  intros [H1 H2 H3 H4 H5 H6 H7 H8 H9 H10 [rank H11]] Hap Hsp Hpar Hch Hnd Hsub Hzero Hnz.
  assert (∀ b x, heap s !! b = Some x → ∃ y, heap (upd a f s) !! b = Some y ∧ parent y = parent x ∧
    childSpans y = childSpans x ∧ (a ≠ b → y = x) ∧ (a = b → y = f sp)) as Hget.
  { intros b x Hb. exists (if decide (a = b) then f x else x). split; [by apply span_lookup|].
    case_decide; simplify_eq; done. }
  assert (∀ b y, heap (upd a f s) !! b = Some y → ∃ x, heap s !! b = Some x ∧ childSpans y = childSpans x) as Hinv.
  { intros b y Hb. destruct (span_lookup_inv _ _ _ _ _ Hb) as (x & Hx & ->). exists x. split; [done|].
    case_decide; simplify_eq; done. }
  split; try done.
  - intros b Hb. destruct (H2 b Hb) as (x & Hx & ?). exists x. split; [|done].
    destruct (Hget _ _ Hx) as (y & -> & _ & _ & Hne & _). rewrite Hne; [done|by intros ->].
  - intros b Hb. destruct (H4 b (Hsub _ Hb)) as (? & x & r & Hx & Hz & Hp & Hr). split; [done|].
    destruct (Hget _ _ Hx) as (y & Hy & Hpy & _ & Hne & He). exists y, r. split_and!; [done| |congruence|].
    + destruct (decide (a = b)) as [->|?]; [rewrite He by done; auto|by rewrite Hne].
    + simpl. by rewrite length_alter.
  - intros b Hb. destruct (H6 b Hb) as (? & ? & x & Hx & Hz & Hp). split_and!; [done|done|].
    destruct (Hget _ _ Hx) as (y & Hy & Hpy & _ & Hne & He). exists y. split_and!; [done| |congruence].
    destruct (decide (a = b)) as [->|?]; [rewrite He by done; auto|by rewrite Hne].
  - intros p y Hy. destruct (Hinv _ _ Hy) as (x & Hx & ->). by eapply H7.
  - intros p y c Hy. destruct (Hinv _ _ Hy) as (x & Hx & ->). intros Hc.
    destruct (H8 p x c Hx Hc) as (? & ? & z & Hz & Hpz). split_and!; [done|done|].
    destruct (Hget _ _ Hz) as (z' & Hz' & Hpz' & _). exists z'. split; [done|congruence].
  - intros b Hb. simpl. rewrite length_alter. by apply H10.
  - exists rank. intros p y c Hy. destruct (Hinv _ _ Hy) as (x & Hx & ->). by eapply H11.
Qed.

(** A clean span is given out. *)
Lemma given_owned a f s sp r open stored :
  owned s open stored [a] → a ∉ open → heap s !! a = Some sp → clean sp →
  parent (f sp) = Some r → childSpans (f sp) = [] → endTime (f sp) = 0%Z →
  match r with BySpan p => p < length (heap s) | ByRPCZ => True end →
  owned (upd a f s) (a :: open) stored [a].
Proof.
  intros [H1 H2 H3 H4 H5 H6 H7 H8 H9 H10 [rank H11]] Hao Hsp Hcl Hpar Hch Hend Hr.
  destruct (H10 a) as [Hap Hlt]; [by left|].
  assert (∀ b x, b ≠ a → heap s !! b = Some x → heap (upd a f s) !! b = Some x) as Hother.
  { intros b x Hne Hb. rewrite (span_lookup _ _ _ _ _ Hb). by rewrite decide_False. }
  assert (∀ b y, heap (upd a f s) !! b = Some y → (b ≠ a ∧ heap s !! b = Some y) ∨ childSpans y = []) as Hinv.
  { intros b y Hb. destruct (span_lookup_inv _ _ _ _ _ Hb) as (x & Hx & ->). case_decide; simplify_eq; auto. }
  split; try done.
  - intros b Hb. destruct (H2 b Hb) as (x & Hx & ?). exists x. split; [|done]. apply Hother; [by intros ->|done].
  - by apply NoDup_cons.
  - intros b [->|Hb]%elem_of_cons.
    + split; [done|]. exists (f sp), r. rewrite (span_lookup _ _ _ _ _ Hsp), decide_True by done.
      split_and!; [done|done|done|]. simpl. by rewrite length_alter.
    + destruct (H4 b Hb) as (? & x & r' & Hx & ? & ? & Hr'). split; [done|]. exists x, r'.
      split_and!; [apply Hother; [by intros ->|done]|done|done|]. simpl. by rewrite length_alter.
  - intros b Hb. destruct (H6 b Hb) as (? & ? & x & Hx & ?). split_and!; [done|done|]. exists x.
    split; [apply Hother; [set_solver|done]|done].
  - intros p y Hy. destruct (Hinv _ _ Hy) as [[_ Hy']| ->]; [by eapply H7|apply NoDup_nil_2].
  - intros p y c Hy Hc. destruct (Hinv _ _ Hy) as [[_ Hy']|E]; [|rewrite E in Hc; by apply elem_of_nil in Hc].
    destruct (H8 p y c Hy' Hc) as (? & ? & z & Hz & ?). split_and!; [done|done|]. exists z.
    split; [apply Hother; [set_solver|done]|done].
  - intros b Hb. simpl. rewrite length_alter. by apply H10.
  - exists rank. intros p y c Hy Hc. destruct (Hinv _ _ Hy) as [[_ Hy']|E]; [by eapply H11|].
    rewrite E in Hc. by apply elem_of_nil in Hc.
Qed.

(** It becomes a child of the span that asked for it. *)
Lemma adopt_owned a p s sp psp open stored :
  owned s open stored [a] → heap s !! a = Some sp → parent sp = Some (BySpan p) → childSpans sp = [] →
  heap s !! p = Some psp → p ∉ pool s → p ≠ a →
  owned (upd p (λ s, s <| childSpans := childSpans s ++ [a] |>) s) open stored [].
Proof.
  intros Ho Hsp Hpar Hch Hpsp Hpp Hne. set (f := λ s : span, s <| childSpans := childSpans s ++ [a] |>).
  destruct (o_busy_in _ _ _ _ Ho a) as [Hap _]; [by left|].
  assert (∀ b x, heap s !! b = Some x → ∃ y, heap (upd p f s) !! b = Some y ∧ parent y = parent x ∧
    endTime y = endTime x ∧ (b ≠ p → y = x)) as Hget.
  { intros b x Hb. exists (if decide (p = b) then f x else x). split; [by apply span_lookup|]. by case_decide. }
  assert (∀ b y c, heap (upd p f s) !! b = Some y → c ∈ childSpans y →
    (b = p ∧ c = a) ∨ ∃ x, heap s !! b = Some x ∧ c ∈ childSpans x) as Hinv.
  { intros b y c Hb Hc. destruct (span_lookup_inv _ _ _ _ _ Hb) as (x & Hx & ->). case_decide as E; [|by eauto].
    apply elem_of_app in Hc as [Hc| ->%list_elem_of_singleton]; eauto. }
  pose proof (owned_less _ _ _ _ _ Ho) as [H1 H2 H3 H4 H5 H6 H7 H8 H9 H10 [rank H11]].
  assert (∀ q x, heap s !! q = Some x → a ∉ childSpans x) as Hno.
  { intros q x Hx Hc. destruct (o_child _ _ _ _ Ho q x a Hx Hc) as (_ & Hn & _). set_solver. }
  split; try done.
  - intros b Hb. destruct (H2 b Hb) as (x & Hx & Hcl). destruct (Hget _ _ Hx) as (y & Hy & _ & _ & Heq).
    exists y. rewrite Heq by (by intros ->). split; [|done]. by rewrite <- (Heq ltac:(by intros ->)).
  - intros b Hb. destruct (H4 b Hb) as (? & x & r & Hx & ? & ? & Hr). split; [done|].
    destruct (Hget _ _ Hx) as (y & Hy & ? & ? & _). exists y, r. simpl. rewrite length_alter. split_and!; congruence || done.
  - intros b Hb. destruct (H6 b Hb) as (? & ? & x & Hx & ? & ?). split_and!; [done|done|].
    destruct (Hget _ _ Hx) as (y & Hy & ? & ? & _). exists y. split_and!; congruence.
  - intros q y Hy. destruct (span_lookup_inv _ _ _ _ _ Hy) as (x & Hx & ->). case_decide as E; [|by eapply H7].
    simpl. apply NoDup_app. split_and!; [by eapply H7| |apply NoDup_singleton].
    intros c Hc ->%list_elem_of_singleton. by eapply Hno.
  - intros q y c Hy Hc. destruct (Hinv _ _ _ Hy Hc) as [[-> ->]|(x & Hx & Hcx)].
    + split_and!; [done|apply not_elem_of_nil|]. destruct (Hget _ _ Hsp) as (z & Hz & ? & _). exists z.
      split; [done|congruence].
    + destruct (H8 q x c Hx Hcx) as (? & ? & z & Hz & ?). split_and!; [done|done|].
      destruct (Hget _ _ Hz) as (z' & Hz' & ? & _). exists z'. split; [done|congruence].
  - intros b Hb. by apply elem_of_nil in Hb.
  - exists (λ x, if decide (x = a) then S (rank p) else rank x). intros q y c Hy Hc.
    destruct (Hinv _ _ _ Hy Hc) as [[-> ->]|(x & Hx & Hcx)].
    + rewrite decide_False by done. rewrite decide_True by done. lia.
    + rewrite (decide_False (P:=c = a)) by (intros ->; by eapply Hno). case_decide as E; [|by eapply H11].
      subst q. rewrite Hsp in Hx. simplify_eq. rewrite Hch in Hcx. by apply elem_of_nil in Hcx.
Qed.

(** *** Reading a span never runs out of fuel *)

Lemma convert_path rank n s a :
  (∀ p sp c, heap s !! p = Some sp → c ∈ childSpans sp → rank p < rank c) →
  (∀ p sp c, heap s !! p = Some sp → c ∈ childSpans sp → c < length (heap s)) →
  a < length (heap s) → convertedToReadOnlySpan n s a = None →
  ∃ l : list nat, length l = n ∧ NoDup l ∧ ∀ b, b ∈ l → rank a < rank b ∧ b < length (heap s).
Proof.
  intros Hr Hl. revert a. induction n as [|n IH]; intros a Ha Hc.
  { exists []. split_and!; [done|apply NoDup_nil_2|]. intros b Hb. by apply elem_of_nil in Hb. }
  destruct (lookup_lt_is_Some_2 _ _ Ha) as [sp Hsp]. simpl in Hc. rewrite Hsp in Hc. simpl in Hc.
  destruct (mapM _ _) eqn:E; [done|]. apply mapM_None, Exists_exists in E as (c & Hin & Hcc).
  destruct (IH c (Hl _ _ _ Hsp Hin) Hcc) as (l & Hlen & Hnd & Hb). exists (c :: l). split_and!; [simpl; lia| |].
  - apply NoDup_cons. split; [|done]. intros Hcl. destruct (Hb c Hcl). lia.
  - intros b [->|Hbl]%elem_of_cons; [split; [by eapply Hr|by eapply Hl]|].
    destruct (Hb b Hbl). split; [|done]. pose proof (Hr _ _ _ Hsp Hin). lia.
Qed.

Lemma convert_total s open stored busy a : owned s open stored busy → a < length (heap s) → is_Some (convert s a).
Proof.
  intros Ho Ha. destruct (o_rank _ _ _ _ Ho) as [rank Hr]. unfold convert.
  destruct (convertedToReadOnlySpan (length (heap s)) s a) eqn:E; [by eauto|exfalso].
  destruct (convert_path rank (length (heap s)) s a Hr) as (l & Hlen & Hnd & Hb); [|done|done|].
  { intros p sp c Hp Hc. destruct (o_child _ _ _ _ Ho p sp c Hp Hc) as (_ & _ & ? & Hcs & _). by eapply lookup_lt_Some. }
  assert (a :: l ⊆+ seq 0 (length (heap s))) as Hsub.
  { apply NoDup_submseteq.
    - apply NoDup_cons. split; [|done]. intros Hal. destruct (Hb a Hal). lia.
    - intros b [->|Hbl]%elem_of_cons; apply elem_of_seq; [lia|]. destruct (Hb b Hbl). lia. }
  apply submseteq_length in Hsub. rewrite length_seq in Hsub. simpl in Hsub. lia.
Qed.

(** *** The store *)

Lemma owned_heap s s' open stored busy :
  owned s open stored busy → heap s' = heap s → pool s' = pool s → owned s' open stored busy.
Proof. intros [] Hh Hp. split; rewrite ?Hh, ?Hp; done. Qed.

(** The oldest span leaves the store. *)
Lemma evict_owned s open e tl busy :
  owned s open (e :: tl) busy → owned s open tl (e :: busy).
Proof.
  intros [H1 H2 H3 H4 H5 H6 H7 H8 H9 H10 H11]. destruct (H6 e) as (Hep & Heb & esp & Hesp & ? & Hpar); [by left|].
  apply NoDup_cons in H5 as [Hetl H5]. split; try done.
  - intros a Ha. destruct (H6 a) as (? & ? & ?); [by right|]. split_and!; [done| |done].
    apply not_elem_of_cons. split; [by intros ->|done].
  - intros p sp c Hp Hc. destruct (H8 p sp c Hp Hc) as (? & ? & x & Hx & ?). split_and!; [done| |by eauto].
    apply not_elem_of_cons. split; [intros ->; congruence|done].
  - by apply NoDup_cons.
  - intros a [->|Ha]%elem_of_cons; [|by apply H10]. split; [done|by eapply lookup_lt_Some].
Qed.

(** A span enters it. *)
Lemma store_owned s open stored a sp :
  owned s open stored [a] → heap s !! a = Some sp → endTime sp ≠ 0%Z → parent sp = Some ByRPCZ →
  owned s open (stored ++ [a]) [].
Proof.
  intros Ho Hsp He Hp. destruct (o_busy_in _ _ _ _ Ho a) as [Hap _]; [by left|].
  pose proof (owned_less _ _ _ _ _ Ho) as [H1 H2 H3 H4 H5 H6 H7 H8 H9 H10 H11]. split; try done.
  - apply NoDup_app. split_and!; [done| |apply NoDup_singleton]. intros b Hb ->%list_elem_of_singleton.
    destruct (o_stored_in _ _ _ _ Ho a Hb) as (_ & Hn & _). set_solver.
  - intros b [Hb|Hb]%elem_of_app; [by apply H6|]. apply list_elem_of_singleton in Hb as ->.
    split_and!; [done|apply not_elem_of_nil|by eauto].
Qed.

(** *** What the recording of a span leaves alone *)

Definition child (s : state) (p c : nat) : Prop := ∃ sp, heap s !! p = Some sp ∧ c ∈ childSpans sp.
Definition below (s : state) : nat → nat → Prop := rtc (child s).

Record spares (e : nat) (s s' : state) : Prop := {
  sp_pool : e ∉ pool s → e ∉ pool s';
  sp_heap : heap s' !! e = heap s !! e;
  sp_length : length (heap s') = length (heap s);
  sp_child p c : child s' p c → child s p c;
  sp_ended x sp : heap s' !! x = Some sp → endTime sp ≠ 0%Z → heap s !! x = Some sp
}.

Lemma spares_refl e s : spares e s s.
Proof. by split. Qed.

Lemma spares_trans e s1 s2 s3 : spares e s1 s2 → spares e s2 s3 → spares e s1 s3.
Proof. intros [] []. split; [auto|congruence|congruence|auto|auto]. Qed.

Lemma below_less e s s' a : spares e s s' → below s' a e → below s a e.
Proof. intros Hs. apply rtc_subrel, (sp_child _ _ _ Hs). Qed.

Lemma reset_spares e a s : a ≠ e → spares e s (upd a reset s).
Proof.
  intros Hne. split; simpl; [done|by rewrite list_lookup_alter_ne|by rewrite length_alter| |].
  2:{ intros x sp Hx Hz. destruct (span_lookup_inv _ _ _ _ _ Hx) as (y & Hy & ->). by case_decide. }
  intros p c (sp & Hp & Hc). destruct (span_lookup_inv _ _ _ _ _ Hp) as (x & Hx & ->). exists x. split; [done|].
  case_decide; [by apply elem_of_nil in Hc|done].
Qed.

Lemma foldl_none {X Y} (f : X → Y → option X) l : foldl (λ r c, s ← r; f s c) None l = None.
Proof. by induction l. Qed.

(** Putting a span touches only it and what is below it. *)
Lemma put_spares n a e s s' : putSpanToPool n a s = Some s' → ¬ below s a e → spares e s s'.
Proof.
  revert a s s'. induction n as [|n IH]; intros a s s' H Hn; [done|]. simpl in H.
  destruct (heap s !! a) as [sp|] eqn:Hsp; [|done]. simpl in H.
  assert (a ≠ e) as Hne by (intros ->; apply Hn, rtc_refl).
  assert (∀ c, c ∈ childSpans sp → ¬ below s c e) as Hcs.
  { intros c Hc Hb. apply Hn. eapply rtc_l; [|done]. by exists sp. }
  assert (∀ cs s1, (∀ c, c ∈ cs → c ∈ childSpans sp) → spares e s s1 → ∀ s2,
    foldl (λ (r : option state) c, s ← r; cs ← heap s !! c;
      if (endTime cs =? 0)%Z then Some s else putSpanToPool n c s) (Some s1) cs = Some s2 → spares e s s2) as Hloop.
  { induction cs as [|c cs IHc]; intros s1 Hin H1 s2 H2; simpl in H2; [by simplify_eq|].
    destruct (heap s1 !! c) as [csp|]; simpl in H2; [|by rewrite foldl_none in H2].
    destruct (endTime csp =? 0)%Z; [eapply IHc; [|exact H1|exact H2]; set_solver|].
    destruct (putSpanToPool n c s1) as [s3|] eqn:E; [|by rewrite foldl_none in H2].
    eapply IHc; [set_solver| |exact H2]. eapply spares_trans; [exact H1|]. eapply IH; [exact E|].
    intros Hb. eapply Hcs; [apply Hin; by left|]. by eapply below_less. }
  destruct (foldl _ _ _) as [s2|] eqn:E; [|done]. simplify_eq/=.
  eapply Hloop in E as [E1 E2 E3 E4 E5]; [|done|by apply reset_spares].
  split; simpl; [|done|done|exact E4|exact E5]. intros Hp. apply not_elem_of_cons. auto.
Qed.

(** The span that an insertion takes out of the store. *)
Definition evicted (s : state) : option nat := if full (spans (store s)) then front (spans (store s)) else None.

Lemma insert_spares a e s s' :
  insert a s = Some s' → (∀ x, evicted s = Some x → ¬ below s x e) → spares e s s'.
Proof.
  unfold insert, evicted. intros H Hx. destruct (full (spans (store s))).
  - destruct (front (spans (store s))) as [x|]; [|done]. simpl in H. destruct (heap s !! x) as [xsp|]; [|done]. simpl in H.
    destruct (put x _) as [s1|] eqn:E; [|done]. simpl in H. apply put_spares with (e := e) in E; [|by apply Hx].
    destruct (heap s1 !! a) as [sp|]; [|done]. simplify_eq/=. by destruct E.
  - simpl in H. destruct (heap s !! a) as [sp|]; [|done]. by simplify_eq/=.
Qed.

(** The span that the recording of [a] would put into the pool. *)
Definition put_by (s : state) (a : nat) : option nat :=
  match heap s !! a ≫= parent with
  | Some ByRPCZ => evicted s
  | Some (BySpan p) => if decide (a ∈ default [] (childSpans <$> heap s !! p)) then None else Some a
  | None => None
  end.

Lemma record_spares z r a e s s' :
  record_ z r a s = Some s' → heap s !! a ≫= parent = Some r →
  (∀ x, put_by s a = Some x → ¬ below s x e) → spares e s s'.
Proof.
  unfold put_by. intros H Hr Hx. rewrite Hr in Hx. destruct r as [|p]; simpl in H.
  - unfold record_root in H. destruct (shouldRecord z s a); [|simplify_eq; apply spares_refl].
    destruct (exporter z); [|by eapply insert_spares].
    destruct (convert s a) as [ro|]; [|done]. simpl in H. by apply insert_spares with (e := e) in H as [].
  - unfold record_child in H. destruct (heap s !! p) as [psp|] eqn:Hp; [|done]. simpl in H.
    simpl in Hx. destruct (decide (a ∈ childSpans psp)); [simplify_eq; apply spares_refl|].
    eapply put_spares; [exact H|by apply Hx].
Qed.

(** ** The store and what was recorded

    [log] is the history of the spans recorded, with the ids that they had then; [once i log]: one of them
    had the id [i]. *)

Definition once (i : Z) (log : list (nat * Z)) : Prop := length (filter (λ p, p.2 = i) log) = 1.

Lemma once_snoc i log p : once i (log ++ [p]) → p.2 = i → ∀ b, (b, i) ∉ log.
Proof.
  unfold once. rewrite filter_app, length_app, filter_cons, filter_nil. intros H <- b Hb.
  rewrite decide_True in H by done. simpl in H.
  assert (filter (λ q : nat * Z, q.2 = p.2) log = []) as E by (apply length_zero_iff_nil; lia).
  assert ((b, p.2) ∈ filter (λ q : nat * Z, q.2 = p.2) log) as Hin by (by apply list_elem_of_filter).
  rewrite E in Hin. by apply elem_of_nil in Hin.
Qed.

Lemma once_init i log p b : once i (log ++ [p]) → (b, i) ∈ log → once i log.
Proof.
  intros H Hb. unfold once in *. rewrite filter_app, length_app, filter_cons, filter_nil in H.
  assert ((b, i) ∈ filter (λ q : nat * Z, q.2 = i) log) as Hin by (by apply list_elem_of_filter).
  destruct (filter (λ q : nat * Z, q.2 = i) log) as [|x l]; [by apply elem_of_nil in Hin|].
  simpl in *. case_decide; simpl in H; lia.
Qed.

Lemma once_cons i old p tl b : once i (old ++ p :: tl) → (b, i) ∈ tl → p.2 ≠ i.
Proof.
  unfold once. rewrite filter_app, length_app, filter_cons. intros H Hb Hp.
  rewrite decide_True in H by done. simpl in H.
  assert ((b, i) ∈ filter (λ q : nat * Z, q.2 = i) tl) as Hin by (by apply list_elem_of_filter).
  destruct (filter (λ q : nat * Z, q.2 = i) tl); [by apply elem_of_nil in Hin|simpl in H; lia].
Qed.

(** What the index and the array [arr] know: [new] are the spans in the array, oldest first. *)
Record knows (h : list span) (ids : gmap Z nat) (log new : list (nat * Z)) : Prop := {
  k_id a i : (a, i) ∈ new → id <$> h !! a = Some i;
  k_ids i a : ids !! i = Some a → (a, i) ∈ new;
  k_once a i : (a, i) ∈ new → once i log → ids !! i = Some a
}.

Lemma knows_heap h h' ids log new :
  knows h ids log new → (∀ a, a ∈ new.*1 → id <$> h' !! a = id <$> h !! a) → knows h' ids log new.
Proof.
  intros [K1 K2 K3] Hh. split; try done. intros a i Ha. rewrite Hh; [by apply K1|].
  apply list_elem_of_fmap. by exists (a, i).
Qed.

Lemma knows_evict h ids old e i tl :
  knows h ids (old ++ (e, i) :: tl) ((e, i) :: tl) → knows h (delete i ids) (old ++ (e, i) :: tl) tl.
Proof.
  intros [K1 K2 K3]. split.
  - intros a j Ha. apply K1. by right.
  - intros j a [Hne Ha]%lookup_delete_Some. apply K2, elem_of_cons in Ha as [[= -> ->]|?]; [by destruct Hne|done].
  - intros a j Ha Ho. apply lookup_delete_Some. split; [|apply K3; [by right|done]].
    by eapply (once_cons j old (e, i)).
Qed.

Lemma knows_insert h ids log new a sp :
  knows h ids log new → (∀ p, p ∈ new → p ∈ log) → h !! a = Some sp →
  knows h (<[id sp := a]> ids) (log ++ [(a, id sp)]) (new ++ [(a, id sp)]).
Proof.
  intros [K1 K2 K3] Hsub Hsp. split.
  - intros b i [Hb|Hb]%elem_of_app; [by apply K1|]. apply list_elem_of_singleton in Hb as [= -> ->]. by rewrite Hsp.
  - intros i b [[<- <-]|[Hne Hb]]%lookup_insert_Some; [set_solver|]. apply elem_of_app. left. by apply K2.
  - intros b i [Hb|Hb]%elem_of_app Ho.
    + rewrite lookup_insert_ne; [apply K3; [done|]; eapply once_init; [done|by apply Hsub]|].
      intros E. by eapply (once_snoc i log (a, id sp)); [done..|apply Hsub].
    + apply list_elem_of_singleton in Hb as [= -> ->]. by rewrite lookup_insert_eq.
Qed.

(** What is true between the operations; [stored] are the spans in the store, oldest first. *)
Record sound (cap : Z) (s : state) (open stored : list nat) (log : list (nat * Z)) : Prop := {
  s_owned : owned s open stored [];
  s_holds : holds (spans (store s)) stored;
  s_capacity : capacity (spans (store s)) = cap;
  s_log : ∃ old new, log = old ++ new ∧ new.*1 = stored ∧ (old ≠ [] → zlen stored = cap) ∧
    knows (heap s) (idSpans (store s)) log new
}.

Lemma capacity_dequeue (a : spanArray nat) : capacity (dequeue_span a) = capacity a.
Proof. done. Qed.
Lemma capacity_enqueue (a : spanArray nat) x : capacity (enqueue_span a x) = capacity a.
Proof. unfold enqueue_span. by destruct (full a). Qed.

(** A span that nothing refers to enters a store with room. *)
Lemma insert_room cap s sp a open stored old new ids arr :
  owned s open stored [a] → heap s !! a = Some sp → endTime sp ≠ 0%Z → parent sp = Some ByRPCZ →
  holds arr stored → capacity arr = cap → (zlen stored < cap)%Z →
  new.*1 = stored → knows (heap s) ids (old ++ new) new → (old ≠ [] → zlen stored + 1 = cap)%Z →
  sound cap (s <| store := MkStore (<[id sp := a]> ids) (enqueue_span arr a) |>) open (stored ++ [a])
    ((old ++ new) ++ [(a, id sp)]).
Proof.
  intros Ho Hsp He Hp Hh Hc Hroom Hnew Hk Hold. split.
  - eapply owned_heap; [by eapply store_owned|done|done].
  - apply enqueue_holds; [done|lia].
  - change (capacity (enqueue_span arr a) = cap). by rewrite capacity_enqueue.
  - exists old, (new ++ [(a, id sp)]). split_and!.
    + by rewrite app_assoc.
    + by rewrite fmap_app, Hnew.
    + intros Hne. rewrite zlen_app. by apply Hold.
    + apply knows_insert; [done| |done]. set_solver.
Qed.

Lemma insert_sound cap s sp a open stored log :
  owned s open stored [a] → a ∉ open → heap s !! a = Some sp → endTime sp ≠ 0%Z → parent sp = Some ByRPCZ →
  holds (spans (store s)) stored → capacity (spans (store s)) = cap →
  (∃ old new, log = old ++ new ∧ new.*1 = stored ∧ (old ≠ [] → zlen stored = cap) ∧
    knows (heap s) (idSpans (store s)) log new) →
  ∃ s' stored', insert a s = Some s' ∧ sound cap s' open stored' (log ++ [(a, id sp)]) ∧
    length (heap s') = length (heap s) ∧ (∀ b, b ∈ stored' → b ∈ stored ∨ b = a).
Proof.
  intros Ho Hao Hsp He Hp Hh Hc (old & new & -> & Hnew & Hold & Hk). unfold insert, full.
  rewrite (holds_length _ _ Hh), Hc. pose proof (holds_fits _ _ Hh) as Hfit. rewrite Hc in Hfit.
  destruct (Z.leb_spec cap (zlen stored)) as [Hle|Hlt].
  - destruct stored as [|e tl]; [pose proof (holds_capacity _ _ Hh); unfold zlen in *; simpl in *; lia|].
    destruct new as [|[e' ie] new]; simplify_eq/=.
    rewrite (front_holds _ _ _ Hh). destruct (o_stored_in _ _ _ _ Ho e) as (_ & Hea & esp & Hesp & Hend & _); [by left|].
    simpl. rewrite Hesp. simpl.
    assert (id esp = ie) as Hid. { pose proof (k_id _ _ _ _ Hk e ie) as H. rewrite Hesp in H. simpl in H. set_solver. }
    set (s1 := s <| store := MkStore (delete (id esp) (idSpans (store s))) (dequeue_span (spans (store s))) |>).
    assert (owned s1 open (new.*1) [e; a]) as Ho1 by (eapply owned_heap; [by eapply evict_owned|done|done]).
    assert (e ∉ open) as Heo. { intros Hin. by destruct (o_open_in _ _ _ _ Ho e Hin) as (_ & ? & ? & ? & ? & _); simplify_eq. }
    destruct (put_owned e s1 esp open (new.*1) [a] Ho1 Heo Hesp Hend) as (s2 & -> & Ho2 & Hk2). simpl.
    assert (heap s2 !! a = Some sp) as Ha2.
    { rewrite (kept_heap _ _ Hk2); [done|]. by apply (o_busy_in _ _ _ _ Ho2); left. }
    rewrite Ha2, (kept_store _ _ Hk2). simpl. eexists _, (new.*1 ++ [a]). split; [done|].
    split; [|split; [apply Hk2|set_solver]]. assert (zlen (e :: new.*1) = (zlen (new.*1) + 1)%Z) as Hz by (unfold zlen; simpl; lia).
    replace (old ++ (e, ie) :: new) with ((old ++ [(e, ie)]) ++ new) by (by rewrite <- app_assoc).
    apply insert_room; try done.
    + by eapply dequeue_holds.
    + lia.
    + rewrite <- app_assoc. simpl. rewrite Hid. eapply knows_heap; [by apply knows_evict|].
      intros b Hb. rewrite (kept_heap _ _ Hk2); [done|]. by apply (o_stored_in _ _ _ _ Ho2).
    + intros _. lia.
  - simpl. rewrite Hsp. simpl. eexists _, (stored ++ [a]). split; [done|]. split; [|split; [done|set_solver]].
    apply insert_room; try done. intros Hne. specialize (Hold Hne). lia.
Qed.

(** The state of the store does not look at a change of a span that keeps the ids of those in it. *)
Lemma sound_change cap s s' open open' stored log :
  sound cap s open stored log → owned s' open' stored [] → store s' = store s →
  (∀ b, b ∈ stored → id <$> heap s' !! b = id <$> heap s !! b) → sound cap s' open' stored log.
Proof.
  intros [Ho Hh Hc (old & new & Hl & Hn & Hold & Hk)] Ho' Hs Hid. split; rewrite ?Hs; try done.
  exists old, new. split_and!; try done. eapply knows_heap; [done|]. by rewrite Hn.
Qed.

(** *** The two halves of the end of a span

    [ending] are the spans whose end time is set and that are not recorded yet. *)

Definition without (a : nat) (l : list nat) : list nat := filter (λ b, b ≠ a) l.

Lemma elem_of_without a b l : b ∈ without a l ↔ b ∈ l ∧ b ≠ a.
Proof. unfold without. rewrite list_elem_of_filter. naive_solver. Qed.

Record halfway (s : state) (ending stored : list nat) : Prop := {
  h_nodup : NoDup ending;
  h_in a : a ∈ ending → a ∉ pool s ∧ a ∉ stored ∧
    ∃ sp r, heap s !! a = Some sp ∧ endTime sp ≠ 0%Z ∧ parent sp = Some r ∧
      match r with BySpan p => p < length (heap s) | ByRPCZ => True end
}.

(** Nothing that ends is touched. *)
Lemma halfway_change s s' ending ending' stored stored' :
  halfway s ending stored → NoDup ending' → (∀ e, e ∈ ending' → e ∈ ending) →
  (∀ e, e ∈ ending' → e ∉ pool s → e ∉ pool s') →
  (∀ e sp, e ∈ ending' → heap s !! e = Some sp → ∃ sp', heap s' !! e = Some sp' ∧
     parent sp' = parent sp ∧ endTime sp' = endTime sp) →
  length (heap s) ≤ length (heap s') → (∀ e, e ∈ ending' → e ∈ stored' → e ∈ stored) →
  halfway s' ending' stored'.
Proof.
  intros [H1 H2] Hnd Hsub Hpool Hheap Hlen Hst. split; [done|]. intros a Ha.
  destruct (H2 a (Hsub _ Ha)) as (Hap & Has & sp & r & Hsp & He & Hp & Hr).
  split; [by apply Hpool|]. split; [intros ?; by apply Has, Hst|].
  destruct (Hheap _ _ Ha Hsp) as (sp' & Hsp' & E1 & E2). exists sp', r. split_and!; [done|congruence|congruence|].
  destruct r; [done|lia].
Qed.

Lemma owned_busy s sp open stored a :
  owned s open stored [] → heap s !! a = Some sp → a ∉ pool s → a ∉ stored →
  (∀ p psp, parent sp = Some (BySpan p) → heap s !! p = Some psp → a ∉ childSpans psp) →
  owned s open stored [a].
Proof.
  intros [H1 H2 H3 H4 H5 H6 H7 H8 H9 H10 H11] Hsp Hap Has Hno. split; try done.
  - intros b Hb. destruct (H6 b Hb) as (? & _ & ?). split_and!; [done| |done]. apply not_elem_of_cons.
    split; [by intros ->|apply not_elem_of_nil].
  - intros p psp c Hpp Hc. destruct (H8 p psp c Hpp Hc) as (? & _ & csp & Hcs & Hpar). split_and!; [done| |by eauto].
    apply not_elem_of_cons. split; [intros ->; simplify_eq; by eapply Hno|apply not_elem_of_nil].
  - apply NoDup_singleton.
  - intros b ->%list_elem_of_singleton. split; [done|by eapply lookup_lt_Some].
Qed.

Lemma trySetEndTime_sound cap s a now open ending stored log :
  sound cap s open stored log → halfway s ending stored → a ∈ open → now ≠ 0%Z →
  ∃ s', trySetEndTime a now s = Some (true, s') ∧ sound cap s' (without a open) stored log ∧
    halfway s' (a :: ending) stored.
Proof.
  intros Hs Hh Ha Hnow. pose proof (s_owned _ _ _ _ _ Hs) as Ho.
  destruct (o_open_in _ _ _ _ Ho a Ha) as (Hap & sp & r & Hsp & Hz & Hr & Hlt).
  assert (a ∉ stored) as Has.
  { intros Hst. by destruct (o_stored_in _ _ _ _ Ho a Hst) as (_ & _ & ? & ? & ? & _); simplify_eq. }
  assert (a ∉ ending) as Hae.
  { intros He. by destruct (h_in _ _ _ Hh a He) as (_ & _ & ? & ? & ? & ? & _); simplify_eq. }
  unfold trySetEndTime. rewrite Hsp. simpl. rewrite Hz. simpl. eexists. split; [done|]. split.
  - eapply sound_change; [done| |done|].
    + eapply upd_owned; try done.
      * by apply NoDup_filter, Ho.
      * intros b [? _]%elem_of_without. done.
      * intros [_ ?]%elem_of_without. done.
    + intros b Hb. simpl. by rewrite list_lookup_alter_ne by (by intros ->).
  - split; [apply NoDup_cons; split; [done|apply Hh]|]. intros b [->|Hb]%elem_of_cons.
    + split_and!; [done|done|]. eexists _, r. simpl. rewrite list_lookup_alter_eq, Hsp, length_alter. by split_and!.
    + destruct (h_in _ _ _ Hh b Hb) as (? & ? & x & r' & ? & ? & ? & ?). split_and!; [done|done|]. exists x, r'.
      simpl. rewrite length_alter. split_and!; try done. by rewrite list_lookup_alter_ne by (by intros ->).
Qed.

(** The span that the second half adds to what was recorded. *)
Definition records (z : RPCZ) (a : nat) (s : state) : list (nat * Z) :=
  match heap s !! a ≫= parent with
  | Some ByRPCZ => if shouldRecord z s a then [(a, default 0%Z (id <$> heap s !! a))] else []
  | _ => []
  end.

(** No span whose end is half-way is put into the pool by the recording of [a]. *)
Definition undisturbed (s : state) (ending : list nat) (a : nat) : Prop :=
  ∀ x e, put_by s a = Some x → e ∈ ending → e ≠ a → ¬ below s x e.

Lemma End_record_sound z cap s a open ending stored log :
  sound cap s open stored log → halfway s ending stored → a ∈ ending →
  ∃ s' stored', End_record z a s = Some s' ∧ sound cap s' open stored' (log ++ records z a s) ∧
    length (heap s') = length (heap s) ∧ (∀ b, b ∈ stored' → b ∈ stored ∨ b = a).
Proof.
  intros Hs Hh Ha. pose proof Hs as [Ho Hho Hc Hlog].
  destruct (h_in _ _ _ Hh a Ha) as (Hap & Has & sp & r & Hsp & He & Hr & Hlt).
  assert (a ∉ open) as Hao.
  { intros Hin. by destruct (o_open_in _ _ _ _ Ho a Hin) as (_ & ? & ? & ? & ? & _); simplify_eq. }
  unfold End_record, records. rewrite Hsp. simpl. rewrite Hr. simpl. destruct r as [|p]; simpl.
  - unfold record_root. destruct (shouldRecord z s a).
    + destruct (convert_total s _ _ _ a Ho) as [ro Hro]; [by eapply lookup_lt_Some|]. rewrite Hro. simpl.
      set (s2 := if exporter z then _ else _).
      assert (∃ s2', s2 = Some s2' ∧ heap s2' = heap s ∧ pool s2' = pool s ∧ store s2' = store s) as (s2' & -> & E1 & E2 & E3).
      { unfold s2. destruct (exporter z); eexists; split_and!; done. }
      simpl. rewrite <- E1. eapply insert_sound with (sp := sp); rewrite ?E1, ?E3; try done.
      eapply owned_heap; [|done|done]. eapply owned_busy; try done. intros p psp Hp. congruence.
    + exists s, stored. split; [done|]. rewrite app_nil_r. by auto.
  - destruct (lookup_lt_is_Some_2 (heap s) p Hlt) as [psp Hpsp].
    unfold record_child. rewrite Hpsp. simpl. rewrite app_nil_r. case_decide as Hin; [exists s, stored; by auto|].
    destruct (put_owned a s sp open stored []) as (s2 & -> & Ho2 & Hk2); [|done|done|done|].
    { eapply owned_busy; try done. intros q qsp Hq Hqs. rewrite Hr in Hq. by simplify_eq. }
    exists s2, stored. split; [done|]. split; [|split; [apply Hk2|by auto]]. eapply sound_change; [done|done|apply Hk2|]. intros b Hb.
    rewrite (kept_heap _ _ Hk2); [done|]. by apply (o_stored_in _ _ _ _ Ho2).
Qed.

Lemma End_record_halfway z s a s' ending stored stored' :
  halfway s ending stored → a ∈ ending → End_record z a s = Some s' → undisturbed s ending a →
  length (heap s') = length (heap s) → (∀ b, b ∈ stored' → b ∈ stored ∨ b = a) →
  halfway s' (without a ending) stored'.
Proof.
  intros Hh Ha He Hu Hlen Hst. destruct (h_in _ _ _ Hh a Ha) as (_ & _ & sp & r & Hsp & _ & Hr & _).
  unfold End_record in He. rewrite Hsp in He. simpl in He. rewrite Hr in He. simpl in He.
  assert (∀ e, e ∈ without a ending → spares e s s') as Hsp'.
  { intros e [Hin Hne]%elem_of_without. eapply record_spares; [exact He|by rewrite Hsp|]. intros x Hx. by eapply Hu. }
  eapply halfway_change; [exact Hh|by apply NoDup_filter, Hh|by intros e [? _]%elem_of_without| | |lia|].
  - intros e Hin. by apply (Hsp' e).
  - intros e x Hin Hx. exists x. split; [|done]. by rewrite (sp_heap _ _ _ (Hsp' e Hin)).
  - intros e [Hin Hne]%elem_of_without Hin'. by destruct (Hst _ Hin').
Qed.

(** ** Histories of operations *)

(** [open] are the spans that callers have and did not end, [ending] those whose end time is set and that
    are not recorded yet; [recorded] are the spans that were recorded, with their ids. *)
Record config := MkConfig { st : state; open : list nat; ending : list nat; recorded : list (nat * Z) }.

(** The caller uses a span that it was given until it ends it; [End] is two operations. *)
Inductive op :=
| ORoot (choice : option nat) (n : string) (i now : Z)
| OChild (p : nat) (choice : option nat) (n : string) (now : Z)
| OEvent (p : nat) (n : string) (now : Z)
| OAttribute (p : nat) (n : string) (v : V)
| OEnd (a : nat) (now : Z)
| ORecord (a : nat).

Definition from_pool (choice : option nat) (s : state) : Prop :=
  match choice with Some a => a ∈ pool s | None => True end.

Definition allowed (c : config) (o : op) : Prop :=
  match o with
  | ORoot choice _ _ _ => from_pool choice (st c)
  | OChild p choice _ _ => p ∈ open c ∧ from_pool choice (st c)
  | OEvent p _ _ | OAttribute p _ _ => p ∈ open c
  | OEnd a now => a ∈ open c ∧ now ≠ 0%Z
  | ORecord a => a ∈ ending c ∧ undisturbed (st c) (ending c) a
  end.

Definition perform (z : RPCZ) (c : config) (o : op) : option config :=
  match o with
  | ORoot choice n i now =>
    '(r, s) ← NewRoot z choice n i now (st c);
    Some (MkConfig s (match r with Some a => a :: open c | None => open c end) (ending c) (recorded c))
  | OChild p choice n now =>
    '(a, s) ← NewChild p choice n now (st c); Some (MkConfig s (a :: open c) (ending c) (recorded c))
  | OEvent p n now => Some (MkConfig (AddEvent p n now (st c)) (open c) (ending c) (recorded c))
  | OAttribute p n v => Some (MkConfig (SetAttribute p n v (st c)) (open c) (ending c) (recorded c))
  | OEnd a now =>
    '(first, s) ← trySetEndTime a now (st c);
    Some (MkConfig s (without a (open c)) (if first : bool then a :: ending c else ending c) (recorded c))
  | ORecord a =>
    s ← End_record z a (st c);
    Some (MkConfig s (open c) (without a (ending c)) (recorded c ++ records z a (st c)))
  end.

Definition step (z : RPCZ) (c c' : config) : Prop := ∃ o, allowed c o ∧ perform z c o = Some c'.

Definition init (st0 : spanStore) : config := MkConfig (MkState [] [] st0 []) [] [] [].

Lemma from_pool_take a l : a ∈ l → is_Some (take_one a l).
Proof.
  induction l as [|b l IH]; [by intros ?%elem_of_nil|]. simpl. case_decide; [by eauto|].
  intros [->|Ha]%elem_of_cons; [done|]. destruct (IH Ha) as [k ->]. by eauto.
Qed.

Lemma Get_some choice s : from_pool choice s → is_Some (Get choice s).
Proof. destruct choice as [a|]; simpl; [|by eauto]. intros H. destruct (from_pool_take _ _ H) as [l ->]. by eauto. Qed.

Record fine (cap : Z) (s : state) (open ending stored : list nat) (log : list (nat * Z)) : Prop := {
  f_sound : sound cap s open stored log;
  f_ending : halfway s ending stored
}.

Lemma use_sound cap s a f open ending stored log :
  fine cap s open ending stored log → a ∈ open →
  (∀ sp : span, parent (f sp) = parent sp ∧ childSpans (f sp) = childSpans sp ∧ endTime (f sp) = endTime sp ∧ id (f sp) = id sp) →
  fine cap (upd a f s) open ending stored log.
Proof.
  intros [Hs He] Ha Hf. pose proof (s_owned _ _ _ _ _ Hs) as Ho.
  destruct (o_open_in _ _ _ _ Ho a Ha) as (Hap & sp & r & Hsp & Hz & _). destruct (Hf sp) as (F1 & F2 & F3 & F4).
  split; [eapply sound_change; [done| |done|]|].
  - eapply upd_owned; try done; [by apply Ho|congruence|]. intros Hst.
    by destruct (o_stored_in _ _ _ _ Ho a Hst) as (_ & _ & ? & ? & ? & _); simplify_eq.
  - intros b Hb. simpl. destruct (decide (a = b)) as [->|Hne]; [|by rewrite list_lookup_alter_ne].
    rewrite list_lookup_alter_eq. destruct (heap s !! b) as [x|]; [|done]. simpl. f_equal. apply Hf.
  - eapply halfway_change; [done|apply He|done|done| |simpl; by rewrite length_alter|done].
    intros e x _ Hx. exists (if decide (a = e) then f x else x). split; [by apply span_lookup|].
    case_decide; [|done]. by destruct (Hf x) as (? & _ & ? & _).
Qed.

Lemma Get_inv choice s a s' :
  Get choice s = Some (a, s') →
  (∀ b, b ∉ pool s → b ∉ pool s') ∧ (∀ b x, b ≠ a → heap s' !! b = Some x → heap s !! b = Some x) ∧
  length (heap s) ≤ length (heap s').
Proof.
  destruct choice as [b|]; simpl.
  - destruct (take_one b (pool s)) as [l|] eqn:E; [|done]. intros [= <- <-]. simpl. split_and!; [|done|done].
    intros c Hc Hl. apply Hc. clear Hc. revert l E Hl. induction (pool s) as [|d k IH]; intros l E Hl; [done|].
    simpl in E. case_decide; simplify_eq; [by right|]. destruct (take_one b k); simplify_eq/=. set_solver.
  - intros [= <- <-]. simpl. split_and!; [done| |rewrite length_app; lia]. intros b x Hne [Hb|[Hge Hb]]%lookup_app_Some; [done|].
    apply list_lookup_singleton_Some in Hb as [Hb _]. lia.
Qed.

Lemma new_sound cap s choice n i r now open ending stored log :
  fine cap s open ending stored log → from_pool choice s →
  match r with BySpan p => p < length (heap s) | ByRPCZ => True end →
  ∃ a s' sp, newSpan choice n i r now s = Some (a, s') ∧ fine cap s' (a :: open) ending stored log ∧
    owned s' (a :: open) stored [a] ∧ heap s' !! a = Some sp ∧ parent sp = Some r ∧ childSpans sp = [] ∧ a ∉ open ∧
    (∀ b x, b ≠ a → heap s' !! b = Some x ↔ heap s !! b = Some x).
Proof.
  intros [Hs He] Hch Hr. pose proof (s_owned _ _ _ _ _ Hs) as Ho. destruct (Get_some _ _ Hch) as [[a s1] Hg].
  destruct (Get_owned _ _ _ _ _ _ Ho Hg) as (Ho1 & Hao & (sp & Hsp & Hcl) & Hst & Hold & Hlen).
  destruct (Get_inv _ _ _ _ Hg) as (Gp & Gh & _). unfold newSpan. rewrite Hg. simpl. set (f := λ sp : span, _). set (s2 := upd a f s1).
  assert (owned s2 (a :: open) stored [a]) as Ho2.
  { eapply given_owned with (r := r); try done; [apply Hcl|apply Hcl|]. destruct r; [done|lia]. }
  assert (∀ b x, b ≠ a → heap s2 !! b = Some x ↔ heap s !! b = Some x) as Hkeep.
  { intros b x Hne. unfold s2. simpl. rewrite list_lookup_alter_ne by done. split; [by apply Gh|by apply Hold]. }
  exists a, s2, (f sp). split; [done|]. split; [split|split; [done|]].
  - eapply sound_change; [done|by eapply owned_less|done|]. intros b Hb.
    destruct (o_stored_in _ _ _ _ Ho b Hb) as (_ & _ & x & Hx & _). rewrite Hx.
    destruct (o_stored_in _ _ _ _ Ho1 b Hb) as (_ & Hba & _).
    assert (heap s2 !! b = Some x) as -> by (apply Hkeep; [set_solver|done]). done.
  - eapply halfway_change; [done|apply He|done|by intros; apply Gp| |unfold s2; simpl; by rewrite length_alter|done].
    intros e x Hin Hx. exists x. split; [|done]. apply Hkeep; [|done]. intros ->.
    destruct (h_in _ _ _ He a Hin) as (_ & _ & y & _ & Hy & Hz & _). pose proof (Hold _ _ Hy). destruct Hcl. by simplify_eq.
  - split_and!; [|done|apply Hcl|done|done]. unfold s2. rewrite (span_lookup _ _ _ _ _ Hsp). by rewrite decide_True.
Qed.

Lemma child_sound cap s p choice n now open ending stored log :
  fine cap s open ending stored log → p ∈ open → from_pool choice s →
  ∃ a s', NewChild p choice n now s = Some (a, s') ∧ fine cap s' (a :: open) ending stored log.
Proof.
  intros Hs Hp Hch. pose proof (s_owned _ _ _ _ _ (f_sound _ _ _ _ _ _ Hs)) as Ho.
  destruct (o_open_in _ _ _ _ Ho p Hp) as (Hpp & psp & r & Hpsp & _). unfold NewChild. rewrite Hpsp. simpl.
  destruct (new_sound cap s choice n (id psp) (BySpan p) now _ _ _ _ Hs Hch) as
    (a & s' & sp & -> & [Hs' He'] & Ho' & Hsp & Hpar & Hchd & Hao & Hkeep); [by eapply lookup_lt_Some|].
  simpl. assert (p ≠ a) as Hne by (by intros ->). eexists a, _. split; [done|]. split.
  - eapply sound_change; [exact Hs'| |done|].
    + eapply adopt_owned; try done; [by apply Hkeep|]. by apply (o_open_in _ _ _ _ Ho'); right.
    + intros b Hb. simpl. destruct (decide (p = b)) as [->|?]; [|by rewrite list_lookup_alter_ne].
      rewrite list_lookup_alter_eq. by destruct (heap s' !! b).
  - eapply halfway_change; [done|apply He'|done|done| |simpl; by rewrite length_alter|done].
    intros e x _ Hx. eexists. split; [by apply span_lookup|]. by case_decide.
Qed.

Lemma perform_sound z cap c o stored :
  fine cap (st c) (open c) (ending c) stored (recorded c) → allowed c o →
  ∃ c' stored', perform z c o = Some c' ∧ fine cap (st c') (open c') (ending c') stored' (recorded c').
Proof.
  intros Hs Ha. destruct o as [choice n i now|p choice n now|p n now|p n v|a now|a]; simpl.
  - unfold NewRoot. destruct (negb (enabled z)); [by eexists _, _|]. destruct (negb (shouldSample z i)); [by eexists _, _|].
    destruct (new_sound cap (st c) choice n i ByRPCZ now _ _ _ _ Hs Ha I) as (a & s' & sp & -> & Hs' & _).
    simpl. by eexists _, _.
  - destruct Ha as [Hp Hch]. destruct (child_sound _ _ _ choice n now _ _ _ _ Hs Hp Hch) as (a & s' & -> & Hs').
    simpl. by eexists _, _.
  - eexists _, stored. split; [done|]. by apply use_sound.
  - eexists _, stored. split; [done|]. by apply use_sound.
  - destruct Ha as [Ha Hnow]. destruct Hs as [Hs He].
    destruct (trySetEndTime_sound _ _ _ _ _ _ _ _ Hs He Ha Hnow) as (s' & -> & ? & ?). simpl. by eexists _, _.
  - destruct Ha as [Ha Hu]. destruct Hs as [Hs He].
    destruct (End_record_sound z _ _ _ _ _ _ _ Hs He Ha) as (s' & stored' & E & Hs' & Hlen & Hst). rewrite E. simpl.
    eexists _, stored'. split; [done|]. split; [done|]. by eapply End_record_halfway.
Qed.

Lemma init_fine cap st0 :
  (0 < cap ≤ 2 ^ 31)%Z → newSpanStore cap = Some st0 →
  fine cap (st (init st0)) (open (init st0)) (ending (init st0)) [] (recorded (init st0)).
Proof.
  intros Hcap Hst0. destruct (newSpanArray_holds (A:=nat) cap Hcap) as (arr & Harr & Hh).
  unfold newSpanStore in Hst0. rewrite Harr in Hst0. simplify_eq/=. split; [split|]; simpl; try done.
  - split; simpl; try done; try apply NoDup_nil_2; try (intros a Ha; by apply elem_of_nil in Ha). by exists (λ _, 0).
  - unfold newSpanArray in Harr. case_match; by simplify_eq.
  - exists [], []. split_and!; try done. split; [intros a i Ha; by apply elem_of_nil in Ha|done|].
    intros a i Ha. by apply elem_of_nil in Ha.
  - split; [apply NoDup_nil_2|]. intros a Ha. by apply elem_of_nil in Ha.
Qed.

Lemma reachable_sound z cap st0 c :
  (0 < cap ≤ 2 ^ 31)%Z → newSpanStore cap = Some st0 → rtc (step z) (init st0) c →
  ∃ stored, fine cap (st c) (open c) (ending c) stored (recorded c).
Proof.
  intros Hcap Hst0 Hr.
  assert (∃ stored, fine cap (st (init st0)) (open (init st0)) (ending (init st0)) stored (recorded (init st0))) as Hi.
  { exists []. by apply init_fine. }
  revert Hi.
  induction Hr as [c|c c1 c2 (o & Ha & Hp) _ IH]; [done|]. intros (stored & Hs).
  destruct (perform_sound z cap c o stored Hs Ha) as (c' & stored' & Hp' & Hs'). apply IH. rewrite Hp in Hp'.
  simplify_eq. eauto.
Qed.

(** *** Children that end before their parents

    A sufficient condition for [undisturbed]: a span ends after all that is below it is recorded. *)

Definition orderly (c : config) (o : op) : Prop :=
  match o with
  | OEnd a now => a ∈ open c ∧ now ≠ 0%Z ∧ ∀ e, e ∈ open c ++ ending c → e ≠ a → ¬ below (st c) a e
  | ORecord a => a ∈ ending c
  | _ => allowed c o
  end.

Definition calm (s : state) (live : list nat) : Prop := ∀ x sp e,
  heap s !! x = Some sp → endTime sp ≠ 0%Z → e ∈ live → e ≠ x → ¬ below s x e.

Lemma calm_undisturbed cap c stored a :
  fine cap (st c) (open c) (ending c) stored (recorded c) → calm (st c) (open c ++ ending c) → a ∈ ending c →
  undisturbed (st c) (ending c) a.
Proof.
  intros [[Ho Hh _ _] He] Hcalm Ha x e Hx Hin Hne.
  destruct (h_in _ _ _ He a Ha) as (_ & _ & sp & r & Hsp & Hend & Hr & _).
  unfold put_by in Hx. rewrite Hsp in Hx. simpl in Hx. rewrite Hr in Hx. destruct r as [|p].
  - unfold evicted in Hx. destruct (full _) eqn:E; [|done]. destruct stored as [|b tl].
    { exfalso. unfold full in E. rewrite (holds_length _ _ Hh) in E. apply Z.leb_le in E.
      pose proof (holds_capacity _ _ Hh). unfold zlen in *. simpl in *. lia. }
    rewrite (front_holds _ _ _ Hh) in Hx. simplify_eq.
    destruct (o_stored_in _ _ _ _ Ho x) as (_ & _ & y & Hy & Hz & _); [by left|].
    apply (Hcalm x y e Hy Hz); [set_solver|]. intros ->. destruct (h_in _ _ _ He x Hin) as (_ & Hn & _). set_solver.
  - destruct (decide _); [done|]. simplify_eq. apply (Hcalm x sp e Hsp Hend); [set_solver|done].
Qed.

(** The spans that are given out do not get below one that is ended. *)
Lemma calm_new s s' a live open' stored :
  calm s live → owned s' open' stored [a] → a ∈ open' → childSpans <$> heap s' !! a = Some [] →
  (∀ b x, b ≠ a → heap s' !! b = Some x ↔ heap s !! b = Some x) → calm s' (a :: live).
Proof.
  intros Hc Ho Ha Hch Hk x sp e Hx Hz He Hne Hb.
  assert (x ≠ a) as Hxa. { intros ->. by destruct (o_open_in _ _ _ _ Ho a Ha) as (_ & ? & ? & ? & ? & _); simplify_eq. }
  destruct (decide (e = a)) as [->|Hea].
  - apply rtc_inv_r in Hb as [->|(y & _ & ysp & Hy & Hin)]; [done|].
    destruct (o_child _ _ _ _ Ho y ysp a Hy Hin) as (_ & Hn & _). set_solver.
  - apply (Hc x sp e); [by apply Hk|done|set_solver|done|]. revert Hb. apply rtc_subrel. intros p c (psp & Hp & Hin).
    exists psp. split; [|done]. apply Hk; [|done]. intros ->. rewrite Hp in Hch. simplify_eq/=.
    rewrite Hch in Hin. by apply elem_of_nil in Hin.
Qed.

Lemma calm_adopt s p a live psp :
  calm s live → p ∈ live → heap s !! p = Some psp → endTime psp = 0%Z →
  calm (upd p (λ s, s <| childSpans := childSpans s ++ [a] |>) s) live.
Proof.
  intros Hc Hp Hpsp Hpz x sp e Hx Hz He Hne Hb.
  destruct (span_lookup_inv _ _ _ _ _ Hx) as (y & Hy & ->).
  assert (endTime y ≠ 0%Z) as Hyz by (by case_decide).
  assert (p ≠ x) as Hpx by (intros ->; by simplify_eq).
  assert (below s x e ∨ below s x p) as [H|H]; [|exact (Hc x y e Hy Hyz He Hne H)|exact (Hc x y p Hy Hyz Hp Hpx H)].
  clear -Hb.
  induction Hb as [x|x w e (xsp & Hx & Hin) _ IH]; [left; apply rtc_refl|].
  destruct (span_lookup_inv _ _ _ _ _ Hx) as (y & Hy & ->).
  case_decide as E; [right; subst; apply rtc_refl|].
  assert (child s x w) as Hxw by (by exists y). destruct IH; [left|right]; by eapply rtc_l.
Qed.

Lemma calm_upd s a f live :
  calm s live → (∀ sp : span, childSpans (f sp) = childSpans sp) →
  (∀ e sp, heap s !! a = Some sp → endTime (f sp) ≠ 0%Z → endTime sp = 0%Z → e ∈ live → e ≠ a → ¬ below s a e) →
  calm (upd a f s) live.
Proof.
  intros Hc Hf Ha x sp e Hx Hz He Hne Hb.
  assert (below s x e) as H.
  { revert Hb. apply rtc_subrel. intros p c (psp & Hp & Hin).
    destruct (span_lookup_inv _ _ _ _ _ Hp) as (y & Hy & ->). exists y. split; [done|]. case_decide; [|done].
    by rewrite Hf in Hin. }
  destruct (span_lookup_inv _ _ _ _ _ Hx) as (y & Hy & ->).
  destruct (decide (endTime y = 0%Z)) as [E|E]; [|by eapply Hc].
  case_decide; [subst|done]. by eapply Ha.
Qed.

Lemma calm_record cap z s a s' open ending stored log live live' :
  fine cap s open ending stored log → calm s live → a ∈ ending → End_record z a s = Some s' → live' ⊆ live →
  calm s' live'.
Proof.
  intros [Hs He] Hc Ha H Hsub. destruct (h_in _ _ _ He a Ha) as (_ & _ & sp & r & Hsp & _ & Hr & _).
  unfold End_record in H. rewrite Hsp in H. simpl in H. rewrite Hr in H. simpl in H.
  set (e0 := length (heap s) + S (default 0 (put_by s a))).
  assert (spares e0 s s') as [_ _ _ H4 H5].
  { eapply record_spares; [exact H|by rewrite Hsp|]. intros x Hx Hb. unfold e0 in Hb. rewrite Hx in Hb. simpl in Hb.
    apply rtc_inv_r in Hb as [?|(y & _ & ysp & Hy & Hin)]; [lia|].
    destruct (o_child _ _ _ _ (s_owned _ _ _ _ _ Hs) _ _ _ Hy Hin) as (_ & _ & c & Hcs & _).
    apply lookup_lt_Some in Hcs. lia. }
  intros x xsp e Hx Hz Hin Hne Hb. apply (Hc x xsp e); [by apply H5|done|by apply Hsub|done|].
  revert Hb. by apply rtc_subrel.
Qed.

Lemma calm_perform z cap c o c' stored :
  fine cap (st c) (open c) (ending c) stored (recorded c) → calm (st c) (open c ++ ending c) → orderly c o →
  perform z c o = Some c' → calm (st c') (open c' ++ ending c').
Proof.
  intros Hs Hc Ho Hp. destruct o as [choice n i now|p choice n now|p n now|p n v|a now|a]; simpl in Ho, Hp.
  - unfold NewRoot in Hp. destruct (negb (enabled z)); [by simplify_eq/=|].
    destruct (negb (shouldSample z i)); [by simplify_eq/=|].
    destruct (new_sound cap (st c) choice n i ByRPCZ now _ _ _ _ Hs Ho I) as
      (a & s' & sp & E & _ & Ho' & Hsp & _ & Hch & _ & Hk). rewrite E in Hp. simplify_eq/=.
    eapply calm_new; [done|done|by left|by rewrite Hsp; simpl; f_equal|done].
  - destruct Ho as [Hpo Hch]. pose proof (s_owned _ _ _ _ _ (f_sound _ _ _ _ _ _ Hs)) as Ho.
    destruct (o_open_in _ _ _ _ Ho p Hpo) as (Hpp & psp & r & Hpsp & Hpz & _). unfold NewChild in Hp. rewrite Hpsp in Hp.
    simpl in Hp. destruct (new_sound cap (st c) choice n (id psp) (BySpan p) now _ _ _ _ Hs Hch) as
      (a & s' & sp & E & _ & Ho' & Hsp & _ & Hchd & Hao & Hk); [by eapply lookup_lt_Some|].
    rewrite E in Hp. simplify_eq/=. assert (p ≠ a) as Hne by (by intros ->).
    eapply calm_adopt; [|set_solver|by apply Hk|done].
    eapply calm_new; [done|done|by left|by rewrite Hsp; simpl; f_equal|done].
  - simplify_eq/=. apply calm_upd; [done|done|]. intros; simpl in *; congruence.
  - simplify_eq/=. apply calm_upd; [done|done|]. intros; simpl in *; congruence.
  - destruct Ho as (Ha & Hnow & Hlow). destruct Hs as [Hs He].
    destruct (trySetEndTime_sound _ _ _ _ _ _ _ _ Hs He Ha Hnow) as (s' & E & _). rewrite E in Hp. simplify_eq/=.
    unfold trySetEndTime in E. destruct (heap (st c) !! a) as [sp|]; [|done]. simpl in E.
    destruct (endTime sp =? 0)%Z; simplify_eq.
    assert (∀ e, e ∈ without a (open c) ++ a :: ending c → e ∈ open c ++ ending c) as Hin.
    { intros e. rewrite !elem_of_app, elem_of_without, elem_of_cons. naive_solver. }
    apply calm_upd; [|done|].
    + intros x y e Hx Hz Hlive. by eapply Hc, Hin.
    + intros e y Hy _ _ Hlive Hne. by apply Hlow; [apply Hin|].
  - destruct (End_record z a (st c)) as [s'|] eqn:E; [|done]. simplify_eq/=.
    eapply calm_record; [done|done|exact Ho|done|]. intros e. rewrite !elem_of_app, elem_of_without. naive_solver.
Qed.

(** If every span is ended after what is below it was recorded, then no end is disturbed. *)
Lemma children_first z cap st0 c :
  (0 < cap ≤ 2 ^ 31)%Z → newSpanStore cap = Some st0 →
  rtc (λ c c', ∃ o, orderly c o ∧ perform z c o = Some c') (init st0) c →
  rtc (step z) (init st0) c ∧ ∀ o, orderly c o → allowed c o.
Proof.
  intros Hcap Hst0 Hr.
  assert (∀ c stored, fine cap (st c) (open c) (ending c) stored (recorded c) →
    calm (st c) (open c ++ ending c) → ∀ o, orderly c o → allowed c o) as Hal.
  { intros c1 stored Hs Hc [] Ho; simpl in *; try done; [by destruct Ho as (? & ? & _)|].
    split; [done|by eapply calm_undisturbed]. }
  cut (rtc (step z) (init st0) c ∧ calm (st c) (open c ++ ending c)).
  { intros [H1 H2]. split; [done|]. destruct (reachable_sound z cap st0 c Hcap Hst0 H1) as [stored Hs]. by eapply Hal. }
  revert c Hr. apply rtc_ind_r; [|intros c1 c2 _ (o & Ho & Hp) [IH1 IH2]].
  { split; [apply rtc_refl|]. intros x sp e _ _ He. by apply elem_of_nil in He. }
  destruct (reachable_sound z cap st0 c1 Hcap Hst0 IH1) as [stored Hs]. split; [|by eapply calm_perform].
  eapply rtc_r; [done|]. exists o. split; [by eapply Hal|done].
Qed.


(** *** What the store answers *)

(** The last [cap] spans of a history, newest first. *)
Definition recent (cap : Z) (log : list (nat * Z)) : list (nat * Z) := take (Z.to_nat cap) (reverse log).

Lemma sound_recent cap s open stored log :
  sound cap s open stored log →
  reverse stored = (recent cap log).*1 ∧
  ∃ new, knows (heap s) (idSpans (store s)) log new ∧ ∀ p, p ∈ new ↔ p ∈ recent cap log.
Proof.
  intros [_ Hh Hc (old & new & -> & Hn & Hold & Hk)].
  assert (recent cap (old ++ new) = reverse new) as E.
  { unfold recent. rewrite reverse_app. pose proof (holds_fits _ _ Hh) as Hf. rewrite Hc in Hf.
    rewrite <- Hn in Hf, Hold. unfold zlen in *. rewrite length_fmap in *. destruct old as [|x old].
    - rewrite reverse_nil, app_nil_r, take_ge; [done|]. rewrite length_reverse. lia.
    - specialize (Hold ltac:(done)). rewrite take_app_length'; [done|]. rewrite length_reverse. lia. }
  rewrite E, <- Hn. split; [by rewrite fmap_reverse|]. exists new. split; [done|]. intros q. by rewrite elem_of_reverse.
Qed.

Lemma batch_sound cap s open stored log num :
  sound cap s open stored log → batch num s = Some (take (Z.to_nat num) (recent cap log).*1).
Proof.
  intros Hs. rewrite <- (proj1 (sound_recent _ _ _ _ _ Hs)). destruct Hs as [_ Hh _ _]. unfold batch, doBackward.
  rewrite (holds_tail _ _ Hh), (holds_length _ _ Hh). unfold zlen. rewrite Nat2Z.id.
  rewrite (doBackward_loop_holds _ _ _ _ _ Hh) by done. rewrite firstn_all. simpl. f_equal.
  generalize (reverse stored) as l. intros l.
  cut (∀ acc, (snd ((fix go (l : list nat) (s : Z * list nat) := match l with
      | [] => s
      | v :: l => let '(s, more) := (let '(num, l) := s in if (num <=? 0)%Z then ((num, l), false)
          else (((num - 1)%Z, l ++ [v]), true)) in if more then go l s else s
      end) l (num, acc))) = acc ++ take (Z.to_nat num) l); [intros H; apply (H [])|].
  revert num. induction l as [|v l IH]; intros num acc; [by rewrite take_nil, app_nil_r|].
  destruct (Z.leb_spec num 0).
  - replace (Z.to_nat num) with 0 by lia. by rewrite app_nil_r.
  - rewrite IH, <- app_assoc. replace (Z.to_nat num) with (S (Z.to_nat (num - 1))) by lia. done.
Qed.

(** C29. The store of spans is the list of the last spans that were recorded, as many as the capacity: a batch
    query reads the newest ones, newest first; a query by id reads one of these with the id, and it
    reads the span that was recorded with the id if no other span was; and reading never fails, whatever
    was evicted and reused meanwhile. *)
Theorem store_recent z cap st0 c :
  (0 < cap ≤ 2 ^ 31)%Z → newSpanStore cap = Some st0 → rtc (step z) (init st0) c →
  (∀ num, batch num (st c) = Some (take (Z.to_nat num) (recent cap (recorded c)).*1) ∧ is_Some (batchQuery num (st c))) ∧
  (∀ i, ∃ r, query i (st c) = Some r ∧
     (∀ ro, r = Some ro → ∃ a, (a, i) ∈ recent cap (recorded c) ∧ convert (st c) a = Some ro) ∧
     (∀ a, (a, i) ∈ recent cap (recorded c) → once i (recorded c) → ∃ ro, r = Some ro ∧ convert (st c) a = Some ro)) ∧
  (∀ a i, (a, i) ∈ recent cap (recorded c) → id <$> heap (st c) !! a = Some i).
Proof.
  intros Hcap Hst0 Hr. destruct (reachable_sound z cap st0 c Hcap Hst0 Hr) as (stored & [Hs _]).
  pose proof (s_owned _ _ _ _ _ Hs) as Ho. destruct (sound_recent _ _ _ _ _ Hs) as (Hrec & new & Hk & Hnew).
  assert (∀ a, a ∈ (recent cap (recorded c)).*1 → is_Some (convert (st c) a)) as Hconv.
  { intros a Ha. rewrite <- Hrec, elem_of_reverse in Ha.
    destruct (o_stored_in _ _ _ _ Ho a Ha) as (_ & _ & sp & Hsp & _). by eapply convert_total, lookup_lt_Some. }
  assert (∀ a i, (a, i) ∈ recent cap (recorded c) → is_Some (convert (st c) a)) as Hconv'.
  { intros a i Ha. apply Hconv, list_elem_of_fmap. by exists (a, i). }
  split_and!.
  - intros num. pose proof (batch_sound _ _ _ _ _ num Hs) as Hb. split; [done|]. unfold batchQuery. rewrite Hb. simpl.
    apply mapM_is_Some, Forall_forall. intros a Ha. apply Hconv.
    rewrite <- (take_drop (Z.to_nat num) (recent cap (recorded c)).*1). apply elem_of_app. by left.
  - intros i. unfold query. destruct (idSpans (store (st c)) !! i) as [a|] eqn:E.
    + pose proof (proj1 (Hnew _) (k_ids _ _ _ _ Hk i a E)) as Hin. destruct (Hconv' _ _ Hin) as [ro Hro]. rewrite Hro.
      exists (Some ro). split; [done|]. split; [intros ? [= <-]; by exists a|]. intros b Hb Hon.
      pose proof (k_once _ _ _ _ Hk b i (proj2 (Hnew _) Hb) Hon). simplify_eq. by exists ro.
    + exists None. split; [done|]. split; [done|]. intros b Hb Hon.
      pose proof (k_once _ _ _ _ Hk b i (proj2 (Hnew _) Hb) Hon). congruence.
  - intros a i Ha. by apply Hk, Hnew.
Qed.
End rpcz.

Arguments span V : clear implicits.
Arguments state V : clear implicits.
Arguments RPCZ V : clear implicits.
Arguments ReadOnlySpan V : clear implicits.

(** ** A root that is evicted while a child of it ends *)
Module RpczExamples.

Definition z : RPCZ nat := MkRPCZ (λ _ _, true) 100 false true.
Definition st0 : spanStore := MkStore ∅ (MkArray 1 0 [None] 0 0).

Definition performs (c : config) (l : list op) : option config := foldl (λ r o, c ← r; perform z c o) (Some c) l.

(** A root with a child, and another root; the first root has ended and is in the store, which has room
    for one span; the other one has set its end time. *)
Definition before : option config :=
  performs (init st0) [ORoot None "a" 1 10; OChild 0 None "b" 11; ORoot None "c" 2 12; OEnd 0 13; ORecord 0; OEnd 2 15].

Definition c0 : config := default (init st0) before.

(** The child ends: it sets its end time; before it calls its parent, the other root is recorded, and its
    insertion evicts the first root and puts the child, which is ended, into the pool. *)
Definition half : option config := performs c0 [OEnd 1 14; ORecord 2].

(** If the child reads its parent now, the method of a nil recorder is called. *)
Lemma end_races_panic : (c ← half; perform z c (ORecord 1)) = None ∧ pool ∘ st <$> half = Some [0; 1].
Proof. vm_compute. done. Qed.

(** If it has read it before, the span is put into the pool a second time, and two callers get it. *)
Lemma end_races_twice : pool <$> (c ← half; record_child 0 1 (st c)) = Some [1; 0; 1].
Proof. vm_compute. done. Qed.

(** Two roots with the same id, in a store for two: the eviction of the first takes the id of the second
    out of the index, and a query does not find it though it is in the store. *)
Lemma repeated_id_forgotten :
  let c := default (init st0) (performs (init (MkStore ∅ (MkArray 2 0 [None; None] 0 0)))
    [ORoot None "a" 1 10; OEnd 0 11; ORecord 0; ORoot None "b" 1 12; OEnd 1 13; ORecord 1;
     ORoot None "c" 2 14; OEnd 2 15; ORecord 2]) in
  query 1 (st c) = Some None ∧ batch 2 (st c) = Some [2; 1] ∧ id <$> heap (st c) !! 1 = Some 1%Z.
Proof. vm_compute. done. Qed.

Ltac run o := eapply rtc_l; [exists o; split; [|vm_compute; reflexivity]|].

Lemma c0_reachable : rtc (step z) (init st0) c0.
Proof.
  run (ORoot (V:=nat) None "a" 1 10); [done|].
  run (OChild (V:=nat) 0 None "b" 11); [split; [by left|done]|].
  run (ORoot (V:=nat) None "c" 2 12); [done|].
  run (OEnd (V:=nat) 0 13); [split; [by do 2 right; left|done]|].
  run (ORecord (V:=nat) 0); [split; [by left|by intros x e Hx]|].
  run (OEnd (V:=nat) 2 15); [split; [by left|done]|].
  apply rtc_refl.
Qed.

Lemma st0_new : newSpanStore 1 = Some st0.
Proof. reflexivity. Qed.


Lemma store_recent_witness : ∃ ro, query 1 (st c0) = Some (Some ro).
Proof.
  destruct (proj1 (proj2 (store_recent z 1 st0 c0 ltac:(by split) st0_new c0_reachable)) 1%Z) as (r & Hq & _ & H).
  destruct (H 0) as (ro & -> & _); [by left|vm_compute; reflexivity|]. exists ro. exact Hq.
Defined.
End RpczExamples.
